(* ===== verification/_CoqProject ===== *)
-Q . S2P
Prelude.v
GoErr.v
PathOrder.v
Json.v
JobTypes.v
DiskCheckpoint.v
SchedState.v
JobStore.v
Sched.v
SchedLogic.v
SchedInv.v
SchedWp.v
SchedWpRun.v
SchedWpApi.v
SchedSafety.v
SchedExamples.v
Limiter.v
GoString.v
GoNumber.v
JsonStruct.v
DebVersion.v
Calls.v
CallsWp.v
ArraySeq.v
ArraySafety.v
ArrayGates.v
ParityLog.v
ParityRead.v
Guard.v
Binary64.v
GuardSafety.v
Engine.v
EngineSafety.v
Chain.v
ChainSafety.v
Ups.v
UpsSafety.v
DiskTree.v
DiskUpgrade.v
DiskUpgradeSafety.v
DiskCopySafety.v
GoPath.v
CacheOs.v
CopyEntry.v
Mover.v
CopyContent.v
CopySafety.v
MoverSafety.v
MoverRun.v
MoverResume.v
Relocate.v
ManifestSafety.v
RelocateSafety.v
Rebalance.v
RebalanceSafety.v
PlanMoves.v
PlanSafety.v
Evacuate.v
EvacuateSafety.v
ArrayStore.v
ArrayStoreInv.v
Layout.v
LayoutSafety.v
Handlers.v
Params.v
DiskRemove.v
DiskRemoveSafety.v
DiskRemoveRuns.v
Alike.v
EvacuationRun.v
EvacuationRunSafety.v
Calendar.v
Schedule.v
ScheduleSafety.v
