(* ===== verification/Prelude.v ===== *)
(** * Verification of the hoserva daemon

    Hoserva is the control plane of a home NAS built from SnapRAID parity, a
    mergerfs pool and per-disk filesystems. This library models, in Rocq, the
    parts of the daemon (the Go code under [src/internal]) whose failure loses
    data or locks users out, and proves what makes them correct. Definitions keep
    the names of the code; each file's opening comment names the Go file it
    models.

    ** The parts and how they interact

    - The job scheduler ([internal/job/scheduler.go], with [types.go],
      [exclusion.go], [registry.go], [schedule_conflict.go], [store.go] and
      [job.go]) admits, queues, starts, stops and records every long-running job.
      JobTypes: types, classes, conflicts. SchedState: jobs, running and queued
      entries, the scheduler's fields and the world it acts on (job rows, hub,
      live goroutines, channels). JobStore: the SQL statements, each of which can
      fail. Sched: every method, cut at its lock holds into programs of atomic
      actions, so that other goroutines can act between any two. SchedSafety
      interleaves any number of such programs.
    - The nightly chain ([internal/job/chain.go]) in Chain submits the mover, the
      sync and the scrub to the scheduler and asks the guard in between. When it
      and the other recurring jobs run is [internal/job/schedule.go] in Schedule,
      over Go's calendar in Calendar. What a job's stored parameters mean
      ([internal/job/params.go]) is in Params.
    - The array sequence ([internal/job/array.go]) in ArraySeq and ArrayGates
      stops and starts services, mounts and the storage target around the
      scheduler's maintenance mode; the UPS controller ([internal/job/ups.go]) in
      Ups runs it, then powers the host off, when the battery is low.
    - SnapRAID ([internal/parity]): ParityLog parses its logs, Guard decides
      whether a sync may run, Engine runs the binary, and the chain's pre-check
      ([internal/job/diffguard.go]) asks the same guard.
    - The data-disk upgrade ([internal/disk/upgrade_data.go]): DiskTree copies and
      compares trees, DiskUpgrade runs the phases, DiskCheckpoint is the
      checkpoint the scheduler also reads.
    - The mover ([internal/cache], on the link-free walk of [internal/beneath])
      takes files off the cache: CacheOs is what it asks of the kernel, CopyEntry
      copies one entry, Mover decides about each entry and runs the passes. The
      same copy serves a share's relocation (Relocate), the rebalance of the array
      (PlanMoves plans it, Rebalance runs the plan in batches) and the evacuation
      of a disk (Evacuate plans what Rebalance runs, and checks that the disk is
      empty). What is put between a copy and the removal of its original, a parity
      sync with a manifest, is the engine's and the guard's.
    - A disk leaves the array in two jobs. EvacuationRun ([evacuation_run.go]) marks
      it, runs the plan and checks it; DiskRemove ([disk_remove_run.go]) takes it out
      of the pool, out of SnapRAID's list and out of the table. Both keep their place
      in the array's store ([internal/store/array.go], ArrayStore), whose rows Layout
      ([internal/parity/layout.go], [array_apply.go]) turns into snapraid.conf, mounts
      and the pool. The jobs run bodies of [internal/cache] as they are, under
      Handlers, which answer the calls of a body with calls of the job.
    - The login limiter ([internal/auth/ratelimit.go]) in Limiter, and the version
      order of the updater ([internal/update/version.go]) in DebVersion.

    Shared: Prelude (integers, results, the state and error monad, programs that
    release their lock), GoErr (error values, [errors.Is], [errors.As]), GoString
    (Go's string functions and [filepath.Clean]), GoNumber ([strconv]), Json and
    JsonStruct (the fragment of [encoding/json] in use), Binary64 (bounds on
    percentages as floats), Calls (components that drive others only through
    interfaces: an environment answers each call, possibly from all calls before
    it, so that a statement for all environments holds for every implementation),
    CallsWp (a weakest precondition for bodies that make calls), PathOrder and
    GoPath ([sort.Strings] and [path/filepath]).

    ** What the theorems show

    - SchedSafety (C1-C5), for every interleaving, every failing statement and
      every RunFunc, by rule induction over an invariant of the scheduler
      (SchedLogic, SchedInv; one triple per method in SchedWp, SchedWpRun and
      SchedWpApi): conflicting jobs never run at once, no job runs twice, a database
      restore is alone, an upgrade past its release is not cancelled, no job leaks.
      [one_place_per_job], [restore_owns_the_table] and [stopCh_closed_once] are
      there too.
    - Limiter (C6, C7): lockouts cannot be lifted by flooding, the delay is right
      although the 64-bit shift overflows; [account_count_survives] and
      [tables_bounded] say what a flood cannot do, [evicts_the_least_failed] that the
      victim of an eviction is the right one.
    - DebVersion (C8): the comparison terminates and is dpkg's order, total and
      transitive ([version_order_total]); [release_order]: it orders release
      versions by number.
    - ArraySafety, ArrayGates (C9, C10): a stop follows its plan
      ([stop_follows_plan]) and powers off last ([power_off_comes_last]), nothing is
      unmounted in use, a start is all or nothing.
    - GuardSafety, EngineSafety, ParityRead (C11-C15): what a manifest excuses,
      exactly when the guard blocks, no sync past the guard, the pre-check agrees
      with it, logs are read back exactly; [fix_succeeds_only_when_restored],
      [skipping_the_list_is_sound], [report_counts_what_changed] and
      [sync_success_wrote_parity] say when a fix, the list, the report and a sync can be relied on.
    - ChainSafety (C16): a night is its due steps in order;
      [sync_waits_for_the_guard]: nothing is synced past the guard.
    - UpsSafety (C17, C18): shutdowns never overlap, every reaction ends;
      [battery_follows_power]: the battery hold follows the power. The lemma
      [short_outage_strands_the_mover] shows what overlapping notifications do.
    - DiskUpgradeSafety, DiskCopySafety (C19-C21): over all runs of an upgrade the
      old disk is released only once replaced; what the copy carries and when the
      verification accepts it. The lemma [setgid_is_lost] shows what it does not.
    - MoverRun, CopyContent, MoverResume (C22-C24): a source is unlinked only once
      the calls before it copied it whole (CopyContent folds the calls that write
      into what they build; CopySafety and MoverSafety say what each body leaves),
      the copy of a content ends and is exact, passes that are stopped and resumed
      decide each entry once, and reports are true ([report_is_true]). The lemma
      [pending_delete_skips_the_fsync] shows a source that is unlinked although
      the name of its copy was never made durable.
    - RelocateSafety, RebalanceSafety (C25-C27), on what ManifestSafety says of a
      manifest entry: over all runs, each resumed from what the last one saved and
      cut off anywhere, an original is unlinked only after its copy and then a
      sync that carried it; a rebalance ends. The examples [stopped_has_no_end] and
      [sized_batch_is_refused] show a report without an end and a batch that two
      roundings disagree about.
    - PlanSafety, EvacuateSafety (C28, C29): planned moves fit, a plan of an
      evacuation forgets nothing; [passed_disk_is_empty]: the check passes an empty
      disk only. The example [two_shares_overcommit] shows two shares that fill one
      target.
    - ArrayStoreInv (C30): an invariant of the table under every sequence of methods
      and every failing statement; among it, one disk is in removal at most.
    - LayoutSafety (C31): which layouts are accepted and where the copies of SnapRAID's
      content file go; [rows_are_listed]: which disks a configuration lists.
    - DiskRemoveSafety, DiskRemoveRuns (C32-C35): over all runs, a disk leaves
      SnapRAID's list only when parity recorded it empty, and the array only when it
      left the list; no file is removed; and a run whose calls succeed gets there.
      The first two go through what the table guarantees although others use it.
    - EvacuationRunSafety (C36-C38): the guarantee of a rebalance, carried through
      the job that answers its calls (Alike: a batch does the same when only the
      answers of its saves differ); the disk is marked evacuated only when empty; and
      however the job ends, its exemption from the guard is let go of or reported.
    - ScheduleSafety (C39, C40), for locations whose clock shows the time of day on
      every date: a job is due from the instant that was shown as its next run, once
      per window; [conflicts_reported_once]. The examples [preview_after_gap_is_late]
      and [preview_in_the_past] show what is shown where a clock change skips it.
    - Params: [fix_path_names_one_file], what path a fix accepts.

    ** Bounds and fuel

    Machine integers are Z, wrapped with [wrap64] where the code can overflow;
    counters that cannot reach 2^63 in a run are plain. Only the scheduler's
    [dispatch], which calls itself, is run with fuel, and only in the examples:
    the safety theorems are about its step relation, which needs none. The mover's
    loop over the extents of a file has one turn of fuel per byte, enough because
    each extent has one (C23), and DebVersion's loops over a version the length of
    the string. A rebalance's run has one turn of fuel per move and one for the
    end, enough because each batch moves on (C27), and its planning one per file
    and one for the end (C28). All else is structurally recursive, so that it
    returns is part of its definition; the UPS reactions are a step relation,
    whose termination is C18.

    ** Not modelled

    - Rendering: the HTTP API and its generated code, the web interface, the
      command line ([cmd]), the log files of jobs.
    - The RunFuncs of the other job types ([internal/job/*_run.go]) and what their
      parameters decode to; a scheduler theorem takes RunFuncs as arbitrary functions
      that keep their contract.
    - Of the array's store, the disks that a migration only recorded and its
      finishing; of the removal and the evacuation, the log, the generator of unit
      files and the regeneration of the live pool (calls).
    - Of [internal/cache]: the stored results, the log and progress of a run, the
      [/proc] walk of the open-file checker, [filepath.Match] and the order
      [sort.Slice] gives files of one size (parameters); error texts leave out
      numbers, and closing a descriptor that was only read from is not a call. A
      hook that is not set answers nil or zero, a save of the mover that failed
      counts as not applied (for the others it may be either), a slice has no spare
      capacity, a time in JSON is a value of its own ([JTime]), and [int(x)] of a float out of range is what amd64 makes of it.
    - The pool ([internal/pool]), shares, backups, migration, templates, containers,
      notifications, ACME and the update engine.
    - SQL, system calls, systemd, the SnapRAID binary and [crypto]: calls or
      parameters. Go's map order is a parameter too ([RangeOrder]).
    - The rules of time zones: a location is its offsets from UTC, and the theorems on
      schedules say what they ask of them. *)
From stdpp Require Export base gmap strings list sorting fin_maps.
From Stdlib Require Export ZArith Lia.

(** ** Machine integers

    Go's [int], [int64] and [time.Duration] are 64-bit two's complement. *)
Definition wrap64 (z : Z) : Z := ((z + 2 ^ 63) mod 2 ^ 64 - 2 ^ 63)%Z.
Definition max_int64 : Z := (2 ^ 63 - 1)%Z.
Definition min_int64 : Z := (- 2 ^ 63)%Z.
Definition in_int64 (z : Z) : Prop := (min_int64 ≤ z ≤ max_int64)%Z.
Lemma wrap64_small z : in_int64 z → wrap64 z = z.
Proof. unfold in_int64, min_int64, max_int64, wrap64. intros H. rewrite Z.mod_small; lia. Qed.

(** ** Results: Go's [(value, error)] pairs, used exclusively *)
Inductive res (E A : Type) : Type :=
| Ok (a : A)
| Err (e : E).
Arguments Ok {E A} _.
Arguments Err {E A} _.

Definition is_ok {E A} (r : res E A) : bool := match r with Ok _ => true | Err _ => false end.

Definition err_of {E A} (r : res E A) : option E :=
  match r with Ok _ => None | Err e => Some e end.

(** ** State and error monad

    A section of code that runs without releasing its lock is a function of
    the world. A failing section keeps the changes it made before it failed,
    as in Go, where returning an error undoes nothing. *)
Definition stM (W E A : Type) : Type := W → res E A * W.

#[export] Instance stM_ret {W E} : MRet (stM W E) := λ A a w, (Ok a, w).
#[export] Instance stM_bind {W E} : MBind (stM W E) := λ A B k m w,
  match m w with
  | (Ok a, w') => k a w'
  | (Err e, w') => (Err e, w')
  end.

Definition throw {W E A} (e : E) : stM W E A := λ w, (Err e, w).
Definition get {W E} : stM W E W := λ w, (Ok w, w).
Definition modify {W E} (f : W → W) : stM W E unit := λ w, (Ok tt, f w).
(** Runs [m] and hands its outcome on as a value: [if err := m(); err != nil]. *)
Definition attempt {W E A} (m : stM W E A) : stM W E (res E A) := λ w,
  let (r, w') := m w in (Ok r, w').
(** [if b { return e }] *)
Definition throw_if {W E} (b : bool) (e : E) : stM W E unit := if b then throw e else mret tt.

(** ** Programs that release their lock

    A method that takes a lock more than once, calls out of the package between
    two lock holds, or is interleaved with other goroutines is a [prog]: a
    sequence of atomic actions. [Call] is a call of the one recursive procedure
    a component has (the scheduler's [dispatch]); [Wait c k kc] blocks until
    [c] holds and goes on with [k], or goes on with [kc] when the caller's
    context is done first. *)
Inductive prog (W A : Type) : Type :=
| Ret (a : A)
| Act (f : W → W) (k : W → prog W A)
| Call (k : prog W A)
| Wait (c : W → bool) (k kc : prog W A).
Arguments Ret {W A} _.
Arguments Act {W A} _ _.
Arguments Call {W A} _.
Arguments Wait {W A} _ _ _.

Fixpoint prog_bind {W A B} (p : prog W A) (k : A → prog W B) : prog W B :=
  match p with
  | Ret a => k a
  | Act f p' => Act f (λ w, prog_bind (p' w) k)
  | Call p' => Call (prog_bind p' k)
  | Wait c p1 p2 => Wait c (prog_bind p1 k) (prog_bind p2 k)
  end.

#[export] Instance prog_mret {W} : MRet (prog W) := λ A a, Ret a.
#[export] Instance prog_mbind {W} : MBind (prog W) := λ A B k p, prog_bind p k.

(** One lock hold, or one call out of the package: [Act f k] moves the world
    from [w] to [f w] and goes on with [k w]. *)
Definition atomic {W E A} (m : stM W E A) : prog W (res E A) :=
  Act (λ w, snd (m w)) (λ w, Ret (fst (m w))).

Declare Scope go_scope.
Delimit Scope go_scope with go.
(** [let! x := p in k]: [x, err := p(); if err != nil { return err }; k]. *)
Notation "'let!' x ':=' p 'in' k" :=
  (mbind (M := prog _) (λ r, match r with Ok x => k | Err e => Ret (Err e) end) p)
  (at level 10, x pattern, p at level 200, k at level 200) : go_scope.

(** Running one program alone. [fuel] bounds the nested calls of the recursive
    procedure [body]; [None] is "out of fuel". A wait whose condition does not
    hold ends by its context. *)
Fixpoint run_with {W A} (call : W → option W) (p : prog W A) (w : W) : option (A * W) :=
  match p with
  | Ret a => Some (a, w)
  | Act f k => run_with call (k w) (f w)
  | Call k => match call w with Some w' => run_with call k w' | None => None end
  | Wait c k kc => if c w then run_with call k w else run_with call kc w
  end.
Fixpoint run_call {W} (body : prog W unit) (fuel : nat) (w : W) : option W :=
  match fuel with
  | O => None
  | S n => snd <$> run_with (run_call body n) body w
  end.
Definition run {W A} (body : prog W unit) (fuel : nat) (p : prog W A) (w : W) : option (A * W) :=
  run_with (run_call body fuel) p w.
