(* ===== verification/GoErr.v ===== *)
(** * Go error values

    The errors this program compares ([errors.Is]), extracts ([errors.As]) and
    renders ([Error()]): sentinel values, [fmt.Errorf] wrappers, the two error
    structs of [internal/job/scheduler.go] and [errors.Join]. *)
From S2P Require Export Prelude.
Open Scope string_scope.

(** A job's lifecycle state: [job.Status] in [internal/job/types.go]. *)
Inductive Status :=
| StatusQueued
| StatusRunning
| StatusInterrupted
| StatusSucceeded
| StatusFailed
| StatusCancelled.
#[export] Instance Status_eq_dec : EqDecision Status.
Proof. solve_decision. Defined.

(** Values made once with [errors.New] (or, for the last one of a pair, with
    [fmt.Errorf]) and compared by identity. *)
Inductive sentinel :=
| S_MaintenanceMode
| S_OnBattery
| S_JobNotCancellable
| S_JobNotResumable
| S_JobNotInterrupted
| S_JobNotRunning
| S_TerminalSnapshotEvicted
| S_ArrayNotStopped
| S_DiskUpgradePastRelease
| S_JobAbortInProgress
| S_JobResumeInProgress
| S_CancelRequested
| S_EvacuationPending
| S_JobNeedsRetry
| S_DatabaseRestoreInProgress
| S_JobsActiveForRestore
| S_JobAlreadyRunning
| S_MigrationInProgress
| S_JobTypeNotRegistered
| S_StorageNotReady
| S_DiskUpgradeDataPending
| S_ArrayDiskMismatch
| S_ErrNoRows
| S_ContextCanceled
| S_ContextDeadlineExceeded
| S_DiffParse
| S_ReleaseMismatch
| S_StatusParse
| S_ListParse
| S_RunParse
| S_GuardBlocked
| S_FixRestoredNothing
| S_FixUnrecoverable
| S_DataDiskUpgradeMismatch
(** [os.ErrNotExist] with [ENOENT], which it is compared with; [os.ErrExist]. *)
| S_NotExist
| S_ErrExist
| S_EEXIST
| S_ENOTEMPTY
| S_EINVAL
| S_ELOOP
| S_ENOTDIR
| S_ENXIO
| S_ENOTSUP
| S_ENODATA
| S_Symlink
| S_TargetAppeared.
#[export] Instance sentinel_eq_dec : EqDecision sentinel.
Proof. solve_decision. Defined.

Inductive err :=
| ESentinel (s : sentinel)
| EOther (msg : string)
| EWrap (pre : string) (e : err) (suf : string)
| EOutcome (st : Status) (code : string) (e : err)
| ECancelCleanup (code : string) (e : err)
| EJoin (es : list err)
(** [fmt.Errorf("%w: %w", e, e')] *)
| EBoth (e e' : err).

(** The sentinel a sentinel itself wraps: [ErrDiskUpgradePastRelease] is
    [fmt.Errorf("%w: ...", ErrJobNotCancellable)], and two [syscall.Errno] are
    [os.ErrExist] by their [Is] method. *)
Definition sentinel_unwrap (s : sentinel) : option sentinel :=
  match s with
  | S_DiskUpgradePastRelease => Some S_JobNotCancellable
  | S_EEXIST | S_ENOTEMPTY => Some S_ErrExist
  | _ => None
  end.

(** [errors.Is(e, target)] for a sentinel target. *)
Fixpoint err_is (e : err) (t : sentinel) : bool :=
  match e with
  | ESentinel s =>
      bool_decide (s = t) ||
      match sentinel_unwrap s with Some u => bool_decide (u = t) | None => false end
  | EOther _ => false
  | EWrap _ e' _ => err_is e' t
  | EOutcome _ _ e' => err_is e' t
  | ECancelCleanup _ e' => err_is e' t
  | EJoin es => existsb (λ e', err_is e' t) es
  | EBoth e1 e2 => err_is e1 t || err_is e2 t
  end.

Fixpoint first_some {A B} (f : A → option B) (l : list A) : option B :=
  match l with
  | [] => None
  | x :: l' => match f x with Some b => Some b | None => first_some f l' end
  end.

(** [errors.As(e, &oe)] for [*OutcomeError]: the first one in the chain. *)
Fixpoint as_outcome (e : err) : option (Status * string) :=
  match e with
  | ESentinel _ | EOther _ => None
  | EWrap _ e' _ => as_outcome e'
  | EOutcome st code _ => Some (st, code)
  | ECancelCleanup _ e' => as_outcome e'
  | EJoin es => first_some as_outcome es
  | EBoth e1 e2 => match as_outcome e1 with Some o => Some o | None => as_outcome e2 end
  end.

(** [%q] of a string that needs no escape. *)
Definition quoted (s : string) : string :=
  String (Ascii.ascii_of_nat 34) (s +:+ String (Ascii.ascii_of_nat 34) EmptyString).

Definition sentinel_string (s : sentinel) : string :=
  match s with
  | S_MaintenanceMode => "job: maintenance mode is active — new jobs are refused"
  | S_OnBattery => "job: on battery — the mover is paused and scheduled syncs are held until power returns"
  | S_JobNotCancellable => "job: this job's tool does not support cancellation"
  | S_JobNotResumable => "job: this job type does not persist a checkpoint to resume from"
  | S_JobNotInterrupted => "job: only an interrupted job can be resumed"
  | S_JobNotRunning => "job: this job is not queued or running"
  | S_TerminalSnapshotEvicted => "job: terminal snapshot evicted before final status was persisted"
  | S_ArrayNotStopped => "job: stop the array first (`hoserva array stop`) — a data-disk upgrade runs only once the stop sequence has completed"
  | S_DiskUpgradePastRelease => "job: this job's tool does not support cancellation: the data-disk upgrade is past its release decision and has committed to the new disk — resume it to finish"
  | S_JobAbortInProgress => "job: an abort of this job is already running"
  | S_JobResumeInProgress => "job: a resume of this job is already running"
  | S_CancelRequested => "job: cancel requested before the release decision was saved"
  | S_EvacuationPending => "job: an evacuation is already pending"
  | S_JobNeedsRetry => "job: stopped at a resumable checkpoint; resume once the condition that stopped it clears"
  | S_DatabaseRestoreInProgress => "job: a database restore is in progress — jobs are refused until it completes"
  | S_JobsActiveForRestore => "job: a job is queued, running or being aborted — refuse the database restore until it finishes"
  | S_JobAlreadyRunning => "job: this job is already running"
  | S_MigrationInProgress => "job: an Unraid migration is in progress — parity, array-write and topology jobs are refused until its point of no return"
  | S_JobTypeNotRegistered => "job: this job type has no registered implementation yet"
  | S_StorageNotReady => "job: storage is degraded and unacknowledged — refusing to start the array"
  | S_DiskUpgradeDataPending => "job: a data-disk upgrade is pending"
  | S_ArrayDiskMismatch => "job: an array disk mountpoint does not hold the disk SQLite names"
  | S_ErrNoRows => "sql: no rows in result set"
  | S_ContextCanceled => "context canceled"
  | S_ContextDeadlineExceeded => "context deadline exceeded"
  | S_DiffParse => "parity: could not parse snapraid diff output"
  | S_StatusParse => "parity: could not parse snapraid status output"
  | S_ListParse => "parity: could not parse snapraid list output"
  | S_RunParse => "parity: could not parse snapraid run output"
  | S_GuardBlocked => "parity: threshold guard blocked the sync"
  | S_FixRestoredNothing => "parity: the fix restored nothing: the path is not in parity (misspelt, wrong case, not a file, created after the last sync, or only on the cache) or the file is intact and needs no restoring"
  | S_FixUnrecoverable => "parity: the fix left blocks it could not rebuild from parity"
  | S_DataDiskUpgradeMismatch => "disk: new data disk's copy does not match the old data disk"
  | S_NotExist => "no such file or directory"
  | S_ErrExist => "file already exists"
  | S_EEXIST => "file exists"
  | S_ENOTEMPTY => "directory not empty"
  | S_EINVAL => "invalid argument"
  | S_ELOOP => "too many levels of symbolic links"
  | S_ENOTDIR => "not a directory"
  | S_ENXIO => "no such device or address"
  | S_ENOTSUP => "operation not supported"
  | S_ENODATA => "no data available"
  | S_Symlink => "is a symbolic link"
  | S_TargetAppeared => "cache: array target appeared during copy"
  | S_ReleaseMismatch => "update: the release index entry does not match the signed release"
  end.

Fixpoint join_with (sep : string) (l : list string) : string :=
  match l with
  | [] => ""
  | [s] => s
  | s :: l' => s +:+ sep +:+ join_with sep l'
  end.

(** [e.Error()] *)
Fixpoint err_string (e : err) : string :=
  match e with
  | ESentinel s => sentinel_string s
  | EOther msg => msg
  | EWrap pre e' suf => pre +:+ err_string e' +:+ suf
  | EOutcome _ _ e' => err_string e'
  | ECancelCleanup _ e' => err_string e'
  | EJoin es => join_with "
" (map err_string es)
  | EBoth e1 e2 => err_string e1 +:+ ": " +:+ err_string e2
  end.

(** [errors.As(e, &cleanup)] for [*CancelCleanupError], with what its
    [Error()] renders. *)
Fixpoint as_cleanup (e : err) : option (string * string) :=
  match e with
  | ESentinel _ | EOther _ => None
  | EWrap _ e' _ => as_cleanup e'
  | EOutcome _ _ e' => as_cleanup e'
  | ECancelCleanup code e' => Some (code, err_string e')
  | EJoin es => first_some as_cleanup es
  | EBoth e1 e2 => match as_cleanup e1 with Some o => Some o | None => as_cleanup e2 end
  end.

(** [errors.Join]: nil errors are dropped, and no error is left when all are nil. *)
Definition errors_join (es : list (option err)) : option err :=
  match omap id es with
  | [] => None
  | es' => Some (EJoin es')
  end.

(** [fmt.Errorf("pre: %w", e)] *)
Definition wrap (pre : string) (e : err) : err := EWrap pre e "".

Lemma err_is_wrap pre e suf t : err_is (EWrap pre e suf) t = err_is e t.
Proof. reflexivity. Qed.

Lemma err_is_refl s : err_is (ESentinel s) s = true.
Proof. simpl. by rewrite bool_decide_true. Qed.
