(* ===== verification/PathOrder.v ===== *)
(** * The order of paths

    [sort.Strings]: paths are ordered by their bytes. *)
From Stdlib Require Import OrderedTypeEx.
From S2P Require Export GoErr.
From stdpp Require Export sorting.
Open Scope string_scope.
Open Scope list_scope.

Definition path_le (p q : string) : Prop := String.leb p q = true.
#[export] Instance path_le_dec p q : Decision (path_le p q).
Proof. unfold path_le. apply _. Defined.

#[export] Instance path_le_total : Total path_le.
Proof. intros p q. unfold path_le. apply String.leb_total. Qed.
#[export] Instance path_le_trans : Transitive path_le.
Proof.
  assert (∀ p q, path_le p q ↔ String_as_OT.lt p q ∨ p = q) as Hle.
  { intros p q. unfold path_le, String.leb. rewrite <-String_as_OT.cmp_lt. unfold String_as_OT.cmp.
    destruct (p ?= q)%string eqn:E; split; intros H; try (done || by left).
    - right. by apply String.compare_eq_iff.
    - destruct H as [H| ->]; [done|]. by rewrite (proj2 (String_as_OT.cmp_eq _ _)) in E. }
  intros p q r. rewrite !Hle. intros [Hpq| ->] [Hqr| ->]; auto. left. by eapply String_as_OT.lt_trans.
Qed.

Lemma path_le_antisym p q : path_le p q → path_le q p → p = q.
Proof. apply String.leb_antisym. Qed.

