(* ===== verification/Json.v ===== *)
(** * JSON values and byte slices

    The job rows carry two byte slices, the parameters and the checkpoint. A
    slice that holds a JSON text is represented by the value the text encodes;
    [BRaw] is a non-empty slice that is not valid JSON. What the program does
    with the values, [encoding/json]'s decoding into a struct of string fields,
    is modelled here as far as the sources rely on it. *)
From S2P Require Export GoErr.
Open Scope string_scope.

Inductive json :=
| JNull
| JBool (b : bool)
| JNum (lit : string)
| JStr (s : string)
(** A string that is a time of RFC 3339, as the instant in nanoseconds; it stands
    only where a [time.Time] is written or read. *)
| JTime (ns : Z)
| JArr (l : list json)
| JObj (fields : list (string * json)).

Inductive bytes :=
| BNil
| BRaw (s : string)
| BJson (j : json).

(** [len(data) == 0] *)
Definition bytes_empty (b : bytes) : bool := match b with BNil => true | _ => false end.

Definition lower_ascii (c : Ascii.ascii) : Ascii.ascii :=
  let n := Ascii.nat_of_ascii c in
  if (65 <=? n)%nat && (n <=? 90)%nat then Ascii.ascii_of_nat (n + 32) else c.

Fixpoint lower (s : string) : string :=
  match s with
  | EmptyString => EmptyString
  | String c s' => String (lower_ascii c) (lower s')
  end.

(** The struct field a key decodes into: the exact name first, else the first
    one equal to it under case folding. *)
Definition match_field (names : list string) (key : string) : option nat :=
  match list_find (λ n, n = key) names with
  | Some (i, _) => Some i
  | None => fst <$> list_find (λ n, lower n = lower key) names
  end.

(** Decoding an object into string fields: a string sets its field, [null]
    leaves it, any other value is an error that does not stop the decoding of
    the rest; an unknown key is skipped. The second component is whether some
    field had the wrong type. *)
Fixpoint decode_fields (names : list string) (fs : list (string * json))
    (vals : list string) (bad : bool) : list string * bool :=
  match fs with
  | [] => (vals, bad)
  | (key, v) :: fs' =>
      match match_field names key with
      | None => decode_fields names fs' vals bad
      | Some i =>
          match v with
          | JStr s => decode_fields names fs' (<[i := s]> vals) bad
          | JNull => decode_fields names fs' vals bad
          | _ => decode_fields names fs' vals true
          end
      end
  end.

(** [json.Unmarshal(data, &v)] for a struct [v] of string fields, starting from
    its zero value. *)
Definition unmarshal_strings (names : list string) (data : bytes) : res err (list string) :=
  let zero := (λ _, "") <$> names in
  match data with
  | BNil => Err (EOther "unexpected end of JSON input")
  | BRaw _ => Err (EOther "invalid character")
  | BJson JNull => Ok zero
  | BJson (JObj fs) =>
      match decode_fields names fs zero false with
      | (vals, false) => Ok vals
      | (_, true) => Err (EOther "json: cannot unmarshal into Go struct field of type string")
      end
  | BJson _ => Err (EOther "json: cannot unmarshal into Go value")
  end.
