(* ===== verification/JobTypes.v ===== *)
(** * Jobs, their classes and the exclusion rule

    [internal/job/types.go], [job.go], [exclusion.go] and
    [schedule_conflict.go]: the job types with their mutually exclusive
    classes, the job record, and the rule that says which two jobs may never
    run at the same time. *)
From S2P Require Export GoErr Json.
Open Scope string_scope.
Open Scope Z_scope.

(** [Type]: the named constants; [TypeUnknown] is any other string, which a row
    or a request can hold. *)
Inductive JobType :=
| TypeSync
| TypeScrub
| TypeFix
| TypeCheck
| TypeRebalance
| TypeEvacuation
| TypeShareRelocation
| TypeMover
| TypeVMDiskRelocation
| TypeDiskFormat
| TypeDiskAdd
| TypeDiskRemove
| TypeDiskReplace
| TypeDiskUpgradeData
| TypeDiskUpgradeParity
| TypePoolRemount
| TypeMigrationScan
| TypeMigrationImport
| TypeMigrationVerify
| TypeMigrationParity
| TypeAppdataBackup
| TypeAppdataRestore
| TypeAppdataRestorePreview
| TypeRestoreDrill
| TypeConfigBackup
| TypeContainerUpdate
| TypeContainerRecreate
| TypeStackStart
| TypeACMEIssue
| TypeVMStart
| TypeVMStop
| TypeVMCreate
| TypeVMDelete
| TypeVMSnapshot
| TypeVMClone
| TypeVMMigrationImport
| TypeUnknown (s : string).
#[export] Instance JobType_eq_dec : EqDecision JobType.
Proof. solve_decision. Defined.

(** [string(t)] *)
Definition type_string (t : JobType) : string :=
  match t with
  | TypeSync => "sync"
  | TypeScrub => "scrub"
  | TypeFix => "fix"
  | TypeCheck => "check"
  | TypeRebalance => "rebalance"
  | TypeEvacuation => "evacuation"
  | TypeShareRelocation => "share_relocation"
  | TypeMover => "mover"
  | TypeVMDiskRelocation => "vm_disk_relocation"
  | TypeDiskFormat => "disk_format"
  | TypeDiskAdd => "disk_add"
  | TypeDiskRemove => "disk_remove"
  | TypeDiskReplace => "disk_replace"
  | TypeDiskUpgradeData => "disk_upgrade_data"
  | TypeDiskUpgradeParity => "disk_upgrade_parity"
  | TypePoolRemount => "pool_remount"
  | TypeMigrationScan => "migration_scan"
  | TypeMigrationImport => "migration_import"
  | TypeMigrationVerify => "migration_verify"
  | TypeMigrationParity => "migration_parity"
  | TypeAppdataBackup => "appdata_backup"
  | TypeAppdataRestore => "appdata_restore"
  | TypeAppdataRestorePreview => "appdata_restore_preview"
  | TypeRestoreDrill => "restore_drill"
  | TypeConfigBackup => "config_backup"
  | TypeContainerUpdate => "container_update"
  | TypeContainerRecreate => "container_recreate"
  | TypeStackStart => "stack_start"
  | TypeACMEIssue => "acme_issue"
  | TypeVMStart => "vm_start"
  | TypeVMStop => "vm_stop"
  | TypeVMCreate => "vm_create"
  | TypeVMDelete => "vm_delete"
  | TypeVMSnapshot => "vm_snapshot"
  | TypeVMClone => "vm_clone"
  | TypeVMMigrationImport => "vm_migration_import"
  | TypeUnknown s => s
  end.

Definition known_types : list JobType :=
  [ TypeSync;
    TypeScrub;
    TypeFix;
    TypeCheck;
    TypeRebalance;
    TypeEvacuation;
    TypeShareRelocation;
    TypeMover;
    TypeVMDiskRelocation;
    TypeDiskFormat;
    TypeDiskAdd;
    TypeDiskRemove;
    TypeDiskReplace;
    TypeDiskUpgradeData;
    TypeDiskUpgradeParity;
    TypePoolRemount;
    TypeMigrationScan;
    TypeMigrationImport;
    TypeMigrationVerify;
    TypeMigrationParity;
    TypeAppdataBackup;
    TypeAppdataRestore;
    TypeAppdataRestorePreview;
    TypeRestoreDrill;
    TypeConfigBackup;
    TypeContainerUpdate;
    TypeContainerRecreate;
    TypeStackStart;
    TypeACMEIssue;
    TypeVMStart;
    TypeVMStop;
    TypeVMCreate;
    TypeVMDelete;
    TypeVMSnapshot;
    TypeVMClone;
    TypeVMMigrationImport ].

(** [Type(s)]: the conversion a row read from the database goes through. *)
Definition type_of_string (s : string) : JobType :=
  match list_find (λ t, type_string t = s) known_types with
  | Some (_, t) => t
  | None => TypeUnknown s
  end.


(** [Class]; [ClassNone] is the empty string, what [ClassOf] returns with
    [false]. *)
Inductive Class :=
| ClassParity
| ClassArrayWrite
| ClassTopology
| ClassService
| ClassVM
| ClassNone.
#[export] Instance Class_eq_dec : EqDecision Class.
Proof. solve_decision. Defined.

Definition Terminal (s : Status) : bool :=
  match s with
  | StatusSucceeded | StatusFailed | StatusCancelled | StatusInterrupted => true
  | _ => false
  end.

Definition classOf (t : JobType) : option Class :=
  match t with
  | TypeSync | TypeScrub | TypeFix | TypeCheck =>
      Some ClassParity
  | TypeRebalance | TypeEvacuation | TypeShareRelocation | TypeMover | TypeVMDiskRelocation =>
      Some ClassArrayWrite
  | TypeDiskFormat | TypeDiskAdd | TypeDiskRemove | TypeDiskReplace | TypeDiskUpgradeData | TypeDiskUpgradeParity | TypePoolRemount | TypeMigrationScan | TypeMigrationImport | TypeMigrationVerify | TypeMigrationParity =>
      Some ClassTopology
  | TypeAppdataBackup | TypeAppdataRestore | TypeAppdataRestorePreview | TypeRestoreDrill | TypeConfigBackup | TypeContainerUpdate | TypeContainerRecreate | TypeStackStart | TypeACMEIssue =>
      Some ClassService
  | TypeVMStart | TypeVMStop | TypeVMCreate | TypeVMDelete | TypeVMSnapshot | TypeVMClone | TypeVMMigrationImport =>
      Some ClassVM
  | TypeUnknown _ => None
  end.

Definition resumableTypes (t : JobType) : bool :=
  match t with
  | TypeMover | TypeRebalance | TypeEvacuation | TypeShareRelocation
  | TypeDiskUpgradeData | TypeDiskUpgradeParity => true
  | _ => false
  end.

(** [ClassOf]: the class, and whether the type is known. *)
Definition ClassOf (t : JobType) : Class * bool :=
  match classOf t with
  | Some c => (c, true)
  | None => (ClassNone, false)
  end.

Definition Resumable (t : JobType) : bool := resumableTypes t.

Definition ValidateType (t : JobType) : res err unit :=
  match classOf t with
  | Some _ => Ok tt
  | None => Err (EOther ("job: unknown job type " +:+ quoted (type_string t)))
  end.

(** [Job] in [job.go]. Times are nanoseconds; the pointers are options. *)
Record Job := mkJob {
  j_id : string;
  j_type : JobType;
  j_class : Class;
  j_status : Status;
  j_progress : option Z;
  j_resumable : bool;
  j_cancellable : bool;
  j_resourceIDs : list string;
  j_checkpoint : bytes;
  j_params : bytes;
  j_errorCode : string;
  j_errorMessage : string;
  j_createdAt : Z;
  j_startedAt : option Z;
  j_finishedAt : option Z
}.

(** ** The exclusion rule ([exclusion.go]) *)
Definition storageClasses (c : Class) : bool :=
  match c with
  | ClassParity | ClassArrayWrite | ClassTopology => true
  | _ => false
  end.

Definition IsStorageClass (c : Class) : bool := storageClasses c.

Definition scopeOverlaps (a b : list string) : bool :=
  if bool_decide (a = []) || bool_decide (b = []) then true
  else
    let set : gset string := list_to_set a in
    existsb (λ id, bool_decide (id ∈ set)) b.

Definition conflicts (a b : Class) (scopeA scopeB : list string) : bool :=
  if storageClasses a && storageClasses b then
    if bool_decide (a = ClassArrayWrite) && bool_decide (b = ClassArrayWrite)
    then scopeOverlaps scopeA scopeB
    else true
  else if bool_decide (a = ClassService) && bool_decide (b = ClassService)
  then scopeOverlaps scopeA scopeB
  else if bool_decide (a = ClassVM) && bool_decide (b = ClassVM)
  then scopeOverlaps scopeA scopeB
  else false.

(** ** Scheduled windows ([schedule_conflict.go]) *)
Record ScheduledWindow := mkWindow {
  sw_class : Class;
  sw_resourceIDs : list string;
  sw_start : Z;
  sw_duration : Z
}.

Definition window_end (w : ScheduledWindow) : Z := sw_start w + sw_duration w.

Definition DetectConflict (a b : ScheduledWindow) : bool :=
  if negb (sw_start a <? window_end b) || negb (sw_start b <? window_end a) then false
  else conflicts (sw_class a) (sw_class b) (sw_resourceIDs a) (sw_resourceIDs b).

(** ** Lemmas *)
Lemma scopeOverlaps_spec a b :
  scopeOverlaps a b = true ↔ a = [] ∨ b = [] ∨ ∃ id, id ∈ a ∧ id ∈ b.
Proof.
  unfold scopeOverlaps. case_bool_decide as Ha; [naive_solver|].
  case_bool_decide as Hb; [naive_solver|]. simpl.
  rewrite existsb_exists. setoid_rewrite bool_decide_eq_true.
  setoid_rewrite elem_of_list_to_set. setoid_rewrite <- list_elem_of_In.
  naive_solver.
Qed.

Lemma scopeOverlaps_sym a b : scopeOverlaps a b = scopeOverlaps b a.
Proof.
  apply eq_true_iff_eq. rewrite !scopeOverlaps_spec. naive_solver.
Qed.

Lemma conflicts_sym a b sA sB : conflicts a b sA sB = conflicts b a sB sA.
Proof.
  unfold conflicts. rewrite (scopeOverlaps_sym sA sB).
  destruct a, b; reflexivity.
Qed.

Lemma type_of_string_known t : t ∈ known_types → type_of_string (type_string t) = t.
Proof.
  intros H. vm_compute in H.
  repeat (apply elem_of_cons in H as [->|H]; [reflexivity|]).
  by apply not_elem_of_nil in H.
Qed.

Lemma known_types_classOf t : t ∈ known_types ↔ is_Some (classOf t).
Proof.
  split.
  - intros H. vm_compute in H.
    repeat (apply elem_of_cons in H as [->|H]; [by eexists|]).
    by apply not_elem_of_nil in H.
  - intros [c Hc]. destruct t; try discriminate; apply list_elem_of_In; simpl; tauto.
Qed.

#[export] Instance JobType_countable : Countable JobType.
Proof.
  refine (inj_countable'
    (λ t, match t with TypeUnknown s => inr s | _ => inl (type_string t) end)
    (λ c : string + string,
      match c with inl s => type_of_string s | inr s => TypeUnknown s end) _).
  intros t. by destruct t.
Defined.
