(* ===== verification/DiskCheckpoint.v ===== *)
(** * The data-disk upgrade's checkpoint

    [DataDiskUpgradePhase] and [DataDiskUpgradeCheckpoint] of
    [internal/disk/upgrade_data.go], with their JSON form, which the job
    scheduler also reads ([diskUpgradeDataCheckpointAtReleasing]). *)
From S2P Require Export Json.
Open Scope string_scope.

Definition DataDiskUpgradePhaseFormatting : string := "formatting".
Definition DataDiskUpgradePhaseCopying : string := "copying".
Definition DataDiskUpgradePhaseVerifying : string := "verifying".
Definition DataDiskUpgradePhaseRemounting : string := "remounting".
Definition DataDiskUpgradePhaseDiffing : string := "diffing".
Definition DataDiskUpgradePhaseReleasing : string := "releasing".

Record DataDiskUpgradeCheckpoint := mkCheckpoint {
  cp_Phase : string;
  cp_LastPath : string;
  cp_NewUUID : string
}.

Definition checkpoint_names : list string := ["phase"; "last_path"; "new_uuid"].

Definition omitempty (name v : string) : list (string * json) :=
  if bool_decide (v = "") then [] else [(name, JStr v)].

(** [json.Marshal(cp)] *)
Definition marshal_checkpoint (cp : DataDiskUpgradeCheckpoint) : bytes :=
  BJson (JObj ([("phase", JStr (cp_Phase cp))] ++ omitempty "last_path" (cp_LastPath cp)
                 ++ omitempty "new_uuid" (cp_NewUUID cp))).

(** [json.Unmarshal(data, &cp)] *)
Definition unmarshal_checkpoint (data : bytes) : res err DataDiskUpgradeCheckpoint :=
  match unmarshal_strings checkpoint_names data with
  | Ok [p; l; u] => Ok (mkCheckpoint p l u)
  | Ok _ => Err (EOther "unreachable")
  | Err e => Err e
  end.

Definition diskUpgradeDataCheckpointAtReleasing (data : bytes) : bool :=
  if bytes_empty data then false
  else match unmarshal_checkpoint data with
       | Err _ => false
       | Ok cp => bool_decide (cp_Phase cp = DataDiskUpgradePhaseReleasing)
       end.

Lemma unmarshal_marshal_checkpoint cp :
  unmarshal_checkpoint (marshal_checkpoint cp) = Ok cp.
Proof.
  destruct cp as [p l u]. unfold marshal_checkpoint, omitempty; simpl.
  do 2 case_bool_decide; subst; reflexivity.
Qed.

Lemma atReleasing_marshal cp :
  diskUpgradeDataCheckpointAtReleasing (marshal_checkpoint cp)
  = bool_decide (cp_Phase cp = DataDiskUpgradePhaseReleasing).
Proof.
  unfold diskUpgradeDataCheckpointAtReleasing.
  change (bytes_empty (marshal_checkpoint cp)) with false.
  by rewrite unmarshal_marshal_checkpoint.
Qed.
