(* ===== verification/SchedState.v ===== *)
(** * The scheduler's state and its surroundings

    The data of [internal/job/scheduler.go]: a running job, a queued job, the
    scheduler itself; and around it what its methods read and write: the jobs
    table and the maintenance row ([internal/job/store.go]), the event hub, the
    goroutines it started, and the outcomes of the calls it makes out of the
    package. *)
From S2P Require Export JobTypes DiskCheckpoint.
Open Scope string_scope.
Open Scope Z_scope.

(** Why a running job was asked to stop. *)
Inductive stopReason :=
| reasonNone
| reasonCancel
| reasonMaintenance
| reasonBatteryHold.
#[export] Instance stopReason_eq_dec : EqDecision stopReason.
Proof. solve_decision. Defined.

(** [registryEntry]: the run and abort functions are code of other packages;
    what the scheduler sees of an abort is whether one is registered and how a
    call of it ends ([env_abort]). *)
Record registryEntry := mkEntry {
  re_cancellable : bool;
  re_abort : bool
}.

(** Assigning one field of a record. *)
Definition upd_j_status (g : Status → Status) (s : Job) : Job :=
  mkJob s.(j_id) s.(j_type) s.(j_class) (g s.(j_status)) s.(j_progress) s.(j_resumable)
     s.(j_cancellable) s.(j_resourceIDs) s.(j_checkpoint) s.(j_params) s.(j_errorCode)
     s.(j_errorMessage) s.(j_createdAt) s.(j_startedAt) s.(j_finishedAt).
Definition upd_j_progress (g : option Z → option Z) (s : Job) : Job :=
  mkJob s.(j_id) s.(j_type) s.(j_class) s.(j_status) (g s.(j_progress)) s.(j_resumable)
     s.(j_cancellable) s.(j_resourceIDs) s.(j_checkpoint) s.(j_params) s.(j_errorCode)
     s.(j_errorMessage) s.(j_createdAt) s.(j_startedAt) s.(j_finishedAt).
Definition upd_j_cancellable (g : bool → bool) (s : Job) : Job :=
  mkJob s.(j_id) s.(j_type) s.(j_class) s.(j_status) s.(j_progress) s.(j_resumable)
     (g s.(j_cancellable)) s.(j_resourceIDs) s.(j_checkpoint) s.(j_params) s.(j_errorCode)
     s.(j_errorMessage) s.(j_createdAt) s.(j_startedAt) s.(j_finishedAt).
Definition upd_j_checkpoint (g : bytes → bytes) (s : Job) : Job :=
  mkJob s.(j_id) s.(j_type) s.(j_class) s.(j_status) s.(j_progress) s.(j_resumable)
     s.(j_cancellable) s.(j_resourceIDs) (g s.(j_checkpoint)) s.(j_params) s.(j_errorCode)
     s.(j_errorMessage) s.(j_createdAt) s.(j_startedAt) s.(j_finishedAt).
Definition upd_j_errorCode (g : string → string) (s : Job) : Job :=
  mkJob s.(j_id) s.(j_type) s.(j_class) s.(j_status) s.(j_progress) s.(j_resumable)
     s.(j_cancellable) s.(j_resourceIDs) s.(j_checkpoint) s.(j_params) (g s.(j_errorCode))
     s.(j_errorMessage) s.(j_createdAt) s.(j_startedAt) s.(j_finishedAt).
Definition upd_j_errorMessage (g : string → string) (s : Job) : Job :=
  mkJob s.(j_id) s.(j_type) s.(j_class) s.(j_status) s.(j_progress) s.(j_resumable)
     s.(j_cancellable) s.(j_resourceIDs) s.(j_checkpoint) s.(j_params) s.(j_errorCode)
     (g s.(j_errorMessage)) s.(j_createdAt) s.(j_startedAt) s.(j_finishedAt).
Definition upd_j_startedAt (g : option Z → option Z) (s : Job) : Job :=
  mkJob s.(j_id) s.(j_type) s.(j_class) s.(j_status) s.(j_progress) s.(j_resumable)
     s.(j_cancellable) s.(j_resourceIDs) s.(j_checkpoint) s.(j_params) s.(j_errorCode)
     s.(j_errorMessage) s.(j_createdAt) (g s.(j_startedAt)) s.(j_finishedAt).
Definition upd_j_finishedAt (g : option Z → option Z) (s : Job) : Job :=
  mkJob s.(j_id) s.(j_type) s.(j_class) s.(j_status) s.(j_progress) s.(j_resumable)
     s.(j_cancellable) s.(j_resourceIDs) s.(j_checkpoint) s.(j_params) s.(j_errorCode)
     s.(j_errorMessage) s.(j_createdAt) s.(j_startedAt) (g s.(j_finishedAt)).

(** [runningJob]. [rj_ctxCancelled] is the state of the job's context,
    [rj_stopClosed] how often its [stopCh] was closed (a second close panics),
    [rj_done] names its [done] channel. *)
Record runningJob := mkRunning {
  rj_job : Job;
  rj_cancellable : bool;
  rj_reason : stopReason;
  rj_stopSignalled : bool;
  rj_finished : bool;
  rj_ctxCancelled : bool;
  rj_stopClosed : nat;
  rj_done : nat
}.

Definition upd_rj_job (g : Job → Job) (s : runningJob) : runningJob :=
  mkRunning (g s.(rj_job)) s.(rj_cancellable) s.(rj_reason) s.(rj_stopSignalled)
     s.(rj_finished) s.(rj_ctxCancelled) s.(rj_stopClosed) s.(rj_done).
Definition upd_rj_cancellable (g : bool → bool) (s : runningJob) : runningJob :=
  mkRunning s.(rj_job) (g s.(rj_cancellable)) s.(rj_reason) s.(rj_stopSignalled)
     s.(rj_finished) s.(rj_ctxCancelled) s.(rj_stopClosed) s.(rj_done).
Definition upd_rj_reason (g : stopReason → stopReason) (s : runningJob) : runningJob :=
  mkRunning s.(rj_job) s.(rj_cancellable) (g s.(rj_reason)) s.(rj_stopSignalled)
     s.(rj_finished) s.(rj_ctxCancelled) s.(rj_stopClosed) s.(rj_done).
Definition upd_rj_stopSignalled (g : bool → bool) (s : runningJob) : runningJob :=
  mkRunning s.(rj_job) s.(rj_cancellable) s.(rj_reason) (g s.(rj_stopSignalled))
     s.(rj_finished) s.(rj_ctxCancelled) s.(rj_stopClosed) s.(rj_done).
Definition upd_rj_finished (g : bool → bool) (s : runningJob) : runningJob :=
  mkRunning s.(rj_job) s.(rj_cancellable) s.(rj_reason) s.(rj_stopSignalled)
     (g s.(rj_finished)) s.(rj_ctxCancelled) s.(rj_stopClosed) s.(rj_done).
Definition upd_rj_ctxCancelled (g : bool → bool) (s : runningJob) : runningJob :=
  mkRunning s.(rj_job) s.(rj_cancellable) s.(rj_reason) s.(rj_stopSignalled) s.(rj_finished)
     (g s.(rj_ctxCancelled)) s.(rj_stopClosed) s.(rj_done).
Definition upd_rj_stopClosed (g : nat → nat) (s : runningJob) : runningJob :=
  mkRunning s.(rj_job) s.(rj_cancellable) s.(rj_reason) s.(rj_stopSignalled) s.(rj_finished)
     s.(rj_ctxCancelled) (g s.(rj_stopClosed)) s.(rj_done).
Definition upd_rj_done (g : nat → nat) (s : runningJob) : runningJob :=
  mkRunning s.(rj_job) s.(rj_cancellable) s.(rj_reason) s.(rj_stopSignalled) s.(rj_finished)
     s.(rj_ctxCancelled) s.(rj_stopClosed) (g s.(rj_done)).

(** [queuedJob] *)
Record queuedJob := mkQueued {
  q_job : Job;
  q_cancellable : bool;
  q_cancelRequested : bool
}.

Definition upd_q_job (g : Job → Job) (s : queuedJob) : queuedJob :=
  mkQueued (g s.(q_job)) s.(q_cancellable) s.(q_cancelRequested).
Definition upd_q_cancelRequested (g : bool → bool) (s : queuedJob) : queuedJob :=
  mkQueued s.(q_job) s.(q_cancellable) (g s.(q_cancelRequested)).

(** [Scheduler]: the fields its mutex guards. [s_topologyBackup] and
    [s_migrationPending] say whether the two hooks are set. *)
Record Scheduler := mkScheduler {
  s_running : gmap string runningJob;
  s_queue : list queuedJob;
  s_terminalSnapshots : gmap string Job;
  s_terminalSnapshotFIFO : list string;
  s_evictedTerminalSnapshots : gset string;
  s_evictedTerminalSnapshotFIFO : list string;
  s_maintenance : bool;
  s_arrayStopped : bool;
  s_aborting : gset string;
  s_resuming : gset string;
  s_batteryHold : bool;
  s_databaseRestore : bool;
  s_shareMutations : Z;
  s_shareWaiters : list nat;
  s_appActions : Z;
  s_appWaiters : list nat;
  s_topologyBackup : bool;
  s_migrationPending : bool;
  s_dispatching : gmap string queuedJob
}.

Definition upd_s_running (g : gmap string runningJob → gmap string runningJob) (s : Scheduler) : Scheduler :=
  mkScheduler (g s.(s_running)) s.(s_queue) s.(s_terminalSnapshots)
     s.(s_terminalSnapshotFIFO) s.(s_evictedTerminalSnapshots)
     s.(s_evictedTerminalSnapshotFIFO) s.(s_maintenance) s.(s_arrayStopped) s.(s_aborting)
     s.(s_resuming) s.(s_batteryHold) s.(s_databaseRestore) s.(s_shareMutations)
     s.(s_shareWaiters) s.(s_appActions) s.(s_appWaiters) s.(s_topologyBackup)
     s.(s_migrationPending) s.(s_dispatching).
Definition upd_s_queue (g : list queuedJob → list queuedJob) (s : Scheduler) : Scheduler :=
  mkScheduler s.(s_running) (g s.(s_queue)) s.(s_terminalSnapshots)
     s.(s_terminalSnapshotFIFO) s.(s_evictedTerminalSnapshots)
     s.(s_evictedTerminalSnapshotFIFO) s.(s_maintenance) s.(s_arrayStopped) s.(s_aborting)
     s.(s_resuming) s.(s_batteryHold) s.(s_databaseRestore) s.(s_shareMutations)
     s.(s_shareWaiters) s.(s_appActions) s.(s_appWaiters) s.(s_topologyBackup)
     s.(s_migrationPending) s.(s_dispatching).
Definition upd_s_terminalSnapshots (g : gmap string Job → gmap string Job) (s : Scheduler) : Scheduler :=
  mkScheduler s.(s_running) s.(s_queue) (g s.(s_terminalSnapshots))
     s.(s_terminalSnapshotFIFO) s.(s_evictedTerminalSnapshots)
     s.(s_evictedTerminalSnapshotFIFO) s.(s_maintenance) s.(s_arrayStopped) s.(s_aborting)
     s.(s_resuming) s.(s_batteryHold) s.(s_databaseRestore) s.(s_shareMutations)
     s.(s_shareWaiters) s.(s_appActions) s.(s_appWaiters) s.(s_topologyBackup)
     s.(s_migrationPending) s.(s_dispatching).
Definition upd_s_terminalSnapshotFIFO (g : list string → list string) (s : Scheduler) : Scheduler :=
  mkScheduler s.(s_running) s.(s_queue) s.(s_terminalSnapshots)
     (g s.(s_terminalSnapshotFIFO)) s.(s_evictedTerminalSnapshots)
     s.(s_evictedTerminalSnapshotFIFO) s.(s_maintenance) s.(s_arrayStopped) s.(s_aborting)
     s.(s_resuming) s.(s_batteryHold) s.(s_databaseRestore) s.(s_shareMutations)
     s.(s_shareWaiters) s.(s_appActions) s.(s_appWaiters) s.(s_topologyBackup)
     s.(s_migrationPending) s.(s_dispatching).
Definition upd_s_evictedTerminalSnapshots (g : gset string → gset string) (s : Scheduler) : Scheduler :=
  mkScheduler s.(s_running) s.(s_queue) s.(s_terminalSnapshots) s.(s_terminalSnapshotFIFO)
     (g s.(s_evictedTerminalSnapshots)) s.(s_evictedTerminalSnapshotFIFO) s.(s_maintenance)
     s.(s_arrayStopped) s.(s_aborting) s.(s_resuming) s.(s_batteryHold) s.(s_databaseRestore)
     s.(s_shareMutations) s.(s_shareWaiters) s.(s_appActions) s.(s_appWaiters)
     s.(s_topologyBackup) s.(s_migrationPending) s.(s_dispatching).
Definition upd_s_evictedTerminalSnapshotFIFO (g : list string → list string) (s : Scheduler) : Scheduler :=
  mkScheduler s.(s_running) s.(s_queue) s.(s_terminalSnapshots) s.(s_terminalSnapshotFIFO)
     s.(s_evictedTerminalSnapshots) (g s.(s_evictedTerminalSnapshotFIFO)) s.(s_maintenance)
     s.(s_arrayStopped) s.(s_aborting) s.(s_resuming) s.(s_batteryHold) s.(s_databaseRestore)
     s.(s_shareMutations) s.(s_shareWaiters) s.(s_appActions) s.(s_appWaiters)
     s.(s_topologyBackup) s.(s_migrationPending) s.(s_dispatching).
Definition upd_s_maintenance (g : bool → bool) (s : Scheduler) : Scheduler :=
  mkScheduler s.(s_running) s.(s_queue) s.(s_terminalSnapshots) s.(s_terminalSnapshotFIFO)
     s.(s_evictedTerminalSnapshots) s.(s_evictedTerminalSnapshotFIFO) (g s.(s_maintenance))
     s.(s_arrayStopped) s.(s_aborting) s.(s_resuming) s.(s_batteryHold) s.(s_databaseRestore)
     s.(s_shareMutations) s.(s_shareWaiters) s.(s_appActions) s.(s_appWaiters)
     s.(s_topologyBackup) s.(s_migrationPending) s.(s_dispatching).
Definition upd_s_arrayStopped (g : bool → bool) (s : Scheduler) : Scheduler :=
  mkScheduler s.(s_running) s.(s_queue) s.(s_terminalSnapshots) s.(s_terminalSnapshotFIFO)
     s.(s_evictedTerminalSnapshots) s.(s_evictedTerminalSnapshotFIFO) s.(s_maintenance)
     (g s.(s_arrayStopped)) s.(s_aborting) s.(s_resuming) s.(s_batteryHold)
     s.(s_databaseRestore) s.(s_shareMutations) s.(s_shareWaiters) s.(s_appActions)
     s.(s_appWaiters) s.(s_topologyBackup) s.(s_migrationPending) s.(s_dispatching).
Definition upd_s_aborting (g : gset string → gset string) (s : Scheduler) : Scheduler :=
  mkScheduler s.(s_running) s.(s_queue) s.(s_terminalSnapshots) s.(s_terminalSnapshotFIFO)
     s.(s_evictedTerminalSnapshots) s.(s_evictedTerminalSnapshotFIFO) s.(s_maintenance)
     s.(s_arrayStopped) (g s.(s_aborting)) s.(s_resuming) s.(s_batteryHold)
     s.(s_databaseRestore) s.(s_shareMutations) s.(s_shareWaiters) s.(s_appActions)
     s.(s_appWaiters) s.(s_topologyBackup) s.(s_migrationPending) s.(s_dispatching).
Definition upd_s_resuming (g : gset string → gset string) (s : Scheduler) : Scheduler :=
  mkScheduler s.(s_running) s.(s_queue) s.(s_terminalSnapshots) s.(s_terminalSnapshotFIFO)
     s.(s_evictedTerminalSnapshots) s.(s_evictedTerminalSnapshotFIFO) s.(s_maintenance)
     s.(s_arrayStopped) s.(s_aborting) (g s.(s_resuming)) s.(s_batteryHold)
     s.(s_databaseRestore) s.(s_shareMutations) s.(s_shareWaiters) s.(s_appActions)
     s.(s_appWaiters) s.(s_topologyBackup) s.(s_migrationPending) s.(s_dispatching).
Definition upd_s_batteryHold (g : bool → bool) (s : Scheduler) : Scheduler :=
  mkScheduler s.(s_running) s.(s_queue) s.(s_terminalSnapshots) s.(s_terminalSnapshotFIFO)
     s.(s_evictedTerminalSnapshots) s.(s_evictedTerminalSnapshotFIFO) s.(s_maintenance)
     s.(s_arrayStopped) s.(s_aborting) s.(s_resuming) (g s.(s_batteryHold))
     s.(s_databaseRestore) s.(s_shareMutations) s.(s_shareWaiters) s.(s_appActions)
     s.(s_appWaiters) s.(s_topologyBackup) s.(s_migrationPending) s.(s_dispatching).
Definition upd_s_databaseRestore (g : bool → bool) (s : Scheduler) : Scheduler :=
  mkScheduler s.(s_running) s.(s_queue) s.(s_terminalSnapshots) s.(s_terminalSnapshotFIFO)
     s.(s_evictedTerminalSnapshots) s.(s_evictedTerminalSnapshotFIFO) s.(s_maintenance)
     s.(s_arrayStopped) s.(s_aborting) s.(s_resuming) s.(s_batteryHold)
     (g s.(s_databaseRestore)) s.(s_shareMutations) s.(s_shareWaiters) s.(s_appActions)
     s.(s_appWaiters) s.(s_topologyBackup) s.(s_migrationPending) s.(s_dispatching).
Definition upd_s_shareMutations (g : Z → Z) (s : Scheduler) : Scheduler :=
  mkScheduler s.(s_running) s.(s_queue) s.(s_terminalSnapshots) s.(s_terminalSnapshotFIFO)
     s.(s_evictedTerminalSnapshots) s.(s_evictedTerminalSnapshotFIFO) s.(s_maintenance)
     s.(s_arrayStopped) s.(s_aborting) s.(s_resuming) s.(s_batteryHold) s.(s_databaseRestore)
     (g s.(s_shareMutations)) s.(s_shareWaiters) s.(s_appActions) s.(s_appWaiters)
     s.(s_topologyBackup) s.(s_migrationPending) s.(s_dispatching).
Definition upd_s_shareWaiters (g : list nat → list nat) (s : Scheduler) : Scheduler :=
  mkScheduler s.(s_running) s.(s_queue) s.(s_terminalSnapshots) s.(s_terminalSnapshotFIFO)
     s.(s_evictedTerminalSnapshots) s.(s_evictedTerminalSnapshotFIFO) s.(s_maintenance)
     s.(s_arrayStopped) s.(s_aborting) s.(s_resuming) s.(s_batteryHold) s.(s_databaseRestore)
     s.(s_shareMutations) (g s.(s_shareWaiters)) s.(s_appActions) s.(s_appWaiters)
     s.(s_topologyBackup) s.(s_migrationPending) s.(s_dispatching).
Definition upd_s_appActions (g : Z → Z) (s : Scheduler) : Scheduler :=
  mkScheduler s.(s_running) s.(s_queue) s.(s_terminalSnapshots) s.(s_terminalSnapshotFIFO)
     s.(s_evictedTerminalSnapshots) s.(s_evictedTerminalSnapshotFIFO) s.(s_maintenance)
     s.(s_arrayStopped) s.(s_aborting) s.(s_resuming) s.(s_batteryHold) s.(s_databaseRestore)
     s.(s_shareMutations) s.(s_shareWaiters) (g s.(s_appActions)) s.(s_appWaiters)
     s.(s_topologyBackup) s.(s_migrationPending) s.(s_dispatching).
Definition upd_s_appWaiters (g : list nat → list nat) (s : Scheduler) : Scheduler :=
  mkScheduler s.(s_running) s.(s_queue) s.(s_terminalSnapshots) s.(s_terminalSnapshotFIFO)
     s.(s_evictedTerminalSnapshots) s.(s_evictedTerminalSnapshotFIFO) s.(s_maintenance)
     s.(s_arrayStopped) s.(s_aborting) s.(s_resuming) s.(s_batteryHold) s.(s_databaseRestore)
     s.(s_shareMutations) s.(s_shareWaiters) s.(s_appActions) (g s.(s_appWaiters))
     s.(s_topologyBackup) s.(s_migrationPending) s.(s_dispatching).
Definition upd_s_topologyBackup (g : bool → bool) (s : Scheduler) : Scheduler :=
  mkScheduler s.(s_running) s.(s_queue) s.(s_terminalSnapshots) s.(s_terminalSnapshotFIFO)
     s.(s_evictedTerminalSnapshots) s.(s_evictedTerminalSnapshotFIFO) s.(s_maintenance)
     s.(s_arrayStopped) s.(s_aborting) s.(s_resuming) s.(s_batteryHold) s.(s_databaseRestore)
     s.(s_shareMutations) s.(s_shareWaiters) s.(s_appActions) s.(s_appWaiters)
     (g s.(s_topologyBackup)) s.(s_migrationPending) s.(s_dispatching).
Definition upd_s_migrationPending (g : bool → bool) (s : Scheduler) : Scheduler :=
  mkScheduler s.(s_running) s.(s_queue) s.(s_terminalSnapshots) s.(s_terminalSnapshotFIFO)
     s.(s_evictedTerminalSnapshots) s.(s_evictedTerminalSnapshotFIFO) s.(s_maintenance)
     s.(s_arrayStopped) s.(s_aborting) s.(s_resuming) s.(s_batteryHold) s.(s_databaseRestore)
     s.(s_shareMutations) s.(s_shareWaiters) s.(s_appActions) s.(s_appWaiters)
     s.(s_topologyBackup) (g s.(s_migrationPending)) s.(s_dispatching).
Definition upd_s_dispatching (g : gmap string queuedJob → gmap string queuedJob) (s : Scheduler) : Scheduler :=
  mkScheduler s.(s_running) s.(s_queue) s.(s_terminalSnapshots) s.(s_terminalSnapshotFIFO)
     s.(s_evictedTerminalSnapshots) s.(s_evictedTerminalSnapshotFIFO) s.(s_maintenance)
     s.(s_arrayStopped) s.(s_aborting) s.(s_resuming) s.(s_batteryHold) s.(s_databaseRestore)
     s.(s_shareMutations) s.(s_shareWaiters) s.(s_appActions) s.(s_appWaiters)
     s.(s_topologyBackup) s.(s_migrationPending) (g s.(s_dispatching)).

(** The scheduler with what it acts on: the jobs table by primary key, the
    singleton row of [array_maintenance] (maintenance, array stopped), what was
    published through the hub (newest first), the jobs (by [done] channel) whose
    goroutine has been started and whose [RunFunc] has not returned, the running-job objects already
    removed from [running] (a caller can still hold one), the closed channels and the
    next channel name, how many topology backups have run, and the number of
    calls made out of the package so far. *)
Record world := mkWorld {
  w_sched : Scheduler;
  w_rows : gmap string Job;
  w_maint : option (bool * bool);
  w_hub : list Job;
  w_live : list nat;
  w_dead : gmap nat runningJob;
  w_closed : gset nat;
  w_nextChan : nat;
  w_backups : nat;
  w_tick : nat
}.

Definition upd_w_sched (g : Scheduler → Scheduler) (s : world) : world :=
  mkWorld (g s.(w_sched)) s.(w_rows) s.(w_maint) s.(w_hub) s.(w_live) s.(w_dead) s.(w_closed)
     s.(w_nextChan) s.(w_backups) s.(w_tick).
Definition upd_w_rows (g : gmap string Job → gmap string Job) (s : world) : world :=
  mkWorld s.(w_sched) (g s.(w_rows)) s.(w_maint) s.(w_hub) s.(w_live) s.(w_dead) s.(w_closed)
     s.(w_nextChan) s.(w_backups) s.(w_tick).
Definition upd_w_maint (g : option (bool * bool) → option (bool * bool)) (s : world) : world :=
  mkWorld s.(w_sched) s.(w_rows) (g s.(w_maint)) s.(w_hub) s.(w_live) s.(w_dead) s.(w_closed)
     s.(w_nextChan) s.(w_backups) s.(w_tick).
Definition upd_w_hub (g : list Job → list Job) (s : world) : world :=
  mkWorld s.(w_sched) s.(w_rows) s.(w_maint) (g s.(w_hub)) s.(w_live) s.(w_dead) s.(w_closed)
     s.(w_nextChan) s.(w_backups) s.(w_tick).
Definition upd_w_live (g : list nat → list nat) (s : world) : world :=
  mkWorld s.(w_sched) s.(w_rows) s.(w_maint) s.(w_hub) (g s.(w_live)) s.(w_dead) s.(w_closed)
     s.(w_nextChan) s.(w_backups) s.(w_tick).
Definition upd_w_dead (g : gmap nat runningJob → gmap nat runningJob) (s : world) : world :=
  mkWorld s.(w_sched) s.(w_rows) s.(w_maint) s.(w_hub) s.(w_live) (g s.(w_dead)) s.(w_closed)
     s.(w_nextChan) s.(w_backups) s.(w_tick).
Definition upd_w_closed (g : gset nat → gset nat) (s : world) : world :=
  mkWorld s.(w_sched) s.(w_rows) s.(w_maint) s.(w_hub) s.(w_live) s.(w_dead) (g s.(w_closed))
     s.(w_nextChan) s.(w_backups) s.(w_tick).
Definition upd_w_nextChan (g : nat → nat) (s : world) : world :=
  mkWorld s.(w_sched) s.(w_rows) s.(w_maint) s.(w_hub) s.(w_live) s.(w_dead) s.(w_closed)
     (g s.(w_nextChan)) s.(w_backups) s.(w_tick).
Definition upd_w_backups (g : nat → nat) (s : world) : world :=
  mkWorld s.(w_sched) s.(w_rows) s.(w_maint) s.(w_hub) s.(w_live) s.(w_dead) s.(w_closed)
     s.(w_nextChan) (g s.(w_backups)) s.(w_tick).
Definition upd_w_tick (g : nat → nat) (s : world) : world :=
  mkWorld s.(w_sched) s.(w_rows) s.(w_maint) s.(w_hub) s.(w_live) s.(w_dead) s.(w_closed)
     s.(w_nextChan) s.(w_backups) (g s.(w_tick)).

(** The environment: how the [n]-th call out of the package ends. Every theorem
    holds for all environments, so a store write can fail at any point and the
    clock, the migration check and the abort functions can answer anything. *)
Class Env := {
  env_registry : gmap JobType registryEntry;
  env_logs : bool;
  env_store : nat → option err;
  env_abort : nat → string → bytes → option err;
  env_backup : nat → option err;
  env_pending : nat → res err bool;
  env_validate_params : JobType → bytes → option err;
  env_uuid : nat → string;
  env_now : nat → Z
}.

Abbreviation M := (stM world err).
Abbreviation P := (prog world).

(** The number of this call out of the package. *)
Definition next_call : M nat := λ w, (Ok (w_tick w), upd_w_tick S w).
Definition sched : M Scheduler := λ w, (Ok (w_sched w), w).
Definition upd (f : Scheduler → Scheduler) : M unit := modify (upd_w_sched f).
Definition lift_opt (o : option err) : M unit := match o with Some e => throw e | None => mret tt end.
