(* ===== verification/JobStore.v ===== *)
(** * The job store

    [internal/job/store.go] over the jobs table, one row per primary key, and
    the singleton row of [array_maintenance]. Every method is one statement,
    which can fail without changing the table; an [UPDATE] that matches no row
    succeeds. *)
From S2P Require Export SchedState.
Open Scope string_scope.
Open Scope Z_scope.

Section store.
Context `{E : Env}.

(** One statement: the environment decides whether it fails. *)
Definition statement : M unit := n ← next_call; lift_opt (env_store n).

Definition time_now : M Z := n ← next_call; mret (env_now n).

(** [ORDER BY created_at ASC] *)
Definition created_le (a b : Job) : Prop := j_createdAt a ≤ j_createdAt b.
#[export] Instance created_le_dec a b : Decision (created_le a b).
Proof. unfold created_le. apply _. Defined.
Definition created_ge (a b : Job) : Prop := j_createdAt b ≤ j_createdAt a.
#[export] Instance created_ge_dec a b : Decision (created_ge a b).
Proof. unfold created_ge. apply _. Defined.

Definition select_rows (p : Job → bool) (rows : gmap string Job) : list Job :=
  filter (λ j, p j = true) (map snd (map_to_list rows)).

Definition status_active (s : Status) : bool :=
  match s with StatusQueued | StatusRunning => true | _ => false end.
Definition status_pending (s : Status) : bool :=
  match s with StatusQueued | StatusRunning | StatusInterrupted => true | _ => false end.

Definition store_Create (j : Job) : M unit :=
  _ ← statement;
  w ← get;
  match w_rows w !! j_id j with
  | Some _ => throw (EOther "UNIQUE constraint failed: jobs.id")
  | None => modify (upd_w_rows (insert (j_id j) j))
  end.

Definition store_Get (id : string) : M Job :=
  _ ← statement;
  w ← get;
  match w_rows w !! id with
  | Some j => mret j
  | None => throw (ESentinel S_ErrNoRows)
  end.

(** [ListFilter] *)
Record ListFilter := mkFilter {
  lf_class : option Class;
  lf_status : option Status;
  lf_limit : Z
}.

Definition filter_matches (f : ListFilter) (j : Job) : bool :=
  match lf_class f with None => true | Some c => bool_decide (j_class j = c) end &&
  match lf_status f with None => true | Some s => bool_decide (j_status j = s) end.

Definition store_List (f : ListFilter) : M (list Job) :=
  let limit := if lf_limit f <=? 0 then 50 else lf_limit f in
  _ ← statement;
  w ← get;
  mret (take (Z.to_nat limit) (merge_sort created_ge (select_rows (filter_matches f) (w_rows w)))).

Definition store_ListActive : M (list Job) :=
  _ ← statement;
  w ← get;
  mret (merge_sort created_le (select_rows (λ j, status_active (j_status j)) (w_rows w))).

Definition store_ListPending (t : JobType) : M (list Job) :=
  _ ← statement;
  w ← get;
  mret (merge_sort created_le
    (select_rows (λ j, bool_decide (j_type j = t) && status_pending (j_status j)) (w_rows w))).

Definition alter_row (f : Job → Job) (id : string) : M unit :=
  modify (upd_w_rows (alter f id)).

Definition store_SetCancellable (id : string) (cancellable : bool) : M unit :=
  _ ← statement; alter_row (upd_j_cancellable (λ _, cancellable)) id.

Definition set_status (status : Status) (progress : option Z) (errCode errMessage : string)
    (startedAt finishedAt : option Z) (j : Job) : Job :=
  upd_j_status (λ _, status) $ upd_j_progress (λ _, progress) $
  upd_j_errorCode (λ _, errCode) $ upd_j_errorMessage (λ _, errMessage) $
  upd_j_startedAt (λ _, startedAt) $ upd_j_finishedAt (λ _, finishedAt) j.

Definition store_UpdateStatus (id : string) (status : Status) (progress : option Z)
    (errCode errMessage : string) (startedAt finishedAt : option Z) : M unit :=
  _ ← statement;
  alter_row (set_status status progress errCode errMessage startedAt finishedAt) id.

Definition store_UpdateProgress (id : string) (progress : option Z) : M unit :=
  _ ← statement; alter_row (upd_j_progress (λ _, progress)) id.

Definition store_SaveCheckpoint (id : string) (data : bytes) : M unit :=
  _ ← statement; alter_row (upd_j_checkpoint (λ _, data)) id.

Definition interrupt_row (at_ : Z) (j : Job) : Job :=
  if status_active (j_status j)
  then upd_j_status (λ _, StatusInterrupted) (upd_j_finishedAt (λ _, Some at_) j)
  else j.

Definition store_InterruptActive (at_ : Z) : M unit :=
  _ ← statement; modify (upd_w_rows (fmap (interrupt_row at_))).

Definition store_InterruptByID (ids : list string) (at_ : Z) : M unit :=
  if bool_decide (ids = []) then mret tt
  else
    _ ← statement;
    modify (upd_w_rows (map_imap (λ id j,
      Some (if bool_decide (id ∈ ids) then interrupt_row at_ j else j)))).

(** [UpsertArrayMaintenance] and [GetArrayMaintenance] on the singleton row. *)
Definition store_UpsertArrayMaintenance (maintenance arrayStopped : bool) : M unit :=
  _ ← statement; modify (upd_w_maint (λ _, Some (maintenance, arrayStopped))).

Definition store_GetArrayMaintenance : M (bool * bool) :=
  _ ← statement;
  w ← get;
  match w_maint w with
  | Some r => mret r
  | None => throw (ESentinel S_ErrNoRows)
  end.
End store.
