(* ===== verification/Sched.v ===== *)
(** * The scheduler's operations

    Every method of [internal/job/scheduler.go] that admits, starts, stops or
    ends a job, section by section: a lock hold is one [M] function, a method
    that releases its lock is a [P] program. *)
From S2P Require Export JobStore.
Open Scope string_scope.
Open Scope Z_scope.
Open Scope go_scope.

Definition NewScheduler : Scheduler :=
  mkScheduler ∅ [] ∅ [] ∅ [] false false ∅ ∅ false false 0 [] 0 [] false false ∅.

Section scheduler.
Context `{E : Env}.

Definition Publish (j : Job) : M unit := modify (upd_w_hub (cons j)).
Definition publish (j : Job) : P unit := _ ← atomic (Publish j); Ret tt.
Definition dispatch_call : P unit := Call (Ret tt).

Definition make_chan : M nat := λ w, (Ok (w_nextChan w), upd_w_nextChan S w).
Definition close_chan (c : nat) : M unit := modify (upd_w_closed (λ s, {[c]} ∪ s)).

(** ** Registry lookups ([registry.go]) *)
Definition lookup_entry (t : JobType) : option registryEntry := env_registry !! t.
Definition lookupAbort (t : JobType) : bool :=
  match env_registry !! t with Some e => re_abort e | None => false end.

(** ** Admission *)
Definition isBatteryHeldType (t : JobType) : bool :=
  bool_decide (t = TypeMover) || bool_decide (t = TypeSync).

Definition takesTopologyBackup (t : JobType) (class : Class) : bool :=
  bool_decide (class = ClassTopology) && negb (bool_decide (t = TypeMigrationScan))
    && negb (bool_decide (t = TypeMigrationVerify)).

Definition migration_exempt (t : JobType) : bool :=
  bool_decide (t = TypeMigrationImport) || bool_decide (t = TypeMigrationVerify)
    || bool_decide (t = TypeMigrationParity).

Definition admitMigrationLocked (t : JobType) : M unit :=
  s ← sched;
  if negb (s_migrationPending s) || migration_exempt t then mret tt
  else match fst (ClassOf t) with
  | ClassParity | ClassArrayWrite | ClassTopology =>
      n ← next_call;
      match env_pending n with
      | Err e => throw (wrap "job: checking whether a migration is pending: " e)
      | Ok pending => throw_if pending (ESentinel S_MigrationInProgress)
      end
  | _ => mret tt
  end.

(** A call of a store method whose error is wrapped. *)
Definition wrapped {A} (pre : string) (m : M A) : M A := λ w,
  match m w with
  | (Ok a, w') => (Ok a, w')
  | (Err e, w') => (Err (wrap pre e), w')
  end.

Definition head_pending (s : sentinel) (pending : list Job) : M unit :=
  match pending with
  | [] => mret tt
  | j :: _ => throw (EWrap "" (ESentinel s) (": job " +:+ j_id j))
  end.

Definition admitDiskUpgradeDataLocked : M unit :=
  pending ← wrapped "job: checking for a pending data-disk upgrade: "
    (store_ListPending TypeDiskUpgradeData);
  _ ← head_pending S_DiskUpgradeDataPending pending;
  s ← sched;
  throw_if (negb (s_maintenance s) || negb (s_arrayStopped s)) (ESentinel S_ArrayNotStopped).

Definition admitEvacuationLocked : M unit :=
  pending ← wrapped "job: checking for a pending evacuation: "
    (store_ListPending TypeEvacuation);
  head_pending S_EvacuationPending pending.

Definition admitLocked (t : JobType) : M unit :=
  s ← sched;
  _ ← throw_if (s_databaseRestore s) (ESentinel S_DatabaseRestoreInProgress);
  _ ← (if bool_decide (t = TypeDiskUpgradeData) then admitDiskUpgradeDataLocked
       else throw_if (s_maintenance s) (ESentinel S_MaintenanceMode));
  _ ← throw_if (s_batteryHold s && isBatteryHeldType t) (ESentinel S_OnBattery);
  _ ← admitMigrationLocked t;
  if bool_decide (t = TypeEvacuation) then admitEvacuationLocked else mret tt.

Definition CheckAdmission (t : JobType) : P (res err unit) :=
  match ValidateType t with
  | Err e => Ret (Err e)
  | Ok _ => atomic (admitLocked t)
  end.

(** [SetTopologyBackup] and [SetMigrationPending], of a hook that is set or nil. *)
Definition SetTopologyBackup (b : bool) : M unit := upd (upd_s_topologyBackup (λ _, b)).
Definition SetMigrationPending (check : bool) : M unit := upd (upd_s_migrationPending (λ _, check)).

(** ** Conflicts and starting a job *)
Definition hasConflictWithRunningLocked (s : Scheduler) (class : Class)
    (resourceIDs : list string) : bool :=
  existsb (λ p : string * runningJob,
      conflicts class (j_class (rj_job p.2)) resourceIDs (j_resourceIDs (rj_job p.2)))
    (map_to_list (s_running s)) ||
  existsb (λ p : string * queuedJob,
      conflicts class (j_class (q_job p.2)) resourceIDs (j_resourceIDs (q_job p.2)))
    (map_to_list (s_dispatching s)).

(** The goroutine is recorded in [w_live]; what it does is [runJob] below. *)
Definition startJobLocked (j : Job) (cancellable : bool) : M unit :=
  done ← make_chan;
  let rj := mkRunning j cancellable reasonNone false false false 0 done in
  _ ← upd (upd_s_running (insert (j_id j) rj));
  modify (upd_w_live (cons done)).

(** ** The pre-topology backup *)
Definition runTopologyBackup : P (res err unit) :=
  let! backup := atomic (s ← sched; mret (s_topologyBackup s)) in
  if negb backup then Ret (Ok tt)
  else
    atomic (
      n ← next_call;
      match env_backup n with
      | Some e => throw (wrap "job: pre-topology config backup: " e)
      | None => modify (upd_w_backups S)
      end).

(** ** Submit *)
Definition finishSubmitLocked (t : JobType) (class : Class) (resourceIDs : list string)
    (params : bytes) (entry : registryEntry) (backupRan : bool) : M (Job * bool) :=
  now ← time_now;
  n ← next_call;
  let j0 := mkJob (env_uuid n) t class StatusQueued None (Resumable t) (re_cancellable entry)
    resourceIDs BNil params "" "" now None None in
  s ← sched;
  let '(j, deferredForBackup) :=
    if hasConflictWithRunningLocked s class resourceIDs then (j0, false)
    else if takesTopologyBackup t class && negb backupRan then (j0, true)
    else (upd_j_status (λ _, StatusRunning) (upd_j_startedAt (λ _, Some now) j0), false) in
  _ ← wrapped "job: persisting new job: " (store_Create j);
  _ ← (if bool_decide (j_status j = StatusQueued)
       then upd (upd_s_queue (λ q, (q ++ [mkQueued j (re_cancellable entry) false])%list))
       else startJobLocked j (re_cancellable entry));
  mret (j, deferredForBackup).

(** What [Submit] decides before its first lock hold. *)
Definition submit_entry (t : JobType) (params : bytes) : res err registryEntry :=
  match ValidateType t with
  | Err e => Err e
  | Ok _ =>
      match env_validate_params t params with
      | Some e => Err e
      | None =>
          match lookup_entry t with
          | None => Err (EWrap "" (ESentinel S_JobTypeNotRegistered) (": " +:+ type_string t))
          | Some entry => Ok entry
          end
      end
  end.

(** The early backup: whether one ran. *)
Definition submit_backup (t : JobType) (class : Class) (resourceIDs : list string) :
    P (res err bool) :=
  if takesTopologyBackup t class then
    let! willQueue := atomic (
      _ ← admitLocked t;
      s ← sched;
      mret (hasConflictWithRunningLocked s class resourceIDs)) in
    if negb willQueue : bool then
      let! _ := runTopologyBackup in
      Ret (Ok true)
    else Ret (Ok false)
  else Ret (Ok false).

Definition Submit (t : JobType) (resourceIDs : list string) (params : bytes) :
    P (res err Job) :=
  match submit_entry t params with
  | Err e => Ret (Err e)
  | Ok entry =>
      let class := fst (ClassOf t) in
      let! backupRan := submit_backup t class resourceIDs in
      let! (j, deferredForBackup) := atomic (
        _ ← admitLocked t;
        finishSubmitLocked t class resourceIDs params entry backupRan) in
      _ ← publish j;
      _ ← (if deferredForBackup : bool then dispatch_call else Ret tt);
      Ret (Ok j)
  end.

(** ** Cancel *)

(** What [Cancel]'s first lock hold decides. *)
Inductive cancelDecision :=
| CancelSnapshot (j : Job)
| CancelQueued (j : Job) (now : Z)
| CancelQueuedAbort (j : Job)
| CancelInterrupted.

Definition cancel_dispatching (id : string) (q : queuedJob) : M cancelDecision :=
  if negb (q_cancellable q) && bool_decide (j_type (q_job q) = TypeDiskUpgradeData)
  then throw (ESentinel S_DiskUpgradePastRelease)
  else
    _ ← upd (upd_s_dispatching (alter (upd_q_cancelRequested (λ _, true)) id));
    mret (CancelSnapshot (q_job q)).

Definition cancel_running (id : string) (rj : runningJob) : M cancelDecision :=
  if rj_finished rj then
    throw (EWrap "" (ESentinel S_JobNotRunning) (": job " +:+ id +:+ " has already finished running"))
  else if negb (rj_cancellable rj) then
    if bool_decide (j_type (rj_job rj) = TypeDiskUpgradeData)
    then throw (ESentinel S_DiskUpgradePastRelease)
    else throw (ESentinel S_JobNotCancellable)
  else
    _ ← upd (upd_s_running (alter (λ r,
          upd_rj_ctxCancelled (λ _, true) (upd_rj_reason (λ _, reasonCancel) r)) id));
    mret (CancelSnapshot (rj_job rj)).

Definition cancel_queued (id : string) (i : nat) (q : queuedJob) : M cancelDecision :=
  if negb (q_cancellable q) && bool_decide (j_type (q_job q) = TypeDiskUpgradeData)
  then throw (ESentinel S_DiskUpgradePastRelease)
  else
    _ ← upd (upd_s_queue (delete i));
    if negb (lookupAbort (j_type (q_job q))) then
      now ← time_now;
      mret (CancelQueued (upd_j_status (λ _, StatusCancelled)
              (upd_j_finishedAt (λ _, Some now) (q_job q))) now)
    else
      _ ← upd (upd_s_aborting (λ a, {[id]} ∪ a));
      mret (CancelQueuedAbort (q_job q)).

Definition cancel_interrupted_locked (id : string) : M cancelDecision :=
  s ← sched;
  _ ← throw_if (bool_decide (id ∈ s_aborting s)) (ESentinel S_JobAbortInProgress);
  _ ← throw_if (bool_decide (id ∈ s_resuming s)) (ESentinel S_JobResumeInProgress);
  _ ← upd (upd_s_aborting (λ a, {[id]} ∪ a));
  mret CancelInterrupted.

Definition cancel_locked (id : string) : M cancelDecision :=
  s ← sched;
  _ ← throw_if (s_databaseRestore s) (ESentinel S_DatabaseRestoreInProgress);
  match s_dispatching s !! id with
  | Some q => cancel_dispatching id q
  | None =>
      match s_running s !! id with
      | Some rj => cancel_running id rj
      | None =>
          match list_find (λ q, j_id (q_job q) = id) (s_queue s) with
          | Some (i, q) => cancel_queued id i q
          | None => cancel_interrupted_locked id
          end
      end
  end.

Definition releaseAbort (id : string) : P unit :=
  _ ← atomic (upd (upd_s_aborting (λ a, a ∖ {[id]}))); Ret tt.

(** The code a failed abort is recorded with. *)
Definition abort_code (e : err) : string :=
  match as_outcome e with
  | Some (_, code) => if bool_decide (code = "") then "job_abort_failed" else code
  | None => "job_abort_failed"
  end.

Definition call_abort (id : string) (params : bytes) : M unit :=
  n ← next_call; lift_opt (env_abort n id params).

(** [store.UpdateStatus] with the current time as the end of the job. *)
Definition end_status (j : Job) (status : Status) (code msg : string) : M Z :=
  now ← time_now;
  _ ← store_UpdateStatus (j_id j) status (j_progress j) code msg (j_startedAt j) (Some now);
  mret now.

Definition ended (j : Job) (status : Status) (code msg : string) (now : Z) : Job :=
  upd_j_status (λ _, status) $ upd_j_errorCode (λ _, code) $
  upd_j_errorMessage (λ _, msg) $ upd_j_finishedAt (λ _, Some now) j.

Definition abort_failed (j : Job) (e : err) : P (res err Job) :=
  let code := abort_code e in
  r ← atomic (end_status j StatusInterrupted code (err_string e));
  match r with
  | Err serr =>
      Ret (Err (EWrap ("job: aborting job " +:+ j_id j +:+ ": ") e
                 (" (recording the failure: " +:+ err_string serr +:+ ")")))
  | Ok now =>
      _ ← publish (ended j StatusInterrupted code (err_string e) now);
      Ret (Err (wrap ("job: aborting job " +:+ j_id j +:+ ": ") e))
  end.

Definition abortAndCancel (j : Job) (abort : bool) : P (res err Job) :=
  a ← (if abort then atomic (call_abort (j_id j) (j_params j)) else Ret (Ok tt));
  match a with
  | Err e => abort_failed j e
  | Ok _ =>
      r ← atomic (end_status j StatusCancelled "" "");
      match r with
      | Err e => Ret (Err (wrap ("job: cancelling job " +:+ j_id j +:+ ": ") e))
      | Ok now =>
          let j' := ended j StatusCancelled "" "" now in
          _ ← publish j';
          Ret (Ok j')
      end
  end.

Definition status_string (s : Status) : string :=
  match s with
  | StatusQueued => "queued"
  | StatusRunning => "running"
  | StatusInterrupted => "interrupted"
  | StatusSucceeded => "succeeded"
  | StatusFailed => "failed"
  | StatusCancelled => "cancelled"
  end.

(** What [Cancel] checks of a job that is not in memory. *)
Definition cancel_check (existing : Job) : option err :=
  if negb (bool_decide (j_status existing = StatusInterrupted)) then
    Some (EWrap "" (ESentinel S_JobNotRunning)
      (": job " +:+ j_id existing +:+ " has status " +:+ status_string (j_status existing)))
  else if bool_decide (j_type existing = TypeDiskUpgradeData)
          && diskUpgradeDataCheckpointAtReleasing (j_checkpoint existing) then
    Some (ESentinel S_DiskUpgradePastRelease)
  else if negb (j_cancellable existing) then Some (ESentinel S_JobNotCancellable)
  else None.

Definition cancel_interrupted (id : string) : P (res err Job) :=
  let! existing := atomic (store_Get id) in
  match cancel_check existing with
  | Some e => Ret (Err e)
  | None => abortAndCancel existing (lookupAbort (j_type existing))
  end.

Definition Cancel (id : string) : P (res err Job) :=
  let! d := atomic (cancel_locked id) in
  match d with
  | CancelSnapshot j => Ret (Ok j)
  | CancelQueued j now =>
      r ← atomic (store_UpdateStatus id StatusCancelled (j_progress j) "" ""
                    (j_startedAt j) (Some now));
      match r with
      | Err e => Ret (Err (wrap ("job: cancelling queued job " +:+ id +:+ ": ") e))
      | Ok _ => _ ← publish j; Ret (Ok j)
      end
  | CancelQueuedAbort j =>
      r ← abortAndCancel j true; _ ← releaseAbort id; Ret r
  | CancelInterrupted =>
      r ← cancel_interrupted id; _ ← releaseAbort id; Ret r
  end.

(** ** Resume *)
Definition resumableJobLocked (id : string) : M (Job * registryEntry) :=
  s ← sched;
  _ ← throw_if (s_databaseRestore s) (ESentinel S_DatabaseRestoreInProgress);
  existing ← store_Get id;
  _ ← throw_if (negb (j_resumable existing)) (ESentinel S_JobNotResumable);
  _ ← throw_if (negb (bool_decide (j_status existing = StatusInterrupted)))
        (ESentinel S_JobNotInterrupted);
  _ ← throw_if (bool_decide (is_Some (s_running s !! id)))
        (EWrap "" (ESentinel S_JobAlreadyRunning) (": job " +:+ id));
  entry ← match lookup_entry (j_type existing) with
          | None => throw (EWrap "" (ESentinel S_JobTypeNotRegistered)
                             (": " +:+ type_string (j_type existing)))
          | Some entry => mret entry
          end;
  _ ← (if bool_decide (j_type existing = TypeDiskUpgradeData)
       then throw_if (negb (s_maintenance s)) (ESentinel S_ArrayNotStopped)
       else throw_if (s_maintenance s) (ESentinel S_MaintenanceMode));
  _ ← throw_if (s_batteryHold s && isBatteryHeldType (j_type existing)) (ESentinel S_OnBattery);
  _ ← admitMigrationLocked (j_type existing);
  mret (existing, entry).

(** The rest of [Resume]'s last lock hold: the job is queued or started ... *)
Definition resume_admit (id : string) (existing : Job) (cancellable : bool) : M Job :=
  now ← time_now;
  s ← sched;
  let conflict := hasConflictWithRunningLocked s (j_class existing) (j_resourceIDs existing) in
  let j :=
    upd_j_cancellable (λ _, cancellable) $ upd_j_errorCode (λ _, "") $
    upd_j_errorMessage (λ _, "") $ upd_j_finishedAt (λ _, None) $
    (if conflict then upd_j_status (λ _, StatusQueued) existing
     else upd_j_status (λ _, StatusRunning) (upd_j_startedAt (λ _, Some now) existing)) in
  _ ← wrapped ("job: resuming job " +:+ id +:+ ": ")
        (store_UpdateStatus id (j_status j) (j_progress j) "" "" (j_startedAt j) (j_finishedAt j));
  _ ← (if bool_decide (j_status j = StatusQueued)
       then upd (upd_s_queue (λ q, (q ++ [mkQueued j cancellable false])%list))
       else startJobLocked j cancellable);
  mret j.

(** ... once its row says whether it can be cancelled. *)
Definition resume_commit (id : string) (existing : Job) (entry : registryEntry) : M Job :=
  let cancellable :=
    if bool_decide (j_type existing = TypeDiskUpgradeData)
       && diskUpgradeDataCheckpointAtReleasing (j_checkpoint existing)
    then false else re_cancellable entry in
  _ ← (if bool_decide (cancellable = j_cancellable existing) then mret tt
       else wrapped ("job: resuming job " +:+ id +:+ ": ") (store_SetCancellable id cancellable));
  resume_admit id existing cancellable.

(** The first lock hold: [None] when the job's log is to be repaired first. *)
Definition resume_begin (id : string) : M (option Job) :=
  s ← sched;
  _ ← throw_if (bool_decide (id ∈ s_aborting s)) (ESentinel S_JobAbortInProgress);
  _ ← throw_if (bool_decide (id ∈ s_resuming s)) (ESentinel S_JobResumeInProgress);
  '(existing, entry) ← resumableJobLocked id;
  if env_logs then
    _ ← upd (upd_s_resuming (λ r, {[id]} ∪ r));
    mret None
  else
    j ← resume_commit id existing entry;
    mret (Some j).

(** The second one, once [sealLogForResume] has returned. *)
Definition resume_end (id : string) : M Job :=
  _ ← upd (upd_s_resuming (λ r, r ∖ {[id]}));
  '(existing, entry) ← resumableJobLocked id;
  resume_commit id existing entry.

Definition Resume (id : string) : P (res err Job) :=
  let! o := atomic (resume_begin id) in
  let! j := (match o with Some j => Ret (Ok j) | None => atomic (resume_end id) end) in
  _ ← publish j;
  Ret (Ok j).

(** ** Terminal snapshots

    What [Await] falls back to when a job's last write never succeeded. *)
Definition maxTerminalSnapshots : nat := 64.

Fixpoint removeString (ids : list string) (id : string) : list string :=
  match ids with
  | [] => []
  | fid :: ids' => if bool_decide (fid = id) then ids' else fid :: removeString ids' id
  end.

Definition terminalSnapshotFrom (j : Job) : Job :=
  mkJob (j_id j) (TypeUnknown "") ClassNone (j_status j) None false false [] BNil BNil
    (j_errorCode j) (j_errorMessage j) 0 (j_startedAt j) (j_finishedAt j).

Definition clearEvictedTerminalSnapshotLocked (id : string) (s : Scheduler) : Scheduler :=
  upd_s_evictedTerminalSnapshotFIFO (λ l, removeString l id)
    (upd_s_evictedTerminalSnapshots (λ e, e ∖ {[id]}) s).

(** [for len(s.evictedTerminalSnapshotFIFO) > maxTerminalSnapshots { ... }],
    over the FIFO it shortens. *)
Fixpoint drop_evicted (fifo : list string) (s : Scheduler) : Scheduler :=
  match fifo with
  | [] => upd_s_evictedTerminalSnapshotFIFO (λ _, []) s
  | old :: fifo' =>
      if (maxTerminalSnapshots <? length fifo)%nat
      then drop_evicted fifo' (upd_s_evictedTerminalSnapshots (λ e, e ∖ {[old]}) s)
      else upd_s_evictedTerminalSnapshotFIFO (λ _, fifo) s
  end.

Definition markTerminalSnapshotEvictedLocked (id : string) (s : Scheduler) : Scheduler :=
  if bool_decide (id ∈ s_evictedTerminalSnapshots s) then s
  else
    let s1 := upd_s_evictedTerminalSnapshots (λ e, {[id]} ∪ e) s in
    drop_evicted (s_evictedTerminalSnapshotFIFO s ++ [id])%list s1.

(** [for len(s.terminalSnapshotFIFO) >= maxTerminalSnapshots { ... }] *)
Fixpoint evict_snapshots (fifo : list string) (s : Scheduler) : Scheduler :=
  match fifo with
  | [] => upd_s_terminalSnapshotFIFO (λ _, []) s
  | evictID :: fifo' =>
      if (maxTerminalSnapshots <=? length fifo)%nat
      then evict_snapshots fifo' (markTerminalSnapshotEvictedLocked evictID
             (upd_s_terminalSnapshots (delete evictID) s))
      else upd_s_terminalSnapshotFIFO (λ _, fifo) s
  end.

Definition remember (j : Job) (s0 : Scheduler) : Scheduler :=
  let s := clearEvictedTerminalSnapshotLocked (j_id j) s0 in
  match s_terminalSnapshots s !! j_id j with
  | Some _ => upd_s_terminalSnapshots (insert (j_id j) (terminalSnapshotFrom j)) s
  | None =>
      let s1 := evict_snapshots (s_terminalSnapshotFIFO s) s in
      upd_s_terminalSnapshotFIFO (λ l, (l ++ [j_id j])%list)
        (upd_s_terminalSnapshots (insert (j_id j) (terminalSnapshotFrom j)) s1)
  end.
Definition rememberTerminalSnapshot (j : Job) : M unit := upd (remember j).

Definition forget (id : string) (s : Scheduler) : Scheduler :=
  upd_s_terminalSnapshotFIFO (λ l, removeString l id)
    (clearEvictedTerminalSnapshotLocked id (upd_s_terminalSnapshots (delete id) s)).
Definition forgetTerminalSnapshot (id : string) : M unit := upd (forget id).

Definition terminalSnapshot (s : Scheduler) (id : string) : option Job :=
  match s_terminalSnapshots s !! id with
  | Some snap => if Terminal (j_status snap) then Some snap else None
  | None => None
  end.

Definition terminalSnapshotEvicted (s : Scheduler) (id : string) : bool :=
  bool_decide (id ∈ s_evictedTerminalSnapshots s).

(** ** Recording an outcome *)
Definition finalStatusWriteRetries : nat := 3.

(** One write, retried while it fails and attempts are left. *)
Fixpoint with_retries (attempts : nat) (m : M unit) : P (res err unit) :=
  r ← atomic m;
  match r, attempts with
  | Err _, S n => with_retries n m
  | _, _ => Ret r
  end.

Definition write_outcome (j : Job) : M unit :=
  store_UpdateStatus (j_id j) (j_status j) (j_progress j) (j_errorCode j) (j_errorMessage j)
    (j_startedAt j) (j_finishedAt j).

Definition recordTerminalOutcomeWithRetry (j : Job) : P unit :=
  r ← with_retries (finalStatusWriteRetries - 1) (write_outcome j);
  match r with
  | Ok _ => Ret tt
  | Err _ => _ ← atomic (rememberTerminalSnapshot j); Ret tt
  end.

(** ** A queued topology job's turn

    The thread that runs it holds the object dispatch put in [s_dispatching];
    [Cancel] writes its [cancelRequested] through that map. *)
Definition cancelRequested (id : string) (s : Scheduler) : bool :=
  match s_dispatching s !! id with Some q => q_cancelRequested q | None => false end.

(** The lock hold that takes [q] out of [s_dispatching] with its outcome. *)
Definition settle_dispatching (q : queuedJob) (st : Status) (code msg : string) (now : Z) : M Job :=
  _ ← upd (upd_s_dispatching (delete (j_id (q_job q))));
  mret (upd_j_status (λ _, st) $ upd_j_errorCode (λ _, code) $
        upd_j_errorMessage (λ _, msg) $ upd_j_finishedAt (λ _, Some now) (q_job q)).

Definition finishQueuedTopologyJob (q : queuedJob) (st : Status) (code msg : string) : P unit :=
  r ← atomic (now ← time_now; settle_dispatching q st code msg now);
  match r with
  | Err _ => Ret tt
  | Ok snapshot =>
      _ ← recordTerminalOutcomeWithRetry snapshot;
      _ ← publish snapshot;
      dispatch_call
  end.

Definition finishQueuedTopologyJobCancelled (q : queuedJob) : P unit :=
  finishQueuedTopologyJob q StatusCancelled "" "".
Definition finishQueuedTopologyJobFailed (q : queuedJob) (backupErr : err) : P unit :=
  finishQueuedTopologyJob q StatusFailed "pre_topology_backup_failed" (err_string backupErr).
Definition finishQueuedTopologyJobInterrupted (q : queuedJob) (code msg : string) : P unit :=
  finishQueuedTopologyJob q StatusInterrupted code msg.

(** The abort of a dispatching job: the code and message of one that failed. *)
Definition runQueuedTopologyAbort (q : queuedJob) : P (option (string * string)) :=
  let id := j_id (q_job q) in
  _ ← atomic (upd (upd_s_aborting (λ a, {[id]} ∪ a)));
  r ← atomic (call_abort id (j_params (q_job q)));
  _ ← releaseAbort id;
  match r with
  | Err e => Ret (Some (abort_code e, err_string e))
  | Ok _ => Ret None
  end.

(** Runs the abort when the type has one; [k] when there is none or it
    succeeded. *)
Definition abort_then (q : queuedJob) (k : P unit) : P unit :=
  if lookupAbort (j_type (q_job q)) then
    a ← runQueuedTopologyAbort q;
    match a with
    | Some (code, msg) => finishQueuedTopologyJobInterrupted q code msg
    | None => k
    end
  else k.

(** The code a refused queued job ends with. *)
Definition refusal_code (refusal : err) : string :=
  if err_is refusal S_MigrationInProgress then "migration_in_progress" else "migration_check_failed".

Definition refuse_settle (q : queuedJob) (refusal : err) : P unit :=
  r ← atomic (
    now ← time_now;
    s ← sched;
    if cancelRequested (j_id (q_job q)) s then mret None
    else
      j ← settle_dispatching q StatusFailed (refusal_code refusal) (err_string refusal) now;
      mret (Some j));
  match r with
  | Ok (Some snapshot) =>
      _ ← recordTerminalOutcomeWithRetry snapshot;
      _ ← publish snapshot;
      dispatch_call
  | _ => finishQueuedTopologyJobCancelled q
  end.

Definition refuseQueuedJob (q : queuedJob) (refusal : err) : P unit :=
  abort_then q (refuse_settle q refusal).

(** What the lock hold after the backup decides. *)
Inductive topologyDecision :=
| TopoCancelled
| TopoBackupFailed (e : err)
| TopoInterrupted (j : Job)
| TopoRequeued
| TopoStarted (j : Job).

Definition start_topology_locked (q : queuedJob) (backupErr : option err) : M topologyDecision :=
  let id := j_id (q_job q) in
  s ← sched;
  if cancelRequested id s then mret TopoCancelled
  else match backupErr with
  | Some e => mret (TopoBackupFailed e)
  | None =>
      _ ← upd (upd_s_dispatching (delete id));
      now ← time_now;
      if s_maintenance s && negb (bool_decide (j_type (q_job q) = TypeDiskUpgradeData)) then
        mret (TopoInterrupted (upd_j_status (λ _, StatusInterrupted)
                (upd_j_finishedAt (λ _, Some now) (q_job q))))
      else
        r ← attempt (store_UpdateStatus id StatusRunning (j_progress (q_job q)) "" ""
                       (Some now) None);
        match r with
        | Err _ =>
            _ ← upd (upd_s_queue (λ l, (l ++ [upd_q_cancelRequested (λ _, false) q])%list));
            mret TopoRequeued
        | Ok _ =>
            let j := upd_j_status (λ _, StatusRunning) (upd_j_startedAt (λ _, Some now) (q_job q)) in
            _ ← startJobLocked j (q_cancellable q);
            mret (TopoStarted j)
        end
  end.

Definition backup_failed (q : queuedJob) (e : err) : P unit :=
  if negb (q_cancellable q) && bool_decide (j_type (q_job q) = TypeDiskUpgradeData)
  then finishQueuedTopologyJobInterrupted q "pre_topology_backup_failed" (err_string e)
  else abort_then q (finishQueuedTopologyJobFailed q e).

Definition startQueuedTopologyJob (q : queuedJob) : P unit :=
  b ← runTopologyBackup;
  d ← atomic (start_topology_locked q (err_of b));
  match d with
  | Err _ => Ret tt
  | Ok TopoCancelled => abort_then q (finishQueuedTopologyJobCancelled q)
  | Ok (TopoBackupFailed e) => backup_failed q e
  | Ok (TopoInterrupted snapshot) =>
      _ ← recordTerminalOutcomeWithRetry snapshot;
      publish snapshot
  | Ok TopoRequeued => Ret tt
  | Ok (TopoStarted j) => publish j
  end.

(** ** Dispatch *)
Record dispatchAcc := mkAcc {
  da_remaining : list queuedJob;
  da_decided : list Job;
  da_start : list queuedJob;
  da_refuse : list (queuedJob * err)
}.

(** Whether the pass skips [q]: a hold, or a conflict. *)
Definition dispatch_skips (s : Scheduler) (decided : list Job) (q : queuedJob) : bool :=
  let j := q_job q in
  (s_maintenance s && negb (bool_decide (j_type j = TypeDiskUpgradeData))) ||
  (s_batteryHold s && isBatteryHeldType (j_type j)) ||
  hasConflictWithRunningLocked s (j_class j) (j_resourceIDs j) ||
  existsb (λ sj, conflicts (j_class j) (j_class sj) (j_resourceIDs j) (j_resourceIDs sj)) decided.

Definition keep_queued (acc : dispatchAcc) (q : queuedJob) : dispatchAcc :=
  mkAcc (da_remaining acc ++ [q])%list (da_decided acc) (da_start acc) (da_refuse acc).

Definition dispatch_start (acc : dispatchAcc) (q : queuedJob) : M dispatchAcc :=
  now ← time_now;
  let j := upd_j_status (λ _, StatusRunning) (upd_j_startedAt (λ _, Some now) (q_job q)) in
  r ← attempt (store_UpdateStatus (j_id j) StatusRunning (j_progress j) "" "" (j_startedAt j) None);
  match r with
  | Err _ => mret (keep_queued acc (upd_q_job (λ _, j) q))
  | Ok _ =>
      _ ← startJobLocked j (q_cancellable q);
      _ ← Publish j;
      mret (mkAcc (da_remaining acc) (da_decided acc ++ [j])%list (da_start acc) (da_refuse acc))
  end.

Definition dispatch_job (acc : dispatchAcc) (q : queuedJob) : M dispatchAcc :=
  let j := q_job q in
  s ← sched;
  if dispatch_skips s (da_decided acc) q then mret (keep_queued acc q)
  else
    a ← attempt (admitMigrationLocked (j_type j));
    match a with
    | Err e =>
        _ ← upd (upd_s_dispatching (insert (j_id j) q));
        mret (mkAcc (da_remaining acc) (da_decided acc) (da_start acc)
                (da_refuse acc ++ [(q, e)])%list)
    | Ok _ =>
        if takesTopologyBackup (j_type j) (j_class j) then
          _ ← upd (upd_s_dispatching (insert (j_id j) q));
          mret (mkAcc (da_remaining acc) (da_decided acc ++ [j])%list
                  (da_start acc ++ [q])%list (da_refuse acc))
        else dispatch_start acc q
    end.

Fixpoint dispatch_loop (acc : dispatchAcc) (queue : list queuedJob) : M dispatchAcc :=
  match queue with
  | [] => mret acc
  | q :: queue' => acc' ← dispatch_job acc q; dispatch_loop acc' queue'
  end.

Definition dispatch_locked : M dispatchAcc :=
  s ← sched;
  acc ← dispatch_loop (mkAcc [] [] [] []) (s_queue s);
  _ ← upd (upd_s_queue (λ _, da_remaining acc));
  mret acc.

Fixpoint for_each {A} (f : A → P unit) (l : list A) : P unit :=
  match l with
  | [] => Ret tt
  | x :: l' => _ ← f x; for_each f l'
  end.

(** The recursive procedure: every [dispatch_call] runs it. *)
Definition dispatch : P unit :=
  r ← atomic dispatch_locked;
  match r with
  | Err _ => Ret tt
  | Ok acc =>
      _ ← for_each (λ r : queuedJob * err, refuseQueuedJob r.1 r.2) (da_refuse acc);
      for_each startQueuedTopologyJob (da_start acc)
  end.

(** ** A running job

    Code that holds a [*runningJob] names the object by its [done] channel: it
    is in [running], or in [w_dead] once it was taken out of it. *)
Definition deref (d : nat) (w : world) : option runningJob :=
  match list_find (λ p : string * runningJob, rj_done p.2 = d) (map_to_list (s_running (w_sched w))) with
  | Some (_, p) => Some p.2
  | None => w_dead w !! d
  end.

Definition alter_rj (d : nat) (f : runningJob → runningJob) : M unit :=
  modify (λ w,
    upd_w_dead (alter f d)
      (upd_w_sched (upd_s_running (fmap (λ r, if bool_decide (rj_done r = d) then f r else r))) w)).

(** A use of the object a goroutine holds. *)
Definition with_rj {A} (d : nat) (k : runningJob → M A) : M A :=
  w ← get;
  match deref d w with
  | Some rj => k rj
  | None => throw (EOther "no such job object")
  end.

(** [rc.SaveCheckpoint] *)
Definition saveDiskUpgradeReleasing (d : nat) (data : bytes) : M unit :=
  with_rj d (λ rj,
    _ ← throw_if (bool_decide (rj_reason rj = reasonCancel)) (ESentinel S_CancelRequested);
    let id := j_id (rj_job rj) in
    _ ← store_SaveCheckpoint id data;
    _ ← alter_rj d (λ r, upd_rj_cancellable (λ _, false)
          (upd_rj_job (upd_j_cancellable (λ _, false)) r));
    _ ← attempt (store_SetCancellable id false);
    mret tt).

Definition saveCheckpoint (d : nat) (data : bytes) : P (res err unit) :=
  atomic (with_rj d (λ rj,
    if bool_decide (j_type (rj_job rj) = TypeDiskUpgradeData)
       && diskUpgradeDataCheckpointAtReleasing data
    then saveDiskUpgradeReleasing d data
    else store_SaveCheckpoint (j_id (rj_job rj)) data)).

(** [rc.SetProgress] *)
Definition setProgress (d : nat) (pct : Z) : P unit :=
  _ ← atomic (with_rj d (λ rj, store_UpdateProgress (j_id (rj_job rj)) (Some pct)));
  r ← atomic (
    _ ← alter_rj d (upd_rj_job (upd_j_progress (λ _, Some pct)));
    with_rj d (λ rj, mret (rj_job rj)));
  match r with
  | Ok snapshot => publish snapshot
  | Err _ => Ret tt
  end.

(** [rc.KeepForResume] *)
Definition keepForResume (d : nat) : P (res err bool) :=
  atomic (with_rj d (λ rj,
    if bool_decide (rj_reason rj = reasonCancel) then mret false
    else _ ← alter_rj d (upd_rj_finished (λ _, true)); mret true)).

Definition isCancellationDerived (e : err) : bool :=
  err_is e S_ContextCanceled || err_is e S_ContextDeadlineExceeded
    || err_is e S_CancelRequested || err_is e S_JobNeedsRetry.

(** What [runJob] records of a run that returned [runErr], asked to stop for
    [reason]: the status, the error code and the error message. *)
Definition cancelled_outcome (runErr : option err) : Status * string * string :=
  match runErr with
  | None => (StatusCancelled, "", "")
  | Some e =>
      match as_cleanup e with
      | Some (code, msg) => (StatusCancelled, code, msg)
      | None =>
          match as_outcome e with
          | Some (_, code) => (StatusCancelled, code, err_string e)
          | None =>
              if isCancellationDerived e then (StatusCancelled, "", "")
              else (StatusCancelled, "job_failed_before_cancel", err_string e)
          end
      end
  end.

Definition plain_outcome (runErr : option err) (reason : stopReason) : Status * string * string :=
  if bool_decide (reason = reasonMaintenance) || bool_decide (reason = reasonBatteryHold)
  then (StatusInterrupted, "", "")
  else match runErr with
  | None => (StatusSucceeded, "", "")
  | Some e =>
      if err_is e S_JobNeedsRetry then (StatusInterrupted, "job_needs_retry", err_string e)
      else (StatusFailed, "job_failed", err_string e)
  end.

Definition outcome (runErr : option err) (reason : stopReason) : Status * string * string :=
  match runErr ≫= (λ e, o ← as_outcome e; Some (e, o)) with
  | Some (e, (StatusInterrupted, code)) => (StatusInterrupted, code, err_string e)
  | o =>
      if bool_decide (reason = reasonCancel) then cancelled_outcome runErr
      else match o with
      | Some (e, (st, code)) => (st, code, err_string e)
      | None => plain_outcome runErr reason
      end
  end.

(** [runJob] once [RunFunc] has returned. *)
Definition settle_running (d : nat) : M stopReason :=
  _ ← alter_rj d (upd_rj_finished (λ _, true));
  with_rj d (λ rj, mret (rj_reason rj)).

Definition remove_running (d : nat) : M Job :=
  with_rj d (λ rj,
    _ ← upd (upd_s_running (delete (j_id (rj_job rj))));
    _ ← modify (upd_w_dead (insert d rj));
    mret (rj_job rj)).

Definition finish_job (d : nat) (status : Status) (code msg : string) (now : Z) : M Job :=
  _ ← alter_rj d (upd_rj_job (λ j, upd_j_status (λ _, status) $
        upd_j_errorCode (λ _, code) $ upd_j_errorMessage (λ _, msg) $
        upd_j_finishedAt (λ _, Some now) j));
  with_rj d (λ rj, mret (rj_job rj)).

Definition record_run (d : nat) (status : Status) (code msg : string) (now : Z) (j : Job) : P unit :=
  r ← with_retries (finalStatusWriteRetries - 1)
        (store_UpdateStatus (j_id j) status (j_progress j) code msg (j_startedAt j) (Some now));
  f ← atomic (finish_job d status code msg now);
  match f with
  | Err _ => Ret tt
  | Ok finished =>
      _ ← (if is_ok r then Ret tt
           else _ ← atomic (rememberTerminalSnapshot finished); Ret tt);
      _ ← publish finished;
      dispatch_call
  end.

Definition runJob_returned (d : nat) (runErr : option err) : P unit :=
  reason ← atomic (settle_running d);
  match reason with
  | Err _ => Ret tt
  | Ok reason =>
      now ← atomic time_now;
      match now with
      | Err _ => Ret tt
      | Ok now =>
          let '(status, code, msg) := outcome runErr reason in
          j ← atomic (remove_running d);
          match j with
          | Err _ => Ret tt
          | Ok j =>
              _ ← record_run d status code msg now j;
              _ ← atomic (close_chan d);
              Ret tt
          end
      end
  end.

(** ** Maintenance mode *)
Definition persistMaintenanceLocked (maintenance arrayStopped : bool) : M unit :=
  store_UpsertArrayMaintenance maintenance arrayStopped.

Definition set_maintenance (maintenance arrayStopped : bool) : M unit :=
  upd (λ s, upd_s_maintenance (λ _, maintenance) (upd_s_arrayStopped (λ _, arrayStopped) s)).

Definition RecoverFromRestart : M unit :=
  now ← time_now; store_InterruptActive now.

Definition RestorePersistedMaintenance : P (res err unit) :=
  r ← atomic store_GetArrayMaintenance;
  match r with
  | Err e =>
      if err_is e S_ErrNoRows then Ret (Ok tt)
      else Ret (Err (wrap "job: reading persisted maintenance state: " e))
  | Ok (m, a) => atomic (set_maintenance m a)
  end.

(** The [done] channels of the running jobs, in some order. *)
Definition running_dones (s : Scheduler) : list nat :=
  map (λ p : string * runningJob, rj_done p.2) (map_to_list (s_running s)).

(** The first lock hold: the queue it empties and the running jobs to signal. *)
Definition enter_maintenance_locked (persist : bool) : M (list queuedJob * list nat) :=
  _ ← (if persist then wrapped "job: persisting maintenance mode: " (persistMaintenanceLocked true false)
       else mret tt);
  s ← sched;
  _ ← set_maintenance true false;
  _ ← upd (upd_s_queue (λ _, []));
  mret (s_queue s, running_dones s).

Definition interrupt_queued (now : Z) (q : queuedJob) : P unit :=
  let j := upd_j_status (λ _, StatusInterrupted) (upd_j_finishedAt (λ _, Some now) (q_job q)) in
  r ← atomic (store_UpdateStatus (j_id j) StatusInterrupted (j_progress j) "" ""
                (j_startedAt j) (Some now));
  match r with
  | Err _ => Ret tt
  | Ok _ => publish j
  end.

(** Under [rj.mu]: whether the job is to be stopped, and whether it is
    resumable. *)
Definition signal_maintenance (d : nat) : M (option bool) :=
  with_rj d (λ rj,
    if rj_stopSignalled rj then mret None
    else
      _ ← alter_rj d (λ r, upd_rj_stopSignalled (λ _, true)
            (if bool_decide (rj_reason r = reasonNone)
             then upd_rj_reason (λ _, reasonMaintenance) r else r));
      mret (Some (j_resumable (rj_job rj)))).

Definition close_stopCh (d : nat) : M unit := alter_rj d (upd_rj_stopClosed S).
Definition cancel_ctx (d : nat) : M unit := alter_rj d (upd_rj_ctxCancelled (λ _, true)).

Definition stop_for_maintenance (d : nat) : P unit :=
  r ← atomic (signal_maintenance d);
  match r with
  | Ok (Some true) => _ ← atomic (close_stopCh d); Ret tt
  | Ok (Some false) => _ ← atomic (cancel_ctx d); Ret tt
  | _ => Ret tt
  end.

Definition enterMaintenance (persist : bool) : P (res err unit) :=
  let! (queue, running) := atomic (enter_maintenance_locked persist) in
  let! now := atomic time_now in
  _ ← for_each (interrupt_queued now) queue;
  _ ← for_each stop_for_maintenance running;
  Ret (Ok tt).

Definition EnterMaintenance : P (res err unit) := enterMaintenance true.
Definition EnterMaintenanceTransient : P unit := _ ← enterMaintenance false; Ret tt.

(** A wait on a channel, with what the caller's context ending returns. *)
Definition wait_closed (c : nat) (what : string) (k : P (res err unit)) : P (res err unit) :=
  Wait (λ w, bool_decide (c ∈ w_closed w)) k
    (Ret (Err (wrap what (ESentinel S_ContextCanceled)))).

Fixpoint wait_all (what : string) (dones : list nat) : P (res err unit) :=
  match dones with
  | [] => Ret (Ok tt)
  | d :: dones' => wait_closed d what (wait_all what dones')
  end.

Definition Drain : P (res err unit) :=
  let! dones := atomic (s ← sched; mret (running_dones s)) in
  wait_all "job: waiting for running jobs to stop: " dones.

Definition ExitMaintenanceChecked : M unit :=
  _ ← wrapped "job: persisting the exited-maintenance state: " (persistMaintenanceLocked false false);
  set_maintenance false false.
Definition ExitMaintenance : M unit := _ ← attempt ExitMaintenanceChecked; mret tt.

Definition markArrayStopped (persist : bool) : M unit :=
  s ← sched;
  let stopped := s_maintenance s in
  _ ← (if persist then attempt (persistMaintenanceLocked (s_maintenance s) stopped)
       else mret (Ok tt));
  upd (upd_s_arrayStopped (λ _, stopped)).
Definition MarkArrayStopped : M unit := markArrayStopped true.
Definition MarkArrayStoppedTransient : M unit := markArrayStopped false.

Definition BeginArrayStart : M bool :=
  pending ← wrapped "job: checking for a pending data-disk upgrade: "
    (store_ListPending TypeDiskUpgradeData);
  _ ← match pending with
      | [] => mret tt
      | j :: _ => throw (EWrap "" (ESentinel S_DiskUpgradeDataPending)
          (": job " +:+ j_id j +:+ " — resume it, or cancel it to abort back to the old disk"))
      end;
  s ← sched;
  _ ← wrapped "job: persisting array-start state: " (persistMaintenanceLocked (s_maintenance s) false);
  _ ← upd (upd_s_arrayStopped (λ _, false));
  mret (s_arrayStopped s).

Definition RestoreArrayStopped (was : bool) : M unit :=
  s ← sched;
  let restored := was && s_maintenance s in
  _ ← wrapped "job: persisting the restored array-stopped state: "
        (persistMaintenanceLocked (s_maintenance s) restored);
  upd (upd_s_arrayStopped (λ _, restored)).

(** ** A whole-database restore *)
Definition BeginDatabaseRestore : M unit :=
  s ← sched;
  _ ← throw_if (s_databaseRestore s) (ESentinel S_DatabaseRestoreInProgress);
  _ ← throw_if (negb (bool_decide (s_aborting s = ∅)) || negb (bool_decide (s_resuming s = ∅)))
        (ESentinel S_JobsActiveForRestore);
  active ← wrapped "job: checking for active jobs before a database restore: " store_ListActive;
  _ ← throw_if (negb (bool_decide (active = []))) (ESentinel S_JobsActiveForRestore);
  upd (upd_s_databaseRestore (λ _, true)).

Definition endDatabaseRestore : M unit := upd (upd_s_databaseRestore (λ _, false)).

(** ** Share updates and app actions counted against [array stop] *)
Definition BeginShareMutation : M unit :=
  s ← sched;
  _ ← throw_if (s_maintenance s) (ESentinel S_MaintenanceMode);
  upd (upd_s_shareMutations Z.succ).

(** [for _, ch := range waiters { close(ch) }] *)
Fixpoint close_all (chs : list nat) : M unit :=
  match chs with
  | [] => mret tt
  | c :: chs' => _ ← close_chan c; close_all chs'
  end.

Definition FinishShareMutation : M unit :=
  s ← sched;
  if s_shareMutations s =? 0 then mret tt
  else
    _ ← upd (upd_s_shareMutations Z.pred);
    if s_shareMutations s - 1 =? 0 then
      _ ← close_all (s_shareWaiters s);
      upd (upd_s_shareWaiters (λ _, []))
    else mret tt.

Definition share_waiter : M (option nat) :=
  s ← sched;
  if s_shareMutations s =? 0 then mret None
  else
    ch ← make_chan;
    _ ← upd (upd_s_shareWaiters (λ l, (l ++ [ch])%list));
    mret (Some ch).

Definition DrainShareMutations : P (res err unit) :=
  let! o := atomic share_waiter in
  match o with
  | None => Ret (Ok tt)
  | Some ch => wait_closed ch "job: waiting for share updates to finish: " (Ret (Ok tt))
  end.

Definition BeginAppAction : M unit :=
  s ← sched;
  _ ← throw_if (s_maintenance s) (ESentinel S_MaintenanceMode);
  upd (upd_s_appActions Z.succ).

Definition FinishAppAction : M unit :=
  s ← sched;
  if s_appActions s =? 0 then mret tt
  else
    _ ← upd (upd_s_appActions Z.pred);
    if s_appActions s - 1 =? 0 then
      _ ← close_all (s_appWaiters s);
      upd (upd_s_appWaiters (λ _, []))
    else mret tt.

Definition app_waiter : M (option nat) :=
  s ← sched;
  if s_appActions s =? 0 then mret None
  else
    ch ← make_chan;
    _ ← upd (upd_s_appWaiters (λ l, (l ++ [ch])%list));
    mret (Some ch).

Definition DrainAppActions : P (res err unit) :=
  let! o := atomic app_waiter in
  match o with
  | None => Ret (Ok tt)
  | Some ch => wait_closed ch "job: waiting for app start, restart and remove calls to finish: " (Ret (Ok tt))
  end.

(** ** The on-battery hold *)
Definition pause_locked : M (option (list nat)) :=
  s ← sched;
  if s_batteryHold s then mret None
  else
    _ ← upd (upd_s_batteryHold (λ _, true));
    mret (Some (map (λ p : string * runningJob, rj_done p.2)
      (filter (λ p : string * runningJob, j_type (rj_job p.2) = TypeMover)
        (map_to_list (s_running s))))).

Definition signal_battery (d : nat) : M (option string) :=
  with_rj d (λ rj,
    if rj_stopSignalled rj then mret None
    else
      _ ← alter_rj d (λ r, upd_rj_stopSignalled (λ _, true)
            (upd_rj_reason (λ _, reasonBatteryHold) r));
      mret (Some (j_id (rj_job rj)))).

Fixpoint pause_each (toStop : list nat) : P (list string) :=
  match toStop with
  | [] => Ret []
  | d :: ds =>
      r ← atomic (signal_battery d);
      match r with
      | Ok (Some id) =>
          _ ← atomic (close_stopCh d);
          ids ← pause_each ds; Ret (id :: ids)
      | _ => pause_each ds
      end
  end.

(** [select { case <-rj.done: case <-ctx.Done(): }] for each. *)
Fixpoint await_each (toStop : list nat) : P unit :=
  match toStop with
  | [] => Ret tt
  | d :: ds => Wait (λ w, bool_decide (d ∈ w_closed w)) (await_each ds) (await_each ds)
  end.

Definition PauseForBattery : P (list string) :=
  r ← atomic pause_locked;
  match r with
  | Ok (Some toStop) =>
      paused ← pause_each toStop;
      _ ← await_each toStop;
      Ret paused
  | _ => Ret []
  end.

Definition ResumeFromBattery : P unit :=
  _ ← atomic (upd (upd_s_batteryHold (λ _, false)));
  dispatch_call.

(** ** Storage jobs in the way of an update or a reboot *)
Definition storage_running (s : Scheduler) : list (string * runningJob) :=
  filter (λ p : string * runningJob, IsStorageClass (j_class (rj_job p.2)) = true)
    (map_to_list (s_running s)).
Definition storage_dispatching (s : Scheduler) : list (string * queuedJob) :=
  filter (λ p : string * queuedJob, IsStorageClass (j_class (q_job p.2)) = true)
    (map_to_list (s_dispatching s)).

Definition BlockingStorageJob (s : Scheduler) : option Job :=
  match storage_running s with
  | (_, rj) :: _ => Some (rj_job rj)
  | [] =>
      match storage_dispatching s with
      | (_, q) :: _ => Some (q_job q)
      | [] => None
      end
  end.

(** What one turn of the loop finds: nothing to wait for, a channel, or a
    dispatching job it polls for. *)
Inductive storageWait := SWNone | SWDone (d : nat) | SWPoll.
Definition storage_wait (s : Scheduler) : storageWait :=
  match storage_running s with
  | (_, rj) :: _ => SWDone (rj_done rj)
  | [] => if bool_decide (storage_dispatching s = []) then SWNone else SWPoll
  end.

(** [turns] bounds the turns of the loop; [None] is a caller still waiting. *)
Fixpoint WaitForStorageJobs (turns : nat) : P (option (res err unit)) :=
  match turns with
  | O => Ret None
  | S n =>
      let cancelled :=
        Ret (Some (Err (wrap "job: waiting for storage jobs: " (ESentinel S_ContextCanceled)))) in
      r ← atomic (s ← sched; mret (storage_wait s));
      match r with
      | Err e => Ret (Some (Err e))
      | Ok SWNone => Ret (Some (Ok tt))
      | Ok (SWDone d) => Wait (λ w, bool_decide (d ∈ w_closed w)) (WaitForStorageJobs n) cancelled
      | Ok SWPoll => Wait (λ _, true) (WaitForStorageJobs n) cancelled
      end
  end.

Definition PendingDiskUpgradeData : M (option Job) :=
  pending ← wrapped "job: listing pending data-disk upgrades: "
    (store_ListPending TypeDiskUpgradeData);
  mret (head pending).

(** ** Await *)

(** What ends one [select] of the loop. *)
Inductive wakeup := WakeMsg (published : Job) | WakeTick | WakeCtx.

(** One pass over [wakeups] by the loop; [None] is a caller still waiting. *)
Fixpoint Await (id : string) (wakeups : list wakeup) : P (option (res err Job)) :=
  let pre := "job: awaiting job " +:+ id +:+ ": " in
  r ← atomic (store_Get id);
  match r with
  | Err e => Ret (Some (Err (wrap pre e)))
  | Ok j =>
      if Terminal (j_status j) then
        _ ← atomic (forgetTerminalSnapshot id); Ret (Some (Ok j))
      else
        snap ← atomic (s ← sched; mret (terminalSnapshot s id));
        match snap with
        | Ok (Some j) => Ret (Some (Ok j))
        | _ =>
            ev ← atomic (s ← sched; mret (terminalSnapshotEvicted s id));
            match ev with
            | Ok true => Ret (Some (Err (wrap pre (ESentinel S_TerminalSnapshotEvicted))))
            | _ =>
                match wakeups with
                | [] => Ret None
                | WakeMsg published :: ws =>
                    if bool_decide (j_id published = id) && Terminal (j_status published)
                    then Ret (Some (Ok published)) else Await id ws
                | WakeTick :: ws => Await id ws
                | WakeCtx :: _ => Ret (Some (Err (wrap pre (ESentinel S_ContextCanceled))))
                end
            end
        end
  end.
End scheduler.
