(* ===== verification/SchedLogic.v ===== *)
(** * Reasoning about the scheduler's threads

    The part of the world the scheduler's safety depends on ([core]), the
    tokens a thread holds (what it alone may do), the invariant [Inv] that ties
    the tokens of all threads to the world, and a weakest precondition for
    programs under interference: between two actions of a thread the world can
    become any world that satisfies the invariant together with the thread's
    tokens. *)
From S2P Require Export Sched.
Open Scope nat_scope.

(** ** Counting occurrences *)
Section cnt.
Context {A : Type} `{EqDecision A}.

Definition cnt (x : A) (l : list A) : nat := length (filter (λ y, y = x) l).

Lemma cnt_nil x : cnt x [] = 0.
Proof. reflexivity. Qed.
Lemma cnt_cons x y l : cnt x (y :: l) = (if decide (y = x) then 1 else 0) + cnt x l.
Proof. unfold cnt. rewrite filter_cons. by destruct (decide (y = x)). Qed.
Lemma cnt_app x l1 l2 : cnt x (l1 ++ l2) = cnt x l1 + cnt x l2.
Proof. unfold cnt. by rewrite filter_app, length_app. Qed.
Lemma cnt_perm x l1 l2 : l1 ≡ₚ l2 → cnt x l1 = cnt x l2.
Proof. unfold cnt. intros Hp. by rewrite Hp. Qed.
Lemma cnt_pos x l : 0 < cnt x l ↔ x ∈ l.
Proof.
  induction l as [|y l IH].
  - rewrite cnt_nil, elem_of_nil. lia.
  - rewrite cnt_cons, elem_of_cons, <- IH. case_decide; [subst; split; [by left|lia]|].
    split; [by right|intros [->|?]; done].
Qed.
Lemma cnt_zero x l : cnt x l = 0 ↔ x ∉ l.
Proof. rewrite <- cnt_pos. lia. Qed.
Lemma cnt_delete x i l y :
  l !! i = Some y → cnt x l = (if decide (y = x) then 1 else 0) + cnt x (delete i l).
Proof.
  intros Hi. rewrite (cnt_perm x l (y :: delete i l)).
  - apply cnt_cons.
  - by apply delete_Permutation.
Qed.
Lemma cnt_le_NoDup l : (∀ x, cnt x l ≤ 1) → NoDup l.
Proof.
  induction l as [|y l IH]; intros H; constructor.
  - intros Hy%cnt_pos. specialize (H y). rewrite cnt_cons, decide_True in H by done. lia.
  - apply IH. intros x. specialize (H x). rewrite cnt_cons in H. lia.
Qed.
Lemma cnt_head x l : 0 < cnt x (x :: l).
Proof. rewrite cnt_cons, decide_True by done. lia. Qed.
End cnt.
#[global] Arguments cnt : simpl never.

(** ** What the invariant reads *)
Record core := mkCore {
  c_running : gmap string runningJob;
  c_queue : list queuedJob;
  c_disp : gmap string queuedJob;
  c_aborting : gset string;
  c_resuming : gset string;
  c_restore : bool;
  c_rows : gmap string Job;
  c_live : list nat;
  c_dead : gmap nat runningJob;
  c_next : nat
}.

Definition core_of (w : world) : core :=
  mkCore (s_running (w_sched w)) (s_queue (w_sched w)) (s_dispatching (w_sched w))
    (s_aborting (w_sched w)) (s_resuming (w_sched w)) (s_databaseRestore (w_sched w))
    (w_rows w) (w_live w) (w_dead w) (w_nextChan w).

Definition set_running (g : gmap string runningJob → gmap string runningJob) (c : core) : core :=
  mkCore
    (g (c_running c)) (c_queue c) (c_disp c) (c_aborting c) (c_resuming c) (c_restore c)
    (c_rows c) (c_live c) (c_dead c) (c_next c).
Definition set_queue (g : list queuedJob → list queuedJob) (c : core) : core :=
  mkCore
    (c_running c) (g (c_queue c)) (c_disp c) (c_aborting c) (c_resuming c) (c_restore c)
    (c_rows c) (c_live c) (c_dead c) (c_next c).
Definition set_disp (g : gmap string queuedJob → gmap string queuedJob) (c : core) : core :=
  mkCore
    (c_running c) (c_queue c) (g (c_disp c)) (c_aborting c) (c_resuming c) (c_restore c)
    (c_rows c) (c_live c) (c_dead c) (c_next c).
Definition set_aborting (g : gset string → gset string) (c : core) : core :=
  mkCore
    (c_running c) (c_queue c) (c_disp c) (g (c_aborting c)) (c_resuming c) (c_restore c)
    (c_rows c) (c_live c) (c_dead c) (c_next c).
Definition set_resuming (g : gset string → gset string) (c : core) : core :=
  mkCore
    (c_running c) (c_queue c) (c_disp c) (c_aborting c) (g (c_resuming c)) (c_restore c)
    (c_rows c) (c_live c) (c_dead c) (c_next c).
Definition set_restore (g : bool → bool) (c : core) : core :=
  mkCore
    (c_running c) (c_queue c) (c_disp c) (c_aborting c) (c_resuming c) (g (c_restore c))
    (c_rows c) (c_live c) (c_dead c) (c_next c).
Definition set_rows (g : gmap string Job → gmap string Job) (c : core) : core :=
  mkCore
    (c_running c) (c_queue c) (c_disp c) (c_aborting c) (c_resuming c) (c_restore c) (g
    (c_rows c)) (c_live c) (c_dead c) (c_next c).
Definition set_live (g : list nat → list nat) (c : core) : core :=
  mkCore
    (c_running c) (c_queue c) (c_disp c) (c_aborting c) (c_resuming c) (c_restore c)
    (c_rows c) (g (c_live c)) (c_dead c) (c_next c).
Definition set_dead (g : gmap nat runningJob → gmap nat runningJob) (c : core) : core :=
  mkCore
    (c_running c) (c_queue c) (c_disp c) (c_aborting c) (c_resuming c) (c_restore c)
    (c_rows c) (c_live c) (g (c_dead c)) (c_next c).
Definition set_next (g : nat → nat) (c : core) : core :=
  mkCore
    (c_running c) (c_queue c) (c_disp c) (c_aborting c) (c_resuming c) (c_restore c)
    (c_rows c) (c_live c) (c_dead c) (g (c_next c)).

(** ** Tokens *)
Inductive tok :=
| TRun (d : nat) (np : bool)            (** is the goroutine of the job with this [done];
                                            its upgrade is known not to be past release *)
| TDisp (q : queuedJob) (abt : bool)    (** decides this dispatching job's turn *)
| TOut (id : string) (canc : bool)      (** records the outcome of a job in no collection;
                                            may record it cancelled *)
| TAbI (id : string)                    (** holds the job's abort slot *)
| TAbX (id : string)                    (** ... of a job it has found interrupted *)
| TRes (id : string)                    (** holds the job's resume slot *)
| TClose (d : nat).                     (** will close this job's [stopCh] *)

Definition qid (q : queuedJob) : string := j_id (q_job q).

Definition runs (O : list tok) : list nat :=
  omap (λ t, match t with TRun d _ => Some d | _ => None end) O.
Definition disps (O : list tok) : list string :=
  omap (λ t, match t with TDisp q _ => Some (qid q) | _ => None end) O.
Definition outs (O : list tok) : list string :=
  omap (λ t, match t with TOut id _ => Some id | _ => None end) O.
Definition abs (O : list tok) : list string :=
  omap (λ t, match t with
             | TAbI id | TAbX id => Some id
             | TDisp q true => Some (qid q)
             | _ => None end) O.
Definition ress (O : list tok) : list string :=
  omap (λ t, match t with TRes id => Some id | _ => None end) O.
Definition closes (O : list tok) : list nat :=
  omap (λ t, match t with TClose d => Some d | _ => None end) O.

Definition qids (c : core) : list string := map qid (c_queue c).
Definition is_run (c : core) (id : string) : nat :=
  match c_running c !! id with Some _ => 1 | None => 0 end.
Definition is_disp (c : core) (id : string) : nat :=
  match c_disp c !! id with Some _ => 1 | None => 0 end.

(** In how many places a job is in memory; and with the threads. *)
Definition in_mem (c : core) (id : string) : nat := cnt id (qids c) + is_run c id + is_disp c id.
Definition place (c : core) (O : list tok) (id : string) : nat := in_mem c id + cnt id (outs O).

Definition dones (m : gmap string runningJob) : list nat :=
  map (λ p : string * runningJob, rj_done p.2) (map_to_list m).

(** A data-disk upgrade whose stored checkpoint is past the release decision. *)
Definition past (r : Job) : bool :=
  bool_decide (j_type r = TypeDiskUpgradeData) && diskUpgradeDataCheckpointAtReleasing (j_checkpoint r).

(** What a job in [running] or [dispatching] excludes others by. *)
Definition act (c : core) (id : string) : option (Class * list string) :=
  match c_running c !! id with
  | Some rj => Some (j_class (rj_job rj), j_resourceIDs (rj_job rj))
  | None => (λ q, (j_class (q_job q), j_resourceIDs (q_job q))) <$> c_disp c !! id
  end.
Definition clash (a b : Class * list string) : bool := conflicts a.1 b.1 a.2 b.2.

Definition same_q (q q' : queuedJob) : Prop :=
  q_job q = q_job q' ∧ q_cancellable q = q_cancellable q' ∧
  (q_cancelRequested q = true → q_cancelRequested q' = true).

(** The row of a job in memory. *)
Definition row_ok (c : core) (j : Job) (P : Job → Prop) : Prop :=
  ∃ r, c_rows c !! j_id j = Some r ∧ j_type r = j_type j ∧ P r.

Definition run_wf (c : core) (id : string) (rj : runningJob) : Prop :=
  j_id (rj_job rj) = id ∧
  row_ok c (rj_job rj) (λ r, past r = true → rj_cancellable rj = false ∧ rj_reason rj ≠ reasonCancel) ∧
  rj_done rj < c_next c ∧ c_dead c !! rj_done rj = None.

Definition disp_wf (c : core) (id : string) (q : queuedJob) : Prop :=
  qid q = id ∧
  row_ok c (q_job q) (λ r, past r = true → q_cancellable q = false ∧ q_cancelRequested q = false).

Definition queue_wf (c : core) (q : queuedJob) : Prop :=
  row_ok c (q_job q) (λ r, past r = true → q_cancellable q = false) ∧ q_cancelRequested q = false.

Definition stop_wf (O : list tok) (rj : runningJob) : Prop :=
  let n := rj_stopClosed rj + cnt (rj_done rj) (closes O) in
  n ≤ 1 ∧ (0 < n → rj_stopSignalled rj = true).

Section inv.
Context `{E : Env}.

(** A job id somebody can name: one that has a row, or one no job will get. *)
Definition known (c : core) (id : string) : Prop :=
  is_Some (c_rows c !! id) ∨ ∀ n, env_uuid n ≠ id.

Record Inv (c : core) (O : list tok) : Prop := mkInv {
  i_keys : ∀ id r, c_rows c !! id = Some r → j_id r = id;
  i_place : ∀ id, place c O id ≤ 1;
  i_row : ∀ id, 0 < place c O id →
    ∃ r, c_rows c !! id = Some r ∧ status_active (j_status r) = true;
  i_runs : ∀ d, cnt d (c_live c) + cnt d (runs O) = cnt d (dones (c_running c));
  i_dones : ∀ d, cnt d (dones (c_running c)) ≤ 1;
  i_run : ∀ id rj, c_running c !! id = Some rj → run_wf c id rj;
  i_dead : ∀ d rj, c_dead c !! d = Some rj → rj_done rj = d ∧ d < c_next c;
  i_stop_run : ∀ id rj, c_running c !! id = Some rj → stop_wf O rj;
  i_stop_dead : ∀ d rj, c_dead c !! d = Some rj → stop_wf O rj;
  i_closes : ∀ d, d ∈ closes O → d < c_next c;
  i_disp : ∀ id q, c_disp c !! id = Some q → disp_wf c id q;
  i_disps : ∀ id, cnt id (disps O) = is_disp c id;
  i_dispq : ∀ q a, TDisp q a ∈ O → ∃ q', c_disp c !! qid q = Some q' ∧ same_q q q';
  i_queue : ∀ q, q ∈ c_queue c → queue_wf c q;
  i_excl : ∀ id1 id2 a1 a2, id1 ≠ id2 → act c id1 = Some a1 → act c id2 = Some a2 →
    clash a1 a2 = false;
  i_out : ∀ id r, TOut id true ∈ O → c_rows c !! id = Some r → past r = false;
  i_np : ∀ d id rj r, TRun d true ∈ O → c_running c !! id = Some rj → rj_done rj = d →
    c_rows c !! id = Some r → past r = false;
  i_abs : ∀ id, cnt id (abs O) ≤ 1;
  i_aborting : ∀ id, id ∈ abs O → id ∈ c_aborting c;
  i_abI : ∀ id, TAbI id ∈ O → in_mem c id = 0 ∧ known c id;
  i_abX : ∀ id, TAbX id ∈ O →
    place c O id = 0 ∧ ∃ r, c_rows c !! id = Some r ∧ past r = false;
  i_ress : ∀ id, cnt id (ress O) ≤ 1;
  i_resuming : ∀ id, id ∈ ress O →
    id ∈ c_resuming c ∧ cnt id (abs O) = 0 ∧ place c O id = 0 ∧ is_Some (c_rows c !! id);
  i_restore : c_restore c = true →
    (∀ t, t ∈ O → ∃ d, t = TClose d) ∧ ∀ id, place c O id = 0
}.

(** What every action of every thread guarantees: a database restore's hold is
    kept and the jobs table is left to it; and an upgrade past its release
    decision does not become cancelled. *)
Record Guar (c c' : core) : Prop := mkGuar {
  g_restore : c_restore c = true → c_restore c' = true ∧ c_rows c' = c_rows c;
  g_past : ∀ id r, c_rows c !! id = Some r → past r = true →
    ∃ r', c_rows c' !! id = Some r' ∧
      (j_status r' = StatusCancelled → j_status r = StatusCancelled)
}.

(** A stronger, transitive one: what every action but a checkpoint save gives. *)
Record GuarS (c c' : core) : Prop := mkGuarS {
  gs_restore : c_restore c = true → c_restore c' = true ∧ c_rows c' = c_rows c;
  gs_row : ∀ id r, c_rows c !! id = Some r →
    ∃ r', c_rows c' !! id = Some r' ∧ past r' = past r ∧
      (past r = true → j_status r' = StatusCancelled → j_status r = StatusCancelled)
}.

Lemma GuarS_refl c : GuarS c c.
Proof. split; naive_solver. Qed.
Lemma GuarS_trans c1 c2 c3 : GuarS c1 c2 → GuarS c2 c3 → GuarS c1 c3.
Proof.
  intros [R1 P1] [R2 P2]. split.
  - intros Hr. destruct (R1 Hr) as [? ?]. destruct R2 as [? ?]; [done|]. by split; [|etrans].
  - intros id r Hr. destruct (P1 id r Hr) as (r1&H1&Hp1&Hs1).
    destruct (P2 id r1 H1) as (r2&H2&Hp2&Hs2). exists r2.
    split_and!; [done|by etrans|]. intros Hp Hc. apply Hs1, Hs2; congruence.
Qed.
Lemma GuarS_Guar c c' : GuarS c c' → Guar c c'.
Proof.
  intros [R P']. split; [done|]. intros id r Hr Hp.
  destruct (P' id r Hr) as (r'&?&?&?). eauto.
Qed.
Lemma Guar_refl c : Guar c c.
Proof. apply GuarS_Guar, GuarS_refl. Qed.
(** The rows and the hold as they were. *)
Lemma GuarS_same c c' : c_rows c' = c_rows c → c_restore c' = c_restore c → GuarS c c'.
Proof. intros Hr Hs. split; rewrite ?Hr, ?Hs; naive_solver. Qed.
(** One row changed by its owner. *)
Lemma GuarS_alter c f id :
  c_restore c = false →
  (∀ r, c_rows c !! id = Some r → past (f r) = past r ∧
    (past r = true → j_status (f r) = StatusCancelled → j_status r = StatusCancelled)) →
  GuarS c (set_rows (alter f id) c).
Proof.
  intros Hs Hf. split; [simpl; congruence|]. intros id' r Hr. simpl.
  destruct (decide (id = id')) as [->|].
  - exists (f r). rewrite lookup_alter_eq, Hr. destruct (Hf r Hr). eauto.
  - exists r. rewrite lookup_alter_ne by done. eauto.
Qed.

Fixpoint wp {A} (p : P A) (O : list tok) (Φ : A → list tok → Prop) : Prop :=
  match p with
  | Ret a => Φ a O
  | Act f k => ∀ w R, Inv (core_of w) (O ++ R) →
      Guar (core_of w) (core_of (f w)) ∧
      ∃ O', Inv (core_of (f w)) (O' ++ R) ∧ wp (k w) O' Φ
  | Call k => wp k O Φ
  | Wait _ k kc => wp k O Φ ∧ wp kc O Φ
  end.
End inv.
