(* ===== verification/SchedInv.v ===== *)
(** * The invariant's transitions

    One lemma per elementary change of the world a thread makes under a lock:
    what it needs and which tokens it takes or gives back. Every operation of
    [Sched] is a composition of these. *)
From S2P Require Export SchedLogic.
Open Scope nat_scope.

(** Membership in a list of tokens with a known head. *)
Ltac tok_inv :=
  repeat match goal with
  | H : _ ∈ _ :: _ |- _ => apply elem_of_cons in H as [H|H]; [try discriminate H; simplify_eq|]
  | H : context [cnt _ (_ :: _)] |- _ => rewrite cnt_cons in H
  end.

Ltac inv_open H :=
  destruct H as [Hkeys Hplace Hrow Hruns Hdones Hrun Hdead Hsr Hsd Hcl Hdisp Hdisps Hdq Hqueue
    Hexcl Hout Hnp Habs Hab HabI HabX Hress Hres Hrst].

Ltac unfold_places := unfold place, in_mem, is_run, is_disp, qids in *.

Lemma map_cnt_app {A} (f : A → string) x l1 l2 :
  cnt x (map f (l1 ++ l2)) = cnt x (map f l1) + cnt x (map f l2).
Proof. by rewrite map_app, cnt_app. Qed.

Lemma dones_insert m id rj d :
  m !! id = None →
  cnt d (dones (<[id:=rj]> m)) = (if decide (rj_done rj = d) then 1 else 0) + cnt d (dones m).
Proof.
  intros Hm. unfold dones. erewrite cnt_perm; [apply cnt_cons|].
  by rewrite map_to_list_insert.
Qed.

Lemma dones_delete m id rj d :
  m !! id = Some rj →
  cnt d (dones m) = (if decide (rj_done rj = d) then 1 else 0) + cnt d (dones (delete id m)).
Proof.
  intros Hm. rewrite <- (insert_delete_id m id rj Hm) at 1.
  apply dones_insert, lookup_delete_eq.
Qed.

Lemma dones_elem m d : d ∈ dones m ↔ ∃ id rj, m !! id = Some rj ∧ rj_done rj = d.
Proof.
  unfold dones. rewrite list_elem_of_In, in_map_iff. split.
  - intros ([id rj]&?&?%list_elem_of_In%elem_of_map_to_list). eauto.
  - intros (id&rj&?&?). exists (id, rj). split; [done|].
    by apply list_elem_of_In, elem_of_map_to_list.
Qed.

Section trans.
Context `{E : Env}.
Implicit Types (c : core) (O : list tok).

(** ** Permuting the tokens *)
#[local] Instance omap_perm {B} (f : tok → option B) :
  Proper (Permutation ==> Permutation) (omap f).
Proof. induction 1; simpl; repeat case_match; eauto using Permutation. Qed.

Lemma Inv_perm c O O' : O ≡ₚ O' → Inv c O → Inv c O'.
Proof.
  intros Hp H. inv_open H.
  assert (∀ t, t ∈ O ↔ t ∈ O') as Hel by (intros; by rewrite Hp).
  assert (∀ id, cnt id (outs O) = cnt id (outs O')) as Ho by (intros; apply cnt_perm, omap_perm, Hp).
  assert (∀ id, cnt id (runs O) = cnt id (runs O')) as Hr by (intros; apply cnt_perm, omap_perm, Hp).
  assert (∀ id, cnt id (disps O) = cnt id (disps O')) as Hd by (intros; apply cnt_perm, omap_perm, Hp).
  assert (∀ id, cnt id (abs O) = cnt id (abs O')) as Ha by (intros; apply cnt_perm, omap_perm, Hp).
  assert (∀ id, cnt id (ress O) = cnt id (ress O')) as Hs by (intros; apply cnt_perm, omap_perm, Hp).
  assert (∀ id, cnt id (closes O) = cnt id (closes O')) as Hc by (intros; apply cnt_perm, omap_perm, Hp).
  assert (∀ id, place c O id = place c O' id) as Hpl by (intros; unfold place; by rewrite Ho).
  assert (∀ rj, stop_wf O rj ↔ stop_wf O' rj) as Hsw by (intros; unfold stop_wf; by rewrite Hc).
  constructor; intros *; rewrite <- ?cnt_pos, <- ?Hel, <- ?Hpl, <- ?Hr, <- ?Hd, <- ?Ha, <- ?Hs, <- ?Hc, <- ?Hsw,
    ?cnt_pos; eauto.
  intros Hb. destruct (Hrst Hb). split; intros t; rewrite <- ?Hel, <- ?Hpl; eauto.
Qed.

Lemma tok_no_restore c O t : Inv c (t :: O) → (∀ d, t ≠ TClose d) → c_restore c = false.
Proof.
  intros H Ht. destruct (c_restore c) eqn:Hb; [|done].
  destruct (i_restore _ _ H Hb) as [Hx _]. destruct (Hx t) as [d ->]; [by left|].
  by destruct (Ht d).
Qed.
Lemma place_no_restore c O id : Inv c O → 0 < place c O id → c_restore c = false.
Proof.
  intros H Ht. destruct (c_restore c) eqn:Hb; [|done].
  destruct (i_restore _ _ H Hb) as [_ Hx]. specialize (Hx id). lia.
Qed.

#[local] Hint Resolve list_elem_of_further list_elem_of_here : core.

(** Splits an invariant goal over a changed world and keeps what is unchanged. *)
Ltac fold_toks O :=
  fold (runs O) (disps O) (outs O) (abs O) (ress O) (closes O) in *.
Ltac inv_start H :=
  let O := match type of H with Inv _ (_ :: ?O) => O | Inv _ ?O => O end in
  try pose proof (tok_no_restore _ _ _ H ltac:(intros; discriminate)) as Hr0;
  inv_open H; constructor;
  cbn -[place in_mem is_run is_disp qids cnt row_ok past known stop_wf act] in *; fold_toks O; intros; tok_inv;
  eauto; try congruence.
(** Arithmetic on places and token counts. *)
Ltac cnt_tac :=
  rewrite ?cnt_cons in *; repeat case_decide; subst; try congruence; try lia.

(** ** The abort and resume slots *)
Lemma T_abI_take c O id :
  Inv c O → c_restore c = false → cnt id (abs O) = 0 → cnt id (ress O) = 0 → in_mem c id = 0 →
  known c id → Inv (set_aborting (λ a, {[id]} ∪ a) c) (TAbI id :: O).
Proof.
  intros H Hr0 Ha Hs Hm Hk. inv_start H.
  - pose proof (Habs id0). cnt_tac.
  - set_solver.
  - set_solver.
  - assert (id0 ≠ id) by (intros ->; apply cnt_zero in Hs; done).
    destruct (Hres id0) as (?&?&?&?); [done|]. split_and!; try done. cnt_tac.
Qed.

Lemma T_abI_X c O id r :
  Inv c (TAbI id :: O) → c_rows c !! id = Some r → status_active (j_status r) = false →
  past r = false → Inv c (TAbX id :: O).
Proof.
  intros H Hr Hst Hp. inv_start H.
  split; [|by exists r]. destruct (decide (place c O id = 0)) as [?|Hn]; [done|].
  assert (0 < place c O id) as Hpl by lia. destruct (Hrow id Hpl) as (r'&?&?). congruence.
Qed.

Definition holds_abort (t : tok) (id : string) : Prop := t = TAbI id ∨ t = TAbX id.

Lemma T_ab_release c O t id :
  Inv c (t :: O) → holds_abort t id → Inv (set_aborting (λ a, a ∖ {[id]}) c) O.
Proof.
  intros H [-> | ->]; inv_start H.
  1,4: pose proof (Habs id0); cnt_tac.
  2,4: destruct (Hres id0) as (?&?&?&?); [done|split_and!; try done; cnt_tac].
  all: apply elem_of_difference; split; [by apply Hab; right|].
  all: intros ->%elem_of_singleton; pose proof (Habs id) as Hc.
  all: rewrite cnt_cons, decide_True in Hc by done.
  all: assert (0 < cnt id (abs O)) by (by apply cnt_pos); lia.
Qed.

Lemma abs_elem O id :
  id ∈ abs O ↔ TAbI id ∈ O ∨ TAbX id ∈ O ∨ ∃ q, TDisp q true ∈ O ∧ qid q = id.
Proof.
  unfold abs. rewrite list_elem_of_omap. split.
  - intros (t&?&Ht). destruct t as [|q []| | | | |]; simplify_eq; eauto.
  - intros [?|[?|(q&?&<-)]]; eexists; split; eauto.
Qed.
Lemma disps_elem O id : id ∈ disps O ↔ ∃ q a, TDisp q a ∈ O ∧ qid q = id.
Proof.
  unfold disps. rewrite list_elem_of_omap. split.
  - intros (t&?&Ht). destruct t; simplify_eq; eauto.
  - intros (q&a&?&<-). eexists; split; eauto.
Qed.
Lemma runs_elem O d : d ∈ runs O ↔ ∃ b, TRun d b ∈ O.
Proof.
  unfold runs. rewrite list_elem_of_omap. split.
  - intros (t&?&Ht). destruct t; simplify_eq; eauto.
  - intros (b&?). eexists; split; eauto.
Qed.
Lemma outs_elem O id : id ∈ outs O ↔ ∃ b, TOut id b ∈ O.
Proof.
  unfold outs. rewrite list_elem_of_omap. split.
  - intros (t&?&Ht). destruct t; simplify_eq; eauto.
  - intros (b&?). eexists; split; eauto.
Qed.

(** A job a thread decides the turn of has no abort slot. *)
Lemma disp_no_abs c O q : Inv c (TDisp q false :: O) → cnt (qid q) (abs O) = 0.
Proof.
  intros H. assert (is_disp c (qid q) = 1 + cnt (qid q) (disps O)) as Hd.
  { rewrite <- (i_disps _ _ H). change (cnt (qid q) (qid q :: disps O) = 1 + cnt (qid q) (disps O)). cnt_tac. }
  assert (is_disp c (qid q) ≤ 1) as Hd1 by (unfold is_disp; case_match; lia).
  apply cnt_zero. rewrite abs_elem. intros [Ha|[Ha|(q'&Ha&Hq)]].
  - apply list_elem_of_further with (y := TDisp q false), (i_abI _ _ H) in Ha as [Ha _].
    unfold in_mem in Ha. lia.
  - apply list_elem_of_further with (y := TDisp q false), (i_abX _ _ H) in Ha as [Ha _].
    unfold place, in_mem in Ha. lia.
  - assert (0 < cnt (qid q) (disps O)); [|lia].
    apply cnt_pos, disps_elem. eauto.
Qed.

Lemma T_disp_abort c O q :
  Inv c (TDisp q false :: O) →
  Inv (set_aborting (λ a, {[qid q]} ∪ a) c) (TDisp q true :: O).
Proof.
  intros H. pose proof (disp_no_abs _ _ _ H) as Hna.
  assert (0 < is_disp c (qid q)) as Hd by (rewrite <- (i_disps _ _ H); apply cnt_head).
  inv_start H.
  - pose proof (Habs id). cnt_tac.
  - set_solver.
  - apply elem_of_union_r, Hab. done.
  - destruct (Hres id) as (?&?&Hpl&?); [done|]. split_and!; try done.
    rewrite cnt_cons. case_decide; [subst|done]. unfold place, in_mem in Hpl. lia.
Qed.

Lemma T_disp_abort_end c O q :
  Inv c (TDisp q true :: O) →
  Inv (set_aborting (λ a, a ∖ {[qid q]}) c) (TDisp q false :: O).
Proof.
  intros H. inv_start H.
  - pose proof (Habs id). cnt_tac.
  - apply elem_of_difference. split; [by apply Hab; right|].
    intros ->%elem_of_singleton. pose proof (Habs (qid q)) as Hc.
    rewrite cnt_cons, decide_True in Hc by done.
    assert (0 < cnt (qid q) (abs O)) by (by apply cnt_pos). lia.
  - destruct (Hres id) as (?&?&?&?); [done|split_and!; try done; cnt_tac].
Qed.

Lemma T_res_take c O id r :
  Inv c O → c_restore c = false → cnt id (abs O) = 0 → cnt id (ress O) = 0 →
  c_rows c !! id = Some r → status_active (j_status r) = false →
  Inv (set_resuming (λ a, {[id]} ∪ a) c) (TRes id :: O).
Proof.
  intros H Hr0 Ha Hs Hr Hst. inv_start H.
  - pose proof (Hress id0). cnt_tac.
  - split_and!; [set_solver|done| |done].
    destruct (decide (place c O id = 0)) as [?|Hn]; [done|].
    assert (0 < place c O id) as Hpl by lia. destruct (Hrow id Hpl) as (r'&?&?). congruence.
  - destruct (Hres id0) as (?&?&?&?); [done|]. split_and!; try done. set_solver.
Qed.

Lemma T_res_release c O id :
  Inv c (TRes id :: O) → Inv (set_resuming (λ a, a ∖ {[id]}) c) O.
Proof.
  intros H. inv_start H.
  - pose proof (Hress id0). cnt_tac.
  - destruct (Hres id0) as (?&?&?&?); [by right|]. split_and!; try done.
    apply elem_of_difference. split; [done|]. intros ->%elem_of_singleton.
    pose proof (Hress id) as Hc. rewrite cnt_cons, decide_True in Hc by done.
    assert (0 < cnt id (ress O)) by (by apply cnt_pos). lia.
Qed.

(** ** Live goroutines *)
Lemma run_place c O id rj : c_running c !! id = Some rj → 0 < place c O id.
Proof. intros H. unfold place, in_mem, is_run. rewrite H. lia. Qed.

Lemma live_running c O d :
  Inv c O → d ∈ (c_live c ++ runs O)%list → ∃ id rj, c_running c !! id = Some rj ∧ rj_done rj = d.
Proof.
  intros H Hd. apply dones_elem, cnt_pos. rewrite <- (i_runs _ _ H d), <- cnt_app.
  by apply cnt_pos.
Qed.

Lemma T_live c O i d :
  Inv c O → c_live c !! i = Some d → Inv (set_live (delete i) c) (TRun d false :: O).
Proof.
  intros H Hi. destruct (live_running c O d H) as (id&rj&Hid&_).
  { apply elem_of_app. left. by eapply list_elem_of_lookup_2. }
  pose proof (place_no_restore _ _ _ H (run_place _ O _ _ Hid)) as Hr0.
  inv_start H. rewrite <- Hruns, (cnt_delete d0 i _ _ Hi), cnt_cons. lia.
Qed.
Lemma T_unlive c O d np :
  Inv c (TRun d np :: O) → Inv (set_live (cons d) c) O.
Proof. intros H. inv_start H. rewrite <- Hruns, !cnt_cons. lia. Qed.

(** ** The database restore's hold *)
Lemma mem_tok_close c O :
  Inv c O → c_aborting c = ∅ → c_resuming c = ∅ → (∀ id, place c O id = 0) →
  ∀ t, t ∈ O → ∃ d, t = TClose d.
Proof.
  intros H Ha Hs Hp t Ht.
  destruct t as [d np|q a|id b|id|id|id|d]; [| | | | | |by eauto]; exfalso.
  - destruct (live_running c O d H) as (id&rj&Hid&_).
    { apply elem_of_app. right. apply runs_elem. eauto. }
    pose proof (run_place _ O _ _ Hid). specialize (Hp id). lia.
  - assert (0 < is_disp c (qid q)) as Hd.
    { rewrite <- (i_disps _ _ H). apply cnt_pos, disps_elem. eauto. }
    specialize (Hp (qid q)). unfold place, in_mem in Hp. lia.
  - assert (0 < cnt id (outs O)) by (apply cnt_pos, outs_elem; eauto).
    specialize (Hp id). unfold place in Hp. lia.
  - pose proof (i_aborting _ _ H id) as Hx. rewrite Ha in Hx.
    apply (not_elem_of_empty (C := gset string) id), Hx, abs_elem. eauto.
  - pose proof (i_aborting _ _ H id) as Hx. rewrite Ha in Hx.
    apply (not_elem_of_empty (C := gset string) id), Hx, abs_elem. eauto.
  - destruct (i_resuming _ _ H id) as [Hx _].
    + apply list_elem_of_omap. eauto.
    + rewrite Hs in Hx. by apply not_elem_of_empty in Hx.
Qed.

Lemma T_restore c O :
  Inv c O → c_aborting c = ∅ → c_resuming c = ∅ →
  (∀ id r, c_rows c !! id = Some r → status_active (j_status r) = false) →
  Inv (set_restore (λ _, true) c) O.
Proof.
  intros H Ha Hs Hr. assert (∀ id, place c O id = 0) as Hp.
  { intros id. destruct (decide (place c O id = 0)) as [|Hn]; [done|].
    destruct (i_row _ _ H id) as (r&?&?); [lia|]. erewrite Hr in *; done. }
  pose proof (mem_tok_close _ _ H Ha Hs Hp). inv_start H.
Qed.

(** ** Jobs between collections *)
Lemma place_cons_out c O id b x :
  place c (TOut id b :: O) x = (if decide (id = x) then 1 else 0) + place c O x.
Proof.
  unfold place. change (outs (TOut id b :: O)) with (id :: outs O). rewrite cnt_cons. lia.
Qed.
Lemma in_mem_enqueue c q x :
  in_mem (set_queue (λ l, (l ++ [q])%list) c) x = (if decide (qid q = x) then 1 else 0) + in_mem c x.
Proof.
  unfold in_mem, is_run, is_disp, qids. cbn [set_queue c_queue c_running c_disp].
  rewrite map_cnt_app. cbn [map]. rewrite cnt_cons, cnt_nil. lia.
Qed.
Lemma in_mem_dequeue c i q x :
  c_queue c !! i = Some q →
  in_mem c x = (if decide (qid q = x) then 1 else 0) + in_mem (set_queue (delete i) c) x.
Proof.
  intros Hi. unfold in_mem, is_run, is_disp, qids. cbn [set_queue c_queue c_running c_disp].
  rewrite (cnt_perm x (map qid (c_queue c)) (qid q :: map qid (delete i (c_queue c)))).
  - rewrite cnt_cons. lia.
  - by rewrite (delete_Permutation _ _ _ Hi) at 1.
Qed.
Lemma is_disp_insert c id q x :
  is_disp (set_disp (insert id q) c) x = if decide (id = x) then 1 else is_disp c x.
Proof.
  unfold is_disp. cbn. case_decide; [subst; by rewrite lookup_insert_eq|].
  by rewrite lookup_insert_ne.
Qed.
Lemma is_disp_delete c id x :
  is_disp (set_disp (delete id) c) x = if decide (id = x) then 0 else is_disp c x.
Proof.
  unfold is_disp. cbn. case_decide; [subst; by rewrite lookup_delete_eq|].
  by rewrite lookup_delete_ne.
Qed.
Lemma in_mem_disp c f x : in_mem (set_disp f c) x = cnt x (qids c) + is_run c x + is_disp (set_disp f c) x.
Proof. reflexivity. Qed.

(** A job a thread holds outside the collections is in none of them. *)
Lemma out_place c O id b : Inv c (TOut id b :: O) → in_mem c id = 0 ∧ cnt id (outs O) = 0.
Proof.
  intros H. pose proof (i_place _ _ H id) as Hp. rewrite place_cons_out, decide_True in Hp by done.
  unfold place in Hp. lia.
Qed.
(** A job in the queue has no abort slot. *)
Lemma queue_no_abs c O q : Inv c O → q ∈ c_queue c → cnt (qid q) (abs O) = 0.
Proof.
  intros H Hq. assert (0 < cnt (qid q) (qids c)) as Hd.
  { apply cnt_pos. unfold qids. apply list_elem_of_In, in_map, list_elem_of_In, Hq. }
  pose proof (i_place _ _ H (qid q)) as Hp. unfold place, in_mem in Hp.
  apply cnt_zero. rewrite abs_elem. intros [Ha|[Ha|(q'&Ha&Hqq)]].
  - apply (i_abI _ _ H) in Ha as [Ha _]. unfold in_mem in Ha. lia.
  - apply (i_abX _ _ H) in Ha as [Ha _]. unfold place, in_mem in Ha. lia.
  - assert (0 < cnt (qid q) (disps O)) by (apply cnt_pos, disps_elem; eauto).
    rewrite (i_disps _ _ H) in *. lia.
Qed.

(** ** Exclusion *)
Lemma clash_sym a b : clash a b = clash b a.
Proof. apply conflicts_sym. Qed.

Definition excl c : Prop := ∀ id1 id2 a1 a2, id1 ≠ id2 →
  act c id1 = Some a1 → act c id2 = Some a2 → clash a1 a2 = false.

Lemma excl_extend c c' id a :
  excl c → (∀ x, id ≠ x → act c' x = act c x) → act c' id = Some a →
  (∀ x a2, act c x = Some a2 → clash a a2 = false) → excl c'.
Proof.
  intros He Hne Hid Hcl id1 id2 a1 a2 H12 H1 H2.
  destruct (decide (id = id1)) as [<-|]; [|destruct (decide (id = id2)) as [<-|]].
  - rewrite Hid in H1. simplify_eq. rewrite Hne in H2 by done. eauto.
  - rewrite Hid in H2. simplify_eq. rewrite Hne in H1 by done. rewrite clash_sym. eauto.
  - rewrite Hne in H1, H2 by done. eauto.
Qed.
Lemma excl_shrink c c' :
  excl c → (∀ x a, act c' x = Some a → act c x = Some a) → excl c'.
Proof. intros He Hs id1 id2 a1 a2 H12 H1 H2. eauto. Qed.

Lemma act_disp_insert c id q x :
  is_run c id = 0 → act (set_disp (insert id q) c) x =
    if decide (id = x) then Some (j_class (q_job q), j_resourceIDs (q_job q)) else act c x.
Proof.
  unfold is_run, act. cbn. intros Hr. case_decide as Hx; [subst|].
  - case_match; [done|]. by rewrite lookup_insert_eq.
  - by rewrite lookup_insert_ne.
Qed.
Lemma act_disp_delete c id x a :
  act (set_disp (delete id) c) x = Some a → act c x = Some a.
Proof.
  unfold act. cbn. case_match; [done|]. destruct (decide (id = x)) as [->|].
  - by rewrite lookup_delete_eq.
  - by rewrite lookup_delete_ne.
Qed.

(** An abort slot's job is not the one with no slot. *)
Ltac ab_ne id0 id :=
  assert (id ≠ id0) by (intros ->;
    match goal with Ha : cnt _ (abs ?O) = 0 |- _ => apply cnt_zero in Ha; apply Ha, abs_elem; eauto end).
(** The clauses a move between two places keeps. *)
Ltac move_tac Hpe :=
  try solve
    [ rewrite Hpe; auto
    | match goal with Hp : 0 < place _ _ ?id |- ∃ r, _ => rewrite Hpe in Hp; auto end
    | match goal with Hx : TAbX _ ∈ _ |- _ =>
        rewrite Hpe; apply list_elem_of_further in Hx; eauto end
    | match goal with Hx : ?id ∈ ress _, Hr : ∀ id, id ∈ ress _ → _ |- _ =>
        rewrite Hpe; apply Hr; auto end ].

Lemma T_drop_out c O id b : Inv c (TOut id b :: O) → Inv c O.
Proof.
  intros H. pose proof (λ x, place_cons_out c O id b x) as Hpe.
  inv_start H.
  - specialize (Hplace id0). rewrite Hpe in Hplace. lia.
  - apply Hrow. rewrite Hpe. lia.
  - destruct (HabX id0) as [Hp ?]; [by right|]. rewrite Hpe in Hp. split; [lia|done].
  - destruct (Hres id0) as (?&?&Hp&?); [done|]. rewrite Hpe in Hp. split_and!; try done. lia.
Qed.

Lemma T_enqueue c O id b q :
  Inv c (TOut id b :: O) → cnt id (abs O) = 0 → qid q = id → queue_wf c q →
  Inv (set_queue (λ l, (l ++ [q])%list) c) O.
Proof.
  intros H Ha Hq Hwf.
  assert (∀ x, place (set_queue (λ l, (l ++ [q])%list) c) O x = place c (TOut id b :: O) x) as Hpe.
  { intros x. rewrite place_cons_out. unfold place. rewrite in_mem_enqueue, Hq. lia. }
  inv_start H; move_tac Hpe.
  - apply elem_of_app in H as [?| ->%list_elem_of_singleton]; [by apply Hqueue|done].
  - destruct (HabI id0) as [? ?]; [by right|]. ab_ne id0 id. split; [|done].
    rewrite in_mem_enqueue. cnt_tac.
Qed.

Lemma T_dequeue c O i q b :
  Inv c O → c_queue c !! i = Some q →
  (b = true → ∀ r, c_rows c !! qid q = Some r → past r = false) →
  Inv (set_queue (delete i) c) (TOut (qid q) b :: O).
Proof.
  intros H Hi Hb.
  assert (∀ x, place (set_queue (delete i) c) (TOut (qid q) b :: O) x = place c O x) as Hpe.
  { intros x. rewrite place_cons_out. unfold place. rewrite (in_mem_dequeue c i q x Hi). lia. }
  pose proof (place_no_restore c O (qid q) H) as Hr0'. pose proof (Hpe (qid q)) as Hpq.
  rewrite place_cons_out, decide_True in Hpq by done. specialize (Hr0' ltac:(lia)).
  inv_start H; move_tac Hpe.
  - apply Hqueue. apply list_elem_of_lookup in H as [k Hk].
    apply list_elem_of_lookup. rewrite list_lookup_delete in Hk. case_match; eauto.
  - destruct (HabI id) as [Hm ?]; [done|]. rewrite (in_mem_dequeue c i q id Hi) in Hm.
    split; [lia|done].
Qed.

Lemma T_todisp c O id b q :
  Inv c (TOut id b :: O) → cnt id (abs O) = 0 → disp_wf c id q →
  (∀ id2 a2, act c id2 = Some a2 → clash (j_class (q_job q), j_resourceIDs (q_job q)) a2 = false) →
  Inv (set_disp (insert id q) c) (TDisp q false :: O).
Proof.
  intros H Ha Hwf Hx.
  destruct (out_place _ _ _ _ H) as [Hm Hno]. pose proof Hwf as [Hq _]. pose proof Hm as Hm'. unfold in_mem in Hm'.
  assert (∀ x, place (set_disp (insert id q) c) (TDisp q false :: O) x = place c (TOut id b :: O) x) as Hpe.
  { intros x. rewrite place_cons_out. unfold place. rewrite in_mem_disp, is_disp_insert. unfold in_mem. change (outs (TDisp q false :: O)) with (outs O). cnt_tac. }
  assert (excl (set_disp (insert id q) c)) as Hex.
  { eapply excl_extend; [exact (i_excl _ _ H)|..].
    - intros x Hx'. rewrite act_disp_insert, decide_False by (done || lia). done.
    - rewrite act_disp_insert, decide_True by (done || lia). done.
    - done. }
  inv_start H; move_tac Hpe.
  - apply lookup_insert_Some in H as [[<- <-]|[? ?]]; [done|]. by apply Hdisp.
  - rewrite is_disp_insert, cnt_cons, Hq, Hdisps. case_decide; [subst; lia|done].
  - rewrite lookup_insert_eq. by exists q.
  - assert (id ≠ qid q0) as Hne.
    { intros ->. assert (0 < cnt (qid q0) (disps O)) by (apply cnt_pos, disps_elem; eauto).
      rewrite Hdisps in *. lia. }
    rewrite lookup_insert_ne by done. apply (Hdq q0 a). by right.
  - destruct (HabI id0) as [Hz ?]; [by right|]. ab_ne id0 id. split; [|done].
    rewrite in_mem_disp, is_disp_insert. unfold in_mem in Hz. cnt_tac.
Qed.

Lemma T_fromdisp c O q b :
  Inv c (TDisp q false :: O) →
  (b = true → ∀ r, c_rows c !! qid q = Some r → past r = false) →
  Inv (set_disp (delete (qid q)) c) (TOut (qid q) b :: O).
Proof.
  intros H Hb.
  assert (is_disp c (qid q) = 1) as Hd.
  { assert (0 < is_disp c (qid q)) by (rewrite <- (i_disps _ _ H); apply cnt_head).
    unfold is_disp in *. case_match; lia. }
  assert (∀ x, place (set_disp (delete (qid q)) c) (TOut (qid q) b :: O) x = place c (TDisp q false :: O) x) as Hpe.
  { intros x. rewrite place_cons_out. unfold place. rewrite in_mem_disp, is_disp_delete. unfold in_mem. change (outs (TDisp q false :: O)) with (outs O). cnt_tac. }
  assert (excl (set_disp (delete (qid q)) c)) as Hex.
  { eapply excl_shrink; [exact (i_excl _ _ H)|]. apply act_disp_delete. }
  inv_start H; move_tac Hpe.
  - apply lookup_delete_Some in H as [_ H]. by apply Hdisp.
  - rewrite is_disp_delete, <- Hdisps, cnt_cons. pose proof (Hdisps (qid q)) as Hx.
    rewrite cnt_cons in Hx. cnt_tac.
  - assert (qid q ≠ qid q0) as Hne.
    { intros Hqq. assert (0 < cnt (qid q0) (disps O)) by (apply cnt_pos, disps_elem; eauto).
      pose proof (Hdisps (qid q)) as Hx. rewrite cnt_cons, decide_True, Hqq in Hx by done.
      rewrite <- Hqq in *. lia. }
    rewrite lookup_delete_ne by done. apply (Hdq q0 a). by right.
  - destruct (HabI id) as [Hz ?]; [by right|]. split; [|done].
    rewrite in_mem_disp, is_disp_delete. unfold in_mem in Hz. cnt_tac.
Qed.

(** ** Rows *)
Lemma lookup_alter_Some' (m : gmap string Job) f id x r :
  alter f id m !! x = Some r ↔ ∃ r0, m !! x = Some r0 ∧ r = if decide (id = x) then f r0 else r0.
Proof.
  destruct (decide (id = x)) as [->|].
  - rewrite lookup_alter_eq, fmap_Some. naive_solver.
  - rewrite lookup_alter_ne by done. naive_solver.
Qed.

(** A statement that changes neither the key, the type nor the checkpoint. *)
Definition keeps (f : Job → Job) : Prop :=
  ∀ r, j_id (f r) = j_id r ∧ j_type (f r) = j_type r ∧ past (f r) = past r.

Lemma row_ok_alter c f id j P :
  keeps f → (∀ r, P r → P (f r)) → row_ok c j P → row_ok (set_rows (alter f id) c) j P.
Proof.
  intros Hf HP (r&Hr&Ht&Hp). exists (if decide (id = j_id j) then f r else r).
  split_and!; [apply lookup_alter_Some'; eauto| |]; case_decide; eauto.
  destruct (Hf r) as (_&->&_). done.
Qed.
Lemma past_imp_alter f (X : Prop) r : keeps f → (past r = true → X) → past (f r) = true → X.
Proof. intros Hf. destruct (Hf r) as (_&_&->). done. Qed.

Lemma known_alter c f id x : known c x → known (set_rows (alter f id) c) x.
Proof. intros [[r Hr]|?]; [left|by right]. cbn. eexists. apply lookup_alter_Some'. eauto. Qed.

Lemma T_row c O f id :
  Inv c O → keeps f →
  (0 < place c O id → ∀ r, c_rows c !! id = Some r → status_active (j_status r) = true →
    status_active (j_status (f r)) = true) →
  Inv (set_rows (alter f id) c) O.
Proof.
  intros H Hf Ha. inv_start H.
  - apply lookup_alter_Some' in H as (r0&Hr&->). pose proof (Hf r0) as (Hid&_&_).
    case_decide; [rewrite Hid|]; eauto.
  - destruct (Hrow id0) as (r&Hr&Hs); [done|]. eexists. split; [apply lookup_alter_Some'; eauto|].
    case_decide; [subst; eauto|done].
  - destruct (Hrun id0 rj) as (?&Hro&?&?); [done|]. split_and!; try done.
    eapply row_ok_alter; eauto. intros r. by apply past_imp_alter.
  - destruct (Hdisp id0 q) as (?&Hro); [done|]. split; [done|].
    eapply row_ok_alter; eauto. intros r. by apply past_imp_alter.
  - destruct (Hqueue q) as [Hro ?]; [done|]. split; [|done].
    eapply row_ok_alter; eauto. intros r. by apply past_imp_alter.
  - apply lookup_alter_Some' in H0 as (r0&Hr&->). pose proof (Hf r0) as (_&_&Hp).
    case_decide; rewrite ?Hp; eauto.
  - match goal with Hx : alter _ _ _ !! _ = Some r |- _ =>
      apply lookup_alter_Some' in Hx as (r0&Hr&->) end.
    pose proof (Hf r0) as (_&_&Hp). case_decide; rewrite ?Hp; eauto.
  - destruct (HabI id0); [done|]. split; [done|]. by apply known_alter.
  - destruct (HabX id0) as (?&r&Hr&Hp); [done|]. split; [done|].
    eexists. split; [apply lookup_alter_Some'; eauto|]. pose proof (Hf r) as (_&_&Hp').
    case_decide; rewrite ?Hp'; eauto.
  - destruct (Hres id0) as (?&?&?&[r Hr]); [done|]. split_and!; try done.
    eexists. apply lookup_alter_Some'. eauto.
Qed.

Lemma T_insert_row c O id j :
  Inv c O → c_rows c !! id = None → j_id j = id → Inv (set_rows (insert id j) c) O.
Proof.
  intros H Hn Hj.
  assert (∀ x r, c_rows c !! x = Some r → <[id:=j]> (c_rows c) !! x = Some r) as Hk.
  { intros x r Hx. rewrite lookup_insert_ne; [done|]. intros ->. congruence. }
  assert (∀ j' P, row_ok c j' P → row_ok (set_rows (insert id j) c) j' P) as Hro.
  { intros j' P (r&?&?&?). exists r. split_and!; try done. by apply Hk. }
  inv_start H.
  - apply lookup_insert_Some in H as [[<- <-]|[_ H]]; eauto.
  - destruct (Hrow id0) as (r&?&?); [done|]. exists r. split; [by apply Hk|done].
  - destruct (Hrun id0 rj) as (?&?&?&?); [done|]. split_and!; eauto.
  - destruct (Hdisp id0 q) as (?&?); [done|]. split; eauto.
  - destruct (Hqueue q) as [? ?]; [done|]. split; eauto.
  - apply lookup_insert_Some in H0 as [[<- <-]|[_ ?]]; [|eauto].
    assert (0 < cnt id (outs O)) by (apply cnt_pos, outs_elem; eauto).
    destruct (Hrow id) as (r&?&?); [unfold place; lia|congruence].
  - match goal with Hx : <[_:=_]> _ !! _ = Some r |- _ =>
      apply lookup_insert_Some in Hx as [[<- <-]|[_ ?]]; [|eauto] end.
    destruct (Hrow id) as (r&?&?); [by eapply run_place|congruence].
  - destruct (HabI id0) as [? [[r ?]|?]]; [done| |by split; [|right]].
    split; [done|]. left. eexists. by apply Hk.
  - destruct (HabX id0) as (?&r&?&?); [done|]. split; [done|]. exists r. split; [by apply Hk|done].
  - destruct (Hres id0) as (?&?&?&[r ?]); [done|]. split_and!; try done. eexists. by apply Hk.
Qed.

(** A new id has no slot and no place. *)
Lemma fresh_nowhere c O id n :
  Inv c O → c_rows c !! id = None → env_uuid n = id →
  place c O id = 0 ∧ cnt id (abs O) = 0 ∧ cnt id (ress O) = 0.
Proof.
  intros H Hn Hu.
  assert (place c O id = 0) as Hp.
  { destruct (decide (place c O id = 0)) as [|Hx]; [done|].
    destruct (i_row _ _ H id) as (r&?&_); [lia|congruence]. }
  split_and!; [done| |].
  - apply cnt_zero. rewrite abs_elem. intros [Ha|[Ha|(q&Ha&Hq)]].
    + apply (i_abI _ _ H) in Ha as [_ [[r Hr]|Ha]]; [congruence|by eapply Ha].
    + apply (i_abX _ _ H) in Ha as [_ (r&?&_)]. congruence.
    + assert (0 < cnt id (disps O)) as Hd by (apply cnt_pos, disps_elem; eauto).
      rewrite (i_disps _ _ H) in Hd. unfold place, in_mem in Hp. lia.
  - apply cnt_zero. intros Hs. apply (i_resuming _ _ H) in Hs as (_&_&_&[r Hr]). congruence.
Qed.

Lemma T_acquire c O id b r :
  Inv c O → c_restore c = false → place c O id = 0 → cnt id (abs O) = 0 → cnt id (ress O) = 0 →
  c_rows c !! id = Some r → status_active (j_status r) = true → (b = true → past r = false) →
  Inv c (TOut id b :: O).
Proof.
  intros H Hr0 Hp Ha Hs Hr Hst Hb. pose proof (λ x, place_cons_out c O id b x) as Hpe.
  inv_start H.
  - rewrite Hpe. specialize (Hplace id0). cnt_tac.
  - rewrite Hpe in H. case_decide; [subst; eauto|]. apply Hrow. lia.
  - destruct (HabX id0) as [? ?]; [done|]. ab_ne id0 id. rewrite Hpe. split; [cnt_tac|done].
  - destruct (Hres id0) as (?&?&?&?); [done|]. rewrite Hpe. split_and!; try done.
    case_decide; [subst|done]. by apply cnt_zero in Hs.
Qed.

(** ** Starting a job, and taking it out of [running] *)
Lemma is_run_insert c id rj x :
  is_run (set_running (insert id rj) c) x = if decide (id = x) then 1 else is_run c x.
Proof.
  unfold is_run. cbn. case_decide; [subst; by rewrite lookup_insert_eq|].
  by rewrite lookup_insert_ne.
Qed.
Lemma is_run_delete c id x :
  is_run (set_running (delete id) c) x = if decide (id = x) then 0 else is_run c x.
Proof.
  unfold is_run. cbn. case_decide; [subst; by rewrite lookup_delete_eq|].
  by rewrite lookup_delete_ne.
Qed.

Definition start c (id : string) (rj : runningJob) : core :=
  set_live (cons (rj_done rj)) (set_running (insert id rj) (set_next S c)).

Lemma in_mem_start c id rj x :
  in_mem c id = 0 → in_mem (start c id rj) x = (if decide (id = x) then 1 else 0) + in_mem c x.
Proof.
  intros Hm. pose proof (is_run_insert c id rj x) as Hr. unfold in_mem in *.
  change (is_run (start c id rj) x) with (is_run (set_running (insert id rj) c) x).
  change (qids (start c id rj)) with (qids c). change (is_disp (start c id rj) x) with (is_disp c x).
  rewrite Hr. cnt_tac.
Qed.

Lemma act_start c id rj x :
  act (start c id rj) x =
    if decide (id = x) then Some (j_class (rj_job rj), j_resourceIDs (rj_job rj)) else act c x.
Proof.
  unfold act. cbn. case_decide; [subst; by rewrite lookup_insert_eq|]. by rewrite lookup_insert_ne.
Qed.

Lemma next_fresh c O d : Inv c O → c_next c ≤ d →
  cnt d (dones (c_running c)) = 0 ∧ c_dead c !! d = None ∧ cnt d (closes O) = 0.
Proof.
  intros H Hd. split_and!.
  - apply cnt_zero. rewrite dones_elem. intros (id&rj&Hrj&<-).
    apply (i_run _ _ H) in Hrj as (_&_&?&_). lia.
  - destruct (c_dead c !! d) as [rj|] eqn:Hx; [|done]. apply (i_dead _ _ H) in Hx. lia.
  - apply cnt_zero. intros Hx%(i_closes _ _ H). lia.
Qed.

Lemma T_start c O id b rj :
  Inv c (TOut id b :: O) → cnt id (abs O) = 0 →
  j_id (rj_job rj) = id → rj_done rj = c_next c → rj_stopClosed rj = 0 →
  row_ok c (rj_job rj) (λ r, past r = true → rj_cancellable rj = false ∧ rj_reason rj ≠ reasonCancel) →
  (∀ id2 a2, act c id2 = Some a2 → clash (j_class (rj_job rj), j_resourceIDs (rj_job rj)) a2 = false) →
  Inv (start c id rj) O.
Proof.
  intros H Ha Hj Hd Hsc Hro Hcl0.
  destruct (out_place _ _ _ _ H) as [Hm Hno].
  destruct (next_fresh _ _ (c_next c) H) as (Hfd&Hfdead&Hfc); [lia|].
  assert (∀ x, place (start c id rj) O x = place c (TOut id b :: O) x) as Hpe.
  { intros x. rewrite place_cons_out. unfold place. rewrite in_mem_start by done. lia. }
  assert (excl (start c id rj)) as Hex.
  { eapply excl_extend; [exact (i_excl _ _ H)|..].
    - intros x Hx'. by rewrite act_start, decide_False.
    - by rewrite act_start, decide_True.
    - done. }
  assert (c_running c !! id = None) as Hnr.
  { unfold in_mem, is_run in Hm. case_match; [lia|done]. }
  inv_start H; move_tac Hpe.
  - rewrite cnt_cons, dones_insert, <- Hruns by done. lia.
  - rewrite dones_insert by done. specialize (Hdones d). rewrite Hd. cnt_tac.
  - apply lookup_insert_Some in H as [[<- <-]|[? H]].
    + split_and!; [done|done|cbn; lia|cbn; by rewrite Hd].
    + destruct (Hrun id0 rj0 H) as (?&?&?&?). split_and!; try done. cbn. lia.
  - destruct (Hdead d rj0) as [? ?]; [done|]. split; [done|lia].
  - apply lookup_insert_Some in H as [[<- <-]|[? H]]; [|by apply (Hsr id0)].
    unfold stop_wf. rewrite Hsc, Hd, Hfc. split; intros; lia.
  - apply Hcl in H. lia.
  - match goal with Hx : <[_:=_]> _ !! _ = Some _ |- _ =>
      apply lookup_insert_Some in Hx as [[<- <-]|[_ ?]]; [|eauto] end.
    assert (0 < cnt d (runs O)) by (apply cnt_pos, runs_elem; eauto).
    specialize (Hruns d). subst d. rewrite Hd in *. lia.
  - destruct (HabI id0) as [? ?]; [by right|]. ab_ne id0 id. split; [|done].
    rewrite in_mem_start by done. cnt_tac.
Qed.

Lemma done_inj c O id1 id2 rj1 rj2 :
  Inv c O → c_running c !! id1 = Some rj1 → c_running c !! id2 = Some rj2 →
  rj_done rj1 = rj_done rj2 → id1 = id2.
Proof.
  intros H H1 H2 Hd. destruct (decide (id1 = id2)) as [|Hne]; [done|].
  pose proof (i_dones _ _ H (rj_done rj1)) as Hle.
  rewrite (dones_delete _ _ _ _ H1), decide_True in Hle by done.
  rewrite (dones_delete _ id2 rj2), decide_True in Hle by (rewrite ?lookup_delete_ne; done). lia.
Qed.

Lemma T_run_out c O d np id rj b :
  Inv c (TRun d np :: O) → c_running c !! id = Some rj → rj_done rj = d →
  (b = true → ∀ r, c_rows c !! id = Some r → past r = false) →
  Inv (set_dead (insert d rj) (set_running (delete id) c)) (TOut id b :: O).
Proof.
  intros H Hrj Hd Hb.
  assert (∀ x, place (set_dead (insert d rj) (set_running (delete id) c)) (TOut id b :: O) x
    = place c (TRun d np :: O) x) as Hpe.
  { intros x. rewrite place_cons_out. unfold place, in_mem.
    pose proof (is_run_delete c id x) as Hr. pose proof (run_place c O id rj Hrj).
    change (is_run (set_dead (insert d rj) (set_running (delete id) c)) x) with
      (is_run (set_running (delete id) c) x).
    rewrite Hr. change (outs (TRun d np :: O)) with (outs O).
    change (qids (set_dead _ _)) with (qids c). change (is_disp (set_dead _ _) x) with (is_disp c x).
    assert (is_run c id = 1) by (unfold is_run; by rewrite Hrj). cnt_tac. }
  assert (excl (set_dead (insert d rj) (set_running (delete id) c))) as Hex.
  { eapply excl_shrink; [exact (i_excl _ _ H)|]. intros x a. unfold act. cbn.
    destruct (decide (id = x)) as [<-|].
    - rewrite lookup_delete_eq. pose proof (i_place _ _ H id) as Hp.
      unfold place, in_mem, is_run, is_disp in Hp. rewrite Hrj in Hp.
      destruct (c_disp c !! id); [lia|done].
    - by rewrite lookup_delete_ne. }
  assert (∀ x rj0, c_running c !! x = Some rj0 → rj_done rj0 = d → x = id) as Hinj.
  { intros x rj0 Hx Hxd. eapply done_inj; eauto. congruence. }
  inv_start H; move_tac Hpe.
  - pose proof (dones_delete _ _ _ d0 Hrj) as Hx. specialize (Hruns d0). rewrite cnt_cons in Hruns.
    rewrite Hd in Hx. lia.
  - pose proof (dones_delete _ _ _ d0 Hrj) as Hx. specialize (Hdones d0). lia.
  - apply lookup_delete_Some in H as [Hne H]. destruct (Hrun id0 rj0 H) as (?&?&?&?).
    split_and!; try done. cbn. rewrite lookup_insert_ne; [done|].
    intros Hx. apply Hne. symmetry. eauto.
  - apply lookup_insert_Some in H as [[<- <-]|[? H]]; [|eauto].
    split; [done|]. destruct (Hrun id rj Hrj) as (_&_&?&_). lia.
  - apply lookup_delete_Some in H as [_ H]. by apply (Hsr id0).
  - apply lookup_insert_Some in H as [[<- <-]|[? H]]; [by apply (Hsr id)|by apply (Hsd d0)].
  - match goal with Hx : delete _ _ !! _ = Some _ |- _ =>
      apply lookup_delete_Some in Hx as [_ ?] end. eauto.
  - destruct (HabI id0) as [Hz ?]; [by right|]. split; [|done].
    unfold in_mem in *. pose proof (is_run_delete c id id0) as Hr.
    change (is_run (set_dead (insert d rj) (set_running (delete id) c)) id0) with
      (is_run (set_running (delete id) c) id0). rewrite Hr.
    change (qids (set_dead _ _)) with (qids c). change (is_disp (set_dead _ _) id0) with (is_disp c id0).
    cnt_tac.
Qed.

(** ** Changing a running job's object *)
Definition set_rj (d : nat) (f : runningJob → runningJob) c : core :=
  set_dead (alter f d)
    (set_running (fmap (λ r, if bool_decide (rj_done r = d) then f r else r)) c).

Definition obj c (d : nat) (rj : runningJob) : Prop :=
  (∃ id, c_running c !! id = Some rj ∧ rj_done rj = d) ∨ c_dead c !! d = Some rj.

Definition same_job (j j' : Job) : Prop :=
  j_id j' = j_id j ∧ j_type j' = j_type j ∧ j_class j' = j_class j ∧ j_resourceIDs j' = j_resourceIDs j.
Definition keeps_rj (f : runningJob → runningJob) : Prop :=
  ∀ r, same_job (rj_job r) (rj_job (f r)) ∧ rj_done (f r) = rj_done r.

Lemma set_rj_running d f c id rj :
  c_running (set_rj d f c) !! id = Some rj ↔
  ∃ rj0, c_running c !! id = Some rj0 ∧ rj = if bool_decide (rj_done rj0 = d) then f rj0 else rj0.
Proof. cbn. rewrite lookup_fmap, fmap_Some. done. Qed.

Lemma dones_fmap g m : (∀ r, rj_done (g r) = rj_done r) → dones (g <$> m) = dones m.
Proof.
  intros Hg. unfold dones. rewrite map_to_list_fmap, map_map. apply map_ext.
  intros [id r]. cbn. apply Hg.
Qed.

Lemma set_rj_act d f c x : keeps_rj f → act (set_rj d f c) x = act c x.
Proof.
  intros Hf. unfold act. cbn. rewrite lookup_fmap.
  destruct (c_running c !! x) as [r|]; cbn; [|done].
  case_bool_decide; [|done]. destruct (Hf r) as [(_&_&Hc&Hr) _]. by rewrite Hc, Hr.
Qed.

Lemma T_rj c O d f :
  Inv c O → keeps_rj f →
  (∀ rj, obj c d rj → stop_wf O rj → stop_wf O (f rj)) →
  (∀ rj r, obj c d rj → c_rows c !! j_id (rj_job rj) = Some r →
    (past r = true → rj_cancellable rj = false ∧ rj_reason rj ≠ reasonCancel) →
    past r = true → rj_cancellable (f rj) = false ∧ rj_reason (f rj) ≠ reasonCancel) →
  Inv (set_rj d f c) O.
Proof.
  intros H Hf Hst Hp.
  assert (∀ x, in_mem (set_rj d f c) x = in_mem c x) as Hm.
  { intros x. unfold in_mem, is_run, qids, is_disp. cbn. rewrite lookup_fmap.
    by destruct (c_running c !! x). }
  assert (∀ x, place (set_rj d f c) O x = place c O x) as Hpe by (intros; unfold place; by rewrite Hm).
  assert (∀ x, cnt x (dones (c_running (set_rj d f c))) = cnt x (dones (c_running c))) as Hdn.
  { intros x. cbn. f_equal. apply dones_fmap. intros r. case_bool_decide; [apply Hf|done]. }
  assert (excl (set_rj d f c)) as Hex.
  { eapply excl_shrink; [exact (i_excl _ _ H)|]. intros x a. by rewrite set_rj_act. }
  assert (Hrow_ok : ∀ id rj, c_running c !! id = Some rj → rj_done rj = d → run_wf (set_rj d f c) id (f rj)).
  { intros id rj Hrj Hd. destruct (i_run _ _ H id rj Hrj) as (Hid&(r&Hr&Ht&Hpr)&Hn&Hdd).
    destruct (Hf rj) as [(Hji&Hjt&_&_) Hdone]. split_and!.
    - by rewrite Hji.
    - exists r. rewrite Hji, Hjt. split_and!; try done. apply (Hp rj r); eauto. left. eauto.
    - by rewrite Hdone.
    - cbn. rewrite Hdone, Hd. rewrite Hd in Hdd. by rewrite lookup_alter_eq, Hdd. }
  inv_start H; move_tac Hpe.
  - rewrite Hdn. apply Hdones.
  - apply set_rj_running in H as (rj0&H&->). case_bool_decide as Hd; [eauto|].
    destruct (Hrun id rj0 H) as (?&?&?&?). split_and!; try done. cbn.
    by rewrite lookup_alter_ne.
  - apply lookup_alter_Some in H as [(->&r&Hr&->)|[? H]]; [|eauto].
    destruct (Hf r) as [_ ->]. eauto.
  - apply set_rj_running in H as (rj0&H&->). case_bool_decide as Hd; [|eauto].
    apply Hst; [left; eauto|eauto].
  - apply lookup_alter_Some in H as [(->&r&Hr&->)|[? H]]; [|eauto].
    apply Hst; [by right|eauto].
  - match goal with Hx : (_ <$> _) !! _ = Some _ |- _ =>
      rewrite lookup_fmap, fmap_Some in Hx; destruct Hx as (rj0&Hx&->) end.
    eapply Hnp; eauto. repeat case_bool_decide; destruct (Hf rj0) as [_ ?]; congruence.
  - rewrite Hm. eauto.
  - destruct (Hrst H) as [? Hz]. split; [done|]. intros x. rewrite Hpe. apply Hz.
Qed.

(** A token to close a [stopCh]: [stopSignalled] has just been set. *)
Lemma T_close_take c O d :
  Inv c O → d < c_next c → (∀ rj, obj c d rj → rj_stopSignalled rj = true ∧ rj_stopClosed rj = 0) → cnt d (closes O) = 0 →
  Inv c (TClose d :: O).
Proof.
  intros H Hd Hob Hc.
  assert (∀ d0 rj, obj c d0 rj → rj_done rj = d0 → stop_wf O rj → stop_wf (TClose d :: O) rj) as Hx.
  { intros d0 rj Hrj Hd0. unfold stop_wf. change (closes (TClose d :: O)) with (d :: closes O).
    rewrite cnt_cons. case_decide as Hdd; [|done]. rewrite <- Hdd, Hc.
    destruct (Hob rj) as [-> ->]; [congruence|]. split; [lia|done]. }
  inv_start H.
  - eapply Hx; [left; eauto|done|eauto].
  - eapply Hx; [right; eauto|by eapply Hdead|eauto].
  - destruct (Hrst H) as [Hy ?]. split; [|done]. intros t [->|?]%elem_of_cons; eauto.
Qed.
Lemma T_close_drop c O d :
  Inv c (TClose d :: O) → Inv c O.
Proof.
  intros H.
  assert (∀ rj, stop_wf (TClose d :: O) rj → stop_wf O rj) as Hx.
  { intros rj. unfold stop_wf. change (closes (TClose d :: O)) with (d :: closes O).
    rewrite cnt_cons. case_decide; [|done]. intros [? ?]. split; [lia|]. intros. auto with lia. }
  inv_start H.
  destruct (Hrst H) as [Hy ?]. split; [|done]. eauto.
Qed.

(** ** A checkpoint save, and a cancel request of a dispatching job *)
Lemma T_checkpoint c O id rj data :
  Inv c O → c_running c !! id = Some rj → TRun (rj_done rj) true ∉ O →
  (past (upd_j_checkpoint (λ _, data) (rj_job rj)) = true →
    rj_cancellable rj = false ∧ rj_reason rj ≠ reasonCancel) →
  Inv (set_rows (alter (upd_j_checkpoint (λ _, data)) id) c) O.
Proof.
  intros H Hrj Hnt Hp. pose proof (run_place c O id rj Hrj) as Hpl.
  pose proof (i_place _ _ H id) as Hpl1. set (f := upd_j_checkpoint (λ _, data)).
  destruct (i_run _ _ H id rj Hrj) as (Hid&(r0&Hr0'&Ht&_)&_&_).
  assert (∀ j P, j_id j ≠ id → row_ok c j P → row_ok (set_rows (alter f id) c) j P) as Hro.
  { intros j P Hne (r&Hr&?&?). exists r. cbn. by rewrite lookup_alter_ne. }
  assert (is_run c id = 1) as Hir by (unfold is_run; by rewrite Hrj).
  assert (past (f r0) = past (f (rj_job rj))) as Hpp by (unfold past; cbn; by rewrite Ht).
  inv_start H.
  - apply lookup_alter_Some' in H as (r1&H&->). case_decide; cbn; eauto.
  - destruct (Hrow id0) as (r&Hr&Hs); [done|]. eexists. split; [apply lookup_alter_Some'; eauto|].
    by case_decide.
  - destruct (decide (id0 = id)) as [->|Hne].
    + assert (rj0 = rj) as -> by congruence.
      destruct (Hrun id rj Hrj) as (_&_&?&?). split_and!; try done.
      exists (f r0). split_and!; [|done|by rewrite Hpp].
      apply lookup_alter_Some'. exists r0. by rewrite Hid, decide_True in *.
    + destruct (Hrun id0 rj0 H) as (?&?&?&?). split_and!; try done. apply Hro; congruence.
  - destruct (Hdisp id0 q H) as (Hq&?). split; [done|]. apply Hro; [|done]. intros Hx.
    unfold place, in_mem in Hpl1. unfold qid in Hq. assert (is_disp c id = 1); [|lia].
    unfold is_disp. rewrite <- Hx, Hq, H. done.
  - destruct (Hqueue q H) as (?&?). split; [|done]. apply Hro; [|done]. intros Hx.
    unfold place, in_mem in Hpl1. assert (0 < cnt id (qids c)); [|lia].
    apply cnt_pos, list_elem_of_In, in_map_iff. exists q. by rewrite <- list_elem_of_In.
  - apply lookup_alter_Some' in H0 as (r1&H1&->). case_decide; [subst id0|eauto].
    unfold place in Hpl1. unfold in_mem in Hpl1. assert (0 < cnt id (outs O)); [|lia].
    apply cnt_pos, outs_elem. eauto.
  - match goal with Hx : alter _ _ _ !! _ = Some r |- _ =>
      apply lookup_alter_Some' in Hx as (r1&Hr&->) end.
    case_decide; [|eauto]. subst id0. exfalso. apply Hnt. congruence.
  - destruct (HabI id0); [done|]. split; [done|]. by apply known_alter.
  - destruct (HabX id0) as (Hz&r&Hr&Hpr); [done|]. split; [done|]. exists r.
    rewrite lookup_alter_ne; [done|]. intros <-. lia.
  - destruct (Hres id0) as (?&?&?&[r Hr]); [done|]. split_and!; try done.
    eexists. apply lookup_alter_Some'. eauto.
Qed.

Lemma T_cancelreq c O id q :
  Inv c O → c_disp c !! id = Some q →
  (j_type (q_job q) = TypeDiskUpgradeData → q_cancellable q = true) →
  Inv (set_disp (alter (upd_q_cancelRequested (λ _, true)) id) c) O.
Proof.
  intros H Hq Hc. set (f := upd_q_cancelRequested (λ _, true)).
  assert (∀ x, is_disp (set_disp (alter f id) c) x = is_disp c x) as Hd.
  { intros x. unfold is_disp. cbn. destruct (decide (id = x)) as [<-|].
    - by rewrite lookup_alter_eq, Hq.
    - by rewrite lookup_alter_ne. }
  assert (∀ x, in_mem (set_disp (alter f id) c) x = in_mem c x) as Hm.
  { intros x. rewrite in_mem_disp, Hd. done. }
  assert (∀ x, place (set_disp (alter f id) c) O x = place c O x) as Hpe by (intros; unfold place; by rewrite Hm).
  assert (excl (set_disp (alter f id) c)) as Hex.
  { eapply excl_shrink; [exact (i_excl _ _ H)|]. intros x a. unfold act. cbn. case_match; [done|].
    destruct (decide (id = x)) as [<-|]; [by rewrite lookup_alter_eq, Hq|by rewrite lookup_alter_ne]. }
  inv_start H; move_tac Hpe.
  - apply lookup_alter_Some in H as [(->&q1&Hq1&->)|[? H]]; [|by apply Hdisp].
    assert (q1 = q) as -> by congruence. destruct (Hdisp id0 q Hq) as (?&r&Hr&Ht&Hpa). split; [done|]. exists r. split_and!; try done.
    intros Hp. destruct (Hpa Hp) as [Hx _]. exfalso. unfold past in Hp.
    apply andb_true_iff in Hp as [Hp%bool_decide_eq_true _]. rewrite Hc in Hx; congruence.
  - destruct (Hdq q0 a) as (q'&Hq'&?&?&?); [done|]. destruct (decide (id = qid q0)) as [->|].
    + rewrite lookup_alter_eq, Hq'. eexists. split; [done|]. by split_and!.
    + rewrite lookup_alter_ne by done. exists q'. done.
  - rewrite Hm. eauto.
  - destruct (Hrst H) as [? Hz]. split; [done|]. intros x. rewrite Hpe. apply Hz.
Qed.

(** ** What a thread learns *)
Lemma T_disp_mark c O q a q' :
  Inv c (TDisp q a :: O) → c_disp c !! qid q = Some q' → q_cancelRequested q' = true →
  Inv c (TDisp (upd_q_cancelRequested (λ _, true) q) a :: O).
Proof.
  intros H Hq Hc. inv_start H.
  destruct (Hdq q a) as (q2&Hq2&?&?&?); [by left|]. exists q2. split; [done|].
  split_and!; [done|done|]. intros _. congruence.
Qed.
Lemma T_run_np c O d np :
  Inv c (TRun d np :: O) →
  (∀ id rj r, c_running c !! id = Some rj → rj_done rj = d → c_rows c !! id = Some r → past r = false) →
  Inv c (TRun d true :: O).
Proof. intros H Hc. inv_start H. Qed.
Lemma T_next c O : Inv c O → Inv (set_next S c) O.
Proof.
  intros H. inv_start H.
  - destruct (Hrun id rj) as (?&?&?&?); [done|]. split_and!; try done. cbn. lia.
  - destruct (Hdead d rj) as [? ?]; [done|]. split; [done|lia].
  - apply Hcl in H. lia.
Qed.

(** The order of the queue does not matter. *)
Lemma T_queue_perm c O l :
  Inv c O → l ≡ₚ c_queue c → Inv (set_queue (λ _, l) c) O.
Proof.
  intros H Hl.
  assert (∀ x, in_mem (set_queue (λ _, l) c) x = in_mem c x) as Hm.
  { intros x. unfold in_mem, qids, is_run, is_disp. cbn.
    by rewrite (cnt_perm x (map qid l) (map qid (c_queue c))) by (by rewrite Hl). }
  assert (∀ x, place (set_queue (λ _, l) c) O x = place c O x) as Hpe
    by (intros; unfold place; by rewrite Hm).
  inv_start H; move_tac Hpe.
  - rewrite Hl in H. by apply Hqueue.
  - rewrite Hm. eauto.
  - destruct (Hrst H) as [? Hz]. split; [done|]. intros x. rewrite Hpe. apply Hz.
Qed.

(** The holder of the restore replaces the jobs table, and releases its hold. *)
Lemma T_import c O rows :
  Inv c O → c_restore c = true → (∀ id r, rows !! id = Some r → j_id r = id) → Inv (set_rows (λ _, rows) c) O.
Proof.
  intros H Hr Hk. destruct (i_restore _ _ H Hr) as [Ht Hp].
  assert (∀ id, id ∈ ress O → False) as Hns.
  { intros id (t&Hto&Hx)%list_elem_of_omap. destruct (Ht t Hto) as [d ->]. done. }
  assert (∀ id rj, c_running c !! id = Some rj → False) as Hnr.
  { intros id rj Hx. pose proof (run_place c O id rj Hx). specialize (Hp id). lia. }
  assert (∀ id q, c_disp c !! id = Some q → False) as Hnd.
  { intros id q Hx. specialize (Hp id). unfold place, in_mem, is_disp in Hp. rewrite Hx in Hp. lia. }
  assert (∀ q, q ∈ c_queue c → False) as Hnq.
  { intros q Hx. specialize (Hp (qid q)). unfold place, in_mem in Hp.
    assert (0 < cnt (qid q) (qids c)); [|lia]. apply cnt_pos, list_elem_of_In, in_map, list_elem_of_In, Hx. }
  inv_start H; try solve [exfalso; eauto]; try solve [apply Ht in H as [? ?]; done].
  - match goal with Hx : 0 < place _ _ ?x |- _ => specialize (Hp x);
      change (place (set_rows (λ _, rows) c) O x) with (place c O x) in Hx end. lia.
Qed.

Lemma T_release c O : Inv c O → Inv (set_restore (λ _, false) c) O.
Proof. intros H. inv_start H. Qed.
End trans.
