(* ===== verification/SchedWp.v ===== *)
(** * Every operation keeps the invariant

    Rules for [wp], and one lemma per program of [Sched]: started with the
    tokens it needs, it keeps the invariant under every interference and ends
    with the tokens it should. *)
From S2P Require Export SchedInv.
Open Scope nat_scope.
Open Scope list_scope.

Section wp_rules.
Context `{E : Env}.
Implicit Types (O R : list tok).

Lemma wp_mono {A} (p : P A) O (Φ Ψ : A → list tok → Prop) :
  (∀ a O', Φ a O' → Ψ a O') → wp p O Φ → wp p O Ψ.
Proof.
  intros HΦ. revert O. induction p as [a|f k IH|k IH|cond k IHk kc IHc]; intros O; cbn.
  - apply HΦ.
  - intros Hw w R HI. destruct (Hw w R HI) as (HG&O'&HI'&Hk). split; [done|].
    exists O'. split; [done|]. by apply IH.
  - apply IH.
  - intros [? ?]. split; auto.
Qed.

Lemma wp_bind {A B} (p : P A) (k : A → P B) O Φ :
  wp p O (λ a O', wp (k a) O' Φ) → wp (p ≫= k) O Φ.
Proof.
  revert O. change (p ≫= k) with (prog_bind p k).
  induction p as [a|f k' IH|k' IH|cond k' IHk kc IHc]; intros O; cbn.
  - done.
  - intros Hw w R HI. destruct (Hw w R HI) as (HG&O'&HI'&Hk). split; [done|].
    exists O'. split; [done|]. by apply IH.
  - apply IH.
  - intros [? ?]. split; auto.
Qed.

Lemma wp_ret {A} (a : A) O Φ : Φ a O → wp (Ret a) O Φ.
Proof. done. Qed.

Lemma wp_frame {A} (p : P A) O F Φ :
  wp p O Φ → wp p (O ++ F) (λ a O', ∃ O2, O' = (O2 ++ F)%list ∧ Φ a O2).
Proof.
  revert O. induction p as [a|f k' IH|k' IH|cond k' IHk kc IHc]; intros O; cbn.
  - eauto.
  - intros Hw w R HI. rewrite <- app_assoc in HI.
    destruct (Hw w (F ++ R) HI) as (HG&O'&HI'&Hk). split; [done|].
    exists (O' ++ F). split; [by rewrite <- app_assoc|]. by apply IH.
  - apply IH.
  - intros [? ?]. split; auto.
Qed.

Lemma wp_perm {A} (p : P A) O O' Φ :
  O ≡ₚ O' → (∀ a O1 O2, O1 ≡ₚ O2 → Φ a O1 → Φ a O2) → wp p O Φ → wp p O' Φ.
Proof.
  intros Hp HΦ. revert O O' Hp.
  induction p as [a|f k' IH|k' IH|cond k' IHk kc IHc]; intros O O' Hp; cbn.
  - eauto.
  - intros Hw w R HI. destruct (Hw w R) as (HG&O2&HI'&Hk).
    { eapply Inv_perm; [|exact HI]. by rewrite Hp. }
    split; [done|]. eauto.
  - eauto.
  - intros [? ?]. split; eauto.
Qed.

(** ** One lock hold *)

(** [m] run in [w] ends as [Q] says. *)
Definition sp {A} (m : M A) (w : world) (Q : res err A → world → Prop) : Prop :=
  Q (fst (m w)) (snd (m w)).

Lemma sp_bind {A B} (m : M A) (k : A → M B) w Q :
  sp m w (λ r w', match r with Ok a => sp (k a) w' Q | Err e => Q (Err e) w' end) →
  sp (m ≫= k) w Q.
Proof.
  unfold sp, mbind, stM_bind. destruct (m w) as [[a|e] w']; done.
Qed.
Lemma sp_mono {A} (m : M A) w (Q Q' : res err A → world → Prop) :
  (∀ r w', Q r w' → Q' r w') → sp m w Q → sp m w Q'.
Proof. unfold sp. auto. Qed.

Lemma sp_ret {A} (a : A) w Q : Q (Ok a) w → sp (mret a) w Q.
Proof. done. Qed.
Lemma sp_throw {A} e w (Q : res err A → world → Prop) : Q (Err e) w → sp (throw e) w Q.
Proof. done. Qed.
Lemma sp_sched w Q : Q (Ok (w_sched w)) w → sp sched w Q.
Proof. done. Qed.
Lemma sp_upd f w (Q : res err unit → world → Prop) : Q (Ok tt) (upd_w_sched f w) → sp (upd f) w Q.
Proof. done. Qed.
Lemma sp_attempt {A} (m : M A) w Q : sp m w (λ r w', Q (Ok r) w') → sp (attempt m) w Q.
Proof. unfold sp, attempt. by destruct (m w). Qed.
Lemma sp_wrapped {A} s (m : M A) w Q :
  sp m w (λ r w', match r with Ok a => Q (Ok a) w' | Err e => Q (Err (wrap s e)) w' end) →
  sp (wrapped s m) w Q.
Proof. unfold sp, wrapped. by destruct (m w) as [[?|?] ?]. Qed.

(** What a lock hold that started in core [c] with tokens [O], the others
    holding [R], has to establish. *)
Definition fin {A} (c : core) (R : list tok) (Φ : A → list tok → Prop) (r : A) (w' : world) : Prop :=
  Guar c (core_of w') ∧ ∃ O', Inv (core_of w') (O' ++ R) ∧ Φ r O'.

Lemma wp_atomic {A} (m : M A) O Φ :
  (∀ w R, Inv (core_of w) (O ++ R) → sp m w (fin (core_of w) R Φ)) → wp (atomic m) O Φ.
Proof. intros H w R HI. destruct (H w R HI) as (?&O'&?&?). eauto. Qed.

(** ** Actions that change nothing the invariant reads *)
Definition quiet {A} (m : M A) (T : core → res err A → Prop) : Prop :=
  ∀ w, core_of (snd (m w)) = core_of w ∧ T (core_of w) (fst (m w)).

Lemma sp_quiet {A} (m : M A) T w Q :
  quiet m T → (∀ r w', core_of w' = core_of w → T (core_of w) r → Q r w') → sp m w Q.
Proof. intros Hq H. destruct (Hq w). by apply H. Qed.

Lemma wp_quiet {A} (m : M A) O (Φ : res err A → list tok → Prop) T :
  quiet m T → (∀ r, Φ r O) → wp (atomic m) O Φ.
Proof.
  intros Hq HΦ. apply wp_atomic. intros w R HI. eapply sp_quiet; [exact Hq|].
  intros r w' Hc _. split; rewrite Hc; [apply Guar_refl|eauto].
Qed.

Definition any {A} (c : core) (r : A) : Prop := True.

Lemma quiet_weaken {A} (m : M A) T (T' : core → res err A → Prop) :
  quiet m T → (∀ c r, T c r → T' c r) → quiet m T'.
Proof. intros Hq HT w. destruct (Hq w). auto. Qed.
Lemma quiet_any {A} (m : M A) T : quiet m T → quiet m any.
Proof. intros Hq. eapply quiet_weaken; done. Qed.

Lemma quiet_bind {A B} (m : M A) (k : A → M B) T (T' : core → res err B → Prop) :
  quiet m T →
  (∀ a, quiet (k a) (λ c r, T c (Ok a) → T' c r)) →
  (∀ c e, T c (Err e) → T' c (Err e)) →
  quiet (m ≫= k) T'.
Proof.
  intros Hm Hk He w. destruct (Hm w) as [Hc HT]. unfold mbind, stM_bind.
  destruct (m w) as [[a|e] w']; cbn in *.
  - destruct (Hk a w') as [Hc' HT']. rewrite Hc in *. auto.
  - auto.
Qed.
Lemma quiet_bind_any {A B} (m : M A) (k : A → M B) :
  quiet m any → (∀ a, quiet (k a) any) → quiet (m ≫= k) any.
Proof. intros. eapply quiet_bind; eauto using quiet_weaken. Qed.
Lemma quiet_ret {A} (a : A) : quiet (mret a) (λ _ r, r = Ok a).
Proof. intros w. done. Qed.
Lemma quiet_ret_any {A} (a : A) : quiet (mret a) any.
Proof. intros w. done. Qed.
Lemma quiet_throw {A} e : quiet (A := A) (throw e) (λ _ r, r = Err e).
Proof. intros w. done. Qed.
Lemma quiet_throw_any {A} e : quiet (A := A) (throw e) any.
Proof. intros w. done. Qed.
Lemma quiet_throw_if b e : quiet (throw_if b e) (λ _ r, b = false ∨ r = Err e).
Proof. intros w. destruct b; cbn; auto. Qed.
Lemma quiet_throw_if_any b e : quiet (throw_if b e) any.
Proof. intros w. by destruct b. Qed.
Lemma quiet_sched : quiet sched any.
Proof. intros w. done. Qed.
Lemma quiet_next_call : quiet next_call any.
Proof. intros w. done. Qed.
Lemma quiet_lift_opt o : quiet (lift_opt o) any.
Proof. by destruct o. Qed.
Lemma quiet_Publish j : quiet (Publish j) any.
Proof. intros w. done. Qed.
Lemma quiet_Publish_ok j : quiet (Publish j) (λ _ r, r = Ok tt).
Proof. intros w. done. Qed.
Lemma quiet_get : quiet get any.
Proof. intros w. done. Qed.
Lemma quiet_attempt {A} (m : M A) : quiet m any → quiet (attempt m) any.
Proof. intros Hm w. destruct (Hm w). unfold attempt. by destruct (m w). Qed.
Lemma quiet_wrapped {A} s (m : M A) : quiet m any → quiet (wrapped s m) any.
Proof. intros Hm w. destruct (Hm w). unfold wrapped. destruct (m w) as [[?|?] ?]; done. Qed.
End wp_rules.

Create HintDb quiet.
#[export] Hint Resolve quiet_bind_any quiet_ret_any quiet_throw_any quiet_throw_if_any quiet_sched
  quiet_next_call quiet_lift_opt quiet_Publish quiet_get quiet_attempt quiet_wrapped : quiet.
Ltac quiet := repeat first
  [ progress intros
  | solve [eauto 2 with quiet]
  | apply quiet_bind_any
  | apply quiet_attempt
  | apply quiet_wrapped
  | match goal with |- quiet (match ?x with _ => _ end) any => destruct x end
  | match goal with |- quiet ((match ?x with _ => _ end)) any => destruct x end ].

Section wp_store.
Context `{E : Env}.
Implicit Types (O R : list tok).

Lemma quiet_time_now : quiet time_now any.
Proof. unfold time_now. quiet. Qed.
Lemma quiet_time_now_ok : quiet time_now (λ _ r, is_ok r = true).
Proof. intros w. done. Qed.
Lemma quiet_statement : quiet statement any.
Proof. unfold statement. quiet. Qed.
#[local] Hint Resolve quiet_time_now quiet_statement : quiet.

Lemma quiet_store_Get id : quiet (store_Get id) (λ c r, ∀ j, r = Ok j → c_rows c !! id = Some j).
Proof.
  unfold store_Get. eapply quiet_bind; [apply quiet_statement| |done].
  intros [] w. unfold get, mbind, stM_bind. cbn.
  destruct (w_rows w !! id) eqn:Hr; split; try done; cbn; naive_solver.
Qed.
Lemma quiet_store_ListPending t : quiet (store_ListPending t) any.
Proof. unfold store_ListPending. quiet. Qed.
Lemma quiet_UpsertArrayMaintenance m a : quiet (store_UpsertArrayMaintenance m a) any.
Proof. unfold store_UpsertArrayMaintenance. quiet. Qed.
Lemma quiet_GetArrayMaintenance : quiet store_GetArrayMaintenance any.
Proof. unfold store_GetArrayMaintenance. quiet. Qed.

Lemma merge_sort_nil (l : list Job) : merge_sort created_le l = [] → l = [].
Proof. intros H. pose proof (merge_sort_Permutation created_le l) as Hp. rewrite H in Hp. by apply Permutation_nil_l in Hp. Qed.

Lemma select_rows_nil p rows :
  select_rows p rows = [] → ∀ id r, rows !! id = Some r → p r = false.
Proof.
  intros H id r Hr. destruct (p r) eqn:Hp; [|done]. exfalso.
  apply (not_elem_of_nil r). rewrite <- H. unfold select_rows.
  apply list_elem_of_filter. split; [done|].
  apply list_elem_of_In, in_map_iff. exists (id, r). split; [done|].
  by apply list_elem_of_In, elem_of_map_to_list.
Qed.

Lemma quiet_store_ListActive : quiet store_ListActive (λ c r, r = Ok [] →
  ∀ id j, c_rows c !! id = Some j → status_active (j_status j) = false).
Proof.
  unfold store_ListActive. eapply quiet_bind; [apply quiet_statement| |done].
  intros [] w. split; [done|]. intros _. unfold get, mbind, stM_bind, mret, stM_ret. cbn.
  intros Hl id r Hr. injection Hl as Hl. apply merge_sort_nil in Hl.
  exact (select_rows_nil _ _ Hl id r Hr).
Qed.

(** A statement that changes one row. *)
Lemma sp_write f id w (Q : res err unit → world → Prop) :
  (∀ e w', core_of w' = core_of w → Q (Err e) w') →
  (∀ w', core_of w' = set_rows (alter f id) (core_of w) → Q (Ok tt) w') →
  sp (_ ← statement; alter_row f id) w Q.
Proof.
  intros He Ho. apply sp_bind. eapply sp_quiet; [apply quiet_statement|].
  intros [[]|e] w' Hc _; [|by apply He].
  unfold sp, alter_row, modify. cbn. apply Ho. by rewrite <- Hc.
Qed.

(** ** Admission *)
Lemma quiet_admitMigrationLocked t : quiet (admitMigrationLocked t) any.
Proof. unfold admitMigrationLocked. quiet. Qed.
#[local] Hint Resolve quiet_admitMigrationLocked quiet_store_ListPending : quiet.
Lemma quiet_admitEvacuationLocked : quiet admitEvacuationLocked any.
Proof. unfold admitEvacuationLocked, head_pending. quiet. Qed.
Lemma quiet_admitDiskUpgradeDataLocked : quiet admitDiskUpgradeDataLocked any.
Proof. unfold admitDiskUpgradeDataLocked, head_pending. quiet. Qed.
#[local] Hint Resolve quiet_admitEvacuationLocked quiet_admitDiskUpgradeDataLocked : quiet.

(** [s ← sched; k s] reads the scheduler of the same core. *)
Lemma quiet_sched_bind {A} (k : Scheduler → M A) T :
  (∀ w, core_of (snd (k (w_sched w) w)) = core_of w ∧ T (core_of w) (fst (k (w_sched w) w))) →
  quiet (s ← sched; k s) T.
Proof. intros H w. apply H. Qed.

Lemma quiet_admitLocked t : quiet (admitLocked t) (λ c r, is_ok r = true → c_restore c = false).
Proof.
  unfold admitLocked. apply quiet_sched_bind. intros w.
  destruct (s_databaseRestore (w_sched w)) eqn:Hr; cbn -[core_of]; [done|].
  match goal with |- context [ (?m : M unit) w ] => assert (quiet m any) as Hq by quiet end.
  destruct (Hq w) as [Hc _]. by split.
Qed.

Lemma conflict_none w class res :
  hasConflictWithRunningLocked (w_sched w) class res = false →
  ∀ id a, act (core_of w) id = Some a → clash (class, res) a = false.
Proof.
  unfold hasConflictWithRunningLocked. rewrite orb_false_iff. intros [Hr Hd] id a.
  assert (∀ {B} (f : string * B → bool) (m : gmap string B), existsb f (map_to_list m) = false →
    ∀ i x, m !! i = Some x → f (i, x) = false) as Hex.
  { intros B f m Hf i x Hx. destruct (f (i, x)) eqn:Hfi; [|done]. rewrite <- Hf. symmetry.
    apply existsb_exists. exists (i, x). split; [|done].
    by apply list_elem_of_In, elem_of_map_to_list. }
  unfold act. cbn. destruct (s_running (w_sched w) !! id) as [rj|] eqn:Hrj.
  - intros [= <-]. apply (Hex _ _ _ Hr) in Hrj. done.
  - intros (q&Hq&->)%fmap_Some. apply (Hex _ _ _ Hd) in Hq. done.
Qed.
End wp_store.
#[export] Hint Resolve quiet_time_now quiet_statement quiet_store_ListPending
  quiet_UpsertArrayMaintenance quiet_GetArrayMaintenance quiet_admitMigrationLocked : quiet.

(** ** Rules for the common shapes *)
Definition emp {A} (a : A) (O : list tok) : Prop := O = [].

Section wp_common.
Context `{E : Env}.
Implicit Types (O R : list tok).

Lemma wp_publish j O Φ : Φ tt O → wp (publish j) O Φ.
Proof. intros H. unfold publish. apply wp_bind. eapply wp_quiet; [apply quiet_Publish|done]. Qed.
Lemma wp_dispatch_call O Φ : Φ tt O → wp dispatch_call O Φ.
Proof. done. Qed.

(** The rest of a program whose first part ends with no token. *)
Lemma wp_seq_emp {A B} (p : P A) (k : A → P B) O F Φ :
  wp p O emp → (∀ a, wp (k a) F Φ) → wp (p ≫= k) (O ++ F) Φ.
Proof.
  intros Hp Hk. apply wp_bind. eapply wp_mono; [|apply wp_frame, Hp].
  intros a O' (O2&->&->). apply Hk.
Qed.
Lemma wp_seq_nil {A B} (p : P A) (k : A → P B) F Φ :
  wp p [] emp → (∀ a, wp (k a) F Φ) → wp (p ≫= k) F Φ.
Proof. intros. by apply (wp_seq_emp p k []). Qed.

Lemma wp_for_each {A} (f : A → P unit) (t : A → tok) l :
  (∀ x, x ∈ l → wp (f x) [t x] emp) → wp (for_each f l) (map t l) emp.
Proof.
  induction l as [|x l IH]; intros H; cbn [for_each map]; [done|].
  apply (wp_seq_emp (f x) _ [t x] (map t l)); [apply H; by left|].
  intros _. apply IH. intros y Hy. apply H. by right.
Qed.
Lemma wp_for_each_nil {A} (f : A → P unit) l :
  (∀ x, x ∈ l → wp (f x) [] emp) → wp (for_each f l) [] emp.
Proof.
  induction l as [|x l IH]; intros H; cbn [for_each]; [done|].
  apply wp_seq_nil; [apply H; by left|]. intros _. apply IH. intros y Hy. apply H. by right.
Qed.

(** The action changed nothing and the thread keeps its tokens. *)
Lemma fin_same {A} c R O (Φ : A → list tok → Prop) r w' :
  Inv c (O ++ R) → core_of w' = c → Φ r O → fin c R Φ r w'.
Proof. intros HI Hc HΦ. split; rewrite Hc; [apply Guar_refl|eauto]. Qed.
Lemma fin_intro {A} c R O (Φ : A → list tok → Prop) r w' :
  GuarS c (core_of w') → Inv (core_of w') (O ++ R) → Φ r O → fin c R Φ r w'.
Proof. intros HG HI HΦ. split; [by apply GuarS_Guar|eauto]. Qed.

(** ** Writing an outcome *)
Lemma keeps_set_status st p code msg sa fa : keeps (set_status st p code msg sa fa).
Proof. intros r. done. Qed.

Lemma out_row c id b O st p code msg sa fa :
  Inv c (TOut id b :: O) → (st = StatusCancelled → b = true) →
  let c' := set_rows (alter (set_status st p code msg sa fa) id) c in
  GuarS c c' ∧ Inv c' O.
Proof.
  intros H Hb. cbn. destruct (out_place _ _ _ _ H) as [Hm Ho].
  pose proof (tok_no_restore _ _ _ H ltac:(intros; discriminate)) as Hr.
  split.
  - apply GuarS_alter; [done|]. intros r Hrow. split; [done|]. cbn. intros Hp Hst.
    rewrite (i_out _ _ H id r) in Hp; [done| |done]. rewrite Hb by done. by left.
  - apply T_row; [by eapply T_drop_out|apply keeps_set_status|].
    unfold place. rewrite Hm, Ho. lia.
Qed.

Lemma wp_with_retries n id st p code msg sa fa b :
  (st = StatusCancelled → b = true) →
  wp (with_retries n (store_UpdateStatus id st p code msg sa fa)) [TOut id b]
    (λ r O', O' = if is_ok r then [] else [TOut id b]).
Proof.
  intros Hb. induction n as [|n IH]; cbn [with_retries]; apply wp_bind, wp_atomic;
    intros w R HI; apply sp_write.
  - intros e w' Hc. by eapply fin_same.
  - intros w' Hc. destruct (out_row _ _ _ _ st p code msg sa fa HI Hb) as [HG HI'].
    eapply fin_intro with (O := []); rewrite ?Hc; [done..|]. done.
  - intros e w' Hc. eapply fin_same; [done..|]. exact IH.
  - intros w' Hc. destruct (out_row _ _ _ _ st p code msg sa fa HI Hb) as [HG HI'].
    eapply fin_intro with (O := []); rewrite ?Hc; [done..|]. done.
Qed.

(** Giving up on a job nobody holds. *)
Lemma wp_drop {A} (m : M A) T id b Φ :
  quiet m T → (∀ r, Φ r []) → wp (atomic m) [TOut id b] Φ.
Proof.
  intros Hq HΦ. apply wp_atomic. intros w R HI. eapply sp_quiet; [exact Hq|].
  intros r w' Hc _. eapply fin_intro with (O := []); rewrite ?Hc.
  - apply GuarS_refl.
  - by eapply T_drop_out.
  - done.
Qed.

Lemma quiet_upd f : (∀ w, core_of (upd_w_sched f w) = core_of w) → quiet (upd f) any.
Proof. intros H w. split; [apply H|done]. Qed.

Lemma drop_evicted_core fifo s w :
  core_of (upd_w_sched (λ _, drop_evicted fifo s) w) = core_of (upd_w_sched (λ _, s) w).
Proof.
  revert s. induction fifo as [|x l IH]; intros s; cbn [drop_evicted]; [done|].
  case_match; [|done]. by rewrite IH.
Qed.
Lemma evict_core fifo s w :
  core_of (upd_w_sched (λ _, evict_snapshots fifo s) w) = core_of (upd_w_sched (λ _, s) w).
Proof.
  revert s. induction fifo as [|x l IH]; intros s; cbn [evict_snapshots]; [done|].
  case_match; [|done]. rewrite IH. unfold markTerminalSnapshotEvictedLocked.
  case_match; [done|]. by rewrite drop_evicted_core.
Qed.
Lemma quiet_rememberTerminalSnapshot j : quiet (rememberTerminalSnapshot j) any.
Proof.
  apply quiet_upd. intros w.
  change (upd_w_sched (remember j) w) with (upd_w_sched (λ _, remember j (w_sched w)) w).
  unfold remember. case_match; [done|].
  match goal with |- context [evict_snapshots ?l ?s] => pose proof (evict_core l s w) as He end.
  unfold core_of in *. cbn in *. by injection He as -> -> -> -> -> ->.
Qed.
Lemma quiet_forgetTerminalSnapshot id : quiet (forgetTerminalSnapshot id) any.
Proof. apply quiet_upd. done. Qed.

Lemma wp_record j id b :
  j_id j = id → (j_status j = StatusCancelled → b = true) →
  wp (recordTerminalOutcomeWithRetry j) [TOut id b] emp.
Proof.
  intros <- Hb. unfold recordTerminalOutcomeWithRetry. apply wp_bind.
  eapply wp_mono; [|by apply wp_with_retries].
  intros [[]|e] O ->; cbn [is_ok]; [done|].
  apply wp_bind. eapply wp_drop; [apply quiet_rememberTerminalSnapshot|]. done.
Qed.
End wp_common.

(** ** A queued topology job's turn *)
Section wp_dispatching.
Context `{E : Env}.
Implicit Types (O R : list tok).

(** The world's object of the job a thread decides the turn of. *)
Lemma disp_obj c q a O :
  Inv c (TDisp q a :: O) →
  ∃ q', c_disp c !! qid q = Some q' ∧ same_q q q' ∧ disp_wf c (qid q) q'.
Proof.
  intros H. destruct (i_dispq _ _ H q a) as (q'&Hq'&Hs); [by left|].
  exists q'. split_and!; [done..|]. by apply (i_disp _ _ H).
Qed.

Lemma disp_not_past c q a O r :
  Inv c (TDisp q a :: O) → q_cancelRequested q = true → c_rows c !! qid q = Some r → past r = false.
Proof.
  intros H Hc Hr. destruct (disp_obj _ _ _ _ H) as (q'&Hq'&(Hj&_&Hcr)&_&r'&Hr'&_&Hp).
  rewrite <- Hj in Hr'. fold (qid q) in Hr'. assert (r' = r) as -> by congruence.
  destruct (past r); [|done]. destruct Hp as [_ Hp]; [done|]. rewrite Hcr in Hp; congruence.
Qed.

Lemma fromdisp_fin {A} q b c R (Φ : A → list tok → Prop) r w' :
  Inv c (TDisp q false :: R) → core_of w' = set_disp (delete (qid q)) c →
  (b = true → q_cancelRequested q = true) → Φ r [TOut (qid q) b] → fin c R Φ r w'.
Proof.
  intros HI Hc Hb HΦ. apply fin_intro with (O := [TOut (qid q) b]); [| |done]; rewrite Hc.
  - by apply GuarS_same.
  - apply T_fromdisp; [done|]. intros ? r' Hr'. eapply disp_not_past; eauto.
Qed.

(** What [settle_dispatching] makes of the job. *)
Definition settled (q : queuedJob) (st : Status) (code msg : string) (now : Z) : Job :=
  upd_j_status (λ _, st) $ upd_j_errorCode (λ _, code) $
  upd_j_errorMessage (λ _, msg) $ upd_j_finishedAt (λ _, Some now) (q_job q).
Lemma sp_settle q st code msg now w (Q : res err Job → world → Prop) :
  (∀ w', core_of w' = set_disp (delete (j_id (q_job q))) (core_of w) →
    Q (Ok (settled q st code msg now)) w') →
  sp (settle_dispatching q st code msg now) w Q.
Proof. intros H. unfold sp. cbn. by apply H. Qed.

Lemma wp_finish q q1 st code msg :
  q_job q1 = q_job q → (st = StatusCancelled → q_cancelRequested q1 = true) →
  wp (finishQueuedTopologyJob q st code msg) [TDisp q1 false] emp.
Proof.
  intros Hj Hst. unfold finishQueuedTopologyJob. apply wp_bind, wp_atomic. intros w R HI.
  apply sp_bind. eapply sp_quiet; [apply quiet_time_now_ok|].
  intros [now|e] w' Hc Hok; [|done].
  apply sp_settle. intros w2 Hc2.
  apply fromdisp_fin with q1 (bool_decide (st = StatusCancelled)).
  - done.
  - by rewrite Hc2, Hc, <- Hj.
  - intros Hb%bool_decide_eq_true. auto.
  - apply (wp_seq_emp _ _ [_] []).
    + apply wp_record; [cbn; unfold qid; by rewrite Hj|]. intros ?. by apply bool_decide_eq_true.
    + intros _. apply wp_bind, wp_publish. done.
Qed.

Lemma wp_runQueuedTopologyAbort q q1 :
  q_job q1 = q_job q →
  wp (runQueuedTopologyAbort q) [TDisp q1 false] (λ _ O, O = [TDisp q1 false]).
Proof.
  intros Hj. assert (qid q1 = j_id (q_job q)) as Hid by (unfold qid; by rewrite Hj).
  unfold runQueuedTopologyAbort. apply wp_bind, wp_atomic. intros w R HI.
  apply fin_intro with (O := [TDisp q1 true]); [by apply GuarS_same| |].
  { rewrite <- Hid. exact (T_disp_abort _ _ _ HI). }
  apply wp_bind. eapply wp_quiet; [unfold call_abort; apply quiet_any with any; quiet|].
  intros r. apply wp_bind. unfold releaseAbort. apply wp_bind, wp_atomic. intros w2 R2 HI2.
  apply fin_intro with (O := [TDisp q1 false]); [by apply GuarS_same| |].
  { rewrite <- Hid. exact (T_disp_abort_end _ _ _ HI2). }
  by destruct r.
Qed.

Lemma wp_abort_then q q1 k :
  q_job q1 = q_job q → wp k [TDisp q1 false] emp → wp (abort_then q k) [TDisp q1 false] emp.
Proof.
  intros Hj Hk. unfold abort_then. destruct (lookupAbort _); [|done].
  apply wp_bind. eapply wp_mono; [|by apply wp_runQueuedTopologyAbort].
  intros [[code msg]|] O ->; [|done]. by apply wp_finish.
Qed.

Lemma cancelRequested_true q c w q' :
  core_of w = c → cancelRequested (qid q) (w_sched w) = true → c_disp c !! qid q = Some q' →
  q_cancelRequested q' = true.
Proof. intros <-. unfold cancelRequested, core_of. cbn. intros H Hq. by rewrite Hq in H. Qed.

Definition requested (q : queuedJob) : queuedJob := upd_q_cancelRequested (λ _, true) q.

Lemma wp_refuseQueuedJob q q1 e :
  q_job q1 = q_job q → wp (refuseQueuedJob q e) [TDisp q1 false] emp.
Proof.
  intros Hj. assert (qid q1 = j_id (q_job q)) as Hid by (unfold qid; by rewrite Hj).
  apply wp_abort_then; [done|].
  unfold refuse_settle. apply wp_bind, wp_atomic. intros w R HI.
  apply sp_bind. eapply sp_quiet; [apply quiet_time_now_ok|].
  intros [now|?] w' Hc Hok; [|done]. apply sp_bind. unfold sp at 1. cbn [sched fst snd].
  rewrite <- Hid. destruct (cancelRequested (qid q1) (w_sched w')) eqn:Hcr.
  - destruct (disp_obj _ _ _ _ HI) as (q'&Hq'&_&_).
    pose proof (cancelRequested_true q1 _ w' q' Hc Hcr Hq') as Hq'c.
    unfold sp. cbn [fst snd mret stM_ret].
    apply fin_intro with (O := [TDisp (requested q1) false]).
    + rewrite Hc. apply GuarS_refl.
    + rewrite Hc. by eapply T_disp_mark.
    + apply wp_finish; done.
  - apply sp_bind, sp_settle. intros w2 Hc2. apply sp_ret.
    apply fromdisp_fin with q1 false; [done|by rewrite Hc2, Hc, <- Hj|done|].
    + apply (wp_seq_emp _ _ [_] []).
      * apply wp_record; [cbn; unfold qid; by rewrite Hj|done].
      * intros _. apply wp_bind, wp_publish. done.
Qed.
End wp_dispatching.

(** ** Starting jobs *)
Section wp_start.
Context `{E : Env}.
Implicit Types (O R : list tok).

Definition new_rj (j : Job) (canc : bool) (d : nat) : runningJob :=
  mkRunning j canc reasonNone false false false 0 d.

Lemma sp_start j canc w (Q : res err unit → world → Prop) :
  (∀ w', core_of w' = start (core_of w) (j_id j) (new_rj j canc (c_next (core_of w))) → Q (Ok tt) w') →
  sp (startJobLocked j canc) w Q.
Proof. intros H. unfold sp. cbn. by apply H. Qed.

Lemma GuarS_start c id rj : GuarS c (start c id rj).
Proof. by apply GuarS_same. Qed.

(** A row written as running by the thread that starts the job. *)
Lemma out_row_active c id b O f :
  Inv c (TOut id b :: O) → keeps f →
  (∀ r, status_active (j_status (f r)) = true) →
  let c' := set_rows (alter f id) c in GuarS c c' ∧ Inv c' (TOut id b :: O).
Proof.
  intros H Hf Hst. cbn.
  pose proof (tok_no_restore _ _ _ H ltac:(intros; discriminate)) as Hr. split.
  - apply GuarS_alter; [done|]. intros r Hrow. split; [apply Hf|].
    intros _ Hc. specialize (Hst r). by rewrite Hc in Hst.
  - apply T_row; auto.
Qed.

Lemma start_out c id b O j canc :
  Inv c (TOut id b :: O) → cnt id (abs O) = 0 → j_id j = id →
  row_ok c j (λ r, past r = true → canc = false) →
  (∀ id2 a2, act c id2 = Some a2 → clash (j_class j, j_resourceIDs j) a2 = false) →
  Inv (start c id (new_rj j canc (c_next c))) O.
Proof.
  intros H Ha Hid (r&Hr&Ht&Hp) Hcl. eapply T_start; eauto.
  exists r. split_and!; [done..|]. intros Hpr. split; [by apply Hp|done].
Qed.

Lemma disp_no_clash c q a O :
  Inv c (TDisp q a :: O) →
  ∀ id2 a2, act (set_disp (delete (qid q)) c) id2 = Some a2 →
    clash (j_class (q_job q), j_resourceIDs (q_job q)) a2 = false.
Proof.
  intros H id2 a2 Ha. destruct (disp_obj _ _ _ _ H) as (q'&Hq'&(Hj&_)&_).
  assert (is_run c (qid q) = 0) as Hnr.
  { pose proof (i_place _ _ H (qid q)) as Hp. unfold place, in_mem, is_disp in Hp.
    rewrite Hq' in Hp. lia. }
  unfold is_run in Hnr. destruct (c_running c !! qid q) eqn:Hr; [done|].
  assert (qid q ≠ id2) as Hne.
  { intros <-. revert Ha. unfold act. cbn. by rewrite Hr, lookup_delete_eq. }
  eapply (i_excl _ _ H (qid q) id2); [done| |by eapply act_disp_delete].
  unfold act. rewrite Hr, Hq'. cbn. by rewrite Hj.
Qed.

Lemma wp_runTopologyBackup O Φ : (∀ r, Φ r O) → wp runTopologyBackup O Φ.
Proof.
  intros HΦ. unfold runTopologyBackup. apply wp_bind.
  eapply wp_quiet; [apply quiet_any with any; quiet|]. intros [[]|e]; [|apply HΦ..].
  eapply wp_quiet; [|done]. apply quiet_any with any. quiet. all: by intros ?.
Qed.

(** The thread's object and its token's agree. *)
Definition tok_of (q q1 : queuedJob) : Prop :=
  q_job q1 = q_job q ∧ q_cancellable q1 = q_cancellable q.

Lemma start_topology_fin q q1 w R now :
  Inv (core_of w) (TDisp q1 false :: R) → tok_of q q1 →
  ∀ w', core_of w' = set_disp (delete (qid q1)) (core_of w) →
  sp (let id := j_id (q_job q) in
      r ← attempt (store_UpdateStatus id StatusRunning (j_progress (q_job q)) "" "" (Some now) None);
      match r with
      | Err _ =>
          _ ← upd (upd_s_queue (λ l, (l ++ [upd_q_cancelRequested (λ _, false) q])%list));
          mret TopoRequeued
      | Ok _ =>
          let j := upd_j_status (λ _, StatusRunning) (upd_j_startedAt (λ _, Some now) (q_job q)) in
          _ ← startJobLocked j (q_cancellable q);
          mret (TopoStarted j)
      end) w'
    (fin (core_of w) R (λ r O, O = [] ∧ match r with Ok TopoRequeued | Ok (TopoStarted _) => True | _ => False end)).
Proof.
  intros HI [Hj Hcn] w' Hc'. assert (qid q1 = j_id (q_job q)) as Hid by (unfold qid; by rewrite Hj).
  pose proof (disp_no_abs _ _ _ HI) as Hna.
  pose proof (disp_no_clash _ _ _ _ HI) as Hncl.
  destruct (disp_obj _ _ _ _ HI) as (q'&Hq'&(Hj'&Hcn'&_)&_&Hrow).
  pose proof (T_fromdisp _ _ _ false HI ltac:(done)) as HI'. rewrite <- Hc' in HI'.
  assert (GuarS (core_of w) (core_of w')) as HG by (rewrite Hc'; by apply GuarS_same).
  cbn zeta. apply sp_bind, sp_attempt, sp_write.
  - intros e w2 Hc2. apply sp_bind, sp_upd, sp_ret.
    apply fin_intro with (O := []);
      [eapply GuarS_trans; [exact HG|]; apply GuarS_same; by rewrite <- Hc2| |done].
    apply (T_enqueue (core_of w2) R (qid q1) false (upd_q_cancelRequested (λ _, false) q));
      rewrite ?Hc2; [done..|].
    split; [|done]. destruct Hrow as (r&Hr&Ht&Hp). exists r. rewrite Hc'. unfold upd_q_cancelRequested. cbn [q_job q_cancellable]. rewrite <- Hj, Hj'.
    split_and!; [done..|]. intros Hpr. rewrite <- Hcn, Hcn'. by apply Hp.
  - intros w2 Hc2.
    destruct (out_row_active _ _ _ _ (set_status StatusRunning (j_progress (q_job q)) "" "" (Some now) None)
      HI' ltac:(done) ltac:(done)) as [HG2 HI2].
    rewrite Hid, <- Hc2 in HG2, HI2.
    apply sp_bind, sp_start. intros w3 Hc3. apply sp_ret.
    apply fin_intro with (O := []); [|cbn [app]|done].
    + eapply GuarS_trans; [exact HG|]. eapply GuarS_trans; [exact HG2|]. rewrite Hc3. apply GuarS_start.
    + rewrite Hc3. eapply start_out; [exact HI2|by rewrite Hid in Hna|done| |].
      * destruct Hrow as (r&Hr&Ht&Hp). rewrite <- Hj', Hj in Hr, Ht.
        exists (set_status StatusRunning (j_progress (q_job q)) "" "" (Some now) None r).
        split_and!; [|done|].
        { rewrite Hc2. apply lookup_alter_Some'. exists r. rewrite decide_True by done.
          split; [by rewrite Hc'|done]. }
        intros Hpr. rewrite <- Hcn, Hcn'. by apply Hp.
      * intros id2 a2 Ha2. cbn. rewrite <- Hj. eapply Hncl.
        rewrite <- Hc'. rewrite <- Ha2, Hc2. done.
Qed.

Lemma wp_startQueuedTopologyJob q q1 :
  tok_of q q1 → wp (startQueuedTopologyJob q) [TDisp q1 false] emp.
Proof.
  intros Hto. pose proof Hto as [Hj Hcn].
  assert (qid q1 = j_id (q_job q)) as Hid by (unfold qid; by rewrite Hj).
  unfold startQueuedTopologyJob. apply wp_bind, wp_runTopologyBackup. intros b.
  apply wp_bind, wp_atomic. intros w R HI.
  unfold start_topology_locked. apply sp_bind, sp_sched. rewrite <- Hid.
  destruct (cancelRequested (qid q1) (w_sched w)) eqn:Hcr.
  { destruct (disp_obj _ _ _ _ HI) as (q'&Hq'&_&_). apply sp_ret.
    apply fin_intro with (O := [TDisp (requested q1) false]).
    - apply GuarS_refl.
    - eapply T_disp_mark; [exact HI|done|]. by eapply cancelRequested_true.
    - apply wp_abort_then; [done|]. by apply wp_finish. }
  destruct (err_of b) as [e|].
  { apply sp_ret. eapply fin_same; [exact HI|done|]. unfold backup_failed.
    destruct (negb _ && _); [by apply wp_finish|]. apply wp_abort_then; [done|]. by apply wp_finish. }
  apply sp_bind, sp_upd, sp_bind. eapply sp_quiet; [apply quiet_time_now_ok|].
  intros [now|?] w' Hc Hok; [|done].
  destruct (s_maintenance (w_sched w) && _).
  { apply sp_ret. apply fromdisp_fin with q1 false; [done|by rewrite Hc|done|].
    apply (wp_seq_emp _ _ [_] []).
    - apply wp_record; [by rewrite Hid|done].
    - intros _. by apply wp_publish. }
  rewrite Hid. eapply sp_mono; [|eapply start_topology_fin; [exact HI|exact Hto|]].
  - intros r w2 (HG&O&HI2&->&Hr). split; [done|]. exists []. split; [done|].
    destruct r as [[]|]; try done. by apply wp_publish.
  - by rewrite Hc.
Qed.
End wp_start.

(** ** Dispatch *)
Section wp_dispatch.
Context `{E : Env}.
Implicit Types (O R : list tok).

Definition with_queue (l : list queuedJob) (c : core) : core := set_queue (λ _, l) c.
Definition acc_toks (acc : dispatchAcc) : list tok :=
  map (λ r : queuedJob * err, TDisp r.1 false) (da_refuse acc) ++
  map (λ q, TDisp q false) (da_start acc).

Lemma GuarS_queue l f c : GuarS (with_queue l c) (set_rows f (with_queue l c)) → GuarS c (set_rows f c).
Proof. intros [Hr Hp]. split; [exact Hr|exact Hp]. Qed.

(** Between two jobs of a pass: the queue would be what is kept and what is
    still to be looked at. *)
Definition pass_inv (c : core) (acc : dispatchAcc) (rest : list queuedJob) (R : list tok) : Prop :=
  Inv (with_queue (da_remaining acc ++ rest) c) (acc_toks acc ++ R).

Lemma pass_keep c acc q rest R :
  pass_inv c acc (q :: rest) R → pass_inv c (keep_queued acc q) rest R.
Proof. unfold pass_inv. cbn. by rewrite <- app_assoc. Qed.

(** The pass takes the next job. *)
Lemma pass_take c acc q rest R :
  pass_inv c acc (q :: rest) R →
  Inv (with_queue (da_remaining acc ++ rest) c) (TOut (qid q) false :: acc_toks acc ++ R) ∧
  cnt (qid q) (abs (acc_toks acc ++ R)) = 0 ∧ queue_wf c q.
Proof.
  intros H. assert (q ∈ c_queue (with_queue (da_remaining acc ++ q :: rest) c)) as Hq.
  { cbn. apply elem_of_app. right. by left. }
  split_and!; [|by eapply queue_no_abs|by apply (i_queue _ _ H)].
  assert (delete (length (da_remaining acc)) (da_remaining acc ++ q :: rest) = da_remaining acc ++ rest) as Hd.
  { by rewrite delete_middle. }
  rewrite <- Hd. apply (T_dequeue (with_queue (da_remaining acc ++ q :: rest) c) _ _ q false);
    [exact H| |done].
  cbn. by rewrite list_lookup_middle.
Qed.

Lemma pass_dispatching c acc q rest R (refusal : option err) :
  pass_inv c acc (q :: rest) R →
  (∀ id a, act c id = Some a → clash (j_class (q_job q), j_resourceIDs (q_job q)) a = false) →
  pass_inv (set_disp (insert (qid q) q) c)
    match refusal with
    | Some e => mkAcc (da_remaining acc) (da_decided acc) (da_start acc) (da_refuse acc ++ [(q, e)])
    | None => mkAcc (da_remaining acc) (da_decided acc ++ [q_job q]) (da_start acc ++ [q]) (da_refuse acc)
    end rest R.
Proof.
  intros H Hcl. destruct (pass_take _ _ _ _ _ H) as (HI&Ha&[Hrow Hcr]).
  assert (Inv (with_queue (da_remaining acc ++ rest) (set_disp (insert (qid q) q) c))
    (TDisp q false :: acc_toks acc ++ R)) as Hd.
  { apply (T_todisp (with_queue (da_remaining acc ++ rest) c) _ (qid q) false q); [exact HI|exact Ha| |exact Hcl].
    split; [done|]. destruct Hrow as (r&?&?&Hp). exists r. split_and!; [done..|].
    intros Hpr. split; [by apply Hp|done]. }
  unfold pass_inv. destruct refusal; cbn [da_remaining]; (eapply Inv_perm; [|exact Hd]);
    unfold acc_toks; cbn; rewrite map_app; cbn; solve_Permutation.
Qed.

Lemma queue_wf_job c q j :
  queue_wf c q → j_id j = qid q → j_type j = j_type (q_job q) → queue_wf c (upd_q_job (λ _, j) q).
Proof.
  intros [(r&Hr&Ht&Hp) Hc] Hid Hty. split; [|done]. exists r. cbn. rewrite Hid, Hty. done.
Qed.

Lemma sp_dispatch_start acc q w rest R :
  pass_inv (core_of w) acc (q :: rest) R →
  (∀ id a, act (core_of w) id = Some a → clash (j_class (q_job q), j_resourceIDs (q_job q)) a = false) →
  sp (dispatch_start acc q) w (λ r w', ∃ acc', r = Ok acc' ∧ GuarS (core_of w) (core_of w') ∧
    pass_inv (core_of w') acc' rest R).
Proof.
  intros H Hcl. destruct (pass_take _ _ _ _ _ H) as (HI&Ha&Hwf).
  unfold dispatch_start. apply sp_bind. eapply sp_quiet; [apply quiet_time_now_ok|].
  intros [now|?] w' Hc Hok; [|done]. rewrite <- Hc in *. clear Hok.
  set (j := upd_j_status (λ _, StatusRunning) (upd_j_startedAt (λ _, Some now) (q_job q))).
  apply sp_bind, sp_attempt, sp_write.
  - intros e w2 Hc2. apply sp_ret. eexists. split; [done|]. rewrite Hc2, Hc.
    split; [apply GuarS_refl|]. apply pass_keep. unfold pass_inv.
    eapply Inv_perm; [reflexivity|].
    eapply (T_queue_perm (with_queue ((da_remaining acc ++ rest) ++ [upd_q_job (λ _, j) q]) (core_of w)))
      with (l := da_remaining acc ++ upd_q_job (λ _, j) q :: rest); [|cbn; solve_Permutation].
    rewrite <- Hc.
    eapply (T_enqueue (with_queue (da_remaining acc ++ rest) (core_of w'))); [exact HI|exact Ha|done|].
    by apply queue_wf_job.
  - intros w2 Hc2.
    destruct (out_row_active _ _ _ _ (set_status StatusRunning (j_progress j) "" "" (j_startedAt j) None)
      HI ltac:(done) ltac:(done)) as [HG2 HI2].
    apply sp_bind, sp_start. intros w3 Hc3. apply sp_bind.
    eapply sp_quiet; [apply quiet_Publish_ok|]. intros r w4 Hc4 ->.
    apply sp_ret. eexists. split; [done|]. rewrite Hc4, Hc3. split.
    + eapply GuarS_trans; [|apply GuarS_start]. rewrite Hc2. eapply GuarS_queue. exact HG2.
    + apply (start_out (with_queue (da_remaining acc ++ rest) (core_of w2)) (qid q) false).
      * by rewrite Hc2.
      * done.
      * done.
      * destruct Hwf as [(r&Hr&Ht&Hp) _].
        exists (set_status StatusRunning (j_progress j) "" "" (j_startedAt j) None r).
        split_and!; [|done|done]. rewrite Hc2. apply lookup_alter_Some'. exists r.
        by rewrite decide_True.
      * rewrite Hc2. exact Hcl.
Qed.

Lemma sp_dispatch_job acc q w rest R :
  pass_inv (core_of w) acc (q :: rest) R →
  sp (dispatch_job acc q) w (λ r w', ∃ acc', r = Ok acc' ∧ GuarS (core_of w) (core_of w') ∧
    pass_inv (core_of w') acc' rest R).
Proof.
  intros H. unfold dispatch_job. apply sp_bind, sp_sched.
  destruct (dispatch_skips (w_sched w) (da_decided acc) q) eqn:Hsk.
  { apply sp_ret. eexists. split; [done|]. split; [apply GuarS_refl|]. by apply pass_keep. }
  assert (∀ id a, act (core_of w) id = Some a → clash (j_class (q_job q), j_resourceIDs (q_job q)) a = false)
    as Hcl.
  { apply conflict_none. unfold dispatch_skips in Hsk. rewrite !orb_false_iff in Hsk. tauto. }
  apply sp_bind, sp_attempt. eapply sp_quiet; [apply quiet_admitMigrationLocked|].
  intros r w' Hc _. rewrite <- Hc in *. destruct r as [[]|e].
  - destruct (takesTopologyBackup _ _); [|by apply sp_dispatch_start].
    apply sp_bind, sp_upd, sp_ret. eexists. split; [done|]. split; [by apply GuarS_same|].
    exact (pass_dispatching _ _ _ _ _ None H Hcl).
  - apply sp_bind, sp_upd, sp_ret. eexists. split; [done|]. split; [by apply GuarS_same|].
    exact (pass_dispatching _ _ _ _ _ (Some e) H Hcl).
Qed.

Lemma sp_dispatch_loop queue acc w R :
  pass_inv (core_of w) acc queue R →
  sp (dispatch_loop acc queue) w (λ r w', ∃ acc', r = Ok acc' ∧ GuarS (core_of w) (core_of w') ∧
    pass_inv (core_of w') acc' [] R).
Proof.
  revert acc w. induction queue as [|q queue IH]; intros acc w H; cbn [dispatch_loop].
  - apply sp_ret. eexists. split; [done|]. split; [apply GuarS_refl|done].
  - apply sp_bind. eapply sp_mono; [|by apply sp_dispatch_job].
    intros r w1 (acc1&->&HG1&H1). eapply sp_mono; [|by apply IH].
    intros r w2 (acc2&->&HG2&H2). eexists. split; [done|]. split; [by eapply GuarS_trans|done].
Qed.

Lemma wp_dispatch : wp dispatch [] emp.
Proof.
  unfold dispatch. apply wp_bind, wp_atomic. intros w R HI.
  unfold dispatch_locked. apply sp_bind, sp_sched, sp_bind.
  eapply sp_mono; [|apply sp_dispatch_loop with (R := R); exact HI].
  intros r w' (acc&->&HG&H). apply sp_bind, sp_upd, sp_ret.
  apply fin_intro with (O := acc_toks acc).
  - eapply GuarS_trans; [exact HG|]. by apply GuarS_same.
  - unfold pass_inv in H. rewrite app_nil_r in H. exact H.
  - unfold acc_toks. apply wp_seq_emp.
    + apply (wp_for_each _ (λ r : queuedJob * err, TDisp r.1 false)). intros [q e] _.
      by apply wp_refuseQueuedJob.
    + intros _. apply wp_for_each. intros q _. by apply wp_startQueuedTopologyJob.
Qed.
End wp_dispatch.
