(* ===== verification/SchedWpRun.v ===== *)
(** * Running jobs keep the invariant

    The callbacks a run makes, the end of a run, and the signals that ask a
    run to stop. *)
From S2P Require Export SchedWp.
Open Scope nat_scope.
Open Scope list_scope.

(** A run's [OutcomeError] names only a status its documentation allows. *)
Definition run_contract (runErr : option err) : Prop :=
  ∀ e st code, runErr = Some e → as_outcome e = Some (st, code) → st = StatusFailed ∨ st = StatusInterrupted.

Lemma outcome_cancelled runErr reason code msg :
  run_contract runErr → outcome runErr reason = (StatusCancelled, code, msg) → reason = reasonCancel.
Proof.
  intros Hc. unfold outcome, plain_outcome.
  destruct runErr as [e|]; cbn; [|repeat case_bool_decide; done].
  specialize (Hc e). destruct (as_outcome e) as [[st c]|]; cbn.
  - destruct (Hc st c eq_refl eq_refl) as [-> | ->]; repeat case_bool_decide; done.
  - repeat case_bool_decide; try done. by destruct (err_is _ _).
Qed.

Section objects.
Context `{E : Env}.
Implicit Types (O R : list tok).

Lemma deref_obj d w rj : deref d w = Some rj → obj (core_of w) d rj.
Proof.
  unfold deref. destruct (list_find _ _) as [[i [id r]]|] eqn:Hf.
  - apply list_find_Some in Hf as (Hl&Hd&_). intros [= <-]. left. exists id. split; [|done].
    apply elem_of_map_to_list. by eapply list_elem_of_lookup_2.
  - intros Hd. by right.
Qed.

Lemma obj_inj c O d rj rj' : Inv c O → obj c d rj → obj c d rj' → rj = rj'.
Proof.
  intros H [(id&Hr&Hd)|Hr] [(id'&Hr'&Hd')|Hr'].
  - assert (id = id') as -> by (eapply done_inj; eauto; congruence). congruence.
  - destruct (i_run _ _ H id rj Hr) as (_&_&_&Hx). congruence.
  - destruct (i_run _ _ H id' rj' Hr') as (_&_&_&Hx). congruence.
  - congruence.
Qed.

Lemma deref_running O d w id rj :
  Inv (core_of w) O → c_running (core_of w) !! id = Some rj → rj_done rj = d → deref d w = Some rj.
Proof.
  intros H Hr Hd. destruct (deref d w) as [rj'|] eqn:Hx.
  - f_equal. apply deref_obj in Hx. eapply obj_inj; eauto. left. eauto.
  - exfalso. unfold deref in Hx. destruct (list_find _ _) as [[]|] eqn:Hf; [done|].
    apply list_find_None in Hf. rewrite Forall_forall in Hf. apply (Hf (id, rj)); [|done].
    by apply elem_of_map_to_list.
Qed.

Lemma run_obj c O d np :
  Inv c (TRun d np :: O) → ∃ id rj, c_running c !! id = Some rj ∧ rj_done rj = d ∧ run_wf c id rj.
Proof.
  intros H. destruct (live_running _ _ d H) as (id&rj&Hr&Hd).
  { apply elem_of_app. right. apply runs_elem. exists np. by left. }
  exists id, rj. split_and!; [done..|]. by apply (i_run _ _ H).
Qed.

Lemma sp_with_rj {A} d (k : runningJob → M A) w Q rj :
  deref d w = Some rj → sp (k rj) w Q → sp (with_rj d k) w Q.
Proof. intros Hd H. unfold with_rj, sp, mbind, stM_bind, get. cbn. by rewrite Hd. Qed.

(** Any use of an object by name. *)
Lemma sp_with_rj_any {A} d (k : runningJob → M A) w (Q : res err A → world → Prop) :
  (∀ e, Q (Err e) w) → (∀ rj, obj (core_of w) d rj → sp (k rj) w Q) → sp (with_rj d k) w Q.
Proof.
  intros He H. destruct (deref d w) as [rj|] eqn:Hd.
  - eapply sp_with_rj; [done|]. apply H. by apply deref_obj.
  - unfold with_rj, sp, mbind, stM_bind, get. cbn. rewrite Hd. apply He.
Qed.

Lemma sp_alter_rj d f w (Q : res err unit → world → Prop) :
  (∀ w', core_of w' = set_rj d f (core_of w) → Q (Ok tt) w') → sp (alter_rj d f) w Q.
Proof. intros H. unfold sp, alter_rj, modify. cbn. by apply H. Qed.

Lemma GuarS_rj d f c : GuarS c (set_rj d f c).
Proof. by apply GuarS_same. Qed.

(** An update of an object that touches neither its stop state, its reason nor
    its cancellability. *)
Definition plain_rj (f : runningJob → runningJob) : Prop :=
  keeps_rj f ∧ ∀ r, rj_stopClosed (f r) = rj_stopClosed r ∧ rj_stopSignalled (f r) = rj_stopSignalled r ∧
    (rj_cancellable r = false → rj_cancellable (f r) = false) ∧ rj_reason (f r) = rj_reason r.

Lemma T_rj_plain c O d f : Inv c O → plain_rj f → Inv (set_rj d f c) O.
Proof.
  intros H [Hk Hp]. apply T_rj; [done|done|..].
  - intros rj _. unfold stop_wf. destruct (Hp rj) as (->&->&_&_). destruct (Hk rj) as [_ ->]. done.
  - intros rj r _ _ Hx Hpast. destruct (Hp rj) as (_&_&Hc&->). destruct (Hx Hpast). auto.
Qed.

Lemma plain_finished b : plain_rj (upd_rj_finished (λ _, b)).
Proof. split; intros r; done. Qed.
Lemma plain_ctx b : plain_rj (upd_rj_ctxCancelled (λ _, b)).
Proof. split; intros r; done. Qed.
Lemma plain_job f : (∀ j, same_job j (f j)) → plain_rj (upd_rj_job f).
Proof. intros Hf. split; intros r; [split; [apply Hf|done]|done]. Qed.

(** ** Asking a job to stop *)
Lemma wp_close_stopCh d : wp (atomic (close_stopCh d)) [TClose d] (λ _ O, O = []).
Proof.
  apply wp_atomic. intros w R HI. apply sp_alter_rj. intros w' Hc.
  apply fin_intro with (O := []); [rewrite Hc; apply GuarS_rj| |done].
  rewrite Hc. cbn [app]. assert (Inv (core_of w) R) as HI2 by (by eapply T_close_drop).
  apply T_rj; [done| |..].
  - intros r. done.
  - intros rj Hob Hst.
    assert (stop_wf (TClose d :: R) rj ∧ rj_done rj = d) as [Hs Hd].
    { destruct Hob as [(id&Hr&Hd)|Hr].
      - split; [exact (i_stop_run _ _ HI id rj Hr)|done].
      - split; [exact (i_stop_dead _ _ HI d rj Hr)|by apply (i_dead _ _ HI) in Hr as [? _]]. }
    unfold stop_wf in Hs. change (closes (TClose d :: R)) with (d :: closes R) in Hs.
    rewrite cnt_cons, Hd, decide_True in Hs by done. destruct Hs as [Hs1 Hs2].
    unfold stop_wf. cbn. rewrite Hd. split; [lia|]. intros _. apply Hs2. lia.
  - intros rj r _ _ Hx. exact Hx.
Qed.

(** Sets [stopSignalled] and a reason other than a cancel. *)
Lemma signal_fin d f w R w' rj :
  Inv (core_of w) R → obj (core_of w) d rj → rj_stopSignalled rj = false →
  keeps_rj f →
  (∀ r, rj_stopClosed (f r) = rj_stopClosed r ∧ rj_stopSignalled (f r) = true ∧
    rj_cancellable (f r) = rj_cancellable r ∧
    (rj_reason r ≠ reasonCancel → rj_reason (f r) ≠ reasonCancel)) →
  core_of w' = set_rj d f (core_of w) →
  Inv (core_of w') (TClose d :: R).
Proof.
  intros HI Hob Hss Hk Hf Hc. rewrite Hc.
  assert (rj_done rj = d ∧ stop_wf R rj ∧ d < c_next (core_of w)) as (Hd&[Hs1 Hs2]&Hn).
  { destruct Hob as [(id&Hr&Hd)|Hr].
    - split_and!; [done|by apply (i_stop_run _ _ HI id)|].
      destruct (i_run _ _ HI id rj Hr) as (_&_&?&_). by rewrite <- Hd.
    - pose proof (i_dead _ _ HI d rj Hr) as [? ?].
      split_and!; [done|by apply (i_stop_dead _ _ HI d)|done]. }
  assert (rj_stopClosed rj = 0 ∧ cnt d (closes R) = 0) as [Hz1 Hz2].
  { rewrite Hd in *. destruct (decide (rj_stopClosed rj + cnt d (closes R) = 0)); [lia|].
    rewrite Hs2 in Hss by lia. done. }
  apply T_close_take.
  - apply T_rj; [done|done|..].
    + intros rj' _ [Ha Hb]. destruct (Hf rj') as (Hx&Hy&_&_). destruct (Hk rj') as [_ Hz].
      unfold stop_wf. rewrite Hx, Hz. split; [done|]. by rewrite Hy.
    + intros rj' r' _ _ Hx Hp. destruct (Hx Hp). destruct (Hf rj') as (_&_&->&Hy). auto.
  - done.
  - intros rj' Hob'. assert (rj' = f rj) as ->.
    { destruct Hob as [(id&Hr&_)|Hr].
      - assert (obj (set_rj d f (core_of w)) d (f rj)) as Hof.
        { left. exists id. split; [|by destruct (Hk rj) as [_ ->]].
          apply set_rj_running. exists rj. by rewrite bool_decide_true. }
        destruct Hob' as [(id'&Hr'&Hd')|Hr'].
        + apply set_rj_running in Hr' as (r0&Hr0&->). case_bool_decide as Hbd.
          * f_equal. eapply (obj_inj _ _ d); [exact HI| |]; left; eauto.
          * done.
        + exfalso. cbn in Hr'. apply lookup_alter_Some in Hr' as [(_&r0&Hr0&_)|[? _]]; [|done].
          destruct (i_run _ _ HI id rj Hr) as (_&_&_&Hx). rewrite Hd in Hx. cbn in Hx. congruence.
      - destruct Hob' as [(id'&Hr'&Hd')|Hr'].
        + exfalso. apply set_rj_running in Hr' as (r0&Hr0&->).
          assert (rj_done r0 = d) as Hd0.
          { case_bool_decide; [done|]. done. }
          destruct (i_run _ _ HI id' r0 Hr0) as (_&_&_&Hx). rewrite Hd0 in Hx. congruence.
        + cbn in Hr'. apply lookup_alter_Some in Hr' as [(_&r0&Hr0&->)|[? _]]; [|done].
          f_equal. cbn in Hr. congruence. }
    destruct (Hf rj) as (->&->&_&_). done.
  - done.
Qed.
End objects.

Section wp_running.
Context `{E : Env}.
Implicit Types (O R : list tok).

Lemma wp_stop_for_maintenance d : wp (stop_for_maintenance d) [] emp.
Proof.
  unfold stop_for_maintenance. apply wp_bind, wp_atomic. intros w R HI.
  unfold signal_maintenance. apply sp_with_rj_any.
  { intros e. by eapply (fin_same _ _ []). }
  intros rj Hob. destruct (rj_stopSignalled rj) eqn:Hss.
  { apply sp_ret. by eapply (fin_same _ _ []). }
  apply sp_bind, sp_alter_rj. intros w' Hc. apply sp_ret.
  apply fin_intro with (O := [TClose d]); [rewrite Hc; apply GuarS_rj| |].
  - eapply signal_fin; [exact HI|exact Hob|done| | |exact Hc].
    + intros r. destruct (decide (rj_reason r = reasonNone)) as [Hn|Hn];
        [rewrite bool_decide_true by done|rewrite bool_decide_false by done]; done.
    + intros r. destruct (decide (rj_reason r = reasonNone)) as [Hn|Hn];
        [rewrite bool_decide_true by done|rewrite bool_decide_false by done]; done.
  - destruct (j_resumable (rj_job rj)).
    + apply wp_bind. eapply wp_mono; [|apply wp_close_stopCh]. intros r O ->. done.
    + apply wp_bind, wp_atomic. intros w2 R2 HI2. apply sp_alter_rj. intros w3 Hc3.
      apply fin_intro with (O := []); [rewrite Hc3; apply GuarS_rj| |done].
      rewrite Hc3. apply T_rj_plain; [by eapply T_close_drop|apply plain_ctx].
Qed.

Lemma wp_pause_each ds : wp (pause_each ds) [] emp.
Proof.
  induction ds as [|d ds IH]; cbn [pause_each]; [done|].
  apply wp_bind, wp_atomic. intros w R HI.
  unfold signal_battery. apply sp_with_rj_any.
  { intros e. eapply (fin_same _ _ []); [done|done|exact IH]. }
  intros rj Hob. destruct (rj_stopSignalled rj) eqn:Hss.
  { apply sp_ret. eapply (fin_same _ _ []); [done|done|exact IH]. }
  apply sp_bind, sp_alter_rj. intros w' Hc. apply sp_ret.
  apply fin_intro with (O := [TClose d]); [rewrite Hc; apply GuarS_rj| |].
  - by eapply signal_fin; [exact HI|exact Hob|done| | |exact Hc].
  - apply wp_bind. eapply wp_mono; [|apply wp_close_stopCh]. intros r O ->.
    apply wp_bind. eapply wp_mono; [|exact IH]. intros ids O ->. done.
Qed.

(** ** Callbacks of a run *)
Definition same_status (c c' : core) : Prop := ∀ x r, c_rows c !! x = Some r →
  ∃ r', c_rows c' !! x = Some r' ∧ j_status r' = j_status r.
Lemma same_status_Guar c c' : c_restore c = false → same_status c c' → Guar c c'.
Proof.
  intros Hr Hs. split; [congruence|]. intros x r Hx _. destruct (Hs x r Hx) as (r'&?&Hst).
  exists r'. by rewrite Hst.
Qed.
Lemma same_status_alter f id c : (∀ r, j_status (f r) = j_status r) → same_status c (set_rows (alter f id) c).
Proof.
  intros Hf x r Hx. eexists. split; [apply lookup_alter_Some'; eauto|]. by case_decide.
Qed.
Lemma same_status_trans c1 c2 c3 : same_status c1 c2 → same_status c2 c3 → same_status c1 c3.
Proof.
  intros H1 H2 x r Hx. destruct (H1 x r Hx) as (r1&Hr1&Hs1). destruct (H2 x r1 Hr1) as (r2&?&?).
  exists r2. split; [done|congruence].
Qed.

Lemma run_np_unique c O d np rj id :
  Inv c (TRun d np :: O) → c_running c !! id = Some rj → rj_done rj = d → TRun (rj_done rj) true ∉ O.
Proof.
  intros H Hr Hd Ht. pose proof (i_runs _ _ H d) as Hc. pose proof (i_dones _ _ H d) as Hl.
  change (runs (TRun d np :: O)) with (d :: runs O) in Hc.
  rewrite cnt_cons, decide_True in Hc by done.
  assert (0 < cnt d (runs O)); [|lia]. apply cnt_pos, runs_elem. exists true. by rewrite <- Hd.
Qed.

(** The checkpoint of the job a thread runs. *)
Lemma checkpoint_inv c O d id rj data :
  Inv c (TRun d false :: O) → c_running c !! id = Some rj → rj_done rj = d →
  (past (upd_j_checkpoint (λ _, data) (rj_job rj)) = true →
    rj_cancellable rj = false ∧ rj_reason rj ≠ reasonCancel) →
  Inv (set_rows (alter (upd_j_checkpoint (λ _, data)) id) c) (TRun d false :: O).
Proof.
  intros H Hr Hd Hp. eapply T_checkpoint; [done|exact Hr| |done].
  intros [Hx|Hx]%elem_of_cons; [congruence|]. by eapply run_np_unique in Hx.
Qed.

(** The releasing checkpoint, saved while no cancel has been accepted. *)
Lemma releasing_inv c O d id rj data :
  Inv c (TRun d false :: O) → c_running c !! id = Some rj → rj_done rj = d →
  rj_reason rj ≠ reasonCancel →
  Inv (set_rj d (λ r, upd_rj_cancellable (λ _, false) (upd_rj_job (upd_j_cancellable (λ _, false)) r))
    (set_rows (alter (upd_j_checkpoint (λ _, data)) id) c)) (TRun d false :: O).
Proof.
  intros H Hr Hd Hrc.
  set (f := λ r, upd_rj_cancellable (λ _, false) (upd_rj_job (upd_j_cancellable (λ _, false)) r)).
  assert (Inv (set_rj d f c) (TRun d false :: O)) as H1.
  { apply T_rj_plain; [done|]. split; intros r; done. }
  apply (checkpoint_inv (set_rj d f c) O d id (f rj) data); [exact H1| |done|done].
  apply set_rj_running. exists rj. by rewrite bool_decide_true.
Qed.

Lemma wp_keepForResume d :
  wp (keepForResume d) [TRun d false] (λ _ O, O = [TRun d false]).
Proof.
  unfold keepForResume. apply wp_atomic. intros w R HI. apply sp_with_rj_any.
  { intros e. by eapply fin_same. }
  intros rj Hob. case_bool_decide; [apply sp_ret; by eapply fin_same|].
  apply sp_bind, sp_alter_rj. intros w' Hc. apply sp_ret.
  apply fin_intro with (O := [TRun d false]); [rewrite Hc; apply GuarS_rj| |done].
  rewrite Hc. apply T_rj_plain; [done|apply plain_finished].
Qed.

Lemma wp_setProgress d pct :
  wp (setProgress d pct) [TRun d false] (λ _ O, O = [TRun d false]).
Proof.
  assert (wp (r ← atomic (
      _ ← alter_rj d (upd_rj_job (upd_j_progress (λ _, Some pct)));
      with_rj d (λ rj, mret (rj_job rj)));
    match r with Ok snapshot => publish snapshot | Err _ => Ret tt end)
    [TRun d false] (λ _ O, O = [TRun d false])) as Hrest.
  { apply wp_bind, wp_atomic. intros w R HI. apply sp_bind, sp_alter_rj. intros w' Hc.
    apply sp_with_rj_any.
    - intros e. apply fin_intro with (O := [TRun d false]); [rewrite Hc; apply GuarS_rj| |done].
      rewrite Hc. apply T_rj_plain; [done|]. by apply plain_job.
    - intros rj _. apply sp_ret.
      apply fin_intro with (O := [TRun d false]); [rewrite Hc; apply GuarS_rj| |by apply wp_publish].
      rewrite Hc. apply T_rj_plain; [done|]. by apply plain_job. }
  unfold setProgress. apply wp_bind, wp_atomic. intros w R HI. apply sp_with_rj_any.
  { intros e. eapply fin_same; [done|done|exact Hrest]. }
  intros rj Hob. apply sp_write.
  { intros e w' Hc. eapply fin_same; [done|done|exact Hrest]. }
  intros w' Hc. pose proof (tok_no_restore _ _ _ HI ltac:(intros; discriminate)) as Hr0.
  apply fin_intro with (O := [TRun d false]); [| |exact Hrest]; rewrite Hc.
  - apply GuarS_alter; [done|]. intros r Hr. done.
  - apply T_row; [done|intros r; done|]. intros _ r _ Hs. done.
Qed.

Lemma wp_saveCheckpoint d data :
  wp (saveCheckpoint d data) [TRun d false] (λ _ O, O = [TRun d false]).
Proof.
  unfold saveCheckpoint. apply wp_atomic. intros w R HI.
  destruct (run_obj _ _ _ _ HI) as (id&rj&Hr&Hd&(Hid&Hrow&_)).
  pose proof (tok_no_restore _ _ _ HI ltac:(intros; discriminate)) as Hr0.
  eapply sp_with_rj; [by eapply deref_running|].
  assert (∀ r w', core_of w' = core_of w →
    fin (core_of w) R (λ (_ : res err unit) O, O = [TRun d false]) r w') as Hsame.
  { intros r w' Hc. by eapply fin_same. }
  destruct (bool_decide _ && _) eqn:Hb.
  - unfold saveDiskUpgradeReleasing. eapply sp_with_rj; [by eapply deref_running|].
    destruct (decide (rj_reason rj = reasonCancel)) as [Hrc|Hrc].
    { rewrite (bool_decide_true (rj_reason rj = _)) by done. apply sp_bind, sp_throw. by apply Hsame. }
    rewrite (bool_decide_false (rj_reason rj = _)) by done. apply sp_bind, sp_ret. cbn zeta.
    apply sp_bind, sp_write; [by auto|]. intros w1 Hc1.
    apply sp_bind, sp_alter_rj. intros w2 Hc2. rewrite Hc1, Hid in Hc2.
    pose proof (same_status_alter (upd_j_checkpoint (λ _, data)) id (core_of w) ltac:(done)) as Hs1.
    pose proof (releasing_inv _ _ _ id rj data HI Hr Hd Hrc) as HI2. rewrite <- Hc2 in HI2.
    assert (same_status (core_of w) (core_of w2)) as Hs2.
    { intros x r Hx. rewrite Hc2. exact (Hs1 x r Hx). }
    apply sp_bind, sp_attempt, sp_write.
    + intros e w3 Hc3. apply sp_ret. split; [rewrite Hc3; by apply same_status_Guar|].
      exists [TRun d false]. by rewrite Hc3.
    + intros w3 Hc3. apply sp_ret. rewrite Hid in Hc3. split.
      * apply same_status_Guar; [done|]. eapply same_status_trans; [exact Hs2|]. rewrite Hc3.
        by apply same_status_alter.
      * exists [TRun d false]. split; [|done]. rewrite Hc3.
        apply T_row; [done|intros r; done|]. intros _ r _ Hs. done.
  - apply sp_write; [by auto|]. intros w' Hc. rewrite Hid in Hc.
    split; [rewrite Hc; apply same_status_Guar; [done|by apply same_status_alter]|].
    exists [TRun d false]. split; [|done].
    rewrite Hc. eapply checkpoint_inv; [done|done|done|].
    intros Hp. unfold past in Hp. cbn in Hp. by rewrite Hb in Hp.
Qed.

(** A token a thread no longer needs is dropped at its next action. *)
Lemma wp_drop_act {A} f (k : world → P A) id b Φ :
  wp (Act f k) [] Φ → wp (Act f k) [TOut id b] Φ.
Proof. intros H w R HI. apply (H w R). by eapply T_drop_out. Qed.

(** ** The end of a run *)
Lemma wp_settle_running d :
  wp (atomic (settle_running d)) [TRun d false]
    (λ r O, ∃ reason, r = Ok reason ∧ O = [TRun d (bool_decide (reason = reasonCancel))]).
Proof.
  apply wp_atomic. intros w R HI. apply sp_bind, sp_alter_rj. intros w' Hc.
  assert (Inv (core_of w') (TRun d false :: R)) as HI'.
  { rewrite Hc. apply T_rj_plain; [done|apply plain_finished]. }
  destruct (run_obj _ _ _ _ HI') as (id&rj&Hr&Hd&(Hid&(r0&Hr0&Ht&Hp)&_)).
  eapply sp_with_rj; [by eapply deref_running|]. apply sp_ret.
  apply fin_intro with (O := [TRun d (bool_decide (rj_reason rj = reasonCancel))]).
  - rewrite Hc. apply GuarS_rj.
  - case_bool_decide as Hrc; [|done]. eapply T_run_np; [exact HI'|].
    intros id' rj' r' Hr' Hd' Hrow'. assert (id' = id) as -> by (eapply done_inj; eauto; congruence).
    assert (rj' = rj) as -> by congruence. rewrite Hid in Hr0. assert (r' = r0) as -> by congruence.
    destruct (past r0); [|done]. by destruct Hp.
  - eauto.
Qed.

Lemma wp_remove_running d np :
  wp (atomic (remove_running d)) [TRun d np]
    (λ r O, ∃ j, r = Ok j ∧ O = [TOut (j_id j) np]).
Proof.
  apply wp_atomic. intros w R HI.
  destruct (run_obj _ _ _ _ HI) as (id&rj&Hr&Hd&(Hid&_)).
  eapply sp_with_rj; [by eapply deref_running|]. apply sp_bind, sp_upd, sp_bind.
  unfold sp at 1. cbn [modify fst snd]. apply sp_ret. rewrite Hid.
  apply fin_intro with (O := [TOut id np]); [by apply GuarS_same| |].
  - apply (T_run_out (core_of w) R d np id rj np HI Hr Hd). intros -> r Hrow.
    eapply (i_np _ _ HI); [by left|done..].
  - exists (rj_job rj). by rewrite Hid.
Qed.

Lemma wp_record_run d st code msg now j np :
  (st = StatusCancelled → np = true) →
  wp (record_run d st code msg now j) [TOut (j_id j) np] emp.
Proof.
  intros Hst.
  assert (∀ b : bool, wp (f ← atomic (finish_job d st code msg now);
    match f with
    | Err _ => Ret tt
    | Ok finished =>
        _ ← (if b then Ret tt else _ ← atomic (rememberTerminalSnapshot finished); Ret tt);
        _ ← publish finished; dispatch_call
    end) [] emp) as Hrest.
  { intros b. apply wp_bind, wp_atomic. intros w R HI. apply sp_bind, sp_alter_rj. intros w' Hc.
    assert (Inv (core_of w') R) as HI'.
    { rewrite Hc. apply T_rj_plain; [done|]. by apply plain_job. }
    assert (GuarS (core_of w) (core_of w')) as HG by (rewrite Hc; apply GuarS_rj).
    apply sp_with_rj_any; [intros e; by apply fin_intro with (O := [])|].
    intros rj _. apply sp_ret. apply fin_intro with (O := []); [done|done|].
    apply wp_bind. destruct b.
    - apply wp_bind, wp_publish. done.
    - apply wp_bind. eapply wp_quiet; [apply quiet_rememberTerminalSnapshot|]. intros r.
      apply wp_bind, wp_publish. done. }
  unfold record_run. apply wp_bind.
  eapply wp_mono; [|by apply wp_with_retries].
  intros [[]|e] O ->; cbn [is_ok]; [apply (Hrest true)|].
  apply wp_drop_act. exact (Hrest false).
Qed.

Lemma wp_time_now O (Φ : res err Z → list tok → Prop) :
  (∀ now, Φ (Ok now) O) → wp (atomic time_now) O Φ.
Proof.
  intros HΦ. apply wp_atomic. intros w R HI. eapply sp_quiet; [apply quiet_time_now_ok|].
  intros [now|e] w' Hc Hok; [|done]. by eapply fin_same.
Qed.

Lemma wp_runJob_returned d runErr :
  run_contract runErr → wp (runJob_returned d runErr) [TRun d false] emp.
Proof.
  intros Hc. unfold runJob_returned. apply wp_bind.
  eapply wp_mono; [|apply wp_settle_running]. intros r O (reason&->&->).
  apply wp_bind, wp_time_now. intros now.
  destruct (outcome runErr reason) as [[st code] msg] eqn:Ho.
  apply wp_bind. eapply wp_mono; [|apply wp_remove_running]. intros r O (j&->&->).
  apply (wp_seq_emp _ _ [_] []).
  - apply wp_record_run. intros ->. apply bool_decide_eq_true. by eapply outcome_cancelled.
  - intros _. apply wp_bind. eapply wp_quiet with (T := any); [|done]. intros w. done.
Qed.
End wp_running.
