(* ===== verification/SchedWpApi.v ===== *)
(** * The scheduler's entry points keep the invariant

    [Submit], [Cancel], [Resume], the maintenance mode, the on-battery hold
    and the database restore, each started with no token and ending with none. *)
From S2P Require Export SchedWpRun.
Open Scope nat_scope.
Open Scope list_scope.

Section wp_submit.
Context `{E : Env}.
Implicit Types (O R : list tok).

Lemma sp_create j w (Q : res err unit → world → Prop) :
  (∀ e w', core_of w' = core_of w → Q (Err e) w') →
  (c_rows (core_of w) !! j_id j = None →
    ∀ w', core_of w' = set_rows (insert (j_id j) j) (core_of w) → Q (Ok tt) w') →
  sp (store_Create j) w Q.
Proof.
  intros He Ho. unfold store_Create. apply sp_bind. eapply sp_quiet; [apply quiet_statement|].
  intros [[]|e] w' Hc _; [|by apply He]. apply sp_bind. unfold sp at 1. cbn [get fst snd].
  destruct (w_rows w' !! j_id j) eqn:Hr; [by apply He|].
  unfold sp, modify. cbn. apply Ho; [by rewrite <- Hc|by rewrite <- Hc].
Qed.

Lemma created c O j n :
  Inv c O → c_restore c = false → c_rows c !! j_id j = None → env_uuid n = j_id j →
  status_active (j_status j) = true → past j = false →
  let c' := set_rows (insert (j_id j) j) c in
  GuarS c c' ∧ Inv c' (TOut (j_id j) false :: O) ∧ cnt (j_id j) (abs O) = 0.
Proof.
  intros H Hr Hn Hu Hst Hp. cbn. destruct (fresh_nowhere _ _ _ _ H Hn Hu) as (Hpl&Ha&Hs).
  split_and!; [| |done].
  - split; [cbn; congruence|]. intros id r Hid. exists r. split; [|done]. cbn.
    rewrite lookup_insert_ne; [done|]. intros <-. congruence.
  - eapply (T_acquire _ _ _ false j); [by apply T_insert_row|done|done|done|done| |done|done].
    cbn. by rewrite lookup_insert_eq.
Qed.

Lemma GuarS_queue_app c q : GuarS c (set_queue (λ l, (l ++ [q])%list) c).
Proof. by apply GuarS_same. Qed.

(** The tail of an admission: the job, whose row is written, goes into the
    queue or starts. *)
Lemma admit_fin c0 w R id b j canc (Q : res err unit → world → Prop) :
  GuarS c0 (core_of w) → Inv (core_of w) (TOut id b :: R) → cnt id (abs R) = 0 → j_id j = id →
  row_ok (core_of w) j (λ r, past r = true → canc = false) →
  ((∀ id2 a2, act (core_of w) id2 = Some a2 → clash (j_class j, j_resourceIDs j) a2 = false) ∨
    j_status j = StatusQueued) →
  (∀ w', GuarS c0 (core_of w') → Inv (core_of w') R → Q (Ok tt) w') →
  sp (if bool_decide (j_status j = StatusQueued)
      then upd (upd_s_queue (λ q, (q ++ [mkQueued j canc false])%list))
      else startJobLocked j canc) w Q.
Proof.
  intros HG HI Ha Hid Hrow Hcl HQ. case_bool_decide as Hst.
  - apply sp_upd, HQ.
    + eapply GuarS_trans; [exact HG|]. by apply GuarS_same.
    + apply (T_enqueue (core_of w) R id b (mkQueued j canc false)); [done|done|done|]. by split.
  - apply sp_start. intros w' Hc. apply HQ; rewrite Hc.
    + eapply GuarS_trans; [exact HG|]. apply GuarS_start.
    + rewrite Hid. eapply start_out; [done|done|done|done|]. by destruct Hcl.
Qed.

Lemma sp_finishSubmit t class res params entry ran w R Q :
  Inv (core_of w) R → c_restore (core_of w) = false →
  (∀ r w', GuarS (core_of w) (core_of w') → Inv (core_of w') R → Q r w') →
  sp (finishSubmitLocked t class res params entry ran) w Q.
Proof.
  intros HI Hr HQ. unfold finishSubmitLocked. apply sp_bind.
  eapply sp_quiet; [apply quiet_time_now_ok|]. intros [now|?] w1 Hc1 Hok; [|done]. clear Hok.
  apply sp_bind. unfold sp at 1. cbn [next_call fst snd].
  set (n := w_tick w1). set (w2 := upd_w_tick S w1).
  assert (core_of w2 = core_of w) as Hc2 by (rewrite <- Hc1; done).
  apply sp_bind, sp_sched. cbn zeta. set (j0 := mkJob _ _ _ _ _ _ _ _ _ _ _ _ _ _ _).
  destruct (if hasConflictWithRunningLocked _ _ _ then _ else _) as [j deferred] eqn:Hj.
  assert (j_id j = env_uuid n ∧ status_active (j_status j) = true ∧ past j = false ∧
    j_class j = class ∧ j_resourceIDs j = res ∧ j_type j = t ∧
    (hasConflictWithRunningLocked (w_sched w2) class res = false ∨ j_status j = StatusQueued))
    as (Hid&Hst&Hp&Hcls&Hres&Hty&Hcf).
  { assert (past j0 = false) as Hp0 by (unfold past; cbn; apply andb_false_r).
    destruct (hasConflictWithRunningLocked _ _ _); [|destruct (takesTopologyBackup _ _ && _)];
      simplify_eq; split_and!; try done; auto. }
  clearbody j0. apply sp_bind, sp_wrapped, sp_create.
  - intros e w3 Hc3. apply HQ; rewrite Hc3, Hc2; [apply GuarS_refl|done].
  - intros Hn w3 Hc3. rewrite Hc2 in Hn, Hc3.
    destruct (created _ _ j n HI Hr Hn (eq_sym Hid) Hst Hp) as (HG&HI3&Ha). rewrite <- Hc3 in HG, HI3.
    apply sp_bind. eapply admit_fin; [exact HG|exact HI3|exact Ha|done| | |].
    + exists j. rewrite Hc3. cbn. rewrite lookup_insert_eq. split_and!; [done..|]. congruence.
    + destruct Hcf as [Hcf|?]; [left|by right]. rewrite Hcls, Hres.
      intros id2 a2 Ha2. eapply (conflict_none w2); [exact Hcf|]. rewrite Hc2. by rewrite Hc3 in Ha2.
    + intros w4 HG4 HI4. apply sp_ret. by apply HQ.
Qed.

Lemma wp_submit_backup t class res O Φ :
  (∀ r, Φ r O) → wp (submit_backup t class res) O Φ.
Proof.
  intros HΦ. unfold submit_backup. destruct (takesTopologyBackup _ _); [|apply HΦ].
  apply wp_bind. eapply wp_quiet with (T := any).
  - apply quiet_bind_any; [eapply quiet_any, quiet_admitLocked|]. intros _. quiet.
  - intros [[]|e]; [apply HΦ| |apply HΦ]. cbn [negb].
    apply wp_bind, wp_runTopologyBackup. intros [[]|e]; apply HΦ.
Qed.

Lemma wp_Submit t res params : wp (Submit t res params) [] emp.
Proof.
  unfold Submit. destruct (submit_entry t params) as [entry|e]; [|done]. cbn zeta.
  apply wp_bind, wp_submit_backup. intros [ran|e]; [|done].
  apply wp_bind, wp_atomic. intros w R HI. apply sp_bind.
  eapply sp_quiet; [apply quiet_admitLocked|].
  intros [[]|e] w' Hc Hr; [|by eapply (fin_same _ _ [])].
  specialize (Hr eq_refl). rewrite <- Hc in *.
  apply (sp_finishSubmit _ _ _ _ _ _ _ _ _ HI Hr). intros r w2 HG HI2.
  eapply fin_intro with (O := []); [done|done|]. destruct r as [[j deferred]|e]; [|done].
  apply wp_bind, wp_publish, wp_bind. by destruct deferred.
Qed.
End wp_submit.

Section wp_resume.
Context `{E : Env}.
Implicit Types (O R : list tok).

Lemma sp_throw_if b e w (Q : res err unit → world → Prop) :
  (b = true → Q (Err e) w) → (b = false → Q (Ok tt) w) → sp (throw_if b e) w Q.
Proof. destruct b; intros H1 H2; [by apply H1|by apply H2]. Qed.

Lemma sp_resumable id w (Q : res err (Job * registryEntry) → world → Prop) :
  (∀ e w', core_of w' = core_of w → Q (Err e) w') →
  (∀ ex en w', core_of w' = core_of w → c_restore (core_of w) = false →
    c_rows (core_of w) !! id = Some ex → j_status ex = StatusInterrupted → Q (Ok (ex, en)) w') →
  sp (resumableJobLocked id) w Q.
Proof.
  intros He Ho. unfold resumableJobLocked. apply sp_bind, sp_sched, sp_bind, sp_throw_if; [by auto|].
  intros Hr. apply sp_bind. eapply sp_quiet; [apply quiet_store_Get|].
  intros [ex|e] w1 Hc1 Hrow; [|by apply He]. specialize (Hrow ex eq_refl).
  apply sp_bind, sp_throw_if; [by auto|]. intros _.
  apply sp_bind, sp_throw_if; [by auto|]. intros Hst%negb_false_iff%bool_decide_eq_true.
  apply sp_bind, sp_throw_if; [by auto|]. intros _.
  apply sp_bind. destruct (lookup_entry _) as [en|]; [|apply sp_throw; by auto].
  apply sp_ret, sp_bind.
  assert (quiet (if bool_decide (j_type ex = TypeDiskUpgradeData)
    then throw_if (negb (s_maintenance (w_sched w))) (ESentinel S_ArrayNotStopped)
    else throw_if (s_maintenance (w_sched w)) (ESentinel S_MaintenanceMode)) any) as Hq by quiet.
  eapply sp_quiet; [exact Hq|]. intros [[]|e] w2 Hc2 _; [|apply He; congruence].
  apply sp_bind, sp_throw_if; [intros _; apply He; congruence|]. intros _.
  apply sp_bind. eapply sp_quiet; [apply quiet_admitMigrationLocked|].
  intros [[]|e] w3 Hc3 _; [|apply He; congruence].
  apply sp_ret, Ho; [congruence|done|done|done].
Qed.

Lemma inactive_nowhere c O id r :
  Inv c O → c_rows c !! id = Some r → status_active (j_status r) = false → place c O id = 0.
Proof.
  intros H Hr Hs. destruct (decide (place c O id = 0)) as [|Hn]; [done|].
  destruct (i_row _ _ H id) as (r'&?&?); [lia|congruence].
Qed.

Lemma sp_resume_admit id ex ex1 canc w R Q :
  Inv (core_of w) R → c_restore (core_of w) = false →
  c_rows (core_of w) !! id = Some ex1 → status_active (j_status ex1) = false →
  past ex1 = past ex → j_type ex1 = j_type ex → j_id ex = id →
  (past ex = true → canc = false) → cnt id (abs R) = 0 → cnt id (ress R) = 0 →
  (∀ r w', GuarS (core_of w) (core_of w') → Inv (core_of w') R → Q r w') →
  sp (resume_admit id ex canc) w Q.
Proof.
  intros HI Hr Hrow Hina Hpast Hty Hid Hcanc Ha Hs HQ. unfold resume_admit.
  apply sp_bind. eapply sp_quiet; [apply quiet_time_now_ok|].
  intros [now|?] w1 Hc1 Hok; [|done]. clear Hok. rewrite <- Hc1 in *.
  apply sp_bind, sp_sched. cbn zeta.
  set (cf := hasConflictWithRunningLocked _ _ _).
  set (j := upd_j_cancellable _ _).
  assert (j_id j = id ∧ j_type j = j_type ex ∧ j_class j = j_class ex ∧
    j_resourceIDs j = j_resourceIDs ex ∧ status_active (j_status j) = true ∧
    (cf = false ∨ j_status j = StatusQueued)) as (Hjid&Hjt&Hjc&Hjr&Hja&Hcf).
  { subst j. destruct cf; cbn; auto 10. }
  clearbody j. apply sp_bind, sp_wrapped, sp_write.
  { intros e w2 Hc2. apply HQ; rewrite Hc2; [apply GuarS_refl|done]. }
  intros w2 Hc2. set (f := set_status _ _ _ _ _ _) in Hc2.
  assert (GuarS (core_of w1) (core_of w2)) as HG.
  { rewrite Hc2. apply GuarS_alter; [done|]. intros r Hr1. split; [done|].
    subst f. cbn. intros _ Hx. by rewrite Hx in Hja. }
  assert (Inv (core_of w2) (TOut id false :: R)) as HI2.
  { pose proof (inactive_nowhere _ _ _ _ HI Hrow Hina) as Hpl.
    rewrite Hc2. eapply (T_acquire _ _ _ false (f ex1)); [|done|exact Hpl|done|done| |done|done].
    - apply T_row; [done|done|]. rewrite Hpl. lia.
    - apply lookup_alter_Some'. exists ex1. by rewrite decide_True. }
  apply sp_bind. eapply admit_fin; [exact HG|exact HI2|exact Ha|done| | |].
  - exists (f ex1). rewrite Hc2. split_and!.
    + apply lookup_alter_Some'. exists ex1. rewrite Hjid, decide_True by done. done.
    + cbn. congruence.
    + intros Hp. apply Hcanc. rewrite <- Hpast. exact Hp.
  - destruct Hcf as [Hcf|?]; [left|by right]. rewrite Hjc, Hjr. intros id2 a2 Ha2.
    eapply (conflict_none w1); [exact Hcf|]. by rewrite Hc2 in Ha2.
  - intros w3 HG3 HI3. apply sp_ret. by apply HQ.
Qed.

Lemma sp_resume_commit id ex en w R Q :
  Inv (core_of w) R → c_restore (core_of w) = false →
  c_rows (core_of w) !! id = Some ex → j_status ex = StatusInterrupted →
  cnt id (abs R) = 0 → cnt id (ress R) = 0 →
  (∀ r w', GuarS (core_of w) (core_of w') → Inv (core_of w') R → Q r w') →
  sp (resume_commit id ex en) w Q.
Proof.
  intros HI Hr Hrow Hst Ha Hs HQ. unfold resume_commit. cbn zeta.
  set (canc := if _ && _ then false else re_cancellable en).
  assert (past ex = true → canc = false) as Hcanc.
  { unfold past, canc. by intros ->. }
  assert (j_id ex = id) as Hid by (by apply (i_keys _ _ HI)).
  assert (status_active (j_status ex) = false) as Hina by (by rewrite Hst).
  pose proof (inactive_nowhere _ _ _ _ HI Hrow Hina) as Hpl.
  apply sp_bind. case_bool_decide.
  - apply sp_ret. by eapply sp_resume_admit.
  - apply sp_wrapped, sp_write.
    + intros e w1 Hc1. apply HQ; rewrite Hc1; [apply GuarS_refl|done].
    + intros w1 Hc1. set (f := upd_j_cancellable _) in Hc1.
      assert (GuarS (core_of w) (core_of w1)) as HG by (rewrite Hc1; by apply GuarS_alter).
      assert (Inv (core_of w1) R) as HI1.
      { rewrite Hc1. apply T_row; [done|done|]. rewrite Hpl. lia. }
      eapply (sp_resume_admit id ex (f ex)); try done.
      * by rewrite Hc1.
      * rewrite Hc1. apply lookup_alter_Some'. exists ex. by rewrite decide_True.
      * intros r w' HG' HI'. apply HQ; [by eapply GuarS_trans|done].
Qed.

Lemma not_aborting_abs c O id : Inv c O → id ∉ c_aborting c → cnt id (abs O) = 0.
Proof. intros H Hn. apply cnt_zero. intros Hx. by apply Hn, (i_aborting _ _ H). Qed.
Lemma not_resuming_ress c O id : Inv c O → id ∉ c_resuming c → cnt id (ress O) = 0.
Proof. intros H Hn. apply cnt_zero. intros Hx. by apply Hn, (i_resuming _ _ H). Qed.

Lemma wp_resume_begin id :
  wp (atomic (resume_begin id)) [] (λ r O, O = match r with Ok None => [TRes id] | _ => [] end).
Proof.
  apply wp_atomic. intros w R HI. unfold resume_begin. cbn [app] in HI.
  assert (∀ e w', core_of w' = core_of w → fin (core_of w) R
    (λ r O, O = match r with Ok None => [TRes id] | _ => [] end) (Err (E := err) (A := option Job) e) w') as Hsame.
  { intros e w' Hc. by eapply (fin_same _ _ []). }
  apply sp_bind, sp_sched, sp_bind, sp_throw_if; [by auto|]. intros Hab%bool_decide_eq_false.
  apply sp_bind, sp_throw_if; [by auto|]. intros Hre%bool_decide_eq_false.
  pose proof (not_aborting_abs _ _ _ HI Hab) as Ha. pose proof (not_resuming_ress _ _ _ HI Hre) as Hs.
  apply sp_bind, sp_resumable; [by auto|]. intros ex en w1 Hc1 Hr Hrow Hst.
  destruct env_logs.
  - apply sp_bind, sp_upd, sp_ret. apply fin_intro with (O := [TRes id]); [| |done].
    + rewrite <- Hc1. by apply GuarS_same.
    + rewrite <- Hc1 in HI, Hr, Hrow. eapply (T_res_take (core_of w1)); [done..|]. by rewrite Hst.
  - rewrite <- Hc1 in *. apply sp_bind. eapply sp_resume_commit; [done..|].
    intros r w2 HG HI2. destruct r; [apply sp_ret|]; by apply fin_intro with (O := []).
Qed.

Lemma wp_resume_end id : wp (atomic (resume_end id)) [TRes id] emp.
Proof.
  apply wp_atomic. intros w R HI. unfold resume_end.
  destruct (i_resuming _ _ HI id) as (_&Ha&_&_); [by left|].
  assert (cnt id (ress R) = 0) as Hs.
  { pose proof (i_ress _ _ HI id) as Hx. change (ress ([TRes id] ++ R)) with (id :: ress R) in Hx.
    rewrite cnt_cons, decide_True in Hx by done. lia. }
  apply sp_bind, sp_upd. set (w1 := upd_w_sched _ w).
  assert (Inv (core_of w1) R) as HI1 by exact (T_res_release _ _ _ HI).
  assert (GuarS (core_of w) (core_of w1)) as HG by (by apply GuarS_same).
  apply sp_bind, sp_resumable.
  { intros e w' Hc. apply fin_intro with (O := []); [by rewrite Hc|by rewrite Hc|done]. }
  intros ex en w2 Hc2 Hr Hrow Hst. rewrite <- Hc2 in *.
  eapply sp_resume_commit; [done..|]. intros r w3 HG3 HI3.
  apply fin_intro with (O := []); [by eapply GuarS_trans|done|done].
Qed.

Lemma wp_Resume id : wp (Resume id) [] emp.
Proof.
  unfold Resume. apply wp_bind. eapply wp_mono; [|apply wp_resume_begin].
  intros [[j|]|e] O ->; [|apply wp_bind|done].
  - by apply wp_bind, wp_ret, wp_bind, wp_publish.
  - eapply wp_mono; [|apply wp_resume_end].
    intros [j|e] O ->; [|done]. by apply wp_bind, wp_publish.
Qed.
End wp_resume.

Section wp_cancel.
Context `{E : Env}.
Implicit Types (O R : list tok).

(** A program whose first action is taken in a world that satisfies [C]. *)
Definition wp_first {A} (C : world → Prop) (p : P A) (Φ : A → list tok → Prop) : Prop :=
  match p with
  | Act f k => ∀ w R, C w → Inv (core_of w) R → Guar (core_of w) (core_of (f w)) ∧
      ∃ O', Inv (core_of (f w)) (O' ++ R) ∧ wp (k w) O' Φ
  | _ => wp p [] Φ
  end.
Lemma wp_wp_first {A} C (p : P A) Φ : wp p [] Φ → wp_first C p Φ.
Proof. destruct p; cbn; auto. Qed.

(** Who may end the job [id], and what the thread holds before and after. *)
Definition writes (id : string) (O1 O2 : list tok) : Prop :=
  ∀ c R, Inv c (O1 ++ R) →
    Inv c (O2 ++ R) ∧
    ∀ st p code msg sa fa, let c' := set_rows (alter (set_status st p code msg sa fa) id) c in
      GuarS c c' ∧ Inv c' (O2 ++ R).

Lemma writes_out id O : writes id (TOut id true :: O) O.
Proof.
  intros c R H. split; [by eapply T_drop_out|]. intros. by apply (out_row c id true (O ++ R)).
Qed.
Lemma writes_abX id : writes id [TAbX id] [TAbX id].
Proof.
  intros c R H. split; [done|]. intros. destruct (i_abX _ _ H id) as (Hpl&r0&Hr0&Hp0); [by left|].
  pose proof (tok_no_restore _ _ _ H ltac:(intros; discriminate)) as Hr.
  split.
  - apply GuarS_alter; [done|]. intros r Hrow. split; [done|]. congruence.
  - apply T_row; [done|apply keeps_set_status|]. rewrite Hpl. lia.
Qed.

Lemma wp_end_status j id st code msg O1 O2 (Φ : res err Z → list tok → Prop) :
  j_id j = id → writes id O1 O2 → (∀ r, Φ r O2) → wp (atomic (end_status j st code msg)) O1 Φ.
Proof.
  intros <- Hw HΦ. apply wp_atomic. intros w R HI. unfold end_status.
  apply sp_bind. eapply sp_quiet; [apply quiet_time_now_ok|].
  intros [now|?] w1 Hc1 Hok; [|done]. clear Hok. rewrite <- Hc1 in *.
  destruct (Hw _ _ HI) as [Hd Hwr]. apply sp_bind, sp_write.
  - intros e w2 Hc2. apply fin_intro with (O := O2); [rewrite Hc2; apply GuarS_refl|by rewrite Hc2|done].
  - intros w2 Hc2. apply sp_ret. destruct (Hwr st (j_progress j) code msg (j_startedAt j) (Some now)) as [HG HI2].
    apply fin_intro with (O := O2); [by rewrite Hc2|by rewrite Hc2|done].
Qed.

Lemma wp_abortAndCancel j id b O1 O2 (Φ : res err Job → list tok → Prop) :
  j_id j = id → writes id O1 O2 → (∀ r, Φ r O2) → wp (abortAndCancel j b) O1 Φ.
Proof.
  intros Hid Hw HΦ. unfold abortAndCancel.
  assert (∀ a : res err unit, wp (match a with
    | Err e => abort_failed j e
    | Ok _ => r ← atomic (end_status j StatusCancelled "" "");
        match r with
        | Err e => Ret (Err (wrap ("job: cancelling job " +:+ j_id j +:+ ": ") e))
        | Ok now => _ ← publish (ended j StatusCancelled "" "" now); Ret (Ok (ended j StatusCancelled "" "" now))
        end
    end) O1 Φ) as Hrest.
  { intros [[]|e].
    - apply wp_bind. eapply wp_end_status; [done|done|]. intros [now|e]; [|apply HΦ].
      apply wp_bind, wp_publish, wp_ret, HΦ.
    - unfold abort_failed. apply wp_bind. eapply wp_end_status; [done|done|].
      intros [now|e']; [|apply HΦ]. apply wp_bind, wp_publish, wp_ret, HΦ. }
  apply wp_bind. destruct b; [|apply (Hrest (Ok tt))].
  eapply wp_quiet with (T := any); [|exact Hrest]. unfold call_abort. quiet.
Qed.

Lemma wp_releaseAbort t id Φ :
  holds_abort t id → Φ tt [] → wp (releaseAbort id) [t] Φ.
Proof.
  intros Ht HΦ. unfold releaseAbort. apply wp_bind, wp_atomic. intros w R HI. apply sp_upd.
  apply fin_intro with (O := []); [by apply GuarS_same| |done].
  exact (T_ab_release _ _ _ _ HI Ht).
Qed.

Lemma cancel_check_ok r :
  cancel_check r = None → status_active (j_status r) = false ∧ past r = false.
Proof.
  unfold cancel_check. case_bool_decide as Hst; [|done]. cbn. rewrite Hst.
  unfold past. destruct (bool_decide _ && _); [done|]. done.
Qed.

Lemma wp_cancel_interrupted id :
  wp (cancel_interrupted id) [TAbI id] (λ _ O, ∃ t, O = [t] ∧ holds_abort t id).
Proof.
  unfold cancel_interrupted. apply wp_bind, wp_atomic. intros w R HI.
  eapply sp_quiet; [apply quiet_store_Get|]. intros [r|e] w' Hc Hr.
  - specialize (Hr r eq_refl). destruct (cancel_check r) as [e|] eqn:Hck.
    + eapply fin_same; [done|done|]. rewrite ?Hck. apply wp_ret. exists (TAbI id). split; [done|by left].
    + destruct (cancel_check_ok _ Hck) as [Hst Hp].
      apply fin_intro with (O := [TAbX id]); rewrite ?Hc, ?Hck; [apply GuarS_refl|by eapply T_abI_X|].
      eapply wp_abortAndCancel; [by apply (i_keys _ _ HI)|apply writes_abX|].
      intros _. exists (TAbX id). split; [done|by right].
  - eapply fin_same; [done|done|]. rewrite ?Hck. apply wp_ret. exists (TAbI id). split; [done|by left].
Qed.

Lemma alter_running_set_rj c O id rj g :
  Inv c O → c_running c !! id = Some rj → set_running (alter g id) c = set_rj (rj_done rj) g c.
Proof.
  intros H Hr. unfold set_rj, set_running, set_dead. f_equal; cbn.
  - apply map_eq. intros x. rewrite lookup_fmap. destruct (decide (id = x)) as [<-|Hne].
    + rewrite lookup_alter_eq, Hr. cbn. by rewrite bool_decide_true.
    + rewrite lookup_alter_ne by done. destruct (c_running c !! x) as [rx|] eqn:Hx; cbn; [|done].
      rewrite bool_decide_false; [done|]. intros Hd. apply Hne. symmetry. by eapply done_inj.
  - apply map_eq. intros d. destruct (decide (rj_done rj = d)) as [<-|].
    + rewrite lookup_alter_eq. destruct (i_run _ _ H id rj Hr) as (_&_&_&->). done.
    + by rewrite lookup_alter_ne.
Qed.

(** What the first lock hold leaves the thread with. *)
Definition cancel_toks (id : string) (r : res err cancelDecision) : list tok :=
  match r with
  | Ok (CancelQueued _ _) => [TOut id true]
  | Ok (CancelQueuedAbort _) => [TOut id true; TAbI id]
  | Ok CancelInterrupted => [TAbI id]
  | _ => []
  end.
Definition cancel_job_ok (id : string) (r : res err cancelDecision) : Prop :=
  match r with
  | Ok (CancelQueuedAbort j) => j_id j = id
  | _ => True
  end.
Definition cancel_post (id : string) (r : res err cancelDecision) (O : list tok) : Prop :=
  O = cancel_toks id r ∧ cancel_job_ok id r.

Lemma sp_cancel_dispatching id q w R :
  Inv (core_of w) R → c_disp (core_of w) !! id = Some q →
  sp (cancel_dispatching id q) w (fin (core_of w) R (cancel_post id)).
Proof.
  intros HI Hq. unfold cancel_dispatching. destruct (negb _ && _) eqn:Hb.
  - apply sp_throw. by eapply (fin_same _ _ []).
  - apply sp_bind, sp_upd, sp_ret. apply fin_intro with (O := []); [by apply GuarS_same| |done].
    apply (T_cancelreq (core_of w) R id q HI Hq). intros Ht. rewrite Ht in Hb.
    destruct (q_cancellable q); [done|]. cbn in Hb. by rewrite bool_decide_true in Hb.
Qed.

Lemma sp_cancel_running id rj w R :
  Inv (core_of w) R → c_running (core_of w) !! id = Some rj →
  sp (cancel_running id rj) w (fin (core_of w) R (cancel_post id)).
Proof.
  intros HI Hr. unfold cancel_running.
  destruct (rj_finished rj); [apply sp_throw; by eapply (fin_same _ _ [])|].
  destruct (rj_cancellable rj) eqn:Hcn; cbn [negb].
  2: { case_bool_decide; apply sp_throw; by eapply (fin_same _ _ []). }
  apply sp_bind, sp_upd, sp_ret. apply fin_intro with (O := []); [by apply GuarS_same| |done].
  set (g := λ r, upd_rj_ctxCancelled (λ _, true) (upd_rj_reason (λ _, reasonCancel) r)).
  change (Inv (set_running (alter g id) (core_of w)) R).
  rewrite (alter_running_set_rj _ _ _ _ _ HI Hr). apply T_rj; [done|intros r; done|intros r _; done|].
  intros rj' r Hob _ Hx Hp. exfalso.
  assert (rj' = rj) as -> by (eapply obj_inj; [exact HI|exact Hob|left; eauto]).
  destruct (Hx Hp). congruence.
Qed.

Lemma sp_cancel_queued id i q w R :
  Inv (core_of w) R → c_queue (core_of w) !! i = Some q → qid q = id →
  sp (cancel_queued id i q) w (fin (core_of w) R (cancel_post id)).
Proof.
  intros HI Hi Hid. unfold cancel_queued. destruct (negb _ && _) eqn:Hb.
  { apply sp_throw. by eapply (fin_same _ _ []). }
  assert (q ∈ c_queue (core_of w)) as Hq by (by eapply list_elem_of_lookup_2).
  pose proof (queue_no_abs _ _ _ HI Hq) as Ha. rewrite Hid in Ha.
  destruct (i_queue _ _ HI q Hq) as [(r0&Hr0&Ht0&Hp0) _].
  assert (0 < place (core_of w) R id) as Hpl.
  { unfold place. rewrite (in_mem_dequeue _ _ _ id Hi), Hid, decide_True by done. lia. }
  assert (Inv (set_queue (delete i) (core_of w)) (TOut id true :: R)) as HI2.
  { rewrite <- Hid. eapply T_dequeue; [done|done|]. intros _ r Hr. rewrite <- Hid in *.
    unfold qid in Hr. assert (r = r0) as -> by congruence.
    destruct (past r0) eqn:Hpa; [|done]. rewrite Hp0 in Hb by done. unfold past in Hpa.
    rewrite Ht0 in Hpa. by destruct (bool_decide (j_type (q_job q) = TypeDiskUpgradeData)). }
  apply sp_bind, sp_upd. set (w1 := upd_w_sched _ w).
  assert (core_of w1 = set_queue (delete i) (core_of w)) as Hc1 by done.
  rewrite <- Hc1 in HI2. assert (GuarS (core_of w) (core_of w1)) as HG by (by apply GuarS_same).
  destruct (lookupAbort _); cbn [negb].
  - apply sp_bind, sp_upd, sp_ret. apply fin_intro with (O := [TOut id true; TAbI id]).
    + eapply GuarS_trans; [exact HG|]. by apply GuarS_same.
    + eapply Inv_perm; [apply perm_swap|].
      apply (T_abI_take (core_of w1) (TOut id true :: R) id); [done| |done| | |].
      * by eapply (tok_no_restore _ _ _ HI2).
      * change (cnt id (ress R) = 0). apply cnt_zero. intros Hx.
        destruct (i_resuming _ _ HI id Hx) as (_&_&Hz&_). lia.
      * by destruct (out_place _ _ _ _ HI2).
      * left. rewrite <- Hid. by exists r0.
    + done.
  - apply sp_bind. eapply sp_quiet; [apply quiet_time_now_ok|].
    intros [now|?] w2 Hc2 Hok; [|done]. apply sp_ret.
    apply fin_intro with (O := [TOut id true]); rewrite ?Hc2; done.
Qed.

Lemma sp_cancel_locked id w R :
  known (core_of w) id → Inv (core_of w) R →
  sp (cancel_locked id) w (fin (core_of w) R (cancel_post id)).
Proof.
  intros Hk HI. unfold cancel_locked. apply sp_bind, sp_sched, sp_bind, sp_throw_if.
  { intros _. by eapply (fin_same _ _ []). }
  intros Hr. destruct (s_dispatching (w_sched w) !! id) as [q|] eqn:Hd; [by apply sp_cancel_dispatching|].
  destruct (s_running (w_sched w) !! id) as [rj|] eqn:Hrj; [by apply sp_cancel_running|].
  destruct (list_find _ _) as [[i q]|] eqn:Hf.
  { apply list_find_Some in Hf as (Hi&Hid&_). by apply sp_cancel_queued. }
  unfold cancel_interrupted_locked. apply sp_bind, sp_sched, sp_bind, sp_throw_if.
  { intros _. by eapply (fin_same _ _ []). }
  intros Hab%bool_decide_eq_false. apply sp_bind, sp_throw_if.
  { intros _. by eapply (fin_same _ _ []). }
  intros Hre%bool_decide_eq_false. apply sp_bind, sp_upd, sp_ret.
  apply fin_intro with (O := [TAbI id]); [by apply GuarS_same| |done].
  apply (T_abI_take (core_of w) R id); [done|done|by apply (not_aborting_abs _ _ _ HI)|
    by apply (not_resuming_ress _ _ _ HI)| |done].
  unfold in_mem, is_run, is_disp, qids. cbn. rewrite Hd, Hrj.
  assert (id ∉ map qid (s_queue (w_sched w))) as Hn; [|apply cnt_zero in Hn; lia].
  intros (q&Hq1&Hq2)%list_elem_of_In%in_map_iff.
  apply list_find_None in Hf. rewrite Forall_forall in Hf. apply list_elem_of_In in Hq2.
  by apply (Hf q).
Qed.

Lemma wp_Cancel id : wp_first (λ w, known (core_of w) id) (Cancel id) emp.
Proof.
  unfold Cancel. intros w R Hk HI.
  destruct (sp_cancel_locked id w R Hk HI) as (HG&O&HI2&->&Hj). split; [exact HG|].
  exists (cancel_toks id (cancel_locked id w).1). split; [exact HI2|].
  change (wp (match (cancel_locked id w).1 with
    | Ok d => match d with
      | CancelSnapshot j => Ret (Ok j)
      | CancelQueued j now =>
          r ← atomic (store_UpdateStatus id StatusCancelled (j_progress j) "" "" (j_startedAt j) (Some now));
          match r with
          | Err e => Ret (Err (wrap ("job: cancelling queued job " +:+ id +:+ ": ") e))
          | Ok _ => _ ← publish j; Ret (Ok j)
          end
      | CancelQueuedAbort j => r ← abortAndCancel j true; _ ← releaseAbort id; Ret r
      | CancelInterrupted => r ← cancel_interrupted id; _ ← releaseAbort id; Ret r
      end
    | Err e => Ret (Err e) end) (cancel_toks id (cancel_locked id w).1) emp).
  destruct ((cancel_locked id w).1) as [[j|j now|j|]|e]; cbn [cancel_toks].
  - done.
  - apply wp_bind, wp_atomic. intros w2 R2 HI3. destruct (writes_out id [] _ _ HI3) as [Hdr Hwr].
    apply sp_write.
    + intros e w3 Hc3. apply fin_intro with (O := []); rewrite ?Hc3; [apply GuarS_refl|done|done].
    + intros w3 Hc3. destruct (Hwr StatusCancelled (j_progress j) "" "" (j_startedAt j) (Some now)) as [HG3 HI4].
      apply fin_intro with (O := []); rewrite ?Hc3; [done|done|]. by apply wp_bind, wp_publish.
  - apply wp_bind. eapply wp_abortAndCancel; [exact Hj|apply writes_out|].
    intros r. apply wp_bind. eapply wp_releaseAbort; [by left|]. done.
  - apply wp_bind. eapply wp_mono; [|apply wp_cancel_interrupted]. intros r O (t&->&Ht).
    apply wp_bind. by eapply wp_releaseAbort.
  - done.
Qed.
End wp_cancel.

Section wp_modes.
Context `{E : Env}.
Implicit Types (O R : list tok).

Lemma T_dequeue_all l c O :
  Inv (with_queue l c) O → Inv (with_queue [] c) (map (λ q, TOut (qid q) false) l ++ O).
Proof.
  revert O. induction l as [|q l IH]; intros O H; [done|].
  cbn [map app]. eapply Inv_perm; [apply Permutation_sym, Permutation_middle|]. apply IH.
  exact (T_dequeue (with_queue (q :: l) c) O 0 q false H eq_refl ltac:(done)).
Qed.

Lemma wp_interrupt_queued now q : wp (interrupt_queued now q) [TOut (qid q) false] emp.
Proof.
  unfold interrupt_queued. cbn zeta. apply wp_bind, wp_atomic. intros w R HI. apply sp_write.
  - intros e w' Hc. apply fin_intro with (O := []); rewrite ?Hc; [apply GuarS_refl|by eapply T_drop_out|done].
  - intros w' Hc.
    destruct (out_row _ (qid q) false R StatusInterrupted (j_progress (q_job q)) "" ""
      (j_startedAt (q_job q)) (Some now) HI ltac:(done)) as [HG HI2].
    apply fin_intro with (O := []); rewrite ?Hc; [done|done|]. by apply wp_publish.
Qed.

Lemma quiet_set_maintenance m a : quiet (set_maintenance m a) any.
Proof. intros w. done. Qed.

Lemma wp_enterMaintenance persist : wp (enterMaintenance persist) [] emp.
Proof.
  unfold enterMaintenance. apply wp_bind, wp_atomic. intros w R HI.
  unfold enter_maintenance_locked. apply sp_bind.
  eapply sp_quiet with (T := any).
  { destruct persist; [apply quiet_wrapped; unfold persistMaintenanceLocked; quiet|quiet]. }
  intros [[]|e] w1 Hc1 _; [|by eapply (fin_same _ _ [])].
  apply sp_bind, sp_sched, sp_bind. eapply sp_quiet; [apply quiet_set_maintenance|].
  intros [[]|e] w2 Hc2 _; [|eapply (fin_same _ _ []); [done|congruence|done]].
  apply sp_bind, sp_upd, sp_ret. set (queue := s_queue (w_sched w1)).
  assert (queue = c_queue (core_of w2)) as Hq by (by rewrite Hc2).
  rewrite <- Hc1, <- Hc2 in *.
  apply fin_intro with (O := map (λ q, TOut (qid q) false) queue); [by apply GuarS_same| |].
  - rewrite Hq. apply (T_dequeue_all (c_queue (core_of w2)) (core_of w2)). exact HI.
  - apply wp_bind, wp_time_now. intros now. apply wp_bind.
    eapply wp_mono; [|apply wp_for_each; intros q _; apply wp_interrupt_queued].
    intros [] O ->. apply wp_bind.
    eapply wp_mono; [|apply wp_for_each_nil; intros d _; apply wp_stop_for_maintenance].
    intros [] O ->. done.
Qed.

Lemma wp_EnterMaintenanceTransient : wp EnterMaintenanceTransient [] emp.
Proof. apply wp_bind. eapply wp_mono; [|apply wp_enterMaintenance]. intros r O ->. done. Qed.

Lemma wp_wait_all what ds : wp (wait_all what ds) [] emp.
Proof. induction ds as [|d ds IH]; cbn; [done|]. split; [exact IH|done]. Qed.

Lemma wp_Drain : wp Drain [] emp.
Proof.
  apply wp_bind. eapply wp_quiet with (T := any); [quiet|].
  intros [ds|e]; [apply wp_wait_all|done].
Qed.

Lemma wp_await_each ds : wp (await_each ds) [] emp.
Proof. induction ds as [|d ds IH]; cbn; done. Qed.

Lemma wp_PauseForBattery : wp PauseForBattery [] emp.
Proof.
  apply wp_bind. eapply wp_quiet with (T := any).
  { unfold pause_locked. quiet. }
  intros [[ds|]|e]; [|done..]. apply wp_bind. eapply wp_mono; [|apply wp_pause_each].
  intros ids O ->. apply wp_bind. eapply wp_mono; [|apply wp_await_each]. intros [] O ->. done.
Qed.

Lemma wp_ResumeFromBattery : wp ResumeFromBattery [] emp.
Proof. apply wp_bind. eapply wp_quiet with (T := any); [intros w; done|]. done. Qed.

Lemma wp_BeginDatabaseRestore : wp (atomic BeginDatabaseRestore) [] emp.
Proof.
  apply wp_atomic. intros w R HI. unfold BeginDatabaseRestore.
  apply sp_bind, sp_sched, sp_bind, sp_throw_if; [intros _; by eapply (fin_same _ _ [])|].
  intros Hr. apply sp_bind, sp_throw_if; [intros _; by eapply (fin_same _ _ [])|].
  intros [Ha%negb_false_iff%bool_decide_eq_true Hs%negb_false_iff%bool_decide_eq_true]%orb_false_iff.
  apply sp_bind, sp_wrapped. eapply sp_quiet; [apply quiet_store_ListActive|].
  intros [l|e] w1 Hc1 Hact; [|by eapply (fin_same _ _ [])].
  apply sp_bind, sp_throw_if; [intros _; by eapply (fin_same _ _ [])|].
  intros ->%negb_false_iff%bool_decide_eq_true. specialize (Hact eq_refl).
  apply sp_upd. apply fin_intro with (O := []); [| |done].
  - split; [rewrite <- Hc1; done|]. intros id r Hid. exists r. rewrite <- Hc1 in Hid. done.
  - cbn [app]. rewrite <- Hc1 in HI, Hact. apply (T_restore (core_of w1)); try done.
    + by rewrite Hc1.
    + by rewrite Hc1.
Qed.

(** Calls that touch nothing the invariant reads. *)
Lemma wp_quiet_call {A} (m : M A) T : quiet m T → wp (atomic m) [] emp.
Proof. intros Hq. eapply wp_quiet; [exact Hq|done]. Qed.

Lemma quiet_ExitMaintenanceChecked : quiet ExitMaintenanceChecked any.
Proof. unfold ExitMaintenanceChecked, persistMaintenanceLocked. quiet. Qed.
Lemma quiet_ExitMaintenance : quiet ExitMaintenance any.
Proof.
  unfold ExitMaintenance. apply quiet_bind_any; [|intros ?; quiet].
  apply quiet_attempt, quiet_ExitMaintenanceChecked.
Qed.
Lemma quiet_markArrayStopped p : quiet (markArrayStopped p) any.
Proof. unfold markArrayStopped, persistMaintenanceLocked. quiet. Qed.
Lemma quiet_BeginArrayStart : quiet BeginArrayStart any.
Proof. unfold BeginArrayStart, persistMaintenanceLocked. quiet. Qed.
Lemma quiet_RestoreArrayStopped b : quiet (RestoreArrayStopped b) any.
Proof. unfold RestoreArrayStopped, persistMaintenanceLocked. quiet. Qed.
Lemma quiet_close_chan c : quiet (close_chan c) any.
Proof. intros w. done. Qed.
Lemma quiet_close_all cs : quiet (close_all cs) any.
Proof. induction cs; cbn [close_all]; [quiet|]. apply quiet_bind_any; [apply quiet_close_chan|done]. Qed.
Lemma quiet_BeginShareMutation : quiet BeginShareMutation any.
Proof. unfold BeginShareMutation. quiet. Qed.
Lemma quiet_BeginAppAction : quiet BeginAppAction any.
Proof. unfold BeginAppAction. quiet. Qed.
Lemma quiet_FinishShareMutation : quiet FinishShareMutation any.
Proof.
  unfold FinishShareMutation. apply quiet_bind_any; [apply quiet_sched|]. intros s.
  destruct (_ =? _)%Z; [quiet|]. apply quiet_bind_any; [intros w; done|]. intros _.
  destruct (_ =? _)%Z; [|quiet]. apply quiet_bind_any; [apply quiet_close_all|]. intros _ w. done.
Qed.
Lemma quiet_FinishAppAction : quiet FinishAppAction any.
Proof.
  unfold FinishAppAction. apply quiet_bind_any; [apply quiet_sched|]. intros s.
  destruct (_ =? _)%Z; [quiet|]. apply quiet_bind_any; [intros w; done|]. intros _.
  destruct (_ =? _)%Z; [|quiet]. apply quiet_bind_any; [apply quiet_close_all|]. intros _ w. done.
Qed.

Lemma wp_waiter (m : M (option nat)) what :
  (∀ w, core_of (m w).2 = core_of w ∨ core_of (m w).2 = set_next S (core_of w)) →
  wp (let! o := atomic m in
      match o with
      | None => Ret (Ok tt)
      | Some ch => wait_closed ch what (Ret (Ok tt))
      end)%go [] emp.
Proof.
  intros Hm. apply wp_bind, wp_atomic. intros w R HI. unfold sp. destruct (Hm w) as [Hc|Hc].
  - eapply (fin_same _ _ []); [done|done|]. by destruct ((m w).1) as [[c|]|e].
  - apply fin_intro with (O := []); rewrite ?Hc; [by apply GuarS_same|by apply T_next|].
    by destruct ((m w).1) as [[c|]|e].
Qed.
Lemma wp_DrainShareMutations : wp DrainShareMutations [] emp.
Proof.
  apply wp_waiter. intros w. unfold share_waiter, sched, mbind, stM_bind. cbn.
  destruct (_ =? _)%Z; [by left|by right].
Qed.
Lemma wp_DrainAppActions : wp DrainAppActions [] emp.
Proof.
  apply wp_waiter. intros w. unfold app_waiter, sched, mbind, stM_bind. cbn.
  destruct (_ =? _)%Z; [by left|by right].
Qed.

Lemma wp_Await id ws : wp (Await id ws) [] emp.
Proof.
  induction ws as [|wk ws IH]; cbn [Await]; apply wp_bind; (eapply wp_quiet; [apply quiet_store_Get|]);
    intros [j|e]; try done; destruct (Terminal _);
    [apply wp_bind; eapply wp_quiet; [apply quiet_forgetTerminalSnapshot|done]| |
     apply wp_bind; eapply wp_quiet; [apply quiet_forgetTerminalSnapshot|done]|].
  all: apply wp_bind; (eapply wp_quiet with (T := any); [quiet|]); intros [[|]|]; try done.
  all: apply wp_bind; (eapply wp_quiet with (T := any); [quiet|]); intros [[]|]; try done.
  all: destruct wk; try done; by destruct (_ && _).
Qed.

Lemma wp_WaitForStorageJobs n : wp (WaitForStorageJobs n) [] emp.
Proof.
  induction n as [|n IH]; cbn [WaitForStorageJobs]; [done|].
  apply wp_bind. eapply wp_quiet with (T := any); [quiet|].
  intros [[|d|]|e]; try done; split; done.
Qed.

Lemma wp_RestorePersistedMaintenance : wp RestorePersistedMaintenance [] emp.
Proof.
  apply wp_bind. eapply wp_quiet; [apply quiet_GetArrayMaintenance|].
  intros [[m a]|e]; [eapply wp_quiet; [apply quiet_set_maintenance|done]|].
  by destruct (err_is e S_ErrNoRows).
Qed.
End wp_modes.
