(* ===== verification/SchedSafety.v ===== *)
(** * The running daemon, and what holds in it at all times

    A thread pool: every call of the scheduler, every job's goroutine and every
    callback of a run is a thread, and any thread can take its next action at
    any time. The invariant of [SchedLogic] holds in every reachable
    configuration; the theorems below are what it means. *)
From S2P Require Export SchedWpApi.
Open Scope nat_scope.
Open Scope list_scope.

Section pool.
Context `{E : Env}.

Definition ignore {A} (p : P A) : P unit := _ ← p; Ret tt.

(** The calls other packages make, with what a caller must know. *)
Inductive api : (world → Prop) → P unit → Prop :=
| api_Submit t res params : api (λ _, True) (ignore (Submit t res params))
| api_CheckAdmission t : api (λ _, True) (ignore (CheckAdmission t))
| api_Cancel id : api (λ w, known (core_of w) id) (ignore (Cancel id))
| api_Resume id : api (λ _, True) (ignore (Resume id))
| api_EnterMaintenance : api (λ _, True) (ignore EnterMaintenance)
| api_EnterMaintenanceTransient : api (λ _, True) EnterMaintenanceTransient
| api_Drain : api (λ _, True) (ignore Drain)
| api_ExitMaintenance : api (λ _, True) (ignore (atomic ExitMaintenance))
| api_ExitMaintenanceChecked : api (λ _, True) (ignore (atomic ExitMaintenanceChecked))
| api_MarkArrayStopped : api (λ _, True) (ignore (atomic MarkArrayStopped))
| api_MarkArrayStoppedTransient : api (λ _, True) (ignore (atomic MarkArrayStoppedTransient))
| api_BeginArrayStart : api (λ _, True) (ignore (atomic BeginArrayStart))
| api_RestoreArrayStopped was : api (λ _, True) (ignore (atomic (RestoreArrayStopped was)))
| api_RestorePersistedMaintenance : api (λ _, True) (ignore RestorePersistedMaintenance)
| api_BeginDatabaseRestore : api (λ _, True) (ignore (atomic BeginDatabaseRestore))
| api_BeginShareMutation : api (λ _, True) (ignore (atomic BeginShareMutation))
| api_FinishShareMutation : api (λ _, True) (ignore (atomic FinishShareMutation))
| api_DrainShareMutations : api (λ _, True) (ignore DrainShareMutations)
| api_BeginAppAction : api (λ _, True) (ignore (atomic BeginAppAction))
| api_FinishAppAction : api (λ _, True) (ignore (atomic FinishAppAction))
| api_DrainAppActions : api (λ _, True) (ignore DrainAppActions)
| api_PauseForBattery : api (λ _, True) (ignore PauseForBattery)
| api_ResumeFromBattery : api (λ _, True) ResumeFromBattery
| api_WaitForStorageJobs n : api (λ _, True) (ignore (WaitForStorageJobs n))
| api_PendingDiskUpgradeData : api (λ _, True) (ignore (atomic PendingDiskUpgradeData))
| api_Await id ws : api (λ _, True) (ignore (Await id ws))
| api_SetTopologyBackup b : api (λ _, True) (ignore (atomic (SetTopologyBackup b)))
| api_SetMigrationPending b : api (λ _, True) (ignore (atomic (SetMigrationPending b))).

(** What a run calls back. *)
Inductive callback (d : nat) : P unit → Prop :=
| cb_saveCheckpoint data : callback d (ignore (saveCheckpoint d data))
| cb_setProgress pct : callback d (setProgress d pct)
| cb_keepForResume : callback d (ignore (keepForResume d)).

Record config := mkConfig { cf_world : world; cf_threads : list (P unit) }.

(** A job's goroutine is away from its [RunFunc] during a callback. *)
Definition during_callback (d : nat) (p : P unit) : P unit :=
  _ ← p; Act (upd_w_live (cons d)) (λ _, Ret tt).

(** What the scheduler's own threads do. *)
Inductive step : config → config → Prop :=
| step_call C f k w ts :
    api C (Act f k) → C w → step (mkConfig w ts) (mkConfig (f w) (k w :: ts))
| step_act l1 f k l2 w :
    step (mkConfig w (l1 ++ Act f k :: l2)) (mkConfig (f w) (l1 ++ k w :: l2))
| step_dispatch l1 k l2 w :
    step (mkConfig w (l1 ++ Call k :: l2)) (mkConfig w (l1 ++ (_ ← dispatch; k) :: l2))
| step_wait l1 c k kc l2 w :
    c w = true → step (mkConfig w (l1 ++ Wait c k kc :: l2)) (mkConfig w (l1 ++ k :: l2))
| step_wait_ctx l1 c k kc l2 w :
    step (mkConfig w (l1 ++ Wait c k kc :: l2)) (mkConfig w (l1 ++ kc :: l2))
| step_exit l1 l2 w : step (mkConfig w (l1 ++ Ret tt :: l2)) (mkConfig w (l1 ++ l2))
| step_callback d i p w ts :
    w_live w !! i = Some d → callback d p →
    step (mkConfig w ts) (mkConfig (upd_w_live (delete i) w) (during_callback d p :: ts))
| step_return d i runErr w ts :
    w_live w !! i = Some d → run_contract runErr →
    step (mkConfig w ts) (mkConfig (upd_w_live (delete i) w) (runJob_returned d runErr :: ts)).

Definition well_keyed (rows : gmap string Job) : Prop := ∀ id r, rows !! id = Some r → j_id r = id.

(** The holder of a database restore's admission: it replaces the jobs table,
    and ends. *)
Inductive restore_step : config → config → Prop :=
| restore_import rows w ts :
    s_databaseRestore (w_sched w) = true → well_keyed rows →
    restore_step (mkConfig w ts) (mkConfig (upd_w_rows (λ _, rows) w) ts)
| restore_end w ts :
    s_databaseRestore (w_sched w) = true →
    restore_step (mkConfig w ts) (mkConfig (snd (endDatabaseRestore w)) ts).

(** The daemon after a start: a new scheduler over whatever table it finds. *)
Definition started (w : world) : Prop :=
  w_sched w = NewScheduler ∧ well_keyed (w_rows w) ∧ w_live w = [] ∧ w_dead w = ∅.

Inductive reachable : config → Prop :=
| reach_start w : started w → reachable (mkConfig w [])
| reach_step c c' : reachable c → step c c' → reachable c'
| reach_restore c c' : reachable c → restore_step c c' → reachable c'.
End pool.

(** ** Every call keeps the invariant *)
Section adequacy.
Context `{E : Env}.
Implicit Types (O R : list tok).

Lemma wp_ignore {A} (p : P A) O : wp p O emp → wp (ignore p) O emp.
Proof. intros H. apply wp_bind. eapply wp_mono; [|exact H]. intros a O' ->. done. Qed.

Lemma wp_first_ignore {A} C (p : P A) : wp_first C p emp → wp_first C (ignore p) emp.
Proof.
  destruct p as [a|f k|k|c k kc]; cbn [wp_first]; intros H.
  - done.
  - intros w R HC HI. destruct (H w R HC HI) as (HG&O&HI2&Hk). split; [done|]. exists O.
    split; [done|]. by apply wp_ignore.
  - by apply wp_ignore.
  - by apply wp_ignore.
Qed.

Lemma wp_CheckAdmission t : wp (CheckAdmission t) [] emp.
Proof.
  unfold CheckAdmission. destruct (ValidateType t); [|done].
  eapply wp_quiet_call, quiet_admitLocked.
Qed.

Lemma quiet_PendingDiskUpgradeData : quiet PendingDiskUpgradeData any.
Proof. unfold PendingDiskUpgradeData. quiet. Qed.
Lemma quiet_hooks b : quiet (SetTopologyBackup b) any ∧ quiet (SetMigrationPending b) any.
Proof. split; intros w; done. Qed.

Lemma api_first C p : api C p → wp_first C p emp.
Proof.
  destruct 1; try apply wp_first_ignore;
    try first [apply wp_Cancel | apply wp_wp_first;
      first [ apply wp_Submit | apply wp_CheckAdmission | apply wp_Resume | apply wp_enterMaintenance
            | apply wp_EnterMaintenanceTransient | apply wp_Drain | apply wp_RestorePersistedMaintenance
            | apply wp_BeginDatabaseRestore | apply wp_DrainShareMutations | apply wp_DrainAppActions
            | apply wp_PauseForBattery | apply wp_ResumeFromBattery | apply wp_WaitForStorageJobs
            | apply wp_Await
            | eapply wp_quiet_call;
              first [ apply quiet_ExitMaintenance | apply quiet_ExitMaintenanceChecked
                    | apply quiet_markArrayStopped | apply quiet_BeginArrayStart
                    | apply quiet_RestoreArrayStopped | apply quiet_BeginShareMutation
                    | apply quiet_FinishShareMutation | apply quiet_BeginAppAction
                    | apply quiet_FinishAppAction | apply quiet_PendingDiskUpgradeData
                    | apply quiet_hooks ] ]].
Qed.

Lemma wp_during_callback d p : callback d p → wp (during_callback d p) [TRun d false] emp.
Proof.
  intros Hp. apply wp_bind.
  assert (wp p [TRun d false] (λ _ O, O = [TRun d false])) as H.
  { destruct Hp; [|apply wp_setProgress|]; apply wp_bind.
    - eapply wp_mono; [|apply wp_saveCheckpoint]. intros a O ->. done.
    - eapply wp_mono; [|apply wp_keepForResume]. intros a O ->. done. }
  eapply wp_mono; [|exact H]. intros [] O ->. intros w R HI.
  split; [by apply GuarS_Guar, GuarS_same|]. exists []. split; [|done].
  exact (T_unlive _ _ _ _ HI).
Qed.

(** What holds of a configuration: the threads own tokens that fit. *)
Definition fits (c : config) : Prop :=
  ∃ Os, Forall2 (λ p O, wp p O emp) (cf_threads c) Os ∧ Inv (core_of (cf_world c)) (concat Os).

Lemma concat_mid (Os1 Os2 : list (list tok)) O : concat (Os1 ++ O :: Os2) ≡ₚ O ++ concat (Os1 ++ Os2).
Proof. rewrite !concat_app. cbn. solve_Permutation. Qed.

(** The thread that acts and the rest. *)
Lemma fits_mid w l1 p l2 :
  fits (mkConfig w (l1 ++ p :: l2)) → ∃ Os1 O Os2,
    Forall2 (λ p O, wp p O emp) l1 Os1 ∧ wp p O emp ∧ Forall2 (λ p O, wp p O emp) l2 Os2 ∧
    Inv (core_of w) (O ++ concat (Os1 ++ Os2)).
Proof.
  intros (Os&HF&HI). cbn in *. apply Forall2_app_inv_l in HF as (Os1&Os2'&H1&H2&->).
  apply Forall2_cons_inv_l in H2 as (O&Os2&Hp&H2&->). exists Os1, O, Os2. split_and!; [done..|].
  eapply Inv_perm; [|exact HI]. apply concat_mid.
Qed.
Lemma fits_put w l1 p l2 Os1 O Os2 :
  Forall2 (λ p O, wp p O emp) l1 Os1 → wp p O emp → Forall2 (λ p O, wp p O emp) l2 Os2 →
  Inv (core_of w) (O ++ concat (Os1 ++ Os2)) → fits (mkConfig w (l1 ++ p :: l2)).
Proof.
  intros H1 Hp H2 HI. exists (Os1 ++ O :: Os2). cbn. split; [by apply Forall2_app; [|constructor]|].
  eapply Inv_perm; [|exact HI]. symmetry. apply concat_mid.
Qed.

Lemma step_fits c c' :
  fits c → step c c' → fits c' ∧ Guar (core_of (cf_world c)) (core_of (cf_world c')).
Proof.
  intros Hf Hs. destruct Hs as
    [C f k w ts Hapi HC|l1 f k l2 w|l1 k l2 w|l1 cond k kc l2 w Hc|l1 cond k kc l2 w|l1 l2 w
    |d i p w ts Hi Hcb|d i runErr w ts Hi Hrc]; cbn [cf_world].
  - destruct Hf as (Os&HF&HI). destruct (api_first _ _ Hapi w _ HC HI) as (HG&O&HI2&Hk).
    split; [|done]. by apply (fits_put _ [] _ ts [] O Os); [constructor|..].
  - apply fits_mid in Hf as (Os1&O&Os2&H1&Hp&H2&HI). destruct (Hp w _ HI) as (HG&O'&HI2&Hk).
    split; [|done]. by eapply fits_put.
  - apply fits_mid in Hf as (Os1&O&Os2&H1&Hp&H2&HI). split; [|apply Guar_refl].
    eapply fits_put; [done| |done|done]. apply wp_seq_nil; [apply wp_dispatch|]. intros _. exact Hp.
  - apply fits_mid in Hf as (Os1&O&Os2&H1&[Hp _]&H2&HI). split; [|apply Guar_refl]. by eapply fits_put.
  - apply fits_mid in Hf as (Os1&O&Os2&H1&[_ Hp]&H2&HI). split; [|apply Guar_refl]. by eapply fits_put.
  - apply fits_mid in Hf as (Os1&O&Os2&H1&Hp&H2&HI). split; [|apply Guar_refl].
    exists (Os1 ++ Os2). split; [by apply Forall2_app|]. cbn in Hp. unfold emp in Hp. by subst O.
  - destruct Hf as (Os&HF&HI). split; [|by apply GuarS_Guar, GuarS_same].
    apply (fits_put _ [] _ ts [] [TRun d false] Os); [constructor|by apply wp_during_callback|done|].
    exact (T_live _ _ _ _ HI Hi).
  - destruct Hf as (Os&HF&HI). split; [|by apply GuarS_Guar, GuarS_same].
    apply (fits_put _ [] _ ts [] [TRun d false] Os); [constructor|by apply wp_runJob_returned|done|].
    exact (T_live _ _ _ _ HI Hi).
Qed.

Lemma restore_step_fits c c' : fits c → restore_step c c' → fits c'.
Proof.
  intros Hf Hs. destruct Hs as [rows w ts Hr Hk|w ts Hr]; destruct Hf as (Os&HF&HI);
    exists Os; (split; [exact HF|]).
  - exact (T_import _ _ _ HI Hr Hk).
  - exact (T_release _ _ HI).
Qed.

Lemma started_fits w : started w → fits (mkConfig w []).
Proof.
  intros (Hs&Hk&Hl&Hd). exists []. split; [constructor|]. cbn [cf_world concat].
  assert (core_of w = mkCore ∅ [] ∅ ∅ ∅ false (w_rows w) [] ∅ (w_nextChan w)) as ->.
  { unfold core_of. by rewrite Hs, Hl, Hd. }
  set (c0 := mkCore _ _ _ _ _ _ _ _ _ _).
  assert (∀ id, place c0 [] id = 0) as Hp.
  { intros id. unfold place, in_mem, is_run, is_disp, qids. cbn -[cnt]. by rewrite !lookup_empty, !cnt_nil. }
  constructor; intros *; rewrite ?Hp; cbn -[cnt place]; intros; try done; try lia;
    try (by rewrite ?lookup_empty in * ); try (by apply elem_of_nil in H).
  - by apply Hk.
  - unfold dones. rewrite map_to_list_empty. cbn. rewrite cnt_nil. lia.
  - rewrite cnt_nil. lia.
  - rewrite cnt_nil. lia.
Qed.

Lemma reachable_fits c : reachable c → fits c.
Proof.
  induction 1 as [w Hw|c c' _ IH Hs|c c' _ IH Hs].
  - by apply started_fits.
  - by eapply step_fits.
  - by eapply restore_step_fits.
Qed.
End adequacy.

(** ** What it means *)
Section safety.
Context `{E : Env}.

(** [j] is running, or its turn is being decided. *)
Definition holds_resources (s : Scheduler) (id : string) (j : Job) : Prop :=
  (∃ rj, s_running s !! id = Some rj ∧ rj_job rj = j) ∨
  (∃ q, s_dispatching s !! id = Some q ∧ q_job q = j).

Lemma reachable_inv c : reachable c → ∃ O, Inv (core_of (cf_world c)) O.
Proof. intros (Os&_&HI)%reachable_fits. eauto. Qed.

Lemma holds_act c O w id j :
  Inv c O → c = core_of w → holds_resources (w_sched w) id j →
  act c id = Some (j_class j, j_resourceIDs j).
Proof.
  intros HI -> [(rj&Hr&<-)|(q&Hq&<-)]; unfold act; cbn.
  - by rewrite Hr.
  - assert (s_running (w_sched w) !! id = None) as Hn; [|by rewrite Hn, Hq].
    pose proof (i_place _ _ HI id) as Hp. unfold place, in_mem, is_run, is_disp in Hp. cbn in Hp.
    rewrite Hq in Hp. by destruct (s_running (w_sched w) !! id); [lia|].
Qed.

(** C1: at every moment of every run, under every interleaving and every failing
    call, two different jobs that are running, or whose turn is being decided,
    do not conflict by the exclusion rule of [exclusion.go]. *)
Theorem mutual_exclusion c id1 id2 j1 j2 :
  reachable c → id1 ≠ id2 →
  holds_resources (w_sched (cf_world c)) id1 j1 → holds_resources (w_sched (cf_world c)) id2 j2 →
  conflicts (j_class j1) (j_class j2) (j_resourceIDs j1) (j_resourceIDs j2) = false.
Proof.
  intros [O HI]%reachable_inv Hne H1 H2.
  exact (i_excl _ _ HI id1 id2 _ _ Hne (holds_act _ _ _ _ _ HI eq_refl H1)
    (holds_act _ _ _ _ _ HI eq_refl H2)).
Qed.

(** C2: two goroutines whose [RunFunc] has not returned run two different jobs:
    a job is never run twice at the same time. *)
Theorem one_run_per_job c i1 i2 d1 d2 :
  reachable c → i1 ≠ i2 →
  w_live (cf_world c) !! i1 = Some d1 → w_live (cf_world c) !! i2 = Some d2 →
  ∃ id1 rj1 id2 rj2,
    s_running (w_sched (cf_world c)) !! id1 = Some rj1 ∧ rj_done rj1 = d1 ∧ j_id (rj_job rj1) = id1 ∧
    s_running (w_sched (cf_world c)) !! id2 = Some rj2 ∧ rj_done rj2 = d2 ∧ j_id (rj_job rj2) = id2 ∧
    id1 ≠ id2.
Proof.
  intros [O HI]%reachable_inv Hne H1 H2.
  assert (∀ i d, w_live (cf_world c) !! i = Some d → ∃ id rj,
    s_running (w_sched (cf_world c)) !! id = Some rj ∧ rj_done rj = d ∧ j_id (rj_job rj) = id) as Hl.
  { intros i d Hi. destruct (live_running _ _ d HI) as (id&rj&Hr&Hd).
    - apply elem_of_app. left. by eapply list_elem_of_lookup_2.
    - exists id, rj. split_and!; [done..|]. by apply (i_run _ _ HI) in Hr as (?&_). }
  destruct (Hl _ _ H1) as (id1&rj1&Hr1&Hd1&Hj1). destruct (Hl _ _ H2) as (id2&rj2&Hr2&Hd2&Hj2).
  exists id1, rj1, id2, rj2. split_and!; try done. intros <-.
  assert (rj1 = rj2) as <- by congruence.
  pose proof (i_runs _ _ HI d1) as Hc. pose proof (i_dones _ _ HI d1) as Hle.
  assert (NoDup (w_live (cf_world c))) as Hnd.
  { apply cnt_le_NoDup. intros x. pose proof (i_runs _ _ HI x). pose proof (i_dones _ _ HI x). cbn in *. lia. }
  apply Hne. eapply NoDup_lookup; [done|exact H1|]. congruence.
Qed.

(** a job is in at most one of the queue, the running set and the
    dispatching set, never twice in the queue, and its row in the jobs table
    says queued or running. *)
Theorem one_place_per_job c id :
  reachable c →
  let s := w_sched (cf_world c) in
  let n := length (filter (λ x, x = id) (map (λ q, j_id (q_job q)) (s_queue s))) +
    (if decide (is_Some (s_running s !! id)) then 1 else 0) +
    (if decide (is_Some (s_dispatching s !! id)) then 1 else 0) in
  n ≤ 1 ∧ (n = 1 → ∃ r, w_rows (cf_world c) !! id = Some r ∧
    (j_status r = StatusQueued ∨ j_status r = StatusRunning)).
Proof.
  intros [O HI]%reachable_inv s n.
  assert (n = in_mem (core_of (cf_world c)) id) as ->.
  { subst n s. unfold in_mem, is_run, is_disp, qids. cbn. f_equal; [f_equal|].
    - destruct (s_running _ !! id); [by rewrite decide_True by eauto|].
      by rewrite decide_False by (intros [? ?]; done).
    - destruct (s_dispatching _ !! id); [by rewrite decide_True by eauto|].
      by rewrite decide_False by (intros [? ?]; done). }
  pose proof (i_place _ _ HI id) as Hp. unfold place in Hp. split; [lia|]. intros Hn.
  destruct (i_row _ _ HI id) as (r&Hr&Hs); [unfold place; lia|]. exists r. split; [done|].
  destruct (j_status r); try done; auto.
Qed.

(** C3: while a database restore holds job admission no job is queued,
    running, dispatching or live. *)
Theorem restore_excludes_jobs c :
  reachable c → s_databaseRestore (w_sched (cf_world c)) = true →
  s_queue (w_sched (cf_world c)) = [] ∧ s_running (w_sched (cf_world c)) = ∅ ∧
  s_dispatching (w_sched (cf_world c)) = ∅ ∧ w_live (cf_world c) = [].
Proof.
  intros [O HI]%reachable_inv Hr. destruct (i_restore _ _ HI Hr) as [_ Hp].
  assert (s_running (w_sched (cf_world c)) = ∅) as Hrun.
  { apply map_eq. intros id. rewrite lookup_empty. specialize (Hp id).
    unfold place, in_mem, is_run in Hp. cbn in Hp. destruct (s_running _ !! id); [lia|done]. }
  split_and!; [| done | | ].
  - destruct (s_queue (w_sched (cf_world c))) as [|q l] eqn:Hq; [done|]. specialize (Hp (qid q)).
    unfold place, in_mem, qids in Hp. cbn in Hp. rewrite Hq in Hp. cbn in Hp.
    pose proof (cnt_head (qid q) (map qid l)). lia.
  - apply map_eq. intros id. rewrite lookup_empty. specialize (Hp id).
    unfold place, in_mem, is_disp in Hp. cbn in Hp. destruct (s_dispatching _ !! id); [lia|done].
  - destruct (w_live (cf_world c)) as [|d l] eqn:Hl; [done|]. exfalso.
    pose proof (i_runs _ _ HI d) as Hc. cbn in Hc. rewrite Hl, Hrun in Hc. unfold dones in Hc.
    rewrite map_to_list_empty in Hc. cbn in Hc. pose proof (cnt_head d l). rewrite cnt_nil in Hc. lia.
Qed.

(** while a database restore holds job admission, no thread of the
    scheduler writes the jobs table or drops the hold. *)
Theorem restore_owns_the_table c c' :
  reachable c → step c c' → s_databaseRestore (w_sched (cf_world c)) = true →
  s_databaseRestore (w_sched (cf_world c')) = true ∧ w_rows (cf_world c') = w_rows (cf_world c).
Proof.
  intros Hc Hs Hr. destruct (step_fits _ _ (reachable_fits _ Hc) Hs) as [_ HG].
  exact (g_restore _ _ HG Hr).
Qed.

(** C4: a data-disk upgrade whose stored checkpoint is past its release decision
    is never recorded cancelled, whatever a racing [Cancel], maintenance stop
    or battery hold does, and its row stays. *)
Theorem past_release_never_cancelled c c' id r :
  reachable c → step c c' → w_rows (cf_world c) !! id = Some r →
  j_type r = TypeDiskUpgradeData → diskUpgradeDataCheckpointAtReleasing (j_checkpoint r) = true →
  ∃ r', w_rows (cf_world c') !! id = Some r' ∧
    (j_status r' = StatusCancelled → j_status r = StatusCancelled).
Proof.
  intros Hc Hs Hr Ht Hcp. destruct (step_fits _ _ (reachable_fits _ Hc) Hs) as [_ HG].
  apply (g_past _ _ HG id r Hr). unfold past. by rewrite Ht, bool_decide_true, Hcp.
Qed.

(** no job's [stopCh] is closed twice (a second close panics), although
    maintenance mode and the on-battery hold can signal the same job. *)
Theorem stopCh_closed_once c rj :
  reachable c →
  (∃ id, s_running (w_sched (cf_world c)) !! id = Some rj) ∨ (∃ d, w_dead (cf_world c) !! d = Some rj) →
  rj_stopClosed rj ≤ 1 ∧ (rj_stopClosed rj = 1 → rj_stopSignalled rj = true).
Proof.
  intros [O HI]%reachable_inv H.
  assert (stop_wf O rj) as [H1 H2].
  { destruct H as [[id Hr]|[d Hr]]; [exact (i_stop_run _ _ HI id rj Hr)|exact (i_stop_dead _ _ HI d rj Hr)]. }
  split; [lia|]. intros Hn. apply H2. lia.
Qed.

(** C5: no job leaks: once every call has returned, no job's turn is left
    undecided, and every job in the running set still has its goroutine. *)
Theorem no_job_leaks w :
  reachable (mkConfig w []) →
  s_dispatching (w_sched w) = ∅ ∧
  ∀ id rj, s_running (w_sched w) !! id = Some rj → rj_done rj ∈ w_live w.
Proof.
  intros (Os&HF&HI)%reachable_fits. cbn in *. apply Forall2_nil_inv_l in HF as ->. cbn in HI. split.
  - apply map_eq. intros id. rewrite lookup_empty. pose proof (i_disps _ _ HI id) as Hd.
    unfold is_disp in Hd. cbn in Hd. rewrite cnt_nil in Hd. by destruct (s_dispatching _ !! id).
  - intros id rj Hr. pose proof (i_runs _ _ HI (rj_done rj)) as Hc. cbn in Hc. rewrite cnt_nil in Hc.
    apply cnt_pos. assert (0 < cnt (rj_done rj) (dones (s_running (w_sched w)))); [|lia].
    apply cnt_pos, dones_elem. eauto.
Qed.
End safety.
