(* ===== verification/SchedExamples.v ===== *)
(** * Concrete runs of the scheduler

    An environment in which every call succeeds, runs of the scheduler in it,
    and the theorems of [SchedSafety] at the configurations they reach. *)
From stdpp Require Import pretty.
From S2P Require Export SchedSafety.
Open Scope nat_scope.
Open Scope list_scope.

Section running_alone.
Context `{E : Env}.

(** A thread nobody interferes with gets to the end of its program. *)
Lemma reach_run {A} fuel (p : P A) (K : A → P unit) w a w' ts :
  run_with (run_call dispatch fuel) p w = Some (a, w') →
  reachable (mkConfig w ((p ≫= K) :: ts)) → reachable (mkConfig w' (K a :: ts)).
Proof.
  change (p ≫= K) with (prog_bind p K).
  revert A p K w a w' ts. induction fuel as [|fuel IHf]; intros A p K;
    induction p as [b|f k IH|k IH|c k IHk kc IHc]; intros w a w' ts; cbn [run_with run_call prog_bind].
  - by intros [= <- <-].
  - intros Hr H. eapply IH; [exact Hr|]. eapply reach_step; [exact H|]. apply (step_act []).
  - done.
  - destruct (c w) eqn:Hc; intros Hr H.
    + eapply IHk; [exact Hr|]. eapply reach_step; [exact H|]. by apply (step_wait []).
    + eapply IHc; [exact Hr|]. eapply reach_step; [exact H|]. apply (step_wait_ctx []).
  - by intros [= <- <-].
  - intros Hr H. eapply IH; [exact Hr|]. eapply reach_step; [exact H|]. apply (step_act []).
  - destruct (run_with (run_call dispatch fuel) dispatch w) as [[[] w1]|] eqn:Hd; [|done].
    cbn. intros Hr H. eapply IH; [exact Hr|].
    apply (IHf _ dispatch (λ _, prog_bind k K) w tt w1 ts Hd).
    eapply reach_step; [exact H|]. apply (step_dispatch []).
  - destruct (c w) eqn:Hc; intros Hr H.
    + eapply IHk; [exact Hr|]. eapply reach_step; [exact H|]. by apply (step_wait []).
    + eapply IHc; [exact Hr|]. eapply reach_step; [exact H|]. apply (step_wait_ctx []).
Qed.

Lemma reach_thread fuel (p : P unit) w w' ts :
  run_with (run_call dispatch fuel) p w = Some (tt, w') →
  reachable (mkConfig w (p :: ts)) → reachable (mkConfig w' ts).
Proof.
  revert w w' ts. induction p as [[]|f k IH|k IH|c k IHk kc IHc]; intros w w' ts Hr H;
    cbn [run_with] in Hr.
  - injection Hr as <-. eapply reach_step; [exact H|]. apply (step_exit []).
  - eapply IH; [exact Hr|]. eapply reach_step; [exact H|]. apply (step_act []).
  - destruct fuel as [|fuel]; [done|]. cbn [run_call] in Hr.
    destruct (run_with (run_call dispatch fuel) dispatch w) as [[[] w1]|] eqn:Hd; [|done].
    cbn in Hr. eapply IH; [exact Hr|].
    apply (reach_run fuel dispatch (λ _, k) w tt w1 ts Hd).
    eapply reach_step; [exact H|]. apply (step_dispatch []).
  - destruct (c w) eqn:Hc.
    + eapply IHk; [exact Hr|]. eapply reach_step; [exact H|]. by apply (step_wait []).
    + eapply IHc; [exact Hr|]. eapply reach_step; [exact H|]. apply (step_wait_ctx []).
Qed.

(** One call run alone, from a world in which its caller may make it. *)
Lemma reach_call fuel C (p : P unit) w w' ts :
  reachable (mkConfig w ts) → api C p → C w →
  match p with Act _ _ => True | _ => False end →
  run dispatch fuel p w = Some (tt, w') → reachable (mkConfig w' ts).
Proof.
  intros H Ha HC Hp Hr. destruct p as [|f k|k|c k kc]; try done.
  apply (reach_thread fuel (k w) (f w) w' ts Hr). eapply reach_step; [exact H|]. by eapply step_call.
Qed.

Lemma reach_callback fuel d i p w w' ts :
  reachable (mkConfig w ts) → w_live w !! i = Some d → callback d p →
  run dispatch fuel (during_callback d p) (upd_w_live (delete i) w) = Some (tt, w') →
  reachable (mkConfig w' ts).
Proof.
  intros H Hi Hc Hr. eapply reach_thread; [exact Hr|]. eapply reach_step; [exact H|]. by apply step_callback.
Qed.

Lemma reach_return fuel d i e w w' ts :
  reachable (mkConfig w ts) → w_live w !! i = Some d → run_contract e →
  run dispatch fuel (runJob_returned d e) (upd_w_live (delete i) w) = Some (tt, w') →
  reachable (mkConfig w' ts).
Proof.
  intros H Hi Hc Hr. eapply reach_thread; [exact Hr|]. eapply reach_step; [exact H|]. by apply step_return.
Qed.
End running_alone.

(** ** An environment in which nothing fails *)
Definition calm (registry : gmap JobType registryEntry) : Env := {|
  env_registry := registry;
  env_logs := false;
  env_store _ := None;
  env_abort _ _ _ := None;
  env_backup _ := None;
  env_pending _ := Ok false;
  env_validate_params _ _ := None;
  env_uuid n := "job-" +:+ pretty n;
  env_now n := Z.of_nat n
|}.
Definition every_type : gmap JobType registryEntry :=
  list_to_map (map (λ t, (t, mkEntry true false)) known_types).
#[local] Existing Instance calm.
#[local] Instance demo_env : Env := calm every_type.

Definition empty_world : world :=
  mkWorld NewScheduler ∅ None [] [] ∅ ∅ 0 0 0.
Lemma empty_started : started empty_world.
Proof. repeat split; intros ? ?; by rewrite ?lookup_empty. Qed.

Definition world_after (p : P unit) (w : world) : world :=
  match run dispatch 10 p w with Some (_, w') => w' | None => w end.

Definition terminates (p : P unit) (w : world) : bool :=
  match run dispatch 10 p w with Some _ => true | None => false end.
Definition acts (p : P unit) : bool := match p with Act _ _ => true | _ => false end.

(** Calls run alone, one after the other, stay reachable. *)
Lemma reach_after C p w :
  reachable (mkConfig w []) → api C p → C w → acts p = true → terminates p w = true →
  reachable (mkConfig (world_after p w) []).
Proof.
  unfold terminates, world_after. intros H Ha HC Hp Ht.
  destruct (run dispatch 10 p w) as [[[] w']|] eqn:Hr; [|done].
  eapply (reach_call 10); [exact H|exact Ha|done|by destruct p|exact Hr].
Qed.
Lemma reach_after_callback i d p w :
  reachable (mkConfig w []) → w_live w !! i = Some d → callback d p →
  terminates (during_callback d p) (upd_w_live (delete i) w) = true →
  reachable (mkConfig (world_after (during_callback d p) (upd_w_live (delete i) w)) []).
Proof.
  unfold terminates, world_after. intros H Hi Hc Ht.
  destruct (run dispatch 10 _ _) as [[[] w']|] eqn:Hr; [|done]. by eapply (reach_callback 10).
Qed.
Ltac reach api := eapply reach_after; [|apply api|exact I|reflexivity|vm_compute; reflexivity].

(** A container update of one app, then one of another: both run. *)
Definition two_updates : world :=
  world_after (ignore (Submit TypeContainerUpdate ["app-b"] BNil))
    (world_after (ignore (Submit TypeContainerUpdate ["app-a"] BNil)) empty_world).

Lemma two_updates_reachable : reachable (mkConfig two_updates []).
Proof.
  unfold two_updates. reach api_Submit. reach api_Submit. apply reach_start, empty_started.
Qed.

Definition job_of (id : string) (w : world) : option Job := rj_job <$> s_running (w_sched w) !! id.

(** Witness of C1. *)
Lemma mutual_exclusion_witness : ∃ j1 j2,
  job_of "job-1" two_updates = Some j1 ∧ job_of "job-4" two_updates = Some j2 ∧
  conflicts (j_class j1) (j_class j2) (j_resourceIDs j1) (j_resourceIDs j2) = false.
Proof.
  eexists _, _. split; [vm_compute; reflexivity|]. split; [vm_compute; reflexivity|].
  apply (mutual_exclusion (mkConfig two_updates []) "job-1" "job-4"); [apply two_updates_reachable|done|..];
    left; eexists; (split; [vm_compute; reflexivity|reflexivity]).
Defined.

(** Witness of C2. *)
Lemma one_run_per_job_witness : ∃ id1 rj1 id2 rj2,
  s_running (w_sched two_updates) !! id1 = Some rj1 ∧ rj_done rj1 = 1 ∧ j_id (rj_job rj1) = id1 ∧
  s_running (w_sched two_updates) !! id2 = Some rj2 ∧ rj_done rj2 = 0 ∧ j_id (rj_job rj2) = id2 ∧
  id1 ≠ id2.
Proof.
  apply (one_run_per_job (mkConfig two_updates []) 0 1 1 0);
    [apply two_updates_reachable|done|vm_compute; reflexivity|vm_compute; reflexivity].
Defined.

(** Witness of C3. *)
Lemma one_place_per_job_witness :
  ∃ r, w_rows two_updates !! "job-4" = Some r ∧ (j_status r = StatusQueued ∨ j_status r = StatusRunning).
Proof.
  apply (one_place_per_job (mkConfig two_updates []) "job-4" two_updates_reachable).
  vm_compute. reflexivity.
Defined.

(** A daemon that has admitted a database restore. *)
Definition restoring : world := world_after (ignore (atomic BeginDatabaseRestore)) empty_world.
Lemma restoring_reachable : reachable (mkConfig restoring []).
Proof.
  unfold restoring. reach api_BeginDatabaseRestore. apply reach_start, empty_started.
Qed.

(** Witness of C4. *)
Lemma restore_excludes_jobs_witness :
  s_databaseRestore (w_sched restoring) = true ∧
  s_queue (w_sched restoring) = [] ∧ s_running (w_sched restoring) = ∅ ∧
  s_dispatching (w_sched restoring) = ∅ ∧ w_live restoring = [].
Proof.
  split; [vm_compute; reflexivity|].
  apply (restore_excludes_jobs (mkConfig restoring []) restoring_reachable). vm_compute. reflexivity.
Defined.

(** Witness of C5: an [array stop] while the restore runs. *)
Lemma restore_owns_the_table_witness : ∃ w' ts,
  step (mkConfig restoring []) (mkConfig w' ts) ∧ s_maintenance (w_sched w') = true ∧
  s_databaseRestore (w_sched w') = true ∧ w_rows w' = w_rows restoring.
Proof.
  assert (∃ w' ts, step (mkConfig restoring []) (mkConfig w' ts) ∧ s_maintenance (w_sched w') = true)
    as (w'&ts&Hs&Hm).
  { eexists _, _. split; [eapply step_call; [apply api_EnterMaintenance|exact I]|]. vm_compute. reflexivity. }
  exists w', ts. split; [done|]. split; [done|].
  apply (restore_owns_the_table _ _ restoring_reachable Hs). vm_compute. reflexivity.
Defined.

(** A data-disk upgrade that has saved its releasing checkpoint, and then a
    stop of the array that reaches it. *)
Definition upgrade_running : world :=
  world_after (ignore (Submit TypeDiskUpgradeData ["disk-1"] BNil))
    (world_after (ignore (atomic MarkArrayStopped)) (world_after (ignore EnterMaintenance) empty_world)).
Definition releasing_data : bytes :=
  marshal_checkpoint (mkCheckpoint DataDiskUpgradePhaseReleasing "" "uuid-2").
Definition upgrade_releasing : world :=
  world_after (during_callback 0 (ignore (saveCheckpoint 0 releasing_data)))
    (upd_w_live (delete 0) upgrade_running).
Definition upgrade_stopping : world := world_after EnterMaintenanceTransient upgrade_releasing.

Lemma upgrade_releasing_reachable : reachable (mkConfig upgrade_releasing []).
Proof.
  apply reach_after_callback; [|vm_compute; reflexivity|apply cb_saveCheckpoint|vm_compute; reflexivity].
  unfold upgrade_running. reach api_Submit. reach api_MarkArrayStopped. reach api_EnterMaintenance.
  apply reach_start, empty_started.
Qed.
Lemma upgrade_stopping_reachable : reachable (mkConfig upgrade_stopping []).
Proof.
  unfold upgrade_stopping. reach api_EnterMaintenanceTransient.
  apply upgrade_releasing_reachable.
Qed.

(** Witness of C6: a cancel of it. *)
Lemma past_release_never_cancelled_witness : ∃ id w' ts r',
  step (mkConfig upgrade_releasing []) (mkConfig w' ts) ∧ w_rows w' !! id = Some r' ∧
  (j_status r' = StatusCancelled → StatusRunning = StatusCancelled).
Proof.
  assert (∃ id r, w_rows upgrade_releasing !! id = Some r ∧ j_type r = TypeDiskUpgradeData ∧
    diskUpgradeDataCheckpointAtReleasing (j_checkpoint r) = true ∧ j_status r = StatusRunning)
    as (id&r&Hr&Ht&Hc&Hst).
  { exists "job-6". eexists. split; [vm_compute; reflexivity|]. repeat split; vm_compute; reflexivity. }
  assert (∃ w' ts, step (mkConfig upgrade_releasing []) (mkConfig w' ts)) as (w'&ts&Hs).
  { eexists _, _. eapply step_call; [apply (api_Cancel id)|]. left. exists r. exact Hr. }
  destruct (past_release_never_cancelled _ _ id r upgrade_releasing_reachable Hs Hr Ht Hc) as (r'&Hr'&Hx).
  exists id, w', ts, r'. split; [done|]. split; [done|]. by rewrite <- Hst.
Defined.

(** Witness of C7: its stop channel is closed once. *)
Lemma stopCh_closed_once_witness : ∃ id rj, s_running (w_sched upgrade_stopping) !! id = Some rj ∧
  rj_stopClosed rj = 1 ∧ rj_stopSignalled rj = true.
Proof.
  exists "job-6". eexists. split; [vm_compute; reflexivity|]. split; [reflexivity|].
  apply (stopCh_closed_once (mkConfig upgrade_stopping []));
    [apply upgrade_stopping_reachable|left; exists "job-6"; vm_compute; reflexivity|reflexivity].
Defined.

(** Witness of C8. *)
Lemma no_job_leaks_witness : ∃ rj, s_running (w_sched upgrade_stopping) !! "job-6" = Some rj ∧
  rj_done rj ∈ w_live upgrade_stopping.
Proof.
  eexists. split; [vm_compute; reflexivity|].
  apply (no_job_leaks upgrade_stopping upgrade_stopping_reachable) with (id := "job-6").
  vm_compute. reflexivity.
Defined.
