(* ===== verification/Limiter.v ===== *)
(** * The login rate limiter

    [internal/auth/ratelimit.go]: failure counts and lockouts per account, per
    source address and per unknown user name, the exponential backoff, the two
    capped tables and their eviction, and the throttled pruning.

    A time is its distance in nanoseconds from Go's zero [time.Time]; the
    injected clock is read once per call and is the argument [now]. Go walks a
    map in an unspecified order, so the walk of [evictLocked] is over [order],
    any function that lists a table. *)
From S2P Require Export Prelude.
Open Scope Z_scope.

Definition Second : Z := 10 ^ 9.
Definition limiterFreeAttempts : Z := 5.
Definition limiterBaseDelay : Z := 30 * Second.
Definition limiterMaxDelay : Z := 3600 * Second.
Definition limiterEntryTTL : Z := 2 * 3600 * Second.
Definition limiterPruneInterval : Z := Second.
Definition limiterMaxAddresses : Z := 10000.
Definition limiterMaxUnknownAccounts : Z := 10000.
Definition limiterCapacityRetryAfter : Z := limiterBaseDelay.

(** [t.Sub(u)]: a [time.Duration], saturated at the ends of int64. *)
Definition time_sub (t u : Z) : Z := Z.max min_int64 (Z.min max_int64 (t - u)).
(** [d << n] on an int64. *)
Definition shl64 (d n : Z) : Z := wrap64 (Z.shiftl d n).

Inductive SubjectKind := SubjectAccount | SubjectAddress | SubjectUnknownAccount.
#[export] Instance SubjectKind_eq_dec : EqDecision SubjectKind.
Proof. solve_decision. Defined.

Record limiterEntry := mkEntry {
  e_failures : Z;
  e_lockedUntil : Z;
  e_lastFailure : Z
}.
Abbreviation table := (gmap string limiterEntry).

Record Limiter := mkLimiter {
  l_accounts : table;
  l_addrs : table;
  l_unknownAccounts : table;
  l_lastPrune : Z
}.

Definition NewLimiter : Limiter := mkLimiter ∅ ∅ ∅ 0.

Definition tableFor (kind : SubjectKind) (l : Limiter) : table :=
  match kind with
  | SubjectAddress => l_addrs l
  | SubjectUnknownAccount => l_unknownAccounts l
  | SubjectAccount => l_accounts l
  end.

(** The map [tableFor] returns is shared: a change of it is a change of [l]. *)
Definition set_table (kind : SubjectKind) (t : table) (l : Limiter) : Limiter :=
  match kind with
  | SubjectAddress => mkLimiter (l_accounts l) t (l_unknownAccounts l) (l_lastPrune l)
  | SubjectUnknownAccount => mkLimiter (l_accounts l) (l_addrs l) t (l_lastPrune l)
  | SubjectAccount => mkLimiter t (l_addrs l) (l_unknownAccounts l) (l_lastPrune l)
  end.

Definition cappedAt (kind : SubjectKind) : option Z :=
  match kind with
  | SubjectAddress => Some limiterMaxAddresses
  | SubjectUnknownAccount => Some limiterMaxUnknownAccounts
  | SubjectAccount => None
  end.

Definition locked (now : Z) (e : limiterEntry) : bool := now <? e_lockedUntil e.

Definition prune_keeps (now : Z) (e : limiterEntry) : bool :=
  locked now e || negb (limiterEntryTTL <? time_sub now (e_lastFailure e)).

Definition prune_table (now : Z) (t : table) : table :=
  filter (λ p, prune_keeps now p.2 = true) t.

Definition pruneLocked (now : Z) (l : Limiter) : Limiter :=
  mkLimiter (prune_table now (l_accounts l)) (prune_table now (l_addrs l))
    (prune_table now (l_unknownAccounts l)) (l_lastPrune l).

Definition maybe_prune (now : Z) (l : Limiter) : Limiter :=
  if limiterPruneInterval <=? time_sub now (l_lastPrune l) then
    let l' := pruneLocked now l in
    mkLimiter (l_accounts l') (l_addrs l') (l_unknownAccounts l') now
  else l.

(** Whether [e] is a better victim than [v]. *)
Definition evict_prefers (e v : limiterEntry) : bool :=
  (e_failures e <? e_failures v) ||
  ((e_failures e =? e_failures v) && (e_lastFailure e <? e_lastFailure v)).

Fixpoint find_victim (now : Z) (es : list (string * limiterEntry))
    (victim : option (string * limiterEntry)) : option (string * limiterEntry) :=
  match es with
  | [] => victim
  | (key, e) :: es' =>
      if locked now e then find_victim now es' victim
      else
        match victim with
        | None => find_victim now es' (Some (key, e))
        | Some (k, v) => find_victim now es' (Some (if evict_prefers e v then (key, e) else (k, v)))
        end
  end.

(** The count after one more attempt, and the lockout it starts, if any. *)
Definition backoff (failures : Z) : Z :=
  let delay := shl64 limiterBaseDelay (failures - limiterFreeAttempts - 1) in
  if (delay <=? 0) || (limiterMaxDelay <? delay) then limiterMaxDelay else delay.

Definition count_attempt (now : Z) (e : limiterEntry) : limiterEntry :=
  let failures := wrap64 (e_failures e + 1) in
  mkEntry failures
    (if limiterFreeAttempts <? failures then now + backoff failures else e_lockedUntil e) now.

Section limiter.
Context (order : table → list (string * limiterEntry)).

Definition evictLocked (t : table) (now : Z) : option table :=
  match find_victim now (order t) None with
  | None => None
  | Some (victimKey, _) => Some (delete victimKey t)
  end.

(** Room for one new subject: the table to add it to, or none. *)
Definition make_room (kind : SubjectKind) (t : table) (now : Z) : option table :=
  match cappedAt kind with
  | Some limit => if limit <=? Z.of_nat (size t) then evictLocked t now else Some t
  | None => Some t
  end.

Definition Reserve (now : Z) (subject : string) (kind : SubjectKind) (l0 : Limiter) :
    bool * Z * Limiter :=
  let l := maybe_prune now l0 in
  let t := tableFor kind l in
  match t !! subject with
  | Some e =>
      if locked now e then (false, time_sub (e_lockedUntil e) now, l)
      else (true, 0, set_table kind (<[subject := count_attempt now e]> t) l)
  | None =>
      match make_room kind t now with
      | None => (false, limiterCapacityRetryAfter, l)
      | Some t' => (true, 0, set_table kind (<[subject := count_attempt now (mkEntry 0 0 0)]> t') l)
      end
  end.

Definition Release (subject : string) (kind : SubjectKind) (l : Limiter) : Limiter :=
  set_table kind (delete subject (tableFor kind l)) l.
Definition Clear (subject : string) (kind : SubjectKind) (l : Limiter) : Limiter :=
  Release subject kind l.
Definition Len (kind : SubjectKind) (l : Limiter) : nat := size (tableFor kind l).

(** The calls the rest of the daemon makes. *)
Inductive call :=
| CReserve (now : Z) (subject : string) (kind : SubjectKind)
| CRelease (subject : string) (kind : SubjectKind).

Definition exec (c : call) (l : Limiter) : option bool * Limiter :=
  match c with
  | CReserve now s k => let '(ok, _, l') := Reserve now s k l in (Some ok, l')
  | CRelease s k => (None, Release s k l)
  end.

(** A run of calls, with what each [Reserve] answered. *)
Fixpoint exec_all (cs : list call) (l : Limiter) : list (option bool) * Limiter :=
  match cs with
  | [] => ([], l)
  | c :: cs' =>
      let (r, l') := exec c l in
      let (rs, l'') := exec_all cs' l' in (r :: rs, l'')
  end.
End limiter.

(** ** The backoff *)


Lemma shl64_small d n : 0 ≤ n → in_int64 (d * 2 ^ n) → shl64 d n = d * 2 ^ n.
Proof. intros Hn H. unfold shl64. rewrite Z.shiftl_mul_pow2 by lia. by apply wrap64_small. Qed.

(** A shift by the width or more leaves nothing. *)
Lemma shl64_past d n : 64 ≤ n → shl64 d n = 0.
Proof.
  intros Hn. unfold shl64, wrap64. rewrite Z.shiftl_mul_pow2 by lia.
  replace n with (64 + (n - 64)) by lia. rewrite Z.pow_add_r by lia.
  replace (d * (2 ^ 64 * 2 ^ (n - 64)) + 2 ^ 63) with (2 ^ 63 + d * 2 ^ (n - 64) * 2 ^ 64) by ring.
  rewrite Z_mod_plus_full, Z.mod_small by lia. reflexivity.
Qed.

(** The cap is reached long before the shift overflows, and no overflowed
    value is between zero and the cap. *)
Lemma backoff_capped n : 0 ≤ n < 64 →
  (let d := shl64 limiterBaseDelay n in if (d <=? 0) || (limiterMaxDelay <? d) then limiterMaxDelay else d)
  = Z.min limiterMaxDelay (limiterBaseDelay * 2 ^ n).
Proof.
  intros Hn. replace n with (Z.of_nat (Z.to_nat n)) by lia.
  assert (Z.to_nat n < 64)%nat as Hlt by lia. generalize dependent (Z.to_nat n). clear.
  intros n Hlt. do 64 (destruct n as [|n]; [vm_compute; reflexivity|]). lia.
Qed.

Lemma backoff_spec f :
  limiterFreeAttempts < f →
  backoff f = Z.min limiterMaxDelay (limiterBaseDelay * 2 ^ (f - limiterFreeAttempts - 1)).
Proof.
  intros Hf. unfold limiterFreeAttempts in *. destruct (Z.lt_ge_cases (f - 5 - 1) 64) as [Hs|Hs].
  - apply backoff_capped. lia.
  - unfold backoff, limiterFreeAttempts. rewrite shl64_past by done.
    cbn [Z.leb orb Z.compare]. rewrite Z.min_l; [done|].
    assert (2 ^ 64 ≤ 2 ^ (f - 5 - 1)) by (apply Z.pow_le_mono_r; lia).
    unfold limiterMaxDelay, limiterBaseDelay, Second. lia.
Qed.

Lemma tableFor_set k k' t l :
  tableFor k (set_table k' t l) = if decide (k = k') then t else tableFor k l.
Proof. by destruct k, k'. Qed.

Section laws.
Context (order : table → list (string * limiterEntry)).
Context (Horder : ∀ t, order t ≡ₚ map_to_list t).

Lemma order_lookup t k e : (k, e) ∈ order t ↔ t !! k = Some e.
Proof. rewrite (Horder t). apply elem_of_map_to_list. Qed.

(** *** Eviction *)
Definition better (a b : limiterEntry) : Prop :=
  e_failures a < e_failures b ∨ (e_failures a = e_failures b ∧ e_lastFailure a ≤ e_lastFailure b).

Lemma prefers_better e v : better (if evict_prefers e v then e else v) e ∧
  better (if evict_prefers e v then e else v) v.
Proof. unfold evict_prefers, better. destruct e, v; cbn. repeat case_match; cbn in *; lia. Qed.

Lemma better_trans a b c : better a b → better b c → better a c.
Proof. unfold better. lia. Qed.

Lemma find_victim_spec now es v0 :
  match find_victim now es v0 with
  | None => v0 = None ∧ Forall (λ p, locked now p.2 = true) es
  | Some (k, v) =>
      (v0 = Some (k, v) ∨ (k, v) ∈ es ∧ locked now v = false) ∧
      Forall (λ p, locked now p.2 = true ∨ better v p.2) es ∧
      (∀ p, v0 = Some p → better v p.2)
  end.
Proof.
  revert v0. induction es as [|[key e] es IH]; intros v0; cbn.
  { destruct v0 as [[k v]|]; [|by split].
    split_and!; [by left|constructor|]. intros p [= <-]. unfold better; cbn; lia. }
  destruct (locked now e) eqn:Hl.
  - specialize (IH v0). destruct (find_victim now es v0) as [[k v]|].
    + destruct IH as (H1&H2&H3). split_and!; [|constructor; auto|done].
      destruct H1 as [?|[??]]; [by left|right; split; [by right|done]].
    + destruct IH as [-> ?]. split; [done|]. by constructor.
  - set (v1 := match v0 with None => Some (key, e)
               | Some (k, v) => Some (if evict_prefers e v then (key, e) else (k, v)) end).
    replace (match v0 with None => _ | Some _ => _ end) with (find_victim now es v1)
      by (subst v1; by destruct v0 as [[??]|]).
    specialize (IH v1). destruct (find_victim now es v1) as [[k v]|].
    + destruct IH as (H1&H2&H3).
      assert (better v e ∧ ∀ p, v0 = Some p → better v p.2) as [He Hp].
      { subst v1. destruct v0 as [[k0 e0]|].
        - pose proof (prefers_better e e0) as [B1 B2].
          pose proof (H3 _ eq_refl) as B. destruct (evict_prefers e e0); cbn in B; split;
            [exact (better_trans _ _ _ B B1)|intros ? [= <-]; exact (better_trans _ _ _ B B2)
            |exact (better_trans _ _ _ B B1)|intros ? [= <-]; exact (better_trans _ _ _ B B2)].
        - split; [apply (H3 _ eq_refl)|done]. }
      split_and!; [|constructor; [by right|done]|done].
      destruct H1 as [H1|[??]]; [|right; split; [by right|done]].
      subst v1. destruct v0 as [[k0 e0]|]; [destruct (evict_prefers e e0)|]; simplify_eq;
        try (right; split; [by left|done]); by left.
    + exfalso. destruct IH as [IH _]. subst v1. by destruct v0 as [[??]|].
Qed.

Lemma evict_Some t now t' :
  evictLocked order t now = Some t' →
  ∃ k e, t !! k = Some e ∧ locked now e = false ∧ t' = delete k t ∧
    ∀ k' e', t !! k' = Some e' → locked now e' = true ∨ better e e'.
Proof.
  unfold evictLocked. pose proof (find_victim_spec now (order t) None) as H.
  destruct (find_victim now (order t) None) as [[k v]|]; [|done]. intros [= <-].
  destruct H as ([?|[Hin Hl]]&Hall&_); [done|]. exists k, v. split_and!; try done.
  - by apply order_lookup.
  - intros k' e' He'. rewrite Forall_forall in Hall. by apply (Hall (k', e')), order_lookup.
Qed.

Lemma evict_None t now k e : evictLocked order t now = None → t !! k = Some e → locked now e = true.
Proof.
  unfold evictLocked. pose proof (find_victim_spec now (order t) None) as H.
  destruct (find_victim now (order t) None) as [[? v]|]; [done|]. intros _ He.
  destruct H as [_ H]. rewrite Forall_forall in H. by apply (H (k, e)), order_lookup.
Qed.

(** *** Pruning *)
Lemma prune_lookup now t k e :
  prune_table now t !! k = Some e ↔ t !! k = Some e ∧ prune_keeps now e = true.
Proof. unfold prune_table. by rewrite map_lookup_filter_Some. Qed.

Lemma maybe_prune_keeps now l kind k e :
  tableFor kind l !! k = Some e → prune_keeps now e = true →
  tableFor kind (maybe_prune now l) !! k = Some e.
Proof.
  intros H Hk. unfold maybe_prune. case_match; [|done].
  destruct kind; cbn in *; by apply prune_lookup.
Qed.

Lemma maybe_prune_sub now l kind k e :
  tableFor kind (maybe_prune now l) !! k = Some e → tableFor kind l !! k = Some e.
Proof.
  unfold maybe_prune. case_match; [|done]. destruct kind; cbn; intros Hx%prune_lookup; by destruct Hx.
Qed.

Lemma maybe_prune_size now l kind : (size (tableFor kind (maybe_prune now l)) ≤ size (tableFor kind l))%nat.
Proof. apply map_subseteq_size, map_subseteq_spec. intros k e. apply maybe_prune_sub. Qed.

Lemma locked_kept now e : locked now e = true → prune_keeps now e = true.
Proof. unfold prune_keeps. by intros ->. Qed.

(** *** What one [Reserve] does to an entry that is not its own *)
Lemma make_room_keeps kind t now t' k e :
  make_room order kind t now = Some t' → t !! k = Some e →
  locked now e = true ∨ kind = SubjectAccount → t' !! k = Some e.
Proof.
  unfold make_room. intros H He Hk.
  destruct (cappedAt kind) as [limit|] eqn:Hc; [|by simplify_eq].
  case_match; [|by simplify_eq]. apply evict_Some in H as (k0&e0&Hk0&Hl&->&_).
  assert (k ≠ k0); [|by rewrite lookup_delete_ne].
  intros ->. destruct Hk as [Hk| ->]; [congruence|done].
Qed.

Lemma make_room_size kind t now t' limit :
  make_room order kind t now = Some t' → cappedAt kind = Some limit → Z.of_nat (size t) ≤ limit →
  Z.of_nat (size t') < limit.
Proof.
  unfold make_room. intros H Hc Hs. rewrite Hc in H. case_match; [|simplify_eq; lia].
  apply evict_Some in H as (k0&e0&Hk0&_&->&_). rewrite map_size_delete_Some by eauto.
  assert (size t ≠ 0)%nat; [|lia]. intros Hz%map_size_empty_inv. subst. by rewrite lookup_empty in Hk0.
Qed.

(** [Reserve] of another subject leaves an entry that is locked, or an
    account's that is younger than the TTL. *)
Lemma Reserve_spares now s k l s' k' e :
  tableFor k' l !! s' = Some e → prune_keeps now e = true → (s, k) ≠ (s', k') →
  locked now e = true ∨ k' = SubjectAccount →
  tableFor k' (snd (Reserve order now s k l)) !! s' = Some e.
Proof.
  intros He Hp Hne Hl. pose proof (maybe_prune_keeps _ _ _ _ _ He Hp) as H. unfold Reserve.
  set (l1 := maybe_prune now l) in *. destruct (tableFor k l1 !! s) as [e0|].
  - case_match; cbn; [done|]. rewrite tableFor_set. case_decide as Hk; [|done]. subst k'.
    rewrite lookup_insert_ne by congruence. done.
  - destruct (make_room order k (tableFor k l1) now) as [t'|] eqn:Hm; cbn; [|done].
    rewrite tableFor_set. case_decide as Hk; [|done]. subst k'.
    rewrite lookup_insert_ne by congruence. by eapply make_room_keeps.
Qed.

Lemma Reserve_locked now s k l e :
  tableFor k l !! s = Some e → locked now e = true →
  Reserve order now s k l = (false, time_sub (e_lockedUntil e) now, maybe_prune now l).
Proof.
  intros He Hl. unfold Reserve.
  rewrite (maybe_prune_keeps _ _ _ _ _ He (locked_kept _ _ Hl)). by rewrite Hl.
Qed.

Lemma Release_spares s k l s' k' :
  (s, k) ≠ (s', k') → tableFor k' (Release s k l) !! s' = tableFor k' l !! s'.
Proof.
  intros Hne. unfold Release. rewrite tableFor_set. case_decide; [subst|done].
  by rewrite lookup_delete_ne by congruence.
Qed.

Lemma Reserve_size now s k l kind limit :
  cappedAt kind = Some limit → Z.of_nat (size (tableFor kind l)) ≤ limit →
  Z.of_nat (size (tableFor kind (snd (Reserve order now s k l)))) ≤ limit.
Proof.
  intros Hc Hs. pose proof (maybe_prune_size now l kind) as Hp. unfold Reserve.
  set (l1 := maybe_prune now l) in *.
  destruct (tableFor k l1 !! s) as [e0|] eqn:He.
  - case_match; cbn; [lia|]. rewrite tableFor_set. case_decide as Hk; [subst k|lia].
    rewrite map_size_insert_Some by eauto. lia.
  - destruct (make_room order k (tableFor k l1) now) as [t'|] eqn:Hm; cbn; [|lia].
    rewrite tableFor_set. case_decide as Hk; [subst k|lia].
    assert (Z.of_nat (size t') < limit) by (eapply make_room_size; [done..|lia]).
    pose proof (map_size_insert s (count_attempt now (mkEntry 0 0 0)) t') as Hi.
    destruct (t' !! s); cbn in Hi; lia.
Qed.

(** The calls that leave the entry [e] of [(s, k)] alone: none succeeds in
    logging in as [(s, k)], and each [Reserve] comes before [until]. *)
Definition before (s : string) (k : SubjectKind) (until : Z) (c : call) : Prop :=
  match c with
  | CReserve now _ _ => now < until
  | CRelease s' k' => (s', k') ≠ (s, k)
  end.
Definition elsewhere (s : string) (k : SubjectKind) (until : Z) (c : call) : Prop :=
  match c with
  | CReserve now s' k' => now ≤ until ∧ (s', k') ≠ (s, k)
  | CRelease s' k' => (s', k') ≠ (s, k)
  end.


(** a flood of other subjects, of any kind and number, never makes the
    limiter forget an account's failures within the TTL of the last one. *)
Theorem account_count_survives s e cs l :
  l_accounts l !! s = Some e → e_lastFailure e + limiterEntryTTL ≤ max_int64 →
  Forall (elsewhere s SubjectAccount (e_lastFailure e + limiterEntryTTL)) cs →
  l_accounts (snd (exec_all order cs l)) !! s = Some e.
Proof.
  intros He Hmax Hcs. revert l He. induction Hcs as [|c cs Hc _ IH]; intros l He; [done|].
  cbn [exec_all]. destruct (exec order c l) as [r l'] eqn:Hx.
  assert (l_accounts l' !! s = Some e) as He'.
  { destruct c as [now s' k'|s' k']; cbn in Hx, Hc.
    - destruct Hc as [Hn Hne].
      assert (prune_keeps now e = true) as Hp.
      { unfold prune_keeps, time_sub. unfold max_int64, min_int64, limiterEntryTTL, Second in *.
        apply orb_true_iff. right. apply negb_true_iff, Z.ltb_ge. lia. }
      pose proof (Reserve_spares now s' k' l s SubjectAccount e He Hp Hne (or_intror eq_refl)) as H.
      destruct (Reserve order now s' k' l) as [[ok d] l1]. by injection Hx as <- <-.
    - injection Hx as <- <-. exact (eq_trans (Release_spares s' k' l s SubjectAccount Hc) He). }
  specialize (IH l' He'). by destruct (exec_all order cs l').
Qed.

(** the two tables an outsider can fill never outgrow their caps. *)
Theorem tables_bounded cs kind limit :
  cappedAt kind = Some limit →
  Z.of_nat (Len kind (snd (exec_all order cs NewLimiter))) ≤ limit.
Proof.
  intros Hc. unfold Len.
  assert (Z.of_nat (size (tableFor kind NewLimiter)) ≤ limit) as H.
  { by destruct kind; simplify_eq/=. }
  revert H. generalize NewLimiter. induction cs as [|c cs IH]; intros l H; cbn; [done|].
  destruct (exec order c l) as [r l'] eqn:Hx.
  assert (Z.of_nat (size (tableFor kind l')) ≤ limit) as H'.
  { destruct c as [now s k|s k]; cbn in Hx.
    - pose proof (Reserve_size now s k l kind limit Hc H) as Hr.
      destruct (Reserve order now s k l) as [[ok d] l1]. by injection Hx as <- <-.
    - injection Hx as <- <-. unfold Release. rewrite tableFor_set. case_decide; [subst k|done].
      pose proof (map_size_delete s (tableFor kind l)) as Hd. destruct (tableFor kind l !! s); cbn in Hd; lia. }
  specialize (IH l' H'). by destruct (exec_all order cs l').
Qed.


(** a full table makes room by dropping an unlocked entry with the fewest
    failures, the one that failed longest ago among those, and refuses the
    newcomer when every entry is locked. *)
Theorem evicts_the_least_failed now t :
  match evictLocked order t now with
  | Some t' => ∃ k e, t !! k = Some e ∧ e_lockedUntil e ≤ now ∧ t' = delete k t ∧
      ∀ k' e', t !! k' = Some e' → e_lockedUntil e' ≤ now →
        e_failures e < e_failures e' ∨
        (e_failures e = e_failures e' ∧ e_lastFailure e ≤ e_lastFailure e')
  | None => ∀ k e, t !! k = Some e → now < e_lockedUntil e
  end.
Proof.
  destruct (evictLocked order t now) as [t'|] eqn:Hv.
  - apply evict_Some in Hv as (k&e&He&Hl&->&H). exists k, e.
    split_and!; [done|unfold locked in Hl; lia|done|]. intros k' e' He' Hl'.
    destruct (H _ _ He') as [Hx|Hx]; [unfold locked in Hx; lia|exact Hx].
  - intros k e He. pose proof (evict_None _ _ _ _ Hv He) as H. unfold locked in H. lia.
Qed.
End laws.

(** ** Concrete runs *)

(** Walking a map in [map_to_list]'s order. *)
Definition walk (t : table) : list (string * limiterEntry) := map_to_list t.

Lemma walk_perm t : walk t ≡ₚ map_to_list t.
Proof. reflexivity. Qed.

(** Six failed logins as alice, at seconds 1000 to 1005. *)
Definition six_failures : Limiter :=
  snd (exec_all walk (map (λ i, CReserve (Z.of_nat (1000 + i) * Second) "user:alice" SubjectAccount)
                        (seq 0 6)) NewLimiter).
Definition alice_entry : limiterEntry := mkEntry 6 (1035 * Second) (1005 * Second).

Lemma six_failures_entry :
  tableFor SubjectAccount six_failures !! "user:alice"%string = Some alice_entry.
Proof. vm_compute. reflexivity. Qed.
Lemma six_failures_account : l_accounts six_failures !! "user:alice"%string = Some alice_entry.
Proof. exact six_failures_entry. Qed.

Definition attack : list call :=
  [CReserve (1006 * Second) "user:alice" SubjectAccount;
   CReserve (1007 * Second) "addr:v4:203.0.113.4" SubjectAddress;
   CRelease "addr:v4:203.0.113.4" SubjectAddress;
   CReserve (1034 * Second) "user:alice" SubjectAccount].


Lemma account_count_survives_witness :
  l_accounts (snd (exec_all walk (tail (removelast attack)) six_failures)) !! "user:alice"%string
  = Some alice_entry.
Proof.
  apply (account_count_survives walk walk_perm).
  - exact six_failures_account.
  - vm_compute. discriminate.
  - repeat constructor; cbn; try congruence. vm_compute. discriminate.
Defined.

Lemma tables_bounded_witness :
  Z.of_nat (Len SubjectAddress (snd (exec_all walk attack NewLimiter))) ≤ limiterMaxAddresses.
Proof. apply (tables_bounded walk walk_perm). reflexivity. Defined.


Definition two_addresses : table :=
  <["addr:v4:203.0.113.4"%string := mkEntry 3 0 (10 * Second)]>
    {["addr:v4:203.0.113.5"%string := mkEntry 1 0 (20 * Second)]}.

Lemma evicts_the_least_failed_witness :
  evictLocked walk two_addresses (30 * Second) =
    Some {["addr:v4:203.0.113.4"%string := mkEntry 3 0 (10 * Second)]} ∧
  ∃ k e, two_addresses !! k = Some e ∧ e_failures e = 1.
Proof.
  pose proof (evicts_the_least_failed walk walk_perm (30 * Second) two_addresses) as H.
  assert (evictLocked walk two_addresses (30 * Second) =
    Some {["addr:v4:203.0.113.4"%string := mkEntry 3 0 (10 * Second)]}) as E by (vm_compute; reflexivity).
  rewrite E in H. destruct H as (k&e&He&Hl&Ht&H). split; [exact E|]. exists k, e. split; [exact He|].
  specialize (H "addr:v4:203.0.113.5"%string (mkEntry 1 0 (20 * Second)) eq_refl ltac:(vm_compute; discriminate)).
  unfold two_addresses in He. apply lookup_insert_Some in He. destruct He as [[<- <-]|[_ [<- <-]%lookup_singleton_Some]]; cbn in *; lia.
Defined.
