(* ===== verification/GoString.v ===== *)
(** * Go strings

    Strings as their bytes, with the functions of [strings], [strconv] and
    [path/filepath] the models use. *)
From Stdlib Require Export Ascii.
From S2P Require Export GoErr.
Open Scope string_scope.
Open Scope list_scope.
Open Scope Z_scope.

Definition code (c : Ascii.ascii) : Z := Z.of_nat (Ascii.nat_of_ascii c).
Definition between (lo hi : Z) (c : Ascii.ascii) : bool := (lo <=? code c) && (code c <=? hi).
Definition isDigit (c : Ascii.ascii) : bool := between 48 57 c.
Definition isLower (c : Ascii.ascii) : bool := between 97 122 c.
Definition isUpper (c : Ascii.ascii) : bool := between 65 90 c.
Definition is_char (d c : Ascii.ascii) : bool := bool_decide (c = d).

Fixpoint str_forallb (p : Ascii.ascii → bool) (s : string) : bool :=
  match s with
  | EmptyString => true
  | String c s' => p c && str_forallb p s'
  end.

(** The longest prefix whose characters satisfy [p], and the rest. *)
Fixpoint str_span (p : Ascii.ascii → bool) (s : string) : string * string :=
  match s with
  | EmptyString => (EmptyString, EmptyString)
  | String c s' =>
      if p c then let (u, v) := str_span p s' in (String c u, v) else (EmptyString, s)
  end.

(** [strings.CutPrefix] *)
Fixpoint cut_prefix (pre s : string) : option string :=
  match pre, s with
  | EmptyString, _ => Some s
  | String c pre', String d s' => if is_char c d then cut_prefix pre' s' else None
  | String _ _, EmptyString => None
  end.

Definition digit (c : Ascii.ascii) : Z := code c - 48.

(** The value of a run of digits that goes on from [n]. *)
Fixpoint value (n : Z) (s : string) : Z :=
  match s with
  | EmptyString => n
  | String c s' => value (10 * n + digit c) s'
  end.


(** [strings.Cut(s, sep)] for a one-byte separator. *)
Fixpoint cut (sep : Ascii.ascii) (s : string) : option (string * string) :=
  match s with
  | EmptyString => None
  | String c s' =>
      if is_char sep c then Some (EmptyString, s')
      else match cut sep s' with
           | Some (u, v) => Some (String c u, v)
           | None => None
           end
  end.

(** [strings.Split(s, sep)] *)
Fixpoint split (sep : Ascii.ascii) (s : string) : list string :=
  match s with
  | EmptyString => [EmptyString]
  | String c s' =>
      if is_char sep c then EmptyString :: split sep s'
      else match split sep s' with
           | u :: us => String c u :: us
           | [] => [String c EmptyString]
           end
  end.

(** [strings.SplitN(s, sep, n)] for [n > 0] *)
Fixpoint splitN (sep : Ascii.ascii) (n : nat) (s : string) : list string :=
  match n with
  | O => []
  | S O => [s]
  | S n' =>
      match cut sep s with
      | None => [s]
      | Some (u, v) => u :: splitN sep n' v
      end
  end.

(** [strings.TrimRight(s, c)] for a one-byte cutset *)
Fixpoint trim_right (c : Ascii.ascii) (s : string) : string :=
  match s with
  | EmptyString => EmptyString
  | String d s' =>
      match trim_right c s' with
      | EmptyString => if is_char c d then EmptyString else String d EmptyString
      | t => String d t
      end
  end.

(** [unicode.IsSpace] on ASCII, and [strings.Fields]. *)
Definition is_space (c : Ascii.ascii) : bool := between 9 13 c || (code c =? 32).
Fixpoint fields_go (word : string) (s : string) : list string :=
  match s with
  | EmptyString => if bool_decide (word = "") then [] else [word]
  | String c s' =>
      if is_space c then if bool_decide (word = "") then fields_go "" s' else word :: fields_go "" s'
      else fields_go (word +:+ String c EmptyString) s'
  end.
Definition fields (s : string) : list string := fields_go "" s.

(** [strings.TrimSpace] on ASCII *)
Fixpoint trim_left_space (s : string) : string :=
  match s with
  | String c s' => if is_space c then trim_left_space s' else s
  | EmptyString => EmptyString
  end.
Fixpoint trim_right_space (s : string) : string :=
  match s with
  | EmptyString => EmptyString
  | String c s' =>
      match trim_right_space s' with
      | EmptyString => if is_space c then EmptyString else String c EmptyString
      | t => String c t
      end
  end.
Definition TrimSpace (s : string) : string := trim_right_space (trim_left_space s).

(** [strconv.Atoi], and [strconv.ParseInt(s, 10, 64)]: [None] is an error. *)
Definition atoi_unsigned (s : string) : option Z :=
  if negb (bool_decide (s = "")) && str_forallb isDigit s then Some (value 0 s) else None.
Definition Atoi (s : string) : option Z :=
  let n :=
    match s with
    | String c s' =>
        if is_char "-"%char c then Z.opp <$> atoi_unsigned s'
        else if is_char "+"%char c then atoi_unsigned s'
        else atoi_unsigned s
    | EmptyString => None
    end in
  match n with
  | Some z => if (min_int64 <=? z) && (z <=? max_int64) then Some z else None
  | None => None
  end.

(** [filepath.Clean] on Unix: the path is read element by element onto a stack. *)
Definition clean_push (rooted : bool) (stack : list string) (e : string) : list string :=
  if bool_decide (e = "") || bool_decide (e = ".") then stack
  else if bool_decide (e = "..") then
    match stack with
    | top :: rest => if bool_decide (top = "..") then e :: stack else rest
    | [] => if rooted then [] else [e]
    end
  else e :: stack.
Definition Clean (p : string) : string :=
  let rooted := match p with String c _ => is_char "/"%char c | EmptyString => false end in
  let out := join_with "/" (reverse (foldl (clean_push rooted) [] (split "/"%char p))) in
  if rooted then "/" +:+ out else if bool_decide (out = "") then "." else out.

Example clean_1 : map Clean [""; "/"; "/mnt//disk1/"; "/mnt/./a/../disk1"; "/.."; "a/../.."; "../a/."]
  = ["."; "/"; "/mnt/disk1"; "/mnt/disk1"; "/"; ".."; "../a"].
Proof. reflexivity. Qed.
Example atoi_1 : map Atoi ["12"; "-7"; "+3"; ""; "-"; "1x"; "9223372036854775808"; "-9223372036854775808"]
  = [Some 12; Some (-7); Some 3; None; None; None; None; Some (-9223372036854775808)].
Proof. reflexivity. Qed.
Example split_1 : split ":"%char "a::b" = ["a"; ""; "b"] ∧ splitN ":"%char 2 "a:b:c" = ["a"; "b:c"].
Proof. split; reflexivity. Qed.
Example fields_1 : fields "      12 hardlinks " = ["12"; "hardlinks"].
Proof. reflexivity. Qed.

(** ** Walking a map

    [for k, v := range m] visits the entries in an order Go does not specify:
    [range] is any such order, the same each time a given map is walked. *)
Class RangeOrder := {
  range {A} : gmap string A → list (string * A);
  range_perm {A} (m : gmap string A) : range m ≡ₚ map_to_list m
}.

Lemma range_elem `{RangeOrder} {A} (m : gmap string A) k a : (k, a) ∈ range m ↔ m !! k = Some a.
Proof. rewrite (range_perm m). apply elem_of_map_to_list. Qed.

(** One such order, to compute with. *)
Definition some_order : RangeOrder := {| range _ m := map_to_list m; range_perm _ _ := Permutation_refl _ |}.

(** ** Strings without a separator *)
#[local] Arguments is_char : simpl never.
#[local] Arguments String.app : simpl nomatch.

Definition lacks (c : Ascii.ascii) (s : string) : bool := str_forallb (λ d, negb (is_char c d)) s.

Lemma is_char_refl c : is_char c c = true.
Proof. unfold is_char. by rewrite bool_decide_true. Qed.

Lemma lacks_cons c d s : lacks c (String d s) = true ↔ is_char c d = false ∧ lacks c s = true.
Proof. unfold lacks. cbn. by rewrite andb_true_iff, negb_true_iff. Qed.

Lemma cut_lacks c u v : lacks c u = true → cut c (u +:+ String c v) = Some (u, v).
Proof.
  induction u as [|d u IH]; cbn.
  - by rewrite is_char_refl.
  - intros [Hd Hu]%lacks_cons. by rewrite Hd, IH.
Qed.

Lemma cut_none c u : lacks c u = true → cut c u = None.
Proof. induction u as [|d u IH]; cbn; [done|]. intros [Hd Hu]%lacks_cons. by rewrite Hd, IH. Qed.

Lemma split_lacks c u : lacks c u = true → split c u = [u].
Proof. induction u as [|d u IH]; cbn; [done|]. intros [Hd Hu]%lacks_cons. by rewrite Hd, IH. Qed.

Lemma split_lacks_app c u v : lacks c u = true → split c (u +:+ String c v) = u :: split c v.
Proof.
  induction u as [|d u IH]; cbn.
  - by rewrite is_char_refl.
  - intros [Hd Hu]%lacks_cons. by rewrite Hd, IH.
Qed.

Lemma lacks_app c u v : lacks c (u +:+ v) = lacks c u && lacks c v.
Proof. induction u as [|d u IH]; [done|]. cbn. unfold lacks in *. by rewrite IH, andb_assoc. Qed.

Lemma trim_right_app c u v : trim_right c v ≠ "" → trim_right c (u +:+ v) = u +:+ trim_right c v.
Proof.
  intros Hv. induction u as [|d u IH]; [done|]. cbn. rewrite IH.
  destruct u; cbn; [|done]. by destruct (trim_right c v).
Qed.

Lemma trim_right_lacks c u : lacks c u = true → trim_right c u = u.
Proof.
  induction u as [|d u IH]; [done|]. cbn. intros [Hd Hu]%lacks_cons. rewrite IH by done.
  by destruct u; rewrite ?Hd.
Qed.
