(* ===== verification/GoNumber.v ===== *)
(** * Decimal numbers

    What [strconv] writes and reads back. *)
From stdpp Require Import pretty.
From S2P Require Export GoString.
Open Scope string_scope.
Open Scope list_scope.
Open Scope Z_scope.

Lemma digit_char n : (n < 10)%N → digit (pretty_N_char n) = Z.of_N n ∧ isDigit (pretty_N_char n) = true.
Proof.
  intros Hn. assert (n ∈ [0; 1; 2; 3; 4; 5; 6; 7; 8; 9]%N) as Hin by (rewrite !elem_of_cons; lia).
  repeat (apply elem_of_cons in Hin as [->|Hin]; [done|]). by apply elem_of_nil in Hin.
Qed.

Lemma value_pretty_go n s : value 0 (pretty_N_go n s) = value (Z.of_N n) s ∧
  (str_forallb isDigit s = true → str_forallb isDigit (pretty_N_go n s) = true).
Proof.
  revert s. induction (N.lt_wf_0 n) as [n _ IH]; intros s.
  destruct (decide (n = 0)%N) as [->|Hn]; [by rewrite pretty_N_go_0|].
  rewrite pretty_N_go_step by lia.
  destruct (digit_char (n `mod` 10)) as [Hv Hd]; [by apply N.mod_lt|].
  destruct (IH (n `div` 10)%N ltac:(apply N.div_lt; lia) (String (pretty_N_char (n `mod` 10)) s)) as [-> Hall].
  split; [cbn; rewrite Hv; f_equal; pose proof (N.div_mod n 10 ltac:(done)); lia|]. intros Hs. apply Hall. cbn. by rewrite Hd.
Qed.

Lemma pretty_digits n : atoi_unsigned (pretty n) = Some (Z.of_N n) ∧ str_forallb isDigit (pretty n) = true.
Proof.
  unfold pretty, pretty_N. destruct (decide (n = 0)%N) as [->|Hn]; [done|].
  destruct (value_pretty_go n "") as [Hv Hd]. specialize (Hd eq_refl). split; [|done]. unfold atoi_unsigned.
  rewrite Hd, Hv, bool_decide_false; [done|].
  intros He. rewrite He in Hv. cbn in Hv. lia.
Qed.

Lemma digits_lack c s : (∀ d, isDigit d = true → is_char c d = false) →
  str_forallb isDigit s = true → lacks c s = true.
Proof.
  intros Hc. induction s as [|d s IH]; [done|]. cbn. rewrite andb_true_iff. intros [Hd Hs].
  apply lacks_cons. auto.
Qed.

Lemma digit_sign c : isDigit c = true → is_char "-" c = false ∧ is_char "+" c = false.
Proof. intros Hc. split; apply bool_decide_eq_false; intros ->; done. Qed.

(** Any [int64] is read back as it was written, and nothing else is. *)
Lemma Atoi_written z : Atoi (pretty z) = if (min_int64 <=? z) && (z <=? max_int64) then Some z else None.
Proof.
  destruct z as [|p|p]; [done|..].
  - change (pretty (Z.pos p)) with (pretty (N.pos p)). destruct (pretty_digits (N.pos p)) as [Hv Hd]. unfold Atoi.
    destruct (pretty (N.pos p)) as [|c s]; [by cbn in Hv|]. cbn in Hd. apply andb_true_iff in Hd as [Hc _].
    destruct (digit_sign c Hc) as [-> ->]. by rewrite Hv.
  - change (pretty (Z.neg p)) with (String "-" (pretty (N.pos p))). unfold Atoi.
    destruct (pretty_digits (N.pos p)) as [-> _]. by change (is_char "-" "-") with true.
Qed.
Lemma Atoi_pretty_Z z : in_int64 z → Atoi (pretty z) = Some z.
Proof. intros [??]. by rewrite Atoi_written, !(proj2 (Z.leb_le _ _)). Qed.
Lemma Atoi_pretty_inv z z' : Atoi (pretty z) = Some z' → z' = z.
Proof. rewrite Atoi_written. destruct (_ && _); congruence. Qed.
Lemma Atoi_pretty n : Z.of_N n ≤ max_int64 → Atoi (pretty n) = Some (Z.of_N n).
Proof.
  intros Hn. rewrite <-Atoi_pretty_Z by (unfold in_int64, min_int64 in *; lia). by destruct n.
Qed.
