(* ===== verification/JsonStruct.v ===== *)
(** * Decoding JSON objects into structs

    [encoding/json]'s decoding of an object into a struct, field by field: a key
    is matched with the fields' names, an unknown key is skipped, a value of the
    wrong type is an error that does not stop the decoding of the rest, and [null]
    leaves a field as it is (it empties a slice). A field given twice is set
    twice, a slice anew. *)
From stdpp Require Import pretty.
From S2P Require Export Json GoNumber.
Open Scope string_scope.
Open Scope list_scope.
Open Scope Z_scope.

Record field (R : Type) := mkField { f_name : string; f_decode : json → R → option R }.
Arguments mkField {R}.
Arguments f_name {R}.
Arguments f_decode {R}.

Section struct.
Context {R : Type}.

Definition str_field (name : string) (set : string → R → R) : field R :=
  mkField name (λ v r, match v with JStr s => Some (set s r) | JNull => Some r | _ => None end).
(** An [int] or an [int64]. *)
Definition int_field (name : string) (set : Z → R → R) : field R :=
  mkField name (λ v r, match v with JNum lit => n ← Atoi lit; Some (set n r) | JNull => Some r | _ => None end).
Definition bool_field (name : string) (set : bool → R → R) : field R :=
  mkField name (λ v r, match v with JBool b => Some (set b r) | JNull => Some r | _ => None end).
Definition time_field (name : string) (set : Z → R → R) : field R :=
  mkField name (λ v r, match v with JTime t => Some (set t r) | JNull => Some r | _ => None end).
Definition list_field {E} (name : string) (elem : json → option E) (set : list E → R → R) : field R :=
  mkField name (λ v r, match v with JArr l => es ← mapM elem l; Some (set es r) | JNull => Some (set [] r) | _ => None end).

Definition field_for (fs : list (field R)) (key : string) : option (field R) :=
  match_field (map f_name fs) key ≫= λ i, fs !! i.

(** The struct, and whether some value had the wrong type. *)
Fixpoint decode_struct (fs : list (field R)) (obj : list (string * json)) (r : R) (bad : bool) : R * bool :=
  match obj with
  | [] => (r, bad)
  | (key, v) :: obj' =>
      match field_for fs key with
      | None => decode_struct fs obj' r bad
      | Some f =>
          match f_decode f v r with
          | Some r' => decode_struct fs obj' r' bad
          | None => decode_struct fs obj' r true
          end
      end
  end.
Definition struct_of (fs : list (field R)) (zero : R) (v : json) : option R :=
  match v with
  | JNull => Some zero
  | JObj obj => match decode_struct fs obj zero false with (r, false) => Some r | (_, true) => None end
  | _ => None
  end.

(** [json.Unmarshal(data, &r)] for the zero [r] *)
Definition unmarshal_struct (fs : list (field R)) (zero : R) (data : bytes) : res err R :=
  match data with
  | BNil => Err (EOther "unexpected end of JSON input")
  | BRaw _ => Err (EOther "invalid character")
  | BJson v => match struct_of fs zero v with Some r => Ok r | None => Err (EOther "json: cannot unmarshal") end
  end.

(** An object is decoded exactly when each of its fields is. *)
Fixpoint decode_all (fs : list (field R)) (obj : list (string * json)) (r : R) : option R :=
  match obj with
  | [] => Some r
  | (key, v) :: obj' =>
      match field_for fs key with
      | None => decode_all fs obj' r
      | Some f => f_decode f v r ≫= decode_all fs obj'
      end
  end.
Lemma decode_bad fs obj : ∀ r, (decode_struct fs obj r true).2 = true.
Proof.
  induction obj as [|[key v] obj IH]; intros r; [done|]. cbn. destruct (field_for fs key) as [f|]; [|done].
  by destruct (f_decode f v r).
Qed.
Lemma struct_of_all fs zero obj : struct_of fs zero (JObj obj) = decode_all fs obj zero.
Proof.
  unfold struct_of. revert zero. induction obj as [|[key v] obj IH]; intros r; [done|]. cbn.
  destruct (field_for fs key) as [f|]; [|done]. destruct (f_decode f v r) as [r'|]; [done|].
  pose proof (decode_bad fs obj r) as Hb. by destruct (decode_struct fs obj r true) as [? []].
Qed.
End struct.

(** [omitempty] of a number and of a slice *)
Definition omit_zero (name : string) (n : Z) : list (string * json) :=
  if n =? 0 then [] else [(name, JNum (pretty n))].
Definition omit_nil (name : string) (l : list json) : list (string * json) :=
  match l with [] => [] | _ => [(name, JArr l)] end.

(** Elements that are written one by one are read back one by one. *)
Lemma mapM_written {E} (dec : json → option E) (enc : E → json) es :
  (∀ e, e ∈ es → dec (enc e) = Some e) → mapM dec (map enc es) = Some es.
Proof.
  induction es as [|e es IH]; intros H; [done|]. cbn. rewrite H by by left. cbn.
  rewrite IH; [done|]. intros e' He'. apply H. by right.
Qed.

(** Decodes the fields of an object whose keys are known. *)
Ltac json_read :=
  try unfold unmarshal_struct; cbn -[Atoi pretty field_for mapM struct_of]; rewrite ?struct_of_all; cbn -[Atoi pretty field_for mapM];
  repeat match goal with |- context [field_for ?fs ?key] =>
    let f := eval cbv -[Atoi pretty mapM mbind option_bind] in (field_for fs key) in change (field_for fs key) with f;
    cbn -[Atoi pretty field_for mapM]
  end.
