(* ===== verification/DebVersion.v ===== *)
(** * Release versions and dpkg's version order

    [internal/update/version.go]: which strings are release versions, which tag
    and channel a version belongs to, what a package's file name declares, and
    the comparison that decides whether an update is newer. A Go string is its
    bytes. *)
From S2P Require Export GoString.
Open Scope string_scope.
Open Scope Z_scope.

(** [[0-9]+] at the front of [s]: what is left. *)
Definition cut_number (s : string) : option string :=
  match str_span isDigit s with
  | (EmptyString, _) => None
  | (_, rest) => Some rest
  end.

(** [releaseVersionRE], matched from left to right: its classes do not overlap
    with what follows them, so the match needs no backtracking. *)
Definition isReleaseVersion (v : string) : bool :=
  match (r1 ← cut_number v; r2 ← cut_prefix "." r1; r3 ← cut_number r2;
         r4 ← cut_prefix "." r3; cut_number r4) with
  | None => false
  | Some EmptyString => true
  | Some rest =>
      match (r1 ← cut_prefix "~beta." rest; cut_number r1) with
      | Some EmptyString => true
      | _ => false
      end
  end.

(** [debVersionRE] *)
Definition deb_char (c : Ascii.ascii) : bool :=
  isUpper c || isLower c || isDigit c || is_char "."%char c || is_char "+"%char c || is_char "~"%char c || is_char "-"%char c.
Definition isDebVersion (v : string) : bool :=
  match v with
  | EmptyString => false
  | String c s => isDigit c && str_forallb deb_char s
  end.

Inductive Channel := ChannelStable | ChannelBeta.
#[export] Instance Channel_eq_dec : EqDecision Channel.
Proof. solve_decision. Defined.

Definition channelForVersion (v : string) : Channel :=
  if str_forallb (λ c, negb (is_char "~"%char c)) v then ChannelStable else ChannelBeta.

(** [strings.Replace(s, old, new, 1)] *)
Fixpoint replace_first (old new s : string) : string :=
  match cut_prefix old s with
  | Some rest => new +:+ rest
  | None =>
      match s with
      | EmptyString => EmptyString
      | String c s' => String c (replace_first old new s')
      end
  end.

Definition tagForVersion (v : string) : string := "v" +:+ replace_first "~beta." "-beta." v.

(** [debFileNameRE]'s two groups. *)
Definition match_deb_file (name : string) : option (string * string) :=
  r ← cut_prefix "hoserva_" name;
  let (version, r1) := str_span (λ c, negb (is_char "_"%char c)) r in
  r2 ← cut_prefix "_" r1;
  let (arch, r3) := str_span (λ c, isLower c || isDigit c) r2 in
  if bool_decide (version = "") || bool_decide (arch = "") || negb (bool_decide (r3 = ".deb"))
  then None else Some (version, arch).

Definition release_mismatch (name : string) : err :=
  EWrap "" (ESentinel S_ReleaseMismatch) (": " +:+ quoted name +:+ " is not a release package file name").

Definition debFileVersion (name : string) : res err (string * string) :=
  match match_deb_file name with
  | Some (version, arch) =>
      if isReleaseVersion version then Ok (version, arch)
      else Err (release_mismatch name)
  | None => Err (release_mismatch name)
  end.

(** ** The comparison *)

(** What precedes and what follows the last ['-'], if there is one. *)
Fixpoint cut_last_dash (v : string) : option (string * string) :=
  match v with
  | EmptyString => None
  | String c v' =>
      match cut_last_dash v' with
      | Some (u, r) => Some (String c u, r)
      | None => if is_char "-"%char c then Some (EmptyString, v') else None
      end
  end.

Definition splitRevision (v : string) : string * string := default (v, "") (cut_last_dash v).

Definition debOrder (c : Ascii.ascii) : Z :=
  if is_char "~"%char c then -1
  else if isDigit c then 0
  else if isLower c || isUpper c then code c
  else code c + 256.

(** [len(s) > 0 && !isDigit(s[0])] *)
Definition starts_nondigit (s : string) : bool :=
  match s with EmptyString => false | String c _ => negb (isDigit c) end.
Definition head_order (s : string) : Z :=
  match s with
  | String c _ => if starts_nondigit s then debOrder c else 0
  | EmptyString => 0
  end.
Definition drop_nondigit (s : string) : string :=
  match s with
  | String _ s' => if starts_nondigit s then s' else s
  | EmptyString => EmptyString
  end.

Definition leadingDigits (s : string) : string * string := str_span isDigit s.

(** [strings.TrimLeft(s, "0")] *)
Fixpoint trim_zeros (s : string) : string :=
  match s with
  | String c s' => if is_char "0"%char c then trim_zeros s' else s
  | EmptyString => EmptyString
  end.

(** Go's [<] on strings. *)
Fixpoint str_ltb (a b : string) : bool :=
  match a, b with
  | _, EmptyString => false
  | EmptyString, String _ _ => true
  | String c a', String d b' => (code c <? code d) || ((code c =? code d) && str_ltb a' b')
  end.

(** The inner loop: a decision, or what is left of both strings. *)
Fixpoint nondigit_loop (fuel : nat) (a b : string) : option (Z + string * string) :=
  match fuel with
  | O => None
  | S fuel' =>
      if starts_nondigit a || starts_nondigit b then
        let ac := head_order a in
        let bc := head_order b in
        if negb (ac =? bc) then Some (inl (if ac <? bc then -1 else 1))
        else nondigit_loop fuel' (drop_nondigit a) (drop_nondigit b)
      else Some (inr (a, b))
  end.

Fixpoint part_loop (fuel : nat) (a b : string) : option Z :=
  match fuel with
  | O => None
  | S fuel' =>
      match a, b with
      | EmptyString, EmptyString => Some 0
      | _, _ =>
          match nondigit_loop (S (String.length a)) a b with
          | None => None
          | Some (inl c) => Some c
          | Some (inr (a1, b1)) =>
              let (an0, a2) := leadingDigits a1 in
              let (bn0, b2) := leadingDigits b1 in
              let an := trim_zeros an0 in
              let bn := trim_zeros bn0 in
              if negb (String.length an =? String.length bn)%nat
              then Some (if (String.length an <? String.length bn)%nat then -1 else 1)
              else if negb (bool_decide (an = bn)) then Some (if str_ltb an bn then -1 else 1)
              else part_loop fuel' a2 b2
          end
      end
  end.

(** Every turn of the outer loop consumes a character of [a] or of [b]. *)
Definition compareDebianPart (a b : string) : Z :=
  default 0 (part_loop (S (String.length a + String.length b)) a b).

Definition compareDebianVersions (a b : string) : res err Z :=
  match list_find (λ v, isDebVersion v = false) [a; b] with
  | Some (_, v) => Err (EOther ("update: " +:+ quoted v +:+ " is not a comparable Debian version"))
  | None =>
      let (au, ar) := splitRevision a in
      let (bu, br) := splitRevision b in
      let c := compareDebianPart au bu in
      if negb (c =? 0) then Ok c else Ok (compareDebianPart ar br)
  end.

(** ** What the order means

    A version part is read as the infinite sequence of the weights of its
    non-digit characters, each run of them ended by a zero, and the values of
    its numbers; the sequence goes on with zeros. *)
(** [in_number] is the value read so far of the number being read. *)
Fixpoint weights (in_number : option Z) (s : string) : list Z :=
  match s, in_number with
  | EmptyString, None => []
  | EmptyString, Some n => [n]
  | String c s', None =>
      if isDigit c then 0 :: weights (Some (digit c)) s' else debOrder c :: weights None s'
  | String c s', Some n =>
      if isDigit c then weights (Some (10 * n + digit c)) s' else n :: debOrder c :: weights None s'
  end.

(** Lexicographic order of two such sequences. *)
Fixpoint lex (xs ys : list Z) : comparison :=
  match xs, ys with
  | [], [] => Eq
  | x :: xs', [] => match x ?= 0 with Eq => lex xs' [] | c => c end
  | [], y :: ys' => match 0 ?= y with Eq => (fix go ys := match ys with [] => Eq | y :: ys' => match 0 ?= y with Eq => go ys' | c => c end end) ys' | c => c end
  | x :: xs', y :: ys' => match x ?= y with Eq => lex xs' ys' | c => c end
  end.

Definition sign (c : comparison) : Z := match c with Lt => -1 | Eq => 0 | Gt => 1 end.

Example order_1 : compareDebianVersions "0.3.0~beta.2" "0.3.0~beta.10" = Ok (-1).
Proof. reflexivity. Qed.
Example order_2 : compareDebianVersions "0.3.0~beta.1" "0.3.0" = Ok (-1).
Proof. reflexivity. Qed.
Example order_3 : compareDebianVersions "0.2.0-1" "0.2.0" = Ok 1.
Proof. reflexivity. Qed.
Example order_4 : compareDebianVersions "0.2.0+b1" "0.2.0" = Ok 1.
Proof. reflexivity. Qed.
Example order_5 : is_ok (compareDebianVersions "v0.2.0" "0.1.0") = false.
Proof. reflexivity. Qed.
Example name_1 : debFileVersion "hoserva_0.3.0~beta.1_arm64.deb" = Ok ("0.3.0~beta.1", "arm64").
Proof. reflexivity. Qed.
Example name_2 : map (λ n, is_ok (debFileVersion n))
    ["hoserva_0.2.0_amd64.deb.sig"; "other_0.2.0_amd64.deb"; "hoserva_0.2_amd64.deb"; "hoserva_0.2.0.deb"]
  = [false; false; false; false].
Proof. reflexivity. Qed.
Example release_1 : map isReleaseVersion
    [""; "0.2"; "0.2.0-1"; "0.2.0~rc.1"; "v0.2.0"; "0.2.0~beta"; "0.2.0~beta.1.2"; "1:0.2.0"; "0.2.0"; "0.3.0~beta.1"]
  = [false; false; false; false; false; false; false; false; true; true].
Proof. reflexivity. Qed.

(** ** The sequences and their order *)

Lemma debOrder_nonzero c : isDigit c = false → debOrder c ≠ 0.
Proof.
  intros Hd. unfold debOrder. rewrite Hd. unfold isDigit, isLower, isUpper, between, code in *.
  repeat case_match; lia.
Qed.

(** [lex] step by step, whichever of the two sequences is written out. *)
Lemma lex_step xs ys :
  lex xs ys = match hd 0 xs ?= hd 0 ys with Eq => lex (tl xs) (tl ys) | c => c end.
Proof. destruct xs as [|x xs], ys as [|y ys]; cbn; try done. by destruct ys. Qed.

Lemma lex_pad xs ys : lex (hd 0 xs :: tl xs) ys = lex xs ys.
Proof. rewrite (lex_step xs ys), lex_step. done. Qed.
Lemma lex_pad_r xs ys : lex xs (hd 0 ys :: tl ys) = lex xs ys.
Proof. rewrite (lex_step xs ys), lex_step. done. Qed.

Lemma lex_antisym xs ys : lex ys xs = CompOpp (lex xs ys).
Proof.
  assert (∀ n xs ys, (length xs + length ys ≤ n)%nat → lex ys xs = CompOpp (lex xs ys)) as H; [|by eapply H].
  clear. induction n as [|n IH]; intros xs ys Hn.
  { destruct xs, ys; cbn in Hn; try lia. done. }
  rewrite (lex_step xs), (lex_step ys), (Z.compare_antisym (hd 0 xs)).
  destruct (hd 0 xs ?= hd 0 ys); cbn; try done.
  destruct xs as [|x xs], ys as [|y ys]; try done; apply IH; cbn in *; lia.
Qed.

(** [lex xs ys] is not [Gt]: [xs] comes before [ys] or is the same sequence. *)
Lemma lex_trans xs ys zs : lex xs ys ≠ Gt → lex ys zs ≠ Gt → lex xs zs ≠ Gt.
Proof.
  assert (∀ n xs ys zs, (length xs + length ys + length zs ≤ n)%nat →
    lex xs ys ≠ Gt → lex ys zs ≠ Gt → lex xs zs ≠ Gt) as H; [|by eapply H].
  clear. induction n as [|n IH]; intros xs ys zs Hn.
  { destruct xs, ys, zs; cbn in Hn; try lia. done. }
  rewrite (lex_step xs ys), (lex_step ys zs), (lex_step xs zs).
  destruct (Z.compare_spec (hd 0 xs) (hd 0 ys)), (Z.compare_spec (hd 0 ys) (hd 0 zs)),
    (Z.compare_spec (hd 0 xs) (hd 0 zs)); try lia; try done.
  assert (∀ l : list Z, length (tl l) ≤ length l)%nat as Hl by (intros []; cbn; lia).
  destruct xs as [|x xs], ys as [|y ys], zs as [|z zs]; try done; apply IH; cbn in *; lia.
Qed.

(** ** Numbers *)

Definition digits (s : string) : Prop := str_forallb isDigit s = true.

Definition slen (s : string) : Z := Z.of_nat (String.length s).

Lemma digit_range c : isDigit c = true → 0 ≤ digit c ≤ 9.
Proof. unfold isDigit, between, digit. lia. Qed.

Lemma slen_cons c s : slen (String c s) = slen s + 1.
Proof. unfold slen. cbn. lia. Qed.

Lemma slen_nonneg s : 0 ≤ slen s.
Proof. unfold slen. lia. Qed.

Lemma value_range s n : digits s → 0 ≤ n → n * 10 ^ slen s ≤ value n s < (n + 1) * 10 ^ slen s.
Proof.
  unfold digits. revert n. induction s as [|c s IH]; intros n Hd Hn; [unfold slen; cbn; lia|].
  cbn in Hd. apply andb_true_iff in Hd as [Hc Hs]. pose proof (digit_range c Hc).
  cbn [value]. rewrite slen_cons, Z.pow_add_r by (pose proof (slen_nonneg s); lia).
  specialize (IH (10 * n + digit c) Hs ltac:(lia)). nia.
Qed.

(** Two runs of the same length compare as their values do. *)
Lemma value_compare u v n m :
  digits u → digits v → String.length u = String.length v → 0 ≤ n → 0 ≤ m →
  (value n u ?= value m v) =
    match n ?= m with
    | Eq => if bool_decide (u = v) then Eq else if str_ltb u v then Lt else Gt
    | c => c
    end.
Proof.
  unfold digits. revert v n m. induction u as [|c u IH]; intros [|d v] n m Hu Hv Hl Hn Hm; try done.
  { cbn. by destruct (n ?= m). }
  cbn in Hu, Hv, Hl. apply andb_true_iff in Hu as [Hc Hu]. apply andb_true_iff in Hv as [Hd Hv].
  pose proof (digit_range c Hc). pose proof (digit_range d Hd).
  cbn [value]. rewrite IH by (done || lia).
  assert (digit c = digit d → c = d) as Hinj.
  { unfold digit, code. intros E. rewrite <-(Ascii.ascii_nat_embedding c), <-(Ascii.ascii_nat_embedding d).
    f_equal. lia. }
  destruct (Z.compare_spec n m) as [->|Hlt|Hlt].
  - destruct (Z.compare_spec (10 * m + digit c) (10 * m + digit d)) as [E|E|E].
    + assert (digit c = digit d) as E' by lia. apply Hinj in E' as ->. cbn [str_ltb].
      rewrite Z.ltb_irrefl, Z.eqb_refl. cbn. do 2 case_bool_decide; congruence.
    + rewrite bool_decide_false by (intros [= -> ->]; lia). cbn [str_ltb].
      unfold digit in E. by replace (code c <? code d) with true by lia.
    + rewrite bool_decide_false by (intros [= -> ->]; lia). cbn [str_ltb]. unfold digit in E.
      replace (code c <? code d) with false by lia. by replace (code c =? code d) with false by lia.
  - replace ((10 * n + digit c) ?= (10 * m + digit d)) with Lt by (symmetry; apply Z.compare_lt_iff; lia). done.
  - replace ((10 * n + digit c) ?= (10 * m + digit d)) with Gt by (symmetry; apply Z.compare_gt_iff; lia). done.
Qed.

Lemma trim_zeros_spec s :
  digits s → value 0 (trim_zeros s) = value 0 s ∧ digits (trim_zeros s) ∧
  (trim_zeros s = EmptyString ∨ 10 ^ (slen (trim_zeros s) - 1) ≤ value 0 (trim_zeros s)).
Proof.
  unfold digits. induction s as [|c s IH]; intros Hd; [cbn; auto|].
  cbn in Hd. apply andb_true_iff in Hd as [Hc Hs]. cbn [trim_zeros]. unfold is_char.
  case_bool_decide as E.
  - subst c. destruct (IH Hs) as (->&?&?). split_and!; [done..|done].
  - split_and!; [done|cbn; by rewrite Hc, Hs|]. right. cbn [value]. rewrite slen_cons.
    pose proof (digit_range c Hc). replace (slen s + 1 - 1) with (slen s) by lia.
    pose proof (value_range s (10 * 0 + digit c) Hs ltac:(lia)).
    assert (digit c ≠ 0); [|nia]. intros Hz. apply E. unfold digit, code in Hz.
    rewrite <-(Ascii.ascii_nat_embedding c). by replace (Ascii.nat_of_ascii c) with 48%nat by lia.
Qed.

(** What the loop compares, lengths then strings without leading zeros, is the
    order of the values. *)
Lemma number_compare u v :
  digits u → digits v →
  let an := trim_zeros u in let bn := trim_zeros v in
  (value 0 u ?= value 0 v) =
    if negb (String.length an =? String.length bn)%nat
    then (if (String.length an <? String.length bn)%nat then Lt else Gt)
    else if negb (bool_decide (an = bn)) then (if str_ltb an bn then Lt else Gt) else Eq.
Proof.
  intros Hu Hv an bn.
  destruct (trim_zeros_spec u Hu) as (<-&Hdu&Hbu), (trim_zeros_spec v Hv) as (<-&Hdv&Hbv).
  fold an in Hdu, Hbu |- *. fold bn in Hdv, Hbv |- *.
  assert (∀ x y, digits x → digits y → (String.length x < String.length y)%nat →
    (y = EmptyString ∨ 10 ^ (slen y - 1) ≤ value 0 y) → value 0 x < value 0 y) as Hshort.
  { clear. intros x y Hx Hy Hlen [->|Hb]; [cbn in Hlen; lia|].
    pose proof (value_range x 0 Hx ltac:(lia)). unfold slen in *.
    assert (10 ^ Z.of_nat (String.length x) ≤ 10 ^ (Z.of_nat (String.length y) - 1)) by (apply Z.pow_le_mono_r; lia).
    lia. }
  destruct (Nat.eqb_spec (String.length an) (String.length bn)) as [E|E]; cbn [negb].
  - rewrite value_compare by (done || lia). cbn. case_bool_decide; done.
  - destruct (Nat.ltb_spec (String.length an) (String.length bn)).
    + apply Z.compare_lt_iff, Hshort; auto.
    + apply Z.compare_gt_iff, Hshort; auto. lia.
Qed.

(** ** The loops *)

Lemma weights_head a : hd 0 (weights None a) = head_order a.
Proof. destruct a as [|c s]; [done|]. cbn. by destruct (isDigit c). Qed.

Lemma head_order_nonzero a : starts_nondigit a = true → head_order a ≠ 0.
Proof.
  destruct a as [|c s]; [done|]. cbn. destruct (isDigit c) eqn:E; [done|]. intros _. by apply debOrder_nonzero.
Qed.

Lemma head_order_zero a : starts_nondigit a = false → head_order a = 0.
Proof. destruct a as [|c s]; [done|]. cbn. by destruct (isDigit c). Qed.

Lemma weights_drop a : starts_nondigit a = true → tl (weights None a) = weights None (drop_nondigit a).
Proof. destruct a as [|c s]; [done|]. cbn. by destruct (isDigit c). Qed.

Lemma drop_shorter a : starts_nondigit a = true → (String.length (drop_nondigit a) < String.length a)%nat.
Proof. destruct a as [|c s]; [done|]. cbn. intros ->. lia. Qed.

Lemma weights_number n s :
  weights (Some n) s = value n (fst (leadingDigits s)) :: weights None (snd (leadingDigits s)).
Proof.
  unfold leadingDigits. revert n. induction s as [|c s IH]; intros n; [done|]. cbn.
  destruct (isDigit c) eqn:E; [|by cbn; rewrite E].
  rewrite IH. by destruct (str_span isDigit s).
Qed.

Lemma lex_number a ys :
  starts_nondigit a = false →
  lex (weights None a) ys
  = lex (0 :: value 0 (fst (leadingDigits a)) :: weights None (snd (leadingDigits a))) ys.
Proof.
  destruct a as [|c s]; intros H.
  - cbn [weights leadingDigits str_span fst snd value]. rewrite <-(lex_pad [] ys). cbn [hd tl].
    rewrite (lex_step [0]), (lex_step [0; 0]). cbn [hd tl].
    destruct (0 ?= hd 0 ys); try done. by rewrite <-(lex_pad [] (tl ys)).
  - cbn in H. apply negb_false_iff in H. cbn [weights]. rewrite H, weights_number.
    unfold leadingDigits. cbn [str_span]. rewrite H. by destruct (str_span isDigit s).
Qed.

Lemma span_digits s : digits (fst (leadingDigits s)).
Proof.
  unfold digits, leadingDigits. induction s as [|c s IH]; [done|]. cbn.
  destruct (isDigit c) eqn:E; [|done]. destruct (str_span isDigit s). cbn in *. by rewrite E, IH.
Qed.

Lemma span_shorter s :
  (String.length (snd (leadingDigits s)) ≤ String.length s)%nat ∧
  (starts_nondigit s = false → s ≠ EmptyString →
   String.length (snd (leadingDigits s)) < String.length s)%nat.
Proof.
  unfold leadingDigits. induction s as [|c s [IH _]]; [done|]. cbn.
  destruct (isDigit c); cbn; [|split; [lia|done]]. destruct (str_span isDigit s). cbn in *. split; [lia|intros; lia].
Qed.

(** The inner loop decides as the sequences do, or skips what they share. *)
Lemma nondigit_loop_spec fuel a b :
  (String.length a < fuel)%nat →
  match nondigit_loop fuel a b with
  | None => False
  | Some (inl c) => lex (weights None a) (weights None b) ≠ Eq ∧
      c = sign (lex (weights None a) (weights None b))
  | Some (inr (a1, b1)) =>
      starts_nondigit a1 = false ∧ starts_nondigit b1 = false ∧
      (String.length a1 + String.length b1 ≤ String.length a + String.length b)%nat ∧
      lex (weights None a) (weights None b) = lex (weights None a1) (weights None b1)
  end.
Proof.
  revert a b. induction fuel as [|fuel IH]; intros a b Hf; [lia|]. cbn [nondigit_loop].
  destruct (starts_nondigit a || starts_nondigit b) eqn:Hs.
  - rewrite (lex_step (weights None a)), !weights_head.
    destruct (Z.eqb_spec (head_order a) (head_order b)) as [E|E]; cbn [negb].
    + rewrite E, Z.compare_refl.
      assert (starts_nondigit a = true ∧ starts_nondigit b = true) as [Ha Hb].
      { destruct (starts_nondigit a) eqn:Ha, (starts_nondigit b) eqn:Hb; [done| | |done]; exfalso.
        - apply (head_order_nonzero a Ha). rewrite E. by apply head_order_zero.
        - apply (head_order_nonzero b Hb). rewrite <-E. by apply head_order_zero. }
      pose proof (drop_shorter a Ha). pose proof (drop_shorter b Hb). rewrite !weights_drop by done.
      specialize (IH (drop_nondigit a) (drop_nondigit b) ltac:(lia)).
      destruct (nondigit_loop fuel _ _) as [[c|[a1 b1]]|]; [done| |done].
      destruct IH as (?&?&?&?). split_and!; [done..|lia|done].
    + destruct (Z.ltb_spec (head_order a) (head_order b)) as [Hl|Hl].
      * apply Z.compare_lt_iff in Hl as ->. done.
      * assert ((head_order a ?= head_order b) = Gt) as -> by (apply Z.compare_gt_iff; lia). done.
  - apply orb_false_iff in Hs as [Ha Hb]. split_and!; done || lia.
Qed.

Lemma part_loop_spec fuel a b :
  (String.length a + String.length b < fuel)%nat →
  part_loop fuel a b = Some (sign (lex (weights None a) (weights None b))).
Proof.
  revert a b. induction fuel as [|fuel IH]; intros a b Hf; [lia|]. cbn [part_loop].
  assert (a = EmptyString ∧ b = EmptyString ∨ (0 < String.length a + String.length b)%nat) as Hne
    by (destruct a; [destruct b; [auto|]|]; right; cbn; lia).
  destruct Hne as [[-> ->]|Hne]; [done|].
  set (body := match nondigit_loop (S (String.length a)) a b with None => _ | Some _ => _ end).
  transitivity body; [subst body; destruct a, b; [cbn in Hne; lia|reflexivity..]|].
  subst body. pose proof (nondigit_loop_spec (S (String.length a)) a b ltac:(lia)) as Hn.
  destruct (nondigit_loop (S (String.length a)) a b) as [[c|[a1 b1]]|]; [by destruct Hn as [_ ->]| |done].
  destruct Hn as (Ha&Hb&Hlen&->). rewrite lex_number by done.
  rewrite lex_antisym, (lex_number b1), <-lex_antisym by done.
  pose proof (span_digits a1) as Hda. pose proof (span_digits b1) as Hdb.
  pose proof (span_shorter a1) as [Hs1 Hs1']. pose proof (span_shorter b1) as [Hs2 Hs2'].
  destruct (leadingDigits a1) as [an0 a2], (leadingDigits b1) as [bn0 b2]. cbn [fst snd] in *.
  cbn [lex Z.compare]. rewrite (number_compare an0 bn0 Hda Hdb).
  destruct (negb _); [by destruct (_ <? _)%nat|]. destruct (negb _); [by destruct (str_ltb _ _)|].
  apply IH. destruct (decide (a1 = EmptyString)) as [->|H1].
  - destruct (decide (b1 = EmptyString)) as [->|H2]; [cbn in *; lia|]. specialize (Hs2' Hb H2). lia.
  - specialize (Hs1' Ha H1). lia.
Qed.

Lemma part_spec a b : compareDebianPart a b = sign (lex (weights None a) (weights None b)).
Proof. unfold compareDebianPart. by rewrite part_loop_spec by lia. Qed.

(** ** Properties *)

(** The sequences of a version's upstream part and revision. *)
Definition version_key (v : string) : list Z * list Z :=
  let (u, r) := splitRevision v in (weights None u, weights None r).
Definition key_compare (a b : list Z * list Z) : comparison :=
  match lex (fst a) (fst b) with Eq => lex (snd a) (snd b) | c => c end.

Lemma versions_spec a b :
  isDebVersion a = true → isDebVersion b = true →
  compareDebianVersions a b = Ok (sign (key_compare (version_key a) (version_key b))).
Proof.
  intros Ha Hb. unfold compareDebianVersions, key_compare, version_key.
  assert (list_find (λ v, isDebVersion v = false) [a; b] = None) as ->
    by (cbn [list_find]; rewrite !decide_False by congruence; done).
  destruct (splitRevision a), (splitRevision b). cbn [fst snd].
  rewrite !part_spec. by destruct (lex _ _).
Qed.

Lemma comparison_aux a b : is_ok (compareDebianVersions a b) = isDebVersion a && isDebVersion b.
Proof.
  destruct (isDebVersion a) eqn:Ha, (isDebVersion b) eqn:Hb; [by rewrite versions_spec| | |];
    unfold compareDebianVersions; cbn [list_find]; rewrite ?Ha, ?Hb; reflexivity.
Qed.

(** C8: the comparison is dpkg's order. It terminates and decides on every pair
    of versions it can read, comparing upstream part then revision, each as its
    sequence of character weights and of the numbers' values (whatever their
    leading zeros or length), and a string it cannot read is an error. *)
Theorem comparison_is_dpkg_order a b :
  match compareDebianVersions a b with
  | Ok c => isDebVersion a && isDebVersion b = true ∧
      c = sign (key_compare (version_key a) (version_key b))
  | Err _ => isDebVersion a && isDebVersion b = false
  end.
Proof.
  pose proof (comparison_aux a b) as Hok. destruct (isDebVersion a) eqn:Ha, (isDebVersion b) eqn:Hb;
    [by rewrite versions_spec| | |]; by destruct (compareDebianVersions a b).
Qed.

Lemma key_antisym a b : key_compare b a = CompOpp (key_compare a b).
Proof.
  unfold key_compare. rewrite (lex_antisym (fst a)), (lex_antisym (snd a)). by destruct (lex (fst a) (fst b)).
Qed.

Lemma key_trans a b c : key_compare a b ≠ Gt → key_compare b c ≠ Gt → key_compare a c ≠ Gt.
Proof.
  unfold key_compare. intros H1 H2.
  assert (lex (fst a) (fst b) ≠ Gt) as U1 by (by destruct (lex (fst a) (fst b))).
  assert (lex (fst b) (fst c) ≠ Gt) as U2 by (by destruct (lex (fst b) (fst c))).
  pose proof (lex_trans _ _ _ U1 U2) as U3. destruct (lex (fst a) (fst c)) eqn:E3; try done.
  assert (lex (fst b) (fst a) ≠ Gt) as V1.
  { apply (lex_trans _ (fst c)); [done|]. rewrite lex_antisym, E3. done. }
  assert (lex (fst c) (fst b) ≠ Gt) as V2.
  { apply (lex_trans _ (fst a)); [|done]. rewrite lex_antisym, E3. done. }
  rewrite lex_antisym in V1, V2.
  destruct (lex (fst a) (fst b)); try done. destruct (lex (fst b) (fst c)); try done.
  by eapply lex_trans.
Qed.

(** "is newer than" is a total preorder on the versions it can read: a
    comparison and its converse agree, and an update that is at least as new as
    one at least as new as the installed version is at least as new as that. *)
Theorem version_order_total a b c x y :
  compareDebianVersions a b = Ok x → compareDebianVersions b c = Ok y →
  compareDebianVersions b a = Ok (- x) ∧
  (x ≤ 0 → y ≤ 0 → ∃ z, compareDebianVersions a c = Ok z ∧ z ≤ 0).
Proof.
  intros H1 H2.
  assert (∀ u v w, compareDebianVersions u v = Ok w → isDebVersion u = true ∧ isDebVersion v = true) as Hv.
  { intros u v w H. pose proof (comparison_aux u v) as E. rewrite H in E. cbn in E.
    by apply symmetry, andb_true_iff in E. }
  destruct (Hv _ _ _ H1) as [Ha Hb], (Hv _ _ _ H2) as [_ Hc].
  rewrite versions_spec in H1, H2 by done. injection H1 as <-. injection H2 as <-.
  rewrite !versions_spec by done. rewrite key_antisym. split; [by destruct (key_compare _ _)|].
  intros Hx Hy. eexists. split; [done|].
  pose proof (key_trans (version_key a) (version_key b) (version_key c)) as Ht.
  destruct (key_compare (version_key a) (version_key b)), (key_compare (version_key b) (version_key c)),
    (key_compare (version_key a) (version_key c)); cbn in *; try lia; exfalso; by apply Ht.
Qed.

(** *** Release versions *)

(** The numbers of a version, as the digits they are written with. *)
Record Release := mkRelease { r_x : string; r_y : string; r_z : string; r_beta : option string }.

Definition release_string (r : Release) : string :=
  r_x r +:+ "." +:+ r_y r +:+ "." +:+ r_z r +:+
  match r_beta r with None => "" | Some n => "~beta." +:+ n end.

Definition number (s : string) : Prop := digits s ∧ s ≠ EmptyString.
Definition release_wf (r : Release) : Prop :=
  number (r_x r) ∧ number (r_y r) ∧ number (r_z r) ∧ from_option number True (r_beta r).

(** Numbers in turn; a beta comes before its release, betas by number. *)
Definition release_compare (a b : Release) : comparison :=
  match value 0 (r_x a) ?= value 0 (r_x b) with
  | Eq =>
    match value 0 (r_y a) ?= value 0 (r_y b) with
    | Eq =>
      match value 0 (r_z a) ?= value 0 (r_z b) with
      | Eq =>
        match r_beta a, r_beta b with
        | None, None => Eq
        | Some _, None => Lt
        | None, Some _ => Gt
        | Some n, Some m => value 0 n ?= value 0 m
        end
      | c => c
      end
    | c => c
    end
  | c => c
  end.

#[local] Arguments String.append !_ _ / : simpl nomatch.

Lemma span_app x s :
  digits x → match s with EmptyString => true | String c _ => negb (isDigit c) end = true →
  str_span isDigit (x +:+ s) = (x, s).
Proof.
  unfold digits. intros Hx Hs. induction x as [|c x IH]; cbn in *.
  - destruct s as [|c s]; [done|]. apply negb_true_iff in Hs. cbn. by rewrite Hs.
  - apply andb_true_iff in Hx as [-> Hx]. by rewrite IH.
Qed.

Lemma weights_app x s :
  number x → match s with EmptyString => true | String c _ => negb (isDigit c) end = true →
  weights None (x +:+ s) = 0 :: value 0 x :: weights None s.
Proof.
  intros [Hx Hne] Hs. destruct x as [|c x]; [done|].
  pose proof (span_app _ _ Hx Hs) as Hsp. unfold digits in Hx. cbn in Hx, Hsp.
  apply andb_true_iff in Hx as [Hc Hx]. rewrite Hc in Hsp.
  change (String c x +:+ s) with (String c (x +:+ s)). cbn [weights]. rewrite Hc, weights_number.
  unfold leadingDigits. destruct (str_span isDigit (x +:+ s)). cbn. by simplify_eq.
Qed.

Lemma cut_number_app x s :
  number x → match s with EmptyString => true | String c _ => negb (isDigit c) end = true →
  cut_number (x +:+ s) = Some s.
Proof. intros [Hx Hne] Hs. unfold cut_number. rewrite span_app by done. by destruct x. Qed.

Lemma str_forallb_app p x s : str_forallb p (x +:+ s) = str_forallb p x && str_forallb p s.
Proof. induction x as [|c x IH]; [done|]. cbn. rewrite <-andb_assoc. by f_equal. Qed.

Lemma str_forallb_impl (p q : Ascii.ascii → bool) x :
  (∀ c, p c = true → q c = true) → str_forallb p x = true → str_forallb q x = true.
Proof.
  intros H. induction x as [|c x IH]; [done|]. cbn. intros [??]%andb_true_iff. by rewrite H, IH.
Qed.

Lemma no_dash_split v :
  str_forallb (λ c, negb (is_char "-"%char c)) v = true → splitRevision v = (v, "").
Proof.
  intros H. unfold splitRevision. enough (cut_last_dash v = None) as -> by done.
  induction v as [|c v IH]; [done|]. cbn in *. apply andb_true_iff in H as [Hc Hv].
  rewrite IH by done. by apply negb_true_iff in Hc as ->.
Qed.

Lemma release_chars (p : Ascii.ascii → bool) r :
  release_wf r → (∀ c, isDigit c = true → p c = true) →
  p "."%char = true → str_forallb p "~beta." = true → str_forallb p (release_string r) = true.
Proof.
  intros ([Hx _]&[Hy _]&[Hz _]&Hb) Hd Hdot Hbeta. unfold release_string.
  assert (∀ x, digits x → str_forallb p x = true) as Hn by (intros x; by apply str_forallb_impl).
  assert (str_forallb p "." = true) as Hd1 by (cbn; by rewrite Hdot).
  rewrite !str_forallb_app, (Hn _ Hx), (Hn _ Hy), (Hn _ Hz), Hd1. cbn [andb].
  destruct (r_beta r) as [n|]; [|done]. destruct Hb as [Hb _].
  by rewrite str_forallb_app, Hbeta, (Hn _ Hb).
Qed.

Lemma release_weights r :
  release_wf r →
  weights None (release_string r) =
    ([0; value 0 (r_x r); 302; 0; value 0 (r_y r); 302; 0; value 0 (r_z r)] ++
     match r_beta r with None => [] | Some n => [-1; 98; 101; 116; 97; 302; 0; value 0 n] end)%list.
Proof.
  intros (Hx&Hy&Hz&Hb). unfold release_string. rewrite weights_app by done.
  assert (∀ u, weights None ("." +:+ u) = 302 :: weights None u) as Hdot by done.
  rewrite Hdot, weights_app, Hdot, weights_app by (done || by destruct (r_beta r)).
  destruct (r_beta r) as [n|]; [|done].
  assert (∀ u, weights None ("~beta." +:+ u) = ([-1; 98; 101; 116; 97; 302] ++ weights None u)%list) as ->
    by done.
  replace n with (n +:+ "") at 1 by (clear; induction n as [|c n IH]; [done|]; cbn; by f_equal).
  by rewrite weights_app.
Qed.

(** For release versions, numbers of any size, "newer" is by X, then Y, then
    Z; every beta of X.Y.Z is older than X.Y.Z, and betas go by their number.
    Every such string is a release version the comparison can read. *)
Theorem release_order a b :
  release_wf a → release_wf b →
  isReleaseVersion (release_string a) = true ∧
  compareDebianVersions (release_string a) (release_string b) = Ok (sign (release_compare a b)).
Proof.
  intros Ha Hb. split.
  - destruct Ha as (Hx&Hy&Hz&Hbe). unfold isReleaseVersion, release_string.
    assert (∀ u, cut_prefix "." ("." +:+ u) = Some u) as Hdot by done.
    rewrite (cut_number_app _ _ Hx) by done. cbn [mbind option_bind]. rewrite Hdot. cbn [mbind option_bind].
    rewrite (cut_number_app _ _ Hy) by done. cbn [mbind option_bind]. rewrite Hdot. cbn [mbind option_bind].
    rewrite (cut_number_app _ _ Hz) by (by destruct (r_beta a)).
    destruct (r_beta a) as [n|]; [|done].
    replace n with (n +:+ "") by (clear; induction n as [|c n IH]; [done|]; cbn; by f_equal).
    change (cut_prefix "~beta." ("~beta." +:+ (n +:+ ""))) with (Some (n +:+ "")).
    cbn [mbind option_bind]. by rewrite cut_number_app.
  - assert (∀ r, release_wf r → isDebVersion (release_string r) = true) as Hdeb.
    { intros r Hr. pose proof (release_chars deb_char r Hr) as Hc.
      destruct r as [x y z be]. destruct Hr as ([Hd Hne]&_). unfold release_string in *. cbn in *.
      destruct x as [|c x]; [done|]. unfold digits in Hd. cbn in Hd. apply andb_true_iff in Hd as [Hd _].
      cbn in *. rewrite Hd. cbn. assert (deb_char c = true) as Hdc by (unfold deb_char; by rewrite Hd, !orb_true_r).
      rewrite Hdc in Hc. apply Hc; try done. intros c' Hc'. unfold deb_char. by rewrite Hc', !orb_true_r. }
    rewrite versions_spec by auto. do 2 f_equal. unfold key_compare, version_key.
    assert (∀ r, release_wf r → splitRevision (release_string r) = (release_string r, "")) as Hs.
    { intros r Hr. apply no_dash_split, release_chars; try done.
      intros c Hc. unfold is_char. case_bool_decide; [by subst|done]. }
    rewrite !Hs by done. cbn [fst snd]. rewrite !release_weights by done. clear.
    unfold release_compare. destruct a as [x y z be], b as [x' y' z' be']. cbn [r_x r_y r_z r_beta].
    cbn -[value Z.compare]. rewrite !Z.compare_refl.
    destruct (value 0 x ?= value 0 x'), (value 0 y ?= value 0 y'), (value 0 z ?= value 0 z'); try done.
    destruct be as [n|], be' as [m|]; cbn -[value]; try done. by destruct (value 0 n ?= value 0 m).
Qed.

(** ** Concrete versions *)

Lemma version_order_total_witness :
  compareDebianVersions "0.3.0" "0.3.0~beta.2" = Ok (- (-1)) ∧
  ((-1) ≤ 0 → (-1) ≤ 0 → ∃ z, compareDebianVersions "0.3.0~beta.2" "0.10.0" = Ok z ∧ z ≤ 0).
Proof. apply (version_order_total "0.3.0~beta.2" "0.3.0" "0.10.0"); reflexivity. Defined.

Definition beta_9 : Release := mkRelease "0" "12" "3" (Some "9").
Definition release_0 : Release := mkRelease "0" "12" "3" None.

Lemma release_order_witness :
  isReleaseVersion "0.12.3~beta.9" = true ∧
  compareDebianVersions "0.12.3~beta.9" "0.12.3" = Ok (-1).
Proof. apply (release_order beta_9 release_0); repeat split; discriminate. Defined.
