(* ===== verification/Calls.v ===== *)
(** * Calls through an interface

    Several components drive others only through Go interfaces, whose
    implementations act on the host or live in other packages. Such a component
    is a function of an environment that answers each call, possibly depending
    on every call before it, and of the list of calls made so far with their
    answers. A statement for all environments holds for every implementation. *)
From S2P Require Export GoErr.
Open Scope string_scope.
Open Scope list_scope.

Section calls.
Context {Ev Ans : Type}.

Definition calls : Type := list (Ev * Ans).
Definition environment : Type := calls → Ev → Ans.

Context (env : environment).

(** One call: its answer, appended to the record. *)
Definition call (e : Ev) : stM calls err Ans := λ tr,
  let a := env tr e in (Ok a, (tr ++ [(e, a)])%list).

(** A call whose caller checks the error that [fails] finds in the answer. *)
Definition call_err (fails : Ev → Ans → option err) (e : Ev) : stM calls err unit :=
  a ← call e;
  match fails e a with
  | Some x => throw x
  | None => mret tt
  end.
End calls.

Arguments calls : clear implicits.
Arguments environment : clear implicits.

(** [if err := m(); err != nil { return fmt.Errorf("pre%w", err) }] *)
Definition wrapping {W A} (pre : string) (m : stM W err A) : stM W err A := λ w,
  match m w with
  | (Ok a, w') => (Ok a, w')
  | (Err e, w') => (Err (wrap pre e), w')
  end.

(** [for _, x := range l { if err := f(x); err != nil { return err } }] *)
Fixpoint each {W E A} (f : A → stM W E unit) (l : list A) : stM W E unit :=
  match l with
  | [] => mret tt
  | x :: l' => _ ← f x; each f l'
  end.

(** [if b { return m() }; return nil] *)
Definition when {W E} (b : bool) (m : stM W E unit) : stM W E unit := if b then m else mret tt.

Definition when_some {W E A} (o : option A) (f : A → stM W E unit) : stM W E unit :=
  match o with Some a => f a | None => mret tt end.

(** ** Plans

    A body that makes a fixed list of calls and stops at the first that fails
    follows its plan: what it called is a prefix of the plan, every call but the
    last succeeded, and it returns an error exactly when that one failed. *)
Section plans.
Context {Ev Ans : Type} (env : environment Ev Ans) (fails : Ev → Ans → option err).

Definition ok_call (p : Ev * Ans) : Prop := fails (fst p) (snd p) = None.

Inductive follows (plan : list Ev) : res err unit → calls Ev Ans → Prop :=
| follows_done made : map fst made = plan → Forall ok_call made → follows plan (Ok tt) made
| follows_failed made e a x rest : map fst made ++ e :: rest = plan → Forall ok_call made →
    fails e a = Some x →
    ∀ y, follows plan (Err y) (made ++ [(e, a)]).

Definition runs_plan (plan : list Ev) (m : stM (calls Ev Ans) err unit) : Prop :=
  ∀ tr, ∃ made, snd (m tr) = (tr ++ made)%list ∧ follows plan (fst (m tr)) made.

Lemma runs_nil : runs_plan [] (mret tt).
Proof. intros tr. exists []. split; [by rewrite app_nil_r|]. by constructor. Qed.

Lemma runs_call e : runs_plan [e] (call_err env fails e).
Proof.
  intros tr. exists [(e, env tr e)]. unfold call_err, call, mbind, stM_bind. cbn.
  destruct (fails e (env tr e)) as [x|] eqn:E; cbn; (split; [done|]).
  - by apply (follows_failed [e] [] e _ x []).
  - apply follows_done; [done|]. by repeat constructor.
Qed.

Lemma runs_wrapping plan pre m : runs_plan plan m → runs_plan plan (wrapping pre m).
Proof.
  intros H tr. destruct (H tr) as (made&Hs&Hf). exists made. unfold wrapping.
  destruct (m tr) as [[a|e] w]; cbn in *; [destruct a; auto|]. split; [done|].
  inversion Hf; subst. econstructor; eauto.
Qed.

Lemma runs_seq p q m k : runs_plan p m → (∀ u, runs_plan q (k u)) → runs_plan (p ++ q) (mbind k m).
Proof.
  intros Hm Hk tr. destruct (Hm tr) as (made&Hs&Hf). unfold mbind, stM_bind.
  destruct (m tr) as [[[]|e] w]; cbn in *; subst w.
  - destruct (Hk tt (tr ++ made)%list) as (made'&Hs'&Hf'). exists (made ++ made')%list.
    split; [by rewrite Hs', app_assoc|]. inversion Hf; subst.
    inversion Hf' as [m' Hp Hok|m' e a x rest Hp Hok Hx y]; subst.
    + apply follows_done; [by rewrite map_app|]. by apply Forall_app.
    + rewrite (app_assoc made). eapply (follows_failed _ _ e a x rest); [|by apply Forall_app|done].
      by rewrite map_app, <-app_assoc.
  - exists made. split; [done|]. inversion Hf as [|m' e0 a x rest Hp Hok Hx y]; subst.
    eapply (follows_failed _ _ e0 a x (rest ++ q)); [|done|done]. by rewrite app_comm_cons, app_assoc.
Qed.

Lemma runs_when (b : bool) plan m : runs_plan plan m → runs_plan (if b then plan else []) (when b m).
Proof. destruct b; [done|]. intros _. apply runs_nil. Qed.

Lemma runs_when_some {A} (o : option A) (pl : A → list Ev) f :
  (∀ a, runs_plan (pl a) (f a)) → runs_plan (from_option pl [] o) (when_some o f).
Proof. intros H. destruct o; [apply H|apply runs_nil]. Qed.

Lemma runs_each {A} (pl : A → list Ev) (f : A → stM (calls Ev Ans) err unit) l :
  (∀ a, runs_plan (pl a) (f a)) → runs_plan (concat (map pl l)) (each f l).
Proof.
  intros H. induction l as [|a l IH]; [apply runs_nil|]. cbn. apply runs_seq; auto.
Qed.

Lemma follows_prefix plan r made :
  follows plan r made →
  ∃ rest, plan = map fst made ++ rest ∧ Forall ok_call (removelast made).
Proof.
  destruct 1 as [made Hq Hok|made e a x rest Hq Hok Hx y]; subst.
  - exists []. rewrite app_nil_r. split; [done|].
    rewrite Forall_forall in *. intros z Hz. apply Hok. clear -Hz. revert Hz.
    induction made as [|x [|y l] IH]; cbn; [done|by intros ?%elem_of_nil|].
    rewrite !elem_of_cons. intros [->|Hz]; [by left|]. right. rewrite <-elem_of_cons. by apply IH.
  - exists rest. rewrite removelast_last. split; [|done]. by rewrite map_app, <-app_assoc.
Qed.

(** The last call of a plan that has it only once is made when all the others
    have succeeded. *)
Lemma follows_last p e r made a :
  follows (p ++ [e]) r made → e ∉ p → (e, a) ∈ made →
  ∃ done, made = done ++ [(e, a)] ∧ map fst done = p ∧ Forall ok_call done.
Proof.
  intros (rest&Hp&Hok)%follows_prefix Hn Hin.
  assert (e ∈ map fst made) as Hi by (rewrite list_elem_of_fmap; by exists (e, a)).
  destruct rest as [|z rest _] using rev_ind.
  - rewrite app_nil_r in Hp. symmetry in Hp. apply map_eq_app in Hp as (l1&l2&->&Hl1&Hl2).
    destruct l2 as [|[e2 a2] [|]]; try done. cbn in Hl2. injection Hl2 as ->.
    rewrite removelast_last in Hok. exists l1. split_and!; try done. do 2 f_equal.
    apply elem_of_app in Hin as [Hin|Hin%list_elem_of_singleton]; [|congruence].
    exfalso. apply Hn. rewrite <-Hl1, list_elem_of_fmap. by exists (e, a).
  - rewrite app_assoc in Hp. apply app_inj_tail in Hp as [-> _].
    exfalso. apply Hn. rewrite elem_of_app. by left.
Qed.
End plans.

(** ** The calls a body makes, and what it depends on *)
Section bodies.
Context {Ev Ans : Type}.

(** Each call was answered by the environment. *)
Definition answered_by (env : environment Ev Ans) (tr made : calls Ev Ans) : Prop :=
  ∀ before e a after, made = before ++ (e, a) :: after → a = env (tr ++ before)%list e.
Lemma answered_app env tr m1 m2 : answered_by env tr m1 → answered_by env (tr ++ m1) m2 → answered_by env tr (m1 ++ m2).
Proof.
  intros H1 H2 before e a after Heq. apply app_eq_inv in Heq as [(k&->&Hk)|(k&->&Hk)].
  - destruct k as [|p k]; cbn in Hk.
    + specialize (H2 [] e a after (eq_sym Hk)). by rewrite !app_nil_r in *.
    + injection Hk as <- ->. by apply (H1 before e a k).
  - rewrite (app_assoc tr). by apply (H2 k e a after Hk).
Qed.

(** Every call that [m] makes is one of those in [P], and [env] answers it. *)
Definition makes (env : environment Ev Ans) (P : Ev → Prop) {X} (m : stM (calls Ev Ans) err X) : Prop :=
  ∀ tr, ∃ made, snd (m tr) = (tr ++ made)%list ∧ Forall (λ p, P (fst p)) made ∧ answered_by env tr made.

Section makes.
Context (env : environment Ev Ans).
Lemma answered_nil tr : answered_by env tr [].
Proof. by intros [|? ?]. Qed.
Lemma makes_ret P {X} (x : X) : makes env P (mret x).
Proof. intros tr. exists []. rewrite app_nil_r. split_and!; [done|done|apply answered_nil]. Qed.
Lemma makes_throw P {X} e : makes env P (throw e : stM _ _ X).
Proof. intros tr. exists []. rewrite app_nil_r. split_and!; [done|done|apply answered_nil]. Qed.
Lemma makes_bind P {X Y} (m : stM _ err X) (k : X → stM _ err Y) :
  makes env P m → (∀ x, makes env P (k x)) → makes env P (mbind k m).
Proof.
  intros Hm Hk tr. destruct (Hm tr) as (made&Hs&Hf&Ha). unfold mbind, stM_bind.
  destruct (m tr) as [[x|e] w]; cbn in *; subst w; [|by exists made].
  destruct (Hk x (tr ++ made)%list) as (made'&->&Hf'&Ha'). exists (made ++ made')%list. rewrite app_assoc.
  split_and!; [done|by apply Forall_app|by apply answered_app].
Qed.
Lemma makes_call (P : Ev → Prop) e : P e → makes env P (call env e).
Proof.
  intros He tr. exists [(e, env tr e)]. split_and!; [done|by repeat constructor|].
  intros [|? [|? ?]] e' a after [=]; subst. by rewrite app_nil_r.
Qed.
Lemma makes_wrapping P {X} pre (m : stM _ err X) : makes env P m → makes env P (wrapping pre m).
Proof.
  intros H' tr. destruct (H' tr) as (made&Hs&Hf). exists made. unfold wrapping.
  by destruct (m tr) as [[]].
Qed.
Lemma makes_weaken (P Q : Ev → Prop) {X} (m : stM _ err X) : (∀ e, P e → Q e) → makes env P m → makes env Q m.
Proof.
  intros HPQ Hm tr. destruct (Hm tr) as (made&Hs&Hf&Ha). exists made. split_and!; [done| |done].
  eapply Forall_impl; [done|]. cbn. auto.
Qed.
End makes.

(** What a body returns does not depend on the calls made before it. *)
Definition history_free {X} (m : stM (calls Ev Ans) err X) : Prop := ∀ tr tr', fst (m tr) = fst (m tr').

(** An environment that answers by the call alone. *)
Definition steady (f : Ev → Ans) : environment Ev Ans := λ _, f.

Lemma hf_ret {X} (x : X) : history_free (mret x). Proof. done. Qed.
Lemma hf_throw {X} e : history_free (throw e : stM _ err X). Proof. done. Qed.
Lemma hf_bind {X Y} (m : stM _ err X) (k : X → stM _ err Y) :
  history_free m → (∀ x, history_free (k x)) → history_free (mbind k m).
Proof.
  intros Hm Hk tr tr'. specialize (Hm tr tr'). unfold mbind, stM_bind.
  destruct (m tr) as [[x|e] w], (m tr') as [[x'|e'] w']; cbn in *; simplify_eq; [apply Hk|done].
Qed.
Lemma hf_call f e : history_free (call (steady f) e). Proof. done. Qed.
Lemma hf_wrapping {X} pre (m : stM _ err X) : history_free m → history_free (wrapping pre m).
Proof.
  intros Hm tr tr'. specialize (Hm tr tr'). unfold wrapping.
  destruct (m tr) as [[]], (m tr') as [[]]; cbn in *; by simplify_eq.
Qed.
End bodies.

(** Takes a body apart into its calls. *)
Ltac body_makes :=
  repeat first
    [ apply makes_ret | apply makes_throw | apply makes_call | apply makes_wrapping
    | apply makes_bind; [|intros ?] | case_match ].
Ltac body_history_free :=
  repeat first
    [ apply hf_ret | apply hf_throw | apply hf_call | apply hf_wrapping
    | apply hf_bind; [|intros ?] | case_match ].
