(* ===== verification/CallsWp.v ===== *)
(** * Reasoning about the calls of a body

    A weakest precondition for bodies that make calls: every call must meet a
    guard that may depend on all calls before it, and the postcondition is about
    the outcome and the calls made. *)
From S2P Require Export Calls.
Open Scope list_scope.

Section cwp.
Context {Ev Ans : Type}.
Implicit Types (tr made : calls Ev Ans) (G : calls Ev Ans → Ev → Prop).

Definition guarded G tr made : Prop :=
  ∀ before e a after, made = before ++ (e, a) :: after → G (tr ++ before) e.

Lemma guarded_nil G tr : guarded G tr [].
Proof. intros [|? ?] e a after H; done. Qed.
Lemma guarded_one G tr e a : G tr e → guarded G tr [(e, a)].
Proof.
  intros H before e' a' after Heq. destruct before as [|? [|? ?]]; simplify_eq/=. by rewrite app_nil_r.
Qed.
Lemma guarded_app G tr m1 m2 : guarded G tr m1 → guarded G (tr ++ m1) m2 → guarded G tr (m1 ++ m2).
Proof.
  intros H1 H2 before e a after Heq. apply app_eq_inv in Heq as [(k&->&Hk)|(k&->&Hk)].
  - destruct k as [|p k]; cbn in Hk.
    + specialize (H2 [] e a after (eq_sym Hk)). by rewrite !app_nil_r in H2.
    + injection Hk as <- ->. by apply (H1 before e a k).
  - rewrite (app_assoc tr). by apply (H2 k e a after Hk).
Qed.

Definition cwp {X} G (m : stM (calls Ev Ans) err X) tr (Q : res err X → calls Ev Ans → Prop) : Prop :=
  ∃ made, snd (m tr) = tr ++ made ∧ guarded G tr made ∧ Q (fst (m tr)) made.

Lemma cwp_ret {X} G (x : X) tr (Q : res err X → _) : Q (Ok x) [] → cwp G (mret x) tr Q.
Proof. intros H. exists []. rewrite app_nil_r. split_and!; [done|apply guarded_nil|done]. Qed.
Lemma cwp_throw {X} G e tr (Q : res err X → _) : Q (Err e) [] → cwp G (throw e) tr Q.
Proof. intros H. exists []. rewrite app_nil_r. split_and!; [done|apply guarded_nil|done]. Qed.
Lemma cwp_call G env e tr (Q : res err Ans → _) :
  G tr e → Q (Ok (env tr e)) [(e, env tr e)] → cwp G (call env e) tr Q.
Proof. intros Hg H. exists [(e, env tr e)]. split_and!; [done|by apply guarded_one|done]. Qed.
Lemma cwp_bind {X Y} G (m : stM _ err X) (k : X → stM _ err Y) tr (Q : res err Y → _) :
  cwp G m tr (λ r made, match r with
    | Ok x => cwp G (k x) (tr ++ made) (λ r' made', Q r' (made ++ made'))
    | Err e => Q (Err e) made
    end) →
  cwp G (mbind k m) tr Q.
Proof.
  intros (made&Hs&Hg&Hq). unfold cwp, mbind, stM_bind. destruct (m tr) as [[x|e] w]; cbn in *; subst w.
  - destruct Hq as (made'&Hs'&Hg'&Hq'). exists (made ++ made'). rewrite Hs', app_assoc.
    split_and!; [done|by apply guarded_app|done].
  - by exists made.
Qed.
Lemma cwp_wrapping {X} G pre (m : stM _ err X) tr (Q : res err X → _) :
  cwp G m tr (λ r made, Q (match r with Ok x => Ok x | Err e => Err (wrap pre e) end) made) →
  cwp G (wrapping pre m) tr Q.
Proof.
  intros (made&Hs&Hg&Hq). exists made. unfold wrapping. destruct (m tr) as [[x|e] w]; cbn in *; done.
Qed.
Lemma cwp_mono {X} G (m : stM _ err X) tr (Q Q' : res err X → _) :
  cwp G m tr Q → (∀ r made, Q r made → Q' r made) → cwp G m tr Q'.
Proof. intros (made&Hs&Hg&Hq) H. exists made. eauto. Qed.
Lemma cwp_guard {X} (G G' : calls Ev Ans → Ev → Prop) (m : stM _ err X) tr Q :
  (∀ tr' e, G tr' e → G' tr' e) → cwp G m tr Q → cwp G' m tr Q.
Proof. intros HG (made&?&Hg&?). exists made. split_and!; [done| |done]. intros ? ? ? ? ?. eapply HG, Hg. done. Qed.
(** Two postconditions of the same body hold of the same calls. *)
Lemma cwp_conj {X} G (m : stM _ err X) tr Q Q' :
  cwp G m tr Q → cwp G m tr Q' → cwp G m tr (λ r made, Q r made ∧ Q' r made).
Proof.
  intros (made&Hs&Hg&Hq) (made'&Hs'&_&Hq'). exists made. split_and!; try done.
  rewrite Hs in Hs'. by apply app_inv_head in Hs' as ->.
Qed.
(** A body all of whose calls are harmless wherever they are made. *)
Lemma cwp_makes {X} {env} G (P : Ev → Prop) (m : stM _ err X) tr :
  makes env P m → (∀ tr' e, P e → G tr' e) → cwp G m tr (λ _ made, Forall (λ p, P p.1) made).
Proof.
  intros Hm HG. destruct (Hm tr) as (made&Hs&Hf&_). exists made. split_and!; [done| |done].
  intros before e a after ->. apply HG. apply Forall_app in Hf as [_ Hf]. by apply Forall_cons in Hf as [? _].
Qed.
Lemma cwp_elim {X} G (m : stM _ err X) tr Q : cwp G m tr Q → ∃ made, snd (m tr) = tr ++ made ∧ guarded G tr made ∧ Q (fst (m tr)) made.
Proof. done. Qed.
End cwp.

(** One step into a body. *)
Ltac cwp_step :=
  first
    [ apply cwp_ret | apply cwp_throw | apply cwp_bind | apply cwp_wrapping
    | apply cwp_call ].
