(* ===== verification/ArraySeq.v ===== *)
(** * Stopping and starting the array

    [internal/job/array.go]: the one sequence behind [array stop], [array start],
    reboot and the low-battery shutdown. Services, mounts, the storage target,
    the pool write gate, the disk check and the scheduler are interfaces, whose
    calls are the events below; an environment answers them. A call carries the
    context it is made with, the caller's or one that outlives it
    ([context.WithoutCancel]). *)
From S2P Require Export Calls.
Open Scope string_scope.
Open Scope list_scope.

Inductive goctx := CallerCtx | WithoutCancel.

Inductive event :=
| EEnterMaintenance (c : goctx)
| EEnterMaintenanceTransient
| EDrain (c : goctx)
| EDrainShareMutations (c : goctx)
| EDrainAppActions (c : goctx)
| EMarkArrayStopped
| EMarkArrayStoppedTransient
| EBeginArrayStart (c : goctx)
| ERestoreArrayStopped (was : bool)
| EExitMaintenanceChecked
| EReady
| ETargetOpen (c : goctx)
| ETargetClose (c : goctx) (persist : bool)
| ETargetReclose (c : goctx)
| ETargetConfirmReady (c : goctx)
| EWriteGateClose (c : goctx)
| EWriteGateOpen
| EServiceStop (c : goctx) (svc : string)
| EServiceStart (c : goctx) (svc : string)
| EMount (c : goctx) (where_ : string)
| EUnmount (c : goctx) (where_ : string)
| EConfirmArrayDisks (c : goctx)
| EAfterStart (c : goctx)
| EPowerOff (c : goctx).

(** The error a call returned, and the boolean of those that return one. *)
Record answer := mkAnswer { a_err : option err; a_bool : bool }.

(** Services and mounts by name ([Name()], [Where()]); for a field that may be
    nil, whether it is set. *)
Record ArraySequence := mkSeq {
  seq_Scheduler : bool;
  seq_Gate : bool;
  seq_Services : list string;
  seq_ShareMounts : list string;
  seq_CatchAll : option string;
  seq_Disks : list string;
  seq_DiskCheck : bool;
  seq_StorageTarget : bool;
  seq_PoolWriteGate : bool;
  seq_AfterStart : bool
}.

Abbreviation A := (stM (calls event answer) err).

(** The error of a call that its caller checks; the calls named here return none,
    or one that is only logged. *)
Definition fails (e : event) (a : answer) : option err :=
  match e with
  | EEnterMaintenanceTransient | EMarkArrayStopped | EMarkArrayStoppedTransient
  | EReady | EWriteGateOpen | EAfterStart _ => None
  | _ => a_err a
  end.

Section sequence.
Context (env : environment event answer) (s : ArraySequence).

Definition try (e : event) : A unit := call_err env fails e.

(** ** Stopping *)
Definition stop_service (c : goctx) (svc : string) : A unit :=
  wrapping ("job: stopping " +:+ svc +:+ ": ") (try (EServiceStop c svc)).
Definition unmount (c : goctx) (m : string) : A unit :=
  wrapping ("job: unmounting " +:+ m +:+ ": ") (try (EUnmount c m)).

Definition stopSequence (c : goctx) (from : nat) (persist : bool) : A unit :=
  _ ← each (stop_service c) (drop from (seq_Services s));
  _ ← when (seq_StorageTarget s)
        (wrapping "job: closing the storage-target gate: " (try (ETargetClose c persist)));
  _ ← when (seq_PoolWriteGate s)
        (wrapping "job: closing the pool destination to config backups: " (try (EWriteGateClose c)));
  _ ← each (unmount c) (seq_ShareMounts s);
  _ ← when_some (seq_CatchAll s) (unmount c);
  each (unmount c) (seq_Disks s).

(** What [stop] does to the scheduler before it touches anything else. *)
Definition quiesce (persist : bool) : A unit :=
  _ ← (if persist
       then wrapping "job: entering maintenance mode: " (try (EEnterMaintenance CallerCtx))
       else try EEnterMaintenanceTransient);
  _ ← try (EDrain CallerCtx);
  _ ← try (EDrainShareMutations CallerCtx);
  try (EDrainAppActions CallerCtx).

Definition stop (persist : bool) : A unit :=
  _ ← when (seq_Scheduler s) (quiesce persist);
  _ ← stopSequence CallerCtx 0 persist;
  when (seq_Scheduler s) (try (if persist then EMarkArrayStopped else EMarkArrayStoppedTransient)).

Definition Stop : A unit := stop true.
Definition StopForShutdown : A unit := stop false.

(** ** A running pool *)
Definition RefreshLive (running : bool) : A unit :=
  match seq_CatchAll s with
  | None => mret tt
  | Some catchAll =>
      when running (
        _ ← wrapping ("job: updating " +:+ catchAll +:+ ": ") (try (EMount CallerCtx catchAll));
        each (λ m, wrapping ("job: updating " +:+ m +:+ ": ") (try (EMount CallerCtx m)))
          (seq_ShareMounts s))
  end.

(** ** Starting *)
Definition recloseAfterFailedStart : A unit :=
  when (seq_StorageTarget s)
    (wrapping "job: restoring the array-stopped condition flag: " (try (ETargetReclose WithoutCancel))).

Definition rollbackToStopped (from : nat) : A unit :=
  r ← attempt (stopSequence WithoutCancel from true);
  match r with
  | Ok _ => when (seq_Scheduler s) (try EMarkArrayStopped)
  | Err e =>
      rr ← attempt (when (seq_StorageTarget s) (try (ETargetReclose WithoutCancel)));
      match rr with
      | Err rerr =>
          throw (EWrap "job: could not return the array to stopped: " e
            (" (restoring the array-stopped flag also failed: " +:+ err_string rerr +:+ ")"))
      | Ok _ => throw (wrap "job: could not return the array to stopped: " e)
      end
  end.

(** [if err := m(); err != nil { return errors.Join(err, compensate) }] *)
Definition or_fail (m : A unit) (compensate : A unit) : A unit :=
  r ← attempt m;
  match r with
  | Ok _ => mret tt
  | Err e => rr ← attempt compensate; throw (EJoin (e :: omap id [err_of rr]))
  end.

(** A start that leaves nothing mounted puts "stop completed" back. *)
Definition restore_stopped (wasStopped : bool) (e : err) : A unit :=
  r ← attempt (when (seq_Scheduler s) (try (ERestoreArrayStopped wasStopped)));
  match r with
  | Ok _ => throw e
  | Err rerr => throw (EJoin [e; rerr])
  end.

Definition begin_start : A bool :=
  if seq_Scheduler s then
    a ← call env (EBeginArrayStart CallerCtx);
    match fails (EBeginArrayStart CallerCtx) a with Some e => throw e | None => mret (a_bool a) end
  else mret false.

Definition check_ready (wasStopped : bool) : A unit :=
  when (seq_Gate s) (
    a ← call env EReady;
    if a_bool a then mret tt else restore_stopped wasStopped (ESentinel S_StorageNotReady)).

Definition open_target (wasStopped : bool) : A unit :=
  when (seq_StorageTarget s) (
    r ← attempt (try (ETargetOpen CallerCtx));
    match r with
    | Ok _ => mret tt
    | Err e => restore_stopped wasStopped (wrap "job: opening the storage target: " e)
    end).

Definition mount (m : string) : A unit :=
  or_fail (wrapping ("job: mounting " +:+ m +:+ ": ") (try (EMount CallerCtx m)))
    recloseAfterFailedStart.

(** Every disk is unmounted again, whichever of them fails. *)
Fixpoint unmount_again (ds : list string) : A (list err) :=
  match ds with
  | [] => mret []
  | d :: ds' =>
      r ← attempt (try (EUnmount CallerCtx d));
      es ← unmount_again ds';
      mret (match r with
            | Ok _ => es
            | Err e => wrap ("unmounting " +:+ d +:+ " again: ") e :: es
            end)
  end.

Definition confirm_disks (wasStopped : bool) : A unit :=
  when (seq_DiskCheck s) (
    r ← attempt (try (EConfirmArrayDisks CallerCtx));
    match r with
    | Ok _ => mret tt
    | Err e =>
        errs ← unmount_again (seq_Disks s);
        r1 ← attempt (when (bool_decide (errs = []) && seq_Scheduler s)
               (try (ERestoreArrayStopped wasStopped)));
        r2 ← attempt recloseAfterFailedStart;
        throw (EJoin (e :: errs ++ omap id [err_of r1; err_of r2]))
    end).

Definition mount_pool : A unit :=
  when_some (seq_CatchAll s) (λ catchAll,
    _ ← mount catchAll;
    when (seq_PoolWriteGate s) (try EWriteGateOpen)).

Definition confirm_ready : A unit :=
  when (seq_StorageTarget s)
    (or_fail (wrapping "job: confirming storage-target readiness: " (try (ETargetConfirmReady CallerCtx)))
       (rollbackToStopped (length (seq_Services s)))).

(** [for i := n - 1; i >= 0; i--] *)
Fixpoint start_services (n : nat) : A unit :=
  match n with
  | O => mret tt
  | S i =>
      match seq_Services s !! i with
      | None => throw (EOther "index out of range")
      | Some svc =>
          _ ← or_fail (wrapping ("job: starting " +:+ svc +:+ ": ") (try (EServiceStart CallerCtx svc)))
                (rollbackToStopped (S i));
          start_services i
      end
  end.

Definition exit_maintenance : A unit :=
  when (seq_Scheduler s)
    (or_fail (wrapping "job: exiting maintenance mode: " (try EExitMaintenanceChecked))
       (rollbackToStopped 0)).

Definition Start : A unit :=
  wasStopped ← begin_start;
  _ ← check_ready wasStopped;
  _ ← open_target wasStopped;
  _ ← each mount (seq_Disks s);
  _ ← confirm_disks wasStopped;
  _ ← mount_pool;
  _ ← each mount (seq_ShareMounts s);
  _ ← confirm_ready;
  _ ← start_services (length (seq_Services s));
  _ ← exit_maintenance;
  when (seq_AfterStart s) (try (EAfterStart WithoutCancel)).

(** ** The low-battery shutdown ([UPSShutdown] of [ups.go]) *)
Definition Shutdown (power : bool) : A unit :=
  _ ← wrapping "job: ups low-battery shutdown: stopping the array: " StopForShutdown;
  when power (try (EPowerOff CallerCtx)).
End sequence.
