(* ===== verification/ArraySafety.v ===== *)
(** * The array sequence does what its order promises

    What stopping calls and in which order ([stop_plan], of which every run is a
    prefix); what a start calls when nothing fails; what the host looks like at
    each unmount and after a start that failed, as a function of the calls that
    succeeded. *)
From S2P Require Export ArraySeq.
Open Scope string_scope.
Open Scope list_scope.

(** ** The plans *)

(** The order of teardown: services, the gate, config backups, then the mounts
    from the shares down to the disks. *)
Definition teardown (s : ArraySequence) (c : goctx) (from : nat) (persist : bool) : list event :=
  concat (map (λ svc, [EServiceStop c svc]) (drop from (seq_Services s))) ++
  (if seq_StorageTarget s then [ETargetClose c persist] else []) ++
  (if seq_PoolWriteGate s then [EWriteGateClose c] else []) ++
  concat (map (λ m, [EUnmount c m]) (seq_ShareMounts s)) ++
  from_option (λ m, [EUnmount c m]) [] (seq_CatchAll s) ++
  concat (map (λ m, [EUnmount c m]) (seq_Disks s)).

Definition quiesce_plan (persist : bool) : list event :=
  [if persist then EEnterMaintenance CallerCtx else EEnterMaintenanceTransient] ++
  [EDrain CallerCtx] ++ [EDrainShareMutations CallerCtx] ++ [EDrainAppActions CallerCtx].

Definition stop_plan (s : ArraySequence) (persist : bool) : list event :=
  (if seq_Scheduler s then quiesce_plan persist else []) ++
  teardown s CallerCtx 0 persist ++
  (if seq_Scheduler s then [if persist then EMarkArrayStopped else EMarkArrayStoppedTransient] else []).

(** Building up is teardown backwards. *)
Definition start_plan (s : ArraySequence) : list event :=
  (if seq_Scheduler s then [EBeginArrayStart CallerCtx] else []) ++
  (if seq_Gate s then [EReady] else []) ++
  (if seq_StorageTarget s then [ETargetOpen CallerCtx] else []) ++
  map (EMount CallerCtx) (seq_Disks s) ++
  (if seq_DiskCheck s then [EConfirmArrayDisks CallerCtx] else []) ++
  from_option (λ m, EMount CallerCtx m :: if seq_PoolWriteGate s then [EWriteGateOpen] else []) []
    (seq_CatchAll s) ++
  map (EMount CallerCtx) (seq_ShareMounts s) ++
  (if seq_StorageTarget s then [ETargetConfirmReady CallerCtx] else []) ++
  map (EServiceStart CallerCtx) (reverse (seq_Services s)) ++
  (if seq_Scheduler s then [EExitMaintenanceChecked] else []) ++
  (if seq_AfterStart s then [EAfterStart WithoutCancel] else []).

Section plans.
Context (env : environment event answer) (s : ArraySequence).

Lemma stopSequence_plan c from persist :
  runs_plan fails (teardown s c from persist) (stopSequence env s c from persist).
Proof.
  unfold teardown, stopSequence.
  apply runs_seq; [apply runs_each; intros svc; apply runs_wrapping, runs_call|intros _].
  apply runs_seq; [apply runs_when, runs_wrapping, runs_call|intros _].
  apply runs_seq; [apply runs_when, runs_wrapping, runs_call|intros _].
  assert (∀ m, runs_plan fails [EUnmount c m] (unmount env c m)) as Hu
    by (intros m; apply runs_wrapping, runs_call).
  apply runs_seq; [by apply runs_each|intros _].
  apply runs_seq; [by apply (runs_when_some _ _ (λ m, [EUnmount c m]))|intros _].
  by apply runs_each.
Qed.

Lemma quiesce_runs persist : runs_plan fails (quiesce_plan persist) (quiesce env persist).
Proof.
  unfold quiesce_plan, quiesce.
  apply runs_seq; [destruct persist; [apply runs_wrapping|]; apply runs_call|intros _].
  apply runs_seq; [apply runs_call|intros _]. apply runs_seq; [apply runs_call|intros _]. apply runs_call.
Qed.

Lemma stop_runs persist : runs_plan fails (stop_plan s persist) (stop env s persist).
Proof.
  unfold stop_plan, stop.
  apply runs_seq; [apply runs_when, quiesce_runs|intros _].
  apply runs_seq; [apply stopSequence_plan|intros _]. apply runs_when, runs_call.
Qed.
End plans.

(** [array stop], and the stop of a shutdown, make the calls of [stop_plan]
    in its order, stop at the first that fails and return its error, and return
    none exactly when every call of the plan succeeded. *)
Theorem stop_follows_plan env s persist tr :
  ∃ made, snd (stop env s persist tr) = tr ++ made ∧
    follows fails (stop_plan s persist) (fst (stop env s persist tr)) made.
Proof. apply stop_runs. Qed.

Lemma stop_plan_all (P : event → Prop) s persist :
  (∀ e, P e ∨ e = EPowerOff CallerCtx) → Forall P (stop_plan s persist).
Proof.
  intros HP. assert (∀ e, e ≠ EPowerOff CallerCtx → P e) as H by (intros e; destruct (HP e); done).
  assert (∀ (f : string → event) l, (∀ x, P (f x)) → Forall P (concat (map (λ x, [f x]) l))) as Hc.
  { intros f l Hf. induction l; cbn; constructor; auto. }
  unfold stop_plan, teardown, quiesce_plan.
  destruct (seq_Scheduler s), (seq_StorageTarget s), (seq_PoolWriteGate s), (seq_CatchAll s), persist; cbn;
    repeat first [apply Forall_nil_2|apply Forall_cons_2|apply Forall_app_2|apply Hc; intros ?]; by apply H.
Qed.

(** the host is powered off only once the whole stop sequence has
    succeeded, every disk unmounted, and nothing is called after that. *)
Theorem power_off_comes_last env s power tr :
  ∃ made, snd (Shutdown env s power tr) = tr ++ made ∧
    ∀ a, (EPowerOff CallerCtx, a) ∈ made →
      ∃ done, made = done ++ [(EPowerOff CallerCtx, a)] ∧ map fst done = stop_plan s false ∧
        Forall (ok_call fails) done.
Proof.
  assert (runs_plan fails (stop_plan s false ++ if power then [EPowerOff CallerCtx] else [])
            (Shutdown env s power)) as Hr.
  { apply runs_seq; [apply runs_wrapping, stop_runs|]. intros _. apply runs_when, runs_call. }
  destruct (Hr tr) as (made&Hm&Hf). exists made. split; [done|]. intros a Hin.
  assert (EPowerOff CallerCtx ∉ stop_plan s false) as Hn.
  { intros H. assert (Forall (λ e, e ≠ EPowerOff CallerCtx) (stop_plan s false)) as Hall.
    { apply stop_plan_all. intros []; try (by left). destruct c; [by right|by left]. }
    rewrite Forall_forall in Hall. by eapply Hall. }
  destruct power.
  - by eapply follows_last.
  - exfalso. rewrite app_nil_r in Hf. apply follows_prefix in Hf as (rest&Hp&_). apply Hn.
    rewrite Hp, elem_of_app. left. rewrite list_elem_of_fmap. by exists (EPowerOff CallerCtx, a).
Qed.

(** ** What the calls leave behind *)

(** What is up: services, the storage target (its gate and the services behind
    it), config backups' writes, mounts, and the durable array-stopped flag. *)
Record host := mkHost {
  h_up : gset string;
  h_target : bool;
  h_writes : bool;
  h_mounted : gset string;
  h_flag : bool
}.

(** What a call that succeeded changes; one that failed is taken to change
    nothing. *)
Definition host_ok (e : event) (h : host) : host :=
  let 'mkHost up target writes mounted flag := h in
  match e with
  | EServiceStart _ svc => mkHost ({[svc]} ∪ up) target writes mounted flag
  | EServiceStop _ svc => mkHost (up ∖ {[svc]}) target writes mounted flag
  | ETargetConfirmReady _ => mkHost up true writes mounted flag
  | ETargetClose _ persist => mkHost up false writes mounted (persist || flag)
  | ETargetOpen _ => mkHost up target writes mounted false
  | ETargetReclose _ => mkHost up target writes mounted true
  | EWriteGateClose _ => mkHost up target false mounted flag
  | EWriteGateOpen => mkHost up target true mounted flag
  | EMount _ m => mkHost up target writes ({[m]} ∪ mounted) flag
  | EUnmount _ m => mkHost up target writes (mounted ∖ {[m]}) flag
  | _ => h
  end.

Definition host_step (h : host) (p : event * answer) : host :=
  match fails (fst p) (snd p) with Some _ => h | None => host_ok (fst p) h end.
Definition host_after (h : host) (tr : calls event answer) : host := foldl host_step h tr.

(** Nothing that could have a file open in the pool is up. *)
Definition quiet (h : host) : Prop := h_up h = ∅ ∧ h_target h = false ∧ h_writes h = false.

Definition is_unmount (e : event) : bool := match e with EUnmount _ _ => true | _ => false end.
Definition unmounts_quietly (h0 : host) (tr : calls event answer) : Prop :=
  ∀ pre p post, tr = pre ++ p :: post → is_unmount (fst p) = true → quiet (host_after h0 pre).

(** What is up is something the sequence stops. *)
Definition covered (s : ArraySequence) (from : nat) (h : host) : Prop :=
  h_up h ⊆ list_to_set (drop from (seq_Services s)) ∧
  (h_target h = true → seq_StorageTarget s = true) ∧
  (h_writes h = true → seq_PoolWriteGate s = true).

(** The array is stopped, by a user: the flag is in force. *)
Definition stopped (h : host) : Prop := quiet h ∧ h_flag h = true.

Definition all_mounts (s : ArraySequence) : list string :=
  seq_Disks s ++ from_option (λ m, [m]) [] (seq_CatchAll s) ++ seq_ShareMounts s.

Definition started (s : ArraySequence) (h : host) : Prop :=
  h_up h = list_to_set (seq_Services s) ∧ h_target h = seq_StorageTarget s ∧
  (∀ m, m ∈ all_mounts s → m ∈ h_mounted h) ∧ (seq_StorageTarget s = true → h_flag h = false).

Definition on_own_context (e : event) : Prop :=
  match e with
  | EServiceStop WithoutCancel _ | ETargetClose WithoutCancel _ | EWriteGateClose WithoutCancel
  | EUnmount WithoutCancel _ | ETargetReclose WithoutCancel => True
  | _ => False
  end.

(** ** Triples over the host *)
Section triples.
Context (env : environment event answer) (s : ArraySequence) (h0 : host).

Definition triple {X} (P : host → Prop) (m : A X) (Q : res err X → host → Prop) : Prop :=
  ∀ tr, unmounts_quietly h0 tr → P (host_after h0 tr) →
    unmounts_quietly h0 (snd (m tr)) ∧ Q (fst (m tr)) (host_after h0 (snd (m tr))).

(** No answer to [e] is an error. *)
Definition never_fails (e : event) : Prop := ∀ tr, fails e (env tr e) = None.

Lemma t_conseq {X} (P P' : host → Prop) (m : A X) (Q Q' : res err X → host → Prop) :
  triple P' m Q' → (∀ h, P h → P' h) → (∀ r h, Q' r h → Q r h) → triple P m Q.
Proof. intros H HP HQ tr Hs Ht. destruct (H tr Hs (HP _ Ht)). auto. Qed.

Lemma quietly_app tr e a :
  unmounts_quietly h0 tr → (is_unmount e = true → quiet (host_after h0 tr)) →
  unmounts_quietly h0 (tr ++ [(e, a)]).
Proof.
  intros Hs Hq pre p post Heq Hu. destruct post as [|z post _] using rev_ind.
  - apply app_inj_tail in Heq as [-> <-]. by apply Hq.
  - rewrite app_comm_cons, app_assoc in Heq. apply app_inj_tail in Heq as [-> _]. by eapply Hs.
Qed.

Lemma host_after_app tr e a :
  host_after h0 (tr ++ [(e, a)]) =
    match fails e a with Some _ => host_after h0 tr | None => host_ok e (host_after h0 tr) end.
Proof. unfold host_after. by rewrite foldl_app. Qed.

(** Every call: an unmount needs a quiet host. *)
Lemma t_call e (P : host → Prop) (Q : res err answer → host → Prop) :
  (∀ h, P h → is_unmount e = true → quiet h) →
  (∀ h a, P h → fails e a = None → Q (Ok a) (host_ok e h)) →
  (∀ h a x, P h → fails e a = Some x → ¬ never_fails e → Q (Ok a) h) →
  triple P (call env e) Q.
Proof.
  intros Hu Hok Herr tr Hs HP. unfold call. cbn. split; [apply quietly_app; eauto|].
  rewrite host_after_app. destruct (fails e (env tr e)) eqn:E; [|by apply Hok].
  eapply Herr; [done..|]. intros H. by rewrite (H tr) in E.
Qed.

Lemma t_bind {X Y} (P : host → Prop) (m : A X) (k : X → A Y) R Q :
  triple P m R → (∀ x, triple (R (Ok x)) (k x) Q) → (∀ e h, R (Err e) h → Q (Err e) h) →
  triple P (mbind k m) Q.
Proof.
  intros Hm Hk He tr Hs HP. destruct (Hm tr Hs HP) as [Hs' HR]. unfold mbind, stM_bind.
  destruct (m tr) as [[x|e] w]; cbn in *; [by apply Hk|auto].
Qed.

Lemma t_ret {X} (x : X) (P : host → Prop) Q : (∀ h, P h → Q (Ok x) h) → triple P (mret x) Q.
Proof. intros H tr Hs HP. cbn. auto. Qed.

Lemma t_throw {X} (e : err) (P : host → Prop) (Q : res err X → host → Prop) :
  (∀ h, P h → Q (Err e) h) → triple P (throw e) Q.
Proof. intros H tr Hs HP. cbn. auto. Qed.

Lemma t_attempt {X} P (m : A X) (Q : res err (res err X) → host → Prop) :
  triple P m (λ r, Q (Ok r)) → triple P (attempt m) Q.
Proof. intros H tr Hs HP. specialize (H tr Hs HP). unfold attempt. by destruct (m tr). Qed.

Lemma t_wrapping {X} pre P (m : A X) Q :
  triple P m (λ r h, match r with Ok x => Q (Ok x) h | Err e => Q (Err (wrap pre e)) h end) →
  triple P (wrapping pre m) Q.
Proof. intros H tr Hs HP. specialize (H tr Hs HP). unfold wrapping. by destruct (m tr) as [[]]. Qed.

(** A call whose error is checked. *)
Lemma t_try e (P : host → Prop) (Q : res err unit → host → Prop) :
  (∀ h, P h → is_unmount e = true → quiet h) →
  (∀ h, P h → Q (Ok tt) (host_ok e h)) →
  (∀ h x, P h → ¬ never_fails e → Q (Err x) h) →
  triple P (try env e) Q.
Proof.
  intros Hu Hok Herr.
  apply (t_bind _ _ _ (λ r h, match r with
    | Ok a => match fails e a with None => Q (Ok tt) h | Some x => Q (Err x) h end
    | Err _ => False end)); [|intros a|done].
  - apply t_call; [done|intros h a HP ->|intros h a x HP -> Hn]; auto.
  - destruct (fails e a) as [x|]; [by apply t_throw|by apply t_ret].
Qed.

Lemma t_when (b : bool) P m Q :
  (b = true → triple P m Q) → (b = false → ∀ h, P h → Q (Ok tt) h) → triple P (when b m) Q.
Proof. destruct b; cbn; [auto|]. intros _ H. apply t_ret. auto. Qed.

(** A loop with an invariant on what is left to do. *)
Lemma t_each {X} (I : list X → host → Prop) (E : err → host → Prop) (f : X → A unit) l :
  (∀ x l', triple (I (x :: l')) (f x) (λ r h, match r with Ok _ => I l' h | Err e => E e h end)) →
  triple (I l) (each f l) (λ r h, match r with Ok _ => I [] h | Err e => E e h end).
Proof.
  intros H. induction l as [|x l IH]; cbn; [by apply t_ret|].
  eapply t_bind; [apply H|intros []; apply IH|done].
Qed.

End triples.

(** ** A start, stage by stage *)
Section start.
Context (env : environment event answer) (s : ArraySequence) (h0 : host).
Abbreviation triple := (triple h0).
Abbreviation never_fails := (never_fails env).

Definition detached_succeed : Prop := ∀ e, on_own_context e → never_fails e.
Definition reclose_succeeds : Prop := never_fails (ETargetReclose WithoutCancel).

(** Without a storage target nothing touches the flag. *)
Definition flag_kept (h : host) : Prop := seq_StorageTarget s = false → h_flag h = h_flag h0.

(** What a start that failed leaves. *)
Definition failed (h : host) : Prop :=
  (reclose_succeeds → h_flag h = true) ∧
  (detached_succeed → h_up h = ∅ ∧ h_target h = false).

Definition outcome_is {X} (Q : X → host → Prop) (r : res err X) (h : host) : Prop :=
  match r with Ok x => Q x h | Err _ => failed h end.

(** The services from [from] on are up, [mounts] are mounted. *)
Record stage (mounts : list string) (writes target : bool) (from : nat) (h : host) : Prop := mkStage {
  st_up : h_up h = list_to_set (drop from (seq_Services s));
  st_target : h_target h = target;
  st_writes : h_writes h = true → writes = true;
  st_flag : flag_kept h;
  st_open : seq_StorageTarget s = true → h_flag h = false;
  st_mounts : ∀ m, m ∈ mounts → m ∈ h_mounted h
}.

Lemma t_seq {X Y} P (R : X → host → Prop) Q (m : A X) (k : X → A Y) :
  triple P m (outcome_is R) → (∀ x, triple (R x) (k x) (outcome_is Q)) →
  triple P (mbind k m) (outcome_is Q).
Proof. intros Hm Hk. by eapply t_bind. Qed.

Lemma stop_services_ok c l (K : host → Prop) :
  (∀ h svc, K h → K (host_ok (EServiceStop c svc) h)) →
  triple (λ h, h_up h ⊆ list_to_set l ∧ K h) (each (stop_service env c) l)
    (λ r h, match r with Ok _ => h_up h = ∅ ∧ K h | Err _ => K h ∧ ∃ svc, ¬ never_fails (EServiceStop c svc) end).
Proof.
  intros HK. eapply t_conseq; [apply (t_each _
    (λ l h, h_up h ⊆ list_to_set l ∧ K h) (λ _ h, K h ∧ ∃ svc, ¬ never_fails (EServiceStop c svc)))|done|].
  - intros svc l'. apply t_wrapping, t_try; [done| |].
    + intros h [Hu Hk]. split; [|by apply HK]. destruct h; cbn in *. set_solver.
    + intros h x [_ Hk] Hn. split; [done|by exists svc].
  - intros [] h; [|done]. cbn. intros [Hu Hk]. split; [set_solver|done].
Qed.

Lemma unmounts_ok c l (K : host → Prop) :
  (∀ h m, K h → K (host_ok (EUnmount c m) h)) → (∀ h, K h → quiet h) →
  triple K (each (unmount env c) l)
    (λ r h, match r with Ok _ => K h | Err _ => K h ∧ ∃ m, ¬ never_fails (EUnmount c m) end).
Proof.
  intros HK Hq. apply (t_each _ (λ _, K) (λ _ h, K h ∧ ∃ m, ¬ never_fails (EUnmount c m))).
  intros m l'. apply t_wrapping, t_try; [eauto..|]. intros h x Hk Hn. eauto.
Qed.

(** A stop sequence unmounts nothing under a service; one that succeeds leaves
    the host quiet and, if it persists, the flag in force. *)
Lemma stopSequence_ok c from persist (B : Prop) :
  (∀ e, ¬ never_fails e →
     match e with
     | EServiceStop c' _ | ETargetClose c' _ | EWriteGateClose c' | EUnmount c' _ => c' = c
     | _ => False
     end → B) →
  triple (λ h, covered s from h ∧ flag_kept h) (stopSequence env s c from persist)
    (λ r h, flag_kept h ∧
       match r with
       | Ok _ => quiet h ∧ (persist = true → seq_StorageTarget s = true → h_flag h = true)
       | Err _ => B
       end).
Proof.
  intros HB. unfold stopSequence.
  set (K := λ h, flag_kept h ∧ (h_target h = true → seq_StorageTarget s = true) ∧
                 (h_writes h = true → seq_PoolWriteGate s = true)).
  set (F := λ h, seq_StorageTarget s = true → persist = true → h_flag h = true).
  eapply t_bind; [eapply t_conseq; [apply (stop_services_ok c _ K)| |done]| |].
  - intros [????] svc; cbn. done.
  - intros h [[? [??]] ?]. done.
  - intros []. eapply (t_bind _ _ _ _
      (λ r h, match r with Ok _ => K h ∧ h_up h = ∅ ∧ h_target h = false ∧ F h | Err _ => flag_kept h ∧ B end)); [| |done].
    { apply t_when.
      - intros Ht. apply t_wrapping, t_try; [done| |].
        + intros [u t w m f] [Hu (Hf&_&Hw)]. unfold K, F, flag_kept in *. cbn in *.
          split_and!; [by rewrite Ht|done|done|done|done|]. by intros _ ->.
        + intros h x [_ [Hf _]] Hn. split; [done|]. eapply HB; [done|]. done.
      - intros Ht h [Hu (Hf&Htg&Hw)]. unfold K, F. rewrite Ht in *. split_and!; try done.
        destruct (h_target h); [by discriminate Htg|done]. }
    intros []. eapply (t_bind _ _ _ _
      (λ r h, match r with Ok _ => K h ∧ quiet h ∧ F h | Err _ => flag_kept h ∧ B end)); [| |done].
    { apply t_when.
      - intros Ht. apply t_wrapping, t_try; [done| |].
        + intros [u t w m f] ((Hf&Htg&Hw)&Hu&Ht0&HF). unfold K, F, flag_kept, quiet in *. cbn in *. done.
        + intros h x ((Hf&_)&_) Hn. split; [done|]. eapply HB; [done|]. done.
      - intros Hp h ((Hf&Htg&Hw)&Hu&Ht0&HF). unfold K, quiet. split_and!; try done.
        rewrite Hp in Hw. destruct (h_writes h); [by discriminate Hw|done]. }
    intros []. set (L := λ h, K h ∧ quiet h ∧ F h).
    assert (∀ h m, L h → L (host_ok (EUnmount c m) h)) as HL by (by intros [?????] ?; cbn).
    assert (∀ h, L h → quiet h) as HLq by (by intros h (_&?&_)).
    assert (∀ l Q, (∀ h, L h → Q (Ok tt) h) → (∀ e h, flag_kept h ∧ B → Q (Err e) h) →
      triple L (each (unmount env c) l) Q) as Hun.
    { intros l Q HQ HE. eapply t_conseq; [by apply (unmounts_ok c l L)|done|].
      intros [[]|e] h; [apply HQ|]. intros [((Hf&_)&_) (m&Hn)]. apply HE. split; [done|].
      eapply HB; [exact Hn|done]. }
    eapply t_bind; [apply (Hun _ (λ r h, match r with Ok _ => L h | Err _ => flag_kept h ∧ B end)); done| |done].
    intros []. eapply (t_bind _ _ _ _ (λ r h, match r with Ok _ => L h | Err _ => flag_kept h ∧ B end)); [| |done].
    { destruct (seq_CatchAll s) as [m|]; cbn; [|by apply t_ret].
      apply t_wrapping, t_try; [by auto|by auto|]. intros h x ((Hf&_)&_) Hn. split; [done|].
      eapply HB; [exact Hn|done]. }
    intros []. apply Hun; [|done]. intros h ((Hf&_)&Hq&HF). split_and!; try done.
    intros Hp Ht. by apply HF.
  - intros e h [(Hf&_) (svc&Hn)]. split; [done|]. eapply HB; [exact Hn|done].
Qed.

(** From here on the start began with the flag in force. *)
Hypothesis Hflag : h_flag h0 = true.

Lemma rollback_ok from :
  triple (λ h, covered s from h ∧ flag_kept h) (rollbackToStopped env s from) (λ _, failed).
Proof.
  unfold rollbackToStopped.
  apply (t_bind _ _ _ _ (λ r h, match r with
    | Ok (Ok _) => quiet h ∧ h_flag h = true
    | Ok (Err _) => flag_kept h ∧ ¬ detached_succeed
    | Err _ => False end)); [| |done].
  - apply t_attempt. eapply t_conseq; [apply (stopSequence_ok WithoutCancel from true (¬ detached_succeed))|done|].
    + intros e Hn Hc HD. apply Hn, HD. by destruct e; subst.
    + intros [[]|e] h; [|done]. intros (Hk&Hq&Hp). split; [done|].
      destruct (seq_StorageTarget s) eqn:Ht; [by apply Hp|by rewrite <-Hflag, <-Hk].
  - intros [[]|e].
    + apply t_when.
      * intros _. apply t_try; [done| |]; intros [? ? ? ? ?]; unfold quiet, failed; cbn; naive_solver.
      * intros _ h [(Hu&Ht&_) Hf]. unfold failed. auto.
    + apply (t_bind _ _ _ _ (λ r h, match r with
        | Ok (Ok _) => h_flag h = true ∧ ¬ detached_succeed
        | Ok (Err _) => ¬ reclose_succeeds
        | Err _ => False end)); [| |done].
      * apply t_attempt, t_when.
        -- intros _. apply t_try; [done| |done]. by intros [? ? ? ? ?] [_ ?]; cbn.
        -- intros Ht h [Hf ?]. split; [by rewrite <-Hflag, <-Hf|done].
      * assert (detached_succeed → reclose_succeeds) as HD by (intros H; by apply H).
        intros [[]|rerr]; apply t_throw; unfold failed; naive_solver.
Qed.

Lemma or_fail_ok P Q m c :
  triple P m (λ r h, match r with Ok x => Q x h | Err _ => P h end) → triple P c (λ _, failed) →
  triple P (or_fail m c) (outcome_is Q).
Proof.
  intros Hm Hc. unfold or_fail.
  apply (t_bind _ _ _ _ (λ r h, match r with
    | Ok (Ok x) => Q x h | Ok (Err _) => P h | Err _ => False end)); [by apply t_attempt| |done].
  intros [[]|e]; [by apply t_ret|].
  apply (t_bind _ _ _ _ (λ _, failed)); [apply t_attempt, Hc|intros rr; by apply t_throw|done].
Qed.

(** A call that fails sends the start to its compensation. *)
Lemma try_or_fail pre e (P : host → Prop) (Q : unit → host → Prop) c :
  is_unmount e = false → (∀ h, P h → Q tt (host_ok e h)) → triple P c (λ _, failed) →
  triple P (or_fail (wrapping pre (try env e)) c) (outcome_is Q).
Proof.
  intros Hu HQ Hc. apply or_fail_ok; [|done]. apply t_wrapping, t_try; [by rewrite Hu|done|done].
Qed.

Lemma reclose_ok (P : host → Prop) :
  (∀ h, P h → flag_kept h ∧ h_up h = ∅ ∧ h_target h = false) →
  triple P (recloseAfterFailedStart env s) (λ _, failed).
Proof.
  intros HP. unfold recloseAfterFailedStart, failed. apply t_when.
  - intros _. apply t_wrapping, t_try; [done| |].
    + intros [? ? ? ? ?] (_&?&?)%HP. done.
    + intros h x (_&?&?)%HP Hn. split; [done|]. done.
  - intros Ht h (Hf&?&?)%HP. split; [intros _; by rewrite <-Hflag, <-Hf|done].
Qed.

Lemma drop_all_services : drop (length (seq_Services s)) (seq_Services s) = [].
Proof. by apply drop_ge. Qed.

(** The part of a start before any service: nothing is up. *)
Lemma stage_low ms wr h :
  stage ms wr false (length (seq_Services s)) h → flag_kept h ∧ h_up h = ∅ ∧ h_target h = false.
Proof. intros []. split; [done|]. split; [|done]. by rewrite st_up0, drop_all_services. Qed.

Lemma mount_ok m ms wr :
  let st ms := stage ms wr false (length (seq_Services s)) in
  triple (st ms) (mount env s m) (outcome_is (λ _, st (m :: ms))).
Proof.
  intros st. apply try_or_fail; [done| |].
  - intros [? ? ? ? ?] []. constructor; cbn in *; try done. set_solver.
  - apply reclose_ok. intros h. apply stage_low.
Qed.

Lemma mounts_ok l ms wr :
  let st ms := stage ms wr false (length (seq_Services s)) in
  triple (st ms) (each (mount env s) l) (outcome_is (λ _, st (l ++ ms))).
Proof.
  intros st. revert ms. induction l as [|m l IH]; intros ms; [by apply t_ret|].
  eapply t_seq; [apply mount_ok|]. intros []. eapply t_conseq; [apply IH|done|].
  intros [[]|e] h; [|done]. intros []. constructor; try done. intros m' Hm. apply st_mounts0. set_solver.
Qed.

Lemma restore_ok was e (P : host → Prop) Q :
  (∀ h, P h → failed h) → triple P (restore_stopped env s was e) (outcome_is Q).
Proof.
  intros HP. unfold restore_stopped.
  eapply (t_bind _ _ _ _ (λ r h, failed h)); [|intros [|]; by apply t_throw|done].
  apply t_attempt, t_when; [|auto]. intros _. apply t_try; [done| |auto].
  intros [? ? ? ? ?] ?%HP. done.
Qed.

Lemma stopped_failed h : stopped h → failed h.
Proof. intros [(?&?&?) ?]. split; auto. Qed.

Lemma confirm_disks_ok was ms :
  let st := stage ms false false (length (seq_Services s)) in
  triple st (confirm_disks env s was) (outcome_is (λ _, st)).
Proof.
  intros st. unfold confirm_disks. apply t_when; [|done]. intros _.
  eapply (t_bind _ _ _ _ (λ r h, match r with Ok _ => st h | Err _ => False end)); [| |done].
  { apply t_attempt, t_try; [done|by intros [? ? ? ? ?]|done]. }
  intros [[]|e]; [by apply t_ret|].
  (* nothing is up while the disks are unmounted again *)
  set (low := λ h, flag_kept h ∧ quiet h).
  assert (∀ ds, triple low (unmount_again env ds) (λ r h, match r with Ok _ => low h | Err _ => False end)) as Hun.
  { induction ds as [|d ds IH]; cbn; [by apply t_ret|].
    eapply (t_bind _ _ _ _ (λ r h, match r with Ok _ => low h | Err _ => False end)); [| |done].
    - apply t_attempt, t_try; [by intros h [_ ?]|by intros [? ? ? ? ?]|done].
    - intros r. eapply t_bind; [exact IH|intros es; by apply t_ret|done]. }
  eapply t_bind; [eapply t_conseq; [apply Hun| |done]| |done].
  { intros h Hh. split; [apply Hh|]. split_and!; [by apply stage_low in Hh as (?&?&?)..|].
    destruct Hh. destruct (h_writes h); [by discriminate st_writes0|done]. }
  intros errs. eapply (t_bind _ _ _ _ (λ r h, match r with Ok _ => low h | Err _ => False end)); [| |done].
  { apply t_attempt, t_when; [|done]. intros _. apply t_try; [done|by intros [? ? ? ? ?]|done]. }
  intros r1. eapply (t_bind _ _ _ _ (λ r h, failed h)); [|intros r2; by apply t_throw|done].
  apply t_attempt. apply reclose_ok. by intros h [? (?&?&?)].
Qed.

Lemma start_services_ok n ms :
  (n ≤ length (seq_Services s))%nat →
  let st := stage ms (seq_PoolWriteGate s) (seq_StorageTarget s) in
  triple (st n) (start_services env s n) (outcome_is (λ _, st 0%nat)).
Proof.
  intros Hn st. induction n as [|i IH]; cbn; [by apply t_ret|].
  destruct (lookup_lt_is_Some_2 (seq_Services s) i) as [svc Hsvc]; [lia|]. rewrite Hsvc.
  apply (t_seq _ (λ _, st i)); [|intros []; apply IH; lia]. apply try_or_fail; [done| |].
  - intros [u t w m f] []. constructor; cbn in *; try done.
    rewrite (drop_S _ _ _ Hsvc). cbn. by rewrite st_up0.
  - eapply t_conseq; [apply rollback_ok| |done]. intros h []. split; [|done].
    unfold covered. rewrite st_up0, st_target0. done.
Qed.

Definition has_writes : bool := bool_decide (is_Some (seq_CatchAll s)) && seq_PoolWriteGate s.

Lemma Start_ok : triple stopped (Start env s) (outcome_is (λ _, started s)).
Proof.
  set (n := length (seq_Services s)). unfold Start.
  apply (t_seq _ (λ _, stopped)).
  { unfold begin_start. destruct (seq_Scheduler s); [|by apply t_ret].
    eapply (t_bind _ _ _ _ (λ r h, stopped h)); [apply t_call; [done|by intros [? ? ? ? ?]|done]| |].
    - intros a. cbn. destruct (a_err a); [apply t_throw, stopped_failed|by apply t_ret].
    - intros e h. apply stopped_failed. }
  intros was. apply (t_seq _ (λ _, stopped)).
  { unfold check_ready. apply t_when; [|done]. intros _.
    eapply (t_bind _ _ _ _ (λ r h, stopped h)); [apply t_call; [done|by intros [? ? ? ? ?]|done]| |].
    - intros a. destruct (a_bool a); [by apply t_ret|apply restore_ok, stopped_failed].
    - intros e h. apply stopped_failed. }
  intros _. apply (t_seq _ (λ _, stage [] false false n)).
  { unfold open_target.
    assert (∀ h, stopped h → seq_StorageTarget s = false → stage [] false false n h) as H0.
    { intros h [(Hu&Ht&Hw) Hf] HT. split; unfold flag_kept; rewrite ?Hu, ?Hw, ?HT; try done.
      - subst n. by rewrite drop_all_services.
      - intros _. by rewrite Hf.
      - by intros m ?%elem_of_nil. }
    apply t_when; [|intros HT h Hh; by apply H0]. intros HT.
    apply (t_bind _ _ _ _ (λ r h, match r with
      | Ok (Ok _) => stage [] false false n h | Ok (Err _) => stopped h | Err _ => False end)); [| |done].
    - apply t_attempt, t_try; [done| |done].
      intros [u t w m f] [(Hu&Ht&Hw) Hf]. cbn in *. split; unfold flag_kept; cbn; rewrite ?HT, ?Hw; try done.
      + subst n. by rewrite drop_all_services.
      + by intros m' ?%elem_of_nil.
    - intros [[]|e]; [by apply t_ret|apply restore_ok, stopped_failed]. }
  intros _. apply (t_seq _ (λ _, stage (seq_Disks s ++ []) false false n)); [apply mounts_ok|intros _].
  apply (t_seq _ (λ _, stage (seq_Disks s ++ []) false false n)); [apply confirm_disks_ok|intros _].
  set (pool := from_option (λ m, [m]) [] (seq_CatchAll s) ++ seq_Disks s ++ []).
  apply (t_seq _ (λ _, stage pool (seq_PoolWriteGate s) false n)).
  { unfold mount_pool. subst pool. destruct (seq_CatchAll s) as [m|]; cbn.
    - apply (t_seq _ (λ _, stage (m :: seq_Disks s ++ []) false false n)); [apply mount_ok|intros _].
      apply t_when; intros Hw.
      + apply t_try; [done| |intros h x _ Hn; by destruct Hn].
        intros [? ? ? ? ?] []. constructor; cbn in *; done.
      + intros h []. constructor; try done. intros Hh. by apply st_writes0 in Hh.
    - apply t_ret. intros h []. constructor; try done. intros Hh. by apply st_writes0 in Hh. }
  intros _. apply (t_seq _ (λ _, stage (seq_ShareMounts s ++ pool) (seq_PoolWriteGate s) false n));
    [apply mounts_ok|intros _].
  apply (t_seq _ (λ _, stage (seq_ShareMounts s ++ pool) (seq_PoolWriteGate s) (seq_StorageTarget s) n)).
  { unfold confirm_ready. apply t_when.
    - intros HT. apply try_or_fail; [done| |].
      + intros [? ? ? ? ?] []. constructor; cbn in *; done.
      + eapply t_conseq; [apply rollback_ok| |done]. intros h []. split; [|done].
        unfold covered. rewrite st_up0, st_target0. done.
    - intros HT h []. rewrite HT. constructor; done. }
  intros _. apply (t_seq _ (λ _, stage (seq_ShareMounts s ++ pool) (seq_PoolWriteGate s) (seq_StorageTarget s) 0%nat));
    [by apply start_services_ok|intros _].
  assert (∀ h, stage (seq_ShareMounts s ++ pool) (seq_PoolWriteGate s) (seq_StorageTarget s) 0 h → started s h) as Hst.
  { intros h []. split_and!; try done. intros m Hm. apply st_mounts0. subst pool.
    revert Hm. unfold all_mounts. set_solver. }
  apply (t_seq _ (λ _, started s)).
  { unfold exit_maintenance. apply t_when; [|by intros _ h ?%Hst]. intros _.
    apply try_or_fail; [done|intros [? ? ? ? ?]; apply Hst|].
    eapply t_conseq; [apply rollback_ok| |done]. intros h []. split; [|done].
    unfold covered. rewrite st_up0, st_target0. done. }
  intros _. apply t_when; [|done]. intros _. apply t_try; [done|by intros [? ? ? ? ?]|intros h x _ Hn; by destruct Hn].
Qed.
End start.

(** ** Properties *)

Lemma unmounts_quietly_nil h : unmounts_quietly h [].
Proof. intros [] ? ? [=]. Qed.

(** A property of the host that no call of a plan without unmounts changes. *)
Lemma plan_quietly plan m h tr :
  runs_plan fails plan m → (∀ e, e ∈ plan → is_unmount e = false ∧ ∀ h', host_ok e h' = h') →
  unmounts_quietly h tr →
  unmounts_quietly h (snd (m tr)) ∧ host_after h (snd (m tr)) = host_after h tr.
Proof.
  intros Hr He Hq. destruct (Hr tr) as (made&->&(rest&->&_)%follows_prefix). clear Hr.
  induction made as [|[e a] made IH] using rev_ind; [by rewrite app_nil_r|].
  destruct IH as [IH1 IH2]; [intros e' H; apply He; rewrite map_app; set_solver|].
  destruct (He e) as [Hu Hh]; [rewrite map_app; set_solver|]. rewrite app_assoc. split.
  - apply quietly_app; [done|]. by rewrite Hu.
  - rewrite host_after_app, IH2. by destruct (fails e a).
Qed.


Lemma quiesce_changes_nothing env persist h tr :
  unmounts_quietly h tr →
  unmounts_quietly h (snd (quiesce env persist tr)) ∧
  host_after h (snd (quiesce env persist tr)) = host_after h tr.
Proof.
  apply (plan_quietly (quiesce_plan persist)); [apply quiesce_runs|].
  intros e He. unfold quiesce_plan in He.
  destruct persist; cbn in He; rewrite !elem_of_cons, elem_of_nil in He;
    destruct He as [->|[->|[->|[->|[]]]]]; split; try done; by intros [?????].
Qed.

Lemma stop_quietly env s persist h :
  covered s 0 h → unmounts_quietly h (snd (stop env s persist [])).
Proof.
  intros Hc. unfold stop.
  pose proof (quiesce_changes_nothing env persist h [] (unmounts_quietly_nil h)) as [H1 H2].
  unfold mbind, stM_bind.
  assert (∀ tr, unmounts_quietly h tr → host_after h tr = h →
    unmounts_quietly h (snd (mbind (λ _, when (seq_Scheduler s)
      (try env (if persist then EMarkArrayStopped else EMarkArrayStoppedTransient)))
      (stopSequence env s CallerCtx 0 persist) tr))) as Hrest.
  { intros tr Hq Hh. apply (t_bind h (λ h', covered s 0 h' ∧ flag_kept s h h') _ _ (λ _ _, True) (λ _ _, True)).
    - eapply t_conseq; [apply (stopSequence_ok env s h CallerCtx 0 persist True)|done|done]. done.
    - intros []. apply t_when; [|done]. intros _. destruct persist; by apply t_try.
    - done.
    - done.
    - rewrite Hh. split; [done|]. by intros _. }
  revert Hrest. destruct (seq_Scheduler s); cbn [when]; intros Hrest;
    [|apply (Hrest []); [apply unmounts_quietly_nil|done]].
  destruct (quiesce env persist []) as [[[]|e] tr]; cbn in H1, H2; [by apply Hrest|done].
Qed.

(** C9: whatever the services, mounts and gates answer, no stop and no start
    ever unmounts anything while a service it started or knew of is up, while
    the storage target (with Docker and libvirt behind it) is open, or while
    config backups may write into the pool: not on the way down, and not when
    it undoes a start that failed halfway. *)
Theorem unmounts_are_quiet env s h :
  (∀ persist, covered s 0 h → unmounts_quietly h (snd (stop env s persist []))) ∧
  (stopped h → unmounts_quietly h (snd (Start env s []))).
Proof.
  split; [intros persist; apply stop_quietly|]. intros Hst.
  by apply (Start_ok env s h (proj2 Hst) []); [apply unmounts_quietly_nil|].
Qed.


(** ** Nothing fails *)

Definition all_well : environment event answer := λ _ _, mkAnswer None true.

Lemma try_well e tr : try all_well e tr = (Ok tt, tr ++ [(e, mkAnswer None true)]).
Proof. unfold try, call_err, call, mbind, stM_bind. cbn. by destruct e. Qed.

Lemma each_well {X} (f : X → A unit) (pl : X → event) l tr :
  (∀ x tr, f x tr = (Ok tt, tr ++ [(pl x, mkAnswer None true)])) →
  each f l tr = (Ok tt, tr ++ map (λ e, (e, mkAnswer None true)) (map pl l)).
Proof.
  intros Hf. revert tr. induction l as [|x l IH]; intros tr; cbn; [by rewrite app_nil_r|].
  unfold mbind, stM_bind. rewrite Hf, IH, <-app_assoc. done.
Qed.

Lemma mount_well s m tr : mount all_well s m tr = (Ok tt, tr ++ [(EMount CallerCtx m, mkAnswer None true)]).
Proof.
  unfold mount, or_fail, attempt, mbind, stM_bind, wrapping. by rewrite try_well.
Qed.

Lemma start_services_well s n tr :
  (n ≤ length (seq_Services s))%nat →
  start_services all_well s n tr =
    (Ok tt, tr ++ map (λ e, (e, mkAnswer None true))
                    (map (EServiceStart CallerCtx) (reverse (take n (seq_Services s))))).
Proof.
  revert tr. induction n as [|n IH]; intros tr Hn; cbn; [by rewrite app_nil_r|].
  destruct (lookup_lt_is_Some_2 (seq_Services s) n) as [svc Hsvc]; [lia|]. rewrite Hsvc.
  unfold mbind, stM_bind, or_fail, attempt, mbind, stM_bind, wrapping. rewrite try_well. cbn.
  rewrite IH by lia. rewrite (take_S_r _ _ _ Hsvc), reverse_snoc, <-app_assoc. done.
Qed.

(** When nothing fails a start succeeds, and it makes exactly the calls of
    [start_plan]: teardown's order backwards. *)
Theorem start_follows_plan s :
  let (r, tr) := Start all_well s [] in r = Ok tt ∧ map fst tr = start_plan s.
Proof.
  set (tag := λ e : event, (e, mkAnswer None true)).
  assert (∀ b e tr, when b (try all_well e) tr = (Ok tt, tr ++ map tag (if b then [e] else []))) as Hwhen.
  { intros [] e tr; cbn; [by rewrite try_well|by rewrite app_nil_r]. }
  assert (Start all_well s [] = (Ok tt, map tag (start_plan s))) as ->.
  { unfold Start, mbind, stM_bind.
    assert (begin_start all_well s [] = (Ok (seq_Scheduler s),
      map tag (if seq_Scheduler s then [EBeginArrayStart CallerCtx] else []))) as ->
      by (unfold begin_start; by destruct (seq_Scheduler s)).
    assert (∀ tr, check_ready all_well s (seq_Scheduler s) tr =
      (Ok tt, tr ++ map tag (if seq_Gate s then [EReady] else []))) as ->
      by (intros tr; unfold check_ready; destruct (seq_Gate s); cbn; by rewrite ?app_nil_r).
    assert (∀ tr, open_target all_well s (seq_Scheduler s) tr =
      (Ok tt, tr ++ map tag (if seq_StorageTarget s then [ETargetOpen CallerCtx] else []))) as ->
      by (intros tr; unfold open_target, attempt, mbind, stM_bind; destruct (seq_StorageTarget s); cbn;
          by rewrite ?try_well, ?app_nil_r).
    rewrite (each_well _ (EMount CallerCtx)) by apply mount_well.
    assert (∀ tr, confirm_disks all_well s (seq_Scheduler s) tr =
      (Ok tt, tr ++ map tag (if seq_DiskCheck s then [EConfirmArrayDisks CallerCtx] else []))) as ->
      by (intros tr; unfold confirm_disks, attempt, mbind, stM_bind; destruct (seq_DiskCheck s); cbn;
          by rewrite ?try_well, ?app_nil_r).
    assert (∀ tr, mount_pool all_well s tr = (Ok tt, tr ++ map tag
      (from_option (λ m, EMount CallerCtx m :: if seq_PoolWriteGate s then [EWriteGateOpen] else []) []
         (seq_CatchAll s)))) as ->.
    { intros tr. unfold mount_pool. destruct (seq_CatchAll s) as [m|]; cbn; [|by rewrite app_nil_r].
      unfold mbind, stM_bind. rewrite mount_well, Hwhen, <-app_assoc. done. }
    rewrite (each_well _ (EMount CallerCtx)) by apply mount_well.
    assert (∀ tr, confirm_ready all_well s tr =
      (Ok tt, tr ++ map tag (if seq_StorageTarget s then [ETargetConfirmReady CallerCtx] else []))) as ->
      by (intros tr; unfold confirm_ready, or_fail, wrapping, attempt, mbind, stM_bind;
          destruct (seq_StorageTarget s); cbn; by rewrite ?try_well, ?app_nil_r).
    rewrite start_services_well, firstn_all by done.
    assert (∀ tr, exit_maintenance all_well s tr =
      (Ok tt, tr ++ map tag (if seq_Scheduler s then [EExitMaintenanceChecked] else []))) as ->
      by (intros tr; unfold exit_maintenance, or_fail, wrapping, attempt, mbind, stM_bind;
          destruct (seq_Scheduler s); cbn; by rewrite ?try_well, ?app_nil_r).
    rewrite Hwhen. unfold start_plan. rewrite !map_app, <-!app_assoc. done. }
  split; [done|]. rewrite map_map. cbn. by rewrite map_id.
Qed.

(** ** Concrete runs *)

Definition demo_seq : ArraySequence :=
  mkSeq true true ["smbd"; "nfsd"] ["/mnt/media"] (Some "/mnt/pool") ["/mnt/disk1"; "/mnt/parity1"]
    true true true true.
Definition host_stopped : host := mkHost ∅ false false ∅ true.
Definition host_live : host :=
  mkHost {["smbd"; "nfsd"]} true true {["/mnt/media"; "/mnt/pool"; "/mnt/disk1"; "/mnt/parity1"]} false.
(** Samba refuses to start; NFS, started before it, is stopped again. *)
Definition samba_fails : environment event answer := λ _ e,
  match e with
  | EServiceStart _ "smbd" => mkAnswer (Some (EOther "exit status 1")) false
  | _ => mkAnswer None true
  end.

Lemma unmounts_are_quiet_witness :
  unmounts_quietly host_live (snd (stop all_well demo_seq true [])) ∧
  unmounts_quietly host_stopped (snd (Start samba_fails demo_seq [])).
Proof.
  split.
  - apply (proj1 (unmounts_are_quiet all_well demo_seq host_live)). split; [cbn; set_solver|done].
  - apply (proj2 (unmounts_are_quiet samba_fails demo_seq host_stopped)). done.
Defined.


(** ** The disks of a start whose disk check fails

    are unmounted on the caller's context: when that is cancelled, as by a
    client that disconnects, they stay mounted, although [Start]'s comment says
    they are unmounted again. *)
Definition client_gone : environment event answer := λ _ e,
  match e with
  | EConfirmArrayDisks CallerCtx | EUnmount CallerCtx _ => mkAnswer (Some (ESentinel S_ContextCanceled)) false
  | _ => mkAnswer None true
  end.

Lemma mismatched_disks_stay_mounted :
  let (r, tr) := Start client_gone demo_seq [] in
  is_ok r = false ∧ "/mnt/disk1" ∈ h_mounted (host_after host_stopped tr).
Proof.
  destruct (Start client_gone demo_seq []) as [r tr] eqn:E.
  assert (is_ok r = false) as Hr by (apply (f_equal (λ p, is_ok (fst p))) in E; vm_compute in E; done).
  split; [exact Hr|].
  apply (f_equal (λ p, bool_decide ("/mnt/disk1" ∈ h_mounted (host_after host_stopped (snd p))))) in E.
  cbn [snd] in E. vm_compute in E. symmetry in E. by apply bool_decide_eq_true in E.
Qed.
