(* ===== verification/ArrayGates.v ===== *)
(** * The checks a start makes on storage

    [ArrayDiskUUIDCheck] and [PendingUpgradeGate] of [internal/job/array.go].
    What the mount table and the symbolic links of the host say is an
    interface, [MountTable]; its [MountedSource] is optional, as in the code. *)
From S2P Require Export Sched.
Open Scope string_scope.
Open Scope list_scope.

Class MountTable := {
  IsMounted : string → res err bool;
  MountedUUID : string → res err string;
  MountedSource : option (string → res err string);
  EvalSymlinks : string → res err string
}.

(** The fields of [disk.MountUnit] the check reads. *)
Record MountUnit := mkUnit { u_Where : string; u_UUID : string; u_What : string }.

Section disks.
Context `{MountTable}.

Definition sameDevice (src what : string) : bool :=
  match EvalSymlinks src, EvalSymlinks what with
  | Ok a, Ok b => bool_decide (a = b)
  | _, _ => false
  end.

(** One turn of the loop: nothing, what is wrong with the disk, or an error. *)
Definition confirm_disk (u : MountUnit) : res err (option string) :=
  match IsMounted (u_Where u) with
  | Err e => Err (wrap ("job: checking whether " +:+ u_Where u +:+ " is mounted: ") e)
  | Ok false => Ok None
  | Ok true =>
      match MountedUUID (u_Where u) with
      | Err e => Err (wrap ("job: reading the filesystem mounted at " +:+ u_Where u +:+ ": ") e)
      | Ok got =>
          if negb (bool_decide (got = u_UUID u)) then
            Ok (Some (u_Where u +:+ " holds " +:+ got +:+ ", SQLite names " +:+ u_UUID u))
          else if bool_decide (u_What u = "") then Ok None
          else
            match MountedSource with
            | None => Err (EOther ("job: cannot confirm which device is mounted at " +:+ u_Where u +:+
                        ": the mount table reader cannot report a mount's source"))
            | Some source =>
                match source (u_Where u) with
                | Err e => Err (wrap ("job: reading the device mounted at " +:+ u_Where u +:+ ": ") e)
                | Ok src =>
                    if sameDevice src (u_What u) then Ok None
                    else Ok (Some (u_Where u +:+ " is mounted from " +:+ src +:+ ", SQLite names " +:+ u_What u))
                end
            end
      end
  end.

Fixpoint confirm_loop (us : list MountUnit) (bad : list string) : res err (list string) :=
  match us with
  | [] => Ok bad
  | u :: us' =>
      match confirm_disk u with
      | Err e => Err e
      | Ok None => confirm_loop us' bad
      | Ok (Some b) => confirm_loop us' (bad ++ [b])
      end
  end.

Definition ConfirmArrayDisks (us : list MountUnit) : res err unit :=
  match confirm_loop us [] with
  | Err e => Err e
  | Ok [] => Ok tt
  | Ok bad => Err (EWrap "" (ESentinel S_ArrayDiskMismatch) (": " +:+ join_with "; " bad))
  end.

(** The disk is not mounted, or it is the one SQLite names. *)
Definition confirmed (u : MountUnit) : Prop :=
  IsMounted (u_Where u) = Ok false ∨
  (IsMounted (u_Where u) = Ok true ∧ MountedUUID (u_Where u) = Ok (u_UUID u) ∧
   (u_What u = "" ∨
    ∃ source src node, MountedSource = Some source ∧ source (u_Where u) = Ok src ∧
      EvalSymlinks src = Ok node ∧ EvalSymlinks (u_What u) = Ok node)).
End disks.

Section gate.
Context `{Env}.

(** [gate] is what the readiness gate it wraps reports. *)
Definition PendingUpgradeGate_Ready (gate : bool) : M bool :=
  r ← attempt PendingDiskUpgradeData;
  match r with
  | Err _ | Ok (Some _) => mret false
  | Ok None => mret gate
  end.
End gate.

(** ** Properties *)
Section disks_laws.
Context `{MountTable}.

Lemma confirm_disk_spec u : confirm_disk u = Ok None ↔ confirmed u.
Proof.
  unfold confirm_disk, confirmed, sameDevice.
  destruct (IsMounted (u_Where u)) as [[]|]; [|by split; [left|]|by split; [|intros [?|(?&?&?)]]].
  destruct (MountedUUID (u_Where u)) as [got|]; [|by split; [|intros [?|(?&?&?)]]].
  case_bool_decide as Hu; cbn; [|split; [done|]; intros [?|(?&?&?)]; congruence].
  case_bool_decide as Hw; [subst; split; [by auto 7|done]|].
  destruct MountedSource as [source|];
    [|split; [done|]; intros [?|(?&?&[?|(?&?&?&?&?&?&?)])]; congruence].
  destruct (source (u_Where u)) as [src|] eqn:Hsrc;
    [|split; [done|]; intros [?|(?&?&[?|(?&?&?&?&?&?&?)])]; congruence].
  split.
  - destruct (EvalSymlinks src) as [a|] eqn:Ha, (EvalSymlinks (u_What u)) as [b|] eqn:Hb; try done.
    case_bool_decide; [|done]. intros _. subst. right. split_and!; [done..|]. right. by exists source, src, b.
  - intros [?|(_&_&[?|(source'&src'&node&Hs&Hr&Ha&Hb)])]; [done..|]. simplify_eq.
    rewrite Hr in Hsrc. injection Hsrc as ->. rewrite Ha, Hb. by rewrite bool_decide_true.
Qed.

Lemma confirm_loop_spec us bad :
  match confirm_loop us bad with
  | Ok l => ∃ more, l = bad ++ more ∧
      ((more = [] ∧ ∀ u, u ∈ us → confirmed u) ∨ (more ≠ [] ∧ ∃ u, u ∈ us ∧ ¬ confirmed u))
  | Err e => ∃ u, u ∈ us ∧ confirm_disk u = Err e
  end.
Proof.
  revert bad. induction us as [|u us IH]; intros bad; cbn.
  { exists []. rewrite app_nil_r. split; [done|]. left. split; [done|]. by intros u ?%elem_of_nil. }
  pose proof (confirm_disk_spec u) as Hs.
  assert (∀ e, (∃ u0, u0 ∈ us ∧ confirm_disk u0 = Err e) → ∃ u0, u0 ∈ u :: us ∧ confirm_disk u0 = Err e) as Hup
    by (intros e (u0&?&?); exists u0; split; [by right|done]).
  destruct (confirm_disk u) as [[b|]|e] eqn:E; [| |exists u; split; [by left|done]].
  - specialize (IH (bad ++ [b])). destruct (confirm_loop us _) as [l|e]; [|by apply Hup].
    destruct IH as (more&->&_). exists (b :: more). rewrite <-app_assoc. split; [done|]. right.
    split; [done|]. exists u. split; [by left|]. by intros ?%Hs.
  - specialize (IH bad). destruct (confirm_loop us bad) as [l|e]; [|by apply Hup].
    destruct IH as (more&->&Hm). exists more. split; [done|]. apply proj1 in Hs. specialize (Hs eq_refl).
    destruct Hm as [[-> Hm]|[Hm (u'&?&?)]]; [left|right]; split; try done.
    + intros u0 [->|?]%elem_of_cons; auto.
    + exists u'. split; [by right|done].
Qed.

(** The array may start only if every mounted array disk is the one SQLite
    names: the check passes exactly then. What it returns otherwise is a
    mismatch error, or the error of a disk that could not be checked. *)
Theorem disks_confirmed us :
  match ConfirmArrayDisks us with
  | Ok _ => ∀ u, u ∈ us → confirmed u
  | Err e => (∃ u, u ∈ us ∧ ¬ confirmed u) ∧
      (err_is e S_ArrayDiskMismatch = true ∨ ∃ u, u ∈ us ∧ confirm_disk u = Err e)
  end.
Proof.
  unfold ConfirmArrayDisks. pose proof (confirm_loop_spec us []) as Hl.
  destruct (confirm_loop us []) as [l|e0] eqn:E.
  - destruct Hl as (more&->&[[-> Hm]|[Hm Hu]]); cbn; [done|].
    destruct more; [done|]. split; [done|by left].
  - destruct Hl as (u&Hu&He). split; [|by eauto]. exists u. split; [done|].
    intros Hc%confirm_disk_spec. congruence.
Qed.
End disks_laws.
