(* ===== verification/ParityLog.v ===== *)
(** * SnapRAID's structured logs

    The parsers of [internal/parity]: [logtags.go], [diff_parse.go],
    [status_parse.go], [list_parse.go] and [run_parse.go], which read the
    ["tag:field:..."] lines of a [snapraid -l] log. A log is a string. *)
From stdpp Require Import pretty.
From S2P Require Export GoString.
Open Scope string_scope.
Open Scope list_scope.
Open Scope Z_scope.

(** ** Lines and fields *)
Definition newline : Ascii.ascii := Ascii.ascii_of_nat 10.
Definition colon : Ascii.ascii := ":"%char.

(** [nil] for an empty text. *)
Definition splitLogLines (data : string) : list string :=
  let text := trim_right newline data in
  if bool_decide (text = "") then [] else split newline text.

Definition cutTag (line : string) : option (string * string) := cut colon line.

Definition atoiField (fs : list string) (idx : nat) : option Z :=
  match fs !! idx with Some f => Atoi f | None => None end.

(** [m[k]++] on a map of counters, with the absent key counting zero. *)
Definition incr (k : string) (m : gmap string Z) : gmap string Z := <[k := default 0 (m !! k) + 1]> m.

(** ** [snapraid diff] *)
Record DiffLog := mkDiffLog {
  dl_DataMounts : gmap string string;
  dl_Equal : Z; dl_Added : Z; dl_Removed : Z; dl_Updated : Z; dl_Moved : Z; dl_Copied : Z; dl_Restored : Z;
  dl_diskAdd : gmap string Z;
  dl_diskRemove : gmap string Z;
  dl_diskCopyIn : gmap string Z;
  dl_removed : list (string * string);
  dl_added : list (string * string);
  dl_copiedIn : list (string * string)
}.

Definition empty_diff : DiffLog := mkDiffLog ∅ 0 0 0 0 0 0 0 ∅ ∅ ∅ [] [] [].

Definition set_mount (id path : string) (d : DiffLog) : DiffLog :=
  mkDiffLog (<[id := path]> (dl_DataMounts d)) (dl_Equal d) (dl_Added d) (dl_Removed d) (dl_Updated d)
    (dl_Moved d) (dl_Copied d) (dl_Restored d) (dl_diskAdd d) (dl_diskRemove d) (dl_diskCopyIn d)
    (dl_removed d) (dl_added d) (dl_copiedIn d).

Definition set_total (key : string) (n : Z) (d : DiffLog) : DiffLog :=
  let pick k old := if bool_decide (key = k) then n else old in
  mkDiffLog (dl_DataMounts d) (pick "equal" (dl_Equal d)) (pick "added" (dl_Added d))
    (pick "removed" (dl_Removed d)) (pick "updated" (dl_Updated d)) (pick "moved" (dl_Moved d))
    (pick "copied" (dl_Copied d)) (pick "restored" (dl_Restored d))
    (dl_diskAdd d) (dl_diskRemove d) (dl_diskCopyIn d) (dl_removed d) (dl_added d) (dl_copiedIn d).

Inductive scanKind := ScanAdd | ScanRemove | ScanCopyIn.

Definition tally (k : scanKind) (disk path : string) (d : DiffLog) : DiffLog :=
  let bump k' m := match k, k' with
    | ScanAdd, ScanAdd | ScanRemove, ScanRemove | ScanCopyIn, ScanCopyIn => incr disk m
    | _, _ => m end in
  let keep k' l := match k, k' with
    | ScanAdd, ScanAdd | ScanRemove, ScanRemove | ScanCopyIn, ScanCopyIn => l ++ [(disk, path)]
    | _, _ => l end in
  mkDiffLog (dl_DataMounts d) (dl_Equal d) (dl_Added d) (dl_Removed d) (dl_Updated d)
    (dl_Moved d) (dl_Copied d) (dl_Restored d)
    (bump ScanAdd (dl_diskAdd d)) (bump ScanRemove (dl_diskRemove d)) (bump ScanCopyIn (dl_diskCopyIn d))
    (keep ScanRemove (dl_removed d)) (keep ScanAdd (dl_added d)) (keep ScanCopyIn (dl_copiedIn d)).

Definition parseDiffSummaryField (d : DiffLog) (rest : string) : DiffLog :=
  let fs := split colon rest in
  if negb (length fs =? 2)%nat then d
  else match atoiField fs 1, fs with
       | Some n, key :: _ => set_total key n d
       | _, _ => d
       end.

Definition parseScanLine (d : DiffLog) (rest : string) : DiffLog :=
  match cut colon rest with
  | None => d
  | Some (action, tail) =>
      if bool_decide (action = "add") then
        match cut colon tail with Some (disk, path) => tally ScanAdd disk path d | None => d end
      else if bool_decide (action = "remove") then
        match cut colon tail with Some (disk, path) => tally ScanRemove disk path d | None => d end
      else if bool_decide (action = "copy") then
        match splitN colon 4 tail with
        | [_; _; disk; path] => tally ScanCopyIn disk path d
        | _ => d
        end
      else d
  end.

(** The loop over the lines: the report so far and whether a summary was seen. *)
Definition diff_line (acc : DiffLog * bool) (line : string) : DiffLog * bool :=
  let (d, sawSummary) := acc in
  match cutTag line with
  | None => acc
  | Some (tag, rest) =>
      if bool_decide (tag = "data") then
        match cut colon rest with Some (id, path) => (set_mount id path d, sawSummary) | None => acc end
      else if bool_decide (tag = "scan") then (parseScanLine d rest, sawSummary)
      else if bool_decide (tag = "summary") then (parseDiffSummaryField d rest, true)
      else acc
  end.

Definition empty_log (s : sentinel) : err := EWrap "" (ESentinel s) ": empty log".
Definition no_summary (s : sentinel) : err := EWrap "" (ESentinel s) ": no summary section found".

Definition ParseDiff (log : string) : res err DiffLog :=
  match splitLogLines log with
  | [] => Err (empty_log S_DiffParse)
  | lines =>
      match foldl diff_line (empty_diff, false) lines with
      | (d, true) => Ok d
      | (_, false) => Err (no_summary S_DiffParse)
      end
  end.

(** ** [snapraid status] *)
(** A time read with [time.Unix] is kept as the seconds Go keeps, since year 1;
    the zero time is 0. *)
Definition unixToInternal : Z := 62135596800.

Record StatusReport := mkStatus {
  sr_DataMounts : gmap string string;
  sr_PerDiskFileCount : gmap string Z;
  sr_TrackedLinks : Z;
  sr_PerDiskLinkCount : gmap string Z;
  sr_ZeroSubsecondFiles : Z;
  sr_ChangedSinceSync : Z;
  sr_Unscrubbed : Z;
  sr_BadBlocks : Z;
  sr_ParityDisks : Z;
  sr_LastActivityAt : Z
}.

Definition empty_status : StatusReport := mkStatus ∅ ∅ 0 ∅ 0 0 0 0 0 0.

Definition loadedLinkCount (rest : string) : Z :=
  match cut colon rest with
  | None => 0
  | Some (level, text) =>
      if negb (bool_decide (level = "verbose")) then 0
      else match fields text with
           | [count; kind] =>
               if bool_decide (kind = "hardlinks") || bool_decide (kind = "symlinks") then
                 match Atoi count with
                 | Some n => if n <? 0 then 0 else n
                 | None => 0
                 end
               else 0
           | _ => 0
           end
  end.

Definition status_set (r : StatusReport) (mounts : gmap string string) (counts : gmap string Z)
    (links zero changed unscrubbed bad activity : Z) : StatusReport :=
  mkStatus mounts counts links (sr_PerDiskLinkCount r) zero changed unscrubbed bad (sr_ParityDisks r) activity.

Definition parseStatusSummaryField (r : StatusReport) (rest : string) : StatusReport :=
  let fs := split colon rest in
  match fs with
  | key :: id :: _ =>
      let number := atoiField fs 1 in
      let pick k old := if bool_decide (key = k) then default old number else old in
      status_set r (sr_DataMounts r)
        (if bool_decide (key = "disk_file_count") && (length fs =? 3)%nat then
           match atoiField fs 2 with
           | Some n => <[id := n]> (sr_PerDiskFileCount r)
           | None => sr_PerDiskFileCount r
           end
         else sr_PerDiskFileCount r)
        (sr_TrackedLinks r) (pick "zerosubsecond_file_count" (sr_ZeroSubsecondFiles r))
        (pick "has_unsynced" (sr_ChangedSinceSync r)) (pick "has_unscrubbed" (sr_Unscrubbed r))
        (pick "has_bad" (sr_BadBlocks r)) (sr_LastActivityAt r)
  | _ => r
  end.

Definition status_line (acc : StatusReport * bool * bool) (line : string) : StatusReport * bool * bool :=
  let '(r, sawSummary, dualParity) := acc in
  let same mounts links activity :=
    status_set r mounts (sr_PerDiskFileCount r) links (sr_ZeroSubsecondFiles r) (sr_ChangedSinceSync r)
      (sr_Unscrubbed r) (sr_BadBlocks r) activity in
  match cutTag line with
  | None => acc
  | Some (tag, rest) =>
      if bool_decide (tag = "data") then
        match cut colon rest with
        | Some (id, path) =>
            (same (<[id := path]> (sr_DataMounts r)) (sr_TrackedLinks r) (sr_LastActivityAt r), sawSummary, dualParity)
        | None => acc
        end
      else if bool_decide (tag = "2-parity") then (r, sawSummary, true)
      else if bool_decide (tag = "info_time") then
        match atoiField (split colon rest) 0 with
        | Some unix =>
            let t := wrap64 (unix + unixToInternal) in
            (same (sr_DataMounts r) (sr_TrackedLinks r)
               (if sr_LastActivityAt r <? t then t else sr_LastActivityAt r), sawSummary, dualParity)
        | None => acc
        end
      else if bool_decide (tag = "msg") then
        (same (sr_DataMounts r) (wrap64 (sr_TrackedLinks r + loadedLinkCount rest)) (sr_LastActivityAt r),
         sawSummary, dualParity)
      else if bool_decide (tag = "summary") then (parseStatusSummaryField r rest, true, dualParity)
      else acc
  end.

Definition with_parity_disks (n : Z) (r : StatusReport) : StatusReport :=
  mkStatus (sr_DataMounts r) (sr_PerDiskFileCount r) (sr_TrackedLinks r) (sr_PerDiskLinkCount r)
    (sr_ZeroSubsecondFiles r) (sr_ChangedSinceSync r) (sr_Unscrubbed r) (sr_BadBlocks r) n (sr_LastActivityAt r).
Definition with_link_count (links : gmap string Z) (r : StatusReport) : StatusReport :=
  mkStatus (sr_DataMounts r) (sr_PerDiskFileCount r) (sr_TrackedLinks r) links
    (sr_ZeroSubsecondFiles r) (sr_ChangedSinceSync r) (sr_Unscrubbed r) (sr_BadBlocks r) (sr_ParityDisks r)
    (sr_LastActivityAt r).

Definition ParseStatus (log : string) : res err StatusReport :=
  match splitLogLines log with
  | [] => Err (empty_log S_StatusParse)
  | lines =>
      match foldl status_line (empty_status, false, false) lines with
      | (r, true, dualParity) => Ok (with_parity_disks (if dualParity : bool then 2 else 1) r)
      | (_, false, _) => Err (no_summary S_StatusParse)
      end
  end.

Inductive FreshnessLevel := FreshnessGreen | FreshnessAmber | FreshnessRed.

Definition freshness (r : StatusReport) : FreshnessLevel :=
  if 0 <? sr_BadBlocks r then FreshnessRed
  else if 0 <? sr_ChangedSinceSync r then FreshnessAmber
  else FreshnessGreen.

(** ** [snapraid list] *)
Record ListFile := mkListFile { lf_Disk : string; lf_RelPath : string; lf_Size : Z }.
Record ListReport := mkList {
  lr_DataMounts : gmap string string;
  lr_Files : list ListFile;
  lr_LinkCount : gmap string Z;
  lr_Links : list (string * string)
}.

Definition parseListFileLine (rest : string) : option ListFile :=
  let fs := split colon rest in
  if (length fs <? 6)%nat then None
  else
    let sizeIdx := (length fs - 4)%nat in
    let disk := default "" (fs !! 0%nat) in
    let path := join_with ":" (take (sizeIdx - 1) (drop 1 fs)) in
    if bool_decide (disk = "") || bool_decide (path = "") then None
    else match atoiField fs sizeIdx with
         | Some size => if size <? 0 then None else Some (mkListFile disk path size)
         | None => None
         end.

(** The loop over the lines: the report, whether a summary was seen and the
    count of links it states. *)
Definition list_line (acc : ListReport * bool * Z) (line : string) : res err (ListReport * bool * Z) :=
  let '(r, sawSummary, summaryLinks) := acc in
  match cutTag line with
  | None => Ok acc
  | Some (tag, rest) =>
      if bool_decide (tag = "data") then
        match cut colon rest with
        | Some (id, path) =>
            Ok (mkList (<[id := path]> (lr_DataMounts r)) (lr_Files r) (lr_LinkCount r) (lr_Links r),
                sawSummary, summaryLinks)
        | None => Ok acc
        end
      else if bool_decide (tag = "file") then
        match parseListFileLine rest with
        | None => Err (EWrap "" (ESentinel S_ListParse) (": malformed file record: " +:+ quoted line))
        | Some f => Ok (mkList (lr_DataMounts r) (lr_Files r ++ [f]) (lr_LinkCount r) (lr_Links r),
                        sawSummary, summaryLinks)
        end
      else if bool_decide (tag = "link_symlink") || bool_decide (tag = "link_hardlink") then
        let fs := split colon rest in
        let disk := default "" (fs !! 0%nat) in
        if (length fs <? 2)%nat || bool_decide (disk = "") then
          Err (EWrap "" (ESentinel S_ListParse) (": malformed link record: " +:+ quoted line))
        else
          Ok (mkList (lr_DataMounts r) (lr_Files r) (incr disk (lr_LinkCount r))
                (match fs with
                 | [_; path; _] => if bool_decide (path = "") then lr_Links r else lr_Links r ++ [(disk, path)]
                 | _ => lr_Links r
                 end), sawSummary, summaryLinks)
      else if bool_decide (tag = "summary") then
        Ok (r, true, match cut_prefix "link_count:" rest with
                     | Some n => default summaryLinks (Atoi n)
                     | None => summaryLinks
                     end)
      else Ok acc
  end.

Fixpoint list_lines (acc : ListReport * bool * Z) (lines : list string) : res err (ListReport * bool * Z) :=
  match lines with
  | [] => Ok acc
  | line :: lines' =>
      match list_line acc line with
      | Ok acc' => list_lines acc' lines'
      | Err e => Err e
      end
  end.

Definition total_links (m : gmap string Z) : Z := foldr Z.add 0 (snd <$> map_to_list m).

Definition ParseList (log : string) : res err ListReport :=
  match splitLogLines log with
  | [] => Err (empty_log S_ListParse)
  | lines =>
      match list_lines (mkList ∅ [] ∅ [], false, -1) lines with
      | Err e => Err e
      | Ok (_, false, _) => Err (no_summary S_ListParse)
      | Ok (r, true, summaryLinks) =>
          if (0 <=? summaryLinks) && negb (total_links (lr_LinkCount r) =? summaryLinks)
          then Err (EWrap "" (ESentinel S_ListParse) (": " +:+ pretty (total_links (lr_LinkCount r)) +:+
                 " link records but summary:link_count:" +:+ pretty summaryLinks))
          else Ok r
      end
  end.

(** ** A sync, scrub, fix or check run *)
Record RunSummary := mkRun {
  rs_Exit : string;
  rs_FileErrors : Z; rs_IOErrors : Z; rs_DataErrors : Z;
  rs_Errors : Z; rs_Recovered : Z; rs_Unrecoverable : Z;
  rs_DataMounts : gmap string string;
  rs_RecoveredFiles : list string;
  rs_UnrecoveredFiles : list string
}.

Definition empty_run : RunSummary := mkRun "" 0 0 0 0 0 0 ∅ [] [].

Definition parseRunSummaryField (s : RunSummary) (rest : string) : RunSummary :=
  let fs := split colon rest in
  match fs with
  | key :: first :: _ =>
      if bool_decide (key = "exit") then
        mkRun first (rs_FileErrors s) (rs_IOErrors s) (rs_DataErrors s) (rs_Errors s) (rs_Recovered s)
          (rs_Unrecoverable s) (rs_DataMounts s) (rs_RecoveredFiles s) (rs_UnrecoveredFiles s)
      else
        let pick k old := if bool_decide (key = k) then default old (atoiField fs 1) else old in
        mkRun (rs_Exit s) (pick "error_file" (rs_FileErrors s)) (pick "error_io" (rs_IOErrors s))
          (pick "error_data" (rs_DataErrors s)) (pick "error" (rs_Errors s))
          (pick "error_recovered" (rs_Recovered s)) (pick "error_unrecoverable" (rs_Unrecoverable s))
          (rs_DataMounts s) (rs_RecoveredFiles s) (rs_UnrecoveredFiles s)
  | _ => s
  end.

Definition run_files (s : RunSummary) (mounts : gmap string string) (recovered unrecovered : list string) :
    RunSummary :=
  mkRun (rs_Exit s) (rs_FileErrors s) (rs_IOErrors s) (rs_DataErrors s) (rs_Errors s) (rs_Recovered s)
    (rs_Unrecoverable s) mounts recovered unrecovered.

Definition run_line (acc : RunSummary * bool) (line : string) : RunSummary * bool :=
  let (s, sawSummary) := acc in
  match cutTag line with
  | None => acc
  | Some (tag, rest) =>
      if bool_decide (tag = "data") then
        match cut colon rest with
        | Some (id, path) =>
            (run_files s (<[id := path]> (rs_DataMounts s)) (rs_RecoveredFiles s) (rs_UnrecoveredFiles s), sawSummary)
        | None => acc
        end
      else if bool_decide (tag = "summary") then (parseRunSummaryField s rest, true)
      else if bool_decide (tag = "status") then
        match cut colon rest with
        | Some (kind, tail) =>
            if bool_decide (kind = "recovered") then
              (run_files s (rs_DataMounts s) (rs_RecoveredFiles s ++ [tail]) (rs_UnrecoveredFiles s), sawSummary)
            else if bool_decide (kind = "unrecoverable") then
              (run_files s (rs_DataMounts s) (rs_RecoveredFiles s) (rs_UnrecoveredFiles s ++ [tail]), sawSummary)
            else acc
        | None => acc
        end
      else acc
  end.

Definition ParseRunSummary (log : string) : res err RunSummary :=
  match splitLogLines log with
  | [] => Err (empty_log S_RunParse)
  | lines =>
      match foldl run_line (empty_run, false) lines with
      | (s, true) => Ok s
      | (_, false) => Err (no_summary S_RunParse)
      end
  end.
