(* ===== verification/ParityRead.v ===== *)
(** * The log parsers read what SnapRAID writes

    A diff log written line by line is read back exactly, whatever the paths
    hold, and the tallies a parsed diff keeps always agree with its lists. *)
From stdpp Require Import pretty.
From S2P Require Export ParityLog GoNumber.
Open Scope string_scope.
Open Scope list_scope.
Open Scope Z_scope.

(** ** Splitting what was joined *)
#[local] Arguments is_char : simpl never.
#[local] Arguments isDigit : simpl never.
#[local] Arguments digit : simpl never.
#[local] Arguments String.app : simpl nomatch.

Lemma trim_right_sep c u : trim_right c (u +:+ String c "") = trim_right c u.
Proof. induction u as [|d u IH]; cbn; [by rewrite is_char_refl|]. by rewrite IH. Qed.

(** The lines of a log, each ended by a newline. *)
Fixpoint write_lines (ls : list string) : string :=
  match ls with
  | [] => ""
  | l :: ls' => l +:+ String newline (write_lines ls')
  end.

Definition line_ok (l : string) : Prop := l ≠ "" ∧ lacks newline l = true.

Fixpoint joined (l : string) (ls : list string) : string :=
  match ls with
  | [] => l
  | l' :: ls' => l +:+ String newline (joined l' ls')
  end.

Lemma joined_ne l ls : l ≠ "" → joined l ls ≠ "".
Proof. destruct ls, l; done. Qed.

Lemma trim_written ls : ∀ l, line_ok l → Forall line_ok ls →
  trim_right newline (write_lines (l :: ls)) = joined l ls.
Proof.
  induction ls as [|l' ls IH]; intros l [Hne Hl] Hls.
  - cbn. by rewrite trim_right_sep, trim_right_lacks.
  - apply Forall_cons in Hls as [Hl' Hls]. change (write_lines (l :: l' :: ls))
      with (l +:+ (String newline "" +:+ write_lines (l' :: ls))).
    assert (trim_right newline (String newline "" +:+ write_lines (l' :: ls)) = String newline (joined l' ls)) as Hv.
    { rewrite trim_right_app; rewrite IH by done; [done|]. apply joined_ne, Hl'. }
    rewrite trim_right_app; rewrite Hv; done.
Qed.

Lemma split_joined ls : ∀ l, line_ok l → Forall line_ok ls → split newline (joined l ls) = l :: ls.
Proof.
  induction ls as [|l' ls IH]; intros l [_ Hl] Hls; cbn [joined]; [by apply split_lacks|].
  apply Forall_cons in Hls as [Hl' Hls]. by rewrite split_lacks_app, IH.
Qed.

Lemma split_written ls : Forall line_ok ls → splitLogLines (write_lines ls) = ls.
Proof.
  destruct ls as [|l ls]; [done|]. intros [Hl Hls]%Forall_cons. unfold splitLogLines.
  rewrite trim_written, split_joined by done. rewrite bool_decide_false; [done|]. apply joined_ne, Hl.
Qed.

(** ** Numbers in a log line *)
Lemma digit_plain c : isDigit c = true → is_char "-" c = false ∧ is_char "+" c = false ∧
  is_char colon c = false ∧ is_char newline c = false.
Proof.
  intros Hc. split_and!; apply bool_decide_eq_false; intros ->; done.
Qed.

(** ** What [snapraid diff] writes *)
Inductive diff_entry :=
  | DMount (id path : string)
  | DAdd (disk path : string)
  | DRemove (disk path : string)
  | DCopy (src srcpath disk path : string)
  | DTotal (key : string) (n : N)
  | DOther (tag rest : string).

Definition render (e : diff_entry) : string :=
  match e with
  | DMount id path => "data:" +:+ id +:+ ":" +:+ path
  | DAdd disk path => "scan:add:" +:+ disk +:+ ":" +:+ path
  | DRemove disk path => "scan:remove:" +:+ disk +:+ ":" +:+ path
  | DCopy src srcpath disk path => "scan:copy:" +:+ src +:+ ":" +:+ srcpath +:+ ":" +:+ disk +:+ ":" +:+ path
  | DTotal key n => "summary:" +:+ key +:+ ":" +:+ pretty n
  | DOther tag rest => tag +:+ ":" +:+ rest
  end.

(** A name holds no colon, nothing holds a newline, a number is an [int]; a path
    may hold colons, but for the source path of a copy. *)
Definition name_ok (s : string) : Prop := lacks colon s = true ∧ lacks newline s = true.
Definition entry_ok (e : diff_entry) : Prop :=
  match e with
  | DMount k p | DAdd k p | DRemove k p => name_ok k ∧ lacks newline p = true
  | DCopy k kp k' p => name_ok k ∧ name_ok kp ∧ name_ok k' ∧ lacks newline p = true
  | DTotal k n => name_ok k ∧ Z.of_N n ≤ max_int64
  | DOther t r => name_ok t ∧ lacks newline r = true ∧ t ∉ ["data"; "scan"; "summary"]
  end.

Definition put (e : diff_entry) (d : DiffLog) : DiffLog :=
  match e with
  | DMount id path => set_mount id path d
  | DAdd disk path => tally ScanAdd disk path d
  | DRemove disk path => tally ScanRemove disk path d
  | DCopy _ _ disk path => tally ScanCopyIn disk path d
  | DTotal key n => set_total key (Z.of_N n) d
  | DOther _ _ => d
  end.
Definition is_total (e : diff_entry) : bool := match e with DTotal _ _ => true | _ => false end.

Lemma colon_app s : ":" +:+ s = String colon s. Proof. done. Qed.

Lemma cut_name k p : name_ok k → cut colon (k +:+ ":" +:+ p) = Some (k, p).
Proof. intros [Hk _]. rewrite colon_app. by apply cut_lacks. Qed.

Lemma diff_line_entry e d saw : entry_ok e → diff_line (d, saw) (render e) = (put e d, saw || is_total e).
Proof.
  destruct e as [k p|k p|k p|k kp k' p|k n|t r]; cbn [entry_ok render put is_total]; rewrite ?orb_false_r, ?orb_true_r.
  - intros [Hk _]. change (diff_line (d, saw) ("data:" +:+ k +:+ ":" +:+ p))
      with (match cut colon (k +:+ ":" +:+ p) with Some (id, path) => (set_mount id path d, saw) | None => (d, saw) end).
    by rewrite cut_name.
  - intros [Hk _]. change (diff_line (d, saw) ("scan:add:" +:+ k +:+ ":" +:+ p)) with (match cut colon (k +:+ ":" +:+ p) with Some (disk, path) => tally ScanAdd disk path d | None => d end, saw).
    by rewrite cut_name.
  - intros [Hk _]. change (diff_line (d, saw) ("scan:remove:" +:+ k +:+ ":" +:+ p)) with (match cut colon (k +:+ ":" +:+ p) with Some (disk, path) => tally ScanRemove disk path d | None => d end, saw).
    by rewrite cut_name.
  - intros (Hk&Hkp&Hk'&_).
    change (diff_line (d, saw) ("scan:copy:" +:+ ?t)) with (match splitN colon 4 t with [_; _; disk; path] => tally ScanCopyIn disk path d | _ => d end, saw).
    cbn [splitN]. by rewrite !cut_name.
  - intros [[Hk _] Hn].
    change (diff_line (d, saw) ("summary:" +:+ k +:+ ":" +:+ pretty n)) with (parseDiffSummaryField d (k +:+ ":" +:+ pretty n), true).
    unfold parseDiffSummaryField. rewrite colon_app, split_lacks_app by done.
    destruct (pretty_digits n) as [_ Hd]. rewrite split_lacks by (apply digits_lack; [|done]; apply digit_plain).
    cbn [length Nat.eqb negb]. unfold atoiField. cbn [lookup list_lookup]. by rewrite Atoi_pretty.
  - intros (Ht&_&Htag). unfold diff_line, cutTag. rewrite cut_name by done.
    rewrite !elem_of_cons in Htag. by rewrite !bool_decide_false by naive_solver.
Qed.

Lemma render_line e : entry_ok e → line_ok (render e).
Proof.
  assert (∀ n : N, lacks newline (pretty n) = true) as Hn.
  { intros n. apply digits_lack; [intros d; apply digit_plain|]. apply pretty_digits. }
  unfold line_ok, name_ok. destruct e as [| | | | |t r]; cbn [entry_ok render]; intros He; split;
    try done; rewrite ?lacks_app, ?Hn; unfold name_ok in *; try (destruct t; done); destruct_and?; intuition.
  all: repeat match goal with Hx : lacks _ _ = true |- _ => rewrite Hx end; done.
Qed.

Lemma foldl_entries es d saw : Forall entry_ok es →
  foldl diff_line (d, saw) (map render es) = (foldl (flip put) d es, saw || existsb is_total es).
Proof.
  intros Hok. revert d saw. induction Hok as [|e es He _ IH]; intros d saw; cbn [map foldl existsb]; [by rewrite orb_false_r|].
  by rewrite diff_line_entry, IH, orb_assoc.
Qed.

Lemma ParseDiff_written es : Forall entry_ok es →
  ParseDiff (write_lines (map render es)) =
  match es with
  | [] => Err (empty_log S_DiffParse)
  | _ => if existsb is_total es then Ok (foldl (flip put) empty_diff es) else Err (no_summary S_DiffParse)
  end.
Proof.
  intros Hok. unfold ParseDiff. rewrite split_written.
  2:{ apply Forall_map. eapply Forall_impl; [done|]. apply render_line. }
  pose proof (foldl_entries es empty_diff false Hok) as Hf.
  destruct es as [|e es]; [done|]. cbn [map] in *. rewrite Hf. by destruct (existsb _ _).
Qed.

(** What the entries of a diff say, each on its own. *)
Definition is_file (k : scanKind) (e : diff_entry) : option (string * string) :=
  match k, e with
  | ScanAdd, DAdd disk path | ScanRemove, DRemove disk path | ScanCopyIn, DCopy _ _ disk path => Some (disk, path)
  | _, _ => None
  end.
Definition is_mount (e : diff_entry) : option (string * string) :=
  match e with DMount id path => Some (id, path) | _ => None end.
Definition total_of (key : string) (e : diff_entry) : option Z :=
  match e with DTotal k n => if bool_decide (k = key) then Some (Z.of_N n) else None | _ => None end.

Definition on_disk {A} (k : string) (l : list (string * A)) : Z := Z.of_nat (length (filter (λ p, p.1 = k) l)).

Lemma on_disk_snoc {A} k k' (a : A) l :
  on_disk k (l ++ [(k', a)]) = on_disk k l + (if bool_decide (k' = k) then 1 else 0).
Proof.
  unfold on_disk. rewrite filter_app, length_app. cbn. unfold filter, list_filter. cbn.
  case_bool_decide; case_decide; cbn; try done; lia.
Qed.

Lemma incr_lookup k k' m :
  default 0 (incr k' m !! k) = default 0 (m !! k) + (if bool_decide (k' = k) then 1 else 0).
Proof.
  unfold incr. case_bool_decide; [subst; by rewrite lookup_insert_eq|].
  rewrite lookup_insert_ne by done. lia.
Qed.

(** The tallies of a diff count its lists. *)
Record tallied (d : DiffLog) : Prop := {
  td_add : ∀ k, default 0 (dl_diskAdd d !! k) = on_disk k (dl_added d);
  td_remove : ∀ k, default 0 (dl_diskRemove d !! k) = on_disk k (dl_removed d);
  td_copy : ∀ k, default 0 (dl_diskCopyIn d !! k) = on_disk k (dl_copiedIn d)
}.

Lemma tallied_tally kind disk path d : tallied d → tallied (tally kind disk path d).
Proof.
  intros [Ha Hr Hc]. split; intros k; destruct kind; cbn; try done;
    rewrite incr_lookup, on_disk_snoc; by rewrite ?Ha, ?Hr, ?Hc.
Qed.

Lemma tallied_line d saw line : tallied d → tallied (diff_line (d, saw) line).1.
Proof.
  intros Hd. unfold diff_line, parseScanLine, parseDiffSummaryField.
  repeat (case_match; cbn; try done; try by apply tallied_tally).
  all: by destruct Hd.
Qed.

Lemma ParseDiff_tallied log d : ParseDiff log = Ok d → tallied d.
Proof.
  unfold ParseDiff. destruct (splitLogLines log) as [|l ls]; [done|]. generalize (l :: ls). clear l ls. intros ls.
  assert (∀ ls acc, tallied acc.1 → tallied (foldl diff_line acc ls).1) as Hall.
  { clear. intros ls. induction ls as [|l ls IH]; intros [d saw] Hd; [done|]. by apply IH, tallied_line. }
  specialize (Hall ls (empty_diff, false)). destruct (foldl diff_line _ ls) as [d' []]; [|done].
  intros [= <-]. by apply Hall.
Qed.

Definition last_total (key : string) (es : list diff_entry) : Z := default 0 (last (omap (total_of key) es)).

Record reads_as (es : list diff_entry) (d : DiffLog) : Prop := {
  ra_added : dl_added d = omap (is_file ScanAdd) es;
  ra_removed : dl_removed d = omap (is_file ScanRemove) es;
  ra_copied : dl_copiedIn d = omap (is_file ScanCopyIn) es;
  ra_mounts : dl_DataMounts d = list_to_map (reverse (omap is_mount es));
  ra_totals : [dl_Equal d; dl_Added d; dl_Removed d; dl_Updated d; dl_Moved d; dl_Copied d; dl_Restored d] =
    map (λ key, last_total key es) ["equal"; "added"; "removed"; "updated"; "moved"; "copied"; "restored"];
  ra_tallied : tallied d
}.

Lemma last_total_snoc key es e :
  last_total key (es ++ [e]) = default (last_total key es) (total_of key e).
Proof.
  unfold last_total. rewrite omap_app. destruct (total_of key e) eqn:E; cbn; rewrite E.
  - by rewrite last_snoc.
  - by rewrite app_nil_r.
Qed.

Lemma reads_put es d e : reads_as es d → reads_as (es ++ [e]) (put e d).
Proof.
  intros [Ha Hr Hc Hm Ht Htl].
  assert (tallied (put e d)) as Htl'.
  { destruct e; cbn; try done; try (by apply tallied_tally); by destruct Htl. }
  split; [..|clear Htl'|done].
  1-4: rewrite omap_app, ?reverse_app; destruct e; cbn; rewrite ?app_nil_r; by rewrite <-?Ha, <-?Hr, <-?Hc, <-?Hm.
  cbn [map] in *. injection Ht as H1 H2 H3 H4 H5 H6 H7. rewrite !last_total_snoc.
  destruct e; cbn [put total_of]; try (cbn; congruence).
  cbn. rewrite <-H1, <-H2, <-H3, <-H4, <-H5, <-H6, <-H7. by repeat case_bool_decide.
Qed.


Definition sample_diff : list diff_entry :=
  [DOther "version" "12.4"; DMount "d1" "/mnt/disk1"; DMount "d2" "/mnt/disk2";
   DAdd "d1" "a:b"; DRemove "d2" "old"; DCopy "d1" "x" "d2" "y:z"; DTotal "equal" 40; DTotal "removed" 1; DTotal "copied" 1].
