(* ===== verification/Guard.v ===== *)
(** * The threshold guard

    [internal/parity/guard.go], with the diff report it decides on
    ([engine.go], and its construction in [diff_parse.go]). Percentages are
    binary64 floats. *)
From Stdlib Require Export SpecFloat.
From S2P Require Export ParityLog Calls.
Open Scope string_scope.
Open Scope list_scope.
Open Scope Z_scope.

(** ** float64 *)
Definition b64 (z : Z) : spec_float := binary_normalize 53 1024 z 0 false.
Definition b64_mul (x y : spec_float) : spec_float := SFmul 53 1024 x y.
Definition b64_div (x y : spec_float) : spec_float := SFdiv 53 1024 x y.
(** [x > y] *)
Definition b64_gt (x y : spec_float) : bool := SFltb y x.

(** ** The diff report

    The time of a manifest entry is in nanoseconds. *)
Record ManifestEntry := mkEntry {
  me_RelPath : string;
  me_Size : Z;
  me_MTime : Z;
  me_SourceDisk : string;
  me_TargetDisk : string;
  me_TargetConfirmed : bool
}.
Record DiskDiff := mkDiskDiff { dd_FilesBefore : Z; dd_FilesAfter : Z; dd_LinksBefore : Z }.

(** A file on a disk: the fields of [DiffFile], and [fileKey]. *)
Abbreviation fileKey := (string * string)%type.

Record DiffReport := mkReport {
  dr_Added : Z; dr_Removed : Z; dr_Updated : Z; dr_Moved : Z; dr_Copied : Z;
  dr_MovedByHoserva : Z;
  dr_PerDisk : gmap string DiskDiff;
  dr_RemovedFiles : list fileKey;
  dr_AddedFiles : list fileKey
}.

Definition projectDiffFiles (mounts : gmap string string) (files : list (string * string)) : list fileKey :=
  omap (λ f : string * string, (λ mount, (Clean mount, f.2)) <$> mounts !! f.1) files.

Section report.
Context `{RangeOrder}.

Definition RegularFilesBefore (r : DiffReport) : Z :=
  foldl (λ n p, wrap64 (n + wrap64 (dd_FilesBefore p.2 - dd_LinksBefore p.2))) 0 (range (dr_PerDisk r)).

Definition disk_diff (before : StatusReport) (d : DiffLog) (id : string) : DiskDiff :=
  let count m := default 0 (m !! id) in
  let links := count (sr_PerDiskLinkCount before) in
  let b := wrap64 (count (sr_PerDiskFileCount before) + links) in
  mkDiskDiff b (wrap64 (b + count (dl_diskAdd d) + count (dl_diskCopyIn d) - count (dl_diskRemove d))) links.

Definition BuildDiffReport (before : StatusReport) (d : DiffLog) : DiffReport :=
  mkReport (dl_Added d) (dl_Removed d) (dl_Updated d) (dl_Moved d) (dl_Copied d) 0
    (foldl (λ m p, <[Clean p.2 := disk_diff before d p.1]> m) ∅ (range (dl_DataMounts d)))
    (projectDiffFiles (dl_DataMounts d) (dl_removed d))
    (projectDiffFiles (dl_DataMounts d) (dl_added d) ++ projectDiffFiles (dl_DataMounts d) (dl_copiedIn d)).

(** ** The guard *)
Definition DefaultRemovedFilesMax : Z := 500.
Definition DefaultRemovedUpdatedPercent : spec_float := b64 10.

Record GuardConfig := mkConfig { gc_RemovedFilesMax : Z; gc_RemovedUpdatedPercent : spec_float }.

Definition removedFilesMax (c : GuardConfig) : Z :=
  if 0 <? gc_RemovedFilesMax c then gc_RemovedFilesMax c else DefaultRemovedFilesMax.
Definition removedUpdatedPercent (c : GuardConfig) : spec_float :=
  if b64_gt (gc_RemovedUpdatedPercent c) (b64 0) then gc_RemovedUpdatedPercent c
  else DefaultRemovedUpdatedPercent.

Inductive GuardTrigger := TriggerRemovedCount | TriggerRemovedUpdatedPercent | TriggerZeroFiles.

Record ZeroFilesDisk := mkZero { zf_Disk : string; zf_FilesBefore : Z }.

Record GuardResult := mkResult {
  gr_Blocked : bool;
  gr_Triggers : list GuardTrigger;
  gr_RemovedCount : Z;
  gr_RemovedUpdatedPercent : spec_float;
  gr_ZeroFilesDisks : list ZeroFilesDisk;
  gr_AccountedRemovals : list ManifestEntry;
  gr_Diff : DiffReport
}.

Definition leavesDiskEmpty (dd : DiskDiff) : bool := (0 <? dd_FilesBefore dd) && (dd_FilesAfter dd <=? 0).

Definition anyDiskEmptied (diff : DiffReport) : bool :=
  existsb (λ p, leavesDiskEmpty p.2) (range (dr_PerDisk diff)).

Definition diffFileKeySets (diff : DiffReport) : gset fileKey * gset fileKey :=
  (list_to_set (dr_RemovedFiles diff), list_to_set (dr_AddedFiles diff)).

(** Whether SnapRAID tracks the entry's target, as far as the diff can tell. *)
Definition target_tracked (diff : DiffReport) (m : ManifestEntry) : bool :=
  bool_decide (dr_PerDisk diff = ∅) || bool_decide (is_Some (dr_PerDisk diff !! Clean (me_TargetDisk m))).

Definition source_key (m : ManifestEntry) : fileKey := (me_SourceDisk m, me_RelPath m).
Definition target_key (m : ManifestEntry) : fileKey := (me_TargetDisk m, me_RelPath m).

(** Whether the loop passes the entry by. *)
Definition match_skips (diff : DiffReport) (matched : gset fileKey) (m : ManifestEntry) : bool :=
  let (removed, added) := diffFileKeySets diff in
  bool_decide (source_key m ∈ matched) || negb (bool_decide (source_key m ∈ removed)) ||
  (target_tracked diff m && negb (bool_decide (target_key m ∈ added)) && negb (me_TargetConfirmed m)).

Fixpoint match_loop (diff : DiffReport) (manifest : list ManifestEntry) (accounted : list ManifestEntry)
    (matched : gset fileKey) : list ManifestEntry * gset fileKey :=
  match manifest with
  | [] => (accounted, matched)
  | m :: ms =>
      if match_skips diff matched m then match_loop diff ms accounted matched
      else match_loop diff ms (accounted ++ [m]) ({[source_key m]} ∪ matched)
  end.

Definition matchManifest (diff : DiffReport) (manifest : list ManifestEntry) :
    list ManifestEntry * gset fileKey := match_loop diff manifest [] ∅.

Definition removed_percent (removedCount : Z) (diff : DiffReport) : spec_float :=
  let totalBefore := RegularFilesBefore diff in
  if 0 <? totalBefore then
    b64_mul (b64_div (b64 (wrap64 (removedCount + dr_Updated diff))) (b64 totalBefore)) (b64 100)
  else b64 0.

Definition zero_disks (diff : DiffReport) (removingDisks : gset string) : list ZeroFilesDisk :=
  omap (λ p : string * DiskDiff,
    if bool_decide (p.1 ∈ removingDisks) then None
    else if leavesDiskEmpty p.2 then Some (mkZero p.1 (dd_FilesBefore p.2)) else None)
    (range (dr_PerDisk diff)).

Definition with_moved (n : Z) (d : DiffReport) : DiffReport :=
  mkReport (dr_Added d) (dr_Removed d) (dr_Updated d) (dr_Moved d) (dr_Copied d) n (dr_PerDisk d)
    (dr_RemovedFiles d) (dr_AddedFiles d).

Definition Evaluate (g : GuardConfig) (diff0 : DiffReport) (manifest : list ManifestEntry)
    (removingDisks : gset string) : GuardResult :=
  let (accounted, matchedRemovals) := matchManifest diff0 manifest in
  let moved := Z.of_nat (size matchedRemovals) in
  let diff := with_moved moved diff0 in
  let removedCount := wrap64 (dr_Removed diff - moved) in
  let percent := removed_percent removedCount diff in
  let zeroDisks := zero_disks diff removingDisks in
  let triggers :=
    (if removedFilesMax g <? removedCount then [TriggerRemovedCount] else []) ++
    (if b64_gt percent (removedUpdatedPercent g) then [TriggerRemovedUpdatedPercent] else []) ++
    (match zeroDisks with [] => [] | _ => [TriggerZeroFiles] end) in
  mkResult (match triggers with [] => false | _ => true end) triggers removedCount percent zeroDisks
    accounted diff.

(** ** Confirming targets *)
Definition needs_confirmation (diff : DiffReport) (m : ManifestEntry) : bool :=
  let (removed, added) := diffFileKeySets diff in
  negb (me_TargetConfirmed m) && target_tracked diff m &&
  bool_decide (source_key m ∈ removed) && negb (bool_decide (target_key m ∈ added)).

Definition manifestNeedsTargetConfirmation (diff : DiffReport) (manifest : list ManifestEntry) : bool :=
  existsb (needs_confirmation diff) manifest.

Definition tracked_keys (list : ListReport) : gset fileKey :=
  list_to_set (projectDiffFiles (lr_DataMounts list) (map (λ f, (lf_Disk f, lf_RelPath f)) (lr_Files list))) ∪
  list_to_set (projectDiffFiles (lr_DataMounts list) (lr_Links list)).

Definition confirm_entry (tracked : gset fileKey) (m : ManifestEntry) : ManifestEntry :=
  if bool_decide (target_key m ∈ tracked)
  then mkEntry (me_RelPath m) (me_Size m) (me_MTime m) (me_SourceDisk m) (me_TargetDisk m) true else m.

(** [lister] is what [snapraid list] answers; it is only run when needed. *)
Definition ConfirmManifestTargets {W} (lister : stM W err ListReport) (diff : DiffReport)
    (manifest : list ManifestEntry) : stM W err (list ManifestEntry) :=
  if negb (manifestNeedsTargetConfirmation diff manifest) then mret manifest
  else
    list ← wrapping "parity: confirming relocation manifest targets: " lister;
    mret (map (confirm_entry (tracked_keys list)) manifest).
End report.
