(* ===== verification/Binary64.v ===== *)
(** * Percentages are finite numbers

    Bounds on what rounding to binary64 makes of a mantissa and an exponent, and
    from them: the quotient of two 64-bit integers, times a hundred, is never
    infinite and never a NaN, so that comparing such percentages means something. *)
From S2P Require Export Guard.
Open Scope Z_scope.

#[local] Abbreviation digits := Zdigits2.
#[local] Abbreviation fexp64 := (fexp 53 1024).

(** ** Digits and shifts *)
Lemma digits_bounds p : 2 ^ (digits (Z.pos p) - 1) ≤ Z.pos p < 2 ^ digits (Z.pos p).
Proof.
  induction p as [p IH|p IH|]; [| |done]; cbn [digits digits2_pos] in *;
    rewrite Pos2Z.inj_succ; set (d := Z.pos (digits2_pos p)) in *;
    replace (Z.succ d - 1) with (Z.succ (d - 1)) by lia; rewrite !Z.pow_succ_r by lia; lia.
Qed.
Lemma digits_le m k : 0 ≤ k → 0 ≤ m < 2 ^ k → digits m ≤ k.
Proof.
  intros Hk Hm. destruct m as [|p|p]; [done| |lia]. pose proof (digits_bounds p).
  assert (2 ^ (digits (Z.pos p) - 1) < 2 ^ k) as ?%Z.pow_lt_mono_r_iff by lia; cbn in *; lia.
Qed.
Lemma digits_ge m k : 0 ≤ k → 2 ^ k ≤ m → k + 1 ≤ digits m.
Proof.
  intros Hk Hm. destruct m as [|p|p]; [|destruct (digits_bounds p) as [_ H]|]; [lia| |lia].
  assert (2 ^ k < 2 ^ digits (Z.pos p)) as ?%Z.pow_lt_mono_r_iff by lia; cbn in *; lia.
Qed.
Lemma digits_nonneg m : 0 ≤ digits m.
Proof. by destruct m. Qed.

Lemma shr_1_div r : 0 ≤ shr_m r → shr_m (shr_1 r) = shr_m r / 2.
Proof.
  destruct r as [m r s]. cbn [shr_m]. intros H. destruct m as [|q|q]; [done| |lia]. destruct q as [q|q|]; cbn [shr_1 shr_m]; [| |done].
  - replace (Z.pos q~1) with (1 + Z.pos q * 2) by lia. by rewrite Z.div_add by lia.
  - replace (Z.pos q~0) with (0 + Z.pos q * 2) by lia. by rewrite Z.div_add by lia.
Qed.
Lemma shr_iter_div n : ∀ r, 0 ≤ shr_m r → shr_m (SpecFloat.iter_pos shr_1 n r) = shr_m r / 2 ^ Z.pos n.
Proof.
  assert (∀ a i j, 0 ≤ i → 0 ≤ j → a / 2 ^ i / 2 ^ j = a / 2 ^ (i + j)) as Hdd.
  { intros a i j Hi Hj. rewrite Z.div_div, <-Z.pow_add_r by lia. done. }
  induction n as [n IH|n IH|]; intros r Hr; cbn [SpecFloat.iter_pos]; [| |by rewrite shr_1_div];
    assert (∀ r, 0 ≤ shr_m r → 0 ≤ shr_m (SpecFloat.iter_pos shr_1 n r)) as Hn by (intros; rewrite IH by done; apply Z.div_pos; lia).
  - assert (0 ≤ shr_m (shr_1 r)) as H1 by (rewrite shr_1_div by done; apply Z.div_pos; lia).
    rewrite !IH by auto. rewrite shr_1_div by done. change (shr_m r / 2) with (shr_m r / 2 ^ 1).
    rewrite !Hdd by lia. f_equal. f_equal. lia.
  - rewrite !IH by auto. rewrite Hdd by lia. f_equal. f_equal. lia.
Qed.
Lemma shr_fexp_div m e l : 0 ≤ m → let (r, e') := shr_fexp 53 1024 m e l in
  e' = Z.max e (fexp64 (digits m + e)) ∧ shr_m r = m / 2 ^ (e' - e).
Proof.
  intros Hm. unfold shr_fexp, shr. assert (shr_m (shr_record_of_loc m l) = m) as Hr by (by destruct l as [|[]]).
  destruct (_ - e) as [|n|n] eqn:Hn.
  - split; [lia|]. rewrite Z.sub_diag, Z.div_1_r. done.
  - split; [lia|]. rewrite shr_iter_div, Hr by lia. f_equal. f_equal. lia.
  - split; [lia|]. rewrite Z.sub_diag, Z.div_1_r. done.
Qed.

(** ** Rounding *)

(** Less than [2 ^ K] in size, and its exponent no more than [K]. *)
Definition small (K m e : Z) : Prop := 0 ≤ m < 2 ^ (K - e) ∧ e ≤ K.
Definition finite_below (K : Z) (x : spec_float) : Prop :=
  match x with
  | S754_zero _ => True
  | S754_finite _ m e => small K (Z.pos m) e
  | _ => False
  end.

Lemma shr_fexp_small K m e l : -1000 ≤ K → small K m e → let (r, e') := shr_fexp 53 1024 m e l in small K (shr_m r) e'.
Proof.
  intros HK [Hm He]. pose proof (shr_fexp_div m e l ltac:(lia)) as H. destruct (shr_fexp _ _ _ _ _) as [r e'].
  destruct H as [He' Hr]. pose proof (digits_le m (K - e) ltac:(lia) Hm) as Hd. unfold fexp, emin in He'.
  assert (e' ≤ K) as HeK by lia. split; [|done]. rewrite Hr. split; [apply Z.div_pos; lia|].
  apply Z.div_lt_upper_bound; [lia|]. rewrite <-Z.pow_add_r by lia. replace (e' - e + (K - e')) with (K - e) by lia. lia.
Qed.
Lemma round_even_bounds m l : m ≤ round_nearest_even m l ≤ m + 1.
Proof. destruct l as [|[]]; cbn; [lia|destruct (Z.even m); lia|lia..]. Qed.

Lemma round_finite K s m e l : -1000 ≤ K ≤ 900 → small K m e → finite_below (K + 1) (binary_round_aux 53 1024 s m e l).
Proof.
  intros HK Hm. unfold binary_round_aux. pose proof (shr_fexp_small K m e l ltac:(lia) Hm) as H1.
  destruct (shr_fexp 53 1024 m e l) as [r e1]. pose proof (round_even_bounds (shr_m r) (loc_of_shr_record r)) as Hr.
  set (m' := round_nearest_even _ _) in *. assert (small (K + 1) m' e1) as H2.
  { destruct H1 as [H1 ?]. split; [|lia]. replace (K + 1 - e1) with (Z.succ (K - e1)) by lia. rewrite Z.pow_succ_r by lia. lia. }
  pose proof (shr_fexp_small (K + 1) m' e1 loc_Exact ltac:(lia) H2) as H3.
  destruct (shr_fexp 53 1024 m' e1 loc_Exact) as [r' e2]. destruct H3 as [H3 He2].
  destruct (shr_m r') as [|p|p]; [done| |lia]. assert (e2 <=? 1024 - 53 = true) as -> by lia. done.
Qed.

(** At least one in size. *)
Definition whole (m e : Z) : Prop := 0 < m ∧ 1 ≤ digits m + e.
Definition whole_number (x : spec_float) : Prop := match x with S754_finite _ m e => whole (Z.pos m) e | _ => False end.

Lemma digits_pos_ge m : 0 < m → 2 ^ (digits m - 1) ≤ m.
Proof. intros H. destruct m as [|p|p]; [lia| |lia]. apply digits_bounds. Qed.
Lemma digits_mono m m' : 0 < m ≤ m' → digits m ≤ digits m'.
Proof.
  intros H. pose proof (digits_pos_ge m ltac:(lia)) as Hm. destruct m as [|p|p]; [lia| |lia].
  pose proof (digits_ge m' (digits (Z.pos p) - 1) ltac:(cbn; lia) ltac:(lia)). lia.
Qed.
Lemma shr_fexp_whole m e l : whole m e → let (r, e') := shr_fexp 53 1024 m e l in whole (shr_m r) e'.
Proof.
  intros [Hm Hd]. pose proof (shr_fexp_div m e l ltac:(lia)) as H. destruct (shr_fexp _ _ _ _ _) as [r e'].
  destruct H as [He' Hr]. unfold fexp, emin in He'. pose proof (digits_pos_ge m Hm) as Hge.
  assert (0 ≤ e' - e ≤ digits m - 1) as Hn by (destruct m; cbn in *; lia).
  assert (2 ^ (digits m - 1 - (e' - e)) ≤ shr_m r) as Hlow.
  { rewrite Hr. apply Z.div_le_lower_bound; [lia|]. rewrite <-Z.pow_add_r by lia.
    replace (e' - e + (digits m - 1 - (e' - e))) with (digits m - 1) by lia. done. }
  split; [pose proof (Z.pow_pos_nonneg 2 (digits m - 1 - (e' - e)) ltac:(lia) ltac:(lia)); lia|].
  pose proof (digits_ge (shr_m r) (digits m - 1 - (e' - e)) ltac:(lia) Hlow). lia.
Qed.
Lemma round_whole K s m e l : -1000 ≤ K ≤ 900 → small K m e → whole m e → whole_number (binary_round_aux 53 1024 s m e l).
Proof.
  intros HK Hs Hw. pose proof (round_finite K s m e l HK Hs) as Hf. unfold binary_round_aux in *.
  pose proof (shr_fexp_whole m e l Hw) as H1. destruct (shr_fexp 53 1024 m e l) as [r e1].
  pose proof (round_even_bounds (shr_m r) (loc_of_shr_record r)) as Hr.
  set (m' := round_nearest_even _ _) in *. assert (whole m' e1) as H2.
  { destruct H1 as [H1 H1']. split; [lia|]. pose proof (digits_mono (shr_m r) m' ltac:(lia)). lia. }
  pose proof (shr_fexp_whole m' e1 loc_Exact H2) as H3. destruct (shr_fexp 53 1024 m' e1 loc_Exact) as [r' e2].
  destruct H3 as [H3 H3']. destruct (shr_m r') as [|p|p]; [lia| |lia]. by destruct (e2 <=? 1024 - 53).
Qed.

(** ** Integers, quotients and products *)
Lemma iter_xO m d : Z.pos (Pos.iter xO m d) = Z.pos m * 2 ^ Z.pos d.
Proof.
  induction d as [|d IH] using Pos.peano_ind; [cbn; lia|]. rewrite Pos.iter_succ, Pos2Z.inj_succ, Z.pow_succ_r by lia.
  rewrite (Pos2Z.inj_xO (Pos.iter xO m d)). lia.
Qed.
Lemma binary_round_int K s m : 53 ≤ K ≤ 900 → Z.pos m < 2 ^ K →
  finite_below (K + 1) (binary_round 53 1024 s m 0) ∧ whole_number (binary_round 53 1024 s m 0).
Proof.
  intros HK Hm. unfold binary_round, shl_align. set (e := fexp64 _ - 0).
  assert (small K (Z.pos m) 0 ∧ whole (Z.pos m) 0) as [Hs Hw].
  { split; [split; [rewrite Z.sub_0_r; lia|lia]|split; [lia|cbn; lia]]. }
  destruct e as [|d|d] eqn:He; [split; [apply round_finite; [lia|done]|apply (round_whole K); [lia|done..]]..|].
  assert (fexp64 (Z.pos (digits2_pos m) + 0) = Z.neg d) as -> by lia.
  assert (small K (Z.pos (Pos.iter xO m d)) (Z.neg d) ∧ whole (Z.pos (Pos.iter xO m d)) (Z.neg d)) as [Hs' Hw'].
  { rewrite iter_xO. split; (split; [|try lia]).
    - replace (K - Z.neg d) with (K + Z.pos d) by lia. rewrite Z.pow_add_r by lia. nia.
    - nia.
    - pose proof (digits_pos_ge (Z.pos m) ltac:(lia)) as Hge.
      assert (2 ^ (digits (Z.pos m) - 1 + Z.pos d) ≤ Z.pos m * 2 ^ Z.pos d) as Hlow by (rewrite Z.pow_add_r by (cbn; lia); nia).
      pose proof (digits_ge _ (digits (Z.pos m) - 1 + Z.pos d) ltac:(cbn; lia) Hlow). cbn in *. lia. }
  split; [apply round_finite; [lia|done]|apply (round_whole K); [lia|done..]].
Qed.
Lemma b64_int z : Z.abs z ≤ 2 ^ 63 → finite_below 65 (b64 z) ∧ (0 < z → whole_number (b64 z)).
Proof.
  intros Hz. unfold b64, binary_normalize. destruct z as [|p|p]; [done| |];
    destruct (binary_round_int 64 false p ltac:(lia) ltac:(lia)), (binary_round_int 64 true p ltac:(lia) ltac:(lia)); done.
Qed.

Lemma b64_div_finite K x y : 0 ≤ K ≤ 900 → finite_below K x → whole_number y → finite_below (K + 1) (b64_div x y).
Proof.
  intros HK Hx Hy. destruct y as [|?| |sy my ey]; [done..|]. destruct x as [|?| |sx mx ex]; [done..|].
  destruct Hx as [Hx Hex]. destruct Hy as [_ Hy]. unfold b64_div, SFdiv, SFdiv_core_binary.
  set (e' := Z.min _ _). set (s := ex - ey - e').
  pose proof (digits_le (Z.pos mx) (K - ex) ltac:(lia) ltac:(lia)) as Hdx.
  pose proof (digits_pos_ge (Z.pos my) ltac:(lia)) as Hgy.
  assert (0 ≤ s ∧ e' ≤ K) as [Hs He'] by (unfold s, e', fexp, emin; lia).
  assert (match s with 0 => Z.pos mx | Z.pos _ => Z.shiftl (Z.pos mx) s | Z.neg _ => 0 end = Z.pos mx * 2 ^ s) as ->.
  { destruct s eqn:Hs'; [lia| |lia]. by rewrite Z.shiftl_mul_pow2 by lia. }
  pose proof (Z.div_eucl_eq (Z.pos mx * 2 ^ s) (Z.pos my) ltac:(lia)) as Heq.
  pose proof (Z_div_mod (Z.pos mx * 2 ^ s) (Z.pos my) ltac:(lia)) as Hmod.
  destruct (Z.div_eucl _ _) as [q r]. destruct Hmod as [_ Hr]. apply round_finite; [lia|]. split; [|done].
  assert (0 < 2 ^ s) by (apply Z.pow_pos_nonneg; lia). split; [nia|].
  apply (Z.mul_lt_mono_pos_l (Z.pos my)); [lia|]. apply Z.le_lt_trans with (Z.pos mx * 2 ^ s); [lia|].
  apply Z.lt_le_trans with (2 ^ (K - ex) * 2 ^ s); [nia|].
  apply Z.le_trans with (2 ^ (digits (Z.pos my) - 1) * 2 ^ (K - e')); [|apply Z.mul_le_mono_nonneg_r; lia].
  rewrite <-!Z.pow_add_r by (unfold s in *; cbn; lia). apply Z.pow_le_mono_r; [lia|]. unfold s. lia.
Qed.
Lemma b64_mul_finite K L x y : 0 ≤ K → 0 ≤ L → K + L ≤ 900 → finite_below K x → finite_below L y → finite_below (K + L + 1) (b64_mul x y).
Proof.
  intros HK HL HKL Hx Hy. destruct x as [|?| |sx mx ex]; try done; destruct y as [|?| |sy my ey]; try done.
  destruct Hx as [Hx Hex], Hy as [Hy Hey]. apply round_finite; [lia|]. split; [|lia].
  replace (K + L - (ex + ey)) with (K - ex + (L - ey)) by lia. rewrite Z.pow_add_r by lia. nia.
Qed.

(** A percentage is a number, and its difference to itself is zero. *)
Lemma percentage_finite a b : Z.abs a ≤ 2 ^ 63 → 0 < b ≤ 2 ^ 63 → finite_below 900 (b64_mul (b64_div (b64 a) (b64 b)) (b64 100)).
Proof.
  intros Ha Hb. destruct (b64_int a Ha) as [Hfa _]. destruct (b64_int b ltac:(lia)) as [_ Hwb]. specialize (Hwb ltac:(lia)).
  pose proof (b64_div_finite 65 _ _ ltac:(lia) Hfa Hwb) as Hq. destruct (b64_int 100 ltac:(lia)) as [H100 _].
  pose proof (b64_mul_finite 66 65 _ _ ltac:(lia) ltac:(lia) ltac:(lia) Hq H100) as H.
  destruct (b64_mul _ _); try done. destruct H as [H He]. split; [|lia]. split; [lia|].
  apply Z.lt_le_trans with (2 ^ (66 + 65 + 1 - e)); [lia|]. apply Z.pow_le_mono_r; lia.
Qed.
Lemma sub_self K x : finite_below K x → SFsub 53 1024 x x = S754_zero false.
Proof.
  intros Hx. destruct x as [s|?| |s m e]; [by destruct s|done..|]. unfold SFsub. by rewrite Z.sub_diag.
Qed.
