(* ===== verification/GuardSafety.v ===== *)
(** * What the threshold guard guarantees

    When a sync is blocked, what a relocation manifest can and cannot excuse,
    what the report projects, and that the list of tracked files is only skipped
    when it could not matter. *)
From S2P Require Export ParityRead Guard.
Open Scope string_scope.
Open Scope list_scope.
Open Scope Z_scope.

Section guard.
Context `{RangeOrder}.

(** ** Matching a manifest *)

(** Nothing but a real removal is excused: it is in the diff, the manifest names
    it, and its file is on the target, was there before, or went to a disk that
    SnapRAID does not track. *)
Definition excused (diff : DiffReport) (m : ManifestEntry) : Prop :=
  source_key m ∈ dr_RemovedFiles diff ∧
  (target_key m ∈ dr_AddedFiles diff ∨ me_TargetConfirmed m = true ∨
   (dr_PerDisk diff ≠ ∅ ∧ dr_PerDisk diff !! Clean (me_TargetDisk m) = None)).

Lemma target_tracked_false diff m :
  target_tracked diff m = false ↔
  dr_PerDisk diff ≠ ∅ ∧ dr_PerDisk diff !! Clean (me_TargetDisk m) = None.
Proof.
  unfold target_tracked. rewrite orb_false_iff, !bool_decide_eq_false, eq_None_not_Some. done.
Qed.

Lemma match_skips_false diff matched m :
  match_skips diff matched m = false ↔ source_key m ∉ matched ∧ excused diff m.
Proof.
  unfold match_skips, excused, diffFileKeySets.
  rewrite !orb_false_iff, bool_decide_eq_false, negb_false_iff, bool_decide_eq_true, elem_of_list_to_set.
  rewrite <-target_tracked_false, !andb_false_iff, !negb_false_iff, bool_decide_eq_true, elem_of_list_to_set.
  destruct (target_tracked diff m), (me_TargetConfirmed m); intuition.
Qed.

Record matching (diff : DiffReport) (seen acc : list ManifestEntry) (matched : gset fileKey) : Prop := {
  mt_keys : matched = list_to_set (map source_key acc);
  mt_nodup : NoDup (map source_key acc);
  mt_sub : acc ⊆ seen;
  mt_excused : Forall (excused diff) acc;
  mt_all : ∀ m, m ∈ seen → excused diff m → source_key m ∈ matched
}.

Lemma match_loop_spec diff ms seen acc matched :
  matching diff seen acc matched →
  matching diff (seen ++ ms) (match_loop diff ms acc matched).1 (match_loop diff ms acc matched).2.
Proof.
  revert seen acc matched. induction ms as [|m ms IH]; intros seen acc matched Hm; cbn [match_loop].
  { cbn. by rewrite app_nil_r. }
  rewrite (cons_middle m seen ms), app_assoc. destruct (match_skips diff matched m) eqn:Hs.
  - apply IH. destruct Hm as [Hk Hn Hsub He Hall]. split; [done..|set_solver|done|].
    intros m'. rewrite elem_of_app, list_elem_of_singleton. intros [?| ->] Hx; [by apply Hall|].
    destruct (decide (source_key m ∈ matched)); [done|].
    exfalso. apply not_false_iff_true in Hs. by apply Hs, match_skips_false.
  - apply match_skips_false in Hs as [Hnew Hex]. apply IH.
    destruct Hm as [Hk Hn Hsub He Hall]. split.
    + rewrite map_app, list_to_set_app_L, Hk. cbn. set_solver.
    + rewrite map_app. apply NoDup_app. split_and!; [done| |apply NoDup_singleton].
      intros k Hk' ->%list_elem_of_singleton. apply Hnew. by rewrite Hk, elem_of_list_to_set.
    + set_solver.
    + apply Forall_app. by split; [|constructor].
    + intros m'. rewrite elem_of_app, list_elem_of_singleton. intros [?| ->] Hx; set_solver.
Qed.

Lemma matchManifest_spec diff manifest :
  matching diff manifest (matchManifest diff manifest).1 (matchManifest diff manifest).2.
Proof.
  apply (match_loop_spec diff manifest [] []). split; try done; [constructor|]. by intros m ?%elem_of_nil.
Qed.

(** C11: a manifest excuses only real removals, each at most once however often
    it is named: the removals the guard counts are those of the diff less the
    distinct excused ones, and every excused one is in the diff, named by the
    manifest, and its file is accounted for. *)
Theorem manifest_excuses_only_real_removals g diff manifest removing :
  let r := Evaluate g diff manifest removing in
  let excused_keys := map source_key (gr_AccountedRemovals r) in
  NoDup excused_keys ∧
  (∀ k, k ∈ excused_keys ↔ ∃ m, m ∈ manifest ∧ source_key m = k ∧ excused diff m) ∧
  gr_RemovedCount r = wrap64 (dr_Removed diff - Z.of_nat (length excused_keys)) ∧
  (length excused_keys ≤ length (remove_dups (dr_RemovedFiles diff)))%nat.
Proof.
  unfold Evaluate. pose proof (matchManifest_spec diff manifest) as Hm.
  destruct (matchManifest diff manifest) as [acc matched]. cbn in *. destruct Hm as [Hk Hn Hsub He Hall].
  rewrite Forall_forall in He. split_and!; [done| | |].
  - intros k. split.
    + rewrite list_elem_of_fmap. intros (m&->&Hm). exists m. split_and!; auto.
    + intros (m&Hm&<-&Hx). specialize (Hall m Hm Hx). by rewrite Hk, elem_of_list_to_set in Hall.
  - by rewrite Hk, size_list_to_set.
  - apply submseteq_length, NoDup_submseteq; [done|]. intros k. rewrite elem_of_remove_dups, list_elem_of_fmap.
    intros (m&->&Hm). by apply He.
Qed.


(** ** The report the guard decides on *)
Lemma foldl_disks before d (l : list (string * string)) disk dd :
  (∀ i j p q, (i, p) ∈ l → (j, q) ∈ l → Clean p = Clean q → i = j) →
  foldl (λ m p, <[Clean p.2 := disk_diff before d p.1]> m) (∅ : gmap string DiskDiff) l !! disk = Some dd ↔
  ∃ id p, (id, p) ∈ l ∧ Clean p = disk ∧ dd = disk_diff before d id.
Proof.
  induction l as [|[id p] l IH] using rev_ind; intros Hinj.
  { cbn. rewrite lookup_empty. split; [done|]. by intros (?&?&?%elem_of_nil&_). }
  rewrite foldl_app. cbn. setoid_rewrite elem_of_app. setoid_rewrite list_elem_of_singleton.
  destruct (decide (Clean p = disk)) as [<-|Hne].
  - rewrite lookup_insert_eq. split; [intros [= <-]; exists id, p; auto|].
    intros (id'&p'&Hin&Hc&->). by rewrite (Hinj id id' p p'); try set_solver.
  - rewrite lookup_insert_ne, IH by (done || set_solver). naive_solver.
Qed.

Lemma on_disk_projected mounts id p (files : list (string * string)) :
  mounts !! id = Some p →
  (∀ i j p q, mounts !! i = Some p → mounts !! j = Some q → Clean p = Clean q → i = j) →
  on_disk (Clean p) (projectDiffFiles mounts files) = on_disk id files.
Proof.
  intros Hp Hinj. unfold projectDiffFiles. induction files as [|[k path] files IH] using rev_ind; [done|].
  rewrite omap_app, on_disk_snoc, <-IH. cbn. destruct (mounts !! k) as [q|] eqn:Hq; cbn.
  - rewrite on_disk_snoc. f_equal.
    destruct (decide (k = id)) as [->|Hk]; [by simplify_eq; rewrite !bool_decide_true|].
    rewrite !bool_decide_false; eauto.
  - rewrite app_nil_r, bool_decide_false by congruence. lia.
Qed.

Lemma on_disk_app {A} k (l l' : list (string * A)) : on_disk k (l ++ l') = on_disk k l + on_disk k l'.
Proof. unfold on_disk. rewrite filter_app, length_app. lia. Qed.

(** the report projects each disk's files. For a parsed diff whose disks are
    mounted at different places, the report has exactly those mount points, and
    what it says a disk will hold is what it held, links among it, and what the
    report lists as added there less what it lists as removed there. *)
Theorem report_counts_what_changed before log d :
  ParseDiff log = Ok d →
  (∀ i j p q, dl_DataMounts d !! i = Some p → dl_DataMounts d !! j = Some q → Clean p = Clean q → i = j) →
  let r := BuildDiffReport before d in
  ∀ disk dd, dr_PerDisk r !! disk = Some dd ↔
    ∃ id p, dl_DataMounts d !! id = Some p ∧ disk = Clean p ∧
      let links := default 0 (sr_PerDiskLinkCount before !! id) in
      let held := wrap64 (default 0 (sr_PerDiskFileCount before !! id) + links) in
      dd = mkDiskDiff held (wrap64 (held + on_disk disk (dr_AddedFiles r) - on_disk disk (dr_RemovedFiles r))) links.
Proof.
  intros [Ha Hr Hc]%ParseDiff_tallied Hinj r disk dd. subst r. cbn.
  rewrite foldl_disks by (intros i j p q Hp%range_elem Hq%range_elem; eauto).
  setoid_rewrite range_elem. split; intros (id&p&Hp&Hd&->); exists id, p; (split_and!; [done..|]);
    subst disk; rewrite on_disk_app, !(on_disk_projected _ id) by done; unfold disk_diff;
    rewrite Ha, Hr, Hc; do 2 f_equal; lia.
Qed.

(** ** Confirming targets *)
Lemma confirm_keys tracked m :
  source_key (confirm_entry tracked m) = source_key m ∧ target_key (confirm_entry tracked m) = target_key m ∧
  me_TargetDisk (confirm_entry tracked m) = me_TargetDisk m.
Proof. unfold confirm_entry. by case_bool_decide. Qed.

Lemma confirm_skips diff matched tracked m :
  needs_confirmation diff m = false →
  match_skips diff matched (confirm_entry tracked m) = match_skips diff matched m.
Proof.
  unfold needs_confirmation, match_skips, diffFileKeySets, target_tracked.
  destruct (confirm_keys tracked m) as (->&->&->). intros Hn.
  assert (me_TargetConfirmed (confirm_entry tracked m) = me_TargetConfirmed m ∨
          me_TargetConfirmed (confirm_entry tracked m) = true ∧ me_TargetConfirmed m = false) as [->|[-> Hm]].
  { clear Hn. unfold confirm_entry. case_bool_decide; [|by left]. destruct (me_TargetConfirmed m); auto. }
  - done.
  - rewrite Hm in *. revert Hn. cbn. repeat (match goal with |- context [bool_decide ?P] => destruct (bool_decide P) end); done.
Qed.

Lemma match_confirmed diff tracked ms acc matched :
  Forall (λ m, needs_confirmation diff m = false) ms →
  match_loop diff (map (confirm_entry tracked) ms) (map (confirm_entry tracked) acc) matched =
  let (acc', matched') := match_loop diff ms acc matched in (map (confirm_entry tracked) acc', matched').
Proof.
  intros Hn. revert acc matched. induction Hn as [|m ms Hm _ IH]; intros acc matched; [done|].
  cbn [map match_loop]. rewrite confirm_skips by done. destruct (match_skips diff matched m); [apply IH|].
  destruct (confirm_keys tracked m) as (->&_). rewrite <-IH, map_app. done.
Qed.

(** [snapraid list] is only left out when it could not change anything:
    whatever it would have answered, the guard decides the same, for the same
    reasons and on the same numbers. *)
Theorem skipping_the_list_is_sound g diff manifest removing tracked :
  manifestNeedsTargetConfirmation diff manifest = false →
  let without := Evaluate g diff manifest removing in
  let with_list := Evaluate g diff (map (confirm_entry tracked) manifest) removing in
  gr_Blocked with_list = gr_Blocked without ∧ gr_Triggers with_list = gr_Triggers without ∧
  gr_RemovedCount with_list = gr_RemovedCount without ∧
  gr_ZeroFilesDisks with_list = gr_ZeroFilesDisks without ∧
  map source_key (gr_AccountedRemovals with_list) = map source_key (gr_AccountedRemovals without).
Proof.
  intros Hn.
  assert (Forall (λ m, needs_confirmation diff m = false) manifest) as Hall.
  { apply Forall_forall. intros m Hm. unfold manifestNeedsTargetConfirmation in Hn.
    apply not_true_iff_false. intros Hx. apply not_true_iff_false in Hn. apply Hn.
    apply existsb_exists. exists m. by rewrite <-list_elem_of_In. }
  pose proof (match_confirmed diff tracked manifest [] ∅ Hall) as Hm. cbn [map] in Hm.
  unfold Evaluate, matchManifest. rewrite Hm. destruct (match_loop diff manifest [] ∅) as [acc matched].
  cbn. split_and!; try done. rewrite map_map. apply map_ext. intros m. apply confirm_keys.
Qed.

End guard.

(** ** The theorems at concrete inputs *)
#[local] Existing Instance some_order.
Definition one_removed : DiffReport :=
  mkReport 1 1 0 0 0 0 {["/mnt/disk1" := mkDiskDiff 5 4 0; "/mnt/disk2" := mkDiskDiff 5 6 0]}
    [("/mnt/disk1", "a")] [("/mnt/disk2", "a")].
Definition moved_a : ManifestEntry := mkEntry "a" 1 0 "/mnt/disk1" "/mnt/disk2" false.

Lemma skipping_the_list_is_sound_witness :
  let without := Evaluate (mkConfig 1 (b64 50)) one_removed [moved_a] ∅ in
  let with_list := Evaluate (mkConfig 1 (b64 50)) one_removed (map (confirm_entry {[target_key moved_a]}) [moved_a]) ∅ in
  gr_Blocked with_list = gr_Blocked without ∧ gr_Blocked without = false ∧ gr_RemovedCount without = 0.
Proof.
  split; [|split; vm_compute; reflexivity].
  apply (skipping_the_list_is_sound (mkConfig 1 (b64 50)) one_removed [moved_a] ∅ {[target_key moved_a]}).
  vm_compute. reflexivity.
Defined.

Definition sample_log : string := write_lines (map render sample_diff).
Definition sample_before : StatusReport :=
  with_link_count {["d1" := 2]} (status_set empty_status ∅ {["d1" := 40; "d2" := 7]} 2 0 0 0 0 0).
Lemma report_counts_what_changed_witness : ∃ d, ParseDiff sample_log = Ok d ∧
  dr_PerDisk (BuildDiffReport sample_before d) !! "/mnt/disk2" = Some (mkDiskDiff 7 7 0).
Proof.
  destruct (ParseDiff sample_log) as [d|e] eqn:Hd; [|vm_compute in Hd; discriminate].
  exists d. split; [reflexivity|].
  assert (dl_DataMounts d = {["d1" := "/mnt/disk1"; "d2" := "/mnt/disk2"]}) as Hm.
  { vm_compute in Hd. injection Hd as <-. vm_compute. reflexivity. }
  apply (report_counts_what_changed sample_before sample_log d Hd).
  - rewrite Hm. intros i j p q Hi Hj. apply lookup_insert_Some in Hi, Hj.
    destruct Hi as [[<- <-]|[_ Hi]], Hj as [[<- <-]|[_ Hj]]; try apply lookup_singleton_Some in Hi as [<- <-];
      try apply lookup_singleton_Some in Hj as [<- <-]; vm_compute; congruence.
  - exists "d2", "/mnt/disk2". rewrite Hm. vm_compute in Hd. injection Hd as <-. split_and!; vm_compute; reflexivity.
Defined.
