(* ===== verification/Engine.v ===== *)
(** * The SnapRAID engine

    [internal/parity/snapraid_engine.go], with the argument lists of [argv.go],
    the status of [status_parse.go] and [engine.go], the fatal messages of
    [run_parse.go] and the pre-check of the maintenance chain
    ([internal/job/diffguard.go]). The runs of the SnapRAID binary and the work
    that follows one are calls; what a run streams while it lasts is not kept. *)
From stdpp Require Import pretty.
From S2P Require Export Guard.
Open Scope string_scope.
Open Scope list_scope.
Open Scope Z_scope.

(** ** Argument lists *)
Definition diffArgv : list string := ["diff"].
Definition statusArgv : list string := ["status"].
Definition touchArgv : list string := ["touch"].
Definition listArgv : list string := ["list"].
Definition syncArgv (emptiesADisk : bool) : list string := (if emptiesADisk then ["-E"] else []) ++ ["sync"].
Definition scrubArgv (pct olderThanDays : Z) : list string :=
  ["-p"; pretty pct; "-o"; pretty olderThanDays; "scrub"].

Record FixOpts := mkFixOpts { fo_Disk : string; fo_Path : string; fo_ErrorsOnly : bool }.
Record CheckOpts := mkCheckOpts { co_Disk : string; co_AuditOnly : bool }.

Definition flag (name value : string) : list string := if bool_decide (value = "") then [] else [name; value].
Definition fixArgv (o : FixOpts) : list string :=
  flag "-d" (fo_Disk o) ++ flag "-f" (fo_Path o) ++ (if fo_ErrorsOnly o then ["-e"] else []) ++ ["fix"].
Definition checkArgv (o : CheckOpts) : list string :=
  flag "-d" (co_Disk o) ++ (if co_AuditOnly o then ["-a"] else []) ++ ["check"].

(** ** Status *)
Record ParityStatus := mkParityStatus {
  ps_Freshness : FreshnessLevel;
  ps_LastSyncAt : Z;
  ps_ChangedSinceSync : Z;
  ps_DataDisks : Z;
  ps_ParityDisks : Z;
  ps_DataMounts : gmap string string
}.
Definition ToParityStatus (r : StatusReport) : ParityStatus :=
  mkParityStatus (freshness r) (sr_LastActivityAt r) (sr_ChangedSinceSync r)
    (Z.of_nat (size (sr_DataMounts r))) (sr_ParityDisks r) (sr_DataMounts r).

Definition DataDiskLabel `{RangeOrder} (s : ParityStatus) (mount : string) : option string :=
  fst <$> List.find (λ p, bool_decide (Clean p.2 = Clean mount)) (range (ps_DataMounts s)).

(** ** Runs

    [Run] is a run to completion, [Stream] one whose output is streamed. An
    answer says whether the log file could be made and the process started, how
    it ended with its exit code, what its log then holds, and whether the
    caller's context had been cancelled by then; for the other two calls, whether
    they failed. *)
Inductive run :=
  | Run (tail : list string)
  | Stream (tail : list string)
  | RecordMetadata (nothingToSync : bool)
  | RestoreOwnership (recovered : list string) (mounts : gmap string string).
Record run_answer := mkRunAnswer {
  ra_newLog : option err;
  ra_start : option err;
  ra_wait : option err;
  ra_exitCode : option Z;
  ra_log : res err string;
  ra_ctx : option err;
  ra_failed : option err
}.
Abbreviation E := (stM (calls run run_answer) err).
Definition job_failed (_ : run) (a : run_answer) : option err := ra_failed a.

Record SyncOpts := mkSyncOpts {
  so_DryRun : bool;
  so_Confirm : bool;
  so_Manifest : list ManifestEntry;
  so_RemovingDisks : gset string
}.

Definition fail_on (o : option err) : E unit := match o with Some e => throw e | None => mret tt end.
Definition of_res {X} (r : res err X) : E X := match r with Ok x => mret x | Err e => throw e end.
(** The error of a body, as a value. *)
Definition attempt (m : E unit) : E (option err) := λ tr,
  match m tr with (Ok _, tr') => (Ok None, tr') | (Err e, tr') => (Ok (Some e), tr') end.

Definition runToCompletion (a : run_answer) : option err :=
  match ra_start a with Some e => Some e | None => ra_wait a end.

Definition fatalMessages (log : string) : list string :=
  omap (λ line, match cutTag line with
    | Some (tag, rest) =>
        if bool_decide (tag = "msg") then
          match cut colon rest with
          | Some (kind, tail) => if bool_decide (kind = "fatal") then Some (TrimSpace tail) else None
          | None => None
          end
        else None
    | None => None
    end) (splitLogLines log).

Definition runFailedBeforeSummaryErr (waitErr : err) (log : string) : err :=
  match fatalMessages log with
  | [] => wrap "parity: snapraid run exited before writing a summary: " waitErr
  | msgs => wrap ("parity: snapraid run failed: " +:+ join_with "; " msgs +:+ ": ") waitErr
  end.

(** A process's end: its wait error with the exit code it carries, if any. *)
Abbreviation waited := (option (err * option Z)).

Definition exitErr (op verb exit : string) (w : waited) : err :=
  match w with
  | Some (e, _) => wrap ("parity: " +:+ op +:+ ": " +:+ verb +:+ " " +:+ quoted exit +:+ ": ") e
  | None => EOther ("parity: " +:+ op +:+ ": " +:+ verb +:+ " " +:+ quoted exit)
  end.

(** ** The outcome of a fix *)
Definition completedNormally (waitErr : waited) : bool :=
  match waitErr with
  | None => true
  | Some (_, Some c) => c =? 1
  | Some (_, None) => false
  end.

Definition maxNamedLeftovers : nat := 10.
Definition leftover (f : string) : string :=
  match cut colon f with
  | None => f +:+ ".unrecoverable"
  | Some (disk, rel) => rel +:+ ".unrecoverable on disk " +:+ disk
  end.
Definition unrecoveredLeftovers (files : list string) : list string :=
  let named := take maxNamedLeftovers files in
  let more := (length files - length named)%nat in
  map leftover named ++ (if (0 <? more)%nat then ["and " +:+ pretty more +:+ " more"] else []).

Definition fixUnrecoverableErr (path : string) (s : RunSummary) : err :=
  let leftovers := unrecoveredLeftovers (rs_UnrecoveredFiles s) in
  let n := pretty (rs_Unrecoverable s) in
  EWrap "" (ESentinel S_FixUnrecoverable) (
    if negb (bool_decide (path = "")) then
      match leftovers with
      | [] => ": " +:+ path +:+ " has " +:+ n +:+ " unrecoverable block(s); SnapRAID leaves what it could rebuild as <name>.unrecoverable beside the file"
      | _ => ": " +:+ path +:+ " has " +:+ n +:+ " unrecoverable block(s), for example because another file that shares its parity positions changed after the last sync; SnapRAID left the partial copy as " +:+ join_with ", " leftovers
      end
    else
      let why := "SnapRAID can only rebuild data that parity held at the last sync, and no more failed blocks than parity covers" in
      match leftovers with
      | [] => ": " +:+ n +:+ " unrecoverable block(s) were not restored; " +:+ why +:+ "; SnapRAID leaves what it could rebuild as <name>.unrecoverable beside each file"
      | _ => ": " +:+ n +:+ " unrecoverable block(s) were not restored; " +:+ why +:+ "; SnapRAID left the partial copies as " +:+ join_with ", " leftovers
      end).

Definition fixOutcome (path : string) (s : RunSummary) (waitErr : waited) : res err unit :=
  match waitErr with
  | Some (e, _) =>
      if negb (completedNormally waitErr) then
        Err (wrap ("parity: snapraid fix: exit " +:+ quoted (rs_Exit s) +:+ ": ") e)
      else if 0 <? rs_Unrecoverable s then Err (fixUnrecoverableErr path s)
      else Err (wrap ("parity: snapraid fix: exit " +:+ quoted (rs_Exit s) +:+ ", " +:+ pretty (rs_Errors s) +:+
                      " error(s), " +:+ pretty (rs_Recovered s) +:+ " recovered: ") e)
  | None =>
      if 0 <? rs_Unrecoverable s then Err (fixUnrecoverableErr path s)
      else if negb (bool_decide (path = "")) && bool_decide (rs_RecoveredFiles s = [])
      then Err (EWrap "" (ESentinel S_FixRestoredNothing) (": " +:+ path))
      else Ok tt
  end.

(** ** The engine *)
Section engine.
Context `{RangeOrder} (env : environment run run_answer) (guard : GuardConfig).

(** Runs to completion and reads its log; an exit code may be [tolerated]. *)
Definition run_log (tail : list string) (tolerated : Z → bool) (failed unreadable : string) : E string :=
  a ← call env (Run tail);
  _ ← fail_on (ra_newLog a);
  _ ← (match runToCompletion a, ra_exitCode a with
       | None, _ => mret tt
       | Some e, Some c => if tolerated c then mret tt else throw (wrap failed e)
       | Some e, None => throw (wrap failed e)
       end);
  match ra_log a with Ok data => mret data | Err e => throw (wrap unreadable e) end.

Definition runStatus : E StatusReport :=
  data ← run_log statusArgv (λ _, false) "parity: snapraid status: " "parity: reading status log: ";
  of_res (ParseStatus data).
Definition Engine_Status : E ParityStatus := r ← runStatus; mret (ToParityStatus r).
Definition List : E ListReport :=
  data ← run_log listArgv (λ _, false) "parity: snapraid list: " "parity: reading list log: ";
  of_res (ParseList data).
Definition diffFromStatus (before0 : StatusReport) : E DiffReport :=
  before ← (if 0 <? sr_TrackedLinks before0 then
              list ← wrapping "parity: counting each disk's links for the diff: " List;
              mret (with_link_count (lr_LinkCount list) before0)
            else mret before0);
  data ← run_log diffArgv (λ c, c =? 2) "parity: snapraid diff: " "parity: reading diff log: ";
  d ← of_res (ParseDiff data);
  mret (BuildDiffReport before d).
Definition Diff : E DiffReport := before ← runStatus; diffFromStatus before.

Definition touchIfNeeded (status : StatusReport) : E unit :=
  if sr_ZeroSubsecondFiles status =? 0 then mret tt
  else
    a ← call env (Run touchArgv);
    _ ← fail_on (ra_newLog a);
    match runToCompletion a with Some e => throw (wrap "parity: snapraid touch: " e) | None => mret tt end.

(** A streamed run. It fails when it could not be started; otherwise the result
    is the error that its last progress carries. *)
Definition runStream (tail : list string) (accept : RunSummary → waited → E unit) : E (option err) :=
  a ← call env (Stream tail);
  _ ← fail_on (ra_newLog a);
  _ ← fail_on (ra_start a);
  finalErr ← (match ra_log a with
    | Err e => mret (Some (wrap "parity: reading run log: " e))
    | Ok data =>
        match ParseRunSummary data, ra_wait a with
        | Ok summary, w => attempt (accept summary ((λ e, (e, ra_exitCode a)) <$> w))
        | Err _, Some w => mret (Some (runFailedBeforeSummaryErr w data))
        | Err parseErr, None => mret (Some parseErr)
        end
    end);
  mret (match ra_ctx a, finalErr with
    | None, _ => finalErr
    | Some ctxErr, Some e => Some (EWrap "" ctxErr (": " +:+ err_string e))
    | Some ctxErr, None => Some ctxErr
    end).

Definition dryRun_accept (s : RunSummary) (w : waited) : E unit :=
  if bool_decide (rs_Exit s ∈ ["ok"; "diff"; "equal"]) then mret tt
  else throw (exitErr "snapraid diff (dry-run sync)" "unexpected exit" (rs_Exit s) w).
Definition sync_accept (s : RunSummary) (w : waited) : E unit :=
  if bool_decide (w = None) && bool_decide (rs_Exit s ∈ ["ok"; "equal"]) then
    call_err env job_failed (RecordMetadata (bool_decide (rs_Exit s = "equal")))
  else throw (exitErr "snapraid sync" "exit" (rs_Exit s) w).

(** The blocked sync's error also carries the result, which its text renders. *)
Definition Sync (opts : SyncOpts) : E (option err) :=
  if so_DryRun opts then runStream diffArgv dryRun_accept
  else
    before ← runStatus;
    diff ← diffFromStatus before;
    manifest ← ConfirmManifestTargets List diff (so_Manifest opts);
    let result := Evaluate guard diff manifest (so_RemovingDisks opts) in
    if gr_Blocked result && negb (so_Confirm opts) then throw (ESentinel S_GuardBlocked)
    else
      _ ← touchIfNeeded before;
      runStream (syncArgv (anyDiskEmptied diff)) sync_accept.

(** A scrub or a check that found something has still completed. *)
Definition completed_accept (op : string) (s : RunSummary) (w : waited) : E unit :=
  match w with
  | Some (e, _) =>
      if completedNormally w then mret tt
      else throw (wrap ("parity: snapraid " +:+ op +:+ ": exit " +:+ quoted (rs_Exit s) +:+ ": ") e)
  | None => mret tt
  end.
Definition Scrub (pct olderThanDays : Z) : E (option err) :=
  runStream (scrubArgv pct olderThanDays) (completed_accept "scrub").
Definition Check (opts : CheckOpts) : E (option err) := runStream (checkArgv opts) (completed_accept "check").

(** The owners are restored however the fix ended, if it created any file. *)
Definition fix_accept (opts : FixOpts) (s : RunSummary) (w : waited) : E unit :=
  let outcome := fixOutcome (fo_Path opts) s w in
  if bool_decide (rs_RecoveredFiles s = []) then of_res outcome
  else
    a ← call env (RestoreOwnership (rs_RecoveredFiles s) (rs_DataMounts s));
    match ra_failed a with
    | Some e =>
        let restoreErr := wrap "parity: fix restored files but " e in
        throw (EJoin (match outcome with Ok _ => [restoreErr] | Err fixErr => [fixErr; restoreErr] end))
    | None => of_res outcome
    end.
Definition Fix (opts : FixOpts) : E (option err) := runStream (fixArgv opts) (fix_accept opts).

(** [EngineDiffGuard.Evaluate]: [current] is the engine's relocation manifest
    and removing disks, both empty for an engine that has none. *)
Definition DiffGuard_Evaluate (current : res err (list ManifestEntry * gset string)) : E bool :=
  diff ← Diff;
  match current with
  | Err e => throw (wrap "job: maintenance chain: loading relocation manifest: " e)
  | Ok (manifest, removingDisks) =>
      confirmed ← ConfirmManifestTargets List diff manifest;
      mret (gr_Blocked (Evaluate guard diff confirmed removingDisks))
  end.
End engine.
