(* ===== verification/EngineSafety.v ===== *)
(** * What the engine guarantees

    No sync runs past the threshold guard, the nightly pre-check decides as the
    sync does, a sync is a success only when parity was written, and a fix only
    when what was asked for was restored. *)
From S2P Require Export GuardSafety Engine.
Open Scope string_scope.
Open Scope list_scope.
Open Scope Z_scope.

(** ** The engine never syncs past the guard *)
Section engine.
Context `{RangeOrder} (env : environment run run_answer) (guard : GuardConfig).

Definition is_run (r : run) : Prop := ∃ t, r = Run t.
Definition is_record (r : run) : Prop := ∃ b, r = RecordMetadata b.
(** Makes only runs that stream nothing. *)
Abbreviation only_reads := (makes env is_run).

Lemma is_run_Run t : is_run (Run t). Proof. by exists t. Qed.
Ltac reads := body_makes; try apply is_run_Run.

Lemma reads_run_log t tol f u : only_reads (run_log env t tol f u).
Proof. unfold run_log, fail_on. reads. Qed.
Lemma reads_status : only_reads (runStatus env).
Proof. unfold runStatus, of_res. apply makes_bind; [apply reads_run_log|intros ?]. reads. Qed.
Lemma reads_list : only_reads (List env).
Proof. unfold List, of_res. apply makes_bind; [apply reads_run_log|intros ?]. reads. Qed.
Lemma reads_diff before : only_reads (diffFromStatus env before).
Proof.
  unfold diffFromStatus, of_res. apply makes_bind; [|intros ?; apply makes_bind; [apply reads_run_log|intros ?; reads]].
  case_match; [|apply makes_ret]. apply makes_bind; [apply makes_wrapping, reads_list|intros ?; apply makes_ret].
Qed.
Lemma reads_confirm diff manifest : only_reads (ConfirmManifestTargets (List env) diff manifest).
Proof.
  unfold ConfirmManifestTargets. case_match; [reads|]. apply makes_bind; [apply makes_wrapping, reads_list|]. reads.
Qed.
Lemma reads_touch status : only_reads (touchIfNeeded env status).
Proof. unfold touchIfNeeded, fail_on. reads. Qed.

(** The guard let this sync pass: evaluated on the diff of this very run. *)
Definition guard_passed (opts : SyncOpts) (tr : calls run run_answer) : Prop :=
  ∃ before diff manifest tr1 tr2 tr3,
    runStatus env tr = (Ok before, tr1) ∧ diffFromStatus env before tr1 = (Ok diff, tr2) ∧
    ConfirmManifestTargets (List env) diff (so_Manifest opts) tr2 = (Ok manifest, tr3) ∧
    (so_Confirm opts = true ∨ gr_Blocked (Evaluate guard diff manifest (so_RemovingDisks opts)) = false).

Lemma makes_attempt P m : makes env P m → makes env P (attempt m).
Proof.
  intros Hm tr. destruct (Hm tr) as (made&Hs&Hf). exists made. unfold attempt. by destruct (m tr) as [[]].
Qed.

(** A streamed run is one call, and then those of what accepts it. *)
Lemma stream_calls P t accept tr : (∀ s w, makes env P (accept s w)) →
  ∃ a after, snd (runStream env t accept tr) = tr ++ (Stream t, a) :: after ∧ Forall (λ p, P (fst p)) after.
Proof.
  intros Hacc. set (a := env tr (Stream t)). exists a.
  assert (makes env P (_ ← fail_on (ra_newLog a); _ ← fail_on (ra_start a);
    finalErr ← (match ra_log a with
      | Err e => mret (Some (wrap "parity: reading run log: " e))
      | Ok data =>
          match ParseRunSummary data, ra_wait a with
          | Ok summary, w => attempt (accept summary ((λ e, (e, ra_exitCode a)) <$> w))
          | Err _, Some w => mret (Some (runFailedBeforeSummaryErr w data))
          | Err parseErr, None => mret (Some parseErr)
          end
      end);
    mret (match ra_ctx a, finalErr with
      | None, _ => finalErr
      | Some ctxErr, Some e => Some (EWrap "" ctxErr (": " +:+ err_string e))
      | Some ctxErr, None => Some ctxErr
      end))) as Hm.
  { unfold fail_on. body_makes; by apply makes_attempt. }
  destruct (Hm (tr ++ [(Stream t, a)])) as (after&Hs&Hf&_). exists after. split; [|done].
  rewrite cons_middle, app_assoc, <-Hs. done.
Qed.

Lemma makes_sync_accept s w : makes env is_record (sync_accept env s w).
Proof. unfold sync_accept, call_err. body_makes. by eexists. Qed.
Lemma makes_dryRun_accept s w : makes env is_record (dryRun_accept s w).
Proof. unfold dryRun_accept. body_makes. Qed.

(** A streamed run without an error: it started, it was not cancelled, and its
    summary was accepted. *)
Lemma stream_ok t accept tr tr' :
  runStream env t accept tr = (Ok None, tr') →
  let a := env tr (Stream t) in
  ra_newLog a = None ∧ ra_start a = None ∧ ra_ctx a = None ∧
  ∃ data s, ra_log a = Ok data ∧ ParseRunSummary data = Ok s ∧
    accept s ((λ e, (e, ra_exitCode a)) <$> ra_wait a) (tr ++ [(Stream t, a)]) = (Ok tt, tr').
Proof.
  unfold runStream, fail_on, attempt, call, mbind, stM_bind, mret, stM_ret. cbn.
  destruct (ra_newLog _); [done|]. destruct (ra_start _); [done|].
  destruct (ra_log _) as [data|e]; [|by destruct (ra_ctx _)].
  destruct (ParseRunSummary data) as [s|e] eqn:Hp.
  - destruct (accept s ((λ e, (e, ra_exitCode (env tr (Stream t)))) <$> ra_wait (env tr (Stream t))) (tr ++ [(Stream t, env tr (Stream t))])) as [[[]|e] w] eqn:Ha; cbn; destruct (ra_ctx _); intros [= <-].
    split_and!; [done..|]. by exists data, s.
  - destruct (ra_wait _); by destruct (ra_ctx _).
Qed.

(** a sync that reports success wrote parity. Its guard passed; SnapRAID ran
    to its end, exited 0 and summed the run up as "ok" or "equal"; nothing had
    been cancelled; and the files' owners were recorded, afresh unless SnapRAID
    found nothing to do. *)
Theorem sync_success_wrote_parity opts tr tr' :
  so_DryRun opts = false → Sync env guard opts tr = (Ok None, tr') →
  guard_passed opts tr ∧
  ∃ tr0 t a data s b,
    tr' = tr0 ++ [(Stream t, a); (RecordMetadata (bool_decide (rs_Exit s = "equal")), b)] ∧
    ra_start a = None ∧ ra_wait a = None ∧ ra_ctx a = None ∧
    ra_log a = Ok data ∧ ParseRunSummary data = Ok s ∧ rs_Exit s ∈ ["ok"; "equal"] ∧ ra_failed b = None.
Proof.
  intros Hdry. unfold Sync, guard_passed. rewrite Hdry. unfold mbind, stM_bind.
  destruct (runStatus env tr) as [[before|e] tr1] eqn:E1; [|done].
  destruct (diffFromStatus env before tr1) as [[diff|e] tr2] eqn:E2; [|done].
  destruct (ConfirmManifestTargets (List env) diff (so_Manifest opts) tr2) as [[manifest|e] tr3] eqn:E3; [|done].
  destruct (gr_Blocked _ && _) eqn:Hb; [done|].
  destruct (touchIfNeeded env before tr3) as [[[]|e] tr4]; [|done].
  intros (_&Hstart&Hctx&data&s&Hlog&Hp&Hacc)%stream_ok. split.
  - exists before, diff, manifest, tr1, tr2, tr3. split_and!; try done.
    apply andb_false_iff in Hb as [?|Hb]; [by right|]. left. by apply negb_false_iff in Hb.
  - unfold sync_accept, call_err, call, job_failed, mbind, stM_bind, mret, stM_ret in Hacc.
    destruct (bool_decide _ && _) eqn:Hok in Hacc; [|done]. cbn in Hacc.
    destruct (ra_failed _) eqn:Hf in Hacc; [done|]. injection Hacc as <-.
    apply andb_true_iff in Hok as [Hw%bool_decide_eq_true Hexit%bool_decide_eq_true].
    apply fmap_None in Hw. do 6 eexists. rewrite <-app_assoc. cbn.
    split_and!; [done|try done..].
Qed.
End engine.

(** ** The pre-check of the maintenance chain *)
Section precheck.
Context `{RangeOrder}.

Lemma hf_status f : history_free (runStatus (steady f)).
Proof. unfold runStatus, run_log, fail_on, of_res. body_history_free. Qed.
Lemma hf_list f : history_free (List (steady f)).
Proof. unfold List, run_log, fail_on, of_res. body_history_free. Qed.
Lemma hf_diff f before : history_free (diffFromStatus (steady f) before).
Proof.
  unfold diffFromStatus, run_log, fail_on, of_res. apply hf_bind; [|intros ?; body_history_free].
  case_match; [|apply hf_ret]. apply hf_bind; [apply hf_wrapping, hf_list|intros ?; apply hf_ret].
Qed.
Lemma hf_confirm f diff manifest : history_free (ConfirmManifestTargets (List (steady f)) diff manifest).
Proof.
  unfold ConfirmManifestTargets. case_match; [apply hf_ret|].
  apply hf_bind; [apply hf_wrapping, hf_list|intros ?; apply hf_ret].
Qed.

(** C14: the nightly pre-check and the sync decide alike: on a host that answers
    both the same, with the same manifest, the pre-check reports "blocked"
    exactly when the sync would return the guard's error, and fails exactly when
    the sync would fail before its guard. *)
Theorem precheck_agrees_with_sync f g manifest removing tr tr' :
  let opts := mkSyncOpts false false manifest removing in
  let sync := fst (Sync (steady f) g opts tr') in
  match fst (DiffGuard_Evaluate (steady f) g (Ok (manifest, removing)) tr) with
  | Ok true => sync = Err (ESentinel S_GuardBlocked)
  | Ok false => guard_passed (steady f) g opts tr'
  | Err e => sync = Err e
  end.
Proof.
  cbn zeta. unfold DiffGuard_Evaluate, Diff, Sync, guard_passed. cbn [so_DryRun so_Manifest so_Confirm so_RemovingDisks].
  unfold mbind, stM_bind.
  pose proof (hf_status f tr tr') as H1.
  destruct (runStatus (steady f) tr) as [[before|e] tr1], (runStatus (steady f) tr') as [[before'|e'] tr1'];
    cbn in H1; simplify_eq; [|done].
  pose proof (hf_diff f before' tr1 tr1') as H2.
  destruct (diffFromStatus (steady f) before' tr1) as [[diff|e] tr2],
    (diffFromStatus (steady f) before' tr1') as [[diff'|e'] tr2'] eqn:E2; cbn in H2; simplify_eq; [|done].
  pose proof (hf_confirm f diff' manifest tr2 tr2') as H3.
  destruct (ConfirmManifestTargets (List (steady f)) diff' manifest tr2) as [[c|e] tr3],
    (ConfirmManifestTargets (List (steady f)) diff' manifest tr2') as [[c'|e'] tr3'] eqn:E3;
    cbn in H3; simplify_eq; [|done].
  cbn. destruct (gr_Blocked (Evaluate g diff' c' removing)) eqn:Hb; [done|].
  exists before', diff', c', tr1', tr2', tr3'. auto 10.
Qed.
End precheck.

(** ** Outcomes of a fix *)

(** a fix is a success only when the process ended with no error, SnapRAID
    left no block unrestored and, when one file was asked for, it restored one;
    every other end is the error that says which of these failed. *)
Theorem fix_succeeds_only_when_restored path s waited :
  let finished := completedNormally waited = true in
  let restored_none := path ≠ "" ∧ rs_RecoveredFiles s = [] in
  match fixOutcome path s waited with
  | Ok _ => waited = None ∧ rs_Unrecoverable s ≤ 0 ∧ ¬ restored_none
  | Err e =>
      (finished ∧ 0 < rs_Unrecoverable s ∧ err_is e S_FixUnrecoverable = true) ∨
      (waited = None ∧ rs_Unrecoverable s ≤ 0 ∧ restored_none ∧ err_is e S_FixRestoredNothing = true) ∨
      (∃ e0 code, waited = Some (e0, code) ∧ ¬ (finished ∧ 0 < rs_Unrecoverable s) ∧ ∀ t, err_is e t = err_is e0 t)
  end.
Proof.
  unfold fixOutcome. destruct waited as [[e0 code]|]; cbn [negb].
  - destruct (completedNormally _) eqn:Hn; cbn [negb].
    + destruct (Z.ltb_spec 0 (rs_Unrecoverable s)); [by left|]. right. right. exists e0, code.
      split_and!; [done|lia|]. by intros [].
    + right. right. exists e0, code. split_and!; [done|by intros []|by intros []].
  - destruct (Z.ltb_spec 0 (rs_Unrecoverable s)); [by left|].
    destruct (decide (path = "")) as [->|Hp]; cbn; [split_and!; [done..|]; by intros []|].
    rewrite bool_decide_false by done. cbn. case_bool_decide as Hr.
    + right. left. split_and!; done.
    + split_and!; [done..|]. by intros [].
Qed.

(** ** A sync at a concrete host *)
#[local] Existing Instance some_order.
Definition answer (log : string) : run_answer := mkRunAnswer None None None None (Ok log) None None.
Definition quiet_host (r : run) : run_answer :=
  match r with
  | Run ["status"] => answer (write_lines ["data:d1:/mnt/disk1"; "summary:disk_file_count:d1:4"])
  | Run ["diff"] => answer (write_lines ["data:d1:/mnt/disk1"; "scan:add:d1:a"; "summary:added:1"])
  | _ => answer (write_lines ["summary:exit:ok"])
  end.
Lemma sync_success_wrote_parity_witness :
  let opts := mkSyncOpts false false [] ∅ in
  ∃ tr', Sync (steady quiet_host) (mkConfig 0 (b64 0)) opts [] = (Ok None, tr') ∧
    guard_passed (steady quiet_host) (mkConfig 0 (b64 0)) opts [].
Proof.
  destruct (Sync (steady quiet_host) (mkConfig 0 (b64 0)) (mkSyncOpts false false [] ∅) []) as [[[e|]|e] tr'] eqn:Hs;
    try (vm_compute in Hs; discriminate).
  exists tr'. split; [exact Hs|].
  apply (sync_success_wrote_parity (steady quiet_host) (mkConfig 0 (b64 0)) (mkSyncOpts false false [] ∅) [] tr');
    [reflexivity|exact Hs].
Defined.
