(* ===== verification/Chain.v ===== *)
(** * The nightly maintenance chain

    [internal/job/chain.go]: mover, diff and guard, sync, scrub on its weekday,
    and config backup, each started once the one before has finished. The
    scheduler, the guard, the backup and the notifier are interfaces, whose calls
    an environment answers. *)
From S2P Require Export JobTypes Calls.
Open Scope string_scope.
Open Scope list_scope.

Inductive Step := StepMover | StepDiffGuard | StepSync | StepScrub | StepConfigBackup.
#[export] Instance Step_eq_dec : EqDecision Step.
Proof. solve_decision. Defined.

Definition chainOrder : list Step := [StepMover; StepDiffGuard; StepSync; StepScrub; StepConfigBackup].

Inductive chain_event :=
| CSubmit (t : JobType)
| CAwait (id : string)
| CEvaluate
| CNotifyGuardBlocked
| CBackup
| CContextErr
| CNotifyConfigBackupFailed (e : err).

(** What the calls return: an error, the id and the status of a job, and whether
    the guard held the sync back. *)
Record chain_answer := mkChainAnswer {
  ca_err : option err;
  ca_id : string;
  ca_status : Status;
  ca_blocked : bool
}.

Record StepResult := mkStep {
  sr_Step : Step;
  sr_Skipped : bool;
  sr_JobID : string;
  sr_Status : option Status;
  sr_Blocked : bool;
  sr_Err : option err
}.
Record ChainResult := mkChain { cr_Steps : list StepResult; cr_Blocked : bool }.

(** [None] for the [Enabled] map is nil; the step-less interfaces are set or not. *)
Record MaintenanceChain := mkMaintenanceChain {
  mc_Guard : bool;
  mc_Backup : bool;
  mc_Notifier : bool;
  mc_Enabled : option (Step → option bool);
  mc_Weekly : bool
}.

Abbreviation C := (stM (calls chain_event chain_answer) err).
(** A result, whether the guard blocked, and the error. *)
Abbreviation step_end := (StepResult * bool * option err)%type.

Definition skipped (step : Step) : StepResult := mkStep step true "" None false None.
Definition failed_step (step : Step) (id : string) (e : err) : step_end :=
  (mkStep step false id None false (Some e), false, Some e).

Definition enabled (c : MaintenanceChain) (step : Step) : bool :=
  match mc_Enabled c with
  | None => true
  | Some f => default true (f step)
  end.

Section chain.
Context (c : MaintenanceChain) (env : environment chain_event chain_answer).

Definition runJobStep (step : Step) (t : JobType) : C step_end :=
  j ← call env (CSubmit t);
  match ca_err j with
  | Some e =>
      if err_is e S_JobTypeNotRegistered && bool_decide (step = StepMover) then mret (skipped step, false, None)
      else if err_is e S_OnBattery then mret (skipped step, false, None)
      else mret (failed_step step "" (wrap ("job: maintenance chain: starting " +:+ type_string t +:+ ": ") e))
  | None =>
      finished ← call env (CAwait (ca_id j));
      match ca_err finished with
      | Some e =>
          mret (failed_step step (ca_id j) (wrap ("job: maintenance chain: waiting for " +:+ type_string t +:+ ": ") e))
      | None =>
          mret (mkStep step false (ca_id finished) (Some (ca_status finished)) false None, false, None)
      end
  end.

Definition runDiffGuard : C step_end :=
  if negb (mc_Guard c) then
    mret (failed_step StepDiffGuard "" (EOther "job: maintenance chain: no diff guard configured"))
  else
    a ← call env CEvaluate;
    match ca_err a with
    | Some e => mret (failed_step StepDiffGuard "" (wrap "job: maintenance chain: diff + guard: " e))
    | None =>
        _ ← (if ca_blocked a && mc_Notifier c then (_ ← call env CNotifyGuardBlocked; mret tt) else mret tt);
        mret (mkStep StepDiffGuard false "" None (ca_blocked a) None, ca_blocked a, None)
    end.

Definition runConfigBackup : C step_end :=
  if negb (mc_Backup c) then mret (skipped StepConfigBackup, false, None)
  else
    a ← call env CBackup;
    match ca_err a with
    | None => mret (mkStep StepConfigBackup false "" None false None, false, None)
    | Some e =>
        _ ← (if mc_Notifier c then
               ctx ← call env CContextErr;
               match ca_err ctx with
               | None => _ ← call env (CNotifyConfigBackupFailed e); mret tt
               | Some _ => mret tt
               end
             else mret tt);
        mret (failed_step StepConfigBackup "" (wrap "job: maintenance chain: config backup: " e))
    end.

Definition runStep (step : Step) : C step_end :=
  match step with
  | StepMover => runJobStep step TypeMover
  | StepSync => runJobStep step TypeSync
  | StepScrub => runJobStep step TypeScrub
  | StepDiffGuard => runDiffGuard
  | StepConfigBackup => runConfigBackup
  end.

Definition not_tonight (step : Step) : bool :=
  (bool_decide (step = StepScrub) && negb (mc_Weekly c)) || negb (enabled c step).

(** The loop of [Run] over the steps still to do; it returns a result with its
    error, as the code does. *)
Fixpoint run_steps (steps : list Step) (done : list StepResult) : C (ChainResult * option err) :=
  match steps with
  | [] => mret (mkChain done false, None)
  | step :: rest =>
      if not_tonight step then run_steps rest (done ++ [skipped step])
      else
        r ← runStep step;
        let '(sr, blocked, e) := r in
        if (blocked : bool) then mret (mkChain (done ++ [sr]) true, None)
        else match e with
             | Some e => mret (mkChain (done ++ [sr]) false, Some e)
             | None => run_steps rest (done ++ [sr])
             end
  end.

Definition Run_chain : C (ChainResult * option err) := run_steps chainOrder [].
End chain.
