(* ===== verification/ChainSafety.v ===== *)
(** * What the nightly chain guarantees

    A night is its due steps in the fixed order, each begun once the one before
    has ended well, up to the first that stops it; in particular nothing is
    synced on a night whose guard was not passed. *)
From S2P Require Export Chain.
Open Scope string_scope.
Open Scope list_scope.

Section chain.
Context (c : MaintenanceChain).

(** ** The calls of a step *)
Definition job_of (step : Step) : option JobType :=
  match step with
  | StepMover => Some TypeMover
  | StepSync => Some TypeSync
  | StepScrub => Some TypeScrub
  | _ => None
  end.

(** A refusal that skips the step: nothing registered, for the mover, or the host
    on battery. *)
Definition tolerated (step : Step) (e : err) : Prop :=
  (err_is e S_JobTypeNotRegistered = true ∧ step = StepMover) ∨ err_is e S_OnBattery = true.

(** The calls of a step after which the night goes on. *)
Inductive passed : Step → calls chain_event chain_answer → Prop :=
| passed_skipped step t a e : job_of step = Some t → ca_err a = Some e → tolerated step e →
    passed step [(CSubmit t, a)]
| passed_job step t a b : job_of step = Some t → ca_err a = None → ca_err b = None →
    passed step [(CSubmit t, a); (CAwait (ca_id a), b)]
| passed_guard a : ca_err a = None → ca_blocked a = false → passed StepDiffGuard [(CEvaluate, a)]
| passed_no_backup : mc_Backup c = false → passed StepConfigBackup []
| passed_backup a : ca_err a = None → passed StepConfigBackup [(CBackup, a)].

(** The calls of the step that ends the night, with whether it is the guard that
    blocked and the error returned. *)
Inductive stopped : Step → calls chain_event chain_answer → bool → option err → Prop :=
| stopped_refused step t a e pre : job_of step = Some t → ca_err a = Some e → ¬ tolerated step e →
    stopped step [(CSubmit t, a)] false (Some (wrap pre e))
| stopped_lost step t a b e pre : job_of step = Some t → ca_err a = None → ca_err b = Some e →
    stopped step [(CSubmit t, a); (CAwait (ca_id a), b)] false (Some (wrap pre e))
| stopped_no_guard e : mc_Guard c = false → stopped StepDiffGuard [] false (Some e)
| stopped_guard a e pre : ca_err a = Some e → stopped StepDiffGuard [(CEvaluate, a)] false (Some (wrap pre e))
| stopped_blocked a told : ca_err a = None → ca_blocked a = true →
    map fst told = (if mc_Notifier c then [CNotifyGuardBlocked] else []) →
    stopped StepDiffGuard ((CEvaluate, a) :: told) true None
| stopped_backup a e pre told : ca_err a = Some e →
    Forall (λ p, fst p = CContextErr ∨ fst p = CNotifyConfigBackupFailed e) told →
    stopped StepConfigBackup ((CBackup, a) :: told) false (Some (wrap pre e)).

Definition ends (step : Step) (made : calls chain_event chain_answer) (r : res err step_end) : Prop :=
  match r with
  | Ok (sr, false, None) => sr_Step sr = step ∧ passed step made
  | Ok (sr, blocked, e) => sr_Step sr = step ∧ stopped step made blocked e
  | Err _ => False
  end.

Section environment.
Context (env : environment chain_event chain_answer).

Lemma runJobStep_ends step t tr : job_of step = Some t →
  ∃ made, snd (runJobStep env step t tr) = tr ++ made ∧ ends step made (fst (runJobStep env step t tr)).
Proof.
  intros Hj. unfold runJobStep, call, mbind, stM_bind. set (a := env tr (CSubmit t)).
  destruct (ca_err a) as [e|] eqn:Ha.
  - exists [(CSubmit t, a)]. destruct (err_is e S_JobTypeNotRegistered && _) eqn:H1; cbn.
    { apply andb_true_iff in H1 as [H1 H2%bool_decide_eq_true]. split_and!; [done..|].
      apply (passed_skipped step t a e); try done. by left. }
    destruct (err_is e S_OnBattery) eqn:H2; cbn; split_and!; try done.
    + apply (passed_skipped step t a e); try done. by right.
    + apply (stopped_refused step t a e); try done. intros [[Hr Hs]|Hb]; [|congruence].
      rewrite Hr, bool_decide_true in H1; done.
  - set (b := env (tr ++ [(CSubmit t, a)]) (CAwait (ca_id a))).
    exists [(CSubmit t, a); (CAwait (ca_id a), b)].
    destruct (ca_err b) as [e|] eqn:Hb; cbn; (split; [by rewrite <-app_assoc|]); split; try done.
    + by apply (stopped_lost step t a b e).
    + by apply passed_job.
Qed.

Lemma runDiffGuard_ends tr :
  ∃ made, snd (runDiffGuard c env tr) = tr ++ made ∧ ends StepDiffGuard made (fst (runDiffGuard c env tr)).
Proof.
  unfold runDiffGuard, call, mbind, stM_bind. destruct (mc_Guard c) eqn:Hg; cbn.
  2:{ exists []. rewrite app_nil_r. split_and!; try done. by constructor. }
  set (a := env tr CEvaluate). destruct (ca_err a) as [e|] eqn:Ha; cbn.
  { exists [(CEvaluate, a)]. split_and!; try done. by apply (stopped_guard a e). }
  destruct (ca_blocked a) eqn:Hb; cbn.
  2:{ exists [(CEvaluate, a)]. split_and!; try done. by apply passed_guard. }
  destruct (mc_Notifier c) eqn:Hn; cbn.
  - eexists [(CEvaluate, a); (CNotifyGuardBlocked, _)]. split; [by rewrite <-app_assoc|]. split; [done|].
    apply stopped_blocked; try done. by rewrite Hn.
  - exists [(CEvaluate, a)]. split_and!; try done. apply stopped_blocked; try done. by rewrite Hn.
Qed.

Lemma runConfigBackup_ends tr :
  ∃ made, snd (runConfigBackup c env tr) = tr ++ made ∧ ends StepConfigBackup made (fst (runConfigBackup c env tr)).
Proof.
  unfold runConfigBackup, call, mbind, stM_bind. destruct (mc_Backup c) eqn:Hg; cbn.
  2:{ exists []. rewrite app_nil_r. split_and!; try done. by constructor. }
  set (a := env tr CBackup). destruct (ca_err a) as [e|] eqn:Ha; cbn.
  2:{ exists [(CBackup, a)]. split_and!; try done. by apply passed_backup. }
  destruct (mc_Notifier c) eqn:Hn; cbn.
  - destruct (ca_err (env (tr ++ [(CBackup, a)]) CContextErr)); cbn.
    + eexists [(CBackup, a); (CContextErr, _)]. split; [by rewrite <-app_assoc|]. split; [done|].
      apply (stopped_backup a e); [done|]. repeat constructor.
    + eexists [(CBackup, a); (CContextErr, _); (CNotifyConfigBackupFailed e, _)].
      split; [by rewrite <-!app_assoc|]. split; [done|].
      apply (stopped_backup a e); [done|]. constructor; [by left|]. constructor; [by right|done].
  - exists [(CBackup, a)]. split_and!; try done. by apply (stopped_backup a e).
Qed.

Lemma runStep_ends step tr :
  ∃ made, snd (runStep c env step tr) = tr ++ made ∧ ends step made (fst (runStep c env step tr)).
Proof.
  destruct step; cbn [runStep]; first [apply runDiffGuard_ends | apply runConfigBackup_ends | by apply runJobStep_ends].
Qed.

(** ** A night *)
Definition due (steps : list Step) : list Step := filter (λ step, not_tonight c step = false) steps.

(** The blocks of calls of the steps gone through, and of the one that ended the
    night, if any. *)
Inductive night (steps : list Step) : calls chain_event chain_answer → bool → option err → Prop :=
| night_whole blocks : map fst blocks = due steps → Forall (λ b, passed (fst b) (snd b)) blocks →
    night steps (concat (map snd blocks)) false None
| night_cut blocks step rest made blocked e : map fst blocks ++ step :: rest = due steps →
    Forall (λ b, passed (fst b) (snd b)) blocks → stopped step made blocked e →
    night steps (concat (map snd blocks) ++ made) blocked e.

Lemma night_skip step steps made blocked e :
  not_tonight c step = true → night steps made blocked e → night (step :: steps) made blocked e.
Proof.
  intros Hs Hn. assert (due (step :: steps) = due steps) as Hd.
  { unfold due. rewrite filter_cons_False; [done|]. by rewrite Hs. }
  inversion Hn; subst; [apply night_whole|eapply night_cut]; rewrite ?Hd; eauto.
Qed.

Lemma night_step step steps block made blocked e :
  not_tonight c step = false → passed step block → night steps made blocked e →
  night (step :: steps) (block ++ made) blocked e.
Proof.
  intros Hs Hp Hn. assert (due (step :: steps) = step :: due steps) as Hd by (unfold due; by rewrite filter_cons_True).
  inversion Hn as [blocks Hm Hf|blocks step' rest made' blocked' e' Hm Hf Hst]; subst.
  - apply (night_whole _ ((step, block) :: blocks)); [rewrite Hd; cbn; by rewrite Hm|by constructor].
  - rewrite app_assoc. apply (night_cut _ ((step, block) :: blocks) step' rest); [|by constructor|done].
    rewrite Hd, <-Hm. done.
Qed.

Lemma run_steps_night steps : ∀ done tr, ∃ r e made,
  run_steps c env steps done tr = (Ok (r, e), tr ++ made) ∧ night steps made (cr_Blocked r) e ∧
  (∃ new rest, cr_Steps r = done ++ new ∧ map sr_Step new ++ rest = steps ∧
    (cr_Blocked r = false → e = None → rest = [])).
Proof.
  induction steps as [|step steps IH]; intros done tr; cbn [run_steps].
  { exists (mkChain done false), None, []. rewrite app_nil_r. split; [done|]. split; [by apply (night_whole [] [])|].
    exists [], []. by rewrite app_nil_r. }
  destruct (not_tonight c step) eqn:Hs.
  { destruct (IH (done ++ [skipped step]) tr) as (r&e&made&->&Hn&new&rest&Hnew&Hsteps&Hall).
    exists r, e, made. split; [done|]. split; [by apply night_skip|].
    exists (skipped step :: new), rest. rewrite Hnew, <-app_assoc. cbn. by rewrite Hsteps. }
  destruct (runStep_ends step tr) as (block&Htr&He). unfold mbind, stM_bind.
  destruct (runStep c env step tr) as [[[[sr blocked] e]|] w]; cbn in *; [|done]. subst w.
  assert (∀ b o, sr_Step sr = step → stopped step block b o →
    night (step :: steps) block b o ∧ (∃ new rest, done ++ [sr] = done ++ new ∧ map sr_Step new ++ rest = step :: steps ∧
      (b = false → o = None → rest = []))) as Hstop.
  { intros b o Hsr Hst. split.
    - apply (night_cut _ [] step (due steps)); [|done|done]. unfold due. by rewrite filter_cons_True.
    - exists [sr], steps. cbn. rewrite Hsr. split_and!; [done..|]. intros -> ->. inversion Hst. }
  destruct blocked; [|destruct e as [e|]]; cbn in He.
  - destruct He as [Hsr Hst]. assert (e = None) as -> by (by inversion Hst).
    exists (mkChain (done ++ [sr]) true), None, block. split; [done|]. by apply Hstop.
  - exists (mkChain (done ++ [sr]) false), (Some e), block. split; [done|]. apply Hstop; apply He.
  - destruct He as [Hsr Hp]. destruct (IH (done ++ [sr]) (tr ++ block)) as (r&e&made&->&Hn&new&rest&Hnew&Hsteps&Hall).
    exists r, e, (block ++ made). split; [by rewrite app_assoc|]. split; [by apply night_step|].
    exists (sr :: new), rest. rewrite Hnew, <-app_assoc. cbn. by rewrite Hsr, Hsteps.
Qed.


(** ** Nothing is synced past the guard *)
Lemma passed_sync step block a : passed step block → (CSubmit TypeSync, a) ∈ block → step = StepSync.
Proof.
  destruct 1 as [step t a' e Hj|step t a' b Hj| | |]; rewrite ?elem_of_cons, ?elem_of_nil; intros Hin;
    destruct_or?; simplify_eq; by destruct step.
Qed.
Lemma stopped_sync step block b o a : stopped step block b o → (CSubmit TypeSync, a) ∈ block → step = StepSync.
Proof.
  destruct 1 as [step t a' e pre Hj|step t a' b' e pre Hj| | |a' told Ha Hb Htold|a' e pre told Ha Htold];
    rewrite ?elem_of_cons, ?elem_of_nil; intros Hin; destruct_or?; simplify_eq; try by destruct step.
  - apply (list_elem_of_fmap_2 fst) in Hin. change (fmap fst told) with (map fst told) in Hin.
    rewrite Htold in Hin. destruct (mc_Notifier c); set_solver.
  - rewrite Forall_forall in Htold. apply Htold in Hin. cbn in Hin. by destruct Hin.
Qed.

Lemma no_sync blocks a : Forall (λ b, passed (fst b) (snd b)) blocks → StepSync ∉ map fst blocks →
  (CSubmit TypeSync, a) ∉ concat (map snd blocks).
Proof.
  rewrite Forall_forall. intros Hp Hn Hin. apply list_elem_of_In, in_concat in Hin as (l&Hl&Hin).
  apply list_elem_of_In, list_elem_of_fmap in Hl as ((step&l')&->&Hb). apply list_elem_of_In in Hin.
  apply Hn. rewrite list_elem_of_fmap. exists (step, l'). split; [|done]. symmetry. by eapply passed_sync; [apply (Hp _ Hb)|].
Qed.

Lemma filter_split (P : Step → Prop) `{∀ x, Decision (P x)} l : ∀ l1 x l2, filter P l = l1 ++ x :: l2 →
  ∃ m1 m2, l = m1 ++ x :: m2 ∧ filter P m1 = l1.
Proof.
  induction l as [|y l IH]; intros l1 x l2; [by destruct l1|].
  destruct (decide (P y)) as [Hy|Hy]; [rewrite filter_cons_True by done|rewrite filter_cons_False by done].
  - destruct l1 as [|z l1]; intros [= -> Hl]; [by exists [], l|].
    destruct (IH _ _ _ Hl) as (m1&m2&->&Hm). exists (z :: m1), m2. split; [done|]. by rewrite filter_cons_True, Hm.
  - intros Hl. destruct (IH _ _ _ Hl) as (m1&m2&->&Hm). exists (y :: m1), m2. split; [done|].
    by rewrite filter_cons_False.
Qed.

Lemma guard_before_sync l1 l2 : due chainOrder = l1 ++ StepDiffGuard :: l2 → StepSync ∉ l1.
Proof.
  intros (m1&m2&Hm&<-)%filter_split. rewrite list_elem_of_filter. intros [_ Hin].
  repeat (destruct m1 as [|? m1]; [cbn in Hm; simplify_eq; set_solver|cbn in Hm; injection Hm as <- Hm]).
  by destruct m1.
Qed.

Lemma guard_passed_first blocks b2 g : Forall (λ b, passed (fst b) (snd b)) blocks →
  (∃ rest, map fst blocks ++ rest = due chainOrder) → StepDiffGuard ∈ map fst blocks →
  g = concat (map snd blocks) ++ b2 →
  ∃ before a after, g = before ++ (CEvaluate, a) :: after ∧ ca_err a = None ∧ ca_blocked a = false ∧
    ∀ a', (CSubmit TypeSync, a') ∉ before.
Proof.
  intros Hp [rest Hd] Hin ->. apply list_elem_of_fmap in Hin as ([step block]&Hs&Hb). cbn in Hs. subst step.
  apply list_elem_of_split in Hb as (p1&p2&->). apply Forall_app in Hp as [Hp1 [Hp _]%Forall_cons]. cbn in Hp.
  assert (∃ a, block = [(CEvaluate, a)] ∧ ca_err a = None ∧ ca_blocked a = false) as (a&->&Ha&Hb).
  { inversion Hp; simplify_eq; eauto. }
  exists (concat (map snd p1)), a, (concat (map snd p2) ++ b2). split_and!; try done.
  - rewrite map_app, concat_app. cbn. by rewrite <-!app_assoc.
  - intros a'. apply no_sync; [done|]. apply (guard_before_sync _ (map fst p2 ++ rest)).
    rewrite <-Hd, map_app. cbn. by rewrite <-app_assoc.
Qed.

(** on a night whose guard is enabled, nothing is synced unless the guard
    was asked first, answered and let the sync pass. *)
Theorem sync_waits_for_the_guard tr made out a :
  enabled c StepDiffGuard = true → Run_chain c env tr = (out, tr ++ made) → (CSubmit TypeSync, a) ∈ made →
  ∃ before g after, made = before ++ (CEvaluate, g) :: after ∧ ca_err g = None ∧ ca_blocked g = false ∧
    ∀ a', (CSubmit TypeSync, a') ∉ before.
Proof.
  intros Hg Hrun Hin. destruct (run_steps_night chainOrder [] tr) as (r&e&made'&Hr&Hn&_).
  unfold Run_chain in Hrun. rewrite Hr in Hrun. injection Hrun as _ ->%app_inv_head.
  assert (StepDiffGuard ∈ due chainOrder) as Hdue.
  { unfold due. rewrite list_elem_of_filter. split; [|by right; left].
    unfold not_tonight. by rewrite Hg. }
  inversion Hn as [blocks Hm Hp|blocks step rest last blocked e' Hm Hp Hst]; subst.
  - eapply (guard_passed_first blocks []); [done| |by rewrite Hm|by rewrite app_nil_r].
    exists []. by rewrite app_nil_r.
  - destruct (decide (StepDiffGuard ∈ map fst blocks)) as [Hb|Hb].
    { eapply guard_passed_first; [done|by eexists|done|done]. }
    exfalso. assert (StepSync ∈ map fst blocks ++ [step]) as Hs.
    { rewrite elem_of_app, list_elem_of_singleton. apply elem_of_app in Hin as [Hin|Hin].
      - left. destruct (decide (StepSync ∈ map fst blocks)); [done|]. by eapply no_sync in Hin.
      - right. symmetry. by eapply stopped_sync. }
    rewrite <-Hm, elem_of_app in Hdue. destruct Hdue as [?|[<-|Hrest]%elem_of_cons]; [done| |].
    + symmetry in Hm. apply guard_before_sync in Hm. set_solver.
    + apply list_elem_of_split in Hrest as (r1&r2&->).
      assert (due chainOrder = (map fst blocks ++ step :: r1) ++ StepDiffGuard :: r2) as Hd.
      { by rewrite <-Hm, <-app_assoc. }
      apply guard_before_sync in Hd. set_solver.
Qed.
End environment.
End chain.

(** ** A night *)
Definition calm (_ : calls chain_event chain_answer) (e : chain_event) : chain_answer :=
  mkChainAnswer None (match e with CSubmit t => type_string t | CAwait id => id | _ => "" end) StatusSucceeded false.
Definition weekday : MaintenanceChain := mkMaintenanceChain true true true None false.
Lemma sync_waits_for_the_guard_witness :
  ∃ made g, snd (Run_chain weekday calm []) = made ∧ (CEvaluate, g) ∈ made ∧ ca_blocked g = false.
Proof.
  destruct (sync_waits_for_the_guard weekday calm [] (snd (Run_chain weekday calm []))
    (fst (Run_chain weekday calm [])) (calm [] (CSubmit TypeSync))) as (before&g&after&Hm&_&Hb&_).
  - reflexivity.
  - reflexivity.
  - apply list_elem_of_In. vm_compute. auto 10.
  - exists (snd (Run_chain weekday calm [])), g. split; [reflexivity|]. split; [|exact Hb].
    rewrite Hm. apply elem_of_app. right. left.
Defined.
