(* ===== verification/Ups.v ===== *)
(** * Reacting to the UPS

    [internal/job/ups.go]: the daemon gets each notification of upsmon on a
    goroutine of its own, so reactions interleave. A state holds the controller's
    fields, the scheduler's battery hold and, for each goroutine, where it is;
    one step is one goroutine's next action: a lock hold, or the beginning or the
    return of a call. What a call returns comes with the step. *)
From S2P Require Export GoErr.
Open Scope string_scope.
Open Scope list_scope.

Inductive UPSNotifyType := UPSNotifyOnBattery | UPSNotifyOnLine | UPSNotifyLowBattery | UPSNotifyOther (t : string).

(** A goroutine in [HandleNotify]. *)
Inductive where_at :=
(* handleOnBattery *)
| AtOnBattery
| AtPause
| AtPausing (first : bool)
| AtStorePaused (paused : list string)
| AtNotifyOnBattery
(* handleOnLine *)
| AtOnLine
| AtResumeFromBattery (paused : list string)
| AtResume (todo : list string) (errs : list err)
(* handleLowBattery *)
| AtLowBattery
| AtAwaitRun (run : nat)
| AtNotifyLow (run : nat)
| AtShutdown (run : nat)
| AtShuttingDown (run : nat)
| AtPublish (run : nat) (e : option err)
| AtClear (run : nat) (e : option err)
(* returned, with the shutdown run whose result it gives, if it is one *)
| Returned (run : option nat) (e : option err).

Record ups := mkUps {
  (** [batteryActive], [pausedJobIDs] and [shutdownRun]. *)
  u_batteryActive : bool;
  u_pausedJobIDs : list string;
  u_shutdownRun : option nat;
  (** Every shutdown run started, with its result once [done] is closed. *)
  u_runs : list (option (option err));
  (** The scheduler's [batteryHold], and the jobs it was asked to resume. *)
  u_hold : bool;
  u_resumed : list string;
  u_threads : list where_at
}.

Definition ups_start : ups := mkUps false [] None [] false [] [].

(** Whether a shutdown sequence is configured; without a notifier the steps that
    notify do nothing. *)
Record UPSController := mkUpsController { uc_Shutdown : bool }.

(** What the call that returns at a step gives: the jobs paused, or an error. *)
Record ups_answer := mkUpsAnswer { ua_ids : list string; ua_err : option err }.

Definition arrival (t : UPSNotifyType) : where_at :=
  match t with
  | UPSNotifyOnBattery => AtOnBattery
  | UPSNotifyOnLine => AtOnLine
  | UPSNotifyLowBattery => AtLowBattery
  | UPSNotifyOther _ => Returned None None
  end.

Definition set_battery (active : bool) (paused : list string) (s : ups) : ups :=
  mkUps active paused (u_shutdownRun s) (u_runs s) (u_hold s) (u_resumed s) (u_threads s).
Definition set_hold (hold : bool) (s : ups) : ups :=
  mkUps (u_batteryActive s) (u_pausedJobIDs s) (u_shutdownRun s) (u_runs s) hold (u_resumed s) (u_threads s).
Definition set_runs (run : option nat) (runs : list (option (option err))) (s : ups) : ups :=
  mkUps (u_batteryActive s) (u_pausedJobIDs s) run runs (u_hold s) (u_resumed s) (u_threads s).
Definition add_resumed (id : string) (s : ups) : ups :=
  mkUps (u_batteryActive s) (u_pausedJobIDs s) (u_shutdownRun s) (u_runs s) (u_hold s) (u_resumed s ++ [id]) (u_threads s).
Definition goto (i : nat) (p : where_at) (s : ups) : ups :=
  mkUps (u_batteryActive s) (u_pausedJobIDs s) (u_shutdownRun s) (u_runs s) (u_hold s) (u_resumed s)
    (<[i := p]> (u_threads s)).

Definition join_errs (errs : list err) : option err := match errs with [] => None | _ => Some (EJoin errs) end.

Section controller.
Context (c : UPSController).

(** One action of a goroutine at [p]: the state it leaves and where it goes on;
    [None] when it has returned or is blocked. *)
Definition action (a : ups_answer) (p : where_at) (s : ups) : option (ups * where_at) :=
  match p with
  | AtOnBattery =>
      if u_batteryActive s then Some (s, Returned None None)
      else Some (set_battery true (u_pausedJobIDs s) s, AtPause)
  | AtPause => Some (set_hold true s, AtPausing (negb (u_hold s)))
  | AtPausing first => Some (s, AtStorePaused (if first then ua_ids a else []))
  | AtStorePaused paused => Some (set_battery (u_batteryActive s) paused s, AtNotifyOnBattery)
  | AtNotifyOnBattery => Some (s, Returned None None)
  | AtOnLine =>
      if u_batteryActive s then Some (set_battery false [] s, AtResumeFromBattery (u_pausedJobIDs s))
      else Some (s, Returned None None)
  | AtResumeFromBattery paused => Some (set_hold false s, AtResume paused [])
  | AtResume [] errs => Some (s, Returned None (join_errs errs))
  | AtResume (id :: todo) errs =>
      Some (add_resumed id s, AtResume todo (match ua_err a with
        | Some e => errs ++ [wrap ("job: resuming mover job " +:+ id +:+ " after the battery hold: ") e]
        | None => errs
        end))
  | AtLowBattery =>
      match u_shutdownRun s with
      | Some r => Some (s, AtAwaitRun r)
      | None => let r := length (u_runs s) in Some (set_runs (Some r) (u_runs s ++ [None]) s, AtNotifyLow r)
      end
  | AtAwaitRun r =>
      match u_runs s !! r with
      | Some (Some e) => Some (s, Returned (Some r) e)
      | _ => None
      end
  | AtNotifyLow r => Some (s, AtShutdown r)
  | AtShutdown r =>
      if uc_Shutdown c then Some (s, AtShuttingDown r)
      else Some (s, AtPublish r (Some (EOther "job: low battery: no shutdown sequence configured")))
  | AtShuttingDown r => Some (s, AtPublish r (ua_err a))
  | AtPublish r e => Some (set_runs (u_shutdownRun s) (<[r := Some e]> (u_runs s)) s, AtClear r e)
  | AtClear r e =>
      Some (if bool_decide (u_shutdownRun s = Some r) then set_runs None (u_runs s) s else s, Returned (Some r) e)
  | Returned _ _ => None
  end.

(** A step of the [i]th goroutine. *)
Definition advance (i : nat) (a : ups_answer) (s : ups) : option ups :=
  p ← u_threads s !! i;
  '(s', p') ← action a p s;
  Some (goto i p' s').

Definition notify (t : UPSNotifyType) (s : ups) : ups :=
  mkUps (u_batteryActive s) (u_pausedJobIDs s) (u_shutdownRun s) (u_runs s) (u_hold s) (u_resumed s)
    (u_threads s ++ [arrival t]).

Inductive ups_step (s : ups) : ups → Prop :=
| step_notify t : ups_step s (notify t s)
| step_advance i a s' : advance i a s = Some s' → ups_step s s'.

Inductive ups_reachable : ups → Prop :=
| reach_start : ups_reachable ups_start
| reach_step s s' : ups_reachable s → ups_step s s' → ups_reachable s'.
End controller.
