(* ===== verification/UpsSafety.v ===== *)
(** * What the UPS reactions guarantee

    However the notifications interleave, two low-battery shutdowns never run at
    once and every caller gets the result of a run that has ended; every reaction
    ends; and, when notifications are handled one at a time, the battery hold and
    the paused jobs follow the power. *)
From S2P Require Export Ups.
From stdpp Require Import relations.
Open Scope string_scope.
Open Scope list_scope.

Section ups.
Context (c : UPSController).

(** ** The invariant of the shutdown run *)

(** The run a goroutine carries out: it began it and has not yet cleared it. *)
Definition carries (p : where_at) : option nat :=
  match p with
  | AtNotifyLow r | AtShutdown r | AtShuttingDown r | AtPublish r _ | AtClear r _ => Some r
  | _ => None
  end.

Definition at_ok (s : ups) (p : where_at) : Prop :=
  match p with
  | AtAwaitRun r => ∃ o, u_runs s !! r = Some o ∧ (o = None → u_shutdownRun s = Some r)
  | AtNotifyLow r | AtShutdown r | AtShuttingDown r | AtPublish r _ =>
      u_shutdownRun s = Some r ∧ u_runs s !! r = Some None
  | AtClear r e => u_shutdownRun s = Some r ∧ u_runs s !! r = Some (Some e)
  | Returned (Some r) e => u_runs s !! r = Some (Some e)
  | _ => True
  end.

Record ups_inv (s : ups) : Prop := {
  ui_at : ∀ i p, u_threads s !! i = Some p → at_ok s p;
  ui_one : ∀ i j p q r r', u_threads s !! i = Some p → u_threads s !! j = Some q →
    carries p = Some r → carries q = Some r' → i = j;
  ui_carried : ∀ r, u_shutdownRun s = Some r →
    ∃ i p, u_threads s !! i = Some p ∧ carries p = Some r
}.

Lemma carries_run s p r : at_ok s p → carries p = Some r → u_shutdownRun s = Some r.
Proof. destruct p; cbn; intros H Hc; simplify_eq; try done; by destruct H. Qed.

Lemma inv_notify t s : ups_inv s → ups_inv (notify t s).
Proof.
  intros [Hat Hone Hcar].
  assert (∀ i p, u_threads (notify t s) !! i = Some p → u_threads s !! i = Some p ∨ p = arrival t) as Hl.
  { intros i p. cbn. rewrite lookup_app_Some. intros [?|[_ [_ ->]%list_lookup_singleton_Some]]; auto. }
  assert (carries (arrival t) = None) as Hn by (by destruct t).
  split.
  - intros i p [Hp| ->]%Hl; [by apply (Hat i)|]. by destruct t.
  - intros i j p q r r' [Hp| ->]%Hl [Hq| ->]%Hl Hr Hr'; try congruence. by apply (Hone i j p q r r').
  - intros r Hr. destruct (Hcar r Hr) as (i&p&Hp&Hc). exists i, p. split; [|done].
    cbn. apply lookup_app_Some. by left.
Qed.

(** An action that leaves the runs alone and carries what it carried. *)
Lemma inv_goto s s' i p p' : ups_inv s → u_threads s !! i = Some p →
  u_threads s' = u_threads s → u_runs s' = u_runs s → u_shutdownRun s' = u_shutdownRun s →
  carries p' = carries p → at_ok s' p' → ups_inv (goto i p' s').
Proof.
  intros [Hat Hone Hcar] Hp Ht Hr Hsr Hc Hok.
  assert (∀ q, at_ok s q → at_ok (goto i p' s') q) as Hkeep.
  { intros q. unfold at_ok. cbn. by rewrite Hr, Hsr. }
  assert (∀ j q, u_threads (goto i p' s') !! j = Some q →
    at_ok (goto i p' s') q ∧ ∃ q', u_threads s !! j = Some q' ∧ carries q' = carries q) as Hl.
  { intros j q. cbn. rewrite Ht. intros [(->&->&_)|(Hne&Hq)]%list_lookup_insert_Some; [by eauto|].
    split; [by apply Hkeep, (Hat j)|]. by exists q. }
  split.
  - intros j q Hq. by apply (Hl j).
  - intros j k q q' r r' (_&x&Hx&Hxc)%Hl (_&y&Hy&Hyc)%Hl Hqr Hqr'. rewrite <-Hxc in Hqr. rewrite <-Hyc in Hqr'.
    by apply (Hone j k x y r r').
  - cbn. rewrite Hsr. intros r Hrr. destruct (Hcar r Hrr) as (j&q&Hq&Hqr).
    destruct (decide (i = j)) as [<-|Hij].
    + exists i, p'. rewrite Ht, list_lookup_insert_eq by (by eapply lookup_lt_Some). split; [done|]. congruence.
    + exists j, q. by rewrite Ht, list_lookup_insert_ne.
Qed.

(** A run begins when none is in flight. *)
Lemma inv_begin s i p : ups_inv s → u_threads s !! i = Some p → u_shutdownRun s = None →
  ups_inv (goto i (AtNotifyLow (length (u_runs s))) (set_runs (Some (length (u_runs s))) (u_runs s ++ [None]) s)).
Proof.
  intros [Hat Hone Hcar] Hp Hnone. set (r := length (u_runs s)). set (s' := goto _ _ _).
  assert (∀ j q, u_threads s' !! j = Some q → (j = i ∧ q = AtNotifyLow r) ∨ (j ≠ i ∧ u_threads s !! j = Some q)) as Hl.
  { intros j q. cbn. rewrite list_lookup_insert_Some. naive_solver. }
  assert (∀ j q, u_threads s !! j = Some q → carries q = None) as Hnc.
  { intros j q Hq. destruct (carries q) as [r'|] eqn:Hc; [|done]. apply (carries_run s) in Hc; [congruence|by apply (Hat j)]. }
  split.
  - intros j q [[-> ->]|[_ Hq]]%Hl; cbn.
    + split; [done|]. by apply lookup_snoc_Some; right.
    + specialize (Hat j q Hq). pose proof (Hnc j q Hq). destruct q; cbn in *; try done.
      * destruct Hat as (o&Ho&Hoo). exists o. split; [by apply lookup_app_l_Some|]. intros ->. by rewrite Hoo in Hnone.
      * case_match; [|done]. by apply lookup_app_l_Some.
  - intros j k q q' a b [[-> ->]|[_ Hq]]%Hl [[-> ->]|[_ Hq']]%Hl Ha Hb; try done.
    + apply Hnc in Hq'. congruence.
    + apply Hnc in Hq. congruence.
    + apply Hnc in Hq. congruence.
  - intros r' [= <-]. exists i, (AtNotifyLow r). cbn.
    rewrite list_lookup_insert_eq by (by eapply lookup_lt_Some). done.
Qed.

(** The result is published, and the run cleared. *)
Lemma inv_publish s i r e : ups_inv s → u_threads s !! i = Some (AtPublish r e) →
  ups_inv (goto i (AtClear r e) (set_runs (u_shutdownRun s) (<[r := Some e]> (u_runs s)) s)).
Proof.
  intros [Hat Hone Hcar] Hp. destruct (Hat _ _ Hp) as [Hsr Hr]. set (s' := goto _ _ _).
  assert (r < length (u_runs s))%nat as Hlt by (by eapply lookup_lt_Some).
  assert (∀ j q, u_threads s' !! j = Some q → (j = i ∧ q = AtClear r e) ∨ (j ≠ i ∧ u_threads s !! j = Some q)) as Hl.
  { intros j q. cbn. rewrite list_lookup_insert_Some. naive_solver. }
  assert (∀ j q, j ≠ i → u_threads s !! j = Some q → carries q = None) as Hnc.
  { intros j q Hne Hq. destruct (carries q) as [r'|] eqn:Hc; [|done]. destruct Hne. by eapply Hone. }
  split.
  - intros j q [[-> ->]|[Hne Hq]]%Hl; cbn.
    + by rewrite list_lookup_insert_eq.
    + specialize (Hat j q Hq). pose proof (Hnc j q Hne Hq). destruct q; cbn in *; try done.
      * destruct Hat as (o&Ho&Hoo). destruct (decide (run = r)) as [->|Hrr].
        -- exists (Some e). by rewrite list_lookup_insert_eq.
        -- exists o. by rewrite list_lookup_insert_ne.
      * case_match; [|done]. rewrite list_lookup_insert_ne; [done|]. intros ->. congruence.
  - intros j k q q' a b [[-> ->]|[Hj Hq]]%Hl [[-> ->]|[Hk Hq']]%Hl Ha Hb; try done.
    + apply Hnc in Hq'; congruence.
    + apply Hnc in Hq; congruence.
    + apply Hnc in Hq; congruence.
  - cbn. intros r' Hr'. exists i, (AtClear r e). cbn.
    rewrite list_lookup_insert_eq by (by eapply lookup_lt_Some). split; [done|]. cbn. congruence.
Qed.

Lemma inv_clear s i r e : ups_inv s → u_threads s !! i = Some (AtClear r e) →
  ups_inv (goto i (Returned (Some r) e) (set_runs None (u_runs s) s)).
Proof.
  intros [Hat Hone Hcar] Hp. destruct (Hat _ _ Hp) as [Hsr Hr]. set (s' := goto _ _ _).
  assert (∀ j q, u_threads s' !! j = Some q → (j = i ∧ q = Returned (Some r) e) ∨ (j ≠ i ∧ u_threads s !! j = Some q)) as Hl.
  { intros j q. cbn. rewrite list_lookup_insert_Some. naive_solver. }
  assert (∀ j q, j ≠ i → u_threads s !! j = Some q → carries q = None) as Hnc.
  { intros j q Hne Hq. destruct (carries q) as [r'|] eqn:Hc; [|done]. destruct Hne. by eapply Hone. }
  split; [| |done].
  - intros j q [[-> ->]|[Hne Hq]]%Hl; cbn; [done|].
    specialize (Hat j q Hq). pose proof (Hnc j q Hne Hq). destruct q; cbn in *; try done.
    destruct Hat as (o&Ho&Hoo). exists o. split; [done|]. intros ->. specialize (Hoo eq_refl). congruence.
  - intros j k q q' a b [[-> ->]|[Hj Hq]]%Hl [[-> ->]|[Hk Hq']]%Hl Ha Hb; try done.
    apply Hnc in Hq; congruence.
Qed.

Lemma inv_advance i a s s' : ups_inv s → advance c i a s = Some s' → ups_inv s'.
Proof.
  intros Hinv. unfold advance. destruct (u_threads s !! i) as [p|] eqn:Hp; [|done]. cbn.
  destruct (action c a p s) as [[s1 p']|] eqn:Ha; [|done]. cbn. intros [= <-].
  pose proof (ui_at s Hinv i p Hp) as Hok.
  destruct p; cbn in Ha; repeat case_match; simplify_eq;
    try (by (eapply inv_goto; [exact Hinv|exact Hp|..]; cbn in *; auto)).
  - match goal with Hsr : u_shutdownRun _ = Some _ |- _ =>
      destruct (ui_carried _ Hinv _ Hsr) as (j&q&Hq&Hc) end.
    pose proof (ui_at _ Hinv j q Hq) as Hj.
    eapply inv_goto; [exact Hinv|exact Hp|done..|].
    destruct q; cbn in *; simplify_eq; destruct Hj as [_ Hj]; eauto.
  - by apply inv_begin with AtLowBattery.
  - by apply inv_publish.
  - by apply inv_clear.
  - destruct Hok as [Hsr _]. by rewrite bool_decide_true in * by exact Hsr.
Qed.

Lemma ups_reachable_inv s : ups_reachable c s → ups_inv s.
Proof.
  induction 1 as [|s s' _ IH Hs].
  - split; [by intros []|by intros []|done].
  - destruct Hs as [t|i a s' Ha]; [by apply inv_notify|]. by eapply inv_advance.
Qed.

(** C17: low-battery shutdowns never overlap. Whatever the order in which the
    notifications come and their goroutines run, at most one of them is anywhere
    in a shutdown, and a call that has returned from a run gives the result with
    which that run ended. *)
Theorem shutdowns_never_overlap s :
  ups_reachable c s →
  (∀ i j p q r r', u_threads s !! i = Some p → u_threads s !! j = Some q →
     carries p = Some r → carries q = Some r' → i = j ∧ r = r') ∧
  (∀ i r e, u_threads s !! i = Some (Returned (Some r) e) → u_runs s !! r = Some (Some e)).
Proof.
  intros Hinv%ups_reachable_inv. split.
  - intros i j p q r r' Hp Hq Hr Hr'. assert (i = j) as <- by (by eapply ui_one). split; congruence.
  - intros i r e Hi. apply (ui_at s Hinv i _ Hi).
Qed.

(** ** Every reaction ends *)
Definition phases (p : where_at) : nat :=
  match p with
  | AtOnBattery => 5 | AtPause => 4 | AtPausing _ => 3 | AtStorePaused _ => 2 | AtNotifyOnBattery => 1
  | AtOnLine => 3 | AtResumeFromBattery _ => 2 | AtResume _ _ => 1
  | AtLowBattery => 7 | AtNotifyLow _ => 6 | AtShutdown _ => 5 | AtShuttingDown _ => 4
  | AtPublish _ _ => 3 | AtClear _ _ => 2 | AtAwaitRun _ => 1
  | Returned _ _ => 0
  end.
Definition to_resume (p : where_at) : nat := match p with AtResume todo _ => length todo | _ => 0 end.

Fixpoint sum_of (f : where_at → nat) (ts : list where_at) : nat :=
  match ts with [] => 0 | p :: ts' => f p + sum_of f ts' end.
Definition total (f : where_at → nat) (s : ups) : nat := sum_of f (u_threads s).

Lemma sum_of_insert f ts : ∀ i p p', ts !! i = Some p →
  (sum_of f (<[i := p']> ts) + f p = sum_of f ts + f p')%nat.
Proof.
  induction ts as [|q ts IH]; intros [|i] p p' Hp; [done|done|cbn in *; simplify_eq; lia|].
  specialize (IH i p p' Hp). change (<[S i := p']> (q :: ts)) with (q :: <[i := p']> ts). cbn [sum_of]. lia.
Qed.

Lemma total_goto f i p p' (s s' : ups) : u_threads s' = u_threads s → u_threads s !! i = Some p →
  (total f (goto i p' s') + f p = total f s + f p')%nat.
Proof. intros Ht Hp. unfold total. cbn. rewrite Ht. by apply sum_of_insert. Qed.

Definition fewer (x y : nat * nat) : Prop := (x.1 < y.1)%nat ∨ (x.1 = y.1 ∧ x.2 < y.2)%nat.
Lemma fewer_wf : well_founded fewer.
Proof.
  intros [m n]. revert n. induction (Nat.lt_wf_0 m) as [m _ IHm]. intros n. induction (Nat.lt_wf_0 n) as [n _ IHn].
  constructor. intros [m' n'] [Hm|[Hm Hn]]; cbn in *; [by apply IHm|]. subst. by apply IHn.
Qed.

Lemma advance_fewer i a s s' : advance c i a s = Some s' →
  fewer (total phases s', total to_resume s') (total phases s, total to_resume s).
Proof.
  unfold advance. destruct (u_threads s !! i) as [p|] eqn:Hp; [|done]. cbn.
  destruct (action c a p s) as [[s1 p']|] eqn:Ha; [|done]. cbn. intros [= <-].
  assert (u_threads s1 = u_threads s) as Ht by (destruct p; cbn in Ha; repeat case_match; by simplify_eq).
  pose proof (total_goto phases i p p' s s1 Ht Hp). pose proof (total_goto to_resume i p p' s s1 Ht Hp).
  assert (phases p' < phases p ∨ (phases p' = phases p ∧ to_resume p' < to_resume p))%nat as Hd.
  { destruct p; cbn in Ha; repeat case_match; simplify_eq; cbn; lia. }
  unfold fewer. cbn [fst snd]. lia.
Qed.

(** C18: every reaction ends. Without further notifications no interleaving goes
    on for ever, and none gets stuck: as long as some call has not returned, some
    goroutine can go on, whatever the call it is in gives back; in particular the
    run that a caller waits for is always being carried out. *)
Theorem reactions_end :
  well_founded (λ s' s, ∃ i a, advance c i a s = Some s') ∧
  ∀ s, ups_reachable c s → (∃ i p, u_threads s !! i = Some p ∧ ∀ r e, p ≠ Returned r e) →
    ∃ i, ∀ a, is_Some (advance c i a s).
Proof.
  split.
  - eapply (wf_projected fewer (λ s, (total phases s, total to_resume s))); [|apply fewer_wf].
    intros s' s (i&a&Ha). by eapply advance_fewer.
  - intros s Hinv%ups_reachable_inv (i&p&Hp&Hn).
    assert (∀ j q, u_threads s !! j = Some q → (∀ a, is_Some (action c a q s)) → ∀ a, is_Some (advance c j a s)) as Hgo.
    { intros j q Hq Hall a. unfold advance. rewrite Hq. cbn. destruct (Hall a) as [[s1 q'] ->]. by eexists. }
    destruct p; try (exists i; apply (Hgo i _ Hp); intros a; cbn; repeat case_match; by eexists).
    + destruct (ui_at s Hinv i _ Hp) as (o&Ho&Hrun). destruct o as [e|].
      * exists i. apply (Hgo i _ Hp). intros a. cbn. rewrite Ho. by eexists.
      * destruct (ui_carried s Hinv run (Hrun eq_refl)) as (j&q&Hq&Hc). exists j. apply (Hgo j q Hq). intros a.
        destruct q; cbn in *; try done; repeat case_match; by eexists.
    + by destruct (Hn run e).
Qed.

(** ** The battery hold, one notification at a time *)

(** The reaction to [t], from its arrival to its return, with nothing between. *)
Definition reaction (t : UPSNotifyType) (s s' : ups) : Prop :=
  rtc (λ x y, ∃ a, advance c (length (u_threads s)) a x = Some y) (notify t s) s' ∧
  ∃ r e, u_threads s' !! length (u_threads s) = Some (Returned r e).

Inductive serial : ups → Prop :=
| serial_start : serial ups_start
| serial_react t s s' : serial s → reaction t s s' → serial s'.

(** The fields the battery reactions change. *)
Definition battery (s : ups) : bool * bool * list string * list string :=
  (u_batteryActive s, u_hold s, u_pausedJobIDs s, u_resumed s).
Definition settled (s : ups) : Prop :=
  u_hold s = u_batteryActive s ∧ (u_batteryActive s = false → u_pausedJobIDs s = []).

(** Where the reaction to [t] from [s0] can be, and what it has done by then. *)
Definition midway (t : UPSNotifyType) (s0 : ups) (p : where_at) (s : ups) : Prop :=
  match t, p with
  | UPSNotifyOnBattery, AtOnBattery | UPSNotifyOnLine, AtOnLine => battery s = battery s0
  | UPSNotifyOnBattery, AtPause => u_batteryActive s = true ∧ u_hold s = false ∧ u_resumed s = u_resumed s0
  | UPSNotifyOnBattery, AtPausing _ | UPSNotifyOnBattery, AtStorePaused _
  | UPSNotifyOnBattery, AtNotifyOnBattery | UPSNotifyOnBattery, Returned _ _ =>
      u_batteryActive s = true ∧ u_hold s = true ∧ u_resumed s = u_resumed s0
  | UPSNotifyOnLine, AtResumeFromBattery l =>
      u_batteryActive s = false ∧ u_pausedJobIDs s = [] ∧ u_resumed s ++ l = u_resumed s0 ++ u_pausedJobIDs s0
  | UPSNotifyOnLine, AtResume todo _ => u_batteryActive s = false ∧ u_hold s = false ∧ u_pausedJobIDs s = [] ∧
      u_resumed s ++ todo = u_resumed s0 ++ u_pausedJobIDs s0
  | UPSNotifyOnLine, Returned _ _ => u_batteryActive s = false ∧ u_hold s = false ∧ u_pausedJobIDs s = [] ∧
      u_resumed s = u_resumed s0 ++ u_pausedJobIDs s0
  | UPSNotifyLowBattery, (AtLowBattery | AtAwaitRun _ | AtNotifyLow _ | AtShutdown _ | AtShuttingDown _
      | AtPublish _ _ | AtClear _ _ | Returned _ _) => battery s = battery s0
  | UPSNotifyOther _, Returned _ _ => battery s = battery s0
  | _, _ => False
  end.

Lemma midway_step t s0 p a s s1 p' : settled s0 → midway t s0 p s → action c a p s = Some (s1, p') →
  midway t s0 p' s1.
Proof.
  intros [Hh Hp] Hm Ha. unfold midway, battery in *.
  destruct t, p; try done; cbn in Ha; repeat case_match; simplify_eq; cbn; simplify_eq; try (naive_solver congruence);
    destruct_and?; split_and?; try congruence.
  all: try (rewrite <-app_assoc; cbn; congruence).
  all: try (rewrite app_nil_r in *; congruence).
  all: assert (u_pausedJobIDs s0 = []) as Hnone by (by apply Hp); rewrite ?Hnone, ?app_nil_r; congruence.
Qed.

Lemma reaction_midway t s s' : settled s → reaction t s s' → ∃ p, midway t s p s' ∧ ∃ r e, p = Returned r e.
Proof.
  intros Hs [Hr (r&e&Hend)]. set (i := length (u_threads s)) in *.
  assert (∀ x y, rtc (λ x y, ∃ a, advance c i a x = Some y) x y →
    (∃ p, u_threads x !! i = Some p ∧ midway t s p x) → ∃ p, u_threads y !! i = Some p ∧ midway t s p y) as Hall.
  { clear Hr Hend s'. induction 1 as [|x y z (a&Ha) _ IH]; [done|]. intros (p&Hp&Hm). apply IH.
    unfold advance in Ha. rewrite Hp in Ha. cbn in Ha. destruct (action c a p x) as [[s1 p']|] eqn:Hact; [|done].
    cbn in Ha. injection Ha as <-. exists p'. split.
    - cbn. assert (u_threads s1 = u_threads x) as ->
        by (destruct p; cbn in Hact; repeat case_match; by simplify_eq).
      apply list_lookup_insert_eq. by eapply lookup_lt_Some.
    - pose proof (midway_step t s p a x s1 p' Hs Hm Hact) as Hm'. unfold midway, battery in *.
      by destruct t, p'. }
  destruct (Hall _ _ Hr) as (p&Hp&Hm).
  - exists (arrival t). split; [cbn; by apply lookup_snoc_Some; right|]. by destruct t.
  - exists p. split; [done|]. exists r, e. congruence.
Qed.

Lemma serial_settled s : serial s → settled s.
Proof.
  induction 1 as [|t s s' _ IH Hr]; [done|].
  destruct (reaction_midway t s s' IH Hr) as (p&Hm&r&e&->). unfold midway, battery, settled in *.
  destruct IH as [Hh Hp]. destruct t; cbn in Hm; destruct_and?; simplify_eq; split; congruence || intros; try congruence.
  all: match goal with H : ?x = _ |- ?x = _ => rewrite H end; apply Hp; congruence.
Qed.

(** handled one at a time, the notifications keep the battery hold and the
    mover in step with the power. After ONBATT the scheduler holds movers and
    syncs; after ONLINE it no longer does, and every job that was paused has been
    asked to resume, once; no other notification changes any of it. *)
Theorem battery_follows_power t s s' :
  serial s → reaction t s s' →
  match t with
  | UPSNotifyOnBattery => u_batteryActive s' = true ∧ u_hold s' = true ∧ u_resumed s' = u_resumed s
  | UPSNotifyOnLine => u_batteryActive s' = false ∧ u_hold s' = false ∧ u_pausedJobIDs s' = [] ∧
      u_resumed s' = u_resumed s ++ u_pausedJobIDs s
  | _ => battery s' = battery s
  end.
Proof.
  intros Hs%serial_settled Hr. destruct (reaction_midway t s s' Hs Hr) as (p&Hm&r&e&->). by destruct t.
Qed.
End ups.

(** ** Concrete runs *)
Definition plain : UPSController := mkUpsController true.
Definition no_answer : ups_answer := mkUpsAnswer [] None.

(** The goroutines [acts], in this order, each taking one step with its answer. *)
Fixpoint play (acts : list (nat * ups_answer)) (s : ups) : option ups :=
  match acts with
  | [] => Some s
  | (i, a) :: acts' => s' ← advance plain i a s; play acts' s'
  end.

Lemma play_reachable acts : ∀ s s', ups_reachable plain s → play acts s = Some s' → ups_reachable plain s'.
Proof.
  induction acts as [|[i a] acts IH]; intros s s' Hs Hp; cbn in Hp; [by simplify_eq|].
  destruct (advance plain i a s) as [s1|] eqn:Ha; [|done]. apply (IH s1); [|done].
  eapply reach_step; [done|]. by eapply step_advance.
Qed.

(** Power back while the mover is still being paused: ONLINE finds nobody to
    resume, ONBATT then files the mover it paused, and both have returned with
    the power back, the mover stopped and nothing that will resume it. *)
Lemma short_outage_strands_the_mover : ∃ s,
  ups_reachable plain s ∧ u_threads s = [Returned None None; Returned None None] ∧
  u_batteryActive s = false ∧ u_hold s = false ∧ u_pausedJobIDs s = ["mover-1"] ∧ u_resumed s = [].
Proof.
  set (s0 := notify UPSNotifyOnLine (notify UPSNotifyOnBattery ups_start)).
  destruct (play [(0%nat, no_answer); (0%nat, no_answer); (1%nat, no_answer); (1%nat, no_answer); (1%nat, no_answer);
    (0%nat, mkUpsAnswer ["mover-1"] None); (0%nat, no_answer); (0%nat, no_answer)] s0) as [s|] eqn:Hs; [|done].
  exists s. split.
  - eapply play_reachable; [|exact Hs]. eapply reach_step; [eapply reach_step; [apply reach_start|]|]; apply step_notify.
  - vm_compute in Hs. injection Hs as <-. by repeat split.
Qed.

(** Two LOWBATT calls, the second while the first is shutting down. *)
Definition two_low : ups := notify UPSNotifyLowBattery (notify UPSNotifyLowBattery ups_start).
Definition two_low_steps : list (nat * ups_answer) :=
  [(0, no_answer); (0, no_answer); (0, no_answer); (1, no_answer); (0, mkUpsAnswer [] (Some (EOther "busy")));
   (0, no_answer); (1, no_answer); (0, no_answer)]%nat.

Lemma two_low_reachable : ups_reachable plain two_low.
Proof. eapply reach_step; [eapply reach_step; [apply reach_start|]|]; apply step_notify. Qed.

Lemma shutdowns_never_overlap_witness : ∃ s, play two_low_steps two_low = Some s ∧
  u_threads s !! 1%nat = Some (Returned (Some 0%nat) (Some (EOther "busy"))) ∧
  u_runs s !! 0%nat = Some (Some (Some (EOther "busy"))).
Proof.
  destruct (play two_low_steps two_low) as [s|] eqn:Hs; [|vm_compute in Hs; discriminate].
  exists s. split; [reflexivity|].
  assert (u_threads s !! 1%nat = Some (Returned (Some 0%nat) (Some (EOther "busy")))) as H1.
  { vm_compute in Hs. injection Hs as <-. reflexivity. }
  split; [exact H1|].
  apply (proj2 (shutdowns_never_overlap plain s (play_reachable _ _ _ two_low_reachable Hs)) 1%nat _ _ H1).
Defined.

Lemma battery_follows_power_witness : ∃ s, play [(0, no_answer); (0, no_answer);
    (0, mkUpsAnswer ["mover-1"] None); (0, no_answer); (0, no_answer)]%nat (notify UPSNotifyOnBattery ups_start) = Some s ∧
  u_batteryActive s = true ∧ u_hold s = true ∧ u_resumed s = [].
Proof.
  eexists. split; [vm_compute; reflexivity|].
  apply (battery_follows_power plain UPSNotifyOnBattery ups_start); [apply serial_start|]. split.
  - eapply rtc_l; [exists no_answer; reflexivity|]. eapply rtc_l; [exists no_answer; reflexivity|].
    eapply rtc_l; [exists (mkUpsAnswer ["mover-1"] None); reflexivity|].
    eapply rtc_l; [exists no_answer; reflexivity|]. eapply rtc_l; [exists no_answer; reflexivity|]. apply rtc_refl.
  - exists None, None. reflexivity.
Defined.

Lemma reactions_end_witness : ∃ i, ∀ a, is_Some (advance plain i a two_low).
Proof.
  apply (proj2 (reactions_end plain) two_low two_low_reachable).
  exists 0%nat, AtLowBattery. split; [reflexivity|]. discriminate.
Defined.
