(* ===== verification/DiskTree.v ===== *)
(** * Copying and verifying a data disk

    The trees of [internal/disk/upgrade_data.go]: how the entries of the old disk
    are enumerated, copied to the new one with what is lost on the way, and
    compared. A tree maps the path of each entry, relative to the disk's mount
    point, to the entry; a mode holds the permission bits and setuid, setgid and
    sticky. Reading the old disk does not fail here; writing the new one may. *)
From S2P Require Export GoErr PathOrder.
From Stdlib Require Export Ascii.
Open Scope string_scope.
Open Scope list_scope.
Open Scope Z_scope.

Record meta := mkMeta {
  mt_mode : Z;
  mt_uid : Z;
  mt_gid : Z;
  mt_atime : Z;
  mt_mtime : Z;
  mt_xattrs : gmap string string
}.
Inductive entry :=
| EFile (m : meta) (content : string)
| EDir (m : meta)
| ESymlink (m : meta) (target : string)
(** A socket, a FIFO or a device node. *)
| ESpecial (m : meta).
Abbreviation tree := (gmap string entry).

Definition meta_of (e : entry) : meta :=
  match e with EFile m _ | EDir m | ESymlink m _ | ESpecial m => m end.

(** [info.Mode().Perm()] *)
Definition Perm (mode : Z) : Z := Z.land mode 511.

Definition enumerateDataDiskTree (t : tree) : list string := merge_sort path_le (map fst (map_to_list t)).

(** ** Copying an entry *)

(** What [copyXattrs] leaves on the destination. *)
Definition copyXattrs (src dst : gmap string string) : gmap string string := src ∪ dst.

Definition chmod_chown (m : meta) (old : meta) : meta :=
  mkMeta (Perm (mt_mode m)) (mt_uid m) (mt_gid m) (mt_atime old) (mt_mtime old)
    (copyXattrs (mt_xattrs m) (mt_xattrs old)).
Definition fresh_meta (now : Z) : meta := mkMeta 0 0 0 now now ∅.
Definition with_meta (e : entry) (m : meta) : entry :=
  match e with
  | EFile _ c => EFile m c
  | EDir _ => EDir m
  | ESymlink _ t => ESymlink m t
  | ESpecial _ => ESpecial m
  end.

(** [mkdir] finds an entry in the way and goes on with it, whatever it is. *)
Definition copyDataDiskDir (now : Z) (m : meta) (dst : option entry) : entry :=
  match dst with
  | None => EDir (chmod_chown m (fresh_meta now))
  | Some e => with_meta e (chmod_chown m (meta_of e))
  end.

Definition chtimes (m : meta) (e : entry) : entry :=
  let d := meta_of e in
  with_meta e (mkMeta (mt_mode d) (mt_uid d) (mt_gid d) (mt_atime m) (mt_mtime m) (mt_xattrs d)).

(** [None] when the destination cannot be opened for writing as a file; a
    symlink in the way is not followed here. *)
Definition copyDataDiskFile (now : Z) (m : meta) (content : string) (dst : option entry) : option entry :=
  match dst with
  | None => Some (chtimes m (EFile (chmod_chown m (fresh_meta now)) content))
  | Some (EFile d _) => Some (chtimes m (EFile (chmod_chown m d) content))
  | Some _ => None
  end.

(** A directory in the way cannot be removed when it is not empty, and is not
    expected here. *)
Definition copyDataDiskSymlink (now : Z) (m : meta) (target : string) (dst : option entry) : option entry :=
  match dst with
  | Some (EDir _) => None
  | _ => Some (ESymlink (mkMeta 511 (mt_uid m) (mt_gid m) now now ∅) target)
  end.

(** The parent of an entry: [mkdir], [open] and [symlink] need it. *)
Fixpoint parent_go (p : string) : option string :=
  match p with
  | EmptyString => None
  | String c p' =>
      match parent_go p' with
      | Some d => Some (String c d)
      | None => if bool_decide (c = "/"%char) then Some EmptyString else None
      end
  end.
Definition has_parent (p : string) (t : tree) : bool :=
  match parent_go p with
  | None => true
  | Some d => match t !! d with Some (EDir _) => true | _ => false end
  end.

(** [None] is an error of the copy. *)
Definition copyDataDiskEntry (now : Z) (src : entry) (rel : string) (dst : tree) : option tree :=
  match src with
  | ESpecial _ => Some dst
  | _ =>
      if negb (has_parent rel dst) then None
      else
        match (match src with
               | ESymlink m target => copyDataDiskSymlink now m target (dst !! rel)
               | EDir m => Some (copyDataDiskDir now m (dst !! rel))
               | EFile m content => copyDataDiskFile now m content (dst !! rel)
               | ESpecial _ => None
               end) with
        | Some e => Some (<[rel := e]> dst)
        | None => None
        end
  end.

(** ** Verifying *)
Definition dataDiskUpgradeFilesystemOwnedEntries : list string := ["lost+found"].

Definition is_dir (e : entry) : bool := match e with EDir _ => true | _ => false end.

Section verify.
(** What opening anything but a regular file reads, if it can be read, and
    [crypto/sha256]. *)
Context (follow : entry → option string) (sha256 : string → string).

Definition size_of (e : entry) : Z :=
  match e with
  | EFile _ c => Z.of_nat (String.length c)
  | ESymlink _ t => Z.of_nat (String.length t)
  | EDir _ | ESpecial _ => 0
  end.
Definition content_of (e : entry) : option string := match e with EFile _ c => Some c | _ => follow e end.
Definition filesSHA256Equal (a b : entry) : bool :=
  match content_of a, content_of b with Some x, Some y => bool_decide (sha256 x = sha256 y) | _, _ => false end.

(** Whether an entry passes. *)
Definition verifyDataDiskEntry (checksum : bool) (src : entry) (dst : option entry) : bool :=
  match dst with
  | None => false
  | Some dst =>
      match src with
      | ESymlink _ target => match dst with ESymlink _ target' => bool_decide (target = target') | _ => false end
      | _ =>
          let s := meta_of src in let d := meta_of dst in
          bool_decide (is_dir src = is_dir dst) && (Perm (mt_mode s) =? Perm (mt_mode d)) &&
          (mt_uid s =? mt_uid d) && (mt_gid s =? mt_gid d) &&
          (is_dir src ||
           ((size_of src =? size_of dst) && (mt_mtime s =? mt_mtime d) &&
            (negb checksum || filesSHA256Equal src dst)))
      end
  end.

(** The comparison of the whole trees, when it is not stopped. *)
Definition unexpected (src dst : tree) : list string :=
  filter (λ rel, src !! rel = None ∧ rel ∉ dataDiskUpgradeFilesystemOwnedEntries) (enumerateDataDiskTree dst).
Definition verified (checksum : bool) (src dst : tree) : Prop :=
  unexpected src dst = [] ∧
  Forall (λ rel, ∀ e, src !! rel = Some e → verifyDataDiskEntry checksum e (dst !! rel) = true)
    (enumerateDataDiskTree src).
End verify.
