(* ===== verification/DiskUpgrade.v ===== *)
(** * Replacing a data disk by a larger one

    [RunDataDiskUpgrade] of [internal/disk/upgrade_data.go]: format the new disk,
    copy the old one onto it, verify the copy, swap the mounts, require a clean
    diff and only then release the old disk, each phase checkpointed. What it asks
    of the host and of its caller are calls, each recorded with the tree the new
    disk holds at that moment. *)
From S2P Require Export DiskTree DiskCheckpoint Calls.
Open Scope string_scope.
Open Scope list_scope.
Open Scope Z_scope.

(** A mount by its place and the UUID of its filesystem, as far as the calls go. *)
Record Mount := mkMount { m_Where : string; m_UUID : string }.

Inductive upgrade_call :=
| UFormat
| UMount (m : Mount)
| UUnmount (where_ : string)
| UConfirmMounted (where_ uuid : string)
| UStagingMounted
| UCheckpoint (cp : DataDiskUpgradeCheckpoint)
| UStopRequested
| UCopyEntry (rel : string)
| UTimes (rel : string)
| UDiff
| URelease.

(** The error of a call, and what else it returns: the UUID of a formatted disk,
    a yes or no, the counts of a diff, the time, and what a failed write left. *)
Record upgrade_answer := mkUAnswer {
  ua_err : option err;
  ua_uuid : string;
  ua_yes : bool;
  ua_removed : Z;
  ua_updated : Z;
  ua_now : Z;
  ua_left : tree
}.

Record DataDiskUpgradeSpec := mkSpec {
  sp_OldWhere : string;
  sp_Staging : string;
  sp_VerifyChecksum : bool
}.
Record DataDiskUpgradeResult := mkUResult { ur_Interrupted : bool; ur_NewMount : option Mount; ur_Released : bool }.

Abbreviation event := (upgrade_call * tree)%type.
Record upgrade_world := mkUWorld { uw_calls : calls event upgrade_answer; uw_new : tree }.
Abbreviation U := (stM upgrade_world err).

Definition uwrap (pre : string) (o : option err) : U unit :=
  match o with Some e => throw (wrap pre e) | None => mret tt end.

Section upgrade.
Context (follow : entry → option string) (sha256 : string → string).
Context (env : environment event upgrade_answer) (spec : DataDiskUpgradeSpec) (old : tree).

Definition ask (c : upgrade_call) : U upgrade_answer := λ w,
  let a := env (uw_calls w) (c, uw_new w) in
  (Ok a, mkUWorld (uw_calls w ++ [((c, uw_new w), a)]) (uw_new w)).
Definition set_new (t : tree) : U unit := modify (λ w, mkUWorld (uw_calls w) t).
Definition the_new : U tree := w ← get; mret (uw_new w).

(** [hooks.checkpoint]: [hooks.newUUID] fills a checkpoint that has none. *)
Definition checkpoint (newUUID : string) (cp : DataDiskUpgradeCheckpoint) : U (option err) :=
  a ← ask (UCheckpoint (mkCheckpoint (cp_Phase cp) (cp_LastPath cp)
       (if bool_decide (cp_NewUUID cp = "") then newUUID else cp_NewUUID cp)));
  mret (ua_err a).

(** [ctx.Err() != nil || hooks.stopRequested()] *)
Definition stop_requested : U bool := a ← ask UStopRequested; mret (ua_yes a).

(** ** Copying *)
Definition copy_one (rel : string) : U (option err) :=
  a ← ask (UCopyEntry rel);
  match ua_err a with
  | Some e => _ ← set_new (ua_left a); mret (Some e)
  | None =>
      dst ← the_new;
      match old !! rel with
      | None => mret (Some (EOther ("lstat: " +:+ rel)))
      | Some src =>
          match copyDataDiskEntry (ua_now a) src rel dst with
          | Some dst' => _ ← set_new dst'; mret None
          | None => mret (Some (EOther ("write: " +:+ rel)))
          end
      end
  end.

Definition dataDiskUpgradeCheckpointInterval : Z := 256.

(** How the copy ended: stopped, the last path copied, its error. *)
Abbreviation copy_end := (bool * string * option err)%type.

Fixpoint copy_loop (newUUID resumeAfter : string) (rels : list string) (lastPath : string) (copied : Z) : U copy_end :=
  match rels with
  | [] => mret (false, lastPath, None)
  | rel :: rest =>
      if negb (bool_decide (resumeAfter = "")) && String.leb rel resumeAfter
      then copy_loop newUUID resumeAfter rest lastPath copied
      else
        stop ← stop_requested;
        if (stop : bool) then mret (true, lastPath, None)
        else
          failed ← copy_one rel;
          match failed with
          | Some e => mret (false, lastPath, Some (wrap ("disk: copy " +:+ rel +:+ ": ") e))
          | None =>
              let copied := wrap64 (copied + 1) in
              if Z.rem copied dataDiskUpgradeCheckpointInterval =? 0 then
                saved ← checkpoint newUUID (mkCheckpoint DataDiskUpgradePhaseCopying rel "");
                match saved with
                | Some e => mret (false, rel, Some e)
                | None => copy_loop newUUID resumeAfter rest rel copied
                end
              else copy_loop newUUID resumeAfter rest rel copied
          end
  end.

Fixpoint times_loop (rels : list string) : U (option err) :=
  match rels with
  | [] => mret None
  | rel :: rest =>
      match old !! rel with
      | Some (EDir m) =>
          a ← ask (UTimes rel);
          dst ← the_new;
          match ua_err a, dst !! rel with
          | Some e, _ => mret (Some (wrap ("disk: set timestamps on " +:+ rel +:+ ": ") e))
          | None, None => mret (Some (wrap ("disk: set timestamps on " +:+ rel +:+ ": ") (EOther "no such file")))
          | None, Some e => _ ← set_new (<[rel := chtimes m e]> dst); times_loop rest
          end
      | _ => times_loop rest
      end
  end.

Definition copyDataDiskTree (newUUID resumeAfter : string) : U copy_end :=
  let rels := enumerateDataDiskTree old in
  r ← copy_loop newUUID resumeAfter rels resumeAfter 0;
  let '(interrupted, lastPath, failed) := r in
  match failed with
  | Some e => mret r
  | None =>
      if (interrupted : bool) then mret r
      else
        bad ← times_loop rels;
        mret (false, lastPath, bad)
  end.

(** ** Verifying *)
Fixpoint verify_loop (rels : list string) : U (bool * option err) :=
  match rels with
  | [] => mret (false, None)
  | rel :: rest =>
      stop ← stop_requested;
      if (stop : bool) then mret (true, None)
      else
        dst ← the_new;
        match old !! rel with
        | None => mret (false, Some (wrap ("disk: verify " +:+ rel +:+ ": ") (EOther "lstat")))
        | Some e =>
            if verifyDataDiskEntry follow sha256 (sp_VerifyChecksum spec) e (dst !! rel) then verify_loop rest
            else mret (false, Some (wrap ("disk: verify " +:+ rel +:+ ": ") (ESentinel S_DataDiskUpgradeMismatch)))
        end
  end.

Definition verifyDataDiskTree : U (bool * option err) :=
  dst ← the_new;
  match unexpected old dst with
  | rel :: _ => mret (false, Some (wrap "" (ESentinel S_DataDiskUpgradeMismatch)))
  | [] => verify_loop (enumerateDataDiskTree old)
  end.

(** ** The phases *)
Definition stagingMountUnit (uuid : string) : Mount := mkMount (sp_Staging spec) uuid.

Definition ensureStagingMounted (uuid : string) : U unit :=
  a ← ask UStagingMounted;
  _ ← uwrap "disk: checking whether staging path is mounted: " (ua_err a);
  if ua_yes a then mret tt
  else
    m ← ask (UMount (stagingMountUnit uuid));
    _ ← uwrap "disk: re-mount staging path on resume: " (ua_err m);
    b ← ask UStagingMounted;
    _ ← uwrap "disk: checking whether staging path is mounted after re-mount: " (ua_err b);
    if ua_yes b then mret tt
    else throw (EOther "disk: staging path is still not mounted after a re-mount attempt; refusing to resume onto it").

(** A phase: the end of the run, or the phase to go on with. *)
Inductive phase_end := Finished (r : DataDiskUpgradeResult) | GoOn (cp : DataDiskUpgradeCheckpoint).

Definition interrupted_with (m : option Mount) : DataDiskUpgradeResult := mkUResult true m false.
Definition orthrow (o : option err) : U unit := match o with Some e => throw e | None => mret tt end.

(** [cp = ...Checkpoint{Phase: p}; hooks.checkpoint(cp)], and the stop after it. *)
Definition advance_to (newUUID p : string) (m : option Mount) : U phase_end :=
  saved ← checkpoint newUUID (mkCheckpoint p "" "");
  _ ← orthrow saved;
  stop ← stop_requested;
  mret (if (stop : bool) then Finished (interrupted_with m) else GoOn (mkCheckpoint p "" "")).

(** [formatNewDataDisk] gives a fresh, empty filesystem and its UUID. *)
Definition formatting : U (string * phase_end) :=
  f ← ask UFormat;
  _ ← orthrow (ua_err f);
  let uuid := ua_uuid f in
  _ ← set_new (ua_left f);
  m ← ask (UMount (stagingMountUnit uuid));
  _ ← uwrap "disk: mount new disk at staging path: " (ua_err m);
  c ← ask (UConfirmMounted (sp_Staging spec) uuid);
  _ ← uwrap "disk: confirm the new disk at staging path: " (ua_err c);
  e ← advance_to uuid DataDiskUpgradePhaseCopying None;
  mret (uuid, e).

Definition resuming (cp : DataDiskUpgradeCheckpoint) : U unit :=
  if bool_decide (cp_NewUUID cp = "") then
    throw (EOther ("disk: data disk upgrade checkpoint at " +:+ cp_Phase cp +:+ " carries no new-disk filesystem UUID"))
  else if bool_decide (cp_Phase cp ∈ [DataDiskUpgradePhaseCopying; DataDiskUpgradePhaseVerifying])
  then ensureStagingMounted (cp_NewUUID cp) else mret tt.

Definition copying (newUUID : string) (cp : DataDiskUpgradeCheckpoint) : U phase_end :=
  r ← copyDataDiskTree newUUID (cp_LastPath cp);
  let '(interrupted, lastPath, failed) := r in
  match failed with
  | Some e =>
      saved ← checkpoint newUUID (mkCheckpoint DataDiskUpgradePhaseCopying lastPath "");
      throw (match saved with Some c => EJoin [e; c] | None => e end)
  | None =>
      if (interrupted : bool) then
        saved ← checkpoint newUUID (mkCheckpoint DataDiskUpgradePhaseCopying lastPath "");
        _ ← orthrow saved;
        mret (Finished (interrupted_with None))
      else advance_to newUUID DataDiskUpgradePhaseVerifying None
  end.

Definition verifying (newUUID : string) : U phase_end :=
  r ← verifyDataDiskTree;
  let (interrupted, failed) := (r : bool * option err) in
  _ ← orthrow failed;
  if interrupted then mret (Finished (interrupted_with None))
  else advance_to newUUID DataDiskUpgradePhaseRemounting None.

Definition remounting (newUUID : string) : U phase_end :=
  let newMount := mkMount (sp_OldWhere spec) newUUID in
  a ← ask (UUnmount (sp_Staging spec));
  _ ← uwrap "disk: unmount staging path: " (ua_err a);
  b ← ask (UUnmount (sp_OldWhere spec));
  _ ← uwrap "disk: unmount old disk: " (ua_err b);
  c ← ask (UMount newMount);
  _ ← uwrap ("disk: mount new disk at " +:+ sp_OldWhere spec +:+ ": ") (ua_err c);
  d ← ask (UConfirmMounted (sp_OldWhere spec) newUUID);
  _ ← uwrap ("disk: confirm the new disk at " +:+ sp_OldWhere spec +:+ ": ") (ua_err d);
  advance_to newUUID DataDiskUpgradePhaseDiffing (Some newMount).

Definition diffing (newUUID : string) : U phase_end :=
  let newMount := mkMount (sp_OldWhere spec) newUUID in
  a ← ask (UConfirmMounted (sp_OldWhere spec) newUUID);
  _ ← uwrap ("disk: confirm the new disk at " +:+ sp_OldWhere spec +:+ " before snapraid diff: ") (ua_err a);
  d ← ask UDiff;
  _ ← uwrap "disk: check snapraid diff before releasing old disk: " (ua_err d);
  if negb (ua_removed d =? 0) || negb (ua_updated d =? 0) then mret (Finished (mkUResult false (Some newMount) false))
  else advance_to newUUID DataDiskUpgradePhaseReleasing (Some newMount).

Definition releasing (newUUID : string) : U phase_end :=
  a ← ask URelease;
  _ ← uwrap "disk: release old data disk: " (ua_err a);
  mret (Finished (mkUResult false (Some (mkMount (sp_OldWhere spec) newUUID)) true)).

(** [if cp.Phase == p { ... }] *)
Definition in_phase (p : string) (body : DataDiskUpgradeCheckpoint → U phase_end)
    (next : DataDiskUpgradeCheckpoint → U DataDiskUpgradeResult) (cp : DataDiskUpgradeCheckpoint) :
    U DataDiskUpgradeResult :=
  if bool_decide (cp_Phase cp = p) then
    e ← body cp;
    match e with Finished r => mret r | GoOn cp' => next cp' end
  else next cp.

Definition from_copying (newUUID : string) : DataDiskUpgradeCheckpoint → U DataDiskUpgradeResult :=
  in_phase DataDiskUpgradePhaseCopying (copying newUUID)
  (in_phase DataDiskUpgradePhaseVerifying (λ _, verifying newUUID)
  (in_phase DataDiskUpgradePhaseRemounting (λ _, remounting newUUID)
  (in_phase DataDiskUpgradePhaseDiffing (λ _, diffing newUUID)
  (in_phase DataDiskUpgradePhaseReleasing (λ _, releasing newUUID)
  (λ _, mret (mkUResult false (Some (mkMount (sp_OldWhere spec) newUUID)) false)))))).

(** [initial] is the checkpoint the run resumes from; [None] when there is none. *)
Definition RunDataDiskUpgrade (initial : option bytes) : U DataDiskUpgradeResult :=
  cp0 ← (match initial with
         | None => mret (mkCheckpoint "" "" "")
         | Some data => match unmarshal_checkpoint data with
                        | Ok cp => mret cp
                        | Err e => throw (wrap "disk: decode data disk upgrade checkpoint: " e)
                        end
         end);
  if bool_decide (cp_Phase cp0 = "") || bool_decide (cp_Phase cp0 = DataDiskUpgradePhaseFormatting) then
    r ← formatting;
    let '(newUUID, e) := r in
    match e with Finished r => mret r | GoOn cp => from_copying newUUID cp end
  else
    _ ← resuming cp0;
    from_copying (cp_NewUUID cp0) cp0.
End upgrade.
