(* ===== verification/DiskUpgradeSafety.v ===== *)
(** * What a data-disk upgrade guarantees

    Across all its runs, resumed from whatever checkpoint and cut short at
    whatever moment: the old disk is unmounted only once its copy has been
    verified, and released only once the new disk has taken its place and a diff
    has come back clean. *)
From S2P Require Export DiskUpgrade.
Open Scope string_scope.
Open Scope list_scope.
Open Scope Z_scope.

Section upgrade.
Context (follow : entry → option string) (sha256 : string → string).
Context (spec : DataDiskUpgradeSpec).

Abbreviation history_t := (calls event upgrade_answer).

(** ** What each call needs to come after *)
Definition attempted (past : history_t) (p : string) : Prop :=
  ∃ cp t a, ((UCheckpoint cp, t), a) ∈ past ∧ cp_Phase cp = p.
Definition unmounted (past : history_t) : Prop :=
  ∃ t a, ((UUnmount (sp_OldWhere spec), t), a) ∈ past ∧ ua_err a = None.
Definition in_place (past : history_t) : Prop :=
  ∃ u t a, ((UMount (mkMount (sp_OldWhere spec) u), t), a) ∈ past ∧ ua_err a = None.
Definition clean_diff (past : history_t) : Prop :=
  ∃ t a, ((UDiff, t), a) ∈ past ∧ ua_err a = None ∧ ua_removed a = 0 ∧ ua_updated a = 0.

Definition needs (old : tree) (past : history_t) (e : event) : Prop :=
  match e.1 with
  | UUnmount w => w = sp_OldWhere spec → attempted past DataDiskUpgradePhaseRemounting
  | UMount m => m_Where m = sp_OldWhere spec → unmounted past
  | UDiff => attempted past DataDiskUpgradePhaseDiffing
  | URelease => attempted past DataDiskUpgradePhaseReleasing
  | UCheckpoint cp =>
      (cp_Phase cp = DataDiskUpgradePhaseRemounting → verified follow sha256 (sp_VerifyChecksum spec) old e.2) ∧
      (cp_Phase cp = DataDiskUpgradePhaseDiffing → in_place past) ∧
      (cp_Phase cp = DataDiskUpgradePhaseReleasing → clean_diff past)
  | _ => True
  end.

Definition ordered (h : history_t) : Prop :=
  ∀ past e a later, h = past ++ (e, a) :: later → ∃ old, needs old past e.

Lemma ordered_prefix h h' : h' `prefix_of` h → ordered h → ordered h'.
Proof. intros [k ->] Ho past e a later ->. apply (Ho past e a (later ++ k)). by rewrite <-app_assoc. Qed.

Lemma ordered_snoc h e a old : ordered h → needs old h e → ordered (h ++ [(e, a)]).
Proof.
  intros Ho Hn past e' a' later Heq. destruct later as [|x later _] using rev_ind.
  - apply app_inj_tail in Heq as [-> [= -> ->]]. by exists old.
  - rewrite app_comm_cons, app_assoc in Heq. apply app_inj_tail in Heq as [-> _]. by eapply Ho.
Qed.

(** ** Bodies that keep the order *)
Section run.
Context (env : environment event upgrade_answer) (old : tree).

Definition keeps {X} (P : upgrade_world → Prop) (m : U X) (Q : res err X → upgrade_world → Prop) : Prop :=
  ∀ w, ordered (uw_calls w) → P w →
    ordered (uw_calls (snd (m w))) ∧ uw_calls w `prefix_of` uw_calls (snd (m w)) ∧ Q (fst (m w)) (snd (m w)).

Lemma keeps_ret {X} (P : upgrade_world → Prop) (x : X) (Q : res err X → upgrade_world → Prop) :
  (∀ w, P w → Q (Ok x) w) → keeps P (mret x) Q.
Proof. intros HQ w Ho HP. split_and!; [done| done|]. by apply HQ. Qed.

Lemma keeps_throw {X} (P : upgrade_world → Prop) e (Q : res err X → upgrade_world → Prop) :
  (∀ w, P w → Q (Err e) w) → keeps P (throw e) Q.
Proof. intros HQ w Ho HP. split_and!; [done| done|]. by apply HQ. Qed.

Lemma keeps_bind {X Y} P (m : U X) (k : X → U Y) (R : X → upgrade_world → Prop) Q :
  keeps P m (λ r w, match r with Ok x => R x w | Err e => Q (Err e) w end) →
  (∀ x, keeps (R x) (k x) Q) → keeps P (mbind k m) Q.
Proof.
  intros Hm Hk w Ho HP. destruct (Hm w Ho HP) as (Ho1&Hp1&HQ1). unfold mbind, stM_bind.
  destruct (m w) as [[x|e] w1]; cbn in *; [|done].
  destruct (Hk x w1 Ho1 HQ1) as (Ho2&Hp2&HQ2). split_and!; [done| |done]. by etrans.
Qed.

Lemma keeps_weaken {X} (P P' : upgrade_world → Prop) (m : U X) (Q Q' : res err X → upgrade_world → Prop) :
  keeps P' m Q' → (∀ w, P w → P' w) → (∀ r w, Q' r w → Q r w) → keeps P m Q.
Proof. intros Hm HP HQ w Ho Hw. destruct (Hm w Ho (HP w Hw)) as (?&?&?). auto. Qed.

Lemma keeps_ask P c :
  (∀ w, P w → needs old (uw_calls w) (c, uw_new w)) →
  keeps P (ask env c) (λ r w', ∃ w a, r = Ok a ∧ P w ∧
    w' = mkUWorld (uw_calls w ++ [((c, uw_new w), a)]) (uw_new w)).
Proof.
  intros Hn w Ho HP. cbn. split_and!.
  - by apply ordered_snoc with old; [|apply Hn].
  - by eexists.
  - by exists w, (env (uw_calls w) (c, uw_new w)).
Qed.

(** What has happened stays so. *)
Class Lasting (P : upgrade_world → Prop) : Prop := {
  lasting : ∀ w h t, P w → uw_calls w `prefix_of` h → P (mkUWorld h t)
}.
#[local] Instance lasting_true : Lasting (λ _, True). Proof. done. Qed.
#[local] Instance lasting_attempted p : Lasting (λ w, attempted (uw_calls w) p).
Proof.
  split. intros w h t (cp&s&a&Hin&Hp) [k ->]. exists cp, s, a. cbn. rewrite elem_of_app. auto.
Qed.
#[local] Instance lasting_unmounted : Lasting (λ w, unmounted (uw_calls w)).
Proof. split. intros w h t (s&a&Hin&Hp) [k ->]. exists s, a. cbn. rewrite elem_of_app. auto. Qed.
#[local] Instance lasting_in_place : Lasting (λ w, in_place (uw_calls w)).
Proof. split. intros w h t (u&s&a&Hin&Hp) [k ->]. exists u, s, a. cbn. rewrite elem_of_app. auto. Qed.
#[local] Instance lasting_clean_diff : Lasting (λ w, clean_diff (uw_calls w)).
Proof. split. intros w h t (s&a&Hin&Hp) [k ->]. exists s, a. cbn. rewrite elem_of_app. auto. Qed.

(** A call that needs nothing, after which what lasted still holds. *)
Lemma keeps_free P c : Lasting P → (∀ h t, needs old h (c, t)) →
  keeps P (ask env c) (λ _, P).
Proof.
  intros HL Hn. eapply keeps_weaken; [by apply keeps_ask with (P := P)|done|].
  intros r w' (w&a&->&HP&->). eapply lasting; [done|]. by eexists.
Qed.

Definition quiet_call (c : upgrade_call) : Prop := ∀ h t, needs old h (c, t).

Lemma keeps_set_new P t : Lasting P → keeps P (set_new t) (λ _, P).
Proof. intros HL w Ho HP. split_and!; [done|done|]. by apply (lasting w). Qed.

Lemma keeps_the_new P : keeps P the_new (λ r w, ∃ t, r = Ok t ∧ t = uw_new w ∧ P w).
Proof. intros w Ho HP. split_and!; [done|done|]. cbn. eauto. Qed.

(** A body none of whose calls needs anything. *)
Definition harmless {X} (m : U X) : Prop := ∀ P, Lasting P → keeps P m (λ _, P).

Lemma harmless_ret {X} (x : X) : harmless (mret x).
Proof. intros P HL. by apply keeps_ret. Qed.
Lemma harmless_throw {X} e : harmless (throw e : U X).
Proof. intros P HL. by apply keeps_throw. Qed.
Lemma harmless_bind {X Y} (m : U X) (k : X → U Y) : harmless m → (∀ x, harmless (k x)) → harmless (mbind k m).
Proof.
  intros Hm Hk P HL. apply keeps_bind with (λ _, P); [|intros x; by apply Hk].
  eapply keeps_weaken; [by apply Hm|done|]. by intros [].
Qed.
Lemma harmless_ask c : quiet_call c → harmless (ask env c).
Proof. intros Hq P HL. by apply keeps_free. Qed.
Lemma harmless_set_new t : harmless (set_new t).
Proof. intros P HL. by apply keeps_set_new. Qed.
Lemma harmless_the_new : harmless the_new.
Proof. intros P HL. eapply keeps_weaken; [apply keeps_the_new|done|]. by intros r w (t&_&_&HP). Qed.

Lemma quiet_checkpoint cp : cp_Phase cp ∉ [DataDiskUpgradePhaseRemounting; DataDiskUpgradePhaseDiffing;
    DataDiskUpgradePhaseReleasing] → quiet_call (UCheckpoint cp).
Proof. rewrite !not_elem_of_cons. intros (H1&H2&H3&_) h t. cbn. by split_and!. Qed.

Context (apart : sp_Staging spec ≠ sp_OldWhere spec).

Ltac harmless :=
  repeat first
    [ apply harmless_ret | apply harmless_throw | apply harmless_set_new | apply harmless_the_new
    | apply harmless_bind; [|intros ?] | apply harmless_ask; first [done | by intros ?? ?] | case_match ].

Lemma harmless_checkpoint u p l : p ∉ [DataDiskUpgradePhaseRemounting; DataDiskUpgradePhaseDiffing;
    DataDiskUpgradePhaseReleasing] → harmless (checkpoint env u (mkCheckpoint p l "")).
Proof. intros Hp. unfold checkpoint. apply harmless_bind; [|intros ?; harmless]. by apply harmless_ask, quiet_checkpoint. Qed.

Lemma harmless_copying_checkpoint u l : harmless (checkpoint env u (mkCheckpoint DataDiskUpgradePhaseCopying l "")).
Proof. apply harmless_checkpoint. by rewrite !not_elem_of_cons; split_and!; [..|apply not_elem_of_nil]. Qed.

Lemma harmless_stop : harmless (stop_requested env).
Proof. unfold stop_requested. harmless. Qed.

Lemma harmless_copy_one rel : harmless (copy_one env old rel).
Proof. unfold copy_one. harmless. Qed.

Lemma harmless_copy_loop u after rels : ∀ lastPath copied, harmless (copy_loop env old u after rels lastPath copied).
Proof.
  induction rels as [|rel rels IH]; intros lastPath copied; cbn [copy_loop]; [harmless|].
  case_match; [apply IH|]. apply harmless_bind; [apply harmless_stop|intros stop]. case_match; [harmless|].
  apply harmless_bind; [apply harmless_copy_one|intros failed]. case_match; [harmless|].
  cbn zeta. case_match; [|apply IH].
  apply harmless_bind; [apply harmless_copying_checkpoint|intros saved]. case_match; [harmless|apply IH].
Qed.

Lemma harmless_times_loop rels : harmless (times_loop env old rels).
Proof.
  induction rels as [|rel rels IH]; cbn [times_loop]; [harmless|].
  destruct (old !! rel) as [[]|]; try apply IH. harmless. apply IH.
Qed.

Lemma harmless_copy u after : harmless (copyDataDiskTree env old u after).
Proof.
  unfold copyDataDiskTree. cbn zeta. apply harmless_bind; [apply harmless_copy_loop|intros [[i l] f]].
  case_match; [harmless|]. case_match; [harmless|]. apply harmless_bind; [apply harmless_times_loop|intros ?; harmless].
Qed.

Lemma harmless_uwrap pre o : harmless (uwrap pre o).
Proof. unfold uwrap. harmless. Qed.
Lemma harmless_orthrow o : harmless (orthrow o).
Proof. unfold orthrow. harmless. Qed.

Lemma harmless_mount_staging u : harmless (ask env (UMount (stagingMountUnit spec u))).
Proof. by apply harmless_ask; intros h t Hw. Qed.

Lemma harmless_ensure u : harmless (ensureStagingMounted env spec u).
Proof.
  unfold ensureStagingMounted. apply harmless_bind; [harmless|intros a].
  apply harmless_bind; [apply harmless_uwrap|intros _]. case_match; [harmless|].
  apply harmless_bind; [apply harmless_mount_staging|intros m]. apply harmless_bind; [apply harmless_uwrap|intros _].
  apply harmless_bind; [harmless|intros b]. apply harmless_bind; [apply harmless_uwrap|intros _]. harmless.
Qed.

(** ** The phases *)

(** The phase a checkpoint is in has been reached. *)
Definition reached (cp : DataDiskUpgradeCheckpoint) (w : upgrade_world) : Prop :=
  cp_Phase cp ∈ [DataDiskUpgradePhaseRemounting; DataDiskUpgradePhaseDiffing; DataDiskUpgradePhaseReleasing] →
  attempted (uw_calls w) (cp_Phase cp).

Definition goes_on (r : res err phase_end) (w : upgrade_world) : Prop :=
  ∀ cp, r = Ok (GoOn cp) → reached cp w.

Lemma keeps_advance u p m :
  keeps (λ w, ∀ cp, cp_Phase cp = p → needs old (uw_calls w) (UCheckpoint cp, uw_new w))
    (advance_to env u p m) goes_on.
Proof.
  unfold advance_to. apply keeps_bind with (λ _ w, attempted (uw_calls w) p).
  - unfold checkpoint. eapply keeps_bind with (λ _ w, attempted (uw_calls w) p).
    + eapply keeps_weaken; [|intros w Hw; exact Hw|]; [apply keeps_ask; intros w Hn; by apply Hn|].
      intros r w' (w&a&->&_&->). do 3 eexists. cbn. split; [apply elem_of_app; right; by left|done].
    + intros a. by apply keeps_ret.
  - intros saved. apply keeps_bind with (λ _ w, attempted (uw_calls w) p).
    + eapply keeps_weaken; [apply harmless_orthrow, (lasting_attempted p)|done|]. intros []; [done|]. intros ? ? ? [=].
    + intros _. apply keeps_bind with (λ _ w, attempted (uw_calls w) p).
      * eapply keeps_weaken; [apply harmless_stop, (lasting_attempted p)|done|]. intros []; [done|]. intros ? ? ? [=].
      * intros stop. apply keeps_ret. intros w Hw cp Hcp. destruct stop; [done|]. injection Hcp as <-. by intros _.
Qed.

(** Nothing is needed to move on to copying or verifying. *)
Lemma keeps_advance_quiet P u p m : Lasting P → p ∉ [DataDiskUpgradePhaseRemounting; DataDiskUpgradePhaseDiffing;
    DataDiskUpgradePhaseReleasing] → keeps P (advance_to env u p m) goes_on.
Proof.
  intros HL Hp. eapply keeps_weaken; [apply keeps_advance|cbn|done]. intros w _ cp Hcp.
  apply quiet_checkpoint. by rewrite Hcp.
Qed.

Ltac step_free := apply keeps_bind with (λ _ _, True);
  [eapply keeps_weaken with (P' := λ _, True); [|done|intros []; [done|by intros ??]]|].

Lemma keeps_formatting : keeps (λ _, True) (formatting env spec)
  (λ r w, ∀ u cp, r = Ok (u, GoOn cp) → reached cp w).
Proof.
  unfold formatting. step_free; [harmless|intros f]. step_free; [by apply harmless_orthrow|intros _]. cbn zeta.
  step_free; [by apply harmless_set_new|intros _]. step_free; [by apply harmless_mount_staging|intros m].
  step_free; [by apply harmless_uwrap|intros _]. step_free; [harmless|intros c].
  step_free; [by apply harmless_uwrap|intros _].
  apply keeps_bind with (λ e w, goes_on (Ok e) w).
  - eapply keeps_weaken; [apply keeps_advance_quiet with (P := λ _, True)|done|].
    + done.
    + rewrite !not_elem_of_cons; split_and!; [done..|apply not_elem_of_nil].
    + intros [] w Hg; [done|]. by intros ?.
  - intros e. apply keeps_ret. intros w Hg u cp [= _ ->]. by apply Hg.
Qed.

Lemma not_gated p : p ∉ [DataDiskUpgradePhaseRemounting; DataDiskUpgradePhaseDiffing; DataDiskUpgradePhaseReleasing] ↔
  p ≠ DataDiskUpgradePhaseRemounting ∧ p ≠ DataDiskUpgradePhaseDiffing ∧ p ≠ DataDiskUpgradePhaseReleasing.
Proof. rewrite !not_elem_of_cons. split; [tauto|]. intros (?&?&?). split_and!; [done..|apply not_elem_of_nil]. Qed.

Lemma keeps_copying u cp : keeps (λ _, True) (copying env old u cp) goes_on.
Proof.
  unfold copying. step_free; [by apply harmless_copy|]. intros [[interrupted lastPath] failed].
  destruct failed as [e|].
  - step_free; [by apply harmless_copying_checkpoint|intros saved]. by apply keeps_throw.
  - destruct interrupted.
    + step_free; [by apply harmless_copying_checkpoint|intros saved]. step_free; [by apply harmless_orthrow|intros _].
      by apply keeps_ret.
    + apply keeps_advance_quiet with (P := λ _, True); [done|]. by apply not_gated.
Qed.

(** A verification that passes has compared every entry, and touches nothing. *)
Lemma verify_loop_ok rels : ∀ w w' r,
  verify_loop follow sha256 env spec old rels w = (r, w') → uw_new w' = uw_new w ∧
  (r = Ok (false, None) → Forall (λ rel, ∀ e, old !! rel = Some e →
     verifyDataDiskEntry follow sha256 (sp_VerifyChecksum spec) e (uw_new w !! rel) = true) rels).
Proof.
  induction rels as [|rel rels IH]; intros w w' r; cbn [verify_loop].
  { intros [= <- <-]. split; [done|]. intros _. constructor. }
  unfold stop_requested, the_new, ask, mbind, stM_bind, get, mret, stM_ret. cbn.
  destruct (ua_yes _); [intros [= <- <-]; done|].
  destruct (old !! rel) as [e|] eqn:He; [|intros [= <- <-]; done].
  destruct (verifyDataDiskEntry _ _ _ _ _) eqn:Hv; [|intros [= <- <-]; done].
  intros Hr. apply IH in Hr as [Hn Hall]. cbn in *. split; [done|]. intros ->. constructor; [|by apply Hall].
  intros e'. rewrite He. by intros [= <-].
Qed.

Lemma harmless_verify_loop rels : harmless (verify_loop follow sha256 env spec old rels).
Proof.
  induction rels as [|rel rels IH]; cbn [verify_loop]; [harmless|].
  apply harmless_bind; [apply harmless_stop|intros stop]. case_match; [harmless|]. harmless. apply IH.
Qed.

Lemma keeps_verify : keeps (λ _, True) (verifyDataDiskTree follow sha256 env spec old)
  (λ r w, r = Ok (false, None) → verified follow sha256 (sp_VerifyChecksum spec) old (uw_new w)).
Proof.
  intros w Ho _.
  assert (harmless (verifyDataDiskTree follow sha256 env spec old)) as Hh.
  { unfold verifyDataDiskTree. apply harmless_bind; [apply harmless_the_new|intros dst].
    case_match; [apply harmless_verify_loop|harmless]. }
  destruct (Hh (λ _, True) _ w Ho I) as (?&?&_). split_and!; [done..|].
  unfold verifyDataDiskTree, the_new, get, mbind, stM_bind, mret, stM_ret. cbn.
  destruct (unexpected old (uw_new w)) eqn:Hu; [|done].
  destruct (verify_loop _ _ _ _ _ _ w) as [r w'] eqn:Hv. apply verify_loop_ok in Hv as [Hn Hall].
  cbn. intros Hr. split; rewrite Hn; [done|by apply Hall].
Qed.

Lemma keeps_verifying u : keeps (λ _, True) (verifying follow sha256 env spec old u) goes_on.
Proof.
  unfold verifying. apply keeps_bind with (λ r w, r = (false, None) → verified follow sha256 (sp_VerifyChecksum spec) old (uw_new w)).
  - eapply keeps_weaken; [apply keeps_verify|done|]. intros [] w Hv; [|by intros ?]. intros ->. by apply Hv.
  - intros [interrupted failed]. destruct failed as [e|].
    { apply keeps_bind with (λ _ _, False); [|by intros ? ? ? []]. apply keeps_throw. by intros ? ? ?. }
    apply keeps_bind with (λ _ w, interrupted = false → verified follow sha256 (sp_VerifyChecksum spec) old (uw_new w)).
    + apply keeps_ret. intros w Hv ->. by apply Hv.
    + intros _. destruct interrupted; [by apply keeps_ret|].
      eapply keeps_weaken; [apply keeps_advance| |done]. intros w Hv cp Hcp. cbn. rewrite Hcp. split_and!; auto; by intros ?.
Qed.

Lemma attempted_later p h k : attempted h p → attempted (h ++ k) p.
Proof. intros (cp&t&a&Hin&Hp). exists cp, t, a. by rewrite elem_of_app; split; [left|]. Qed.
Lemma in_place_later h k : in_place h → in_place (h ++ k).
Proof. intros (u&t&a&Hin&Hp). exists u, t, a. by rewrite elem_of_app; split; [left|]. Qed.

(** A call that failed ends the phase; one that succeeded is known to have been made. *)
Lemma keeps_call P R c pre :
  (∀ w, P w → needs old (uw_calls w) (c, uw_new w)) →
  (∀ w a, P w → ua_err a = None → R a (mkUWorld (uw_calls w ++ [((c, uw_new w), a)]) (uw_new w))) →
  ∀ {X} (k : upgrade_answer → U X) (Q : res err X → upgrade_world → Prop),
  (∀ e w, Q (Err e) w) → (∀ a, keeps (R a) (k a) Q) →
  keeps P (a ← ask env c; _ ← uwrap pre (ua_err a); k a) Q.
Proof.
  intros Hn HR X k Q HQ Hk.
  apply keeps_bind with (λ a w, ua_err a = None → R a w).
  - eapply keeps_weaken; [|intros w Hw; exact Hw|]; [by apply keeps_ask|].
    intros r w' (w&a&->&Hw&->) Ha. by apply HR.
  - intros a. destruct (ua_err a) as [e|] eqn:Ha.
    + intros w Ho _. cbn. split_and!; [done|done|apply HQ].
    + intros w Ho HRa. apply (Hk a w Ho). by apply HRa.
Qed.

Lemma keeps_remounting u :
  keeps (λ w, attempted (uw_calls w) DataDiskUpgradePhaseRemounting) (remounting env spec u) goes_on.
Proof.
  unfold remounting. cbn zeta.
  apply (keeps_call _ (λ _ w, attempted (uw_calls w) DataDiskUpgradePhaseRemounting)).
  { intros w _ Hw. by destruct apart. }
  { intros w a HP _. by apply attempted_later. }
  { by intros e w cp. }
  intros _. apply (keeps_call _ (λ _ w, unmounted (uw_calls w))).
  { by intros w HP _. }
  { intros w a HP Ha. do 2 eexists. split; [cbn; apply elem_of_app; right; by left|done]. }
  { by intros e w cp. }
  intros _. apply (keeps_call _ (λ _ w, in_place (uw_calls w))).
  { by intros w HP _. }
  { intros w a HP Ha. do 3 eexists. split; [cbn; apply elem_of_app; right; by left|done]. }
  { by intros e w cp. }
  intros _. apply (keeps_call _ (λ _ w, in_place (uw_calls w))).
  { done. }
  { intros w a HP _. by apply in_place_later. }
  { by intros e w cp. }
  intros _. eapply keeps_weaken; [apply keeps_advance| |done]. intros w HP cp Hcp. cbn. rewrite Hcp.
  by split_and!.
Qed.

Lemma keeps_diffing u :
  keeps (λ w, attempted (uw_calls w) DataDiskUpgradePhaseDiffing) (diffing env spec u) goes_on.
Proof.
  unfold diffing. cbn zeta.
  apply (keeps_call _ (λ _ w, attempted (uw_calls w) DataDiskUpgradePhaseDiffing)).
  { done. }
  { intros w a HP _. by apply attempted_later. }
  { by intros e w cp. }
  intros _. apply (keeps_call _ (λ d w, ua_removed d = 0 → ua_updated d = 0 → clean_diff (uw_calls w))).
  { by intros w HP. }
  { intros w a HP Ha H0 H1. do 2 eexists. split_and!; [cbn; apply elem_of_app; right; by left|done..]. }
  { by intros e w cp. }
  intros d. destruct (Z.eqb_spec (ua_removed d) 0), (Z.eqb_spec (ua_updated d) 0); cbn;
    try (by apply keeps_ret; intros ? ? ?).
  eapply keeps_weaken; [apply keeps_advance| |done]. intros w HP cp Hcp. cbn. rewrite Hcp. split_and!; auto; done.
Qed.

Lemma keeps_releasing u :
  keeps (λ w, attempted (uw_calls w) DataDiskUpgradePhaseReleasing) (releasing env spec u) goes_on.
Proof.
  unfold releasing. by apply (keeps_call _ (λ _ _, True)).
Qed.

(** ** A run *)
Lemma keeps_in_phase p body next cp :
  (cp_Phase cp = p → keeps (λ w, reached cp w) (body cp) goes_on) →
  (∀ cp', keeps (reached cp') (next cp') (λ _ _, True)) →
  keeps (reached cp) (in_phase p body next cp) (λ _ _, True).
Proof.
  intros Hb Hn. unfold in_phase. case_bool_decide as Hp; [|apply Hn].
  apply keeps_bind with (λ e w, goes_on (Ok e) w).
  - eapply keeps_weaken; [by apply Hb|done|]. by intros [].
  - intros [r|cp']; [by apply keeps_ret|]. eapply keeps_weaken; [apply (Hn cp')| |done]. intros w Hg. by apply Hg.
Qed.

Lemma keeps_from_copying u cp : keeps (reached cp) (from_copying follow sha256 env spec old u cp) (λ _ _, True).
Proof.
  unfold from_copying.
  apply keeps_in_phase; [intros _; eapply keeps_weaken; [apply keeps_copying|done|done]|clear cp; intros cp].
  apply keeps_in_phase; [intros _; eapply keeps_weaken; [apply keeps_verifying|done|done]|clear cp; intros cp].
  apply keeps_in_phase; [intros Hp; eapply keeps_weaken; [apply keeps_remounting| |done]|clear cp; intros cp].
  { intros w Hw. rewrite <-Hp. apply Hw. rewrite Hp. by left. }
  apply keeps_in_phase; [intros Hp; eapply keeps_weaken; [apply keeps_diffing| |done]|clear cp; intros cp].
  { intros w Hw. rewrite <-Hp. apply Hw. rewrite Hp. by right; left. }
  apply keeps_in_phase; [intros Hp; eapply keeps_weaken; [apply keeps_releasing| |done]|clear cp; intros cp].
  { intros w Hw. rewrite <-Hp. apply Hw. rewrite Hp. by right; right; left. }
  by apply keeps_ret.
Qed.

(** The checkpoint a run starts from: none, or one some run tried to save. *)
Definition resumable (past : history_t) (initial : option bytes) : Prop :=
  initial = None ∨ ∃ cp t a, ((UCheckpoint cp, t), a) ∈ past ∧ initial = Some (marshal_checkpoint cp).

Lemma keeps_run initial : keeps (λ w, resumable (uw_calls w) initial)
  (RunDataDiskUpgrade follow sha256 env spec old initial) (λ _ _, True).
Proof.
  unfold RunDataDiskUpgrade. apply keeps_bind with reached.
  - destruct initial as [data|].
    + intros w Ho [?|(cp&t&a&Hin&[= ->])]; [done|]. rewrite unmarshal_marshal_checkpoint.
      split_and!; [done..|]. intros _. by exists cp, t, a.
    + apply keeps_ret. intros w _ Hp. cbn in Hp. exfalso. revert Hp. by apply not_gated.
  - intros cp0. case_match eqn:Hp.
    + eapply keeps_bind with (λ r w, ∀ u cp, r = (u, GoOn cp) → reached cp w).
      * eapply keeps_weaken; [apply keeps_formatting|done|]. intros [] w Hr; [|done]. intros u cp ->. by eapply Hr.
      * intros [u []]; [by apply keeps_ret|]. eapply keeps_weaken; [apply keeps_from_copying| |done]. eauto.
    + apply keeps_bind with (λ _, reached cp0); [|intros _; apply keeps_from_copying].
      unfold resuming. case_match; [by apply keeps_throw|].
      assert (Lasting (reached cp0)) as HL.
      { split. intros w h t Hr Hpre Hph. specialize (Hr Hph). destruct Hpre as [k ->]. by apply attempted_later. }
      case_match; [|by apply keeps_ret]. eapply keeps_weaken; [by apply harmless_ensure|done|]. by intros [].
Qed.
End run.

(** ** All the runs of an upgrade *)

(** Each run sees its own state of the old disk, starts from a checkpoint an
    earlier run tried to save, or from none, and can be cut short after any of its
    calls. *)
Inductive history : history_t → Prop :=
| history_none : history []
| history_run past env old new initial now : history past → resumable past initial →
    past `prefix_of` now →
    now `prefix_of` uw_calls (snd (RunDataDiskUpgrade follow sha256 env spec old initial (mkUWorld past new))) →
    history now.

Lemma history_ordered h : sp_Staging spec ≠ sp_OldWhere spec → history h → ordered h.
Proof.
  intros Hap. induction 1 as [|past env old new initial now _ IH Hr _ Hnow].
  - by intros [] e a later.
  - eapply ordered_prefix; [exact Hnow|]. by apply (keeps_run env old Hap initial).
Qed.

(** [x] came after what [P] says of its past. *)
Lemma came_after h (x : event * upgrade_answer) : ordered h → x ∈ h →
  ∃ past later old, h = past ++ x :: later ∧ ordered past ∧ needs old past x.1.
Proof.
  intros Ho (past&later&->)%list_elem_of_split. destruct x as [e a].
  destruct (Ho past e a later eq_refl) as [old Hn]. exists past, later, old. split_and!; [done| |done].
  eapply ordered_prefix; [|done]. by eexists.
Qed.

Lemma unmounted_once_verified past : ordered past → attempted past DataDiskUpgradePhaseRemounting →
  ∃ old copy cp a, ((UCheckpoint cp, copy), a) ∈ past ∧ verified follow sha256 (sp_VerifyChecksum spec) old copy.
Proof.
  intros Ho (cp&t&a&Hin&Hp). destruct (came_after past _ Ho Hin) as (p&l&old&_&_&Hn&_).
  exists old, t, cp, a. split; [done|]. by apply Hn.
Qed.

End upgrade.

(** ** An upgrade with nothing to copy *)
Definition small_spec : DataDiskUpgradeSpec := mkSpec "/mnt/disk1" "/mnt/staging" true.
Definition good_host : environment event upgrade_answer := λ _ e,
  mkUAnswer None "uuid-new" false 0 0 0 ∅.
Definition no_follow (_ : entry) : option string := None.
Definition whole_upgrade : calls event upgrade_answer :=
  uw_calls (snd (RunDataDiskUpgrade no_follow id good_host small_spec ∅ None (mkUWorld [] ∅))).

Definition all_well : upgrade_answer := good_host [] (UFormat, ∅).
