(* ===== verification/DiskCopySafety.v ===== *)
(** * What the copy of a data disk carries over

    The copy loop carries every entry but sockets, FIFOs and device nodes, however
    it is stopped and resumed; of a mode it carries the permission bits alone; and
    the verification accepts the finished copy exactly when there was no such
    entry to leave behind. *)
From S2P Require Export DiskUpgrade.
Open Scope string_scope.
Open Scope list_scope.
Open Scope Z_scope.

(** ** The order of the paths *)
Lemma enumerate_elem t p : p ∈ enumerateDataDiskTree t ↔ is_Some (t !! p).
Proof.
  unfold enumerateDataDiskTree. rewrite merge_sort_Permutation, list_elem_of_fmap. split.
  - intros ([k e]&->&Hin). apply elem_of_map_to_list in Hin. by eexists.
  - intros [e He]. exists (p, e). split; [done|]. by apply elem_of_map_to_list.
Qed.
Lemma enumerate_nodup t : NoDup (enumerateDataDiskTree t).
Proof. unfold enumerateDataDiskTree. rewrite merge_sort_Permutation. apply NoDup_fst_map_to_list. Qed.
Lemma enumerate_sorted t : StronglySorted path_le (enumerateDataDiskTree t).
Proof. apply StronglySorted_merge_sort; apply _. Qed.

Section copy.
Context (env : environment event upgrade_answer) (old : tree).

(** ** What is carried *)
Definition same_kind (s d : entry) : Prop :=
  match s, d with
  | EFile _ _, EFile _ _ | EDir _, EDir _ | ESymlink _ _, ESymlink _ _ | ESpecial _, _ => True
  | _, _ => False
  end.

(** The permission bits of the mode, the owner and group, and every extended
    attribute. *)
Definition meta_carried (s d : meta) : Prop :=
  mt_mode d = Perm (mt_mode s) ∧ mt_uid d = mt_uid s ∧ mt_gid d = mt_gid s ∧ mt_xattrs s ⊆ mt_xattrs d.

Definition carried (s : entry) (d : option entry) : Prop :=
  match s, d with
  | ESpecial _, _ => True
  | EFile m c, Some (EFile m' c') => c' = c ∧ meta_carried m m' ∧ mt_mtime m' = mt_mtime m ∧ mt_atime m' = mt_atime m
  | EDir m, Some (EDir m') => meta_carried m m'
  | ESymlink m t, Some (ESymlink m' t') => t' = t ∧ mt_uid m' = mt_uid m ∧ mt_gid m' = mt_gid m
  | _, _ => False
  end.

(** What stands on the new disk is of the kind that belongs there. *)
Definition alike (new : tree) : Prop := ∀ p s d, old !! p = Some s → new !! p = Some d → same_kind s d.

Lemma chmod_chown_carried m d : meta_carried m (chmod_chown m d).
Proof. unfold meta_carried, chmod_chown, copyXattrs. cbn. split_and!; try done. apply map_union_subseteq_l. Qed.

Lemma chtimes_meta m e : meta_carried m (meta_of e) → meta_carried m (meta_of (chtimes m e)).
Proof. unfold meta_carried. by destruct e. Qed.

Lemma copied_entry now s rel dst dst' :
  (∀ d, dst !! rel = Some d → same_kind s d) → copyDataDiskEntry now s rel dst = Some dst' →
  carried s (dst' !! rel) ∧ (∀ d, dst' !! rel = Some d → same_kind s d) ∧
  (∀ p, p ≠ rel → dst' !! p = dst !! p) ∧ ((∃ m, s = ESpecial m) → dst' = dst).
Proof.
  intros Hk. unfold copyDataDiskEntry.
  assert (∀ e, (∀ m, s ≠ ESpecial m) → carried s (Some e) → same_kind s e → dst' = <[rel := e]> dst →
    carried s (dst' !! rel) ∧ (∀ d, dst' !! rel = Some d → same_kind s d) ∧
    (∀ p, p ≠ rel → dst' !! p = dst !! p) ∧ ((∃ m, s = ESpecial m) → dst' = dst)) as Hput.
  { intros e Hns Hc Hs ->. rewrite lookup_insert_eq. split_and!; [done|by intros d [= <-]|..].
    - intros p Hp. by apply lookup_insert_ne.
    - intros [m ->]. by destruct (Hns m). }
  destruct s as [m c|m|m t|m]; [..|intros [= <-]; done]; destruct (negb _); try done;
    intros He; destruct (dst !! rel) as [d|] eqn:Hd; try (specialize (Hk d eq_refl); destruct d; try done);
    cbn in He; injection He as He; symmetry in He; refine (Hput _ _ _ _ He); try done.
  all: cbn; unfold meta_carried; cbn; split_and!; try done; apply map_union_subseteq_l.
Qed.

(** ** The loop *)

(** Nothing on the old disk is copied there. *)
Definition nothing_there (p : string) : Prop := old !! p = None ∨ ∃ m, old !! p = Some (ESpecial m).

(** The new disk holds a carried copy of every entry in [done], what it holds is
    alike, and where nothing is copied it is as it was in [start]. *)
Record holds (start : tree) (done : string → Prop) (new : tree) : Prop := {
  ho_carried : ∀ p s, old !! p = Some s → done p → carried s (new !! p);
  ho_alike : alike new;
  ho_rest : ∀ p, nothing_there p → new !! p = start !! p
}.

Lemma copy_one_holds start (done : string → Prop) rel w w' :
  holds start done (uw_new w) → copy_one env old rel w = (Ok None, w') →
  holds start (λ p, done p ∨ p = rel) (uw_new w').
Proof.
  intros [Hc Ha Hr]. unfold copy_one, ask, the_new, set_new, get, modify, mbind, stM_bind, mret, stM_ret. cbn -[copyDataDiskEntry].
  destruct (ua_err _); [done|]. destruct (old !! rel) as [s|] eqn:Hs; [|done].
  match goal with |- context [copyDataDiskEntry ?n s rel _] =>
    destruct (copyDataDiskEntry n s rel (uw_new w)) as [dst'|] eqn:He end; cbn [uw_new]; rewrite He; [|done]. intros [= <-]. cbn.
  apply copied_entry in He as (Hc'&Hk'&Hne&Hsp); [|intros d Hd; by eapply Ha]. split.
  - intros p s' Hs' [Hd| ->]; [|by simplify_eq]. destruct (decide (p = rel)) as [->|Hp]; [by simplify_eq|].
    rewrite Hne by done. by apply Hc.
  - intros p s' d Hs' Hd. destruct (decide (p = rel)) as [->|Hp]; [simplify_eq; by apply Hk'|].
    rewrite Hne in Hd by done. by eapply Ha.
  - intros p Hp. destruct (decide (p = rel)) as [->|Hp']; [|rewrite Hne by done; by apply Hr].
    rewrite Hsp; [by apply Hr|]. destruct Hp as [Hp|[m Hp]]; [congruence|]. exists m. congruence.
Qed.

Lemma checkpoint_new u cp w : uw_new (checkpoint env u cp w).2 = uw_new w.
Proof. done. Qed.

Lemma holds_weaken start (P Q : string → Prop) new : (∀ p, is_Some (old !! p) → Q p → P p) → holds start P new → holds start Q new.
Proof. intros HPQ [Hc Ha Hr]. split; [|done..]. intros p s Hs HQ. apply (Hc p s Hs), HPQ; [by eexists|done]. Qed.

Definition skipped (after p : string) : Prop := after ≠ "" ∧ path_le p after.
Definition gone_or_skipped (after : string) (gone : list string) (p : string) : Prop := skipped after p ∨ p ∈ gone.

Lemma copy_loop_holds start u after rest : ∀ gone lastPath copied w w' stopped last,
  holds start (gone_or_skipped after gone) (uw_new w) → (lastPath = after ∨ lastPath ∈ gone) →
  copy_loop env old u after rest lastPath copied w = (Ok (stopped, last, None), w') →
  ∃ gone' left, gone ++ rest = gone' ++ left ∧ (stopped = false → left = []) ∧
    holds start (gone_or_skipped after gone') (uw_new w') ∧ (last = after ∨ last ∈ gone').
Proof.
  induction rest as [|rel rest IH]; intros gone lastPath copied w w' stopped last Hh Hl; cbn [copy_loop].
  { intros [= <- <- <-]. exists gone, []. by rewrite !app_nil_r. }
  rewrite (cons_middle rel gone rest), (app_assoc gone [rel] rest).
  assert (∀ w1, holds start (λ p, gone_or_skipped after gone p ∨ p = rel) (uw_new w1) →
    holds start (gone_or_skipped after (gone ++ [rel])) (uw_new w1)) as Hnext.
  { intros w1. apply holds_weaken. intros p _. unfold gone_or_skipped.
    rewrite elem_of_app, list_elem_of_singleton. tauto. }
  destruct (negb _ && _) eqn:Hskip.
  { apply IH; [|set_solver]. apply andb_true_iff in Hskip as [Hne%negb_true_iff%bool_decide_eq_false Hle].
    apply Hnext. eapply holds_weaken; [|exact Hh]. intros p _ [?| ->]; [done|]. by left. }
  unfold stop_requested, ask, mbind, stM_bind, mret, stM_ret. cbn -[copy_one checkpoint copy_loop].
  destruct (ua_yes _).
  { intros [= <- <- <-]. exists gone, (rel :: rest). by rewrite <-app_assoc. }
  destruct (copy_one env old rel _) as [[[e|]|e] w1] eqn:Hone; [done| |done].
  apply (copy_one_holds start (gone_or_skipped after gone)) in Hone; [|exact Hh]. apply Hnext in Hone.
  destruct (Z.rem _ _ =? 0); [|apply IH; [done|set_solver]].
  pose proof (checkpoint_new u (mkCheckpoint DataDiskUpgradePhaseCopying rel "") w1) as Hcp.
  destruct (checkpoint env u _ w1) as [[[e|]|e] w2] eqn:Hck; [done| |done].
  apply IH; [|set_solver]. cbn in Hcp. by rewrite Hcp.
Qed.

Lemma times_loop_holds start done rels : ∀ w w', holds start done (uw_new w) →
  times_loop env old rels w = (Ok None, w') → holds start done (uw_new w').
Proof.
  induction rels as [|rel rels IH]; intros w w' Hh; cbn [times_loop]; [by intros [= <-]|].
  destruct (old !! rel) as [[m c|m|m t|m]|] eqn:Hs; try by apply IH.
  unfold ask, the_new, set_new, get, modify, mbind, stM_bind, mret, stM_ret. cbn -[times_loop].
  destruct (ua_err _); [done|]. destruct (uw_new w !! rel) as [e|] eqn:He; [|done].
  apply IH. cbn. destruct Hh as [Hc Ha Hr]. split.
  - intros p s Hp Hd. destruct (decide (rel = p)) as [<-|Hne]; [|rewrite lookup_insert_ne by done; by apply Hc].
    rewrite lookup_insert_eq. specialize (Hc rel s Hp Hd). rewrite Hs in Hp. injection Hp as <-. rewrite He in Hc.
    by destruct e.
  - intros p s d Hp Hd. destruct (decide (rel = p)) as [<-|Hne]; [|rewrite lookup_insert_ne in Hd by done; by eapply Ha].
    rewrite lookup_insert_eq in Hd. injection Hd as <-. specialize (Ha rel s e Hp He). by destruct s, e.
  - intros p Hp. rewrite lookup_insert_ne; [by apply Hr|]. intros ->. destruct Hp as [Hp|[? Hp]]; congruence.
Qed.

Lemma copy_carries u after w w' stopped last :
  alike (uw_new w) →
  (∀ p s, old !! p = Some s → skipped after p → carried s (uw_new w !! p)) →
  copyDataDiskTree env old u after w = (Ok (stopped, last, None), w') →
  (∀ p s, old !! p = Some s → stopped = false ∨ skipped last p → carried s (uw_new w' !! p)) ∧
  alike (uw_new w') ∧ (∀ p, nothing_there p → uw_new w' !! p = uw_new w !! p).
Proof.
  intros Ha Hc. unfold copyDataDiskTree, mbind, stM_bind, mret, stM_ret. cbn -[copy_loop times_loop].
  destruct (copy_loop _ _ _ _ _ _ _ w) as [[[[i l] [e|]]|e] w1] eqn:Hloop; try done.
  apply (copy_loop_holds (uw_new w) u after _ []) in Hloop as (gone&todo&Hgl&Hleft&Hh&Hlast); [| |by left].
  2:{ split; [|done|done]. intros p s Hs [Hp|Hp%elem_of_nil]; [by eapply Hc|done]. }
  destruct i.
  - intros [= <- <- <-]. destruct Hh as [Hc1 Ha1 Hr1]. split_and!; [|done..].
    intros p s Hs [?|Hp]; [done|]. apply (Hc1 p s Hs). destruct Hlast as [->|Hin]; [by left|]. right.
    assert (p ∈ enumerateDataDiskTree old) as Hpin by (apply enumerate_elem; by eexists).
    pose proof (enumerate_sorted old) as Hsort. pose proof (enumerate_nodup old) as Hnd. cbn in Hgl.
    rewrite Hgl in *. apply elem_of_app in Hpin as [?|Hpl]; [done|].
    apply StronglySorted_app in Hsort as (Hbetween&_&_). apply NoDup_app in Hnd as (_&Hnd&_).
    rewrite (path_le_antisym p l); [done|by apply Hp|]. by apply Hbetween.
  - specialize (Hleft eq_refl). subst todo. rewrite app_nil_r in Hgl. cbn in Hgl. subst gone.
    destruct (times_loop _ _ _ w1) as [[bad|e] w2] eqn:Ht; [|done]. intros [= <- <- -> <-].
    apply (times_loop_holds (uw_new w) (gone_or_skipped after (enumerateDataDiskTree old))) in Ht as [Hc2 Ha2 Hr2]; [|done].
    split_and!; [|done..]. intros p s Hs _. apply (Hc2 p s Hs). right. apply enumerate_elem. by eexists.
Qed.

(** ** Verifying the copy *)
Lemma Perm_idem m : Perm (Perm m) = Perm m.
Proof. unfold Perm. by rewrite <-Z.land_assoc. Qed.

Lemma carried_verifies follow sha256 checksum s d :
  (∀ m, s ≠ ESpecial m) → carried s d → verifyDataDiskEntry follow sha256 checksum s d = true.
Proof.
  intros Hs Hc. destruct s as [m c|m|m t|m]; [..|by destruct (Hs m)]; destruct d as [[m' c'|m'|m' t'|m']|]; try done;
    cbn -[Perm].
  - destruct Hc as (->&(Hmode&Huid&Hgid&_)&Hmt&_). rewrite Hmode, Huid, Hgid, Hmt, Perm_idem, !Z.eqb_refl.
    cbn -[Perm]. destruct checksum; [|done]. by rewrite (bool_decide_true (sha256 c = sha256 c)).
  - destruct Hc as (Hmode&Huid&Hgid&_). by rewrite Hmode, Huid, Hgid, Perm_idem, !Z.eqb_refl.
  - destruct Hc as [-> _]. cbn. by rewrite bool_decide_true.
Qed.

(** A disk fresh from [mkfs]: empty but for what the filesystem made itself. *)
Definition fresh (t : tree) : Prop := ∀ p d, t !! p = Some d → p = "lost+found" ∧ ∃ m, d = EDir m.

(** C21: the copy of a whole disk onto a fresh one passes the verification exactly
    when the old disk held no socket, FIFO or device node; one such entry, which
    the copy passes over, makes every upgrade of the disk fail. *)
Theorem verification_accepts_the_copy follow sha256 checksum u w w' last :
  fresh (uw_new w) →
  (∀ s, old !! "lost+found" = Some s → ∃ m, s = EDir m) →
  copyDataDiskTree env old u "" w = (Ok (false, last, None), w') →
  verified follow sha256 checksum old (uw_new w') ↔ ∀ p m, old !! p ≠ Some (ESpecial m).
Proof.
  intros Hf Hlf Hcopy. apply copy_carries in Hcopy as (Hc&_&Hr); [|..|by intros p s _ []].
  2:{ intros p s d Hs Hd. destruct (Hf p d Hd) as (->&m&->). by destruct (Hlf s Hs) as [m' ->]. }
  split.
  - intros [_ Hall] p m Hs. rewrite Forall_forall in Hall.
    assert (p ∈ enumerateDataDiskTree old) as Hin by (apply enumerate_elem; by eexists).
    specialize (Hall p Hin _ Hs). rewrite Hr in Hall by (right; by exists m).
    destruct (uw_new w !! p) as [d|] eqn:Hd; [|done].
    destruct (Hf p d Hd) as (->&_). by destruct (Hlf _ Hs).
  - intros Hns. split.
    + unfold unexpected. destruct (filter _ _) as [|p l] eqn:E; [done|]. exfalso.
      assert (p ∈ p :: l) as Hin by (by left). rewrite <-E, list_elem_of_filter, enumerate_elem in Hin.
      destruct Hin as [[Hnone Hlost] [d Hd]]. rewrite Hr in Hd by (by left).
      destruct (Hf p d Hd) as [-> _]. apply Hlost. by left.
    + apply Forall_forall. intros p _ s Hs. apply carried_verifies; [intros m ->; by apply (Hns p m)|].
      apply (Hc p s Hs). by left.
Qed.
End copy.

(** ** A share directory *)

(** [rwxrwsr-x], root and group 1000, with one file below it. *)
Definition share_dir : meta := mkMeta 1533 0 1000 5 6 ∅.
Definition share_file : meta := mkMeta 436 1001 1000 7 8 {["user.tag" := "x"]}.
Definition share_disk : tree := {["media" := EDir share_dir; "media/a" := EFile share_file "hello"]}.
Definition willing : environment event upgrade_answer := λ _ _, mkUAnswer None "" false 0 0 9 ∅.
Definition copied_share : upgrade_world :=
  snd (copyDataDiskTree willing share_disk "u" "" (mkUWorld [] ∅)).

Lemma share_copy : copyDataDiskTree willing share_disk "u" "" (mkUWorld [] ∅) = (Ok (false, "media/a", None), copied_share).
Proof. vm_compute. reflexivity. Qed.
Lemma share_fresh : fresh ∅.
Proof. intros p d Hd. by rewrite lookup_empty in Hd. Qed.

(** The setgid bit that gives new files the share's group is gone, and the
    verification that follows does not mind. *)
Lemma setgid_is_lost :
  (mt_mode ∘ meta_of) <$> (uw_new copied_share !! "media") = Some 509 ∧ verified (λ _, None) id true share_disk (uw_new copied_share).
Proof.
  split; [vm_compute; reflexivity|]. split; [vm_compute; reflexivity|].
  apply Forall_forall. intros p _ s Hs. unfold share_disk in Hs.
  apply lookup_insert_Some in Hs as [[<- <-]|[_ [<- <-]%lookup_singleton_Some]]; vm_compute; reflexivity.
Qed.


Lemma verification_accepts_the_copy_witness :
  verified (λ _, None) id true share_disk (uw_new copied_share) ↔ ∀ p m, share_disk !! p ≠ Some (ESpecial m).
Proof.
  apply (verification_accepts_the_copy willing share_disk (λ _, None) id true "u" (mkUWorld [] ∅) copied_share "media/a").
  - apply share_fresh.
  - intros s Hs. vm_compute in Hs. discriminate.
  - apply share_copy.
Defined.
