(* ===== verification/GoPath.v ===== *)
(** * Go paths

    The functions of [path/filepath] on Unix and of [strings] that the file-moving
    code uses, on paths as strings of bytes. *)
From S2P Require Export PathOrder.
From S2P Require Export GoString.
Open Scope string_scope.
Open Scope list_scope.
Open Scope Z_scope.

Definition slash : Ascii.ascii := "/"%char.

(** [strings.Contains(s, sub)] *)
Fixpoint Contains (s sub : string) : bool :=
  String.prefix sub s || match s with EmptyString => false | String _ s' => Contains s' sub end.

(** [strings.TrimPrefix(s, pre)] *)
Definition TrimPrefix (s pre : string) : string := from_option id s (cut_prefix pre s).

(** What precedes the last slash, with it, and what follows. *)
Fixpoint split_last (s : string) : string * string :=
  match s with
  | EmptyString => (EmptyString, EmptyString)
  | String c s' =>
      match split_last s' with
      | (EmptyString, b) => if is_char slash c then (String c EmptyString, b) else (EmptyString, String c b)
      | (d, b) => (String c d, b)
      end
  end.

Definition Base (p : string) : string :=
  if bool_decide (p = "") then "."
  else
    let t := trim_right slash p in
    if bool_decide (t = "") then "/" else snd (split_last t).
Definition Dir (p : string) : string := Clean (fst (split_last p)).
Definition Join (a b : string) : string :=
  if bool_decide (a = "") then if bool_decide (b = "") then "" else Clean b
  else if bool_decide (b = "") then Clean a
  else Clean (a +:+ "/" +:+ b).

Definition IsAbs (p : string) : bool := String.prefix "/" p.

(** The elements of a cleaned path. *)
Definition elements (p : string) : list string :=
  filter (λ e, e ≠ "" ∧ e ≠ ".") (split slash p).
Fixpoint strip_common (b t : list string) : list string * list string :=
  match b, t with
  | x :: b', y :: t' => if bool_decide (x = y) then strip_common b' t' else (b, t)
  | _, _ => (b, t)
  end.
(** [filepath.Rel(base, targ)]; [None] is its error. *)
Definition Rel (base targ : string) : option string :=
  let base := Clean base in let targ := Clean targ in
  if bool_decide (base = targ) then Some "."
  else if bool_decide (IsAbs base = IsAbs targ) then
    let (b, t) := strip_common (elements base) (elements targ) in
    if bool_decide (head b = Some "..") then None
    else Some (join_with "/" (map (λ _, "..") b ++ t))
  else None.

Example paths_1 :
  map Base ["/a/b"; "a"; "/a/b//"; ""; "///"] = ["b"; "a"; "b"; "."; "/"] ∧
  map Dir ["/a/b"; "a"; "/a/b/"; ""; "/a"] = ["/a"; "."; "/a/b"; "."; "/"] ∧
  (Join "/mnt/array/" "a/b", Join "" "", Join "/m" "", Join "a" "../../b") = ("/mnt/array/a/b", "", "/m", "../b").
Proof. vm_compute. auto. Qed.
Example paths_2 :
  (Rel "/m" "/m/a/b", Rel "/m" "/m", Rel "/m/x" "/m/a", Rel "/" "/a", Rel "." "a", Rel "a" "/a", Rel "../x" "a", Rel "/m" "/mx/a")
  = (Some "a/b", Some ".", Some "../a", Some "a", Some "a", None, None, Some "../mx/a").
Proof. vm_compute. reflexivity. Qed.
Example contains_1 : map (λ s, Contains s ".tmp-") ["a.tmp-1"; ".tmp-"; ".tmp"; "x"] = [true; true; false; false].
Proof. reflexivity. Qed.

(** [sort.Strings] *)
Definition Strings_sort (l : list string) : list string := merge_sort path_le l.

Lemma append_cons c (s b : string) : String c s +:+ b = String c (s +:+ b).
Proof. reflexivity. Qed.
Lemma append_assoc (a b c : string) : a +:+ (b +:+ c) = (a +:+ b) +:+ c.
Proof. induction a as [|d a IH]; [done|]. by rewrite !append_cons, IH. Qed.
Lemma string_length_app (a b : string) : String.length (a +:+ b) = (String.length a + String.length b)%nat.
Proof. induction a as [|c a IH]; [done|]. rewrite append_cons. cbn. by rewrite IH. Qed.
Lemma prefix_app s b : String.prefix s (s +:+ b) = true.
Proof.
  induction s as [|c s IH]; [by destruct b|]. rewrite append_cons. cbn.
  by destruct (Ascii.ascii_dec c c).
Qed.
Lemma prefix_Contains t s : String.prefix s t = true → Contains t s = true.
Proof. intros H. destruct t; cbn [Contains]; by rewrite H. Qed.
Lemma Contains_app a s b : Contains (a +:+ s +:+ b) s = true.
Proof.
  induction a as [|c a IH]; [exact (prefix_Contains _ _ (prefix_app s b))|].
  rewrite append_cons. cbn [Contains]. rewrite IH. apply orb_true_r.
Qed.

(** ** Components *)
Lemma split_ne c s : split c s ≠ [].
Proof. induction s as [|d s IH]; [done|]. cbn. case_match; [done|]. by destruct (split c s). Qed.
Lemma split_pieces c s : Forall (λ u, lacks c u = true) (split c s).
Proof.
  induction s as [|d s IH]; [by repeat constructor|]. cbn [split]. destruct (is_char c d) eqn:Hd; [by constructor|].
  destruct (split c s) as [|u us]; apply Forall_cons in IH || clear IH; [|destruct IH as [Hu Hus]];
    (constructor; [by apply lacks_cons|done]).
Qed.
Lemma split_join l : l ≠ [] → Forall (λ u, lacks slash u = true) l → split slash (join_with "/" l) = l.
Proof.
  induction l as [|u l IH]; [done|]. intros _ [Hu Hl]%Forall_cons. destruct l as [|v l]; [by apply split_lacks|].
  change (join_with "/" (u :: v :: l)) with (u +:+ String slash (join_with "/" (v :: l))).
  by rewrite split_lacks_app, IH.
Qed.
Lemma join_snoc l b : l ≠ [] → join_with "/" (l ++ [b]) = join_with "/" l +:+ String slash b.
Proof.
  induction l as [|u l IH]; [done|]. intros _. destruct l as [|v l]; [done|].
  change (join_with "/" ((u :: v :: l) ++ [b])) with (u +:+ String slash (join_with "/" ((v :: l) ++ [b]))).
  rewrite IH by done. change (join_with "/" (u :: v :: l)) with (u +:+ String slash (join_with "/" (v :: l))).
  by rewrite <-(append_assoc u).
Qed.
Lemma join_split s : join_with "/" (split slash s) = s.
Proof.
  induction s as [|c s IH]; [done|]. cbn [split]. destruct (is_char slash c) eqn:Hc.
  - unfold is_char in Hc. apply bool_decide_eq_true in Hc as ->.
    destruct (split slash s) as [|u us] eqn:E; [by destruct (split_ne slash s)|].
    change (join_with "/" ("" :: u :: us)) with (String slash (join_with "/" (u :: us))). by rewrite IH.
  - destruct (split slash s) as [|u us] eqn:E; [by destruct (split_ne slash s)|].
    rewrite <-IH. by destruct us.
Qed.
Lemma split_last_lacks b : lacks slash b = true → split_last b = ("", b).
Proof. induction b as [|c b IH]; [done|]. intros [Hc Hb]%lacks_cons. cbn. by rewrite IH, Hc. Qed.
Lemma split_last_app u b : lacks slash b = true → split_last (u +:+ String slash b) = (u +:+ "/", b).
Proof.
  intros Hb. induction u as [|c u IH].
  - change ("" +:+ String slash b) with (String slash b). cbn. rewrite split_last_lacks by done. done.
  - rewrite !append_cons. cbn. rewrite IH. by destruct u.
Qed.
(** The base of a path is its last component. *)
Lemma Base_last rel above b : split slash rel = above ++ [b] → b ≠ "" → Base rel = b.
Proof.
  intros Hs Hb. pose proof (join_split rel) as Hj. pose proof (split_pieces slash rel) as Hp. rewrite Hs in Hj, Hp.
  apply Forall_app in Hp as [_ Hl]. apply Forall_cons in Hl as [Hl _].
  assert (trim_right slash b = b) as Ht by (by apply trim_right_lacks). unfold Base.
  destruct above as [|a above].
  - cbn in Hj. subst rel. rewrite !bool_decide_false by (rewrite ?Ht; done). by rewrite Ht, split_last_lacks.
  - rewrite join_snoc in Hj by done. rewrite <-Hj.
    assert (∀ P, trim_right slash (P +:+ String slash b) = P +:+ String slash b) as Htr.
    { intros P. rewrite (trim_right_app slash P); cbn; rewrite Ht; by destruct b. }
    rewrite Htr, !bool_decide_false by (by destruct (join_with "/" (a :: above))). by rewrite split_last_app.
Qed.

#[local] Arguments is_char : simpl never.
(** ** Names below a cleaned path *)
Definition proper_name (e : string) : Prop := e ≠ "" ∧ e ≠ "." ∧ e ≠ "..".

Lemma clean_names rooted es : ∀ stack,
  Forall proper_name es → foldl (clean_push rooted) stack es = reverse es ++ stack.
Proof.
  induction es as [|e es IH]; intros stack Hes; [done|]. apply Forall_cons in Hes as [(H1&H2&H3) Hes]. cbn [foldl].
  rewrite IH by done. rewrite reverse_cons, <-app_assoc. cbn. unfold clean_push.
  by rewrite !bool_decide_false by done.
Qed.
Lemma clean_stack_lacks rooted es : ∀ stack, Forall (λ u, lacks slash u = true) stack → Forall (λ u, lacks slash u = true) es →
  Forall (λ u, lacks slash u = true) (foldl (clean_push rooted) stack es).
Proof.
  induction es as [|e es IH]; intros stack Hst Hes; [done|]. apply Forall_cons in Hes as [He Hes]. cbn [foldl].
  apply IH; [|done]. unfold clean_push. destruct (_ || _); [done|]. destruct (bool_decide (e = "..")); [|by constructor].
  destruct stack as [|top rest]; [by destruct rooted; repeat constructor|].
  case_bool_decide; [by constructor|]. by apply Forall_cons in Hst as [_ ?].
Qed.

Lemma split_app_slash c a b : split c (a +:+ String c b) = split c a ++ split c b.
Proof.
  induction a as [|d a IH]; [change ("" +:+ String c b) with (String c b); cbn; by rewrite is_char_refl|]. rewrite append_cons. cbn [split].
  destruct (is_char c d); [by rewrite IH|]. rewrite IH. pose proof (split_ne c a). by destruct (split c a).
Qed.

Lemma singleton_names (a : list string) (b x : string) : a ++ [b] = [x] → b = x.
Proof. destruct a as [|y [|z a]]; [by intros [= ->]|done..]. Qed.
Lemma Base_Clean p a b : split slash p = a ++ [b] → proper_name b → Base (Clean p) = b.
Proof.
  intros Hp Hb. pose proof (split_pieces slash p) as Hl. rewrite Hp in Hl. apply Forall_app in Hl as [Ha Hlb].
  unfold Clean. fold slash. set (rooted := match p with String c _ => _ | _ => _ end). rewrite Hp, foldl_app, clean_names by (constructor; [exact Hb|done]).
  pose proof (clean_stack_lacks rooted a [] ltac:(done) Ha) as Hst. set (stack := foldl _ [] a) in *.
  assert (reverse (reverse [b] ++ stack) = reverse stack ++ [b]) as -> by (by rewrite reverse_app, reverse_involutive).
  set (out := join_with "/" (reverse stack ++ [b])).
  assert (split slash out = reverse stack ++ [b]) as Hout.
  { apply split_join; [by destruct (reverse stack)|]. apply Forall_app. split; [by apply Forall_reverse|done]. }
  destruct Hb as (Hb&_). destruct rooted.
  - apply (Base_last _ ("" :: reverse stack)); [|done]. transitivity ("" :: split slash out); [done|]. by rewrite Hout.
  - rewrite bool_decide_false; [by apply (Base_last _ (reverse stack))|]. intros He. apply (f_equal (split slash)) in He.
    change (split slash out = [""]) in He. rewrite Hout in He. by apply singleton_names in He.
Qed.

Lemma Base_Join s rel a b : split slash rel = a ++ [b] → proper_name b → Base (Join s rel) = b.
Proof.
  intros Hrel Hb. unfold Join. assert (rel ≠ "") as Hne.
  { intros ->. symmetry in Hrel. apply singleton_names in Hrel. by destruct Hb. }
  rewrite (bool_decide_false (rel = "")) by done. case_bool_decide; [by apply (Base_Clean _ a)|].
  apply (Base_Clean _ (split slash s ++ a)); [|done].
  change (s +:+ "/" +:+ rel) with (s +:+ String slash rel). by rewrite split_app_slash, Hrel, app_assoc.
Qed.
