(* ===== verification/CacheOs.v ===== *)
(** * The system calls of the file-moving code

    What [internal/cache] and [internal/beneath] ask of the kernel and of
    [cache.Deps], each a call of an arbitrary environment, and the walk below a
    trusted directory that never follows a symbolic link. Closing a descriptor
    that was only read from has no effect that matters and is left out. *)
From Stdlib Require Export Init.Byte.
From S2P Require Import Guard.
From S2P Require Export Json Calls GoPath.
Open Scope string_scope.
Open Scope list_scope.
Open Scope Z_scope.

(** The content of a file. *)
Abbreviation data := (list Byte.byte).

(** The type of a file by its mode. *)
Inductive FileKind :=
  | Regular | Directory | Symlink | NamedPipe | Socket | CharDevice | BlockDevice | Irregular.
#[export] Instance FileKind_eq_dec : EqDecision FileKind.
Proof. solve_decision. Defined.

(** [os.FileInfo] with its [syscall.Stat_t]; times are in nanoseconds, the mode
    is the permission bits with setuid, setgid and sticky. *)
Record FileInfo := mkFileInfo {
  fi_Kind : FileKind;
  fi_Mode : Z;
  fi_Size : Z;
  fi_ModTime : Z;
  fi_Ctim : Z;
  fi_Dev : Z;
  fi_Ino : Z;
  fi_Nlink : Z;
  fi_Uid : Z;
  fi_Gid : Z;
  fi_Rdev : Z;
  fi_Blocks : Z
}.
(** [Mode().Perm()] *)
Definition Perm (mode : Z) : Z := Z.land mode 511.

(** How a component is opened: [O_RDONLY], [O_RDONLY|O_DIRECTORY] or [O_PATH]. *)
Inductive open_how := OpenRead | OpenDir | OpenPath.

Inductive sys :=
  | SOpenRoot (dir : string)
  | SOpenat (dirfd : Z) (name : string) (how : open_how)
  | SFstatat (dirfd : Z) (name : string)
  | SLstatat (dirfd : Z) (name : string)
  | SFstat (fd : Z)
  | SStatFd (fd : Z)
  | SLstat (path : string)
  | SStat (path : string)
  | SOpen (path : string)
  | SReadAll (fd : Z)
  | SReadlinkat (dirfd : Z) (name : string)
  | SReadlink (path : string)
  | SCreateat (dirfd : Z) (name : string) (perm : Z)
  | STruncate (fd size : Z)
  | SSeekData (fd off : Z)
  | SSeekHole (fd off : Z)
  | SSeekStart (fd off : Z)
  | SSeekEnd (fd : Z)
  | SCopyN (out inp n : Z)
  | SFchown (fd uid gid : Z)
  | SFchmod (fd mode : Z)
  | SFchownat (fd uid gid : Z)
  | SChmodFd (fd mode : Z)
  | SListxattr (fd : Z) (size : option Z)
  | SGetxattr (fd : Z) (name : string) (size : option Z)
  | SSetxattr (fd : Z) (name value : string)
  | SFsync (fd : Z)
  | SClose (fd : Z)
  | SUtimes (dirfd : Z) (name : string) (mtime : Z)
  | SRenameNoReplace (dirfd : Z) (old new : string)
  | SRename (dirfd : Z) (old new : string)
  | SLink (dirfd : Z) (old new : string)
  | SUnlink (dirfd : Z) (name : string)
  | SRmdir (dirfd : Z) (name : string)
  | SMkdirat (dirfd : Z) (name : string) (perm : Z)
  | SSymlinkat (target : string) (dirfd : Z) (name : string)
  | SMknod (dirfd : Z) (name : string) (kind : FileKind) (perm rdev : Z)
  | SFsyncDir (dirfd : Z)
  | SNow
  | SUUID
  | SAvail (path : string)
  | SIsOpen (path : string)
  | SIsOpenFile (dev ino : Z)
  | SSnapshot
  | SSnapIsOpen (path : string)
  | SSnapIsOpenFile (dev ino : Z)
  | SWalkDir (root : string)
  | SRemove (path : string)
  | SCtxErr
  | SStopRequested
  | SSaveCheckpoint (data : bytes)
  | SSync (manifest : list ManifestEntry)
  | SUsage (path : string)
  | STrackedFileCount
  | SBatchLimit
  | SPercentLimit
  | SReadDir (path : string)
  | SVisit (root : string).

(** What a walk of a tree calls its function with: the path below the root, the
    entry's kind if there is an entry, and the error if there is one. *)
Record visit := mkVisit { vi_rel : string; vi_kind : option FileKind; vi_err : option err }.

(** The error of a call and whatever else it returns: a descriptor, a stat, a
    string, bytes, a number, a yes or no, the entries below a directory with
    their paths and whether each is a directory, the visits of a walk, a second
    number or a float. *)
Record os_answer := mkOsAnswer {
  os_err : option err;
  os_fd : Z;
  os_info : FileInfo;
  os_text : string;
  os_bytes : data;
  os_int : Z;
  os_yes : bool;
  os_entries : list (string * bool);
  os_visits : list visit;
  os_free : Z;
  os_float : spec_float
}.
Definition answered (e : option err) (fd : Z) (i : FileInfo) (text : string) (bs : data) (n : Z) (yes : bool)
    (l : list (string * bool)) : os_answer := mkOsAnswer e fd i text bs n yes l [] 0 (b64 0).
Abbreviation M := (stM (calls sys os_answer) err).

(** The outcome of a body as a value. *)
Definition try {A} (m : M A) : M (res err A) := λ tr, let (r, tr') := m tr in (Ok r, tr').
Definition of_res {A} (r : res err A) : M A := match r with Ok a => mret a | Err e => throw e end.

Section os.
Context (env : environment sys os_answer).

Definition sys_call (e : sys) : M os_answer := call env e.
(** A call whose error ends the caller, wrapped in [pre]. *)
Definition must (pre : string) (e : sys) : M os_answer :=
  a ← sys_call e;
  match os_err a with Some x => throw (wrap pre x) | None => mret a end.

(** ** Below a trusted directory *)
Definition OpenRoot (dir : string) : M Z :=
  a ← must ("open " +:+ dir +:+ ": ") (SOpenRoot dir); mret (os_fd a).

Definition Components (rel : string) : res err (list string) :=
  let comps := split slash rel in
  if existsb (λ c, bool_decide (c = "") || bool_decide (c = ".") || bool_decide (c = "..")) comps
  then Err (EOther (quoted rel +:+ " is not a path beneath a directory"))
  else Ok comps.

Definition Open (dirfd : Z) (name : string) (how : open_how) : M Z :=
  if bool_decide (name = "") || bool_decide (name = ".") || bool_decide (name = "..") || Contains name "/"
  then throw (EOther (quoted name +:+ " is not a single path component"))
  else
    a ← sys_call (SOpenat dirfd name how);
    match os_err a with
    | None => mret (os_fd a)
    | Some e =>
        let fail := throw (wrap ("open " +:+ name +:+ ": ") e) in
        if err_is e S_ELOOP || err_is e S_ENOTDIR then
          st ← sys_call (SFstatat dirfd name);
          if bool_decide (os_err st = None) && bool_decide (fi_Kind (os_info st) = Symlink)
          then throw (wrap (name +:+ ": ") (ESentinel S_Symlink)) else fail
        else fail
    end.

(** [Walker.Dir] of a new [Walker], with what [opened] returned for each
    directory on the way. *)
Fixpoint walk {X} (opened : Z → M X) (parent : Z) (comps : list string) : M (Z * list X) :=
  match comps with
  | [] => mret (parent, [])
  | name :: comps' =>
      fd ← Open parent name OpenDir;
      x ← opened fd;
      r ← walk opened fd comps';
      mret (r.1, x :: r.2)
  end.
Definition Walker_Dir {X} (root : Z) (rel : string) (opened : Z → M X) : M (Z * list X) :=
  comps ← (if bool_decide (rel = "") then mret [] else of_res (Components rel));
  walk opened root comps.
End os.
