(* ===== verification/CopyEntry.v ===== *)
(** * Copying one entry

    [copyEntry] of [internal/cache/mover.go] with the source it reads
    ([source.go]), the directories it creates ([dirmeta.go]), the nodes it
    recreates ([entry.go]), their extended attributes ([xattr.go]) and the rename
    that replaces nothing ([rename_linux.go]). Error texts leave out numbers that
    the code formats into them. *)
From stdpp Require Import pretty.
From S2P Require Export CacheOs.
Open Scope string_scope.
Open Scope list_scope.
Open Scope Z_scope.

Definition tempSuffix : string := ".hoserva-moving-".

(** ** Kinds of entries *)
Definition entryKind (k : FileKind) : string :=
  match k with
  | Regular => ""
  | Symlink => "symlink"
  | NamedPipe => "fifo"
  | Socket => "socket"
  | CharDevice => "char_device"
  | BlockDevice => "block_device"
  | Directory | Irregular => "other"
  end.
Definition canBeOpen (k : FileKind) : bool := negb (bool_decide (k = Symlink)).
Definition hardLinkNote (i : FileInfo) : string :=
  if negb (bool_decide (fi_Kind i = Regular)) || (fi_Nlink i <? 2) then ""
  else "the source had " +:+ pretty (fi_Nlink i) +:+ " hard links; the target holds an independent copy of this name".
Definition hasHoles (i : FileInfo) : bool := fi_Blocks i * 512 <? fi_Size i.

Record Config := mkConfig { cfg_GracePeriod : Z; cfg_VerifyChecksum : bool; cfg_SkipGracePeriod : bool }.

(** A source held by the descriptor of its directory; the descriptors above it
    are not kept. *)
Record sourceEntry := mkSource {
  se_parentfd : Z;
  se_base : string;
  se_path : string;
  se_info : FileInfo;
  se_dirs : list FileInfo
}.

(** [split_init] of a non-empty list: its elements but the last, and the last. *)
Definition split_init (l : list string) : list string * string := (removelast l, List.last l "").

Definition isXattrUnsupported (e : err) : bool := err_is e S_ENOTSUP || err_is e S_ENODATA.

(** NUL-terminated names; what follows the last NUL is dropped. *)
Fixpoint splitXattrNames_from (word buf : string) : list string :=
  match buf with
  | EmptyString => []
  | String c buf' =>
      if is_char "000"%char c
      then (if bool_decide (word = "") then [] else [word]) ++ splitXattrNames_from "" buf'
      else splitXattrNames_from (word +:+ String c EmptyString) buf'
  end.
Definition splitXattrNames (buf : string) : list string := splitXattrNames_from "" buf.

Section copy.
Context (env : environment sys os_answer) (sha256 : data → string) (euid : Z).
Abbreviation sysc := (sys_call env).
Abbreviation must := (must env).

(** ** The source *)
Definition lstatAt (parentfd : Z) (base : string) : M FileInfo :=
  a ← must ("lstat " +:+ base +:+ ": ") (SLstatat parentfd base); mret (os_info a).

Definition openSource (root rel : string) : M sourceEntry :=
  comps ← of_res (Components rel);
  w ← OpenRoot env root;
  let (above, base) := split_init comps in
  r ← wrapping ("resolve " +:+ rel +:+ ": ")
        (Walker_Dir env w (join_with "/" above) (λ fd, a ← must "" (SStatFd fd); mret (os_info a)));
  info ← lstatAt r.1 base;
  mret (mkSource r.1 base (Join root rel) info r.2).

Definition errSourceChanged (base : string) : err := EOther (base +:+ " is not the file that was chosen to be copied").
Definition sameFile (st info : FileInfo) : bool :=
  (fi_Dev info =? fi_Dev st) && (fi_Ino info =? fi_Ino st) && (fi_Ctim info =? fi_Ctim st).

Definition openFile (s : sourceEntry) : M Z :=
  fd ← Open env (se_parentfd s) (se_base s) OpenRead;
  st ← must ("stat " +:+ se_base s +:+ ": ") (SFstat fd);
  if bool_decide (fi_Kind (os_info st) = Regular) && sameFile (os_info st) (se_info s) then mret fd
  else throw (errSourceChanged (se_base s)).

Definition hashReader (fd : Z) : M string := a ← must "" (SReadAll fd); mret (sha256 (os_bytes a)).
Definition hashFile (path : string) : M string := a ← must "" (SOpen path); hashReader (os_fd a).
Definition hash (s : sourceEntry) : M string := fd ← openFile s; hashReader fd.

(** The buffer grows until the target fits it. *)
Definition readlink (s : sourceEntry) : M string :=
  a ← must "readlinkat: " (SReadlinkat (se_parentfd s) (se_base s));
  st ← must ("lstat " +:+ se_base s +:+ ": ") (SFstatat (se_parentfd s) (se_base s));
  if sameFile (os_info st) (se_info s) then mret (os_text a) else throw (errSourceChanged (se_base s)).

(** ** Extended attributes *)
Definition listXattrs (fd : Z) : M (list string) :=
  a ← must "" (SListxattr fd None);
  if os_int a =? 0 then mret []
  else b ← must "" (SListxattr fd (Some (os_int a))); mret (splitXattrNames (os_text b)).
Definition getXattr (fd : Z) (name : string) : M string :=
  a ← must "" (SGetxattr fd name None);
  if os_int a =? 0 then mret ""
  else b ← must "" (SGetxattr fd name (Some (os_int a))); mret (os_text b).

Fixpoint copy_each_xattr (src dst : Z) (names : list string) : M unit :=
  match names with
  | [] => mret tt
  | name :: rest =>
      v ← try (getXattr src name);
      match v with
      | Err e =>
          if isXattrUnsupported e then copy_each_xattr src dst rest
          else throw (wrap ("cache: read xattr " +:+ quoted name +:+ ": ") e)
      | Ok val =>
          a ← sysc (SSetxattr dst name val);
          match os_err a with
          | Some e =>
              if isXattrUnsupported e then copy_each_xattr src dst rest
              else throw (wrap ("cache: set xattr " +:+ quoted name +:+ ": ") e)
          | None => copy_each_xattr src dst rest
          end
      end
  end.
Definition copyXattrs (src dst : Z) : M unit :=
  names ← try (listXattrs src);
  match names with
  | Err e => if isXattrUnsupported e then mret tt else throw (wrap "cache: list xattrs: " e)
  | Ok names => copy_each_xattr src dst names
  end.
Definition copyXattrsTo (s : sourceEntry) (dst : Z) : M unit :=
  fd ← Open env (se_parentfd s) (se_base s) OpenPath;
  st ← must ("stat " +:+ se_base s +:+ ": ") (SFstat fd);
  if sameFile (os_info st) (se_info s) then copyXattrs fd dst else throw (errSourceChanged (se_base s)).

(** ** The directories of the target *)

(** The path of [dir] below [root], empty for [root] itself. *)
Definition relBeneath (root dir : string) : res err string :=
  let refused := Err (EOther (dir +:+ " is not beneath " +:+ root)) in
  match Rel root dir with
  | None => refused
  | Some rel =>
      if bool_decide (rel = "..") || String.prefix "../" rel then refused
      else Ok (if bool_decide (rel = ".") then "" else rel)
  end.

Definition requireNoSymlinks (dstRoot dstDir : string) : M unit :=
  rel ← of_res (relBeneath dstRoot dstDir);
  w ← OpenRoot env dstRoot;
  _ ← wrapping "target directory changed during the copy: " (Walker_Dir env w rel (λ _, mret tt));
  mret tt.

Definition dirPreservedBits : Z := 4095.

Definition openDirLikeAt (parentfd : Z) (tmp : string) (src : FileInfo) : M unit :=
  fd ← wrapping ("open new directory " +:+ tmp +:+ ": ") (Open env parentfd tmp OpenDir);
  got ← must ("inspect new directory " +:+ tmp +:+ ": ") (SFstat fd);
  if negb (bool_decide (fi_Kind (os_info got) = Directory)) || negb (fi_Uid (os_info got) =? euid)
  then throw (EOther (tmp +:+ " is not the directory just created"))
  else
    _ ← must ("preserve ownership of " +:+ tmp +:+ ": ") (SFchown fd (fi_Uid src) (fi_Gid src));
    _ ← must ("preserve mode of " +:+ tmp +:+ ": ") (SFchmod fd (Z.land (fi_Mode src) dirPreservedBits));
    mret tt.

(** A body whose error is returned after [cleanup]. *)
Definition or_cleanup {A} (cleanup : sys) (m : M A) : M A :=
  r ← try m;
  match r with Ok a => mret a | Err e => _ ← sysc cleanup; throw e end.

Definition mkdirLikeAt (parentfd : Z) (name : string) (src : FileInfo) : M unit :=
  if negb (bool_decide (fi_Kind src = Directory))
  then throw (EOther ("the source directory of " +:+ name +:+ " is not a directory with unix metadata"))
  else
    u ← sysc SUUID;
    let tmp := name +:+ tempSuffix +:+ os_text u in
    _ ← must ("mkdir " +:+ tmp +:+ ": ") (SMkdirat parentfd tmp 448);
    _ ← or_cleanup (SRmdir parentfd tmp) (openDirLikeAt parentfd tmp src);
    a ← sysc (SRename parentfd tmp name);
    match os_err a with
    | None => mret tt
    | Some e =>
        _ ← sysc (SRmdir parentfd tmp);
        if err_is e S_ENOTEMPTY || err_is e S_EEXIST then mret tt
        else throw (wrap ("rename " +:+ name +:+ " into place: ") e)
    end.

(** One component: opened, or created and then opened. *)
Definition descend (parent : Z) (name : string) (src : FileInfo) : M Z :=
  r ← try (Open env parent name OpenDir);
  match r with
  | Ok fd => mret fd
  | Err e =>
      if err_is e S_NotExist then _ ← mkdirLikeAt parent name src; Open env parent name OpenDir
      else throw e
  end.
Fixpoint descend_all (parent : Z) (path : string) (comps : list (string * FileInfo)) : M Z :=
  match comps with
  | [] => mret parent
  | (name, src) :: comps' =>
      let path := Join path name in
      fd ← wrapping ("create " +:+ path +:+ ": ") (descend parent name src);
      descend_all fd path comps'
  end.
Definition mkdirAllLike (srcDirs : list FileInfo) (dstRoot dstDir : string) : M Z :=
  rel ← of_res (relBeneath dstRoot dstDir);
  if bool_decide (rel = "") then OpenRoot env dstRoot
  else
    comps ← of_res (Components rel);
    if negb (length srcDirs =? length comps)%nat
    then throw (EOther (dstDir +:+ " has another number of directories than the source"))
    else
      root ← OpenRoot env dstRoot;
      descend_all root dstRoot (zip comps srcDirs).

(** ** Renaming into place *)
Definition renameNoReplaceFallback (dirfd : Z) (old new : string) : M (option err) :=
  a ← sysc (SLink dirfd old new);
  match os_err a with
  | Some e => mret (Some (if err_is e S_EEXIST then ESentinel S_ErrExist else e))
  | None => b ← sysc (SUnlink dirfd old); mret (os_err b)
  end.
Definition renameNoReplace (dirfd : Z) (old new : string) : M (option err) :=
  a ← sysc (SRenameNoReplace dirfd old new);
  match os_err a with
  | None => mret None
  | Some e =>
      if err_is e S_EEXIST then mret (Some (ESentinel S_ErrExist))
      else if err_is e S_EINVAL then renameNoReplaceFallback dirfd old new
      else mret (Some e)
  end.

(** Whether the rename happened, and the error. *)
Definition publishTemp (parentfd : Z) (tmp name : string) : M (bool * option err) :=
  r ← renameNoReplace parentfd tmp name;
  match r with
  | Some e =>
      mret (false, Some (if err_is e S_ErrExist then ESentinel S_TargetAppeared else wrap "rename into place: " e))
  | None =>
      a ← sysc (SFsyncDir parentfd);
      mret (true, wrap "fsync target directory: " <$> os_err a)
  end.

(** The end of a copy whose temporary entry [cleanup] removes unless it was
    renamed. *)
Definition unless_published (cleanup : M unit) (body : M (bool * option err)) : M unit :=
  r ← try body;
  match r with
  | Ok (renamed, e) =>
      _ ← (if (renamed : bool) then mret tt else cleanup);
      match e with Some e => throw e | None => mret tt end
  | Err e => _ ← cleanup; throw e
  end.

(** ** Regular files *)

(** Where the copy of the extents stands: done or failed, with what the hash has
    seen, or still going. *)
Inductive extents_end := EDone (hashed : data) | EFailed (e : err) | ERunning.

Definition take_Z (n : Z) (l : data) : data := take (Z.to_nat n) l.
(** [io.CopyN] to the target and the hash. *)
Definition CopyN (out inp n : Z) (hashed : data) : M (res err data) :=
  a ← sysc (SCopyN out inp n);
  let got := take_Z n (os_bytes a) in
  mret (if Z.of_nat (length got) =? n then Ok (hashed ++ got)
        else Err (wrap "copy: short: " (default (EOther "EOF") (os_err a)))).

Fixpoint copy_extents (fuel : nat) (out inp size off : Z) (hashed : data) : M extents_end :=
  if negb (off <? size) then mret (EDone hashed)
  else
    match fuel with
    | O => mret ERunning
    | S fuel =>
        d ← sysc (SSeekData inp off);
        match (match os_err d with
               | None => Ok (os_int d)
               | Some e => if err_is e S_ENXIO then Ok size else Err (wrap "find data: " e)
               end) with
        | Err e => mret (EFailed e)
        | Ok at_ =>
            let at_ := Z.min at_ size in
            let hashed := hashed ++ replicate (Z.to_nat (at_ - off)) x00 in
            if size <=? at_ then mret (EDone hashed)
            else
              h ← sysc (SSeekHole inp at_);
              match os_err h with
              | Some e => mret (EFailed (wrap "find hole: " e))
              | None =>
                  let end_ := Z.min (os_int h) size in
                  i ← sysc (SSeekStart inp at_);
                  match os_err i with
                  | Some e => mret (EFailed (wrap "seek source: " e))
                  | None =>
                      o ← sysc (SSeekStart out at_);
                      match os_err o with
                      | Some e => mret (EFailed (wrap "seek target: " e))
                      | None =>
                          c ← CopyN out inp (end_ - at_) hashed;
                          match c with
                          | Err e => mret (EFailed e)
                          | Ok hashed => copy_extents fuel out inp size end_ hashed
                          end
                      end
                  end
              end
        end
    end.

(** What the hash has seen. Each turn of the loop moves on by at least a byte
    when the kernel reports extents, so that [size] turns are enough. *)
Definition copySparse (out inp size : Z) (holes : bool) : M data :=
  if negb holes then
    r ← CopyN out inp size []; of_res r
  else
    _ ← must "size target: " (STruncate out size);
    r ← copy_extents (Z.to_nat size) out inp size 0 [];
    match r with
    | EDone hashed => mret hashed
    | EFailed e => throw e
    | ERunning => throw (EOther "copy: still running")
    end.

Definition verifyChecksum (parentfd : Z) (tmp : string) (srcHash : data) : M unit :=
  fd ← wrapping "verify: reopen target: " (Open env parentfd tmp OpenRead);
  a ← must "verify: read target: " (SReadAll fd);
  if bool_decide (sha256 srcHash = sha256 (os_bytes a)) then mret tt
  else throw (EOther "verify: checksum mismatch").

(** What happens to the temporary file [out] up to its publication. *)
Definition fill_regular (src : sourceEntry) (dst dstRoot : string) (parentfd : Z) (cfg : Config) (inp out : Z)
    (tmpName : string) : M (bool * option err) :=
  let info := se_info src in
  hashed ← wrapping "copy: " (copySparse out inp (fi_Size info) (hasHoles info));
  e ← sysc (SSeekEnd inp);
  if negb (bool_decide (os_err e = None)) || negb (os_int e =? fi_Size info)
  then throw (EOther "copy: source has another size than when it was chosen")
  else
    _ ← must "preserve ownership: " (SFchown out (fi_Uid info) (fi_Gid info));
    _ ← must "preserve mode: " (SFchmod out (Perm (fi_Mode info)));
    _ ← copyXattrsTo src out;
    _ ← (if cfg_VerifyChecksum cfg then verifyChecksum parentfd tmpName hashed else mret tt);
    _ ← must "fsync target: " (SFsync out);
    _ ← must "close target: " (SClose out);
    _ ← must "preserve timestamps: " (SUtimes parentfd tmpName (fi_ModTime info));
    _ ← requireNoSymlinks dstRoot (Dir dst);
    publishTemp parentfd tmpName (Base dst).

Definition copyRegular (src : sourceEntry) (dst dstRoot : string) (parentfd : Z) (cfg : Config) : M unit :=
  u ← sysc SUUID;
  let tmpName := Base dst +:+ tempSuffix +:+ os_text u in
  inp ← wrapping "open source: " (openFile src);
  c ← must "create target: " (SCreateat parentfd tmpName (Perm (fi_Mode (se_info src))));
  let out := os_fd c in
  unless_published (_ ← sysc (SClose out); _ ← sysc (SUnlink parentfd tmpName); mret tt)
    (fill_regular src dst dstRoot parentfd cfg inp out tmpName).

(** ** Symbolic links, FIFOs and device nodes *)

(** The temporary node is checked through the descriptor [nfd] opened on it. *)
Definition verifyNode (parentfd : Z) (tmp : string) (nfd : Z) (info : FileInfo) (linkTarget : string) : M unit :=
  g ← must "verify: stat target: " (SFstat nfd);
  let got := os_info g in
  if negb (bool_decide (fi_Kind got = fi_Kind info)) then throw (EOther "verify: target is of another type")
  else if negb (fi_Uid got =? fi_Uid info) || negb (fi_Gid got =? fi_Gid info)
  then throw (EOther "verify: target owner")
  else if negb (fi_ModTime got =? fi_ModTime info) then throw (EOther "verify: target mtime")
  else if bool_decide (fi_Kind info = Symlink) then
    a ← must "verify: read target symlink: " (SReadlinkat parentfd tmp);
    if bool_decide (os_text a = linkTarget) then mret tt else throw (EOther "verify: target links elsewhere")
  else if negb (Perm (fi_Mode got) =? Perm (fi_Mode info)) then throw (EOther "verify: target mode")
  else if (bool_decide (fi_Kind info = CharDevice) || bool_decide (fi_Kind info = BlockDevice)) &&
          negb (fi_Rdev got =? fi_Rdev info)
  then throw (EOther "verify: target device")
  else mret tt.

(** The temporary node, and the target of a link. *)
Definition create_node (src : sourceEntry) (parentfd : Z) (tmpName : string) : M string :=
  let info := se_info src in
  let perm := Perm (fi_Mode info) in
  match fi_Kind info with
  | Symlink =>
      linkTarget ← wrapping "read symlink: " (readlink src);
      _ ← must "create symlink: " (SSymlinkat linkTarget parentfd tmpName);
      mret linkTarget
  | NamedPipe => _ ← must "create fifo: " (SMknod parentfd tmpName NamedPipe perm 0); mret ""
  | CharDevice | BlockDevice =>
      _ ← must "create device node: " (SMknod parentfd tmpName (fi_Kind info) perm (fi_Rdev info)); mret ""
  | k => throw (EOther ("cannot recreate a " +:+ entryKind k))
  end.

(** What happens to the temporary node up to its publication. *)
Definition fill_node (src : sourceEntry) (dst dstRoot : string) (parentfd : Z) (tmpName linkTarget : string) : M (bool * option err) :=
  let info := se_info src in
  nfd ← wrapping ("open new node " +:+ tmpName +:+ ": ") (Open env parentfd tmpName OpenPath);
  got ← must ("inspect new node " +:+ tmpName +:+ ": ") (SFstat nfd);
  if negb (bool_decide (fi_Kind (os_info got) = fi_Kind info)) || negb (fi_Uid (os_info got) =? euid)
  then throw (EOther (tmpName +:+ " is not the node just created"))
  else
    _ ← must "preserve ownership: " (SFchownat nfd (fi_Uid info) (fi_Gid info));
    _ ← (if bool_decide (fi_Kind info = Symlink) then mret tt
         else _ ← must "preserve mode: " (SChmodFd nfd (Perm (fi_Mode info))); copyXattrsTo src nfd);
    _ ← must "preserve timestamps: " (SUtimes parentfd tmpName (fi_ModTime info));
    _ ← verifyNode parentfd tmpName nfd info linkTarget;
    _ ← requireNoSymlinks dstRoot (Dir dst);
    publishTemp parentfd tmpName (Base dst).

Definition copyNode (src : sourceEntry) (dst dstRoot : string) (parentfd : Z) : M unit :=
  u ← sysc SUUID;
  let tmpName := Base dst +:+ tempSuffix +:+ os_text u in
  linkTarget ← create_node src parentfd tmpName;
  unless_published (_ ← sysc (SUnlink parentfd tmpName); mret tt)
    (fill_node src dst dstRoot parentfd tmpName linkTarget).

(** ** An entry *)
Definition copyEntryAt (src : sourceEntry) (dst dstRoot : string) (cfg : Config) : M unit :=
  parentfd ← wrapping "create target directory: " (mkdirAllLike (se_dirs src) dstRoot (Dir dst));
  if bool_decide (fi_Kind (se_info src) = Regular) then copyRegular src dst dstRoot parentfd cfg
  else copyNode src dst dstRoot parentfd.

Definition copyEntry (src : sourceEntry) (dst dstRoot : string) (cfg : Config) : M unit :=
  r ← try (copyEntryAt src dst dstRoot cfg);
  match r with
  | Ok _ => mret tt
  | Err e => throw (if err_is e S_ELOOP && negb (err_is e S_Symlink) then EBoth (ESentinel S_Symlink) e else e)
  end.

(** ** Whether the target is an earlier run's copy *)
Definition sameNode (src : sourceEntry) (dst : string) (dstInfo : FileInfo) : M bool :=
  let info := se_info src in
  if negb (bool_decide (fi_Kind info = fi_Kind dstInfo)) then mret false
  else match fi_Kind info with
       | Symlink =>
           a ← wrapping "read source symlink: " (readlink src);
           b ← must "read target symlink: " (SReadlink dst);
           mret (bool_decide (a = os_text b))
       | CharDevice | BlockDevice => mret (fi_Rdev info =? fi_Rdev dstInfo)
       | _ => mret true
       end.

Definition isSamePendingCopy (src : sourceEntry) (dst : string) (dstInfo : FileInfo) (verify : bool) : M bool :=
  let info := se_info src in
  if negb (fi_Size dstInfo =? fi_Size info) || negb (fi_ModTime dstInfo =? fi_ModTime info) then mret false
  else if negb (bool_decide (fi_Kind info = Regular)) then sameNode src dst dstInfo
  else if negb (bool_decide (fi_Kind dstInfo = Regular)) then mret false
  else if negb verify then mret true
  else
    a ← wrapping "hash source for pending-delete check: " (hash src);
    b ← wrapping "hash target for pending-delete check: " (hashFile dst);
    mret (bool_decide (a = b)).
End copy.
