(* ===== verification/Mover.v ===== *)
(** * The mover

    [Run] of [internal/cache/mover.go] and what it decides about one entry, with
    the removal of a source ([removeSource], [source.go]), the open-file checks
    ([openchecker.go]) and the report ([report.go]). The log and the progress
    percentage are left out; the checkpoint is the share's index and the last
    path, as the values that are saved. *)
From stdpp Require Import pretty.
From S2P Require Export JsonStruct CopyEntry.
Open Scope string_scope.
Open Scope list_scope.
Open Scope Z_scope.

Definition leftBehindReason : string :=
  "still on the source; an earlier run of this job left it and its reason was not carried across the resume".
Definition socketReason : string := "runtime-only: its owner recreates it when it starts".
Definition DefaultGracePeriod : Z := 5 * 60 * 1000000000.

Record Share := mkShare {
  sh_Name : string;
  sh_CachePath : string;
  sh_ArrayPath : string;
  sh_Branches : list string;
  sh_MinFreeSpace : Z;
  sh_Exclude : list string;
  sh_PathPreserving : bool
}.

(** What [deps.Open] can do besides [IsOpen]: take a snapshot of the open files,
    whose answers are by identity or by path, and answer by identity itself. *)
Record OpenChecker := mkOpenChecker { oc_Snapshotter : bool; oc_SnapshotByFile : bool; oc_ByFile : bool }.
(** The checker itself, or a snapshot it took. *)
Inductive checker := Live | Snapshot.

Inductive Result :=
  | ResultMoved | ResultMovedPendingDelete | ResultSkippedOpen | ResultSkippedGrace | ResultSkippedExcluded
  | ResultSkippedNoSpace | ResultSkippedNotRegular | ResultSkippedSocket | ResultLeftBehind | ResultSkippedGone
  | ResultConflict | ResultFailed.
#[export] Instance Result_eq_dec : EqDecision Result.
Proof. solve_decision. Defined.

Record Entry := mkEntry {
  en_Share : string;
  en_Path : string;
  en_Bytes : Z;
  en_Result : Result;
  en_Kind : string;
  en_Reason : string;
  en_Err : string
}.
Definition entry_of (s : Share) (rel : string) (r : Result) : Entry := mkEntry (sh_Name s) rel 0 r "" "" "".
Definition failed_entry (s : Share) (rel : string) (e : err) : Entry :=
  mkEntry (sh_Name s) rel 0 ResultFailed "" "" (err_string e).
Definition with_result (r : Result) (e : Entry) : Entry :=
  mkEntry (en_Share e) (en_Path e) (en_Bytes e) r (en_Kind e) (en_Reason e) (en_Err e).
Definition with_err (msg : string) (e : Entry) : Entry :=
  mkEntry (en_Share e) (en_Path e) (en_Bytes e) (en_Result e) (en_Kind e) (en_Reason e) msg.
Definition with_kind (k : string) (e : Entry) : Entry :=
  mkEntry (en_Share e) (en_Path e) (en_Bytes e) (en_Result e) k (en_Reason e) (en_Err e).
Definition with_reason (r : string) (e : Entry) : Entry :=
  mkEntry (en_Share e) (en_Path e) (en_Bytes e) (en_Result e) (en_Kind e) r (en_Err e).
Definition with_bytes (n : Z) (e : Entry) : Entry :=
  mkEntry (en_Share e) (en_Path e) n (en_Result e) (en_Kind e) (en_Reason e) (en_Err e).

(** [FinishedAt] is [None] until it is set. *)
Record Report := mkReport {
  rp_StartedAt : Z;
  rp_FinishedAt : option Z;
  rp_Interrupted : bool;
  rp_Relocation : bool;
  rp_Entries : list Entry
}.
Definition finished (at_ : Z) (r : Report) : Report :=
  mkReport (rp_StartedAt r) (Some at_) (rp_Interrupted r) (rp_Relocation r) (rp_Entries r).

(** Which entries of a report still have their source. *)
Definition left_behind (e : Entry) : bool :=
  negb (bool_decide (en_Result e = ResultMoved) || bool_decide (en_Result e = ResultSkippedGone)).
Definition LeftBehind (r : Report) : list Entry := filter left_behind (rp_Entries r).
Definition Incomplete (r : Report) : bool :=
  rp_Relocation r && existsb (λ e, negb (bool_decide (en_Result e = ResultSkippedSocket))) (LeftBehind r).

Record sourceStamp := mkStamp { ss_size : Z; ss_mtime : Z }.
Definition stampOf (i : FileInfo) : sourceStamp := mkStamp (fi_Size i) (fi_ModTime i).
Definition second (ns : Z) : Z := ns / 1000000000.
(** A time with no sub-second part also matches one in its second. *)
Definition matches (s : sourceStamp) (i : FileInfo) : bool :=
  (fi_Size i =? ss_size s) &&
  ((fi_ModTime i =? ss_mtime s) ||
   ((ss_mtime s mod 1000000000 =? 0) && (second (fi_ModTime i) =? second (ss_mtime s)))).

(** ** The checkpoint *)
Record Checkpoint := mkMoverCheckpoint { cp_ShareIndex : Z; cp_LastPath : string }.

(** [json.Marshal(cp)] *)
Definition marshal_Checkpoint (cp : Checkpoint) : bytes :=
  BJson (JObj [("share_index", JNum (pretty (cp_ShareIndex cp))); ("last_path", JStr (cp_LastPath cp))]).

Definition checkpoint_fields : list (field Checkpoint) :=
  [int_field "share_index" (λ n cp, mkMoverCheckpoint n (cp_LastPath cp));
   str_field "last_path" (λ p cp, mkMoverCheckpoint (cp_ShareIndex cp) p)].
(** [json.Unmarshal(data, &cp)], for the zero [cp] *)
Definition unmarshal_Checkpoint : bytes → res err Checkpoint := unmarshal_struct checkpoint_fields (mkMoverCheckpoint 0 "").

Section mover.
Context (env : environment sys os_answer) (sha256 : data → string) (euid : Z).
(** [filepath.Match(pattern, name)], false for a malformed pattern, and what the
    open-file checker can do. *)
Context (Match : string → string → bool) (open : OpenChecker).
Abbreviation sysc := (sys_call env).
Abbreviation must := (must env).

(** ** Open files *)
Definition yes_or_err (e : sys) : M bool := a ← must "" e; mret (os_yes a).

Definition isOpenSource (c : checker) (info : FileInfo) (path : string) : M bool :=
  match c with
  | Snapshot =>
      if oc_SnapshotByFile open then yes_or_err (SSnapIsOpenFile (fi_Dev info) (fi_Ino info))
      else yes_or_err (SSnapIsOpen path)
  | Live =>
      if oc_ByFile open then yes_or_err (SIsOpenFile (fi_Dev info) (fi_Ino info))
      else yes_or_err (SIsOpen path)
  end.
Definition shareOpenChecker : M checker :=
  if negb (oc_Snapshotter open) then mret Live
  else _ ← must "" SSnapshot; mret Snapshot.

(** ** Removing a source *)
Definition removeSource (root rel : string) (entry : Entry) (copied : sourceStamp) : M Entry :=
  r ← try (openSource env root rel);
  match r with
  | Err e => mret (with_err (err_string e) (with_result ResultFailed entry))
  | Ok src =>
      let info := se_info src in
      let entry := with_kind (entryKind (fi_Kind info)) entry in
      if negb (matches copied info)
      then mret (with_err (se_base src +:+ " changed after it was copied; it was kept") (with_result ResultFailed entry))
      else
        o ← try (if canBeOpen (fi_Kind info) then isOpenSource Live info (Join root rel) else mret false);
        match o with
        | Err e => mret (with_err (err_string e) (with_result ResultMovedPendingDelete entry))
        | Ok true => mret (with_result ResultMovedPendingDelete entry)
        | Ok false =>
            a ← sysc (SUnlink (se_parentfd src) (se_base src));
            match os_err a with
            | Some e =>
                mret (with_err ("remove " +:+ se_base src +:+ ": " +:+ err_string e) (with_result ResultFailed entry))
            | None =>
                let entry := with_result ResultMoved entry in
                mret (if bool_decide (en_Reason entry = "") then with_reason (hardLinkNote info) entry else entry)
            end
        end
  end.

(** ** One entry *)
Definition matchExclude (patterns : list string) (rel : string) : bool :=
  existsb (λ p, Match p rel || Match p (Base rel)) patterns.

Fixpoint any_branch_fits (branches : list string) (minFree size : Z) : M bool :=
  match branches with
  | [] => mret false
  | b :: rest =>
      a ← sysc (SAvail b);
      match os_err a with
      | Some _ => any_branch_fits rest minFree size
      | None => if size <=? wrap64 (os_int a - minFree) then mret true else any_branch_fits rest minFree size
      end
  end.
Definition spaceAvailable (s : Share) (size : Z) : M bool :=
  any_branch_fits (match sh_Branches s with [] => [sh_ArrayPath s] | bs => bs end) (sh_MinFreeSpace s) size.

Definition finishPendingDelete (s : Share) (rel : string) (copied : FileInfo) : M Entry :=
  removeSource (sh_CachePath s) rel (with_bytes (fi_Size copied) (entry_of s rel ResultMoved)) (stampOf copied).

Definition moveEntry (s : Share) (rel : string) (src : sourceEntry) (grace : Z) (cfg : Config) (pre : checker) : M Entry :=
  let info := se_info src in
  let dst := Join (sh_ArrayPath s) rel in
  if bool_decide (fi_Kind info = Socket) then mret (with_reason socketReason (entry_of s rel ResultSkippedSocket))
  else if bool_decide (entryKind (fi_Kind info) = "other") then mret (entry_of s rel ResultSkippedNotRegular)
  else
    now ← sysc SNow;
    if os_int now - fi_ModTime info <? grace then mret (entry_of s rel ResultSkippedGrace)
    else
      d ← sysc (SLstat dst);
      match os_err d with
      | None =>
          same ← try (isSamePendingCopy env sha256 src dst (os_info d) (cfg_VerifyChecksum cfg));
          match same with
          | Err e => mret (failed_entry s rel e)
          | Ok false => mret (entry_of s rel ResultConflict)
          | Ok true =>
              e ← finishPendingDelete s rel info;
              mret (if bool_decide (en_Result e = ResultMoved)
                    then with_reason "completed a pending relocation from an earlier interrupted run" e else e)
          end
      | Some e =>
          if negb (err_is e S_NotExist) then mret (failed_entry s rel e)
          else
            o ← try (if canBeOpen (fi_Kind info) then isOpenSource pre info (se_path src) else mret false);
            match o with
            | Err e => mret (failed_entry s rel e)
            | Ok true => mret (with_bytes (fi_Size info) (entry_of s rel ResultSkippedOpen))
            | Ok false =>
                fits ← spaceAvailable s (fi_Size info);
                if negb fits then mret (with_bytes (fi_Size info) (entry_of s rel ResultSkippedNoSpace))
                else
                  c ← try (copyEntry env sha256 euid src dst (sh_ArrayPath s) cfg);
                  match c with
                  | Err e =>
                      mret (if err_is e S_TargetAppeared then entry_of s rel ResultConflict else failed_entry s rel e)
                  | Ok _ => finishPendingDelete s rel info
                  end
            end
      end.

Definition processFile (s : Share) (rel : string) (grace : Z) (cfg : Config) (pre : checker) : M Entry :=
  if matchExclude (sh_Exclude s) rel then mret (entry_of s rel ResultSkippedExcluded)
  else
    r ← try (openSource env (sh_CachePath s) rel);
    match r with
    | Err e => mret (if err_is e S_NotExist then entry_of s rel ResultSkippedGone else failed_entry s rel e)
    | Ok src =>
        e ← moveEntry s rel src grace cfg pre;
        let e := with_kind (entryKind (fi_Kind (se_info src))) e in
        mret (if bool_decide (en_Reason e = "") &&
                 (bool_decide (en_Result e = ResultMoved) || bool_decide (en_Result e = ResultMovedPendingDelete))
              then with_reason (hardLinkNote (se_info src)) e else e)
    end.

(** ** A pass *)

(** The entries below [root] that are not directories, sorted. *)
Definition enumerateEntries (root : string) : M (list string) :=
  st ← sysc (SStat root);
  match os_err st with
  | Some e => if err_is e S_NotExist then mret [] else throw e
  | None =>
      w ← must "" (SWalkDir root);
      mret (Strings_sort (map fst (filter (λ p, p.2 = false ∧ Contains (Base p.1) tempSuffix = false) (os_entries w))))
  end.

(** What is visited is removed as the walk goes; nothing below a directory with a
    temporary name is visited. *)
Fixpoint sweep (root : string) (entries : list (string * bool)) (skipped : option string) : M unit :=
  match entries with
  | [] => mret tt
  | (rel, isDir) :: rest =>
      if from_option (λ d, String.prefix (d +:+ "/") rel) false skipped then sweep root rest skipped
      else if negb (Contains (Base rel) tempSuffix) then sweep root rest skipped
      else
        a ← sysc (SRemove (Join root rel));
        match os_err a with
        | Some e =>
            if (isDir : bool) && (err_is e S_ENOTEMPTY || err_is e S_EEXIST) then sweep root rest (Some rel) else throw e
        | None => sweep root rest (if isDir then Some rel else skipped)
        end
  end.
Definition sweepStrayTemps (root : string) : M unit :=
  st ← sysc (SStat root);
  match os_err st with
  | Some e => if err_is e S_NotExist then mret tt else throw e
  | None =>
      w ← sysc (SWalkDir root);
      _ ← sweep root (os_entries w) None;
      match os_err w with Some e => throw e | None => mret tt end
  end.

Fixpoint enumerate_all (shares : list Share) : M (list (list string)) :=
  match shares with
  | [] => mret []
  | s :: rest =>
      rels ← wrapping ("cache: enumerate share " +:+ quoted (sh_Name s) +:+ ": ") (enumerateEntries (sh_CachePath s));
      plan ← enumerate_all rest;
      mret (rels :: plan)
  end.

(** How a pass over a share, or over all of them, ended. *)
Inductive pass_end := PassDone | PassStopped | PassFailed (e : err).

Definition resumed_past (resumeAfter rel : string) : bool :=
  negb (bool_decide (resumeAfter = "")) && bool_decide (path_le rel resumeAfter).

Fixpoint move_files (i : Z) (s : Share) (resumeAfter : string) (grace : Z) (cfg : Config) (pre : checker)
    (rels : list string) (report : list Entry) : M (list Entry * pass_end) :=
  match rels with
  | [] => mret (report, PassDone)
  | rel :: rest =>
      if resumed_past resumeAfter rel then move_files i s resumeAfter grace cfg pre rest report
      else
        c ← sysc SCtxErr;
        if negb (bool_decide (os_err c = None)) then mret (report, PassStopped)
        else
          q ← sysc SStopRequested;
          if os_yes q then mret (report, PassStopped)
          else
            e ← processFile s rel grace cfg pre;
            let report := report ++ [e] in
            a ← sysc (SSaveCheckpoint (marshal_Checkpoint (mkMoverCheckpoint i rel)));
            match os_err a with
            | Some x => mret (report, PassFailed (wrap "cache: save checkpoint: " x))
            | None => move_files i s resumeAfter grace cfg pre rest report
            end
  end.

Definition move_share (i : Z) (s : Share) (rels : list string) (grace : Z) (cfg : Config) (cp : Checkpoint)
    (report : list Entry) : M (list Entry * pass_end) :=
  w ← try (sweepStrayTemps (sh_ArrayPath s));
  match w with
  | Err e =>
      mret (report, PassFailed (wrap ("cache: clean up interrupted copies for share " +:+ quoted (sh_Name s) +:+ ": ") e))
  | Ok _ =>
      o ← try shareOpenChecker;
      match o with
      | Err e => mret (report, PassFailed (wrap ("cache: snapshot open files for share " +:+ quoted (sh_Name s) +:+ ": ") e))
      | Ok pre =>
          move_files i s (if i =? cp_ShareIndex cp then cp_LastPath cp else "") grace cfg pre rels report
      end
  end.

Fixpoint move_shares (i : Z) (todo : list (Share * list string)) (grace : Z) (cfg : Config) (cp : Checkpoint)
    (report : list Entry) : M (list Entry * pass_end) :=
  match todo with
  | [] => mret (report, PassDone)
  | (s, rels) :: rest =>
      if i <? cp_ShareIndex cp then move_shares (i + 1) rest grace cfg cp report
      else
        r ← move_share i s rels grace cfg cp report;
        match r.2 with
        | PassDone => move_shares (i + 1) rest grace cfg cp r.1
        | _ => mret r
        end
  end.

Definition grace_of (cfg : Config) : Z :=
  if cfg_SkipGracePeriod cfg then 0
  else if cfg_GracePeriod cfg <=? 0 then DefaultGracePeriod else cfg_GracePeriod cfg.

Definition Run (shares : list Share) (cfg : Config) (initialCheckpoint : bytes) : M (Report * option err) :=
  match (if bytes_empty initialCheckpoint then Ok (mkMoverCheckpoint 0 "") else unmarshal_Checkpoint initialCheckpoint) with
  | Err e => mret (mkReport 0 None false false [], Some (wrap "cache: decode checkpoint: " e))
  | Ok cp =>
      start ← sysc SNow;
      let report interrupted entries := mkReport (os_int start) None interrupted false entries in
      plan ← try (enumerate_all shares);
      match plan with
      | Err e => now ← sysc SNow; mret (finished (os_int now) (report false []), Some e)
      | Ok plan =>
          r ← move_shares 0 (zip shares plan) (grace_of cfg) cfg cp [];
          now ← sysc SNow;
          let done interrupted := finished (os_int now) (report interrupted r.1) in
          match r.2 with
          | PassFailed e => mret (done false, Some e)
          | PassStopped => mret (done true, None)
          | PassDone => c ← sysc SCtxErr; mret (done false, os_err c)
          end
      end
  end.
End mover.
