(* ===== verification/CopyContent.v ===== *)
(** * What the calls of a copy amount to

    The entries that the writing calls of a copy build, folded over the calls the
    way the kernel carries them out when nobody else touches an entry under its
    temporary name; when the reading calls of a copy were answered from one
    unchanging content; and the copy of a file's extents: it ends, and the file
    it builds has exactly that content. *)
From S2P Require Export CopyEntry CallsWp.
Open Scope string_scope.
Open Scope list_scope.
Open Scope Z_scope.

(** ** The target *)
Record node := mkNode {
  nd_kind : FileKind;
  nd_content : data;
  nd_link : string;
  nd_rdev : Z;
  nd_owner : option (Z * Z);
  nd_mode : Z;
  nd_xattrs : gmap string string;
  nd_mtime : option Z;
  (** Its content is on the disk; its name is. *)
  nd_synced : bool;
  nd_durable : bool
}.
Definition new_node (k : FileKind) (perm : Z) (link : string) (rdev : Z) : node :=
  mkNode k [] link rdev None perm ∅ None false false.
Definition with_content (c : data) (n : node) : node :=
  mkNode (nd_kind n) c (nd_link n) (nd_rdev n) (nd_owner n) (nd_mode n) (nd_xattrs n) (nd_mtime n) false (nd_durable n).
Definition with_owner (u g : Z) (n : node) : node :=
  mkNode (nd_kind n) (nd_content n) (nd_link n) (nd_rdev n) (Some (u, g)) (nd_mode n) (nd_xattrs n) (nd_mtime n)
    (nd_synced n) (nd_durable n).
Definition with_mode (m : Z) (n : node) : node :=
  mkNode (nd_kind n) (nd_content n) (nd_link n) (nd_rdev n) (nd_owner n) m (nd_xattrs n) (nd_mtime n)
    (nd_synced n) (nd_durable n).
Definition with_xattrs (x : gmap string string) (n : node) : node :=
  mkNode (nd_kind n) (nd_content n) (nd_link n) (nd_rdev n) (nd_owner n) (nd_mode n) x (nd_mtime n)
    (nd_synced n) (nd_durable n).
Definition with_mtime (t : Z) (n : node) : node :=
  mkNode (nd_kind n) (nd_content n) (nd_link n) (nd_rdev n) (nd_owner n) (nd_mode n) (nd_xattrs n) (Some t)
    (nd_synced n) (nd_durable n).
Definition with_synced (n : node) : node :=
  mkNode (nd_kind n) (nd_content n) (nd_link n) (nd_rdev n) (nd_owner n) (nd_mode n) (nd_xattrs n) (nd_mtime n)
    true (nd_durable n).
Definition with_durable (b : bool) (n : node) : node :=
  mkNode (nd_kind n) (nd_content n) (nd_link n) (nd_rdev n) (nd_owner n) (nd_mode n) (nd_xattrs n) (nd_mtime n)
    (nd_synced n) b.

(** Entries by directory and name, the entries descriptors are open on, and the
    descriptors' offsets. *)
Record target := mkTarget {
  tg_nodes : gmap (Z * string) node;
  tg_fds : gmap Z (Z * string);
  tg_pos : gmap Z Z
}.
Definition nothing : target := mkTarget ∅ ∅ ∅.

Definition zeros (n : Z) : data := replicate (Z.to_nat n) x00.
(** [bytes] written at [off] into [c]; a gap reads as zeros. *)
Definition write_at (off : Z) (bytes c : data) : data :=
  resize (Z.to_nat off) x00 c ++ bytes ++ drop (Z.to_nat off + length bytes) c.

Definition create (key : Z * string) (n : node) (t : target) : target :=
  mkTarget (<[key := n]> (tg_nodes t)) (tg_fds t) (tg_pos t).
Definition on_name (key : Z * string) (f : node → node) (t : target) : target :=
  mkTarget (alter f key (tg_nodes t)) (tg_fds t) (tg_pos t).
Definition on_fd (fd : Z) (f : node → node) (t : target) : target :=
  from_option (λ key, on_name key f t) t (tg_fds t !! fd).
Definition bind_fd (fd : Z) (key : Z * string) (t : target) : target :=
  mkTarget (tg_nodes t) (<[fd := key]> (tg_fds t)) (<[fd := 0]> (tg_pos t)).
Definition set_pos (fd off : Z) (t : target) : target := mkTarget (tg_nodes t) (tg_fds t) (<[fd := off]> (tg_pos t)).
Definition pos_of (fd : Z) (t : target) : Z := default 0 (tg_pos t !! fd).
Definition rename_key (from_ to_ : Z * string) (t : target) : target :=
  match tg_nodes t !! from_ with
  | Some n => mkTarget (<[to_ := with_durable false n]> (delete from_ (tg_nodes t))) (tg_fds t) (tg_pos t)
  | None => t
  end.
Definition link_key (from_ to_ : Z * string) (t : target) : target :=
  match tg_nodes t !! from_ with
  | Some n => mkTarget (<[to_ := with_durable false n]> (tg_nodes t)) (tg_fds t) (tg_pos t)
  | None => t
  end.
Definition sync_names (dirfd : Z) (t : target) : target :=
  mkTarget (map_imap (λ key n, Some (if key.1 =? dirfd then with_durable true n else n)) (tg_nodes t)) (tg_fds t) (tg_pos t).

(** What a call that succeeded did; a failed copy may have written too. *)
Definition effect (e : sys) (a : os_answer) (t : target) : target :=
  match e, os_err a with
  | SCopyN out _ n, _ =>
      let got := take_Z n (os_bytes a) in
      let off := pos_of out t in
      set_pos out (off + Z.of_nat (length got))
        (on_fd out (λ nd, with_content (write_at off got (nd_content nd)) nd) t)
  | SCreateat d n perm, None => bind_fd (os_fd a) (d, n) (create (d, n) (new_node Regular perm "" 0) t)
  | SSymlinkat l d n, None => create (d, n) (new_node Symlink 511 l 0) t
  | SMknod d n k perm rdev, None => create (d, n) (new_node k perm "" rdev) t
  | SOpenat d n OpenPath, None => if bool_decide (is_Some (tg_nodes t !! (d, n))) then bind_fd (os_fd a) (d, n) t else t
  | STruncate fd size, None => on_fd fd (λ nd, with_content (resize (Z.to_nat size) x00 (nd_content nd)) nd) t
  | SSeekStart fd off, None => set_pos fd off t
  | SFchown fd u g, None | SFchownat fd u g, None => on_fd fd (with_owner u g) t
  | SFchmod fd m, None | SChmodFd fd m, None => on_fd fd (with_mode m) t
  | SSetxattr fd k v, None => on_fd fd (λ nd, with_xattrs (<[k := v]> (nd_xattrs nd)) nd) t
  | SFsync fd, None => on_fd fd with_synced t
  | SUtimes d n mt, None => on_name (d, n) (with_mtime mt) t
  | SRenameNoReplace d old new, None | SRename d old new, None => rename_key (d, old) (d, new) t
  | SLink d old new, None => link_key (d, old) (d, new) t
  | SUnlink d n, None => mkTarget (delete (d, n) (tg_nodes t)) (tg_fds t) (tg_pos t)
  | SFsyncDir d, None => sync_names d t
  | _, _ => t
  end.
Definition replay (made : calls sys os_answer) (t : target) : target := foldl (λ t p, effect p.1 p.2 t) t made.

Lemma replay_app m1 m2 t : replay (m1 ++ m2) t = replay m2 (replay m1 t).
Proof. apply foldl_app. Qed.
Lemma replay_cons e a made t : replay ((e, a) :: made) t = replay made (effect e a t).
Proof. reflexivity. Qed.
Lemma replay_one e a t : replay [(e, a)] t = effect e a t.
Proof. reflexivity. Qed.

(** ** The source *)

(** Nothing but zeros from [lo] up to [hi]. *)
Definition hole (F : data) (lo hi : Z) : Prop :=
  take (Z.to_nat (hi - lo)) (drop (Z.to_nat lo) F) = zeros (hi - lo).

(** A call that reads through the descriptor [inp], whose offset is [pos], was
    answered from the content [F], as [read(2)] and [lseek(2)] document. *)
Definition answers_from (F : data) (inp pos : Z) (e : sys) (a : os_answer) : Prop :=
  let size := Z.of_nat (length F) in
  match e, os_err a with
  | SSeekData fd off, None => fd = inp → off ≤ os_int a < size ∧ hole F off (os_int a)
  | SSeekData fd off, Some x => fd = inp → err_is x S_ENXIO = true → hole F off size
  | SSeekHole fd off, None => fd = inp → off < os_int a ≤ size
  | SSeekEnd fd, None => fd = inp → os_int a = size
  | SCopyN _ fd n, _ => fd = inp →
      let got := take_Z n (os_bytes a) in got = take (length got) (drop (Z.to_nat pos) F)
  | _, _ => True
  end.
(** The offset of [inp] after a call. *)
Definition next_pos (inp pos : Z) (e : sys) (a : os_answer) : Z :=
  match e, os_err a with
  | SSeekData fd _, None | SSeekHole fd _, None | SSeekEnd fd, None => if fd =? inp then os_int a else pos
  | SSeekStart fd off, None => if fd =? inp then off else pos
  | SCopyN _ fd n, _ => if fd =? inp then pos + Z.of_nat (length (take_Z n (os_bytes a))) else pos
  | _, _ => pos
  end.
Fixpoint reads_true (F : data) (inp pos : Z) (made : calls sys os_answer) : Prop :=
  match made with
  | [] => True
  | (e, a) :: rest => answers_from F inp pos e a ∧ reads_true F inp (next_pos inp pos e a) rest
  end.
Definition pos_after (inp pos : Z) (made : calls sys os_answer) : Z :=
  foldl (λ p c, next_pos inp p c.1 c.2) pos made.

Lemma reads_true_app F inp m1 m2 : ∀ pos,
  reads_true F inp pos (m1 ++ m2) ↔ reads_true F inp pos m1 ∧ reads_true F inp (pos_after inp pos m1) m2.
Proof.
  induction m1 as [|[e a] m1 IH]; intros pos; cbn; [tauto|]. rewrite IH. unfold pos_after. cbn. tauto.
Qed.

(** ** One entry under construction *)

(** The calls so far built the entry [nd] under the name [key] and nothing else,
    and [fd] is open on it. *)
Definition holds (t : target) (key : Z * string) (fd : Z) (nd : node) : Prop :=
  tg_nodes t = {[key := nd]} ∧ tg_fds t !! fd = Some key.

Lemma holds_on_fd t key fd nd f : holds t key fd nd → holds (on_fd fd f t) key fd (f nd).
Proof.
  intros [Hn Hf]. unfold holds, on_fd, on_name. rewrite Hf. cbn. split; [|done].
  rewrite Hn. by rewrite alter_singleton_eq.
Qed.
Lemma holds_set_pos t key fd nd p q : holds t key fd nd → holds (set_pos p q t) key fd nd.
Proof. done. Qed.
Lemma pos_of_set t fd p : pos_of fd (set_pos fd p t) = p.
Proof. unfold pos_of, set_pos. cbn. by rewrite lookup_insert_eq. Qed.

(** ** Calls of the kernel *)
Section sys_cwp.
Context (env : environment sys os_answer) (G : calls sys os_answer → sys → Prop).

Lemma cwp_sys e tr (Q : res err os_answer → _) : G tr e → (∀ a, Q (Ok a) [(e, a)]) → cwp G (sys_call env e) tr Q.
Proof. intros Hg H. apply cwp_call; auto. Qed.
Lemma cwp_must pre e tr (Q : res err os_answer → _) :
  G tr e → (∀ a, os_err a = None → Q (Ok a) [(e, a)]) → (∀ a x, os_err a = Some x → Q (Err (wrap pre x)) [(e, a)]) →
  cwp G (must env pre e) tr Q.
Proof.
  intros Hg Hok Hbad. unfold must. apply cwp_bind, cwp_sys; [done|]. intros a.
  destruct (os_err a) eqn:E; [apply cwp_throw; by apply Hbad|apply cwp_ret; by apply Hok].
Qed.
Lemma cwp_try {A} (m : M A) tr (Q : res err (res err A) → _) : cwp G m tr (λ r made, Q (Ok r) made) → cwp G (try m) tr Q.
Proof. intros (made&Hs&Hg&Hq). exists made. unfold try. destruct (m tr) as [r w]. cbn in *. done. Qed.
Lemma cwp_of_res {A} (r : res err A) tr (Q : res err A → _) : Q r [] → cwp G (of_res r) tr Q.
Proof. destruct r; [apply cwp_ret|apply cwp_throw]. Qed.
End sys_cwp.

(** ** Slices of a content *)
Lemma zeros_app a b : 0 ≤ a → 0 ≤ b → zeros a ++ zeros b = zeros (a + b).
Proof. intros. unfold zeros. by rewrite Z2Nat.inj_add, replicate_add by lia. Qed.
Lemma zeros_length a : 0 ≤ a → Z.of_nat (length (zeros a)) = a.
Proof. intros. unfold zeros. rewrite length_replicate. lia. Qed.
Lemma take_split (F : data) a b :
  0 ≤ a ≤ b → take (Z.to_nat b) F = take (Z.to_nat a) F ++ take (Z.to_nat (b - a)) (drop (Z.to_nat a) F).
Proof. intros H. rewrite take_take_drop. f_equal. lia. Qed.
Lemma hole_shorter F lo mid hi : hole F lo hi → 0 ≤ lo → lo ≤ mid ≤ hi → hole F lo mid.
Proof.
  unfold hole. intros H Hlo Hm. apply (f_equal (take (Z.to_nat (mid - lo)))) in H.
  rewrite take_take, Nat.min_l in H by lia. rewrite H. unfold zeros.
  replace (Z.to_nat (hi - lo)) with (Z.to_nat (mid - lo) + Z.to_nat (hi - mid))%nat by lia.
  rewrite replicate_add, take_app_length'; [done|]. by rewrite length_replicate.
Qed.
Lemma take_hole F lo hi : hole F lo hi → 0 ≤ lo ≤ hi → take (Z.to_nat hi) F = take (Z.to_nat lo) F ++ zeros (hi - lo).
Proof. intros H Hl. rewrite (take_split F lo hi) by lia. by rewrite H. Qed.

(** The content of a target whose first [n] bytes are copied. *)
Definition partial (F : data) (n size : Z) : data := take (Z.to_nat n) F ++ zeros (size - n).
Lemma partial_hole F lo hi size : hole F lo hi → 0 ≤ lo ≤ hi → hi ≤ size → partial F lo size = partial F hi size.
Proof.
  intros H Hl Hs. unfold partial. rewrite (take_hole F lo hi H Hl), <-app_assoc, zeros_app by lia. do 2 f_equal. lia.
Qed.
Lemma partial_all F : partial F (Z.of_nat (length F)) (Z.of_nat (length F)) = F.
Proof. unfold partial. rewrite Nat2Z.id, firstn_all, Z.sub_diag. by rewrite app_nil_r. Qed.
Lemma partial_write F n m size :
  0 ≤ n ≤ m → m ≤ size → size = Z.of_nat (length F) →
  write_at n (take (Z.to_nat (m - n)) (drop (Z.to_nat n) F)) (partial F n size) = partial F m size.
Proof.
  intros Hn Hm ->. unfold write_at, partial.
  assert (length (take (Z.to_nat n) F) = Z.to_nat n) as Hl by (rewrite length_take; lia).
  rewrite resize_le, take_app_length' by (rewrite ?length_app, ?Hl; lia).
  rewrite app_assoc, <-take_split by lia. f_equal.
  rewrite drop_app_ge, Hl, length_take, length_drop by (rewrite Hl; lia).
  unfold zeros. rewrite drop_replicate. f_equal. lia.
Qed.

(** ** The extents of a file *)
Section sparse.
Context (env : environment sys os_answer) (G : calls sys os_answer → sys → Prop) (out inp : Z).
Context (HG : ∀ tr e, match e with SCopyN _ _ _ | SSeekData _ _ | SSeekHole _ _ | SSeekStart _ _ | STruncate _ _ => G tr e | _ => True end).

Lemma effect_CopyN t key nd c n a :
  holds t key out (with_content c nd) →
  holds (effect (SCopyN out inp n) a t) key out (with_content (write_at (pos_of out t) (take_Z n (os_bytes a)) c) nd).
Proof.
  intros H. unfold effect. apply holds_set_pos.
  apply (holds_on_fd _ _ _ _ (λ nd, with_content (write_at (pos_of out t) (take_Z n (os_bytes a)) (nd_content nd)) nd) H).
Qed.

Definition still_running : err := EOther "copy: still running".
Definition ended (x : extents_end) : Prop := x ≠ ERunning ∧ x ≠ EFailed still_running.

(** The copy of the extents from [off] on: what it leaves in the target, and, when
    it read the content [F], that it copied the rest of it and ended. *)
Definition extents_post (size off : Z) (hashed : data) (fuel : nat) (r : res err extents_end) (made : calls sys os_answer) : Prop :=
  ∀ t key nd c0, holds t key out (with_content c0 nd) →
  ∃ c, holds (replay made t) key out (with_content c nd) ∧
  ∀ F pos, reads_true F inp pos made → size = Z.of_nat (length F) → 0 ≤ off ≤ size → (Z.to_nat (size - off) ≤ fuel)%nat →
    hashed = take (Z.to_nat off) F → c0 = partial F off size →
    ∃ x, r = Ok x ∧ ended x ∧ ∀ h, x = EDone h → h = F ∧ c = F.

Lemma extents_stop size off hashed fuel r made :
  (∀ t key nd, holds t key out nd → holds (replay made t) key out nd) → ended r →
  (∀ h F pos, r = EDone h → size = Z.of_nat (length F) → 0 ≤ off ≤ size → reads_true F inp pos made →
     hashed = take (Z.to_nat off) F → h = F ∧ partial F off size = F) →
  extents_post size off hashed fuel (Ok r) made.
Proof.
  intros Hq Hr Hd t key nd c0 Ht. exists c0. split; [by apply Hq|]. intros F pos Htrue Hs Ho _ Hh Hc.
  exists r. split_and!; [done..|]. intros h Hx. destruct (Hd h F pos Hx Hs Ho Htrue Hh) as [-> <-]. by split.
Qed.

Lemma CopyN_cwp n hashed tr (Q : res err (res err data) → _) :
  (∀ a, let got := take_Z n (os_bytes a) in
    Q (Ok (if Z.of_nat (length got) =? n then Ok (hashed ++ got)
           else Err (wrap "copy: short: " (default (EOther "EOF") (os_err a))))) [(SCopyN out inp n, a)]) →
  cwp G (CopyN env out inp n hashed) tr Q.
Proof.
  intros H. unfold CopyN. apply cwp_bind, cwp_sys; [apply (HG tr (SCopyN out inp n))|]. intros a. apply cwp_ret. apply H.
Qed.

(** One turn of the loop over an extent [at_..end_] that the kernel reported. *)
Lemma extents_turn size off at_ end_ hashed fuel d h i o a r made :
  os_err d = None → os_err h = None → os_err i = None → os_err o = None →
  at_ = Z.min (os_int d) size → at_ < size → end_ = Z.min (os_int h) size →
  Z.of_nat (length (take_Z (end_ - at_) (os_bytes a))) = end_ - at_ →
  extents_post size end_ ((hashed ++ replicate (Z.to_nat (at_ - off)) x00) ++ take_Z (end_ - at_) (os_bytes a)) fuel r made →
  extents_post size off hashed (S fuel) r
    ((SSeekData inp off, d) :: (SSeekHole inp at_, h) :: (SSeekStart inp at_, i) :: (SSeekStart out at_, o) ::
     (SCopyN out inp (end_ - at_), a) :: made).
Proof.
  intros Hd Hh Hi Ho Hat Hlt Hend Hlen IH t key nd c0 Ht.
  set (t1 := set_pos out at_ (set_pos inp at_ t)).
  assert (holds t1 key out (with_content c0 nd)) as Ht1 by (by repeat apply holds_set_pos).
  apply (effect_CopyN _ _ _ _ (end_ - at_) a) in Ht1. unfold t1 in Ht1. rewrite pos_of_set in Ht1.
  destruct (IH _ _ _ _ Ht1) as (c&Hc&Htrue). exists c. split.
  { rewrite !replay_cons. cbn [effect]. rewrite Hi, Ho. exact Hc. }
  intros F pos Hr Hs Hoff Hfuel -> ->. cbn [reads_true] in Hr.
  unfold answers_from, next_pos in Hr. rewrite Hd, Hh, Hi, Ho, !Z.eqb_refl in Hr.
  destruct Hr as (Hr1&Hr2&_&_&Hr5&Hr6). specialize (Hr1 eq_refl) as [Hb Hhole]. specialize (Hr2 eq_refl).
  specialize (Hr5 eq_refl). cbn zeta in Hr5.
  assert ((if out =? inp then at_ else at_) = at_) as Heq by (by destruct (out =? inp)). rewrite Heq in Hr5, Hr6.
  assert (at_ = os_int d ∧ end_ = os_int h) as [-> ->] by lia.
  eapply Htrue; [exact Hr6|done|lia|lia|..].
  - rewrite (take_split F (os_int d) (os_int h)) by lia. rewrite (take_split F off (os_int d)) by lia. rewrite Hhole.
    f_equal. rewrite Hr5 at 1. f_equal. lia.
  - rewrite (partial_hole F off (os_int d) size) by (done || lia). rewrite Hr5.
    replace (length (take_Z (os_int h - os_int d) (os_bytes a))) with (Z.to_nat (os_int h - os_int d)) by lia.
    apply partial_write; lia.
Qed.

Lemma copy_extents_post fuel : ∀ size off hashed tr,
  cwp G (copy_extents env fuel out inp size off hashed) tr (extents_post size off hashed fuel).
Proof.
  induction fuel as [|fuel IH]; intros size off hashed tr; cbn [copy_extents];
    (destruct (Z.ltb_spec off size) as [Hlt|Hge]; cbn [negb];
     [|apply cwp_ret, extents_stop; [done|done|]; intros h F pos [= <-] Hs Hoff _ ->;
       replace off with (Z.of_nat (length F)) by lia; split; [by rewrite Nat2Z.id, firstn_all|rewrite Hs; apply partial_all]]).
  - apply cwp_ret. intros t key nd c0 Ht. exists c0. split; [done|]. intros. lia.
  - apply cwp_bind, cwp_sys; [apply (HG tr (SSeekData inp off))|]. intros d.
    destruct (os_err d) as [x|] eqn:Hd.
    + destruct (err_is x S_ENXIO) eqn:Hx; [|by apply cwp_ret, extents_stop].
      rewrite Z.min_id. rewrite (proj2 (Z.leb_le size size)) by lia. apply cwp_ret, extents_stop; [done|done|].
      intros h F pos [= <-] Hs Hoff Htrue ->. cbn in Htrue. rewrite Hd in Htrue.
      destruct Htrue as [Htrue _]. specialize (Htrue eq_refl Hx). rewrite <-Hs in Htrue.
      replace size with (Z.of_nat (length F)) in * by lia.
      rewrite (partial_hole F off (Z.of_nat (length F))) by (done || lia).
      split; [|apply partial_all]. fold (zeros (Z.of_nat (length F) - off)).
      rewrite <-(take_hole F off) by (done || lia). by rewrite Nat2Z.id, firstn_all.
    + destruct (Z.leb_spec size (os_int d `min` size)) as [Hge|Hat].
      * apply cwp_ret, extents_stop; [done|done|]. intros h F pos [= <-] Hs Hoff Htrue ->.
        cbn in Htrue. rewrite Hd in Htrue. destruct Htrue as [Htrue _]. specialize (Htrue eq_refl). lia.
      * apply cwp_bind, cwp_sys; [apply (HG _ (SSeekHole inp _))|]. intros h.
        destruct (os_err h) as [x|] eqn:Hh; [by apply cwp_ret, extents_stop|].
        apply cwp_bind, cwp_sys; [apply (HG _ (SSeekStart inp _))|]. intros i.
        destruct (os_err i) as [x|] eqn:Hi; [apply cwp_ret, extents_stop; [|done..]|].
        { intros t key nd Ht. cbn [Datatypes.app]. rewrite !replay_cons. cbn [effect]. by rewrite Hi. }
        apply cwp_bind, cwp_sys; [apply (HG _ (SSeekStart out _))|]. intros o.
        destruct (os_err o) as [x|] eqn:Ho; [apply cwp_ret, extents_stop; [|done..]|].
        { intros t key nd Ht. cbn [Datatypes.app]. rewrite !replay_cons. cbn [effect]. rewrite Hi, Ho. by apply holds_set_pos. }
        apply cwp_bind, CopyN_cwp. intros a got.
        destruct (Z.eqb_spec (Z.of_nat (length got)) (os_int h `min` size - os_int d `min` size)) as [Hlen|Hlen].
        -- eapply cwp_mono; [apply IH|]. intros r made Hr. cbn [Datatypes.app]. by eapply extents_turn.
        -- apply cwp_ret. intros t key nd c0 Ht. cbn [Datatypes.app]. rewrite !replay_cons. cbn [effect]. rewrite Hi, Ho.
           eexists. split; [refine (effect_CopyN _ _ _ _ _ a _); by repeat apply holds_set_pos|].
           intros. eexists. split_and!; [done|by split|done].
Qed.

Definition sparse_post (size : Z) (r : res err data) (made : calls sys os_answer) : Prop :=
  ∀ t key nd, holds t key out (with_content [] nd) → pos_of out t = 0 →
  ∃ c, holds (replay made t) key out (with_content c nd) ∧
  ∀ F, reads_true F inp 0 made → size = Z.of_nat (length F) →
    r ≠ Err still_running ∧ ∀ h, r = Ok h → h = F ∧ c = F.

Lemma copySparse_post size sparse tr : cwp G (copySparse env out inp size sparse) tr (sparse_post size).
Proof.
  unfold copySparse. destruct sparse; cbn [negb].
  - apply cwp_bind, cwp_must; [apply (HG tr (STruncate out size))|..].
    2:{ intros a x Ha t key nd Ht _. exists []. split; [|done]. cbn. by rewrite Ha. }
    intros a Ha. apply cwp_bind. eapply cwp_mono; [apply copy_extents_post|]. intros r made Hp.
    assert (∀ q, (∀ x, r = Ok x → ended x → q ≠ Err still_running) →
      (∀ h, q = Ok h → r = Ok (EDone h)) → sparse_post size q ([(STruncate out size, a)] ++ made)) as Hall.
    { intros q Hq1 Hq2 t key nd Ht Hpos. cbn [Datatypes.app].
      destruct (Hp (effect (STruncate out size) a t) key nd (resize (Z.to_nat size) x00 [])) as (c&Hc&Htrue).
      { unfold effect. rewrite Ha. apply (holds_on_fd _ _ _ _ (λ nd, with_content (resize _ x00 (nd_content nd)) nd) Ht). }
      exists c. split; [exact Hc|]. intros F [_ HF] Hs. cbn in HF.
      destruct (Htrue F 0 HF Hs) as (x&->&Hx&Hd); [lia|lia|done|..].
      { unfold partial. by rewrite Z.sub_0_r, resize_nil. }
      split; [by eapply Hq1|]. intros h Hh%Hq2. apply Hd. congruence. }
    destruct r as [[h|e|]|e].
    + apply cwp_ret. rewrite app_nil_r. apply Hall; [done|]. by intros ? [= ->].
    + apply cwp_throw. rewrite app_nil_r. apply Hall; [|done]. intros x [= <-] [_ Hx] Hr. congruence.
    + apply cwp_throw. rewrite app_nil_r. apply Hall; [|done]. by intros x [= <-] [].
    + by apply Hall.
  - apply cwp_bind, CopyN_cwp. intros a got. apply cwp_of_res. rewrite app_nil_r. intros t key nd Ht Hpos.
    eexists. split; [by apply effect_CopyN|]. intros F [HF _] Hs. cbn in HF. specialize (HF eq_refl).
    destruct (Z.eqb_spec (Z.of_nat (length got)) size) as [Hl|]; [|done]. split; [done|]. intros h [= <-].
    assert (got = F) as Hg.
    { subst got. rewrite HF, drop_0. apply take_ge. lia. }
    split; [exact Hg|]. rewrite Hpos. cbn [snd]. change (take_Z size (os_bytes a)) with got. rewrite Hg. unfold write_at. cbn. by rewrite drop_nil, app_nil_r.
Qed.
End sparse.

(** A file of four bytes with a hole of two in the middle. *)
Module DemoSparse.
Definition content : data := [x41; x00; x00; x42].
Definition info0 : FileInfo := mkFileInfo Regular 420 4 7 7 1 100 1 1000 1000 0 0.
Definition env : environment sys os_answer := λ tr e,
  let number n := answered None 0 info0 "" [] n false [] in
  match e with
  | SSeekData _ off => number (if off =? 0 then 0 else 3)
  | SSeekHole _ off => number (if off =? 0 then 1 else 4)
  | SCopyN _ _ _ =>
      answered None 0 info0 "" (if existsb (λ c, match c.1 with SCopyN _ _ _ => true | _ => false end) tr then [x42] else [x41]) 1 false []
  | _ => number 0
  end.
Definition fresh : target := effect (SCreateat 4 "t" 420) (answered None 6 info0 "" [] 0 false []) nothing.
End DemoSparse.

(** C23: Copying a file's content always ends: when the source is read from one
    unchanging content whose size is the one that was looked up, the loop over
    its extents never runs out of turns, and a copy that succeeds has hashed
    exactly that content and left exactly that content in the target, holes
    included. *)
Theorem copied_content_is_exact env out inp F sparse tr r made t key nd :
  copySparse env out inp (Z.of_nat (length F)) sparse tr = (r, tr ++ made) →
  holds t key out (with_content [] nd) → pos_of out t = 0 → reads_true F inp 0 made →
  r ≠ Err still_running ∧ ∀ h, r = Ok h → h = F ∧ holds (replay made t) key out (with_content F nd).
Proof.
  intros Hrun Ht Hpos HF.
  destruct (copySparse_post env (λ _ _, True) out inp ltac:(by intros ? []) (Z.of_nat (length F)) sparse tr) as (made'&Hs&_&Hp).
  rewrite Hrun in Hs, Hp. cbn in Hs, Hp. apply app_inv_head in Hs as <-.
  destruct (Hp t key nd Ht Hpos) as (c&Hc&Hx). destruct (Hx F HF eq_refl) as [Hr Hok]. split; [done|].
  intros h Hh. destruct (Hok h Hh) as [? ->]. done.
Qed.

Lemma copied_content_is_exact_witness :
  let '(r, made) := copySparse DemoSparse.env 6 5 4 true [] in
  reads_true DemoSparse.content 5 0 made ∧ r = Ok DemoSparse.content ∧
  holds (replay made DemoSparse.fresh) (4, "t") 6 (with_content DemoSparse.content (new_node Regular 420 "" 0)).
Proof.
  assert (reads_true DemoSparse.content 5 0 (copySparse DemoSparse.env 6 5 4 true []).2) as HF.
  { vm_compute. repeat split; intros; discriminate || congruence || lia. }
  destruct (copied_content_is_exact DemoSparse.env 6 5 DemoSparse.content true [] (copySparse DemoSparse.env 6 5 4 true []).1
    (copySparse DemoSparse.env 6 5 4 true []).2 DemoSparse.fresh (4, "t") (new_node Regular 420 "" 0)) as [_ H].
  - vm_compute. reflexivity.
  - vm_compute. split; reflexivity.
  - vm_compute. reflexivity.
  - exact HF.
  - assert ((copySparse DemoSparse.env 6 5 4 true []).1 = Ok DemoSparse.content) as Hr by (vm_compute; reflexivity).
    split; [exact HF|]. split; [exact Hr|]. exact (proj2 (H DemoSparse.content Hr)).
Defined.
