(* ===== verification/CopySafety.v ===== *)
(** * What a copy leaves behind

    A copy that succeeds has published, under the target's name and durably, an
    entry of the source's kind with its owner, mode and modification time, and a
    regular file's whole content; whatever happens a copy removes nothing but the
    temporary entries it made itself. *)
From S2P Require Export CopyContent.
Open Scope string_scope.
Open Scope list_scope.
Open Scope Z_scope.

Abbreviation trace := (calls sys os_answer).

(** ** Removals *)
Definition removal (e : sys) : bool :=
  match e with SUnlink _ _ | SRmdir _ _ | SRename _ _ _ | SRemove _ => true | _ => false end.
(** The call makes the entry [n] of the directory [d], which must not exist. *)
Definition creates (e : sys) (d : Z) (n : string) : Prop :=
  match e with
  | SCreateat d' n' _ | SSymlinkat _ d' n' | SMknod d' n' _ _ _ | SMkdirat d' n' _ => d' = d ∧ n' = n
  | _ => False
  end.
Definition made_here (tr : trace) (d : Z) (n : string) : Prop :=
  ∃ e a, (e, a) ∈ tr ∧ os_err a = None ∧ creates e d n.

Lemma made_here_app tr tr' d n : made_here tr d n → made_here (tr ++ tr') d n.
Proof. intros (e&a&H&Ha). exists e, a. split; [|done]. apply elem_of_app. by left. Qed.
Lemma made_here_last tr e a d n : os_err a = None → creates e d n → made_here (tr ++ [(e, a)]) d n.
Proof. intros Ha He. exists e, a. split; [|done]. apply elem_of_app. right. by left. Qed.

(** ** Resolving a path without following a link *)

(** The calls opened the directories [comps] one below the other, from the
    descriptor [fd] to the descriptor [fd']. *)
Inductive walked (tr : trace) : Z → list string → Z → Prop :=
  | walked_nil fd : walked tr fd [] fd
  | walked_cons fd c cs a fd' :
      (SOpenat fd c OpenDir, a) ∈ tr → os_err a = None → walked tr (os_fd a) cs fd' → walked tr fd (c :: cs) fd'.
Definition resolved (tr : trace) (root : string) (comps : list string) (fd : Z) : Prop :=
  ∃ a, (SOpenRoot root, a) ∈ tr ∧ os_err a = None ∧ walked tr (os_fd a) comps fd.

Lemma walked_mono tr tr' fd cs fd' : tr ⊆ tr' → walked tr fd cs fd' → walked tr' fd cs fd'.
Proof. intros Hs. induction 1; econstructor; eauto. Qed.
Lemma resolved_mono tr tr' root cs fd : tr ⊆ tr' → resolved tr root cs fd → resolved tr' root cs fd.
Proof. intros Hs (a&H&Ha&Hw). exists a. eauto using walked_mono. Qed.
Lemma subseteq_app_r (l k : trace) : k ⊆ l ++ k.
Proof. intros x Hx. apply elem_of_app. by right. Qed.
Lemma subseteq_app_l (l k : trace) : l ⊆ l ++ k.
Proof. intros x Hx. apply elem_of_app. by left. Qed.
#[local] Hint Resolve subseteq_app_l subseteq_app_r walked_mono resolved_mono : core.

(** ** Calls that leave an entry under construction alone but for its attributes *)
Definition quiet (key : Z * string) (e : sys) : Prop :=
  match e with
  | SOpenat d n OpenPath => (d, n) ≠ key
  | SCreateat _ _ _ | SSymlinkat _ _ _ | SMknod _ _ _ _ _ | STruncate _ _ | SSeekStart _ _ | SCopyN _ _ _
  | SFchown _ _ _ | SFchownat _ _ _ | SFchmod _ _ | SChmodFd _ _ | SFsync _ | SUtimes _ _ _
  | SRenameNoReplace _ _ _ | SLink _ _ _ | SFsyncDir _ => False
  | _ => removal e = false
  end.

Lemma quiet_holds key fd e a t nd :
  quiet key e → holds t key fd nd → ∃ x, holds (effect e a t) key fd (with_xattrs x nd).
Proof.
  intros Hq [Hn Hf].
  assert (∃ x, holds t key fd (with_xattrs x nd)) as Hsame by (exists (nd_xattrs nd); by destruct nd).
  destruct e; try match goal with how : open_how |- _ => destruct how end; try done; cbn [effect]; destruct (os_err a); try done.
  - rewrite bool_decide_false; [done|].
    rewrite Hn, lookup_singleton_ne by done. by intros [].
  - unfold on_fd. destruct (tg_fds t !! fd0) as [key'|]; [|done]. cbn.
    destruct (decide (key' = key)) as [->|Hne].
    + eexists. unfold holds, on_name. cbn. rewrite Hn, alter_singleton_eq. split; [reflexivity|done].
    + destruct Hsame as [x [Hx _]]. exists x. unfold holds, on_name. cbn. rewrite Hx, alter_singleton_ne by done. done.
Qed.

Lemma quiet_all key fd made : ∀ t nd,
  Forall (λ p, quiet key p.1) made → holds t key fd nd → ∃ x, holds (replay made t) key fd (with_xattrs x nd).
Proof.
  induction made as [|[e a] made IH]; intros t nd Hq Ht; [exists (nd_xattrs nd); by destruct nd|].
  apply Forall_cons in Hq as [Hq Hqs]. cbn in Hq. destruct (quiet_holds key fd e a t nd Hq Ht) as [x Hx].
  destruct (IH _ _ Hqs Hx) as [y Hy]. by exists y.
Qed.

(** Calls that only look, and open nothing without reading it. *)
Definition looks (e : sys) : Prop :=
  match e with
  | SOpenRoot _ | SOpenat _ _ OpenRead | SOpenat _ _ OpenDir | SFstatat _ _ | SLstatat _ _ | SFstat _ | SStatFd _
  | SLstat _ | SStat _ | SOpen _ | SReadAll _ | SReadlinkat _ _ | SReadlink _ | SListxattr _ _ | SGetxattr _ _ _
  | SNow | SUUID | SAvail _ | SIsOpen _ | SIsOpenFile _ _ | SSnapshot | SSnapIsOpen _ | SSnapIsOpenFile _ _
  | SWalkDir _ | SCtxErr | SStopRequested | SUsage _ | STrackedFileCount | SBatchLimit | SPercentLimit | SReadDir _
  | SVisit _ => True
  | _ => False
  end.
Lemma looks_quiet key e : looks e → quiet key e.
Proof. destruct e; try done. by destruct how. Qed.
Lemma looks_harmless e : looks e → removal e = false.
Proof. by destruct e. Qed.
Lemma quiet_harmless key e : quiet key e → removal e = false.
Proof. by destruct e. Qed.

(** ** What only looks *)
Lemma makes_must env P pre e : P e → makes env P (must env pre e).
Proof. intros He. unfold must. by body_makes. Qed.
Lemma makes_try {A} env P (m : M A) : makes env P m → makes env P (try m).
Proof. intros Hm tr. destruct (Hm tr) as (made&Hs&Hf). exists made. unfold try. by destruct (m tr). Qed.
Lemma makes_of_res {A} env P (r : res err A) : makes env P (of_res r).
Proof. destruct r; [apply makes_ret|apply makes_throw]. Qed.
Ltac forall_app := rewrite ?Forall_app; split_and?; try assumption; repeat (constructor || done).
Create HintDb looks.
Ltac looks_only :=
  repeat first
    [ solve [auto with looks nocore] | apply makes_ret | apply makes_throw | apply makes_must | apply makes_wrapping | apply makes_try
    | apply makes_of_res | apply makes_call | exact I | reflexivity
    | apply makes_bind; [|intros ?] | case_match ].

Section copy.
Context (env : environment sys os_answer) (sha256 : data → string) (euid : Z).
Context (G : trace → sys → Prop).
Context (Gharmless : ∀ tr e, removal e = false → G tr e).
Lemma cwp_looks {A} (m : M A) tr : makes env looks m → cwp G m tr (λ _ made, Forall (λ p, looks p.1) made).
Proof. intros Hm. eapply cwp_makes; [done|]. intros tr' e He. by apply Gharmless, looks_harmless. Qed.
Lemma cwp_quiet {A} key (m : M A) tr : makes env (quiet key) m → cwp G m tr (λ _ made, Forall (λ p, quiet key p.1) made).
Proof. intros Hm. eapply cwp_makes; [done|]. intros tr' e He. by eapply Gharmless, quiet_harmless. Qed.

(** A descriptor that was opened. *)
Lemma Open_cwp d n how tr :
  cwp G (Open env d n how) tr (λ r made, ∀ fd, r = Ok fd → ∃ a, made = [(SOpenat d n how, a)] ∧ os_err a = None ∧ os_fd a = fd).
Proof.
  unfold Open. case_match; [by apply cwp_throw|]. apply cwp_bind, cwp_sys; [by apply Gharmless|]. intros a.
  destruct (os_err a) as [x|] eqn:Ha; [|apply cwp_ret; intros fd [= <-]; by exists a].
  case_match; [|by apply cwp_throw]. apply cwp_bind, cwp_sys; [by apply Gharmless|]. intros b.
  case_match; by apply cwp_throw.
Qed.
Lemma OpenRoot_cwp dir tr :
  cwp G (OpenRoot env dir) tr (λ r made, Forall (λ p, looks p.1) made ∧
    ∀ fd, r = Ok fd → ∃ a, (SOpenRoot dir, a) ∈ made ∧ os_err a = None ∧ os_fd a = fd).
Proof.
  unfold OpenRoot. apply cwp_bind, cwp_must; [by apply Gharmless| |].
  - intros a Ha. apply cwp_ret. split; [by repeat constructor|]. intros fd [= <-]. exists a. by split; [left|].
  - intros a x Ha. split; [by repeat constructor|done].
Qed.

Lemma looks_Open d n how : how ≠ OpenPath → makes env looks (Open env d n how).
Proof. intros Hh. unfold Open, sys_call. looks_only; by destruct how. Qed.

Lemma looks_OpenDir d n : makes env looks (Open env d n OpenDir).
Proof. by apply looks_Open. Qed.
Lemma looks_OpenRead d n : makes env looks (Open env d n OpenRead).
Proof. by apply looks_Open. Qed.
#[local] Hint Resolve looks_OpenDir looks_OpenRead : looks.

Lemma walk_cwp {X} (opened : Z → M X) comps : (∀ fd, makes env looks (opened fd)) → ∀ parent tr,
  cwp G (walk env opened parent comps) tr (λ r made, Forall (λ p, looks p.1) made ∧ ∀ x, r = Ok x → walked made parent comps x.1).
Proof.
  intros Ho. induction comps as [|c comps IH]; intros parent tr; cbn [walk].
  { apply cwp_ret. split; [constructor|]. intros x [= <-]. constructor. }
  apply cwp_bind. eapply cwp_mono; [apply cwp_conj; [apply (cwp_looks _ _ (looks_Open parent c OpenDir ltac:(done)))|apply Open_cwp]|].
  intros [fd|e] made [Hl Hfd]; [|by split]. destruct (Hfd fd eq_refl) as (a&->&Ha&<-).
  apply cwp_bind. eapply cwp_mono; [apply cwp_looks, Ho|]. intros [x|e] made' Hl'; cbn beta iota.
  2:{ split; [by forall_app|done]. }
  apply cwp_bind. eapply cwp_mono; [apply IH|]. intros [y|e] made'' [Hl'' Hw]; cbn beta iota.
  2:{ split; [by forall_app|done]. }
  apply cwp_ret. rewrite app_nil_r. split; [by forall_app|]. intros z [= <-]. cbn.
  econstructor; [by left|done|]. eapply walked_mono, Hw; [|reflexivity]. intros q Hq. right. apply elem_of_app. by right.
Qed.

(** ** The source *)

(** The entry [rel] below [root] as the calls found it: its directory was opened
    component by component, and the entry inspected there. *)
Definition found (tr : trace) (root rel : string) (s : sourceEntry) : Prop :=
  ∃ above a, Components rel = Ok (above ++ [se_base s]) ∧ resolved tr root above (se_parentfd s) ∧
    (SLstatat (se_parentfd s) (se_base s), a) ∈ tr ∧ os_err a = None ∧ os_info a = se_info s.
Lemma found_mono tr tr' root rel s : tr ⊆ tr' → found tr root rel s → found tr' root rel s.
Proof. intros Hs (above&a&Hc&Hr&Hin&Ha). exists above, a. eauto 6. Qed.

(** The components of a directory below its root; none for the root itself. *)
Definition dir_components (rel : string) : res err (list string) :=
  if bool_decide (rel = "") then Ok [] else Components rel.

Lemma Walker_Dir_cwp {X} root rel (opened : Z → M X) tr : (∀ fd, makes env looks (opened fd)) →
  cwp G (Walker_Dir env root rel opened) tr (λ r made, Forall (λ p, looks p.1) made ∧
    ∀ x comps, r = Ok x → dir_components rel = Ok comps → walked made root comps x.1).
Proof.
  intros Ho. unfold Walker_Dir, dir_components. apply cwp_bind.
  assert (∀ r tr' (Q : res err (list string) → trace → Prop), Q r [] →
    cwp G (match r with Ok c => mret c | Err e => throw e end : M _) tr' Q) as Hr
    by (intros [] ? ?; [apply cwp_ret|apply cwp_throw]).
  case_bool_decide.
  - apply cwp_ret. eapply cwp_mono; [by apply walk_cwp|]. intros r made [Hl Hw]. split; [done|].
    intros x comps -> [= <-]. by apply Hw.
  - apply cwp_of_res. destruct (Components rel) as [c|e]; [|by split].
    eapply cwp_mono; [by apply walk_cwp|]. intros r made [Hl Hw]. split; [done|]. intros x comps -> [= <-]. by apply Hw.
Qed.

Lemma Components_init rel comps : Components rel = Ok comps →
  dir_components (join_with "/" (removelast comps)) = Ok (removelast comps) ∧ comps ≠ [].
Proof.
  unfold Components. destruct (existsb _ _) eqn:Hbad; [done|]. intros [= <-]. pose proof (split_pieces slash rel) as Hp.
  split; [|by apply split_ne]. destruct (exists_last (split_ne slash rel)) as (l&x&Hl). rewrite Hl in *.
  rewrite removelast_last. apply Forall_app in Hp as [Hp _].
  rewrite existsb_app in Hbad. apply orb_false_iff in Hbad as [Hbad _]. unfold dir_components, Components.
  destruct l as [|c l]; [done|]. rewrite bool_decide_false.
  - by rewrite split_join, Hbad.
  - intros Hj. apply (f_equal (GoString.split slash)) in Hj. rewrite split_join in Hj by done. cbn in Hj.
    injection Hj as -> ->. done.
Qed.

Lemma openSource_cwp root rel tr :
  cwp G (openSource env root rel) tr (λ r made, Forall (λ p, looks p.1) made ∧ ∀ s, r = Ok s → found made root rel s).
Proof.
  unfold openSource. apply cwp_bind, cwp_of_res. destruct (Components rel) as [comps|e] eqn:Hc; [|by split].
  apply Components_init in Hc as Hi. destruct Hi as [Hi Hne].
  apply cwp_bind. eapply cwp_mono; [apply OpenRoot_cwp|]. intros [w|e] made [Hl Hw]; [|by split].
  destruct (Hw w eq_refl) as (aw&Hin&Haw&<-). unfold split_init.
  apply cwp_bind, cwp_wrapping. eapply cwp_mono; [apply Walker_Dir_cwp; intros fd; looks_only|].
  intros [x|e] made2 [Hl2 Hx]; cbn beta iota; [|split; [by forall_app|done]].
  apply cwp_bind. unfold lstatAt. apply cwp_bind, cwp_must; [by apply Gharmless|..].
  2:{ intros a e Ha. split; [by forall_app|done]. }
  intros a Ha. apply cwp_ret, cwp_ret. split; [by forall_app|].
  intros s [= <-]. exists (removelast comps), a. cbn. split_and!; try done.
  - by rewrite <-app_removelast_last.
  - exists aw. split_and!; [by set_solver|done|]. eapply walked_mono, Hx; try done. set_solver.
  - set_solver.
Qed.

(** ** What reads the source or checks the target *)
Lemma looks_walk {X} (opened : Z → M X) comps : (∀ fd, makes env looks (opened fd)) → ∀ parent, makes env looks (walk env opened parent comps).
Proof.
  intros Ho. induction comps as [|c comps IH]; intros parent; cbn [walk]; [apply makes_ret|].
  apply makes_bind; [by apply looks_Open|]. intros fd. apply makes_bind; [apply Ho|]. intros x.
  apply makes_bind; [apply IH|]. intros y. apply makes_ret.
Qed.
Lemma looks_Walker_Dir {X} root rel (opened : Z → M X) : (∀ fd, makes env looks (opened fd)) → makes env looks (Walker_Dir env root rel opened).
Proof. intros Ho. unfold Walker_Dir. looks_only; by apply looks_walk. Qed.
Lemma looks_checked_Dir root rel : makes env looks (Walker_Dir env root rel (λ _, mret tt)).
Proof. apply looks_Walker_Dir. intros ?. apply makes_ret. Qed.
#[local] Hint Resolve looks_checked_Dir : looks.
Lemma looks_requireNoSymlinks root dir : makes env looks (requireNoSymlinks env root dir).
Proof. unfold requireNoSymlinks, OpenRoot. looks_only. Qed.
Lemma looks_openFile s : makes env looks (openFile env s).
Proof. unfold openFile. looks_only. Qed.
#[local] Hint Resolve looks_openFile : looks.
Lemma looks_hash s : makes env looks (hash env sha256 s).
Proof. unfold hash, hashReader. looks_only. Qed.
Lemma looks_hashFile path : makes env looks (hashFile env sha256 path).
Proof. unfold hashFile, hashReader. looks_only. Qed.
Lemma looks_readlink s : makes env looks (readlink env s).
Proof. unfold readlink. looks_only. Qed.
#[local] Hint Resolve looks_hash looks_hashFile looks_readlink : looks.
Lemma looks_verifyChecksum d tmp h : makes env looks (verifyChecksum env sha256 d tmp h).
Proof. unfold verifyChecksum. looks_only. Qed.
Lemma looks_isSamePendingCopy s dst i v : makes env looks (isSamePendingCopy env sha256 s dst i v).
Proof. unfold isSamePendingCopy, sameNode. looks_only. Qed.
Lemma quiet_looks {A} key (m : M A) : makes env looks m → makes env (quiet key) m.
Proof. intros H. eapply makes_weaken, H. intros e. apply looks_quiet. Qed.
Lemma quiet_copy_each_xattr key src dst names : makes env (quiet key) (copy_each_xattr env src dst names).
Proof.
  induction names as [|n names IH]; cbn [copy_each_xattr]; [apply makes_ret|].
  apply makes_bind; [unfold getXattr; looks_only|]. intros [v|e]; [|by looks_only].
  unfold sys_call. by looks_only.
Qed.
Lemma quiet_copyXattrsTo key s dst : (se_parentfd s, se_base s) ≠ key → makes env (quiet key) (copyXattrsTo env s dst).
Proof.
  intros Hk. unfold copyXattrsTo, Open, copyXattrs, listXattrs, sys_call.
  looks_only; try done. apply quiet_copy_each_xattr.
Qed.

Lemma temp_ne name u : name ≠ name +:+ tempSuffix +:+ u.
Proof. intros H. apply (f_equal String.length) in H. rewrite !string_length_app in H. cbn in H. lia. Qed.
Lemma temp_named name u : Contains (name +:+ tempSuffix +:+ u) tempSuffix = true.
Proof. apply Contains_app. Qed.

(** The source was opened for reading and was still the file that was chosen. *)
Definition opened_source (tr : trace) (src : sourceEntry) (inp : Z) : Prop :=
  ∃ a st, (SOpenat (se_parentfd src) (se_base src) OpenRead, a) ∈ tr ∧ os_err a = None ∧ os_fd a = inp ∧
    (SFstat inp, st) ∈ tr ∧ os_err st = None ∧ fi_Kind (os_info st) = Regular ∧ sameFile (os_info st) (se_info src) = true.

Lemma openFile_cwp src tr :
  cwp G (openFile env src) tr (λ r made, ∀ inp, r = Ok inp → opened_source made src inp).
Proof.
  unfold openFile. apply cwp_bind. eapply cwp_mono; [apply Open_cwp|]. intros [fd|e] made Hfd; [|done].
  destruct (Hfd fd eq_refl) as (a&->&Ha&<-). apply cwp_bind, cwp_must; [by apply Gharmless| |done].
  intros st Hst. destruct (_ && _) eqn:E; [|by apply cwp_throw]. apply andb_true_iff in E as [Hk%bool_decide_eq_true Hs].
  apply cwp_ret. intros inp [= <-]. exists a, st. split_and!; try done; set_solver.
Qed.

Lemma temp_key src parentfd name u : Contains (se_base src) tempSuffix = false →
  (se_parentfd src, se_base src) ≠ (parentfd, name +:+ tempSuffix +:+ u).
Proof. intros Hb [= _ Heq]. rewrite Heq in Hb. by rewrite temp_named in Hb. Qed.

Lemma holds_looks key fd made t nd : Forall (λ p, looks p.1) made → holds t key fd nd → holds (replay made t) key fd nd.
Proof.
  intros Hl Ht. revert t Ht. induction Hl as [|[e a] made He _ IH]; intros t Ht; [done|]. apply IH.
  destruct e; try done; by destruct how.
Qed.
Lemma holds_name t key fd nd f : holds t key fd nd → holds (on_name key f t) key fd (f nd).
Proof. intros [Hn Hf]. split; [|done]. cbn. by rewrite Hn, alter_singleton_eq. Qed.

Lemma readlink_cwp src tr :
  cwp G (readlink env src) tr (λ r made, Forall (λ p, looks p.1) made ∧ ∀ l, r = Ok l →
    ∃ a, (SReadlinkat (se_parentfd src) (se_base src), a) ∈ made ∧ os_err a = None ∧ l = os_text a).
Proof.
  apply cwp_conj; [apply cwp_looks, looks_readlink|]. unfold readlink.
  apply cwp_bind, cwp_must; [by apply Gharmless| |done]. intros a Ha.
  apply cwp_bind, cwp_must; [by apply Gharmless| |done]. intros st Hst.
  case_match; [|by apply cwp_throw]. apply cwp_ret. intros l [= <-]. exists a. split_and!; [set_solver|done|done].
Qed.

(** ** The directories of the target *)
Context (Gtemp : ∀ tr d n e, made_here tr d n → Contains n tempSuffix = true → e = SUnlink d n ∨ e = SRmdir d n ∨ (∃ n', e = SRename d n n') → G tr e).
Definition below (root dir : string) (comps : list string) : Prop :=
  ∃ rel, relBeneath root dir = Ok rel ∧ dir_components rel = Ok comps.

Lemma mkdirLikeAt_cwp parent name src tr : cwp G (mkdirLikeAt env euid parent name src) tr (λ _ _, True).
Proof.
  unfold mkdirLikeAt. case_match; [by apply cwp_throw|]. apply cwp_bind, cwp_sys; [by apply Gharmless|]. intros u.
  set (tmp := name +:+ tempSuffix +:+ os_text u).
  apply cwp_bind, cwp_must; [by apply Gharmless| |done]. intros a Ha.
  assert (made_here (((tr ++ [(SUUID, u)]) ++ [(SMkdirat parent tmp 448, a)])) parent tmp) as Hm by (by apply made_here_last).
  apply cwp_bind. unfold or_cleanup. apply cwp_bind, cwp_try.
  eapply cwp_mono; [eapply (cwp_makes G (λ e, removal e = false)); [|by intros; apply Gharmless]|].
  { unfold openDirLikeAt, Open, sys_call. looks_only. }
  intros r made _. destruct r as [[]|e].
  - apply cwp_ret. apply cwp_bind, cwp_sys.
    { eapply Gtemp; [|apply temp_named|right; right; by eexists]. rewrite app_nil_r. by apply made_here_app. }
    intros b. case_match; [|by apply cwp_ret]. apply cwp_bind, cwp_sys.
    { eapply Gtemp; [|apply temp_named|by right; left]. rewrite app_nil_r. by do 2 apply made_here_app. }
    intros c. case_match; [by apply cwp_ret|by apply cwp_throw].
  - apply cwp_bind, cwp_sys; [eapply Gtemp; [by apply made_here_app|apply temp_named|by right; left]|]. intros b. by apply cwp_throw.
Qed.

Lemma descend_cwp parent name src tr :
  cwp G (descend env euid parent name src) tr (λ r made, ∀ fd, r = Ok fd →
    ∃ a, (SOpenat parent name OpenDir, a) ∈ made ∧ os_err a = None ∧ os_fd a = fd).
Proof.
  assert (∀ tr', cwp G (Open env parent name OpenDir) tr' (λ r made, ∀ fd, r = Ok fd →
    ∃ a, (SOpenat parent name OpenDir, a) ∈ made ∧ os_err a = None ∧ os_fd a = fd)) as Hopen.
  { intros tr'. eapply cwp_mono; [apply Open_cwp|]. intros r made H fd Hr. destruct (H fd Hr) as (a&->&?).
    exists a. by split; [left|]. }
  unfold descend. apply cwp_bind, cwp_try. eapply cwp_mono; [apply Hopen|]. intros [fd|e] made Hfd.
  - apply cwp_ret. rewrite app_nil_r. intros fd' [= <-]. by apply Hfd.
  - case_match; [|by apply cwp_throw]. apply cwp_bind. eapply cwp_mono; [apply mkdirLikeAt_cwp|].
    intros [[]|x] made' _; [|done]. eapply cwp_mono; [apply Hopen|]. intros r made'' H' fd Hr.
    destruct (H' fd Hr) as (a&?&?). exists a. split; [set_solver|done].
Qed.
Lemma descend_all_cwp comps : ∀ parent path tr,
  cwp G (descend_all env euid parent path comps) tr (λ r made, ∀ fd, r = Ok fd → walked made parent (map fst comps) fd).
Proof.
  induction comps as [|[name src] comps IH]; intros parent path tr; cbn [descend_all map fst].
  { apply cwp_ret. intros fd [= <-]. constructor. }
  apply cwp_bind, cwp_wrapping. eapply cwp_mono; [apply descend_cwp|]. intros [fd|e] made Hfd; [|done].
  destruct (Hfd fd eq_refl) as (a&Hin&Ha&<-). eapply cwp_mono; [apply IH|]. intros r made' Hw fd' Hr.
  econstructor; [|done|eapply walked_mono, Hw; [|done]]; set_solver.
Qed.
Lemma mkdirAllLike_cwp dirs root dir tr :
  cwp G (mkdirAllLike env euid dirs root dir) tr (λ r made, ∀ fd, r = Ok fd →
    ∃ comps, below root dir comps ∧ resolved made root comps fd).
Proof.
  unfold mkdirAllLike. apply cwp_bind, cwp_of_res. destruct (relBeneath root dir) as [rel|e] eqn:Hrel; [|done].
  case_bool_decide as Hempty.
  - eapply cwp_mono; [apply OpenRoot_cwp|]. intros r made [_ Hw] fd Hr. destruct (Hw fd Hr) as (a&Hin&Ha&<-).
    exists []. split; [exists rel; split; [done|]; by rewrite Hempty|]. exists a. split_and!; [set_solver|done|constructor].
  - apply cwp_bind, cwp_of_res. destruct (Components rel) as [comps|e] eqn:Hc; [|done].
    destruct (Nat.eqb_spec (length dirs) (length comps)) as [Hlen|]; [|by apply cwp_throw]. cbn [negb].
    apply cwp_bind. eapply cwp_mono; [apply OpenRoot_cwp|]. intros [w|e] made [_ Hw]; [|done].
    destruct (Hw w eq_refl) as (a&Hin&Ha&<-). eapply cwp_mono; [apply descend_all_cwp|].
    intros r made' Hd fd Hr. exists comps. split.
    + exists rel. split; [done|]. unfold dir_components. by rewrite bool_decide_false.
    + exists a. split_and!; [set_solver|done|]. specialize (Hd fd Hr). change (map fst) with (fmap (M:=list) (@fst string FileInfo)) in Hd.
      rewrite fst_zip in Hd by lia. eapply walked_mono, Hd. set_solver.
Qed.

(** ** Publishing *)
Lemma renameNoReplace_cwp d tmp name tr : made_here tr d tmp → Contains tmp tempSuffix = true → name ≠ tmp →
  cwp G (renameNoReplace env d tmp name) tr (λ r made, match r with
    | Ok None => ∀ t fd nd, holds t (d, tmp) fd nd → tg_nodes (replay made t) = {[(d, name) := with_durable false nd]}
    | Ok (Some _) => True
    | Err _ => False
    end).
Proof.
  intros Hm Htmp Hne. unfold renameNoReplace. apply cwp_bind, cwp_sys; [by apply Gharmless|]. intros a.
  destruct (os_err a) as [x|] eqn:Ha.
  - case_match; [by apply cwp_ret|]. case_match; [|by apply cwp_ret].
    unfold renameNoReplaceFallback. apply cwp_bind, cwp_sys; [by apply Gharmless|]. intros b.
    destruct (os_err b) as [y|] eqn:Hb; [by apply cwp_ret|].
    apply cwp_bind, cwp_sys; [eapply Gtemp; [by do 2 apply made_here_app|done|by left]|]. intros c. apply cwp_ret.
    destruct (os_err c) eqn:Hc; [done|]. intros t fd nd [Hn _]. cbn. rewrite Ha, Hb, Hc.
    unfold link_key. cbn. rewrite Hn, lookup_singleton_eq. cbn. rewrite delete_insert_ne by congruence.
    by rewrite delete_singleton_eq.
  - apply cwp_ret. intros t fd nd [Hn _]. cbn. rewrite Ha. unfold rename_key. rewrite Hn, lookup_singleton_eq. cbn.
    by rewrite delete_singleton_eq.
Qed.

Lemma publishTemp_cwp d tmp name tr : made_here tr d tmp → Contains tmp tempSuffix = true → name ≠ tmp →
  cwp G (publishTemp env d tmp name) tr (λ r made, match r with
    | Ok (true, None) => ∀ t fd nd, holds t (d, tmp) fd nd →
        tg_nodes (replay made t) !! (d, name) = Some (with_durable true nd)
    | Ok (true, Some _) | Ok (false, Some _) => True
    | _ => False
    end).
Proof.
  intros Hm Htmp Hne. unfold publishTemp. apply cwp_bind. eapply cwp_mono; [by apply renameNoReplace_cwp|].
  intros [[e|]|e] made Hr; [by apply cwp_ret| |done].
  apply cwp_bind, cwp_sys; [by apply Gharmless|]. intros a. apply cwp_ret.
  destruct (os_err a) eqn:Ha; [done|]. intros t fd nd Ht. rewrite app_nil_r, replay_app, replay_one. cbn.
  rewrite Ha. unfold sync_names. cbn. rewrite (Hr _ _ _ Ht), map_lookup_imap, lookup_singleton_eq. cbn. by rewrite Z.eqb_refl.
Qed.

Lemma unless_published_cwp cleanup body tr (P : trace → Prop) :
  (∀ tr', (∃ m, tr' = tr ++ m) → cwp G cleanup tr' (λ _ _, True)) →
  cwp G body tr (λ r made, match r with
    | Ok (true, None) => P made
    | Ok (false, None) => False
    | _ => True
    end) →
  cwp G (unless_published cleanup body) tr (λ r made, ∀ u, r = Ok u → P made).
Proof.
  intros Hc Hb. unfold unless_published. apply cwp_bind, cwp_try. eapply cwp_mono; [exact Hb|].
  intros [[[] [e|]]|e] made Hp; try done; apply cwp_bind.
  - apply cwp_ret. by apply cwp_throw.
  - apply cwp_ret, cwp_ret. intros u _. by rewrite app_nil_r.
  - eapply cwp_mono; [apply Hc; by eexists|]. intros [] made' _; [by apply cwp_throw|done].
  - eapply cwp_mono; [apply Hc; by eexists|]. intros [] made' _; [by apply cwp_throw|done].
Qed.

(** ** Regular files *)
Record built (info : FileInfo) (nd : node) : Prop := {
  bl_kind : nd_kind nd = fi_Kind info;
  bl_owner : nd_owner nd = Some (fi_Uid info, fi_Gid info);
  bl_mode : fi_Kind info ≠ Symlink → nd_mode nd = Perm (fi_Mode info);
  bl_mtime : nd_mtime nd = Some (fi_ModTime info);
  bl_rdev : fi_Kind info = CharDevice ∨ fi_Kind info = BlockDevice → nd_rdev nd = fi_Rdev info;
  bl_durable : nd_durable nd = true
}.

Lemma verifyChecksum_cwp d tmp h tr :
  cwp G (verifyChecksum env sha256 d tmp h) tr (λ r made, Forall (λ p, looks p.1) made ∧
    (r = Ok tt → ∃ fd a, (SReadAll fd, a) ∈ made ∧ os_err a = None ∧ sha256 (os_bytes a) = sha256 h)).
Proof.
  apply cwp_conj; [apply cwp_looks, looks_verifyChecksum|]. unfold verifyChecksum.
  apply cwp_bind, cwp_wrapping. eapply cwp_mono; [apply Open_cwp|]. intros [fd|e] made _; [|done].
  apply cwp_bind, cwp_must; [by apply Gharmless| |done]. intros a Ha.
  case_bool_decide as Hh; [|by apply cwp_throw]. apply cwp_ret. intros _. exists fd, a. split_and!; [set_solver|done|done].
Qed.

(** What the temporary file holds once it is published. *)
Definition file_built (info : FileInfo) (verify : bool) (inp : Z) (made : trace) (nd : node) : Prop :=
  built info nd ∧ nd_synced nd = true ∧
  ∀ F, reads_true F inp 0 made → nd_content nd = F ∧
    (verify = true → ∃ fd a, (SReadAll fd, a) ∈ made ∧ os_err a = None ∧ sha256 (os_bytes a) = sha256 F).

Lemma fill_regular_cwp src dst dstRoot parentfd cfg inp out tmp tr :
  (se_parentfd src, se_base src) ≠ (parentfd, tmp) → made_here tr parentfd tmp → Contains tmp tempSuffix = true → Base dst ≠ tmp → fi_Kind (se_info src) = Regular →
  cwp G (fill_regular env sha256 src dst dstRoot parentfd cfg inp out tmp) tr
    (λ r made, match r with
      | Ok (true, None) => ∀ t nd0, holds t (parentfd, tmp) out (with_content [] nd0) → pos_of out t = 0 → nd_kind nd0 = Regular →
          ∃ nd, tg_nodes (replay made t) !! (parentfd, Base dst) = Some nd ∧
            file_built (se_info src) (cfg_VerifyChecksum cfg) inp made nd
      | Ok (false, None) => False
      | _ => True
      end).
Proof.
  intros Hkey Hmade Htmp Hne Hreg. unfold fill_regular. set (info := se_info src).
  apply cwp_bind, cwp_wrapping. eapply cwp_mono; [apply copySparse_post; intros tr' []; try done; by apply Gharmless|].
  intros [hashed|e] m1 Hsparse; [|done].
  apply cwp_bind, cwp_sys; [by apply Gharmless|]. intros e.
  destruct (bool_decide (os_err e = None)) eqn:He; [|by apply cwp_throw]. apply bool_decide_eq_true in He.
  destruct (Z.eqb_spec (os_int e) (fi_Size info)) as [Hend|]; [|by apply cwp_throw]. cbn [negb orb].
  apply cwp_bind, cwp_must; [by apply Gharmless| |done]. intros a1 Ha1.
  apply cwp_bind, cwp_must; [by apply Gharmless| |done]. intros a2 Ha2.
  apply cwp_bind. eapply cwp_mono; [by apply cwp_quiet, (quiet_copyXattrsTo (parentfd, tmp))|]. intros [[]|x] m2 Hm2; [|done].
  apply cwp_bind. eapply cwp_mono with (Q := λ r made, Forall (λ p, looks p.1) made ∧
    (r = Ok tt → cfg_VerifyChecksum cfg = true → ∃ fd a, (SReadAll fd, a) ∈ made ∧ os_err a = None ∧ sha256 (os_bytes a) = sha256 hashed)).
  { destruct (cfg_VerifyChecksum cfg); [|by apply cwp_ret]. eapply cwp_mono; [apply verifyChecksum_cwp|]. naive_solver. }
  intros [[]|x] m3 [Hm3 Hver]; [|done]. specialize (Hver eq_refl).
  apply cwp_bind, cwp_must; [by apply Gharmless| |done]. intros a3 Ha3.
  apply cwp_bind, cwp_must; [by apply Gharmless| |done]. intros a4 Ha4.
  apply cwp_bind, cwp_must; [by apply Gharmless| |done]. intros a5 Ha5.
  apply cwp_bind. eapply cwp_mono; [apply cwp_looks, looks_requireNoSymlinks|]. intros [[]|x] m4 Hm4; [|done].
  eapply cwp_mono; [apply publishTemp_cwp; [by repeat apply made_here_app|done|done]|].
  intros [[[] [x|]]|x] m5 Hpub; try done. intros t nd0 Ht Hpos Hkind.
  destruct (Hsparse t _ nd0 Ht Hpos) as (c&H1&Hexact).
  apply (holds_on_fd _ _ _ _ (with_owner (fi_Uid info) (fi_Gid info))) in H1.
  apply (holds_on_fd _ _ _ _ (with_mode (Perm (fi_Mode info)))) in H1.
  apply (quiet_all _ _ m2 _ _ Hm2) in H1 as [x H1]. apply (holds_looks _ _ m3 _ _ Hm3) in H1.
  apply (holds_on_fd _ _ _ _ with_synced) in H1. apply (holds_name _ _ _ _ (with_mtime (fi_ModTime info))) in H1.
  apply (holds_looks _ _ m4 _ _ Hm4) in H1. eexists. split; [|split_and!].
  - rewrite !replay_app, !replay_one. cbn [effect]. rewrite Ha1, Ha2, Ha3, Ha5. apply (Hpub _ _ _ H1).
  - split; cbn; try done; [by rewrite Hkind|]. intros [Hk|Hk]; unfold info in Hk; congruence.
  - done.
  - intros F Htrue. apply reads_true_app in Htrue as [Hm1 Htrue]. apply (reads_true_app F inp [_]) in Htrue as [[Hsize _] _].
    cbn in Hsize. rewrite He in Hsize. specialize (Hsize eq_refl).
    destruct (Hexact F Hm1 ltac:(congruence)) as [_ Hok]. destruct (Hok _ eq_refl) as [-> ->]. split; [done|].
    intros Hv. destruct (Hver Hv) as (fd&a&Hin&Ha). exists fd, a. split; [|done]. rewrite !elem_of_app. tauto.
Qed.

(** The calls published a copy of the file [src] as [name] in the directory
    [parentfd]; [after] are those from the creation of the temporary file on. *)
Definition copied_file (src : sourceEntry) (parentfd : Z) (name : string) (verify : bool) (made : trace) : Prop :=
  ∃ before after inp nd, made = before ++ after ∧ opened_source before src inp ∧
    tg_nodes (replay after nothing) !! (parentfd, name) = Some nd ∧ file_built (se_info src) verify inp after nd.

Lemma create_holds d n p a : os_err a = None →
  holds (effect (SCreateat d n p) a nothing) (d, n) (os_fd a) (with_content [] (new_node Regular p "" 0)) ∧
  pos_of (os_fd a) (effect (SCreateat d n p) a nothing) = 0.
Proof.
  intros Ha. cbn [effect]. rewrite Ha. unfold holds, pos_of, bind_fd, create, nothing. cbn.
  rewrite !lookup_insert_eq. by split.
Qed.

Lemma copyRegular_cwp src dst dstRoot parentfd cfg tr :
  Contains (se_base src) tempSuffix = false → fi_Kind (se_info src) = Regular →
  cwp G (copyRegular env sha256 src dst dstRoot parentfd cfg) tr (λ r made, ∀ u, r = Ok u →
    copied_file src parentfd (Base dst) (cfg_VerifyChecksum cfg) made).
Proof.
  intros Hbase Hreg. unfold copyRegular. apply cwp_bind, cwp_sys; [by apply Gharmless|]. intros u.
  set (tmp := Base dst +:+ tempSuffix +:+ os_text u).
  assert ((se_parentfd src, se_base src) ≠ (parentfd, tmp)) as Hkey by (by apply temp_key).
  apply cwp_bind, cwp_wrapping. eapply cwp_mono; [apply openFile_cwp|]. intros [inp|e] m1 Hopen; [|done].
  apply cwp_bind, cwp_must; [by apply Gharmless| |done]. intros c Hc.
  assert (∀ m, made_here (((tr ++ [(SUUID, u)]) ++ m1) ++ [(SCreateat parentfd tmp (Perm (fi_Mode (se_info src))), c)] ++ m) parentfd tmp) as Hm.
  { intros m. rewrite app_assoc. by apply made_here_app, made_here_last. }
  eapply cwp_mono; [eapply unless_published_cwp; [|eapply cwp_mono; [apply fill_regular_cwp; try done|]]|].
  - intros tr' [m ->]. apply cwp_bind, cwp_sys; [by apply Gharmless|]. intros b.
    apply cwp_bind, cwp_sys; [eapply Gtemp; [|apply temp_named|by left]|]; [|intros d; by apply cwp_ret].
    rewrite <-app_assoc. apply made_here_app, Hm.
  - specialize (Hm []). by rewrite app_nil_r in Hm.
  - apply temp_named.
  - apply temp_ne.
  - intros r m2. cbn beta. exact id.
  - intros r m2 Hr x Hx. specialize (Hr x Hx). cbn beta in Hr.
    destruct (create_holds parentfd tmp (Perm (fi_Mode (se_info src))) c Hc) as [Hh Hp].
    destruct (Hr _ _ Hh Hp eq_refl) as (nd&Hnd&Hb&Hs&Ht).
    exists ([(SUUID, u)] ++ m1), ([(SCreateat parentfd tmp (Perm (fi_Mode (se_info src))), c)] ++ m2), inp, nd.
    split_and!; [by rewrite <-app_assoc| |done|split_and!; [done|done|]].
    + destruct (Hopen inp eq_refl) as (a&st&?). exists a, st. set_solver.
    + intros F [_ HF]. destruct (Ht F HF) as [? Hv]. split; [done|]. intros Hver.
      destruct (Hv Hver) as (fd&a&?&?). exists fd, a. set_solver.
Qed.

(** ** Symbolic links, FIFOs and device nodes *)

(** The calls published a node like [src]; a link's target is what was read of
    the source. *)
Definition copied_node (src : sourceEntry) (parentfd : Z) (name : string) (made : trace) : Prop :=
  ∃ before after nd, made = before ++ after ∧
    tg_nodes (replay after nothing) !! (parentfd, name) = Some nd ∧ built (se_info src) nd ∧
    (fi_Kind (se_info src) = Symlink → ∃ a, (SReadlinkat (se_parentfd src) (se_base src), a) ∈ before ∧
       os_err a = None ∧ nd_link nd = os_text a).

(** The node as it is created, with what came before. *)
Definition node_created (src : sourceEntry) (parentfd : Z) (tmp link : string) (made : trace) : Prop :=
  ∃ before e a nd, made = before ++ [(e, a)] ∧ os_err a = None ∧ creates e parentfd tmp ∧
    tg_nodes (effect e a nothing) = {[(parentfd, tmp) := nd]} ∧ nd_kind nd = fi_Kind (se_info src) ∧
    (fi_Kind (se_info src) = CharDevice ∨ fi_Kind (se_info src) = BlockDevice → nd_rdev nd = fi_Rdev (se_info src)) ∧
    (fi_Kind (se_info src) = Symlink → ∃ b, (SReadlinkat (se_parentfd src) (se_base src), b) ∈ before ∧
       os_err b = None ∧ nd_link nd = os_text b).

Lemma create_node_cwp src parentfd tmp tr :
  cwp G (create_node env src parentfd tmp) tr (λ r made, ∀ l, r = Ok l → node_created src parentfd tmp l made).
Proof.
  assert (∀ pre e link, (∀ a, os_err a = None → node_created src parentfd tmp link [(e, a)]) → removal e = false → ∀ tr',
    cwp G (_ ← must env pre e; mret link) tr' (λ r made, ∀ l, r = Ok l → node_created src parentfd tmp l made)) as Hmk.
  { intros pre e link He Hh tr'. apply cwp_bind, cwp_must; [by apply Gharmless| |done]. intros a Ha.
    apply cwp_ret. intros l [= <-]. by apply He. }
  unfold create_node. destruct (fi_Kind (se_info src)) eqn:Hk; try by apply cwp_throw.
  - apply cwp_bind, cwp_wrapping. eapply cwp_mono; [apply readlink_cwp|]. intros [l|x] m [_ Hl]; [|done].
    destruct (Hl l eq_refl) as (b&Hin&Hb&->).
    apply cwp_bind, cwp_must; [by apply Gharmless| |done]. intros a Ha. apply cwp_ret. intros l' [= <-].
    exists m, (SSymlinkat (os_text b) parentfd tmp), a, (new_node Symlink 511 (os_text b) 0).
    rewrite Hk. split_and!; [done|done|done|cbn; by rewrite Ha|done|by intros []|]. intros _. by exists b.
  - apply Hmk; [|done]. intros a Ha. eexists [], _, a, (new_node NamedPipe _ _ _). rewrite Hk.
    split_and!; [done|done|done|cbn; by rewrite Ha|done|by intros []|done].
  - apply Hmk; [|done]. intros a Ha. eexists [], _, a, (new_node CharDevice _ _ _). rewrite Hk.
    split_and!; [done|done|done|cbn; by rewrite Ha|done|done|done].
  - apply Hmk; [|done]. intros a Ha. eexists [], _, a, (new_node BlockDevice _ _ _). rewrite Hk.
    split_and!; [done|done|done|cbn; by rewrite Ha|done|done|done].
Qed.

Lemma looks_verifyNode d tmp nfd i l : makes env looks (verifyNode env d tmp nfd i l).
Proof. unfold verifyNode. looks_only. Qed.

Lemma fill_node_cwp src dst dstRoot parentfd tmp link tr :
  (se_parentfd src, se_base src) ≠ (parentfd, tmp) → made_here tr parentfd tmp → Contains tmp tempSuffix = true → Base dst ≠ tmp →
  cwp G (fill_node env euid src dst dstRoot parentfd tmp link) tr
    (λ r made, match r with
      | Ok (true, None) => ∀ t nd0, tg_nodes t = {[(parentfd, tmp) := nd0]} → nd_kind nd0 = fi_Kind (se_info src) →
          (fi_Kind (se_info src) = CharDevice ∨ fi_Kind (se_info src) = BlockDevice → nd_rdev nd0 = fi_Rdev (se_info src)) →
          ∃ nd, tg_nodes (replay made t) !! (parentfd, Base dst) = Some nd ∧ built (se_info src) nd ∧ nd_link nd = nd_link nd0
      | Ok (false, None) => False
      | _ => True
      end).
Proof.
  intros Hkey Hmade Htmp Hne. unfold fill_node. set (info := se_info src).
  apply cwp_bind, cwp_wrapping. eapply cwp_mono; [apply Open_cwp|]. intros [nfd|x] m1 Hopen; [|done].
  destruct (Hopen nfd eq_refl) as (ao&->&Hao&<-).
  apply cwp_bind, cwp_must; [by apply Gharmless| |done]. intros g Hg. destruct (negb _ || negb _); [by apply cwp_throw|].
  apply cwp_bind, cwp_must; [by apply Gharmless| |done]. intros a1 Ha1.
  apply cwp_bind. eapply cwp_mono with (Q := λ r made, r = Ok tt → ∀ t nd, holds t (parentfd, tmp) (os_fd ao) nd →
    ∃ x m, holds (replay made t) (parentfd, tmp) (os_fd ao) (with_xattrs x (with_mode m nd)) ∧
      (fi_Kind info ≠ Symlink → m = Perm (fi_Mode info))).
  { destruct (bool_decide (fi_Kind info = Symlink)) eqn:Hsym; [apply cwp_ret; intros _ t nd Ht; exists (nd_xattrs nd), (nd_mode nd); apply bool_decide_eq_true in Hsym; split; [by destruct nd|done]|].
    apply cwp_bind, cwp_must; [by apply Gharmless| |done]. intros a2 Ha2.
    eapply cwp_mono; [by apply cwp_quiet, (quiet_copyXattrsTo (parentfd, tmp))|]. intros r m Hm _ t nd Ht.
    apply (holds_on_fd _ _ _ _ (with_mode (Perm (fi_Mode info)))) in Ht.
    apply (quiet_all _ _ m _ _ Hm) in Ht as [x Ht]. exists x, (Perm (fi_Mode info)). split; [|done].
    rewrite replay_app, replay_one. cbn [effect]. by rewrite Ha2. }
  intros [[]|x] m2 Hmode; [|done]. specialize (Hmode eq_refl).
  apply cwp_bind, cwp_must; [by apply Gharmless| |done]. intros a3 Ha3.
  apply cwp_bind. eapply cwp_mono; [apply cwp_looks, looks_verifyNode|]. intros [[]|x] m3 Hm3; [|done].
  apply cwp_bind. eapply cwp_mono; [apply cwp_looks, looks_requireNoSymlinks|]. intros [[]|x] m4 Hm4; [|done].
  eapply cwp_mono; [apply publishTemp_cwp; [by repeat apply made_here_app|done|done]|].
  intros [[[] [x|]]|x] m5 Hpub; try done. intros t nd0 Hn Hkind Hrdev.
  assert (holds (effect (SOpenat parentfd tmp OpenPath) ao t) (parentfd, tmp) (os_fd ao) nd0) as H1.
  { cbn [effect]. rewrite Hao, Hn, lookup_singleton_eq. rewrite bool_decide_true by done.
    split; [done|]. cbn. by rewrite lookup_insert_eq. }
  apply (holds_on_fd _ _ _ _ (with_owner (fi_Uid info) (fi_Gid info))) in H1.
  apply Hmode in H1 as (x&m&H1&Hm). apply (holds_name _ _ _ _ (with_mtime (fi_ModTime info))) in H1.
  apply (holds_looks _ _ m3 _ _ Hm3) in H1. apply (holds_looks _ _ m4 _ _ Hm4) in H1.
  eexists. split; [|split].
  - rewrite !replay_app, !replay_one. cbn [effect]. rewrite Hao, Ha1, Ha3. cbn [effect] in H1. rewrite Hao in H1. apply (Hpub _ _ _ H1).
  - by split.
  - done.
Qed.

Lemma copyNode_cwp src dst dstRoot parentfd tr :
  Contains (se_base src) tempSuffix = false →
  cwp G (copyNode env euid src dst dstRoot parentfd) tr (λ r made, ∀ u, r = Ok u → copied_node src parentfd (Base dst) made).
Proof.
  intros Hbase. unfold copyNode. apply cwp_bind, cwp_sys; [by apply Gharmless|]. intros u.
  set (tmp := Base dst +:+ tempSuffix +:+ os_text u).
  apply cwp_bind. eapply cwp_mono; [apply create_node_cwp|]. intros [link|x] m1 Hcreate; [|done].
  destruct (Hcreate link eq_refl) as (before&e&a&nd0&->&Ha&He&Hn&Hkind&Hrdev&Hlink).
  assert (∀ m, made_here ((tr ++ [(SUUID, u)]) ++ (before ++ [(e, a)]) ++ m) parentfd tmp) as Hm.
  { intros m. rewrite !app_assoc. by apply made_here_app, made_here_last. }
  eapply cwp_mono; [eapply unless_published_cwp; [|eapply cwp_mono; [apply fill_node_cwp|]]|].
  - intros tr' [m ->]. apply cwp_bind, cwp_sys; [eapply Gtemp; [|apply temp_named|by left]|]; [|intros d; by apply cwp_ret].
    rewrite <-app_assoc. apply Hm.
  - by apply temp_key.
  - specialize (Hm []). by rewrite app_nil_r in Hm.
  - apply temp_named.
  - apply temp_ne.
  - intros r m2. cbn beta. exact id.
  - intros r m2 Hr x Hx. specialize (Hr x Hx). cbn beta in Hr.
    destruct (Hr _ _ Hn Hkind Hrdev) as (nd&Hnd&Hb&Hl).
    exists ([(SUUID, u)] ++ before), ([(e, a)] ++ m2), nd. rewrite <-!app_assoc. split_and!; [done|done|done|].
    intros Hk. destruct (Hlink Hk) as (b&Hin&Hb'&Hl'). exists b. split_and!; [set_solver|done|congruence].
Qed.

(** ** An entry *)
Definition copied (src : sourceEntry) (parentfd : Z) (name : string) (verify : bool) (made : trace) : Prop :=
  if bool_decide (fi_Kind (se_info src) = Regular) then copied_file src parentfd name verify made
  else copied_node src parentfd name made.

Lemma copied_after src parentfd name verify pre made :
  copied src parentfd name verify made → copied src parentfd name verify (pre ++ made).
Proof using Type.
  clear Gtemp Gharmless G. unfold copied. case_bool_decide.
  - intros (before&after&inp&nd&->&(a&st&Ho)&Hn). exists (pre ++ before), after, inp, nd. rewrite app_assoc.
    split_and!; [done| |apply Hn..]. exists a, st. set_solver.
  - intros (before&after&nd&->&Hn&Hb&Hl). exists (pre ++ before), after, nd. rewrite app_assoc.
    split_and!; try done. intros Hk. destruct (Hl Hk) as (a&?&?). exists a. set_solver.
Qed.

(** A copy that succeeds was published in the target's own directory. *)
Lemma copyEntry_cwp src dst dstRoot cfg tr :
  Contains (se_base src) tempSuffix = false →
  cwp G (copyEntry env sha256 euid src dst dstRoot cfg) tr (λ r made, ∀ u, r = Ok u →
    ∃ comps parentfd, below dstRoot (Dir dst) comps ∧ resolved made dstRoot comps parentfd ∧
      copied src parentfd (Base dst) (cfg_VerifyChecksum cfg) made).
Proof.
  intros Hb. unfold copyEntry. apply cwp_bind, cwp_try.
  eapply cwp_mono with (Q := λ r made, ∀ u, r = Ok u →
    ∃ comps parentfd, below dstRoot (Dir dst) comps ∧ resolved made dstRoot comps parentfd ∧
      copied src parentfd (Base dst) (cfg_VerifyChecksum cfg) made).
  2:{ intros [u|e] made H; [apply cwp_ret|by apply cwp_throw]. rewrite app_nil_r. intros ? [= <-]. by apply (H u). }
  unfold copyEntryAt. apply cwp_bind, cwp_wrapping. eapply cwp_mono; [apply mkdirAllLike_cwp|].
  intros [parentfd|e] m1 Hdir; [|done]. destruct (Hdir parentfd eq_refl) as (comps&Hbelow&Hres).
  assert (∀ (r : res err ()) (m2 : trace), (∀ u : (), r = Ok u → copied src parentfd (Base dst) (cfg_VerifyChecksum cfg) m2) →
    ∀ u, r = Ok u → ∃ comps parentfd, below dstRoot (Dir dst) comps ∧ resolved (m1 ++ m2) dstRoot comps parentfd ∧
      copied src parentfd (Base dst) (cfg_VerifyChecksum cfg) (m1 ++ m2)) as Hdone.
  { intros r m2 Hc u Hr. exists comps, parentfd. split_and!; [done|by eapply resolved_mono, Hres|apply copied_after; by eapply Hc]. }
  destruct (bool_decide (fi_Kind (se_info src) = Regular)) eqn:Hk.
  - eapply cwp_mono; [apply copyRegular_cwp; [done|by eapply bool_decide_eq_true_1]|]. intros r m2 Hr. apply Hdone.
    unfold copied. by rewrite Hk.
  - eapply cwp_mono; [by apply copyNode_cwp|]. intros r m2 Hr. apply Hdone. unfold copied. by rewrite Hk.
Qed.
End copy.
