(* ===== verification/MoverSafety.v ===== *)
(** * What the mover may remove

    A source is unlinked only once the calls of the same pass published a whole
    copy of it, or found one there, looked at it again and saw it unchanged and
    closed; an entry is reported moved exactly when its source was unlinked; and
    passes that are stopped and resumed decide every entry once. *)
From S2P Require Export CopySafety Mover.
Open Scope string_scope.
Open Scope list_scope.
Open Scope Z_scope.

(** Calls found among those of a body's parts. *)
Ltac in_trace := split_and?; (done || congruence || set_solver).

Lemma cwp_guarded {X} G (m : M X) tr Q : cwp G m tr Q → cwp G m tr (λ r made, Q r made ∧ guarded G tr made).
Proof. intros (made&Hs&Hg&Hq). by exists made. Qed.

Section mover.
Context (env : environment sys os_answer) (sha256 : data → string) (euid : Z).
Context (open : OpenChecker).

(** ** The target holds a copy *)

(** An entry found at the target that is taken for the copy an earlier pass made. *)
Definition pending (src : sourceEntry) (dst : FileInfo) (verify : bool) (made : trace) : Prop :=
  let info := se_info src in
  fi_Size dst = fi_Size info ∧ fi_ModTime dst = fi_ModTime info ∧ fi_Kind dst = fi_Kind info ∧
  match fi_Kind info with
  | Regular => verify = true → ∃ p q a b, (SReadAll p, a) ∈ made ∧ os_err a = None ∧ (SReadAll q, b) ∈ made ∧
      os_err b = None ∧ sha256 (os_bytes a) = sha256 (os_bytes b)
  | Symlink => ∃ d n p a b, (SReadlinkat d n, a) ∈ made ∧ (SReadlink p, b) ∈ made ∧ os_text a = os_text b
  | CharDevice | BlockDevice => fi_Rdev dst = fi_Rdev info
  | _ => True
  end.

Lemma pending_after src dst verify pre made : pending src dst verify made → pending src dst verify (pre ++ made).
Proof.
  unfold pending. intros (?&?&?&Hk). split_and!; [done..|]. destruct (fi_Kind (se_info src)); try done.
  - intros Hv. destruct (Hk Hv) as (p&q&a&b&?&?&?&?&?). exists p, q, a, b. set_solver.
  - destruct Hk as (d&n&p&a&b&?&?&?). exists d, n, p, a, b. set_solver.
Qed.

(** [dst] holds a copy of [src]: it was published in its own directory, walked to
    from [root], or was there and taken for one. *)
Definition in_place_at (root dst : string) (src : sourceEntry) (verify : bool) (made : trace) : Prop :=
  (∃ comps parentfd, below root (Dir dst) comps ∧ resolved made root comps parentfd ∧
     copied sha256 src parentfd (Base dst) verify made) ∨
  (∃ a, (SLstat dst, a) ∈ made ∧ os_err a = None ∧ pending src (os_info a) verify made).
Definition in_place (s : Share) (rel : string) : sourceEntry → bool → trace → Prop :=
  in_place_at (sh_ArrayPath s) (Join (sh_ArrayPath s) rel).

(** No process has the entry open, as far as the checker can tell. *)
Definition closed (root rel : string) (src : sourceEntry) (made : trace) : Prop :=
  canBeOpen (fi_Kind (se_info src)) = true →
  ∃ e a, (e = SIsOpenFile (fi_Dev (se_info src)) (fi_Ino (se_info src)) ∨ e = SIsOpen (Join root rel)) ∧
    (e, a) ∈ made ∧ os_err a = None ∧ os_yes a = false.

(** The calls so far justify unlinking [name] in the directory [d] as the source
    of an entry: it was looked at, then copied or found copied, then looked at
    again by a fresh walk and was the same and closed. *)
Definition replaced (shares : list Share) (verify : bool) (tr : trace) (d : Z) (name : string) : Prop :=
  ∃ s rel src src' t0 t1 t2 t3, s ∈ shares ∧ tr = t0 ++ t1 ++ t2 ++ t3 ∧
    found t1 (sh_CachePath s) rel src ∧ in_place s rel src verify t2 ∧
    found t3 (sh_CachePath s) rel src' ∧ matches (stampOf (se_info src)) (se_info src') = true ∧
    closed (sh_CachePath s) rel src' t3 ∧ d = se_parentfd src' ∧ name = se_base src'.

(** What a pass may remove. *)
Definition may_remove (shares : list Share) (verify : bool) (tr : trace) (e : sys) : Prop :=
  match e with
  | SUnlink d n => (made_here tr d n ∧ Contains n tempSuffix = true) ∨ replaced shares verify tr d n
  | SRmdir d n | SRename d n _ => made_here tr d n
  | SRemove p => ∃ s rel, s ∈ shares ∧ p = Join (sh_ArrayPath s) rel ∧ Contains (Base rel) tempSuffix = true
  | _ => True
  end.

Lemma harmless_may_remove shares verify tr e : removal e = false → may_remove shares verify tr e.
Proof. by destruct e. Qed.
Lemma temp_may_remove shares verify tr d n e : made_here tr d n → Contains n tempSuffix = true →
  e = SUnlink d n ∨ e = SRmdir d n ∨ (∃ n', e = SRename d n n') → may_remove shares verify tr e.
Proof. intros Hm Hc [-> | [-> | [n' ->]]]; cbn; auto. Qed.

Section body.
Context (G : trace → sys → Prop) (Gharmless : ∀ tr e, removal e = false → G tr e).

Lemma hashReader_cwp fd tr :
  cwp G (hashReader env sha256 fd) tr (λ r made, ∀ h, r = Ok h →
    ∃ a, (SReadAll fd, a) ∈ made ∧ os_err a = None ∧ h = sha256 (os_bytes a)).
Proof.
  unfold hashReader. apply cwp_bind, cwp_must; [by apply Gharmless| |done]. intros a Ha.
  apply cwp_ret. intros h [= <-]. exists a. split_and!; [set_solver|done|done].
Qed.
Definition hash_seen (h : string) (made : trace) : Prop :=
  ∃ fd a, (SReadAll fd, a) ∈ made ∧ os_err a = None ∧ h = sha256 (os_bytes a).
Lemma hash_cwp src tr : cwp G (hash env sha256 src) tr (λ r made, ∀ h, r = Ok h → hash_seen h made).
Proof.
  unfold hash. apply cwp_bind. eapply cwp_mono; [by apply openFile_cwp|]. intros [fd|e] made _; [|done].
  eapply cwp_mono; [apply hashReader_cwp|]. intros r made' H h Hr. destruct (H h Hr) as (a&?&?). exists fd, a. in_trace.
Qed.
Lemma hashFile_cwp path tr : cwp G (hashFile env sha256 path) tr (λ r made, ∀ h, r = Ok h → hash_seen h made).
Proof.
  unfold hashFile. apply cwp_bind, cwp_must; [by apply Gharmless| |done]. intros b _.
  eapply cwp_mono; [apply hashReader_cwp|]. intros r made' H h Hr. destruct (H h Hr) as (a&?&?). exists (os_fd b), a. in_trace.
Qed.

Lemma isSamePendingCopy_cwp src dst info verify tr :
  cwp G (isSamePendingCopy env sha256 src dst info verify) tr (λ r made, Forall (λ p, looks p.1) made ∧
    (r = Ok true → pending src info verify made)).
Proof.
  apply cwp_conj; [by eapply cwp_looks, looks_isSamePendingCopy|]. unfold isSamePendingCopy.
  destruct (Z.eqb_spec (fi_Size info) (fi_Size (se_info src))) as [Hsize|]; [|by apply cwp_ret].
  destruct (Z.eqb_spec (fi_ModTime info) (fi_ModTime (se_info src))) as [Htime|]; [|by apply cwp_ret]. cbn [negb orb].
  unfold pending. destruct (bool_decide (fi_Kind (se_info src) = Regular)) eqn:Hreg; cbn [negb].
  - apply bool_decide_eq_true in Hreg. rewrite Hreg.
    destruct (bool_decide (fi_Kind info = Regular)) eqn:Hk; cbn [negb]; [|by apply cwp_ret]. apply bool_decide_eq_true in Hk.
    destruct verify; [|by apply cwp_ret; intros _; split_and!]. cbn [negb].
    apply cwp_bind, cwp_wrapping. eapply cwp_mono; [apply hash_cwp|]. intros [h|e] m1 H1; [|done].
    apply cwp_bind, cwp_wrapping. eapply cwp_mono; [apply hashFile_cwp|]. intros [k|e] m2 H2; [|done].
    apply cwp_ret. intros [= Heq%bool_decide_eq_true]. subst k. split_and!; try done. intros _.
    destruct (H1 h eq_refl) as (p&a&?&?&->), (H2 _ eq_refl) as (q&b&?&?&Hq). exists p, q, a, b. in_trace.
  - unfold sameNode. destruct (bool_decide (fi_Kind (se_info src) = fi_Kind info)) eqn:Hk; cbn [negb]; [|by apply cwp_ret].
    apply bool_decide_eq_true in Hk. destruct (fi_Kind (se_info src)) eqn:Hkind; try by apply cwp_ret; intros _; split_and!.
    + apply cwp_bind, cwp_wrapping. eapply cwp_mono; [by apply readlink_cwp|]. intros [l|e] m1 [_ Hl]; [|done].
      destruct (Hl l eq_refl) as (a&Hin&Ha&->). apply cwp_bind, cwp_must; [by apply Gharmless| |done]. intros b Hb.
      apply cwp_ret. intros [= Heq%bool_decide_eq_true]. split_and!; try done. exists (se_parentfd src), (se_base src), dst, a, b. in_trace.
    + apply cwp_ret. intros [= Heq%Z.eqb_eq]. by split_and!.
    + apply cwp_ret. intros [= Heq%Z.eqb_eq]. by split_and!.
Qed.

Lemma yes_or_err_cwp e tr : removal e = false →
  cwp G (yes_or_err env e) tr (λ r made, ∀ b, r = Ok b → ∃ a, (e, a) ∈ made ∧ os_err a = None ∧ os_yes a = b).
Proof.
  intros He. unfold yes_or_err. apply cwp_bind, cwp_must; [by apply Gharmless| |done]. intros a Ha.
  apply cwp_ret. intros b [= <-]. exists a. split_and!; [set_solver|done|done].
Qed.

(** The check before the removal is never answered from a snapshot. *)
Lemma live_check_cwp root rel src tr :
  cwp G (if canBeOpen (fi_Kind (se_info src)) then isOpenSource env open Live (se_info src) (Join root rel) else mret false) tr
    (λ r made, r = Ok false → closed root rel src made).
Proof.
  unfold closed. destruct (canBeOpen _); [|by apply cwp_ret]. unfold isOpenSource.
  destruct (oc_ByFile open); (eapply cwp_mono; [by apply yes_or_err_cwp|]);
    intros r made H Hr _; destruct (H false Hr) as (a&Ha); [eexists _, a; split; [by left|exact Ha]|].
  eexists _, a. split; [by right|exact Ha].
Qed.

Definition unlinked (name : string) (made : trace) : Prop := ∃ d a, (SUnlink d name, a) ∈ made ∧ os_err a = None.

Lemma removeSource_cwp root rel entry stamp tr :
  (∀ made src, found made root rel src → matches stamp (se_info src) = true → closed root rel src made →
     G (tr ++ made) (SUnlink (se_parentfd src) (se_base src))) →
  cwp G (removeSource env open root rel entry stamp) tr (λ r made, ∃ e, r = Ok e ∧
    (∀ d n a, (SUnlink d n, a) ∈ made → ∃ above, Components rel = Ok (above ++ [n])) ∧
    (en_Result e = ResultMoved ↔ ∃ n, unlinked n made) ∧ en_Share e = en_Share entry ∧ en_Path e = en_Path entry).
Proof.
  intros Hg. unfold removeSource.
  assert (∀ (e : Entry) made, Forall (λ p, looks p.1) made → en_Result e ∈ [ResultFailed; ResultMovedPendingDelete] →
    en_Share e = en_Share entry → en_Path e = en_Path entry →
    ∃ e', Ok e = (Ok e' : res err Entry) ∧ (∀ d n a, (SUnlink d n, a) ∈ made → ∃ above, Components rel = Ok (above ++ [n])) ∧
      (en_Result e' = ResultMoved ↔ ∃ n, unlinked n made) ∧ en_Share e' = en_Share entry ∧ en_Path e' = en_Path entry) as Hkept.
  { intros e made Hl He Hsh Hp. exists e. rewrite Forall_forall in Hl. split_and!; [done|by intros d n a Hin%Hl|split|done|done].
    - intros Hr. rewrite Hr in He. set_solver.
    - by intros (n&d&a&Hin%Hl&_). }
  apply cwp_bind, cwp_try. eapply cwp_mono; [by apply openSource_cwp|]. intros [src|e] m1 [Hl1 Hsrc].
  2:{ apply cwp_ret. rewrite app_nil_r. apply Hkept; [done|by left|done|done]. }
  specialize (Hsrc src eq_refl). destruct (matches stamp (se_info src)) eqn:Hm; cbn [negb].
  2:{ apply cwp_ret. rewrite app_nil_r. apply Hkept; [done|by left|done|done]. }
  apply cwp_bind, cwp_try. eapply cwp_mono; [apply cwp_conj; [apply live_check_cwp|eapply cwp_looks; [done|]]|].
  { unfold isOpenSource, yes_or_err. looks_only. }
  intros [[]|e] m2 [Hclosed Hl2].
  1,3: apply cwp_ret; rewrite app_nil_r; apply Hkept; [by forall_app|right; by left|done|done].
  specialize (Hclosed eq_refl). apply cwp_bind, cwp_sys.
  { rewrite <-app_assoc. apply Hg; [|done|].
    - eapply found_mono, Hsrc. set_solver.
    - unfold closed in *. intros Hc. destruct (Hclosed Hc) as (e&a&?&?&?). exists e, a. in_trace. }
  intros a. destruct Hsrc as (above&b&Hcomp&_).
  assert (∀ d n b, (SUnlink d n, b) ∈ m1 ++ m2 ++ [(SUnlink (se_parentfd src) (se_base src), a)] →
    (n = se_base src ∧ b = a)) as Hone.
  { rewrite Forall_forall in Hl1, Hl2. intros d n c. rewrite !elem_of_app, list_elem_of_singleton.
    intros [Hin%Hl1|[Hin%Hl2|[= -> -> ->]]]; done. }
  destruct (os_err a) as [x|] eqn:Ha; apply cwp_ret; rewrite app_nil_r; eexists; (split; [reflexivity|]).
  - split_and!; [intros d n c [-> _]%Hone; by exists above|split; [done|]|done|done].
    intros (n&d&c&[_ ->]%Hone&Hc). congruence.
  - split_and!; [intros d n c [-> _]%Hone; by exists above|split|by case_bool_decide|by case_bool_decide].
    + intros _. exists (se_base src), (se_parentfd src), a. in_trace.
    + by case_bool_decide.
Qed.
End body.

(** ** One entry *)
Definition source_unlinked (rel : string) (made : trace) : Prop :=
  ∃ above n, Components rel = Ok (above ++ [n]) ∧ unlinked n made.

(** What the code says of an entry agrees with what it did. *)
Definition honest (s : Share) (rel : string) (r : res err Entry) (made : trace) : Prop :=
  ∃ e, r = Ok e ∧ en_Share e = sh_Name s ∧ en_Path e = rel ∧ (en_Result e = ResultMoved ↔ source_unlinked rel made).

(** No source is unlinked by these calls. *)
Definition spares (made : trace) : Prop := ∀ d n a, (SUnlink d n, a) ∈ made → Contains n tempSuffix = true.
Lemma looks_spares made : Forall (λ p, looks p.1) made → spares made.
Proof. rewrite Forall_forall. by intros Hl d n a Hin%Hl. Qed.
Lemma spares_app m1 m2 : spares m1 → spares m2 → spares (m1 ++ m2).
Proof. intros H1 H2 d n a [?|?]%elem_of_app; eauto. Qed.
Lemma spares_source rel made : Contains (Base rel) tempSuffix = false → spares made → ¬ source_unlinked rel made.
Proof.
  intros Hb Hs (above&n&Hc&d&a&Hin&_). apply Hs in Hin. unfold Components in Hc.
  destruct (existsb _ _) eqn:Hbad; [done|]. injection Hc as Hc. rewrite (Base_last rel above n Hc) in Hb; [congruence|].
  intros ->. rewrite Hc, existsb_app in Hbad. cbn in Hbad. by rewrite orb_true_r in Hbad.
Qed.
Lemma kept_honest s rel e made : Contains (Base rel) tempSuffix = false → spares made →
  en_Share e = sh_Name s → en_Path e = rel → en_Result e ≠ ResultMoved → honest s rel (Ok e) made.
Proof.
  intros Hb Hs Hsh Hp Hr. exists e. split_and!; try done. split; [done|]. intros Hu. by apply (spares_source rel made) in Hb.
Qed.

Context (shares : list Share) (cfg : Config).
Abbreviation may := (may_remove shares (cfg_VerifyChecksum cfg)).

Lemma may_harmless tr e : removal e = false → may tr e.
Proof. apply harmless_may_remove. Qed.
#[local] Hint Resolve may_harmless : core.

Lemma finishPendingDelete_cwp s rel src t0 t1 t2 :
  s ∈ shares → found t1 (sh_CachePath s) rel src → in_place s rel src (cfg_VerifyChecksum cfg) t2 → spares (t1 ++ t2) →
  Contains (Base rel) tempSuffix = false →
  cwp may (finishPendingDelete env open s rel (se_info src)) (t0 ++ t1 ++ t2) (λ r made, honest s rel r (t1 ++ t2 ++ made)).
Proof.
  intros Hs Hsrc Hplace Hsp Hb. unfold finishPendingDelete. eapply cwp_mono; [apply removeSource_cwp; [exact may_harmless|]|].
  - intros t3 src' Hsrc' Hm Hc. right. exists s, rel, src, src', t0, t1, t2, t3. rewrite <-!app_assoc. by split_and!.
  - intros r made (e&->&Hnames&Hiff&Hsh&Hp). exists e. split_and!; [done..|]. rewrite Hiff. split.
    + intros (n&d&a&Hin&Ha). destruct (Hnames d n a Hin) as [above Hc]. exists above, n. split; [done|]. exists d, a. in_trace.
    + intros (above&n&Hc&d&a&Hin&Ha). rewrite app_assoc in Hin. apply elem_of_app in Hin as [Hin|Hin]; [|by exists n, d, a].
      exfalso. apply (spares_source rel (t1 ++ t2) Hb Hsp). exists above, n. split; [done|]. by exists d, a.
Qed.

Lemma copyEntry_spares src dst dstRoot tr : Contains (se_base src) tempSuffix = false →
  cwp may (copyEntry env sha256 euid src dst dstRoot cfg) tr (λ r made, spares made ∧ (∀ u, r = Ok u →
    ∃ comps parentfd, below dstRoot (Dir dst) comps ∧ resolved made dstRoot comps parentfd ∧
      copied sha256 src parentfd (Base dst) (cfg_VerifyChecksum cfg) made)).
Proof.
  intros Hb. set (G := λ tr e, may tr e ∧ ∀ d n, e = SUnlink d n → Contains n tempSuffix = true).
  apply (cwp_guard G); [by intros tr' e []|].
  eapply cwp_mono; [apply cwp_guarded, (copyEntry_cwp env sha256 euid G)|].
  - intros tr' e He. split; [by apply may_harmless|]. by intros d n ->.
  - intros tr' d n e Hm Hc He. split; [by eapply temp_may_remove|]. intros d' n' ->.
    by destruct He as [[= -> ->]|[[=]|[? [=]]]].
  - done.
  - intros r made [Hq Hg]. split; [|exact Hq]. intros d n a Hin.
    apply list_elem_of_split in Hin as (l1&l2&->). by destruct (Hg l1 (SUnlink d n) a l2 eq_refl) as [_ H]; eapply H.
Qed.

Lemma spaceAvailable_cwp s size tr :
  cwp may (spaceAvailable env s size) tr (λ r made, Forall (λ p, looks p.1) made ∧ ∃ b, r = Ok b).
Proof.
  unfold spaceAvailable. generalize (match sh_Branches s with [] => [sh_ArrayPath s] | bs => bs end). intros bs.
  revert tr. induction bs as [|b bs IH]; intros tr; cbn [any_branch_fits]; [by apply cwp_ret; eauto|].
  apply cwp_bind, cwp_sys; [by apply may_harmless|]. intros a.
  assert (cwp may (any_branch_fits env bs (sh_MinFreeSpace s) size) (tr ++ [(SAvail b, a)])
    (λ r made, Forall (λ p, looks p.1) ([(SAvail b, a)] ++ made) ∧ ∃ b, r = Ok b)) as Hrest.
  { eapply cwp_mono; [apply IH|]. intros r made [Hl Hr]. split; [by forall_app|done]. }
  destruct (os_err a); [exact Hrest|]. case_match; [|exact Hrest]. apply cwp_ret. split; [by forall_app|eauto].
Qed.
Lemma looks_isOpenSource c i p : makes env looks (isOpenSource env open c i p).
Proof. unfold isOpenSource, yes_or_err. looks_only. Qed.

Lemma found_base root rel src made : found made root rel src → Contains (Base rel) tempSuffix = false →
  Contains (se_base src) tempSuffix = false.
Proof.
  intros (above&a&Hc&_) Hb. unfold Components in Hc. destruct (existsb _ _) eqn:Hbad; [done|]. injection Hc as Hc.
  rewrite (Base_last rel above (se_base src) Hc) in Hb; [done|].
  intros He. rewrite Hc, existsb_app, He in Hbad. cbn in Hbad. by rewrite orb_true_r in Hbad.
Qed.

(** Calls that unlink no source. *)
Ltac spare := rewrite ?app_nil_r; repeat apply spares_app; first [done | apply looks_spares; by repeat constructor].
Ltac stop Hkept := apply cwp_ret, Hkept; [spare|done|done|done].

Lemma moveEntry_cwp s rel src grace pre t0 t1 :
  s ∈ shares → found t1 (sh_CachePath s) rel src → spares t1 → Contains (Base rel) tempSuffix = false →
  cwp may (moveEntry env sha256 euid open s rel src grace cfg pre) (t0 ++ t1) (λ r made, honest s rel r (t1 ++ made)).
Proof.
  intros Hs Hsrc Hsp Hb. unfold moveEntry.
  assert (∀ e made, spares made → en_Share e = sh_Name s → en_Path e = rel → en_Result e ≠ ResultMoved →
    honest s rel (Ok e) (t1 ++ made)) as Hkept by (intros; apply kept_honest; try done; by apply spares_app).
  assert (∀ t2, in_place s rel src (cfg_VerifyChecksum cfg) t2 → spares t2 →
    cwp may (finishPendingDelete env open s rel (se_info src)) ((t0 ++ t1) ++ t2) (λ r made, honest s rel r (t1 ++ t2 ++ made))) as Hfinish.
  { intros t2 Hp Hs2. rewrite <-app_assoc. by apply finishPendingDelete_cwp; [..|apply spares_app|]. }
  destruct (bool_decide (fi_Kind (se_info src) = Socket)); [stop Hkept|].
  destruct (bool_decide (entryKind _ = "other")); [stop Hkept|].
  apply cwp_bind, cwp_sys; [by apply may_harmless|]. intros now.
  destruct (_ <? grace); [stop Hkept|].
  apply cwp_bind, cwp_sys; [by apply may_harmless|]. intros d. set (dst := Join (sh_ArrayPath s) rel) in *.
  destruct (os_err d) as [x|] eqn:Herr.
  - destruct (err_is x S_NotExist); cbn [negb]; [|stop Hkept].
    apply cwp_bind, cwp_try. eapply cwp_mono; [eapply cwp_looks; [exact may_harmless|]|].
    { destruct (canBeOpen _); [apply looks_isOpenSource|apply makes_ret]. }
    intros [[]|e] m1 Hl1; apply looks_spares in Hl1.
    1,3: stop Hkept.
    apply cwp_bind. eapply cwp_mono; [apply spaceAvailable_cwp|]. intros r m2 [Hl2 [fits ->]]; apply looks_spares in Hl2.
    destruct fits; cbn [negb]; [|stop Hkept].
    apply cwp_bind, cwp_try. eapply cwp_mono; [apply copyEntry_spares; by eapply found_base|].
    intros [u|e] m3 [Hsp3 Hcopy]; [|apply cwp_ret; destruct (err_is e S_TargetAppeared); apply Hkept; [spare|done|done|done|spare|done|done|done]].
    destruct (Hcopy u eq_refl) as (comps&parentfd&Hbelow&Hres&Hcop).
    pose (t2 := [(SNow, now)] ++ [(SLstat dst, d)] ++ m1 ++ m2 ++ m3).
    eapply cwp_mono with (Q := λ r made, honest s rel r (t1 ++ t2 ++ made)).
    2:{ intros r made Hr. unfold t2 in Hr. by rewrite <-!app_assoc in Hr. }
    assert (in_place s rel src (cfg_VerifyChecksum cfg) t2) as Hp.
    { left. exists comps, parentfd. split_and!; [done|eapply resolved_mono, Hres; unfold t2; set_solver|].
      unfold t2. rewrite !app_assoc. by apply copied_after. }
    assert (spares t2) as Hs2 by (unfold t2; spare).
    specialize (Hfinish t2 Hp Hs2). unfold t2 in Hfinish |- *. by rewrite <-!app_assoc in *.
  - apply cwp_bind, cwp_try. eapply cwp_mono; [apply (isSamePendingCopy_cwp may); exact may_harmless|].
    intros [[]|e] m1 [Hl1 Hpend]; apply looks_spares in Hl1; [|stop Hkept|stop Hkept].
    specialize (Hpend eq_refl). pose (t2 := [(SNow, now)] ++ [(SLstat dst, d)] ++ m1).
    apply cwp_bind. eapply cwp_mono with (Q := λ r made, honest s rel r (t1 ++ t2 ++ made)).
    { assert (in_place s rel src (cfg_VerifyChecksum cfg) t2) as Hp.
      { right. exists d. split_and!; [unfold t2; set_solver|done|].
        unfold t2. rewrite app_assoc. by apply pending_after. }
      assert (spares t2) as Hs2 by (unfold t2; spare).
      specialize (Hfinish t2 Hp Hs2). unfold t2 in Hfinish |- *. by rewrite <-!app_assoc in *. }
    intros r made (e&->&Hsh&Hpa&Hiff). apply cwp_ret. rewrite app_nil_r.
    unfold t2 in Hiff. rewrite <-!app_assoc in Hiff. eexists. split; [reflexivity|]. by case_bool_decide.
Qed.

Context (Match : string → string → bool).
Lemma processFile_cwp s rel grace pre tr :
  s ∈ shares → Contains (Base rel) tempSuffix = false →
  cwp may (processFile env sha256 euid Match open s rel grace cfg pre) tr (λ r made, honest s rel r made).
Proof.
  intros Hs Hb. unfold processFile. destruct (matchExclude _ _); [by apply cwp_ret, kept_honest; [|apply looks_spares| | |]|].
  apply cwp_bind, cwp_try. eapply cwp_mono; [apply openSource_cwp; exact may_harmless|].
  intros [src|e] m1 [Hl1 Hsrc]; apply looks_spares in Hl1.
  2:{ apply cwp_ret. rewrite app_nil_r. destruct (err_is e S_NotExist); by apply kept_honest. }
  apply cwp_bind. eapply cwp_mono; [apply moveEntry_cwp; by eauto|].
  intros r m2 (e&->&Hsh&Hpa&Hiff). apply cwp_ret. rewrite app_nil_r. eexists. split; [reflexivity|].
  by destruct (bool_decide _ && _).
Qed.
End mover.
