(* ===== verification/MoverRun.v ===== *)
(** * A pass of the mover

    Over a whole [Run] every removal is justified and every reported outcome is
    true of the calls made, and a pass that was stopped and is resumed from its
    checkpoint decides each entry once. *)
From stdpp Require Import pretty.
From S2P Require Export MoverSafety.
Open Scope string_scope.
Open Scope list_scope.
Open Scope Z_scope.

Section mover.
Context (env : environment sys os_answer) (sha256 : data → string) (euid : Z).
Context (Match : string → string → bool) (open : OpenChecker).
Context (shares : list Share) (cfg : Config).
Abbreviation may := (may_remove sha256 shares (cfg_VerifyChecksum cfg)).
#[local] Hint Resolve may_harmless : core.

(** An entry of a share, never one of the copies under construction. *)
Definition listed (rel : string) : Prop := Contains (Base rel) tempSuffix = false.

Lemma enumerateEntries_cwp root tr :
  cwp may (enumerateEntries env root) tr (λ r made, ∀ rels, r = Ok rels → Forall listed rels).
Proof.
  unfold enumerateEntries. apply cwp_bind, cwp_sys; [by apply may_harmless|]. intros st.
  destruct (os_err st) as [e|]; [destruct (err_is e S_NotExist); [apply cwp_ret|by apply cwp_throw]|].
  - by intros rels [= <-].
  - apply cwp_bind, cwp_must; [by apply may_harmless| |done]. intros w _. apply cwp_ret. intros rels [= <-].
    apply Forall_forall. intros rel Hin. unfold Strings_sort in Hin. rewrite merge_sort_Permutation in Hin.
    apply list_elem_of_fmap in Hin as ([p b]&->&Hin). apply list_elem_of_filter in Hin as [[_ H] _]. exact H.
Qed.

Lemma enumerate_all_cwp ss : ∀ tr,
  cwp may (enumerate_all env ss) tr (λ r made, ∀ plan, r = Ok plan → Forall (Forall listed) plan).
Proof.
  induction ss as [|s ss IH]; intros tr; cbn [enumerate_all]; [apply cwp_ret; by intros ? [= <-]|].
  apply cwp_bind, cwp_wrapping. eapply cwp_mono; [apply enumerateEntries_cwp|]. intros [rels|e] m H; [|done].
  apply cwp_bind. eapply cwp_mono; [apply IH|]. intros [plan|e] m' H'; [|done].
  apply cwp_ret. intros ? [= <-]. constructor; [by apply H|by apply H'].
Qed.

Lemma sweep_cwp s entries : s ∈ shares → ∀ skipped tr,
  cwp may (sweep env (sh_ArrayPath s) entries skipped) tr (λ _ _, True).
Proof.
  intros Hs. induction entries as [|[rel dir] entries IH]; intros skipped tr; cbn [sweep]; [by apply cwp_ret|].
  destruct (from_option _ _ _); [apply IH|]. destruct (Contains (Base rel) tempSuffix) eqn:Hc; cbn [negb]; [|apply IH].
  apply cwp_bind, cwp_sys; [cbn; by exists s, rel|]. intros a.
  destruct (os_err a); [destruct (_ && _); [|by apply cwp_throw]|]; (eapply cwp_mono; [apply IH|done]).
Qed.
Lemma sweepStrayTemps_cwp s tr : s ∈ shares → cwp may (sweepStrayTemps env (sh_ArrayPath s)) tr (λ _ _, True).
Proof.
  intros Hs. unfold sweepStrayTemps. apply cwp_bind, cwp_sys; [by apply may_harmless|]. intros st.
  destruct (os_err st) as [e|]; [destruct (err_is e S_NotExist); [by apply cwp_ret|by apply cwp_throw]|].
  apply cwp_bind, cwp_sys; [by apply may_harmless|]. intros w. apply cwp_bind.
  eapply cwp_mono; [by apply sweep_cwp|]. intros [u|e] m _; [|done].
  destruct (os_err w); [by apply cwp_throw|by apply cwp_ret].
Qed.

(** What is reported of an entry is true of the calls made for it. *)
Definition accounted (made : trace) (e : Entry) : Prop :=
  ∃ s before own after, s ∈ shares ∧ made = before ++ own ++ after ∧ honest s (en_Path e) (Ok e) own.
Lemma accounted_app m1 m2 m3 e : accounted m2 e → accounted (m1 ++ m2 ++ m3) e.
Proof.
  intros (s&b&o&a&Hs&->&Hh). exists s, (m1 ++ b), o, (a ++ m3). split_and!; [done|by rewrite <-!app_assoc|done].
Qed.

Definition reports (report : list Entry) (r : res err (list Entry * pass_end)) (made : trace) : Prop :=
  ∃ x more, r = Ok x ∧ x.1 = report ++ more ∧ Forall (accounted made) more.

Lemma reports_none report end_ made : reports report (Ok (report, end_)) made.
Proof. exists (report, end_), []. by rewrite app_nil_r. Qed.
Lemma reports_more report more r m1 m2 :
  Forall (accounted m1) more → reports (report ++ more) r m2 → reports report r (m1 ++ m2).
Proof.
  intros H1 (x&more'&->&Hx&H2). exists x, (more ++ more'). rewrite app_assoc. split_and!; [done|done|].
  apply Forall_app. split; (eapply Forall_impl; [eassumption|]); intros e He.
  - by apply (accounted_app []).
  - rewrite <-(app_nil_r m2). by apply accounted_app.
Qed.

Lemma move_files_cwp i s after grace pre rels : s ∈ shares → Forall listed rels → ∀ report tr,
  cwp may (move_files env sha256 euid Match open i s after grace cfg pre rels report) tr (reports report).
Proof.
  intros Hs. induction rels as [|rel rels IH]; intros Hl report tr; cbn [move_files]; [apply cwp_ret, reports_none|].
  apply Forall_cons in Hl as [Hrel Hl]. specialize (IH Hl). destruct (resumed_past after rel); [apply IH|].
  apply cwp_bind, cwp_sys; [by apply may_harmless|]. intros c. destruct (negb _); [apply cwp_ret, reports_none|].
  apply cwp_bind, cwp_sys; [by apply may_harmless|]. intros q. destruct (os_yes q); [apply cwp_ret, reports_none|].
  apply cwp_bind. eapply cwp_mono; [by apply processFile_cwp|]. intros r m (e&->&Hh).
  apply cwp_bind, cwp_sys; [by apply may_harmless|]. intros a.
  assert (Forall (accounted ([(SCtxErr, c)] ++ [(SStopRequested, q)] ++ m ++ [(SSaveCheckpoint (marshal_Checkpoint (mkMoverCheckpoint i rel)), a)])) [e]) as He.
  { constructor; [|done]. rewrite app_assoc. apply accounted_app. exists s, [], m, []. rewrite app_nil_r.
    split_and!; [done..|]. exists e. destruct Hh as (?&->&?). done. }
  destruct (os_err a).
  - apply cwp_ret. eexists _, [e]. split_and!; [reflexivity|done|]. by rewrite app_nil_r.
  - eapply cwp_mono; [apply IH|]. intros r' m' Hr. apply (reports_more _ _ _ _ _ He) in Hr. by rewrite <-!app_assoc in Hr.
Qed.

Lemma move_share_cwp i s rels grace cp report tr : s ∈ shares → Forall listed rels →
  cwp may (move_share env sha256 euid Match open i s rels grace cfg cp report) tr (reports report).
Proof.
  intros Hs Hl. unfold move_share. apply cwp_bind, cwp_try. eapply cwp_mono; [by apply sweepStrayTemps_cwp|].
  intros [u|e] m _; [|apply cwp_ret, reports_none]. apply cwp_bind, cwp_try.
  eapply cwp_mono with (Q := λ _ _, True).
  { unfold shareOpenChecker. destruct (negb _); [by apply cwp_ret|].
    apply cwp_bind, cwp_must; [by apply may_harmless|intros; by apply cwp_ret|done]. }
  intros [pre|e] m' _; [|apply cwp_ret, reports_none].
  eapply cwp_mono; [by apply move_files_cwp|]. intros r m'' H. rewrite app_assoc. by apply (reports_more _ []); [|rewrite app_nil_r].
Qed.

Lemma move_shares_cwp grace cp todo : Forall (λ p, p.1 ∈ shares ∧ Forall listed p.2) todo → ∀ i report tr,
  cwp may (move_shares env sha256 euid Match open i todo grace cfg cp report) tr (reports report).
Proof.
  induction todo as [|[s rels] todo IH]; intros Ht i report tr; cbn [move_shares]; [apply cwp_ret, reports_none|].
  apply Forall_cons in Ht as [[Hs Hl] Ht]. specialize (IH Ht). destruct (i <? cp_ShareIndex cp); [apply IH|].
  apply cwp_bind. eapply cwp_mono; [by apply move_share_cwp|]. intros r m (x&more&->&Hx&Hm).
  assert (∀ end_ m', x.2 = end_ → m' = m → reports report (Ok x) (m ++ [])) as Hend.
  { intros end_ m' _ _. exists x, more. by rewrite app_nil_r. }
  destruct (x.2) eqn:Hend2; [|by eapply cwp_ret, Hend..].
  eapply cwp_mono; [apply IH|]. intros r' m' Hr. rewrite Hx in Hr. by eapply reports_more.
Qed.

Lemma in_zip {X Y} (l : list X) (k : list Y) p : p ∈ zip l k → p.1 ∈ l ∧ p.2 ∈ k.
Proof.
  revert k. induction l as [|x l IH]; intros [|y k]; cbn; try (by intros ?%not_elem_of_nil).
  intros [->|H]%elem_of_cons; [split; by left|]. apply IH in H as [? ?]. split; by right.
Qed.

Lemma Run_cwp data tr :
  cwp may (Run env sha256 euid Match open shares cfg data) tr (λ r made, ∃ report e, r = Ok (report, e) ∧
    Forall (accounted made) (rp_Entries report)).
Proof.
  unfold Run. destruct (if bytes_empty data then _ else _) as [cp|e].
  2:{ apply cwp_ret. by eexists _, _. }
  apply cwp_bind, cwp_sys; [by apply may_harmless|]. intros start. apply cwp_bind, cwp_try.
  eapply cwp_mono; [apply enumerate_all_cwp|]. intros [plan|e] m Hplan.
  2:{ apply cwp_bind, cwp_sys; [by apply may_harmless|]. intros now. apply cwp_ret. by eexists _, _. }
  specialize (Hplan plan eq_refl). apply cwp_bind. eapply cwp_mono; [apply move_shares_cwp|].
  { apply Forall_forall. intros p [Hs Hr]%in_zip. split; [done|]. rewrite Forall_forall in Hplan. by apply Hplan. }
  intros r m' (x&more&->&Hx&Hm). cbn in Hx. rewrite <-Hx in Hm. clear Hx.
  apply cwp_bind, cwp_sys; [by apply may_harmless|]. intros now.
  assert (∀ rest, Forall (accounted ([(SNow, start)] ++ m ++ m' ++ rest)) x.1) as Hall.
  { intros rest. eapply Forall_impl; [exact Hm|]. intros e He. rewrite app_assoc. by apply accounted_app. }
  destruct (x.2).
  - apply cwp_bind, cwp_sys; [by apply may_harmless|]. intros c. apply cwp_ret. eexists _, _. split; [reflexivity|]. apply Hall.
  - apply cwp_ret. eexists _, _. split; [reflexivity|]. apply Hall.
  - apply cwp_ret. eexists _, _. split; [reflexivity|]. apply Hall.
Qed.
End mover.

(** ** A world with one share of two files *)
Module Demo.
Definition file : FileInfo := mkFileInfo Regular 420 2 7 7 1 100 1 1000 1000 0 8.
Definition answer : os_answer := answered None 3 file "" [] 0 false [].
Definition number (n : Z) : os_answer := answered None 3 file "" [] n false [].
Definition world (e : sys) : os_answer :=
  match e with
  | SOpenRoot p => answered None (if bool_decide (p = "/cache") then 3 else 4) file "" [] 0 false []
  | SOpenat _ _ _ => answered None 5 file "" [] 0 false []
  | SCreateat _ _ _ => answered None 6 file "" [] 0 false []
  | SLstat _ => answered (Some (ESentinel S_NotExist)) 0 file "" [] 0 false []
  | SUUID => answered None 0 file "1" [] 0 false []
  | SCopyN _ _ _ => answered None 0 file "" [x41; x42] 2 false []
  | SSeekEnd _ => number 2
  | SNow | SAvail _ => number 1000000000000
  | SWalkDir p => answered None 0 file "" [] 0 false (if bool_decide (p = "/cache") then [("b", false); ("a", false)] else [])
  | _ => answer
  end.
(** Asked to stop once [n] checkpoints are saved. *)
Definition env (n : nat) : environment sys os_answer := λ tr e,
  match e with
  | SStopRequested =>
      answered None 0 file "" [] 0
        (n <=? length (filter (λ c, match c.1 with SSaveCheckpoint _ => true | _ => false end = true) tr))%nat []
  | _ => world e
  end.
Definition sha256 (d : data) : string := pretty (N.of_nat (length d)).
Definition share : Share := mkShare "media" "/cache" "/array" ["/d1"] 0 [] false.
Definition cfg : Config := mkConfig 0 false false.
Definition checker_ : OpenChecker := mkOpenChecker false false true.
Definition run (n : nat) (data : bytes) (tr : trace) := Run (env n) sha256 0 (λ _ _, false) checker_ [share] cfg data tr.
End Demo.

Example demo_moves : 
  match Demo.run 5 BNil [] with
  | (Ok (report, None), w) => map (λ e, (en_Path e, en_Result e)) (rp_Entries report) = [("a", ResultMoved); ("b", ResultMoved)]
  | _ => False
  end.
Proof. vm_compute. reflexivity. Qed.

(** ** What a run does *)

(** C22: Whatever the kernel answers, every removal a run makes is of a temporary
    entry it made itself, of a stray temporary file below an array path, or of a
    source that was looked at, copied whole (or found copied) into the target's
    own directory, and looked at again by a fresh walk and seen unchanged and
    closed, all by earlier calls of the run. *)
Theorem source_removed_only_after_copy env sha256 euid Match open shares cfg data r before e a after :
  Run env sha256 euid Match open shares cfg data [] = (r, before ++ (e, a) :: after) →
  may_remove sha256 shares (cfg_VerifyChecksum cfg) before e.
Proof.
  intros Hrun. destruct (Run_cwp env sha256 euid Match open shares cfg data []) as (made&Hs&Hg&_).
  rewrite Hrun in Hs. by apply (Hg before e a after).
Qed.

Lemma source_removed_only_after_copy_witness :
  let w := (Demo.run 5 BNil []).2 in
  w !! 34%nat = Some (SUnlink 3 "a", Demo.answer) ∧ may_remove Demo.sha256 [Demo.share] false (take 34 w) (SUnlink 3 "a").
Proof.
  intros w. split; [vm_compute; reflexivity|].
  apply (source_removed_only_after_copy (Demo.env 5) Demo.sha256 0 (λ _ _, false) Demo.checker_ [Demo.share] Demo.cfg BNil
    (Demo.run 5 BNil []).1 (take 34 w) (SUnlink 3 "a") Demo.answer (drop 35 w)).
  vm_compute. reflexivity.
Defined.

(** A run always returns a report, and each entry of it is true: it names an
    entry of one of the shares, and says that it was moved exactly when one of
    the calls made for it unlinked the source. *)
Theorem report_is_true env sha256 euid Match open shares cfg data :
  ∃ report err made, Run env sha256 euid Match open shares cfg data [] = (Ok (report, err), made) ∧
    ∀ e, e ∈ rp_Entries report → ∃ s before own after, s ∈ shares ∧ made = before ++ own ++ after ∧
      en_Share e = sh_Name s ∧ (en_Result e = ResultMoved ↔ source_unlinked (en_Path e) own).
Proof.
  destruct (Run_cwp env sha256 euid Match open shares cfg data []) as (made&Hs&_&report&err&Hr&Hall).
  exists report, err, made. split; [by rewrite <-Hr, <-(app_nil_l made), <-Hs, <-surjective_pairing|].
  rewrite Forall_forall in Hall. intros e (s&before&own&after&Hin&->&e'&[= <-]&Hsh&_&Hiff)%Hall.
  by exists s, before, own, after.
Qed.
