(* ===== verification/MoverResume.v ===== *)
(** * Resuming a pass *)
From stdpp Require Import pretty.
From S2P Require Export MoverRun.
Open Scope string_scope.
Open Scope list_scope.
Open Scope Z_scope.

(** ** The calls made for one entry *)

(** Calls a pass makes between the entries. *)
Definition pass_call (e : sys) : bool :=
  match e with SSaveCheckpoint _ | SCtxErr | SStopRequested | SSync _ => true | _ => false end.
Abbreviation inside := (λ e, pass_call e = false).
Create HintDb inside.
Ltac inside_only :=
  unfold sys_call;
  repeat first
    [ solve [auto with inside nocore] | apply makes_ret | apply makes_throw | apply makes_must | apply makes_wrapping | apply makes_try
    | apply makes_of_res | apply makes_call | exact I | reflexivity
    | apply makes_bind; [|intros ?] | case_match ].

Section inside.
Context (env : environment sys os_answer) (sha256 : data → string) (euid : Z).
Context (Match : string → string → bool) (open : OpenChecker).

Lemma inside_Open d n how : makes env inside (Open env d n how).
Proof. unfold Open. inside_only. Qed.
#[local] Hint Resolve inside_Open : inside.
Lemma inside_walk {X} (opened : Z → M X) comps : (∀ fd, makes env inside (opened fd)) → ∀ parent, makes env inside (walk env opened parent comps).
Proof. intros Ho. induction comps as [|c comps IH]; intros parent; cbn [walk]; inside_only. Qed.
Lemma inside_Walker_Dir {X} root rel (opened : Z → M X) : (∀ fd, makes env inside (opened fd)) → makes env inside (Walker_Dir env root rel opened).
Proof. intros Ho. unfold Walker_Dir. inside_only; auto using inside_walk. Qed.
Lemma inside_stat_Dir root rel : makes env inside (Walker_Dir env root rel (λ fd, a ← must env "" (SStatFd fd); mret (os_info a))).
Proof. apply inside_Walker_Dir. intros fd. inside_only. Qed.
Lemma inside_checked_Dir root rel : makes env inside (Walker_Dir env root rel (λ _, mret tt)).
Proof. apply inside_Walker_Dir. intros fd. inside_only. Qed.
#[local] Hint Resolve inside_stat_Dir inside_checked_Dir : inside.
Lemma inside_openSource root rel : makes env inside (openSource env root rel).
Proof. unfold openSource, OpenRoot, lstatAt. inside_only. Qed.
Lemma inside_openFile s : makes env inside (openFile env s).
Proof. unfold openFile. inside_only. Qed.
Lemma inside_hash s : makes env inside (hash env sha256 s).
Proof. unfold hash, openFile, hashReader. inside_only. Qed.
Lemma inside_hashFile p : makes env inside (hashFile env sha256 p).
Proof. unfold hashFile, hashReader. inside_only. Qed.
Lemma inside_readlink s : makes env inside (readlink env s).
Proof. unfold readlink. inside_only. Qed.
#[local] Hint Resolve inside_openSource inside_openFile inside_hash inside_hashFile inside_readlink : inside.
Lemma inside_copy_each_xattr src dst names : makes env inside (copy_each_xattr env src dst names).
Proof. induction names as [|n names IH]; cbn [copy_each_xattr]; unfold getXattr; inside_only. Qed.
#[local] Hint Resolve inside_copy_each_xattr : inside.
Lemma inside_copyXattrsTo s dst : makes env inside (copyXattrsTo env s dst).
Proof. unfold copyXattrsTo, copyXattrs, listXattrs. inside_only. Qed.
Lemma inside_requireNoSymlinks a b : makes env inside (requireNoSymlinks env a b).
Proof. unfold requireNoSymlinks, OpenRoot. inside_only. Qed.
#[local] Hint Resolve inside_copyXattrsTo inside_requireNoSymlinks : inside.
Lemma inside_descend p n src : makes env inside (descend env euid p n src).
Proof. unfold descend, mkdirLikeAt, or_cleanup, openDirLikeAt. inside_only. Qed.
#[local] Hint Resolve inside_descend : inside.
Lemma inside_descend_all comps : ∀ parent path, makes env inside (descend_all env euid parent path comps).
Proof. induction comps as [|[n src] comps IH]; intros parent path; cbn [descend_all]; inside_only. Qed.
#[local] Hint Resolve inside_descend_all : inside.
Lemma inside_mkdirAllLike dirs a b : makes env inside (mkdirAllLike env euid dirs a b).
Proof. unfold mkdirAllLike, OpenRoot. inside_only. Qed.
Lemma inside_publishTemp d t n : makes env inside (publishTemp env d t n).
Proof. unfold publishTemp, renameNoReplace, renameNoReplaceFallback. inside_only. Qed.
Lemma inside_copy_extents fuel out inp size : ∀ off hashed, makes env inside (copy_extents env fuel out inp size off hashed).
Proof. induction fuel as [|fuel IH]; intros off hashed; cbn [copy_extents]; unfold CopyN; inside_only. Qed.
#[local] Hint Resolve inside_mkdirAllLike inside_publishTemp inside_copy_extents : inside.
Lemma inside_copySparse out inp size holes : makes env inside (copySparse env out inp size holes).
Proof. unfold copySparse, CopyN. inside_only. Qed.
Lemma inside_verifyChecksum d t h : makes env inside (verifyChecksum env sha256 d t h).
Proof. unfold verifyChecksum, hashReader. inside_only. Qed.
#[local] Hint Resolve inside_copySparse inside_verifyChecksum : inside.
Lemma inside_verifyNode d tmp nfd i l : makes env inside (verifyNode env d tmp nfd i l).
Proof. unfold verifyNode. inside_only. Qed.
Lemma inside_create_node src d tmp : makes env inside (create_node env src d tmp).
Proof. unfold create_node. inside_only. Qed.
#[local] Hint Resolve inside_verifyNode inside_create_node : inside.
Lemma inside_copyRegular src dst root d cfg : makes env inside (copyRegular env sha256 src dst root d cfg).
Proof. unfold copyRegular, fill_regular, unless_published. inside_only. Qed.
Lemma inside_copyNode src dst root d : makes env inside (copyNode env euid src dst root d).
Proof. unfold copyNode, fill_node, unless_published. inside_only. Qed.
#[local] Hint Resolve inside_copyRegular inside_copyNode : inside.
Lemma inside_copyEntry src dst root cfg : makes env inside (copyEntry env sha256 euid src dst root cfg).
Proof. unfold copyEntry, copyEntryAt. inside_only. Qed.
Lemma inside_any_branch_fits bs a b : makes env inside (any_branch_fits env bs a b).
Proof. induction bs as [|x bs IH]; cbn [any_branch_fits]; inside_only. Qed.
#[local] Hint Resolve inside_copyEntry inside_any_branch_fits : inside.
Lemma inside_removeSource root rel e st : makes env inside (removeSource env open root rel e st).
Proof. unfold removeSource, isOpenSource, yes_or_err. inside_only. Qed.
#[local] Hint Resolve inside_removeSource : inside.
Lemma inside_processFile s rel grace cfg pre : makes env inside (processFile env sha256 euid Match open s rel grace cfg pre).
Proof.
  unfold processFile, moveEntry, finishPendingDelete, isSamePendingCopy, sameNode, isOpenSource, yes_or_err, spaceAvailable.
  inside_only.
Qed.
Lemma inside_sweep root entries : ∀ skipped, makes env inside (sweep env root entries skipped).
Proof. induction entries as [|[rel dir] entries IH]; intros skipped; cbn [sweep]; inside_only. Qed.
#[local] Hint Resolve inside_sweep : inside.
Lemma inside_sweepStrayTemps root : makes env inside (sweepStrayTemps env root).
Proof. unfold sweepStrayTemps. inside_only. Qed.
Lemma inside_shareOpenChecker : makes env inside (shareOpenChecker env open).
Proof. unfold shareOpenChecker. inside_only. Qed.
Lemma inside_enumerateEntries root : makes env inside (enumerateEntries env root).
Proof. unfold enumerateEntries. inside_only. Qed.
#[local] Hint Resolve inside_enumerateEntries : inside.
Lemma inside_enumerate_all ss : makes env inside (enumerate_all env ss).
Proof. induction ss as [|s ss IH]; cbn [enumerate_all]; inside_only. Qed.
End inside.

(** ** The checkpoint *)

(** The checkpoint data after some calls: the last that was saved. *)
Definition save (data : bytes) (c : sys * os_answer) : bytes :=
  match c with (SSaveCheckpoint d, a) => match os_err a with Some _ => data | None => d end | _ => data end.
Definition saved (data : bytes) (made : trace) : bytes := foldl save data made.
Lemma saved_app data m1 m2 : saved data (m1 ++ m2) = saved (saved data m1) m2.
Proof. apply foldl_app. Qed.
Lemma saved_inside data made : Forall (λ p, inside p.1) made → saved data made = data.
Proof. induction 1 as [|[e a] made He _ IH]; [done|]. cbn. by destruct e. Qed.

(** The checkpoint that [Run] reads from the data it is given. *)
Definition decoded (data : bytes) : res err Checkpoint :=
  if bytes_empty data then Ok (mkMoverCheckpoint 0 "") else unmarshal_Checkpoint data.

Lemma unmarshal_marshal cp : 0 ≤ cp_ShareIndex cp ≤ max_int64 → decoded (marshal_Checkpoint cp) = Ok cp.
Proof.
  intros Hi. destruct cp as [i p]; cbn in Hi. unfold decoded, marshal_Checkpoint, unmarshal_Checkpoint.
  json_read. by rewrite Atoi_pretty_Z by (unfold in_int64, min_int64; lia).
Qed.

(** ** What is left to decide *)
Definition after_of (i : Z) (cp : Checkpoint) : string := if i =? cp_ShareIndex cp then cp_LastPath cp else "".
Definition ahead (after : string) (rels : list string) : list string := filter (λ rel, resumed_past after rel = false) rels.
Definition share_undecided (i : Z) (s : Share) (rels : list string) (cp : Checkpoint) : list (string * string) :=
  if i <? cp_ShareIndex cp then [] else map (pair (sh_Name s)) (ahead (after_of i cp) rels).
Fixpoint undecided (i : Z) (todo : list (Share * list string)) (cp : Checkpoint) : list (string * string) :=
  match todo with
  | [] => []
  | (s, rels) :: rest => share_undecided i s rels cp ++ undecided (i + 1) rest cp
  end.
Definition named (e : Entry) : string * string := (en_Share e, en_Path e).

(** A listing as the code makes it: sorted, each path once. *)
Definition listing (rels : list string) : Prop :=
  StronglySorted path_le rels ∧ NoDup rels ∧ ("" ∉ rels) ∧ Forall listed rels.

Lemma NoDup_split_eq {X} (x : X) l1 : ∀ l2 k1 k2,
  NoDup (l1 ++ x :: l2) → l1 ++ x :: l2 = k1 ++ x :: k2 → l1 = k1 ∧ l2 = k2.
Proof.
  induction l1 as [|y l1 IH]; intros l2 [|z k1] k2 Hd Heq; cbn in *; simplify_eq; [done|..]; apply NoDup_cons in Hd as [Hn Hd].
  - exfalso. apply Hn. apply elem_of_app. right. by left.
  - exfalso. apply Hn. apply elem_of_app. right. by left.
  - by destruct (IH l2 k1 k2 Hd) as [-> ->].
Qed.

Lemma filter_all {X} (P : X → Prop) `{∀ x, Decision (P x)} (l : list X) : (∀ x, x ∈ l → P x) → filter P l = l.
Proof.
  induction l as [|x l IH]; intros Hl; [done|]. rewrite filter_cons_True by (apply Hl; by left).
  f_equal. apply IH. intros y Hy. apply Hl. by right.
Qed.
Lemma filter_none {X} (P : X → Prop) `{∀ x, Decision (P x)} (l : list X) : (∀ x, x ∈ l → ¬ P x) → filter P l = [].
Proof.
  induction l as [|x l IH]; intros Hl; [done|]. rewrite filter_cons_False by (apply Hl; by left).
  apply IH. intros y Hy. apply Hl. by right.
Qed.

Lemma ahead_none rels : ahead "" rels = rels.
Proof. by apply filter_all. Qed.
Lemma resumed_past_false after rel : resumed_past after rel = false ↔ after = "" ∨ ¬ path_le rel after.
Proof.
  unfold resumed_past. rewrite andb_false_iff, negb_false_iff, bool_decide_eq_true, bool_decide_eq_false. done.
Qed.

(** Past the last of the paths already decided lie the ones not decided. *)
Lemma ahead_of_last rels after ps p more :
  listing rels → ahead after rels = ps ++ p :: more → ahead p rels = more.
Proof.
  intros (Hs&Hd&He&_) Ha.
  assert (p ∈ rels ∧ resumed_past after p = false) as [Hp Hpa].
  { assert (p ∈ ahead after rels) as Hin by (rewrite Ha; set_solver). by apply list_elem_of_filter in Hin as [??]. }
  apply list_elem_of_split in Hp as (a&b&->).
  assert (p ≠ "") as Hne by (intros ->; apply He; set_solver).
  apply StronglySorted_app in Hs as (Hab&_&Hb). apply StronglySorted_inv in Hb as [Hb Hpb]. rewrite Forall_forall in Hpb.
  assert (NoDup (ahead after (a ++ p :: b))) as Hd' by by apply NoDup_filter.
  unfold ahead in *. rewrite filter_app, filter_cons_True in Ha, Hd' by done.
  destruct (NoDup_split_eq p _ _ _ _ Hd' Ha) as [_ <-]. clear Ha Hd'.
  apply NoDup_app in Hd as (_&_&[Hnp _]%NoDup_cons). apply resumed_past_false in Hpa.
  rewrite filter_app, filter_cons_False, filter_none, !filter_all; [done|..].
  - intros r Hr. apply resumed_past_false. destruct Hpa as [|Hpa]; [by left|right]. intros H. apply Hpa.
    by transitivity r; [apply Hpb|].
  - intros r Hr. apply resumed_past_false. right. intros H. apply Hnp.
    by rewrite <-(path_le_antisym r p H (Hpb r Hr)).
  - intros r Hr. rewrite resumed_past_false. intros [?|H]; [done|]. apply H, Hab; [done|by left].
  - rewrite resumed_past_false. intros [?|H]; [done|]. destruct (total path_le p p); done.
Qed.

Abbreviation G0 := (λ (_ : trace) (_ : sys), True).

Section mover.
Context (env : environment sys os_answer) (sha256 : data → string) (euid : Z).
Context (Match : string → string → bool) (open : OpenChecker) (cfg : Config).

(** Every decision is on record but the one whose checkpoint was not saved. *)
Definition recorded (report kept : list Entry) (x : list Entry * pass_end) : Prop :=
  x.1 = report ++ kept ∨ ∃ e err, x = (report ++ kept ++ [e], PassFailed err).

Lemma cwp_inside {A} (m : M A) tr : makes env inside m → cwp G0 m tr (λ _ made, ∀ d, saved d made = d).
Proof.
  intros Hm. eapply cwp_mono; [by eapply cwp_makes|]. intros r made H d. by apply saved_inside.
Qed.

Lemma processFile_names s rel grace pre tr : listed rel →
  cwp G0 (processFile env sha256 euid Match open s rel grace cfg pre) tr (λ r made,
    (∃ e, r = Ok e ∧ named e = (sh_Name s, rel)) ∧ ∀ d, saved d made = d).
Proof.
  intros Hl. apply cwp_conj; [|eapply cwp_inside, inside_processFile].
  eapply cwp_guard with (G := may_remove sha256 [s] (cfg_VerifyChecksum cfg)); [done|].
  eapply cwp_mono; [apply processFile_cwp; [by left|done]|]. intros r made (e&->&Hs&Hp&_). exists e. unfold named. by rewrite Hs, Hp.
Qed.

(** The checkpoint data once the entries [kept] of the share [i] were decided. *)
Definition checkpointed (i : Z) (d : bytes) (kept : list Entry) : bytes :=
  match last kept with Some e => marshal_Checkpoint (mkMoverCheckpoint i (en_Path e)) | None => d end.

Lemma move_files_resume i s after grace pre rels : Forall listed rels → ∀ report tr,
  cwp G0 (move_files env sha256 euid Match open i s after grace cfg pre rels report) tr (λ r made,
    ∃ x kept more, r = Ok x ∧ recorded report kept x ∧ (∀ d, saved d made = checkpointed i d kept) ∧
      map (pair (sh_Name s)) (ahead after rels) = map named kept ++ more ∧ (x.2 = PassDone → more = [])).
Proof.
  induction rels as [|rel rels IH]; intros Hl report tr; cbn [move_files].
  { apply cwp_ret. exists (report, PassDone), [], []. unfold recorded. rewrite app_nil_r. split_and!; auto. }
  assert (∀ made, (∀ d, saved d made = d) → ∃ x kept more, Ok (report, PassStopped) = (Ok x : res err _) ∧ recorded report kept x ∧
    (∀ d, saved d made = checkpointed i d kept) ∧
    map (pair (sh_Name s)) (ahead after (rel :: rels)) = map named kept ++ more ∧ (x.2 = PassDone → more = [])) as Hstop.
  { intros made Hm. eexists _, [], _. split_and!; [reflexivity| |done|reflexivity|done]. left. by rewrite app_nil_r. }
  apply Forall_cons in Hl as [Hrel Hl]. specialize (IH Hl). unfold ahead in *.
  destruct (resumed_past after rel) eqn:Hpast; [rewrite filter_cons_False by congruence; apply IH|].
  apply cwp_bind, cwp_sys; [done|]. intros c. destruct (negb _); [by apply cwp_ret, Hstop|].
  apply cwp_bind, cwp_sys; [done|]. intros q. destruct (os_yes q); [by apply cwp_ret, Hstop|]. clear Hstop.
  apply cwp_bind. eapply cwp_mono; [by apply processFile_names|]. intros r m ((e&->&He)&Hm).
  apply cwp_bind, cwp_sys; [done|]. intros a. rewrite filter_cons_True by done. cbn [map].
  destruct (os_err a) as [x|] eqn:Ha.
  - apply cwp_ret. eexists _, [], _. split_and!; [reflexivity|right; by eexists e, _| |reflexivity|done].
    intros d. rewrite !saved_app, Hm. cbn. by rewrite Ha.
  - eapply cwp_mono; [apply IH|]. intros r' m' (x&kept&more&->&Hx&Hsv&Hall&Hdone).
    exists x, (e :: kept), more. split_and!; [done| | | |done].
    + destruct Hx as [Hx|(e'&err&->)]; [left|right]; [by rewrite Hx, <-app_assoc|]. exists e', err. by rewrite <-app_assoc.
    + intros d. rewrite !saved_app, Hm. cbn. rewrite Ha, Hsv. unfold checkpointed. rewrite last_cons.
      destruct (last kept); [done|]. by injection He as _ ->.
    + cbn [map]. by rewrite He, Hall.
Qed.

Lemma move_share_resume i s rels grace cp report tr : Forall listed rels →
  cwp G0 (move_share env sha256 euid Match open i s rels grace cfg cp report) tr (λ r made,
    ∃ x kept more, r = Ok x ∧ recorded report kept x ∧ (∀ d, saved d made = checkpointed i d kept) ∧
      map (pair (sh_Name s)) (ahead (after_of i cp) rels) = map named kept ++ more ∧ (x.2 = PassDone → more = [])).
Proof.
  intros Hl. unfold move_share.
  assert (∀ e made, (∀ d, saved d made = d) → ∃ x kept more, Ok (report, PassFailed e) = (Ok x : res err _) ∧ recorded report kept x ∧
    (∀ d, saved d made = checkpointed i d kept) ∧
    map (pair (sh_Name s)) (ahead (after_of i cp) rels) = map named kept ++ more ∧ (x.2 = PassDone → more = [])) as Hstop.
  { intros e made Hm. eexists _, [], _. split_and!; [reflexivity| |done|reflexivity|done]. left. by rewrite app_nil_r. }
  apply cwp_bind, cwp_try. eapply cwp_mono; [eapply cwp_inside, inside_sweepStrayTemps|].
  intros [u|e] m Hm; [|apply cwp_ret, Hstop; intros d; by rewrite app_nil_r].
  apply cwp_bind, cwp_try. eapply cwp_mono; [eapply cwp_inside, inside_shareOpenChecker|].
  intros [pre|e] m' Hm'; [|apply cwp_ret, Hstop; intros d; by rewrite app_nil_r, saved_app, Hm].
  eapply cwp_mono; [by apply move_files_resume|]. intros r m'' (x&kept&more&->&Hx&Hsv&Hrest).
  exists x, kept, more. split_and!; [done|done| |apply Hrest..]. intros d. by rewrite !saved_app, Hm, Hm'.
Qed.

(** Both checkpoints are of shares before the share [i], or they are the same. *)
Definition behind (i : Z) (cp' cp : Checkpoint) : Prop := cp' = cp ∨ (cp_ShareIndex cp' < i ∧ cp_ShareIndex cp < i).
Lemma behind_share i s rels cp' cp : behind i cp' cp → share_undecided i s rels cp' = share_undecided i s rels cp.
Proof.
  intros [->|[H' H]]; [done|]. unfold share_undecided, after_of.
  by rewrite !(proj2 (Z.ltb_ge _ _)), !(proj2 (Z.eqb_neq _ _)) by lia.
Qed.
Lemma behind_undecided todo : ∀ i cp' cp, behind i cp' cp → undecided i todo cp' = undecided i todo cp.
Proof.
  induction todo as [|[s rels] todo IH]; intros i cp' cp H; [done|]. cbn [undecided].
  rewrite (behind_share i s rels cp' cp H). f_equal. apply IH. destruct H as [|[??]]; [by left|right; lia].
Qed.

(** The checkpoint of a share leaves what was not decided of it. *)
Lemma checkpointed_share i s rels cp cp' d kept more :
  0 ≤ i ≤ max_int64 → listing rels → cp_ShareIndex cp ≤ i → decoded d = Ok cp' → behind i cp' cp →
  map (pair (sh_Name s)) (ahead (after_of i cp) rels) = map named kept ++ more →
  ∃ cp1, decoded (checkpointed i d kept) = Ok cp1 ∧ share_undecided i s rels cp1 = more ∧ (cp1 = cp' ∨ cp_ShareIndex cp1 = i).
Proof.
  intros Hi Hl Hidx Hd Hbe Hall. unfold checkpointed. destruct kept as [|e kept _] using rev_ind.
  - exists cp'. split_and!; [done| |by left]. rewrite (behind_share i s rels cp' cp Hbe), <-(app_nil_l more).
    change [] with (map named []). rewrite <-Hall. unfold share_undecided. by rewrite (proj2 (Z.ltb_ge _ _)) by lia.
  - rewrite last_snoc. exists (mkMoverCheckpoint i (en_Path e)). split_and!; [by apply unmarshal_marshal| |by right].
    unfold share_undecided, after_of. cbn [cp_ShareIndex cp_LastPath]. rewrite Z.ltb_irrefl, Z.eqb_refl.
    rewrite fmap_app, <-app_assoc in Hall. apply fmap_app_inv in Hall as (r1&r2&_&Hr&Har).
    cbn in Hr. symmetry in Hr. apply fmap_cons_inv in Hr as (p&r3&He&Hr&->).
    assert (en_Path e = p) as -> by by injection He.
    rewrite Hr. f_equal. by eapply ahead_of_last.
Qed.

Lemma move_shares_resume grace cp todo : Forall (λ p, listing p.2) todo → ∀ i report d cp' tr,
  0 ≤ i → i + Z.of_nat (length todo) ≤ max_int64 → decoded d = Ok cp' → behind i cp' cp →
  cwp G0 (move_shares env sha256 euid Match open i todo grace cfg cp report) tr (λ r made,
    ∃ x kept cp1, r = Ok x ∧ recorded report kept x ∧ decoded (saved d made) = Ok cp1 ∧
      (cp1 = cp' ∨ i ≤ cp_ShareIndex cp1) ∧ map named kept ++ undecided i todo cp1 = undecided i todo cp ∧
      (x.2 = PassDone → undecided i todo cp1 = [])).
Proof.
  induction todo as [|[s rels] todo IH]; intros Hl i report d cp' tr Hi Hn Hd Hbe; cbn [move_shares].
  { apply cwp_ret. exists (report, PassDone), [], cp'. unfold recorded. rewrite app_nil_r. split_and!; auto. }
  apply Forall_cons in Hl as [Hrels Hl]. specialize (IH Hl (i + 1)). cbn [length] in Hn. cbn [undecided]. cbn in Hrels.
  destruct (Z.ltb_spec i (cp_ShareIndex cp)) as [Hidx|Hidx].
  - destruct Hbe as [->|[? ?]]; [|lia]. eapply cwp_mono; [apply (IH report d cp); [lia|lia|done|by left]|].
    intros r made (x&kept&cp1&->&Hx&Hsv&Hcp&Heq&Hdone). exists x, kept, cp1.
    assert (share_undecided i s rels cp1 = []) as Hnil.
    { unfold share_undecided. by rewrite (proj2 (Z.ltb_lt _ _)) by (destruct Hcp; [by subst|lia]). }
    assert (share_undecided i s rels cp = []) as -> by (unfold share_undecided; by rewrite (proj2 (Z.ltb_lt _ _))).
    rewrite Hnil. cbn [Datatypes.app]. split_and!; [done..|destruct Hcp; [by left|right; lia]|done|done].
  - apply cwp_bind. eapply cwp_mono; [apply move_share_resume, Hrels|].
    intros r m (x&ks&more&->&Hx&Hsv&Hall&Hdone).
    destruct (checkpointed_share i s rels cp cp' d ks more) as (cp1&Hd1&Hmore&Hcp1); try done; [lia|].
    assert (behind (i + 1) cp1 cp) as Hb1.
    { destruct Hcp1 as [->|?]; [destruct Hbe as [->|[??]]; [by left|right; lia]|right; lia]. }
    assert (map named ks ++ more = share_undecided i s rels cp) as Hshare.
    { rewrite <-Hall. unfold share_undecided. by rewrite (proj2 (Z.ltb_ge _ _)) by lia. }
    assert (x.2 ≠ PassDone → ∃ x' kept cp2, Ok x = (Ok x' : res err _) ∧ recorded report kept x' ∧
      decoded (saved d (m ++ [])) = Ok cp2 ∧ (cp2 = cp' ∨ i ≤ cp_ShareIndex cp2) ∧
      map named kept ++ share_undecided i s rels cp2 ++ undecided (i + 1) todo cp2 =
        share_undecided i s rels cp ++ undecided (i + 1) todo cp ∧
      (x'.2 = PassDone → share_undecided i s rels cp2 ++ undecided (i + 1) todo cp2 = [])) as Hstop.
    { intros Hx2. exists x, ks, cp1. rewrite app_nil_r, Hsv, Hmore, (behind_undecided todo _ _ _ Hb1), app_assoc, Hshare.
      split_and!; [done..|destruct Hcp1; [by left|right; lia]|done|done]. }
    destruct (x.2) eqn:Hend; [|by apply cwp_ret, Hstop..]. clear Hstop. specialize (Hdone eq_refl). subst more.
    destruct Hx as [Hx|(e&err&->)]; [|done]. rewrite Hx.
    eapply cwp_mono; [apply (IH (report ++ ks) (checkpointed i d ks) cp1); [lia|lia|done|done]|].
    intros r m' (x'&kept&cp2&->&Hx'&Hsv'&Hcp2&Heq&Hdone'). exists x', (ks ++ kept), cp2.
    assert (share_undecided i s rels cp2 = []) as ->.
    { destruct Hcp2 as [->|?]; [done|]. unfold share_undecided. by rewrite (proj2 (Z.ltb_lt _ _)) by lia. }
    rewrite saved_app, Hsv. cbn [Datatypes.app]. split_and!; [done| |done| | |done].
    + destruct Hx' as [Hx'|(e&err&->)]; [left; by rewrite Hx', app_assoc|right; exists e, err; by rewrite <-!app_assoc].
    + destruct Hcp2 as [->|?]; [destruct Hcp1; [by left|right; lia]|right; lia].
    + rewrite <-Heq, <-Hshare, app_nil_r, fmap_app, <-app_assoc. done.
Qed.
End mover.

(** ** A whole run *)

(** [filepath.WalkDir] visits each path below the root once. *)
Definition walks_once (env : environment sys os_answer) : Prop :=
  ∀ tr root, let l := map fst (os_entries (env tr (SWalkDir root))) in NoDup l ∧ "" ∉ l.

Section run.
Context (env : environment sys os_answer) (sha256 : data → string) (euid : Z).
Context (Match : string → string → bool) (open : OpenChecker) (cfg : Config) (shares : list Share).
Context (Hwalk : walks_once env).

Lemma enumerateEntries_listing root tr :
  cwp G0 (enumerateEntries env root) tr (λ r made, ∀ rels, r = Ok rels → listing rels).
Proof.
  unfold enumerateEntries. apply cwp_bind, cwp_sys; [done|]. intros st.
  destruct (os_err st) as [e|]; [destruct (err_is e S_NotExist); [apply cwp_ret|by apply cwp_throw]|].
  { intros rels [= <-]. split_and!; [constructor|constructor|set_solver|done]. }
  apply cwp_bind. unfold must. apply cwp_bind, cwp_call; [done|]. set (tr' := tr ++ _).
  destruct (Hwalk tr' root) as [Hd He]. destruct (os_err (env tr' _)); [by apply cwp_throw|]. apply cwp_ret, cwp_ret.
  intros rels [= <-]. set (l := os_entries _) in *. set (k := filter _ l).
  assert (map fst k `sublist_of` map fst l) as Hsub by apply fmap_sublist, sublist_filter.
  unfold Strings_sort. split_and!.
  - apply StronglySorted_merge_sort; apply _.
  - rewrite merge_sort_Permutation. by eapply sublist_NoDup.
  - rewrite merge_sort_Permutation. intros Hin. apply He. apply list_elem_of_fmap in Hin as (p&->&[_ ?]%list_elem_of_filter). apply list_elem_of_fmap. by exists p.
  - apply Forall_forall. intros rel Hin. rewrite merge_sort_Permutation in Hin.
    apply list_elem_of_fmap in Hin as (p&->&[[_ H] _]%list_elem_of_filter). exact H.
Qed.

Lemma enumerate_all_listing ss : ∀ tr,
  cwp G0 (enumerate_all env ss) tr (λ r made, (∀ plan, r = Ok plan → Forall listing plan) ∧ ∀ d, saved d made = d).
Proof.
  intros tr. apply cwp_conj; [|eapply cwp_inside, inside_enumerate_all]. revert tr.
  induction ss as [|s ss IH]; intros tr; cbn [enumerate_all]; [apply cwp_ret; by intros ? [= <-]|].
  apply cwp_bind, cwp_wrapping. eapply cwp_mono; [apply enumerateEntries_listing|]. intros [rels|e] m H; [|done].
  apply cwp_bind. eapply cwp_mono; [apply IH|]. intros [plan|e] m' H'; [|done].
  apply cwp_ret. intros ? [= <-]. constructor; [by apply H|by apply H'].
Qed.

(** What the shares list when the run starts. *)
Definition planned (tr : trace) (plan : list (list string)) : Prop :=
  (enumerate_all env shares (tr ++ [(SNow, env tr SNow)])).1 = Ok plan.

Lemma cwp_known {A} G (m : M A) tr Q v : cwp G m tr Q → (m tr).1 = v → cwp G m tr (λ r made, Q r made ∧ r = v).
Proof. intros (made&?&?&?) <-. by exists made. Qed.

Lemma Run_resume data cp plan tr :
  Z.of_nat (length shares) ≤ max_int64 → decoded data = Ok cp → planned tr plan →
  cwp G0 (Run env sha256 euid Match open shares cfg data) tr (λ r made, ∃ report err kept cp1,
    r = Ok (report, err) ∧ (rp_Entries report = kept ∨ err ≠ None) ∧ decoded (saved data made) = Ok cp1 ∧
    map named kept ++ undecided 0 (zip shares plan) cp1 = undecided 0 (zip shares plan) cp ∧
    (err = None → rp_Interrupted report = false → undecided 0 (zip shares plan) cp1 = [])).
Proof.
  intros Hn Hd Hplan. unfold Run. unfold decoded in Hd. rewrite Hd. fold (decoded data) in Hd.
  apply cwp_bind, cwp_call; [done|]. apply cwp_bind, cwp_try.
  eapply cwp_mono; [apply cwp_known; [apply enumerate_all_listing|exact Hplan]|]. intros r m [[Hl Hm] ->].
  specialize (Hl plan eq_refl). apply cwp_bind. eapply cwp_mono; [apply (move_shares_resume) with (d := data) (cp' := cp)|].
  { apply Forall_forall. intros p [_ Hp]%in_zip. rewrite Forall_forall in Hl. by apply Hl. }
  { done. } { rewrite length_zip. lia. } { done. } { by left. }
  intros r m' (x&kept&cp1&->&Hx&Hsv&_&Heq&Hdone).
  apply cwp_bind, cwp_sys; [done|]. intros now.
  assert (∀ rest, (∀ d, saved d rest = d) → decoded (saved data ([(SNow, env tr SNow)] ++ m ++ m' ++ rest)) = Ok cp1) as Hsaved.
  { intros rest Hr. by rewrite !saved_app, Hm, Hr. }
  destruct (x.2) eqn:Hend.
  - apply cwp_bind, cwp_sys; [done|]. intros c. apply cwp_ret. eexists _, _, kept, cp1. split_and!; [reflexivity| |by apply Hsaved|done|auto].
    left. destruct Hx as [Hx|(?&?&->)]; [exact Hx|done].
  - apply cwp_ret. eexists _, _, kept, cp1. split_and!; [reflexivity| |by apply Hsaved|done|done].
    left. destruct Hx as [Hx|(?&?&->)]; [exact Hx|done].
  - apply cwp_ret. eexists _, _, kept, cp1. split_and!; [reflexivity|by right|by apply Hsaved|done|done].
Qed.
End run.

(** Passes over the same shares, each resumed from the checkpoint the one before
    left, and each ended by a request to stop or at its end; the shares list the
    same entries all along. *)
Section passes.
Context (sha256 : data → string) (euid : Z) (Match : string → string → bool) (open : OpenChecker) (cfg : Config).
Context (shares : list Share) (plan : list (list string)).

Inductive passes : bytes → list Report → bytes → Prop :=
  | passes_none data : passes data [] data
  | passes_one env data tr report made reports data' :
      walks_once env → planned env shares tr plan →
      Run env sha256 euid Match open shares cfg data tr = (Ok (report, None), tr ++ made) →
      passes (saved data made) reports data' → passes data (report :: reports) data'.


End passes.

Lemma demo_walks n : walks_once (Demo.env n).
Proof.
  intros tr root. cbn. case_bool_decide; (split; [|set_solver]).
  - constructor; [set_solver|]. constructor; [set_solver|constructor].
  - constructor.
Qed.

(** Stopped after the first file, then resumed. *)
Definition demo_trace (n : nat) (data : bytes) (tr : trace) : trace := drop (length tr) (Demo.run n data tr).2.
Definition demo_report (n : nat) (data : bytes) (tr : trace) : Report :=
  match (Demo.run n data tr).1 with Ok (report, _) => report | Err _ => mkReport 0 None false false [] end.
Definition demo_reports : list Report :=
  let w := demo_trace 1 BNil [] in [demo_report 1 BNil []; demo_report 2 (saved BNil w) w].
Example demo_passes :
  map (λ r, (rp_Interrupted r, map named (rp_Entries r))) demo_reports =
  [(true, [("media", "a")]); (false, [("media", "b")])].
Proof. vm_compute. reflexivity. Qed.


(** A directory that cannot be synced: the first pass copies the file, renames it
    into place and fails; the next finds the copy there and unlinks the source. *)
Definition unsynced : environment sys os_answer := λ tr e,
  match e with
  | SFsyncDir _ => answered (Some (EOther "input/output error")) 0 Demo.file "" [] 0 false []
  | SLstat p =>
      answered (if existsb (λ c, match c.1 with SRenameNoReplace _ _ new => bool_decide (p = "/array/" +:+ new) | _ => false end) tr
                  then None else Some (ESentinel S_NotExist)) 0 Demo.file "" [] 0 false []
  | _ => Demo.world e
  end.
Definition unsynced_run (tr : trace) := Run unsynced Demo.sha256 0 (λ _ _, false) Demo.checker_ [Demo.share] Demo.cfg BNil tr.
Definition results (r : res err (Report * option err)) : list Result :=
  match r with Ok (report, _) => map en_Result (rp_Entries report) | Err _ => [] end.

(** Both files are moved by the second pass, without the rename of their copies
    ever having been made durable. *)
Example pending_delete_skips_the_fsync :
  let p1 := unsynced_run [] in
  let p2 := unsynced_run p1.2 in
  results p1.1 = [ResultFailed; ResultFailed] ∧ results p2.1 = [ResultMoved; ResultMoved] ∧
  existsb (λ c, match c.1 with SFsyncDir _ => bool_decide (os_err c.2 = None) | _ => false end) p2.2 = false.
Proof. vm_compute. by split_and!. Qed.
