(* ===== verification/Relocate.v ===== *)
(** * Relocating a share

    [internal/cache/relocate.go]: a share's files to the array, which is a mover
    pass over one share, and to the cache, in the four phases that put a parity
    sync between the copies and the removal of the originals. The copy of one
    file and the phases' ends are those of the rebalance too ([rebalance.go]).
    The log and the progress percentage are left out; a hook that is not set is
    one that answers nil. *)
From stdpp Require Import pretty.
From S2P Require Import Guard.
From S2P Require Export Mover.
Open Scope string_scope.
Open Scope list_scope.
Open Scope Z_scope.

Abbreviation mkManifest := Guard.mkEntry.

Definition set_relocation (r : Report) : Report :=
  mkReport (rp_StartedAt r) (rp_FinishedAt r) (rp_Interrupted r) true (rp_Entries r).
Definition add_entries (es : list Entry) (r : Report) : Report :=
  mkReport (rp_StartedAt r) (rp_FinishedAt r) (rp_Interrupted r) (rp_Relocation r) (rp_Entries r ++ es).

(** ** Checkpoints *)
Definition RelocatePhaseCopying : string := "copying".
Definition RelocatePhaseSyncing : string := "syncing".
Definition RelocatePhaseDeleting : string := "deleting".
Definition RelocatePhaseFinalSync : string := "final_sync".

(** The times [time.Time] can be written as in JSON, years 0 to 9999, and its zero
    value. *)
Definition writable_time (t : Z) : bool := (-62167219200000000000 <=? t) && (t <? 253402300800000000000).
Definition zero_time : Z := -62135596800000000000.

Definition manifest_fields : list (field ManifestEntry) :=
  [str_field "RelPath" (λ v m, mkManifest v (me_Size m) (me_MTime m) (me_SourceDisk m) (me_TargetDisk m) (me_TargetConfirmed m));
   int_field "Size" (λ v m, mkManifest (me_RelPath m) v (me_MTime m) (me_SourceDisk m) (me_TargetDisk m) (me_TargetConfirmed m));
   time_field "MTime" (λ v m, mkManifest (me_RelPath m) (me_Size m) v (me_SourceDisk m) (me_TargetDisk m) (me_TargetConfirmed m));
   str_field "SourceDisk" (λ v m, mkManifest (me_RelPath m) (me_Size m) (me_MTime m) v (me_TargetDisk m) (me_TargetConfirmed m));
   str_field "TargetDisk" (λ v m, mkManifest (me_RelPath m) (me_Size m) (me_MTime m) (me_SourceDisk m) v (me_TargetConfirmed m));
   bool_field "TargetConfirmed" (λ v m, mkManifest (me_RelPath m) (me_Size m) (me_MTime m) (me_SourceDisk m) (me_TargetDisk m) v)].
Definition json_of_entry (m : ManifestEntry) : json :=
  JObj [("RelPath", JStr (me_RelPath m)); ("Size", JNum (pretty (me_Size m))); ("MTime", JTime (me_MTime m));
        ("SourceDisk", JStr (me_SourceDisk m)); ("TargetDisk", JStr (me_TargetDisk m)); ("TargetConfirmed", JBool (me_TargetConfirmed m))].
Definition entry_of_json : json → option ManifestEntry := struct_of manifest_fields (mkManifest "" 0 zero_time "" "" false).

Record RelocateCheckpoint := mkRelocate {
  rc_Phase : string;
  rc_BranchIndex : Z;
  rc_LastPath : string;
  rc_Manifest : list ManifestEntry;
  rc_DeletedCount : Z
}.
(** [json.Marshal(cp)] *)
Definition marshal_Relocate (cp : RelocateCheckpoint) : res err bytes :=
  if forallb (λ m, writable_time (me_MTime m)) (rc_Manifest cp) then
    Ok (BJson (JObj ([("phase", JStr (rc_Phase cp)); ("branch_index", JNum (pretty (rc_BranchIndex cp)));
                      ("last_path", JStr (rc_LastPath cp))]
                     ++ omit_nil "manifest" (map json_of_entry (rc_Manifest cp)) ++ omit_zero "deleted_count" (rc_DeletedCount cp))))
  else Err (wrap "cache: encode relocate checkpoint: " (EOther "Time.MarshalJSON: year outside of range [0,9999]")).
Definition relocate_fields : list (field RelocateCheckpoint) :=
  [str_field "phase" (λ v c, mkRelocate v (rc_BranchIndex c) (rc_LastPath c) (rc_Manifest c) (rc_DeletedCount c));
   int_field "branch_index" (λ v c, mkRelocate (rc_Phase c) v (rc_LastPath c) (rc_Manifest c) (rc_DeletedCount c));
   str_field "last_path" (λ v c, mkRelocate (rc_Phase c) (rc_BranchIndex c) v (rc_Manifest c) (rc_DeletedCount c));
   list_field "manifest" entry_of_json (λ v c, mkRelocate (rc_Phase c) (rc_BranchIndex c) (rc_LastPath c) v (rc_DeletedCount c));
   int_field "deleted_count" (λ v c, mkRelocate (rc_Phase c) (rc_BranchIndex c) (rc_LastPath c) (rc_Manifest c) v)].
Definition unmarshal_Relocate : bytes → res err RelocateCheckpoint := unmarshal_struct relocate_fields (mkRelocate "" 0 "" [] 0).
(** The checkpoint a run starts from. *)
Definition resume_Relocate (data : bytes) : res err RelocateCheckpoint :=
  match (if bytes_empty data then Ok (mkRelocate "" 0 "" [] 0) else unmarshal_Relocate data) with
  | Err e => Err e
  | Ok cp =>
      Ok (if bool_decide (rc_Phase cp = "")
          then mkRelocate RelocatePhaseCopying (rc_BranchIndex cp) (rc_LastPath cp) (rc_Manifest cp) (rc_DeletedCount cp) else cp)
  end.

(** What a phase leaves: the checkpoint to go on with, or the end of the run. *)
Inductive next (C : Type) := Goon (cp : C) | Halt (interrupted : bool) (e : option err).
Arguments Goon {C}.
Arguments Halt {C}.
Inductive copy_end := CopiedAll | CopyStopped | CopyFailed (e : err).

Section relocate.
Context (env : environment sys os_answer) (sha256 : data → string) (euid : Z).
Context (Match : string → string → bool) (open : OpenChecker).
Abbreviation sysc := (sys_call env).
Abbreviation must := (must env).

(** ** To the array *)

(** What is visited below [root] that the report does not name as left behind. *)
Fixpoint record_visits (s : Share) (root : string) (visits : list visit) (named : list string) : M (list string * list Entry) :=
  match visits with
  | [] => mret (named, [])
  | v :: rest =>
      let record e :=
        if bool_decide (en_Path e ∈ named) then record_visits s root rest named
        else r ← record_visits s root rest (en_Path e :: named); mret (r.1, e :: r.2) in
      let failed x :=
        record (mkEntry (sh_Name s) (vi_rel v) 0 ResultFailed "" "" ("check what is left on the source: " +:+ err_string x)) in
      let path := Join root (vi_rel v) in
      match vi_err v, vi_kind v with
      | Some x, _ => if err_is x S_NotExist then record_visits s root rest named else failed x
      | None, None | None, Some Directory => record_visits s root rest named
      | None, Some _ =>
          if Contains (Base path) tempSuffix then record_visits s root rest named
          else
            a ← sysc (SLstat path);
            match os_err a with
            | Some x => if err_is x S_NotExist then record_visits s root rest named else failed x
            | None =>
                let info := os_info a in
                record (if bool_decide (fi_Kind info = Socket)
                        then mkEntry (sh_Name s) (vi_rel v) (fi_Size info) ResultSkippedSocket (entryKind (fi_Kind info)) socketReason ""
                        else mkEntry (sh_Name s) (vi_rel v) (fi_Size info) ResultLeftBehind (entryKind (fi_Kind info)) leftBehindReason "")
            end
      end
  end.
Fixpoint record_roots (s : Share) (roots : list string) (named : list string) : M (list Entry) :=
  match roots with
  | [] => mret []
  | root :: rest =>
      w ← sysc (SVisit root);
      r ← record_visits s root (os_visits w) named;
      es ← record_roots s rest r.1;
      mret (r.2 ++ es)
  end.
Definition recordUnreportedSources (report : Report) (s : Share) (roots : list string) : M Report :=
  es ← record_roots s roots (map en_Path (LeftBehind report));
  mret (add_entries es report).

Definition RelocateToArray (s : Share) (cfg : Config) (initialCheckpoint : bytes) : M (Report * option err) :=
  r ← Run env sha256 euid Match open [s] (mkConfig (cfg_GracePeriod cfg) (cfg_VerifyChecksum cfg) true) initialCheckpoint;
  let report := set_relocation r.1 in
  if bool_decide (r.2 = None) && negb (rp_Interrupted report) then
    report ← recordUnreportedSources report s [sh_CachePath s]; mret (report, None)
  else mret (report, r.2).

(** ** One file, copied for a manifest *)

(** [relocateCopyItem] and [rebalanceCopyItem], which differ in the paths they
    are given. *)
Definition copyItem (share rel sourceDisk targetDisk dst : string) (cfg : Config) (pre : checker) : M (Entry + ManifestEntry) :=
  let ended r := mkEntry share rel 0 r "" "" "" in
  s ← try (openSource env sourceDisk (Join share rel));
  match s with
  | Err e => mret (inl (if err_is e S_NotExist then ended ResultSkippedGone else with_err (err_string e) (ended ResultFailed)))
  | Ok src =>
      let info := se_info src in
      let ended r := with_kind (entryKind (fi_Kind info)) (ended r) in
      let failed e := mret (inl (with_err (err_string e) (ended ResultFailed))) in
      let copied := mret (inr (mkManifest (Join share rel) (fi_Size info) (fi_ModTime info) sourceDisk targetDisk false)) in
      if bool_decide (fi_Kind info = Socket) then mret (inl (with_reason socketReason (ended ResultSkippedSocket)))
      else if bool_decide (entryKind (fi_Kind info) = "other") then mret (inl (ended ResultSkippedNotRegular))
      else
        d ← sysc (SLstat dst);
        match os_err d with
        | None =>
            same ← try (isSamePendingCopy env sha256 src dst (os_info d) (cfg_VerifyChecksum cfg));
            match same with
            | Err e => failed e
            | Ok false => mret (inl (ended ResultConflict))
            | Ok true => copied
            end
        | Some e =>
            if negb (err_is e S_NotExist) then failed e
            else
              o ← try (if canBeOpen (fi_Kind info) then isOpenSource env open pre info (se_path src) else mret false);
              match o with
              | Err e => failed e
              | Ok true => mret (inl (with_bytes (fi_Size info) (ended ResultSkippedOpen)))
              | Ok false =>
                  c ← try (copyEntry env sha256 euid src dst targetDisk cfg);
                  match c with
                  | Err e => if err_is e S_TargetAppeared then mret (inl (ended ResultConflict)) else failed e
                  | Ok _ => copied
                  end
              end
        end
  end.

(** ** To the cache *)

(** [ctx.Err() != nil || hooks.stopRequested()] *)
Definition stopping : M bool :=
  c ← sysc SCtxErr;
  if negb (bool_decide (os_err c = None)) then mret true
  else q ← sysc SStopRequested; mret (os_yes q).

Definition checkpointRelocate (cp : RelocateCheckpoint) : M (option err) :=
  match marshal_Relocate cp with
  | Err e => mret (Some e)
  | Ok d => a ← sysc (SSaveCheckpoint d); mret (os_err a)
  end.
(** The phase's end once its checkpoint was saved, or not. *)
Definition saved_next {C} (saved : option err) (cp : C) (report : list Entry) : M (list Entry * next C) :=
  match saved with
  | Some e => mret (report, Halt false (Some e))
  | None => stop ← stopping; mret (report, if (stop : bool) then Halt true None else Goon cp)
  end.
Definition then_phase {C} (st : list Entry * next C) (f : list Entry → C → M (list Entry * next C)) : M (list Entry * next C) :=
  match st.2 with Goon cp => f st.1 cp | Halt i e => mret st end.

Definition relocateCopyItem (s : Share) (disk rel : string) (cfg : Config) (pre : checker) : M (Entry + ManifestEntry) :=
  copyItem (sh_Name s) rel disk (Dir (sh_CachePath s)) (Join (sh_CachePath s) rel) cfg pre.

Fixpoint enumerate_branches (branches : list string) : M (list (list string)) :=
  match branches with
  | [] => mret []
  | b :: rest =>
      rels ← wrapping ("cache: enumerate branch " +:+ quoted b +:+ ": ") (enumerateEntries env b);
      plan ← enumerate_branches rest;
      mret (rels :: plan)
  end.

(** A file before the checkpoint is gone through again, for its manifest entry. *)
Fixpoint copy_rels (i : Z) (s : Share) (disk : string) (cfg : Config) (pre : checker) (resume : RelocateCheckpoint) (rels : list string)
    (manifest : list ManifestEntry) (report : list Entry) : M (list ManifestEntry * list Entry * copy_end) :=
  match rels with
  | [] => mret (manifest, report, CopiedAll)
  | rel :: rest =>
      let resumed := (i <? rc_BranchIndex resume) ||
                     (if i =? rc_BranchIndex resume then resumed_past (rc_LastPath resume) rel else false) in
      stop ← stopping;
      if (stop : bool) then mret (manifest, report, CopyStopped)
      else
        r ← relocateCopyItem s disk rel cfg pre;
        let manifest := match r with inl _ => manifest | inr m => manifest ++ [m] end in
        let report := match r with inl e => report ++ [e] | inr _ => report end in
        if resumed then copy_rels i s disk cfg pre resume rest manifest report
        else
          x ← checkpointRelocate (mkRelocate RelocatePhaseCopying i rel [] 0);
          match x with
          | Some e => mret (manifest, report, CopyFailed (wrap "cache: save relocate checkpoint: " e))
          | None => copy_rels i s disk cfg pre resume rest manifest report
          end
  end.
Fixpoint copy_branches (i : Z) (s : Share) (cfg : Config) (pre : checker) (resume : RelocateCheckpoint) (todo : list (string * list string))
    (manifest : list ManifestEntry) (report : list Entry) : M (list ManifestEntry * list Entry * copy_end) :=
  match todo with
  | [] => mret (manifest, report, CopiedAll)
  | (b, rels) :: rest =>
      r ← copy_rels i s (Dir b) cfg pre resume rels manifest report;
      match r with
      | (manifest, report, CopiedAll) => copy_branches (i + 1) s cfg pre resume rest manifest report
      | _ => mret r
      end
  end.
Definition relocateCopyPhase (s : Share) (cfg : Config) (resume : RelocateCheckpoint) (report : list Entry) :
    M (list ManifestEntry * list Entry * copy_end) :=
  p ← try (enumerate_branches (sh_Branches s));
  match p with
  | Err e => mret ([], report, CopyFailed e)
  | Ok plan =>
      o ← try (shareOpenChecker env open);
      match o with
      | Err e => mret ([], report, CopyFailed (wrap ("cache: snapshot open files for share " +:+ quoted (sh_Name s) +:+ ": ") e))
      | Ok pre => copy_branches 0 s cfg pre resume (zip (sh_Branches s) plan) [] report
      end
  end.

Definition finishRelocateDelete (s : Share) (me : ManifestEntry) : M Entry :=
  removeSource env open (me_SourceDisk me) (me_RelPath me)
    (mkEntry (sh_Name s) (TrimPrefix (me_RelPath me) (sh_Name s +:+ "/")) (me_Size me) ResultFailed "" "" "")
    (mkStamp (me_Size me) (me_MTime me)).

(** The removal of a manifest's sources from the [i]th on, with the error that
    ends it; [interrupted] is an end without one. *)
Fixpoint relocate_delete_loop (s : Share) (manifest : list ManifestEntry) (i : Z) (rest : list ManifestEntry) (report : list Entry) :
    M (list Entry * copy_end) :=
  match rest with
  | [] => mret (report, CopiedAll)
  | me :: rest =>
      stop ← stopping;
      if (stop : bool) then mret (report, CopyStopped)
      else
        e ← finishRelocateDelete s me;
        x ← checkpointRelocate (mkRelocate RelocatePhaseDeleting 0 "" manifest (i + 1));
        match x with
        | Some x => mret (report ++ [e], CopyFailed (wrap "cache: save relocate checkpoint: " x))
        | None => relocate_delete_loop s manifest (i + 1) rest (report ++ [e])
        end
  end.
Definition relocateDeletePhase (s : Share) (manifest : list ManifestEntry) (start : Z) (report : list Entry) : M (list Entry * copy_end) :=
  if start <? 0 then
    stop ← stopping;
    mret (report, if (stop : bool) then CopyStopped else CopyFailed (EOther "panic: index out of range"))
  else relocate_delete_loop s manifest start (drop (Z.to_nat start) manifest) report.

Definition copying_phase (s : Share) (cfg : Config) (report : list Entry) (cp : RelocateCheckpoint) : M (list Entry * next RelocateCheckpoint) :=
  if bool_decide (rc_Phase cp = RelocatePhaseCopying) then
    r ← relocateCopyPhase s cfg cp report;
    match r with
    | (_, report, CopyFailed e) => mret (report, Halt false (Some e))
    | (_, report, CopyStopped) => mret (report, Halt true None)
    | (manifest, report, CopiedAll) =>
        let cp := mkRelocate RelocatePhaseSyncing 0 "" manifest 0 in
        x ← checkpointRelocate cp; saved_next x cp report
    end
  else mret (report, Goon cp).
Definition syncing_phase (report : list Entry) (cp : RelocateCheckpoint) : M (list Entry * next RelocateCheckpoint) :=
  if bool_decide (rc_Phase cp = RelocatePhaseSyncing) then
    let cp' := mkRelocate RelocatePhaseDeleting 0 "" (rc_Manifest cp) 0 in
    match rc_Manifest cp with
    | [] => mret (report, Goon cp')
    | _ =>
        a ← sysc (SSync (rc_Manifest cp));
        match os_err a with
        | Some e => mret (report, Halt false (Some (wrap "cache: relocate to cache: sync: " e)))
        | None => x ← checkpointRelocate cp'; saved_next x cp' report
        end
    end
  else mret (report, Goon cp).
Definition deleting_phase (s : Share) (report : list Entry) (cp : RelocateCheckpoint) : M (list Entry * next RelocateCheckpoint) :=
  if bool_decide (rc_Phase cp = RelocatePhaseDeleting) then
    r ← relocateDeletePhase s (rc_Manifest cp) (rc_DeletedCount cp) report;
    match r with
    | (report, CopyFailed e) => mret (report, Halt false (Some e))
    | (report, CopyStopped) => mret (report, Halt true None)
    | (report, CopiedAll) =>
        let cp := mkRelocate RelocatePhaseFinalSync 0 "" (rc_Manifest cp) 0 in
        x ← checkpointRelocate cp; saved_next x cp report
    end
  else mret (report, Goon cp).
Definition final_phase (report : list Entry) (cp : RelocateCheckpoint) : M (list Entry * next RelocateCheckpoint) :=
  if bool_decide (rc_Phase cp = RelocatePhaseFinalSync) then
    match rc_Manifest cp with
    | [] => mret (report, Goon cp)
    | _ =>
        a ← sysc (SSync (rc_Manifest cp));
        match os_err a with
        | Some e => mret (report, Halt false (Some (wrap "cache: relocate to cache: final sync: " e)))
        | None => mret (report, Goon cp)
        end
    end
  else mret (report, Goon cp).

(** Whether [deps.Sync] is set. *)
Context (hasSync : bool).

(** The deferred assignment of [FinishedAt] on an early return sets a local
    variable whose value has already been returned. *)
Definition RelocateToCache (s : Share) (cfg : Config) (initialCheckpoint : bytes) : M (Report * option err) :=
  let none e := mret (mkReport 0 None false false [], Some e) in
  if negb hasSync then none (EOther "cache: relocate to cache: Deps.Sync is required")
  else
    match resume_Relocate initialCheckpoint with
    | Err e => none (wrap "cache: decode relocate checkpoint: " e)
    | Ok cp =>
        start ← sysc SNow;
        let report interrupted entries := mkReport (os_int start) None interrupted true entries in
        st ← copying_phase s cfg [] cp;
        st ← then_phase st syncing_phase;
        st ← then_phase st (deleting_phase s);
        st ← then_phase st final_phase;
        match st with
        | (entries, Halt interrupted e) => _ ← sysc SNow; mret (report interrupted entries, e)
        | (entries, Goon _) =>
            r ← recordUnreportedSources (report false entries) s (sh_Branches s);
            now ← sysc SNow; mret (finished (os_int now) r, None)
        end
    end.
End relocate.
