(* ===== verification/ManifestSafety.v ===== *)
(** * Files that are moved by a manifest

    What relocation and rebalance share: a manifest entry is verified once its
    file was copied, secured once a parity sync carried it, and only then may its
    source be removed. *)
From stdpp Require Import pretty.
From S2P Require Import Guard.
From S2P Require Export MoverResume Relocate.
Open Scope string_scope.
Open Scope list_scope.
Open Scope Z_scope.

(** A body's calls meet both guards. *)
Lemma cwp_also {X} {env} (G : trace → sys → Prop) (P : sys → Prop) (m : M X) tr Q :
  cwp G m tr Q → makes env P m → cwp (λ tr e, G tr e ∧ P e) m tr Q.
Proof.
  intros (made&Hs&Hg&Hq) Hm. exists made. split_and!; [done| |done]. intros before e a after ->. split; [by eapply Hg|].
  destruct (Hm tr) as (made'&Hs'&Hf&_). rewrite Hs in Hs'. apply app_inv_head in Hs' as <-.
  apply Forall_app in Hf as [_ Hf]. by apply Forall_cons in Hf as [? _].
Qed.

(** ** Checkpoints are read back *)
Lemma entry_read m m' : entry_of_json (json_of_entry m) = Some m' → m' = m.
Proof.
  destruct m as [rel size mtime sd td conf]. unfold entry_of_json, json_of_entry, struct_of. json_read.
  destruct (Atoi (pretty size)) as [n|] eqn:Hn; json_read; [|done]. apply Atoi_pretty_inv in Hn as ->. by intros [= <-].
Qed.
Lemma manifest_read ms : ∀ ms', mapM entry_of_json (map json_of_entry ms) = Some ms' → ms' = ms.
Proof.
  induction ms as [|m ms IH]; intros ms'; [by intros [= <-]|]. cbn [map mapM].
  destruct (entry_of_json (json_of_entry m)) as [m'|] eqn:Hm; [|done]. apply entry_read in Hm as ->. cbn.
  destruct (mapM _ (map json_of_entry ms)) as [ms''|] eqn:Hms; [|done]. cbn. intros [= <-]. by rewrite (IH ms'').
Qed.

(** ** One manifest entry *)
Section entry.
Context (env : environment sys os_answer) (sha256 : data → string) (euid : Z) (open : OpenChecker).
(** Where the copy of an entry lies, and whether copies are compared by checksum. *)
Context (at_target : ManifestEntry → string → Prop) (verify : bool).

(** The entry's file was looked at where the entry says, as large and as old as it
    says, and then copied to its place or found copied there. *)
Definition verified (me : ManifestEntry) (tr : trace) : Prop :=
  ∃ src dst t1 t2 t3, tr = t1 ++ t2 ++ t3 ∧ at_target me dst ∧ found t1 (me_SourceDisk me) (me_RelPath me) src ∧
    me_Size me = fi_Size (se_info src) ∧ me_MTime me = fi_ModTime (se_info src) ∧
    in_place_at sha256 (me_TargetDisk me) dst src verify t2.
(** A parity sync that carried the entry succeeded after that. *)
Definition secured (me : ManifestEntry) (tr : trace) : Prop :=
  ∃ m a t1 t2, tr = t1 ++ (SSync m, a) :: t2 ∧ os_err a = None ∧ me ∈ m ∧ verified me t1.
(** And after that a fresh walk found the file, the same and closed, as [n] in the
    directory [d]. *)
Definition removable (tr : trace) (d : Z) (n : string) : Prop :=
  ∃ me src t1 t2, tr = t1 ++ t2 ∧ secured me t1 ∧ found t2 (me_SourceDisk me) (me_RelPath me) src ∧
    matches (mkStamp (me_Size me) (me_MTime me)) (se_info src) = true ∧ closed (me_SourceDisk me) (me_RelPath me) src t2 ∧
    d = se_parentfd src ∧ n = se_base src.

Lemma verified_app me x tr y : verified me tr → verified me (x ++ tr ++ y).
Proof.
  intros (src&dst&t1&t2&t3&->&Hat&Hf&H). exists src, dst, (x ++ t1), t2, (t3 ++ y). rewrite <-!app_assoc.
  split_and!; [done|done|eapply found_mono, Hf; apply subseteq_app_r|apply H..].
Qed.
Lemma verified_after me tr y : verified me tr → verified me (tr ++ y).
Proof. apply (verified_app me []). Qed.
Lemma secured_after me tr y : secured me tr → secured me (tr ++ y).
Proof. intros (m&a&t1&t2&->&H). exists m, a, t1, (t2 ++ y). split; [by rewrite <-app_assoc|done]. Qed.
Lemma secured_verified me tr : secured me tr → verified me tr.
Proof. intros (m&a&t1&t2&->&_&_&H). by apply verified_after. Qed.
Lemma all_verified_after ms tr y : Forall (λ me, verified me tr) ms → Forall (λ me, verified me (tr ++ y)) ms.
Proof. intros H. eapply Forall_impl; [exact H|]. intros me. apply verified_after. Qed.
Lemma all_secured_after ms tr y : Forall (λ me, secured me tr) ms → Forall (λ me, secured me (tr ++ y)) ms.
Proof. intros H. eapply Forall_impl; [exact H|]. intros me. apply secured_after. Qed.

(** What a run of a relocation or a rebalance does, by its calls. *)
Definition relocates (tr : trace) (e : sys) : Prop :=
  match e with
  | SUnlink d n => (made_here tr d n ∧ Contains n tempSuffix = true) ∨ removable tr d n
  | SRmdir d n | SRename d n _ => made_here tr d n
  | SRemove _ => False
  | SSync m => Forall (λ me, verified me tr) m
  | _ => True
  end.

(** The calls of a copy. *)
Definition temps (tr : trace) (e : sys) : Prop :=
  match e with
  | SUnlink d n => made_here tr d n ∧ Contains n tempSuffix = true
  | SRmdir d n | SRename d n _ => made_here tr d n
  | SRemove _ => False
  | _ => True
  end.
Lemma harmless_temps tr e : removal e = false → temps tr e.
Proof. by destruct e. Qed.
Lemma copy_temps tr d n e : made_here tr d n → Contains n tempSuffix = true →
  e = SUnlink d n ∨ e = SRmdir d n ∨ (∃ n', e = SRename d n n') → temps tr e.
Proof. intros Hm Hc [-> | [-> | [n' ->]]]; done. Qed.
Lemma temps_relocates tr e : temps tr e → pass_call e = false → relocates tr e.
Proof. destruct e; cbn; auto; done. Qed.

Lemma inside_copyItem share rel sd td dst cfg pre : makes env inside (copyItem env sha256 euid open share rel sd td dst cfg pre).
Proof.
  unfold copyItem, isSamePendingCopy, sameNode, isOpenSource, yes_or_err.
  pose proof (inside_openSource env). pose proof (inside_hash env sha256). pose proof (inside_hashFile env sha256).
  pose proof (inside_readlink env). pose proof (inside_copyEntry env sha256 euid). inside_only.
Qed.

(** A copy for a manifest entry verifies the entry. *)
Lemma copyItem_cwp share rel sd td dst cfg pre tr :
  Contains (Base (Join share rel)) tempSuffix = false → verify = cfg_VerifyChecksum cfg →
  (∀ size mtime, at_target (mkManifest (Join share rel) size mtime sd td false) dst) →
  cwp temps (copyItem env sha256 euid open share rel sd td dst cfg pre) tr (λ r made,
    ∃ x, r = Ok x ∧ ∀ m, x = inr m → verified m made).
Proof.
  intros Hb Hv Hat. unfold copyItem.
  assert (∀ (e : Entry) (made : trace), ∃ x, Ok (inl e) = (Ok x : res err (Entry + ManifestEntry)) ∧ ∀ m, x = inr m → verified m made) as Hno
    by (intros; by eexists).
  apply cwp_bind, cwp_try. eapply cwp_mono; [apply openSource_cwp, harmless_temps|].
  intros [src|e] m1 [_ Hsrc]; [|apply cwp_ret; destruct (err_is e S_NotExist); apply Hno]. specialize (Hsrc src eq_refl).
  destruct (bool_decide (fi_Kind (se_info src) = Socket)); [apply cwp_ret, Hno|].
  destruct (bool_decide (entryKind _ = "other")); [apply cwp_ret, Hno|].
  apply cwp_bind, cwp_sys; [by apply harmless_temps|]. intros d.
  assert (∀ m2 made, in_place_at sha256 td dst src verify m2 → made = m1 ++ m2 → ∃ x : Entry + ManifestEntry,
    Ok (inr (mkManifest (Join share rel) (fi_Size (se_info src)) (fi_ModTime (se_info src)) sd td false)) = (Ok x : res err _) ∧
    ∀ m, x = inr m → verified m made) as Hdone.
  { intros m2 made Hp ->. eexists. split; [reflexivity|]. intros m [= <-]. exists src, dst, m1, m2, []. rewrite app_nil_r.
    by split_and!. }
  destruct (os_err d) as [x|] eqn:Herr.
  - destruct (err_is x S_NotExist); cbn [negb]; [|apply cwp_ret, Hno].
    apply cwp_bind, cwp_try. eapply cwp_mono; [eapply cwp_looks; [exact harmless_temps|]|].
    { destruct (canBeOpen _); [apply looks_isOpenSource|apply makes_ret]. }
    intros [[]|e] m2 _; [apply cwp_ret, Hno| |apply cwp_ret, Hno].
    apply cwp_bind, cwp_try. eapply cwp_mono; [apply (copyEntry_cwp env sha256 euid temps harmless_temps copy_temps); by eapply found_base|].
    intros [u|e] m3 Hcopy; [|destruct (err_is e S_TargetAppeared); apply cwp_ret, Hno].
    apply cwp_ret. destruct (Hcopy u eq_refl) as (comps&parentfd&Hbelow&Hres&Hcop).
    apply (Hdone ([(SLstat dst, d)] ++ m2 ++ m3)); [left|by rewrite app_nil_r].
    exists comps, parentfd. split_and!; [done|eapply resolved_mono, Hres; set_solver|rewrite Hv, app_assoc; by apply copied_after].
  - apply cwp_bind, cwp_try. eapply cwp_mono; [apply isSamePendingCopy_cwp; exact harmless_temps|].
    intros [[]|e] m2 [_ Hpend]; [|apply cwp_ret, Hno..]. apply cwp_ret. specialize (Hpend eq_refl).
    apply (Hdone ([(SLstat dst, d)] ++ m2)); [right|by rewrite app_nil_r]. exists d. split_and!; [set_solver|done|].
    rewrite Hv. by apply pending_after.
Qed.

(** Removing the source of a secured entry. *)
Lemma removal_cwp me entry tr : secured me tr →
  cwp relocates (removeSource env open (me_SourceDisk me) (me_RelPath me) entry (mkStamp (me_Size me) (me_MTime me))) tr
    (λ r made, ∃ e, r = Ok e).
Proof.
  intros Hs. set (G := λ tr e, temps tr e ∨ ∃ d n, e = SUnlink d n ∧ removable tr d n).
  apply (cwp_guard (λ tr e, G tr e ∧ pass_call e = false)).
  { intros tr' e [[Ht|(d&n&->&Hr)] Hp]; [by apply temps_relocates|by right]. }
  eapply cwp_also; [|apply inside_removeSource].
  eapply cwp_mono; [apply removeSource_cwp|].
  - intros tr' e He. left. by apply harmless_temps.
  - intros made src Hf Hm Hc. right. eexists _, _. split; [reflexivity|]. by exists me, src, tr, made.
  - intros r made (e&->&_). by exists e.
Qed.

(** What a checkpoint may hold: a manifest whose entries are verified, and secured
    once its phase deletes. *)
Definition phase_ok (phase : string) (manifest : list ManifestEntry) (tr : trace) : Prop :=
  (phase = RelocatePhaseSyncing → Forall (λ me, verified me tr) manifest) ∧
  (phase = RelocatePhaseDeleting ∨ phase = RelocatePhaseFinalSync → Forall (λ me, secured me tr) manifest).
Lemma phase_ok_after phase ms tr y : phase_ok phase ms tr → phase_ok phase ms (tr ++ y).
Proof. intros [H1 H2]. split; intros H; [by apply all_verified_after, H1|by apply all_secured_after, H2]. Qed.
Lemma copying_ok ms tr : phase_ok RelocatePhaseCopying ms tr.
Proof. split; [done|by intros []]. Qed.
Lemma syncing_ok ms tr : Forall (λ me, verified me tr) ms → phase_ok RelocatePhaseSyncing ms tr.
Proof. intros H. split; [done|by intros []]. Qed.
Lemma secured_ok phase ms tr : phase ≠ RelocatePhaseSyncing → Forall (λ me, secured me tr) ms → phase_ok phase ms tr.
Proof. by split. Qed.

(** A sync secures the entries that were verified. *)
Lemma synced_secures m a tr : os_err a = None → Forall (λ me, verified me tr) m → Forall (λ me, secured me (tr ++ [(SSync m, a)])) m.
Proof.
  intros Ha. rewrite !Forall_forall. intros H me Hin. exists m, a, tr, []. split_and!; auto.
Qed.

(** Guards of a run whose checkpoints must be sound. *)
Context (sound : bytes → trace → Prop).
Definition runs (tr : trace) (e : sys) : Prop :=
  relocates tr e ∧ match e with SSaveCheckpoint d => sound d tr | _ => True end.
Lemma relocates_runs {X} (m : M X) tr Q : cwp relocates m tr Q → makes env inside m → cwp runs m tr Q.
Proof.
  intros H Hi. apply (cwp_guard (λ tr e, relocates tr e ∧ pass_call e = false)); [|by eapply cwp_also].
  intros tr' e [Hr Hp]. split; [done|by destruct e].
Qed.
Lemma looks_runs {X} (m : M X) tr : makes env inside m → makes env looks m → cwp runs m tr (λ _ _, True).
Proof.
  intros Hi Hl. eapply relocates_runs; [|done]. eapply cwp_mono; [eapply cwp_makes; [exact Hl|]|done]. by intros tr' [].
Qed.
Lemma runs_harmless tr e : removal e = false → match e with SSync _ | SSaveCheckpoint _ => False | _ => True end → runs tr e.
Proof. by destruct e. Qed.

Lemma stopping_cwp tr : cwp runs (stopping env) tr (λ r _, ∃ b, r = Ok b).
Proof.
  unfold stopping. apply cwp_bind, cwp_sys; [by apply runs_harmless|]. intros c. destruct (negb _); [apply cwp_ret; eauto|].
  apply cwp_bind, cwp_sys; [by apply runs_harmless|]. intros q. apply cwp_ret. eauto.
Qed.
Lemma saved_next_cwp {C} x (cp : C) report tr :
  cwp runs (saved_next env x cp report) tr (λ r _, ∃ rep st, r = Ok (rep, st) ∧ ∀ cp', st = Goon cp' → cp' = cp).
Proof.
  unfold saved_next. destruct x; [apply cwp_ret; by eexists _, _|]. apply cwp_bind. eapply cwp_mono; [apply stopping_cwp|].
  intros r m [b ->]. apply cwp_ret. eexists _, _. split; [reflexivity|]. destruct b; by intros ? [= <-].
Qed.

(** What a run may leave for the next one, to resume from or to start over: what it
    was given, or any checkpoint that it saved, even one whose saving was reported to
    have failed. All of it is sound when every call kept the guard. *)
Definition left_over (data : bytes) (ran : trace) (data' : bytes) : Prop :=
  data' = BNil ∨ data' = data ∨ ∃ a, (SSaveCheckpoint data', a) ∈ ran.
Context (sound_nil : ∀ tr, sound BNil tr) (sound_mono : ∀ d tr y, sound d tr → sound d (tr ++ y)).
Lemma left_sound ran data data' tr : sound data tr → guarded runs tr ran → left_over data ran data' → sound data' (tr ++ ran).
Proof using sound_mono sound_nil.
  intros Hs Hg [->|[->|(a&Hin)]]; [apply sound_nil|by apply sound_mono|].
  apply list_elem_of_split in Hin as (before&after&->). destruct (Hg before _ a after eq_refl) as [_ H].
  rewrite app_assoc. by apply sound_mono.
Qed.
(** A run that was cut off keeps the guard as far as it went. *)
Lemma run_cut data data' tr ran lost made : sound data tr → made = ran ++ lost → guarded runs tr made →
  left_over data ran data' → guarded runs [] tr → sound data' (tr ++ ran) ∧ guarded runs [] (tr ++ ran).
Proof using sound_mono sound_nil.
  intros Hs -> Hm Hl Hg. assert (guarded runs tr ran) as Hr.
  { intros before e a after ->. apply (Hm before e a (after ++ lost)). by rewrite <-app_assoc. }
  split; [by eapply left_sound|by apply guarded_app].
Qed.
End entry.
