(* ===== verification/RelocateSafety.v ===== *)
(** * What a relocation may remove

    Over all runs of a relocation to the cache, stopped, resumed or cut off
    anywhere, an original is unlinked only after it was copied whole and verified,
    after that a parity sync carrying it in its manifest succeeded, and after that
    a fresh walk saw it unchanged and closed. *)
From stdpp Require Import pretty.
From S2P Require Import Guard.
From S2P Require Export ManifestSafety.
Open Scope string_scope.
Open Scope list_scope.
Open Scope Z_scope.

(** ** The checkpoint is read back *)
#[local] Opaque entry_of_json json_of_entry.
Lemma relocate_read cp d cp' : rc_Phase cp ≠ "" → marshal_Relocate cp = Ok d → resume_Relocate d = Ok cp' → cp' = cp.
Proof.
  destruct cp as [phase i last ms count]. unfold marshal_Relocate. cbn [rc_Phase rc_Manifest rc_BranchIndex rc_LastPath rc_DeletedCount].
  intros Hph. destruct (forallb _ _); [|done]. intros [= <-]. unfold resume_Relocate, unmarshal_Relocate. cbn [bytes_empty].
  pose proof (manifest_read ms) as Hms. unfold omit_nil, omit_zero.
  destruct (map json_of_entry ms) as [|j js] eqn:Hjs; destruct (Z.eqb_spec count 0) as [->|_]; json_read;
    (destruct (Atoi (pretty i)) as [i'|] eqn:Hi; json_read; [apply Atoi_pretty_inv in Hi as ->|done]).
  - destruct ms; [|done]. rewrite bool_decide_false by done. by intros [= <-].
  - destruct ms; [|done]. destruct (Atoi (pretty count)) as [n|] eqn:Hn; json_read; [apply Atoi_pretty_inv in Hn as ->|done].
    rewrite bool_decide_false by done. by intros [= <-].
  - destruct (mapM entry_of_json (j :: js)) as [ms'|]; json_read; [|done]. rewrite (Hms ms' eq_refl).
    rewrite bool_decide_false by done. by intros [= <-].
  - destruct (mapM entry_of_json (j :: js)) as [ms'|]; json_read; [rewrite (Hms ms' eq_refl)|];
    (destruct (Atoi (pretty count)) as [n|] eqn:Hn; json_read; [apply Atoi_pretty_inv in Hn as ->|done]); [|done].
    rewrite bool_decide_false by done. by intros [= <-].
Qed.
#[local] Transparent entry_of_json json_of_entry.

(** ** The phases *)

(** Every path that [filepath.WalkDir] visits below the root ends in a name. *)
Definition walks_names (env : environment sys os_answer) : Prop :=
  ∀ tr root p, p ∈ os_entries (env tr (SWalkDir root)) → ∃ above b, split slash p.1 = above ++ [b] ∧ proper_name b.
(** No copy under construction, whatever share the path is below. *)
Definition movable (rel : string) : Prop := ∀ share, Contains (Base (Join share rel)) tempSuffix = false.

Lemma enumerate_movable env (G : trace → sys → Prop) root tr : walks_names env → (∀ tr e, looks e → G tr e) →
  cwp G (enumerateEntries env root) tr (λ r made, ∀ rels, r = Ok rels → Forall movable rels).
Proof.
  intros Hw HG. unfold enumerateEntries. apply cwp_bind, cwp_sys; [by apply HG|]. intros st.
  destruct (os_err st) as [e|]; [destruct (err_is e S_NotExist); [apply cwp_ret|by apply cwp_throw]|].
  { by intros rels [= <-]. }
  apply cwp_bind. unfold must. apply cwp_bind, cwp_call; [by apply HG|]. set (tr' := tr ++ _).
  pose proof (Hw tr' root) as Hn. destruct (os_err (env tr' _)); [by apply cwp_throw|]. apply cwp_ret, cwp_ret.
  intros rels [= <-]. apply Forall_forall. intros rel Hin share. unfold Strings_sort in Hin. rewrite merge_sort_Permutation in Hin.
  apply list_elem_of_fmap in Hin as (p&->&[[_ H] Hin]%list_elem_of_filter). destruct (Hn p Hin) as (above&b&Hs&Hb).
  rewrite (Base_Join share _ _ _ Hs Hb). rewrite (Base_last _ _ _ Hs) in H; [done|]. by destruct Hb.
Qed.

Section relocation.
Context (env : environment sys os_answer) (sha256 : data → string) (euid : Z) (open : OpenChecker).
Context (Hnames : walks_names env) (s : Share) (cfg : Config).

(** The place on the cache of a share's file. *)
Definition cached (me : ManifestEntry) (dst : string) : Prop :=
  ∃ rel, me_RelPath me = Join (sh_Name s) rel ∧ dst = Join (sh_CachePath s) rel.
Abbreviation verify := (cfg_VerifyChecksum cfg).
Abbreviation ok := (phase_ok sha256 cached verify).
Definition sound (d : bytes) (tr : trace) : Prop :=
  ∀ cp, resume_Relocate d = Ok cp → ok (rc_Phase cp) (rc_Manifest cp) tr.
Abbreviation guard := (runs sha256 cached verify sound).
Abbreviation all_verified ms tr := (Forall (λ me, verified sha256 cached verify me tr) ms).

Lemma checkpoint_cwp cp tr : rc_Phase cp ≠ "" → ok (rc_Phase cp) (rc_Manifest cp) tr →
  cwp guard (checkpointRelocate env cp) tr (λ r _, ∃ x, r = Ok x).
Proof.
  intros Hph Hok. unfold checkpointRelocate. destruct (marshal_Relocate cp) as [d|e] eqn:Hd; [|apply cwp_ret; eauto].
  apply cwp_bind, cwp_sys; [|intros a; apply cwp_ret; eauto].
  split; [done|]. intros cp' Hcp'. by rewrite (relocate_read cp d cp' Hph Hd Hcp').
Qed.

Lemma relocateCopyItem_cwp disk rel pre tr : movable rel →
  cwp guard (relocateCopyItem env sha256 euid open s disk rel cfg pre) tr (λ r made,
    ∃ x, r = Ok x ∧ ∀ m, x = inr m → verified sha256 cached verify m made).
Proof.
  intros Hm. eapply relocates_runs; [|apply inside_copyItem]. unfold relocateCopyItem.
  apply (cwp_guard (λ tr e, temps tr e ∧ pass_call e = false)); [intros tr' e [??]; by apply temps_relocates|].
  eapply cwp_also; [|apply inside_copyItem]. apply copyItem_cwp; [apply Hm|done|]. intros size mtime. by exists rel.
Qed.

Definition copied_post (tr : trace) (r : res err (list ManifestEntry * list Entry * copy_end)) (made : trace) : Prop :=
  ∃ ms rep e, r = Ok (ms, rep, e) ∧ all_verified ms (tr ++ made).
Lemma copied_stop tr ms rep e made : all_verified ms tr → copied_post tr (Ok (ms, rep, e)) made.
Proof. intros H. exists ms, rep, e. split; [done|]. by apply all_verified_after. Qed.

Lemma copy_rels_cwp i disk pre resume rels : Forall movable rels → ∀ ms report tr, all_verified ms tr →
  cwp guard (copy_rels env sha256 euid open i s disk cfg pre resume rels ms report) tr (copied_post tr).
Proof.
  induction rels as [|rel rels IH]; intros Hl ms report tr Hms; cbn [copy_rels]; [by apply cwp_ret, copied_stop|].
  apply Forall_cons in Hl as [Hrel Hl]. specialize (IH Hl). set (resumed := _ || _).
  apply cwp_bind. eapply cwp_mono; [apply stopping_cwp|]. intros r m1 [stop ->].
  destruct stop; [by apply cwp_ret, copied_stop|].
  apply cwp_bind. eapply cwp_mono; [by apply relocateCopyItem_cwp|]. intros r m2 (x&->&Hx).
  set (ms' := match x with inl _ => ms | inr m => ms ++ [m] end).
  assert (all_verified ms' ((tr ++ m1) ++ m2)) as Hms'.
  { unfold ms'. destruct x as [e|m]; [by do 2 apply all_verified_after|]. apply Forall_app. split; [by do 2 apply all_verified_after|].
    constructor; [|done]. rewrite <-(app_nil_r m2). by apply verified_app, Hx. }
  assert (∀ report tr', tr' = (tr ++ m1) ++ m2 → cwp guard (copy_rels env sha256 euid open i s disk cfg pre resume rels ms' report) tr'
    (λ r made, copied_post tr r (m1 ++ m2 ++ made))) as Hrest.
  { intros rep tr' ->. eapply cwp_mono; [by apply IH|]. intros r m (ms''&rep'&e&->&H). exists ms'', rep', e. split; [done|].
    by rewrite !app_assoc. }
  destruct resumed; [by apply Hrest|].
  apply cwp_bind. eapply cwp_mono; [apply checkpoint_cwp; [done|apply copying_ok]|]. intros r m3 [saved ->].
  destruct saved.
  - apply cwp_ret. eexists ms', _, _. split; [reflexivity|]. rewrite !app_assoc. by do 2 apply all_verified_after.
  - eapply cwp_mono; [apply IH; by apply all_verified_after|]. intros r m (ms''&rep'&e&->&H). exists ms'', rep', e. split; [done|].
    by rewrite !app_assoc.
Qed.

Lemma copy_branches_cwp pre resume todo : Forall (λ p, Forall movable p.2) todo → ∀ i ms report tr, all_verified ms tr →
  cwp guard (copy_branches env sha256 euid open i s cfg pre resume todo ms report) tr (copied_post tr).
Proof.
  induction todo as [|[b rels] todo IH]; intros Hl i ms report tr Hms; cbn [copy_branches]; [by apply cwp_ret, copied_stop|].
  apply Forall_cons in Hl as [Hrels Hl]. apply cwp_bind. eapply cwp_mono; [by apply copy_rels_cwp|].
  intros r m (ms'&rep&e&->&Hms'). destruct e; [|by apply cwp_ret; exists ms', rep; eexists; rewrite app_nil_r..].
  eapply cwp_mono; [by apply IH|]. intros r m' (ms''&rep'&e&->&H). exists ms'', rep', e. by rewrite app_assoc.
Qed.

Lemma enumerate_branches_cwp bs : ∀ tr,
  cwp guard (enumerate_branches env bs) tr (λ r _, ∀ plan, r = Ok plan → Forall (Forall movable) plan).
Proof.
  induction bs as [|b bs IH]; intros tr; cbn [enumerate_branches]; [apply cwp_ret; by intros ? [= <-]|].
  apply cwp_bind, cwp_wrapping. eapply cwp_mono; [apply enumerate_movable; [done|]|].
  { intros tr' e He. by destruct e. }
  intros [rels|e] m H; [|done]. apply cwp_bind. eapply cwp_mono; [apply IH|]. intros [plan|e] m' H'; [|done].
  apply cwp_ret. intros ? [= <-]. constructor; [by apply H|by apply H'].
Qed.

Lemma open_checker_cwp tr : cwp guard (shareOpenChecker env open) tr (λ _ _, True).
Proof.
  eapply looks_runs; [apply inside_shareOpenChecker|]. unfold shareOpenChecker. looks_only.
Qed.

Lemma relocateCopyPhase_cwp resume report tr :
  cwp guard (relocateCopyPhase env sha256 euid open s cfg resume report) tr (copied_post tr).
Proof.
  unfold relocateCopyPhase. apply cwp_bind, cwp_try. eapply cwp_mono; [apply enumerate_branches_cwp|].
  intros [plan|e] m Hplan; [|by apply cwp_ret, copied_stop]. specialize (Hplan plan eq_refl).
  apply cwp_bind, cwp_try. eapply cwp_mono; [apply open_checker_cwp|]. intros [pre|e] m' _; [|by apply cwp_ret, copied_stop].
  eapply cwp_mono; [apply copy_branches_cwp; [|done]|].
  - apply Forall_forall. intros p [_ Hp]%in_zip. rewrite Forall_forall in Hplan. by apply Hplan.
  - intros r m'' (ms&rep&e&->&H). exists ms, rep, e. by rewrite !app_assoc.
Qed.

(** A phase starts from a checkpoint that is in order and leaves one. *)
Definition in_order (tr : trace) (r : res err (list Entry * next RelocateCheckpoint)) (made : trace) : Prop :=
  ∃ rep st, r = Ok (rep, st) ∧ ∀ cp, st = Goon cp → ok (rc_Phase cp) (rc_Manifest cp) (tr ++ made).

Lemma halt_in_order tr rep i e made : in_order tr (Ok (rep, Halt i e)) made.
Proof. by eexists _, _. Qed.
Lemma goon_in_order tr rep cp made : ok (rc_Phase cp) (rc_Manifest cp) tr → in_order tr (Ok (rep, Goon cp)) made.
Proof. intros H. eexists _, _. split; [reflexivity|]. intros ? [= <-]. by apply phase_ok_after. Qed.

(** The end of a phase: its checkpoint is saved, unless the run halts. *)
Lemma leave_cwp cp report tr t made : rc_Phase cp ≠ "" → tr = t ++ made → ok (rc_Phase cp) (rc_Manifest cp) tr →
  cwp guard (x ← checkpointRelocate env cp; saved_next env x cp report) tr (λ r m, in_order t r (made ++ m)).
Proof.
  intros Hph -> Hok. apply cwp_bind. eapply cwp_mono; [by apply checkpoint_cwp|]. intros r m1 [x ->].
  eapply cwp_mono; [apply saved_next_cwp|]. intros r m2 (rep&st&->&Hst). exists rep, st. split; [done|].
  intros cp' Hcp'. rewrite (Hst cp' Hcp'), !app_assoc. by do 2 apply phase_ok_after.
Qed.

Lemma copying_phase_cwp report cp tr : ok (rc_Phase cp) (rc_Manifest cp) tr →
  cwp guard (copying_phase env sha256 euid open s cfg report cp) tr (in_order tr).
Proof.
  intros Hok. unfold copying_phase. case_bool_decide; [|by apply cwp_ret, goon_in_order].
  apply cwp_bind. eapply cwp_mono; [apply relocateCopyPhase_cwp|]. intros r m (ms&rep&e&->&Hms).
  destruct e; [|apply cwp_ret, halt_in_order..]. apply leave_cwp; [done..|]. by apply syncing_ok.
Qed.

(** A sync of a verified manifest secures it. *)
Lemma sync_cwp ms tr Q : all_verified ms tr →
  (∀ a, (os_err a = None → Forall (λ me, secured sha256 cached verify me (tr ++ [(SSync ms, a)])) ms) → Q (Ok a) [(SSync ms, a)]) →
  cwp guard (sys_call env (SSync ms)) tr Q.
Proof.
  intros Hms H. apply cwp_sys; [by split|]. intros a. apply H. intros Ha. by apply synced_secures.
Qed.

Lemma syncing_phase_cwp report cp tr : ok (rc_Phase cp) (rc_Manifest cp) tr →
  cwp guard (syncing_phase env report cp) tr (in_order tr).
Proof.
  intros Hok. unfold syncing_phase. case_bool_decide as Hph; [|by apply cwp_ret, goon_in_order].
  destruct (rc_Manifest cp) as [|m ms] eqn:Hm; [by apply cwp_ret, goon_in_order, secured_ok|]. rewrite <-Hm in *.
  apply cwp_bind, sync_cwp; [by apply Hok|]. intros a Ha. destruct (os_err a); [apply cwp_ret, halt_in_order|].
  apply leave_cwp; [done..|]. by apply secured_ok, Ha.
Qed.

Lemma delete_loop_cwp ms : ∀ rest i report tr, Forall (λ me, secured sha256 cached verify me tr) ms → (∀ me, me ∈ rest → me ∈ ms) →
  cwp guard (relocate_delete_loop env open s ms i rest report) tr (λ r _, ∃ x, r = Ok x).
Proof.
  induction rest as [|me rest IH]; intros i report tr Hms Hin; cbn [relocate_delete_loop]; [apply cwp_ret; eauto|].
  apply cwp_bind. eapply cwp_mono; [apply stopping_cwp|]. intros r m1 [stop ->]. destruct stop; [apply cwp_ret; eauto|].
  apply cwp_bind. eapply cwp_mono; [eapply relocates_runs; [apply removal_cwp|apply inside_removeSource]|].
  { apply secured_after. rewrite Forall_forall in Hms. apply Hms, Hin. by left. }
  intros r m2 [e ->]. apply cwp_bind. eapply cwp_mono; [apply checkpoint_cwp; [done|]|].
  { apply secured_ok; [done|]. by do 2 apply all_secured_after. }
  intros r m3 [x ->]. destruct x; [apply cwp_ret; eauto|].
  eapply cwp_mono; [apply IH; [by do 3 apply all_secured_after|]|done]. intros me' H. apply Hin. by right.
Qed.

Lemma deleting_phase_cwp report cp tr : ok (rc_Phase cp) (rc_Manifest cp) tr →
  cwp guard (deleting_phase env open s report cp) tr (in_order tr).
Proof.
  intros Hok. unfold deleting_phase. case_bool_decide as Hph; [|by apply cwp_ret, goon_in_order].
  assert (Forall (λ me, secured sha256 cached verify me tr) (rc_Manifest cp)) as Hms by (apply Hok; by left).
  apply cwp_bind. eapply cwp_mono with (Q := λ r _, ∃ x, r = Ok x).
  { unfold relocateDeletePhase. destruct (_ <? 0).
    - apply cwp_bind. eapply cwp_mono; [apply stopping_cwp|]. intros r m [b ->]. apply cwp_ret. eauto.
    - apply delete_loop_cwp; [done|]. intros me Hin. rewrite <-(take_drop (Z.to_nat (rc_DeletedCount cp))). apply elem_of_app. by right. }
  intros r m [[rep e] ->]. destruct e; [|apply cwp_ret, halt_in_order..].
  apply leave_cwp; [done..|]. apply secured_ok; [done|]. by apply all_secured_after.
Qed.

Lemma final_phase_cwp report cp tr : ok (rc_Phase cp) (rc_Manifest cp) tr →
  cwp guard (final_phase env report cp) tr (in_order tr).
Proof.
  intros Hok. unfold final_phase. case_bool_decide as Hph; [|by apply cwp_ret, goon_in_order].
  destruct (rc_Manifest cp) as [|m ms] eqn:Hm; [by apply cwp_ret, goon_in_order; rewrite Hm|]. rewrite <-Hm in *.
  apply cwp_bind, sync_cwp.
  { eapply Forall_impl; [apply Hok; by right|]. intros me. apply secured_verified. }
  intros a _. destruct (os_err a); apply cwp_ret; [apply halt_in_order|by apply goon_in_order].
Qed.

(** ** A run *)
Lemma record_visits_looks root visits : ∀ named, makes env looks (record_visits env s root visits named).
Proof.
  induction visits as [|v visits IH]; intros named; cbn [record_visits]; unfold sys_call; looks_only.
Qed.
Lemma record_roots_looks roots : ∀ named, makes env looks (record_roots env s roots named).
Proof.
  induction roots as [|root roots IH]; intros named; cbn [record_roots]; unfold sys_call; looks_only; apply record_visits_looks.
Qed.
Lemma record_visits_inside root visits : ∀ named, makes env inside (record_visits env s root visits named).
Proof. induction visits as [|v visits IH]; intros named; cbn [record_visits]; inside_only. Qed.
Lemma record_roots_inside roots : ∀ named, makes env inside (record_roots env s roots named).
Proof. induction roots as [|root roots IH]; intros named; cbn [record_roots]; inside_only; apply record_visits_inside. Qed.
Lemma record_cwp report roots tr : cwp guard (recordUnreportedSources env report s roots) tr (λ _ _, True).
Proof.
  unfold recordUnreportedSources. apply cwp_bind. eapply cwp_mono; [eapply looks_runs; [apply record_roots_inside|apply record_roots_looks]|].
  intros [es|e] m _; [by apply cwp_ret|done].
Qed.

Lemma then_phase_cwp st (f : list Entry → RelocateCheckpoint → M (list Entry * next RelocateCheckpoint)) t made :
  in_order t (Ok st) made → (∀ report cp tr, ok (rc_Phase cp) (rc_Manifest cp) tr → cwp guard (f report cp) tr (in_order tr)) →
  cwp guard (then_phase st f) (t ++ made) (λ r m, in_order t r (made ++ m)).
Proof.
  intros (rep&st'&[= ->]&Hst) Hf. unfold then_phase. cbn [fst snd]. destruct st' as [cp|i e]; [|by apply cwp_ret, halt_in_order].
  eapply cwp_mono; [by apply Hf, Hst|]. intros r m (rep'&st'&->&H). exists rep', st'. by rewrite app_assoc.
Qed.

Lemma RelocateToCache_cwp hasSync data tr : sound data tr →
  cwp guard (RelocateToCache env sha256 euid open hasSync s cfg data) tr (λ _ _, True).
Proof.
  intros Hs. unfold RelocateToCache. destruct hasSync; cbn [negb]; [|by apply cwp_ret].
  destruct (resume_Relocate data) as [cp|e] eqn:Hcp; [|by apply cwp_ret]. specialize (Hs cp Hcp).
  apply cwp_bind, cwp_sys; [by apply runs_harmless|]. intros start.
  apply cwp_bind. eapply cwp_mono; [by apply copying_phase_cwp, phase_ok_after|]. intros r1 m1 H1.
  destruct H1 as (rep1&st1&->&Hst1).
  apply cwp_bind. eapply cwp_mono; [apply then_phase_cwp; [by exists rep1, st1|intros; by apply syncing_phase_cwp]|]. intros r2 m2 H2.
  destruct H2 as (rep2&st2&->&Hst2).
  apply cwp_bind. rewrite <-(app_assoc _ m1 m2).
  eapply cwp_mono; [apply then_phase_cwp; [by exists rep2, st2|intros; by apply deleting_phase_cwp]|]. intros r3 m3 H3.
  destruct H3 as (rep3&st3&->&Hst3).
  apply cwp_bind. rewrite <-(app_assoc _ (m1 ++ m2) m3).
  eapply cwp_mono; [apply then_phase_cwp; [by exists rep3, st3|intros; by apply final_phase_cwp]|]. intros r4 m4 H4.
  destruct H4 as (rep4&st4&->&Hst4).
  destruct st4 as [cp4|i e].
  - apply cwp_bind. eapply cwp_mono; [apply record_cwp|]. intros [r|e] m _; [|done].
    apply cwp_bind, cwp_sys; [by apply runs_harmless|]. intros now. by apply cwp_ret.
  - apply cwp_bind, cwp_sys; [by apply runs_harmless|]. intros now. by apply cwp_ret.
Qed.
End relocation.

(** ** All runs of a relocation *)

(** Runs of a relocation, each started over or resumed from what earlier runs may
    have left, and ended or cut off anywhere: the data left, and the calls of all. *)
Section runs.
Context (sha256 : data → string) (euid : Z) (open : OpenChecker) (s : Share) (cfg : Config).

Inductive relocations : bytes → trace → Prop :=
  | relocations_none : relocations BNil []
  | relocations_run env data data' tr r ran lost :
      relocations data tr → walks_names env →
      RelocateToCache env sha256 euid open true s cfg data tr = (r, tr ++ ran ++ lost) →
      left_over data ran data' → relocations data' (tr ++ ran).

Abbreviation sound_ := (sound sha256 s cfg).
Abbreviation guard := (runs sha256 (cached s) (cfg_VerifyChecksum cfg) sound_).

Lemma sound_after data tr y : sound_ data tr → sound_ data (tr ++ y).
Proof. intros H cp Hcp. by apply phase_ok_after, H. Qed.
Lemma relocations_guarded data tr : relocations data tr → sound_ data tr ∧ guarded guard [] tr.
Proof.
  assert (∀ tr, sound_ BNil tr) as Hnil by (intros ? cp [= <-]; apply copying_ok).
  induction 1 as [|env data data' tr r ran lost _ [Hs Hg] Hn Hrun Hl]; [split; [done|apply guarded_nil]|].
  destruct (RelocateToCache_cwp env sha256 euid open Hn s cfg true data tr Hs) as (made&Hm&Hg'&_).
  rewrite Hrun in Hm. cbn in Hm. apply app_inv_head in Hm as <-. by eapply run_cut; [|apply sound_after|..].
Qed.

(** C25: Over all runs of a relocation to the cache, however they were stopped,
    cut off, resumed or started over: whatever is removed is a temporary entry the runs made
    themselves, or an original that earlier calls copied whole to its place on the
    cache (or found copied there), whose manifest entry a parity sync carried
    successfully after that, and that a fresh walk after the sync found
    unchanged and closed; and every sync carries verified copies only. *)
Theorem original_removed_only_after_sync data tr before e a after :
  relocations data tr → tr = before ++ (e, a) :: after →
  relocates sha256 (cached s) (cfg_VerifyChecksum cfg) before e.
Proof. intros [_ Hg]%relocations_guarded ->. by destruct (Hg before e a after eq_refl). Qed.
End runs.

(** One file on one disk is relocated. *)
Module DemoRelocate.
Definition env : environment sys os_answer := λ _ e,
  match e with
  | SOpenRoot p => answered None (if bool_decide (p = "/cache") then 3 else 4) Demo.file "" [] 0 false []
  | SOpenat d _ OpenDir => answered None (d + 10) Demo.file "" [] 0 false []
  | SWalkDir _ => answered None 0 Demo.file "" [] 0 false [("a", false)]
  | _ => Demo.world e
  end.
Definition share : Share := mkShare "media" "/cache/media" "/array/media" ["/d1/media"] 0 [] false.
Definition run := RelocateToCache env Demo.sha256 0 Demo.checker_ true share Demo.cfg BNil [].
End DemoRelocate.

Lemma demo_names : walks_names DemoRelocate.env.
Proof.
  intros tr root p. cbn. rewrite list_elem_of_singleton. intros ->. exists [], "a". by split_and!.
Qed.
Example demo_relocates : match DemoRelocate.run.1 with
  | Ok (report, None) => map (λ e, (en_Path e, en_Result e)) (rp_Entries report) = [("a", ResultMoved)]
  | _ => False
  end.
Proof. vm_compute. reflexivity. Qed.

(** A relocation that is stopped reports no end. *)
Example stopped_has_no_end :
  let env tr e := match e with SStopRequested => answered None 0 Demo.file "" [] 0 true [] | _ => DemoRelocate.env tr e end in
  match (RelocateToCache env Demo.sha256 0 Demo.checker_ true DemoRelocate.share Demo.cfg BNil []).1 with
  | Ok (report, None) => rp_Interrupted report = true ∧ rp_FinishedAt report = None
  | _ => False
  end.
Proof. vm_compute. auto. Qed.

Lemma original_removed_only_after_sync_witness :
  let w := DemoRelocate.run.2 in
  w !! 35%nat = Some (SSync [mkManifest "media/a" 2 7 "/d1" "/cache" false], Demo.answer) ∧
  w !! 46%nat = Some (SUnlink 14 "a", Demo.answer) ∧
  relocates Demo.sha256 (cached DemoRelocate.share) false (take 46 w) (SUnlink 14 "a").
Proof.
  intros w. split; [vm_compute; reflexivity|]. split; [vm_compute; reflexivity|].
  apply (original_removed_only_after_sync Demo.sha256 0 Demo.checker_ DemoRelocate.share Demo.cfg BNil w
    (take 46 w) (SUnlink 14 "a") Demo.answer (drop 47 w)).
  - refine (relocations_run _ _ _ _ _ DemoRelocate.env BNil BNil [] DemoRelocate.run.1 w [] (relocations_none _ _ _ _ _) demo_names _ (or_introl eq_refl)).
    vm_compute. reflexivity.
  - vm_compute. reflexivity.
Defined.
