(* ===== verification/Rebalance.v ===== *)
(** * Rebalancing the array

    [internal/cache/rebalance.go]: which files a share's most full disk gives to
    its least full one, and the run that moves them in batches, each a copy, a
    parity sync, the removal of the originals and another sync. Percentages are
    binary64 floats. A hook or a limit that is not set is one that answers nil or
    zero. *)
From stdpp Require Import pretty.
From S2P Require Import Guard.
From S2P Require Export Relocate.
Open Scope string_scope.
Open Scope list_scope.
Open Scope Z_scope.

Definition DefaultSkewTolerancePercent : spec_float := b64 5.
Definition DefaultRebalanceBatchLimit : Z := 200.
Definition ErrRebalanceTrackedCountRequired : err := EOther "cache: rebalance requires Deps.TrackedFileCount".
Definition ErrRebalanceUnsafeBatchSize : err :=
  EOther "cache: rebalance batch size is not safe against the threshold guard's current thresholds".

Record RebalanceMove := mkMove {
  rm_Share : string;
  rm_RelPath : string;
  rm_SourceBranch : string;
  rm_TargetBranch : string;
  rm_Size : Z
}.
Record RebalanceWarning := mkWarning { rw_Share : string; rw_Reason : string }.
Record RebalancePlan := mkPlan {
  rp_Moves : list RebalanceMove;
  rp_Warnings : list RebalanceWarning;
  rp_NonShareContent : list string
}.

(** ** The batches' checkpoint *)
Record RebalanceCheckpoint := mkRebalance {
  rb_BatchStart : Z;
  rb_BatchEnd : Z;
  rb_Phase : string;
  rb_Manifest : list ManifestEntry;
  rb_DeletedCount : Z
}.
Definition RebalancePhaseCopying : string := "copying".
Definition RebalancePhaseSyncing : string := "syncing".
Definition RebalancePhaseDeleting : string := "deleting".
Definition RebalancePhaseFinalSync : string := "final_sync".

(** [json.Marshal(cp)] *)
Definition marshal_Rebalance (cp : RebalanceCheckpoint) : res err bytes :=
  if forallb (λ m, writable_time (me_MTime m)) (rb_Manifest cp) then
    Ok (BJson (JObj ([("batch_start", JNum (pretty (rb_BatchStart cp))); ("batch_end", JNum (pretty (rb_BatchEnd cp)));
                      ("phase", JStr (rb_Phase cp))]
                     ++ omit_nil "manifest" (map json_of_entry (rb_Manifest cp)) ++ omit_zero "deleted_count" (rb_DeletedCount cp))))
  else Err (wrap "cache: encode rebalance checkpoint: " (EOther "Time.MarshalJSON: year outside of range [0,9999]")).
Definition rebalance_fields : list (field RebalanceCheckpoint) :=
  [int_field "batch_start" (λ v c, mkRebalance v (rb_BatchEnd c) (rb_Phase c) (rb_Manifest c) (rb_DeletedCount c));
   int_field "batch_end" (λ v c, mkRebalance (rb_BatchStart c) v (rb_Phase c) (rb_Manifest c) (rb_DeletedCount c));
   str_field "phase" (λ v c, mkRebalance (rb_BatchStart c) (rb_BatchEnd c) v (rb_Manifest c) (rb_DeletedCount c));
   list_field "manifest" entry_of_json (λ v c, mkRebalance (rb_BatchStart c) (rb_BatchEnd c) (rb_Phase c) v (rb_DeletedCount c));
   int_field "deleted_count" (λ v c, mkRebalance (rb_BatchStart c) (rb_BatchEnd c) (rb_Phase c) (rb_Manifest c) v)].
Definition unmarshal_Rebalance : bytes → res err RebalanceCheckpoint := unmarshal_struct rebalance_fields (mkRebalance 0 0 "" [] 0).
Definition resume_Rebalance (data : bytes) : res err RebalanceCheckpoint :=
  match (if bytes_empty data then Ok (mkRebalance 0 0 "" [] 0) else unmarshal_Rebalance data) with
  | Err e => Err e
  | Ok cp =>
      Ok (if bool_decide (rb_Phase cp = "")
          then mkRebalance (rb_BatchStart cp) (rb_BatchEnd cp) RebalancePhaseCopying (rb_Manifest cp) (rb_DeletedCount cp) else cp)
  end.

(** [int(x)], with what amd64 makes of a value out of range. *)
Definition b64_to_int (x : spec_float) : Z :=
  match x with
  | S754_zero _ => 0
  | S754_finite s m e =>
      let n := if 0 <=? e then Z.pos m * 2 ^ e else Z.pos m / 2 ^ (- e) in
      let z := if s then - n else n in
      if (min_int64 <=? z) && (z <=? max_int64) then z else min_int64
  | _ => min_int64
  end.

(** A share's name and the path below it. *)
Definition splitManifestRelPath (relPath : string) : string * string :=
  match cut slash relPath with Some (share, rel) => (share, rel) | None => (relPath, "") end.

Section rebalance.
Context (env : environment sys os_answer) (sha256 : data → string) (euid : Z).
Context (open : OpenChecker).
Abbreviation sysc := (sys_call env).
Abbreviation must := (must env).

(** ** Running a plan *)
Definition rebalanceBatchLimit : M Z :=
  a ← sysc SBatchLimit; mret (if 0 <? os_int a then os_int a else DefaultRebalanceBatchLimit).
Definition rebalancePercentLimit : M spec_float :=
  a ← sysc SPercentLimit;
  mret (if b64_gt (os_float a) (b64 0) && b64_gt (b64 100) (os_float a) then os_float a else DefaultRemovedUpdatedPercent).

Definition rebalanceBatchSize (remaining : Z) : M Z :=
  t ← must "cache: rebalance: tracked file count: " STrackedFileCount;
  let tracked := os_int t in
  limit ← rebalanceBatchLimit;
  limit ← (if 0 <? tracked then
             percentLimit ← rebalancePercentLimit;
             let pctLimit := b64_to_int (b64_div (b64_mul percentLimit (b64 tracked)) (SFsub 53 1024 (b64 100) percentLimit)) in
             mret (if pctLimit <? limit then pctLimit else limit)
           else mret limit);
  mret (if remaining <? limit then remaining else limit).

Definition rebalanceRecheckSafe (batchSize : Z) : M bool :=
  limit ← rebalanceBatchLimit;
  if limit <? batchSize then mret false
  else
    t ← must "cache: rebalance: tracked file count: " STrackedFileCount;
    let tracked := os_int t in
    if tracked <=? 0 then mret true
    else
      percentLimit ← rebalancePercentLimit;
      mret (SFleb (b64_mul (b64_div (b64 batchSize) (b64 tracked)) (b64 100)) percentLimit).

Definition checkpointRebalance (cp : RebalanceCheckpoint) : M (option err) :=
  match marshal_Rebalance cp with
  | Err e => mret (Some e)
  | Ok d => a ← sysc (SSaveCheckpoint d); mret (os_err a)
  end.

Definition rebalanceCopyItem (mv : RebalanceMove) (cfg : Config) (pre : checker) : M (Entry + ManifestEntry) :=
  copyItem env sha256 euid open (rm_Share mv) (rm_RelPath mv) (Dir (rm_SourceBranch mv)) (Dir (rm_TargetBranch mv))
    (Join (rm_TargetBranch mv) (rm_RelPath mv)) cfg pre.

Fixpoint copy_moves (batch : list RebalanceMove) (cfg : Config) (pre : checker) (manifest : list ManifestEntry) (report : list Entry) :
    M (list ManifestEntry * list Entry * copy_end) :=
  match batch with
  | [] => mret (manifest, report, CopiedAll)
  | mv :: rest =>
      stop ← stopping env;
      if (stop : bool) then mret (manifest, report, CopyStopped)
      else
        r ← rebalanceCopyItem mv cfg pre;
        match r with
        | inl e => copy_moves rest cfg pre manifest (report ++ [e])
        | inr m => copy_moves rest cfg pre (manifest ++ [m]) report
        end
  end.
Definition rebalanceCopyBatch (batch : list RebalanceMove) (cfg : Config) (report : list Entry) :
    M (list ManifestEntry * list Entry * copy_end) :=
  o ← try (shareOpenChecker env open);
  match o with
  | Err e => mret ([], report, CopyFailed (wrap "cache: rebalance: snapshot open files: " e))
  | Ok pre => copy_moves batch cfg pre [] report
  end.

Definition finishRebalanceDelete (me : ManifestEntry) : M Entry :=
  let (share, rel) := splitManifestRelPath (me_RelPath me) in
  removeSource env open (me_SourceDisk me) (me_RelPath me) (mkEntry share rel (me_Size me) ResultFailed "" "" "")
    (mkStamp (me_Size me) (me_MTime me)).

Fixpoint rebalance_delete_loop (cp : RebalanceCheckpoint) (i : Z) (rest : list ManifestEntry) (report : list Entry) : M (list Entry * copy_end) :=
  match rest with
  | [] => mret (report, CopiedAll)
  | me :: rest =>
      stop ← stopping env;
      if (stop : bool) then mret (report, CopyStopped)
      else
        e ← finishRebalanceDelete me;
        x ← checkpointRebalance (mkRebalance (rb_BatchStart cp) (rb_BatchEnd cp) RebalancePhaseDeleting (rb_Manifest cp) (i + 1));
        match x with
        | Some x => mret (report ++ [e], CopyFailed (wrap "cache: save rebalance checkpoint: " x))
        | None => rebalance_delete_loop cp (i + 1) rest (report ++ [e])
        end
  end.
Definition rebalanceDeleteBatch (cp : RebalanceCheckpoint) (report : list Entry) : M (list Entry * copy_end) :=
  if rb_DeletedCount cp <? 0 then
    stop ← stopping env;
    mret (report, if (stop : bool) then CopyStopped else CopyFailed (EOther "panic: index out of range"))
  else rebalance_delete_loop cp (rb_DeletedCount cp) (drop (Z.to_nat (rb_DeletedCount cp)) (rb_Manifest cp)) report.

(** [moves[lo:hi]] of a slice with no spare capacity *)
Definition slice_of {A} (l : list A) (lo hi : Z) : option (list A) :=
  if (0 <=? lo) && (lo <=? hi) && (hi <=? Z.of_nat (length l))
  then Some (take (Z.to_nat (hi - lo)) (drop (Z.to_nat lo) l)) else None.

(** The phases of a batch. *)
Definition size_batch (total : Z) (report : list Entry) (cp : RebalanceCheckpoint) : M (list Entry * next RebalanceCheckpoint) :=
  if rb_BatchEnd cp <=? rb_BatchStart cp then
    s ← try (rebalanceBatchSize (total - rb_BatchStart cp));
    match s with
    | Err e => mret (report, Halt false (Some e))
    | Ok size =>
        if size <=? 0 then mret (report, Halt false (Some ErrRebalanceUnsafeBatchSize))
        else
          let cp := mkRebalance (rb_BatchStart cp) (rb_BatchStart cp + size) RebalancePhaseCopying [] 0 in
          x ← checkpointRebalance cp;
          mret (report, match x with Some e => Halt false (Some e) | None => Goon cp end)
    end
  else mret (report, Goon cp).
Definition copy_batch (batch : list RebalanceMove) (cfg : Config) (report : list Entry) (cp : RebalanceCheckpoint) :
    M (list Entry * next RebalanceCheckpoint) :=
  if bool_decide (rb_Phase cp = RebalancePhaseCopying) then
    r ← rebalanceCopyBatch batch cfg report;
    match r with
    | (_, report, CopyFailed e) => mret (report, Halt false (Some e))
    | (_, report, CopyStopped) => mret (report, Halt true None)
    | (manifest, report, CopiedAll) =>
        let cp := mkRebalance (rb_BatchStart cp) (rb_BatchEnd cp) RebalancePhaseSyncing manifest 0 in
        x ← checkpointRebalance cp; saved_next env x cp report
    end
  else mret (report, Goon cp).
Definition sync_batch (report : list Entry) (cp : RebalanceCheckpoint) : M (list Entry * next RebalanceCheckpoint) :=
  if bool_decide (rb_Phase cp = RebalancePhaseSyncing) then
    match rb_Manifest cp with
    | [] => mret (report, Goon (mkRebalance (rb_BatchStart cp) (rb_BatchEnd cp) RebalancePhaseDeleting [] 0))
    | _ =>
        a ← sysc (SSync (rb_Manifest cp));
        match os_err a with
        | Some e => mret (report, Halt false (Some (wrap "cache: rebalance: sync: " e)))
        | None =>
            let cp := mkRebalance (rb_BatchStart cp) (rb_BatchEnd cp) RebalancePhaseDeleting (rb_Manifest cp) 0 in
            x ← checkpointRebalance cp; saved_next env x cp report
        end
    end
  else mret (report, Goon cp).
Definition delete_batch (report : list Entry) (cp : RebalanceCheckpoint) : M (list Entry * next RebalanceCheckpoint) :=
  if bool_decide (rb_Phase cp = RebalancePhaseDeleting) then
    s ← try (if (rb_DeletedCount cp =? 0) && (0 <? Z.of_nat (length (rb_Manifest cp)))
             then rebalanceRecheckSafe (Z.of_nat (length (rb_Manifest cp))) else mret true);
    match s with
    | Err e => mret (report, Halt false (Some e))
    | Ok false => mret (report, Halt false (Some ErrRebalanceUnsafeBatchSize))
    | Ok true =>
        r ← rebalanceDeleteBatch cp report;
        match r with
        | (report, CopyFailed e) => mret (report, Halt false (Some e))
        | (report, CopyStopped) => mret (report, Halt true None)
        | (report, CopiedAll) =>
            let cp := mkRebalance (rb_BatchStart cp) (rb_BatchEnd cp) RebalancePhaseFinalSync (rb_Manifest cp) 0 in
            x ← checkpointRebalance cp; saved_next env x cp report
        end
    end
  else mret (report, Goon cp).
Definition final_sync_batch (report : list Entry) (cp : RebalanceCheckpoint) : M (list Entry * next RebalanceCheckpoint) :=
  s ← (if bool_decide (rb_Phase cp = RebalancePhaseFinalSync) && (0 <? Z.of_nat (length (rb_Manifest cp)))
       then a ← sysc (SSync (rb_Manifest cp)); mret (os_err a) else mret None);
  match s with
  | Some e => mret (report, Halt false (Some (wrap "cache: rebalance: final sync: " e)))
  | None =>
      let cp := mkRebalance (rb_BatchEnd cp) 0 RebalancePhaseCopying [] 0 in
      x ← checkpointRebalance cp; saved_next env x cp report
  end.
Definition run_batch (moves : list RebalanceMove) (cfg : Config) (report : list Entry) (cp : RebalanceCheckpoint) :
    M (list Entry * next RebalanceCheckpoint) :=
  st ← size_batch (Z.of_nat (length moves)) report cp;
  st ← then_phase st (λ report cp,
         match slice_of moves (rb_BatchStart cp) (rb_BatchEnd cp) with
         | None => mret (report, Halt false (Some (EOther "panic: slice bounds out of range")))
         | Some batch => copy_batch batch cfg report cp
         end);
  st ← then_phase st sync_batch;
  st ← then_phase st delete_batch;
  then_phase st final_sync_batch.

(** Each batch moves on by at least one move, so that one turn per move and one
    for the end are enough. *)
Fixpoint run_batches (fuel : nat) (moves : list RebalanceMove) (cfg : Config) (report : list Entry) (cp : RebalanceCheckpoint) :
    M (option (list Entry * next RebalanceCheckpoint)) :=
  if negb (rb_BatchStart cp <? Z.of_nat (length moves)) then mret (Some (report, Goon cp))
  else
    match fuel with
    | O => mret None
    | S fuel =>
        st ← run_batch moves cfg report cp;
        match st with
        | (report, Goon cp) => run_batches fuel moves cfg report cp
        | _ => mret (Some st)
        end
    end.

(** Whether [deps.Sync] and [deps.TrackedFileCount] are set. *)
Context (hasSync hasCount : bool).

Definition RunRebalance (plan : RebalancePlan) (cfg : Config) (initialCheckpoint : bytes) : M (option (Report * option err)) :=
  let none e := mret (Some (mkReport 0 None false false [], Some e)) in
  if negb hasSync then none (EOther "cache: run rebalance: Deps.Sync is required")
  else if negb hasCount then none ErrRebalanceTrackedCountRequired
  else
    match resume_Rebalance initialCheckpoint with
    | Err e => none (wrap "cache: decode rebalance checkpoint: " e)
    | Ok cp =>
        start ← sysc SNow;
        st ← run_batches (S (length (rp_Moves plan))) (rp_Moves plan) cfg [] cp;
        now ← sysc SNow;
        mret match st with
             | None => None
             | Some (entries, st) =>
                 let report interrupted := mkReport (os_int start) (Some (os_int now)) interrupted false entries in
                 Some match st with Halt interrupted e => (report interrupted, e) | Goon _ => (report false, None) end
             end
    end.
End rebalance.
