(* ===== verification/RebalanceSafety.v ===== *)
(** * What a rebalance may remove

    The same promise as a relocation's, batch by batch; and a rebalance ends. *)
From stdpp Require Import pretty.
From S2P Require Import Guard.
From S2P Require Export Rebalance ManifestSafety RelocateSafety.
Open Scope string_scope.
Open Scope list_scope.
Open Scope Z_scope.

(** ** The checkpoint is read back *)
#[local] Opaque entry_of_json json_of_entry.
Lemma rebalance_read cp d cp' : rb_Phase cp ≠ "" → marshal_Rebalance cp = Ok d → resume_Rebalance d = Ok cp' → cp' = cp.
Proof.
  destruct cp as [lo hi phase ms count]. unfold marshal_Rebalance. cbn [rb_Phase rb_Manifest rb_BatchStart rb_BatchEnd rb_DeletedCount].
  intros Hph. destruct (forallb _ _); [|done]. intros [= <-]. unfold resume_Rebalance, unmarshal_Rebalance. cbn [bytes_empty].
  pose proof (manifest_read ms) as Hms. unfold omit_nil, omit_zero.
  destruct (map json_of_entry ms) as [|j js] eqn:Hjs; destruct (Z.eqb_spec count 0) as [->|_]; json_read;
    (destruct (Atoi (pretty lo)) as [lo'|] eqn:Hlo; json_read; [apply Atoi_pretty_inv in Hlo as ->|done]);
    (destruct (Atoi (pretty hi)) as [hi'|] eqn:Hhi; json_read; [apply Atoi_pretty_inv in Hhi as ->|done]).
  - destruct ms; [|done]. rewrite bool_decide_false by done. by intros [= <-].
  - destruct ms; [|done]. destruct (Atoi (pretty count)) as [n|] eqn:Hn; json_read; [apply Atoi_pretty_inv in Hn as ->|done].
    rewrite bool_decide_false by done. by intros [= <-].
  - destruct (mapM entry_of_json (j :: js)) as [ms'|]; json_read; [|done]. rewrite (Hms ms' eq_refl).
    rewrite bool_decide_false by done. by intros [= <-].
  - destruct (mapM entry_of_json (j :: js)) as [ms'|]; json_read; [rewrite (Hms ms' eq_refl)|];
    (destruct (Atoi (pretty count)) as [n|] eqn:Hn; json_read; [apply Atoi_pretty_inv in Hn as ->|done]); [|done].
    rewrite bool_decide_false by done. by intros [= <-].
Qed.
#[local] Transparent entry_of_json json_of_entry.

(** The place of a moved file on its target. *)
Definition placed (me : ManifestEntry) (dst : string) : Prop :=
  ∃ share rel branch, me_RelPath me = Join share rel ∧ me_TargetDisk me = Dir branch ∧ dst = Join branch rel.
(** Moves of files that are no copies under construction. *)
Definition movable_moves (moves : list RebalanceMove) : Prop :=
  Forall (λ mv, Contains (Base (Join (rm_Share mv) (rm_RelPath mv))) tempSuffix = false) moves.

Section rebalance.
Context (env : environment sys os_answer) (sha256 : data → string) (euid : Z) (open : OpenChecker) (cfg : Config).
Abbreviation verify := (cfg_VerifyChecksum cfg).
Abbreviation ok cp tr := (phase_ok sha256 placed verify (rb_Phase cp) (rb_Manifest cp) tr).
Definition rebalance_sound (d : bytes) (tr : trace) : Prop := ∀ cp, resume_Rebalance d = Ok cp → ok cp tr.
Abbreviation guard := (runs sha256 placed verify rebalance_sound).
Abbreviation all_verified ms tr := (Forall (λ me, verified sha256 placed verify me tr) ms).

Lemma rebalance_checkpoint_cwp cp tr : rb_Phase cp ≠ "" → ok cp tr →
  cwp guard (checkpointRebalance env cp) tr (λ r _, ∃ x, r = Ok x).
Proof.
  intros Hph Hok. unfold checkpointRebalance. destruct (marshal_Rebalance cp) as [d|e] eqn:Hd; [|apply cwp_ret; eauto].
  apply cwp_bind, cwp_sys; [|intros a; apply cwp_ret; eauto].
  split; [done|]. intros cp' Hcp'. by rewrite (rebalance_read cp d cp' Hph Hd Hcp').
Qed.

(** ** The phases of a batch *)

(** A phase leaves a checkpoint that is in order and about which [P] holds. *)
Definition leaves (P : RebalanceCheckpoint → Prop) (tr : trace) (r : res err (list Entry * next RebalanceCheckpoint)) (made : trace) : Prop :=
  ∃ rep st, r = Ok (rep, st) ∧ ∀ cp, st = Goon cp → ok cp (tr ++ made) ∧ P cp.
Lemma halt_leaves P tr rep i e made : leaves P tr (Ok (rep, Halt i e)) made.
Proof. by eexists _, _. Qed.
Lemma goon_leaves (P : RebalanceCheckpoint → Prop) tr rep cp made : ok cp tr → P cp → leaves P tr (Ok (rep, Goon cp)) made.
Proof. intros H HP. eexists _, _. split; [reflexivity|]. intros ? [= <-]. split; [by apply phase_ok_after|done]. Qed.
Lemma end_batch_cwp (P : RebalanceCheckpoint → Prop) cp report tr t made : rb_Phase cp ≠ "" → tr = t ++ made → ok cp tr → P cp →
  cwp guard (x ← checkpointRebalance env cp; saved_next env x cp report) tr (λ r m, leaves P t r (made ++ m)).
Proof.
  intros Hph -> Hok HP. apply cwp_bind. eapply cwp_mono; [by apply rebalance_checkpoint_cwp|]. intros r m1 [x ->].
  eapply cwp_mono; [apply saved_next_cwp|]. intros r m2 (rep&st&->&Hst). exists rep, st. split; [done|].
  intros cp' Hcp'. rewrite (Hst cp' Hcp'), !app_assoc. split; [by do 2 apply phase_ok_after|done].
Qed.

(** The bounds of a batch stay what they are. *)
Definition same_batch (cp cp' : RebalanceCheckpoint) : Prop := rb_BatchStart cp' = rb_BatchStart cp ∧ rb_BatchEnd cp' = rb_BatchEnd cp.

Lemma limits_cwp n tr :
  cwp guard (try (rebalanceBatchSize env n)) tr (λ r _, ∃ x, r = Ok x) ∧ cwp guard (try (rebalanceRecheckSafe env n)) tr (λ r _, ∃ x, r = Ok x).
Proof.
  assert (∀ {X} (m : M X), makes env inside m → makes env looks m → cwp guard (try m) tr (λ r _, ∃ x, r = Ok x)) as H.
  { intros X m Hi Hl. apply cwp_try. eapply cwp_mono; [by eapply looks_runs|]. eauto. }
  split; apply H; unfold rebalanceBatchSize, rebalanceRecheckSafe, rebalanceBatchLimit, rebalancePercentLimit, sys_call;
    [inside_only|looks_only|inside_only|looks_only].
Qed.

Lemma size_batch_cwp total report cp tr : ok cp tr →
  cwp guard (size_batch env total report cp) tr (leaves (λ cp', rb_BatchStart cp' = rb_BatchStart cp ∧ rb_BatchStart cp' < rb_BatchEnd cp') tr).
Proof.
  intros Hok. unfold size_batch. destruct (Z.leb_spec (rb_BatchEnd cp) (rb_BatchStart cp)); [|by apply cwp_ret, goon_leaves].
  apply cwp_bind. eapply cwp_mono; [apply limits_cwp|]. intros r m [s ->].
  destruct s as [size|e]; [|apply cwp_ret, halt_leaves]. destruct (Z.leb_spec size 0); [apply cwp_ret, halt_leaves|].
  apply cwp_bind. eapply cwp_mono; [apply rebalance_checkpoint_cwp; [done|apply copying_ok]|]. intros r m' [x ->].
  apply cwp_ret. destruct x; [apply halt_leaves|]. eexists _, _. split; [reflexivity|]. intros ? [= <-].
  split; [apply copying_ok|]. cbn. lia.
Qed.

Definition moved_post (tr : trace) (r : res err (list ManifestEntry * list Entry * copy_end)) (made : trace) : Prop :=
  ∃ ms rep e, r = Ok (ms, rep, e) ∧ all_verified ms (tr ++ made).
Lemma copy_moves_cwp batch pre : movable_moves batch → ∀ ms report tr, all_verified ms tr →
  cwp guard (copy_moves env sha256 euid open batch cfg pre ms report) tr (moved_post tr).
Proof.
  induction batch as [|mv batch IH]; intros Hmv ms report tr Hms; cbn [copy_moves].
  { apply cwp_ret. eexists _, _, _. split; [reflexivity|]. by rewrite app_nil_r. }
  apply Forall_cons in Hmv as [Hmv Hbatch]. specialize (IH Hbatch).
  apply cwp_bind. eapply cwp_mono; [apply stopping_cwp|]. intros r m1 [stop ->].
  destruct stop; [apply cwp_ret; eexists _, _, _; split; [reflexivity|by apply all_verified_after]|].
  apply cwp_bind. eapply cwp_mono with (Q := λ r made, ∃ x, r = Ok x ∧ ∀ m, x = inr m → verified sha256 placed verify m made).
  { eapply relocates_runs; [|apply inside_copyItem].
    apply (cwp_guard (λ tr e, temps tr e ∧ pass_call e = false)); [intros tr' e [??]; by apply temps_relocates|].
    eapply cwp_also; [|apply inside_copyItem]. apply copyItem_cwp; [exact Hmv|done|]. intros size mtime. by eexists _, _, _. }
  intros r m2 (x&->&Hx). destruct x as [e|me].
  - eapply cwp_mono; [apply IH; by do 2 apply all_verified_after|]. intros r m (ms'&rep&e'&->&Hrest). exists ms', rep, e'. by rewrite !app_assoc.
  - eapply cwp_mono; [apply IH|].
    + apply Forall_app. split; [by do 2 apply all_verified_after|]. constructor; [|done].
      rewrite <-(app_nil_r m2). by apply verified_app, Hx.
    + intros r m (ms'&rep&e'&->&Hrest). exists ms', rep, e'. by rewrite !app_assoc.
Qed.

Lemma copy_batch_cwp batch report cp tr : movable_moves batch → ok cp tr →
  cwp guard (copy_batch env sha256 euid open batch cfg report cp) tr (leaves (same_batch cp) tr).
Proof.
  intros Hmv Hok. unfold copy_batch. case_bool_decide as Hph; [|by apply cwp_ret, goon_leaves].
  apply cwp_bind. eapply cwp_mono with (Q := moved_post tr).
  { unfold rebalanceCopyBatch. apply cwp_bind, cwp_try. eapply cwp_mono with (Q := λ _ _, True).
    { eapply looks_runs; [apply inside_shareOpenChecker|]. unfold shareOpenChecker. looks_only. }
    intros [pre|e] m _; [|by apply cwp_ret; eexists [], _, _].
    eapply cwp_mono; [by apply copy_moves_cwp|]. intros r m' (ms&rep&e&->&H). exists ms, rep, e. by rewrite app_assoc. }
  intros r m (ms&rep&e&->&Hms). destruct e; [|apply cwp_ret, halt_leaves..].
  apply end_batch_cwp; [done|done| |done]. by apply syncing_ok.
Qed.

Lemma sync_batch_cwp report cp tr : ok cp tr → cwp guard (sync_batch env report cp) tr (leaves (same_batch cp) tr).
Proof.
  intros Hok. unfold sync_batch. case_bool_decide as Hph; [|by apply cwp_ret, goon_leaves].
  destruct (rb_Manifest cp) as [|m ms] eqn:Hm; [by apply cwp_ret, goon_leaves; [apply secured_ok|]|]. rewrite <-Hm in *.
  assert (all_verified (rb_Manifest cp) tr) as Hv by by apply Hok.
  apply cwp_bind, cwp_sys; [by split|]. intros a. destruct (os_err a) eqn:Ha; [apply cwp_ret, halt_leaves|].
  apply end_batch_cwp; [done|done| |done]. apply secured_ok; [done|]. by apply synced_secures.
Qed.

Lemma rebalance_delete_cwp cp : ∀ rest i report tr, Forall (λ me, secured sha256 placed verify me tr) (rb_Manifest cp) →
  (∀ me, me ∈ rest → me ∈ rb_Manifest cp) →
  cwp guard (rebalance_delete_loop env open cp i rest report) tr (λ r _, ∃ x, r = Ok x).
Proof.
  induction rest as [|me rest IH]; intros i report tr Hms Hin; cbn [rebalance_delete_loop]; [apply cwp_ret; eauto|].
  apply cwp_bind. eapply cwp_mono; [apply stopping_cwp|]. intros r m1 [stop ->]. destruct stop; [apply cwp_ret; eauto|].
  apply cwp_bind. eapply cwp_mono with (Q := λ r _, ∃ e, r = Ok e).
  { unfold finishRebalanceDelete. destruct (splitManifestRelPath _) as [share rel].
    eapply relocates_runs; [apply removal_cwp|apply inside_removeSource].
    apply secured_after. rewrite Forall_forall in Hms. apply Hms, Hin. by left. }
  intros r m2 [e ->]. apply cwp_bind. eapply cwp_mono; [apply rebalance_checkpoint_cwp; [done|]|].
  { apply secured_ok; [done|]. by do 2 apply all_secured_after. }
  intros r m3 [x ->]. destruct x; [apply cwp_ret; eauto|].
  eapply cwp_mono; [apply IH; [by do 3 apply all_secured_after|]|done]. intros me' H. apply Hin. by right.
Qed.

Lemma delete_batch_cwp report cp tr : ok cp tr → cwp guard (delete_batch env open report cp) tr (leaves (same_batch cp) tr).
Proof.
  intros Hok. unfold delete_batch. case_bool_decide as Hph; [|by apply cwp_ret, goon_leaves].
  assert (Forall (λ me, secured sha256 placed verify me tr) (rb_Manifest cp)) as Hms by (apply Hok; by left).
  apply cwp_bind. eapply cwp_mono with (Q := λ r _, ∃ x, r = Ok x).
  { destruct (_ && _); [apply limits_cwp|]. apply cwp_try, cwp_ret. eauto. }
  intros r m1 [safe ->]. destruct safe as [[]|e]; [|apply cwp_ret, halt_leaves..].
  apply cwp_bind. eapply cwp_mono with (Q := λ r _, ∃ x, r = Ok x).
  { unfold rebalanceDeleteBatch. destruct (_ <? 0).
    - apply cwp_bind. eapply cwp_mono; [apply stopping_cwp|]. intros r m [b ->]. apply cwp_ret. eauto.
    - apply rebalance_delete_cwp; [by apply all_secured_after|]. intros me Hin.
      rewrite <-(take_drop (Z.to_nat (rb_DeletedCount cp))). apply elem_of_app. by right. }
  intros r m2 [[rep e] ->]. destruct e; [|apply cwp_ret, halt_leaves..]. rewrite <-app_assoc.
  eapply cwp_mono; [apply end_batch_cwp with (t := tr) (made := m1 ++ m2) (P := same_batch cp); [done|done| |done]|].
  - apply secured_ok; [done|]. by apply all_secured_after.
  - intros r m3 Hl. cbn beta in Hl. by rewrite <-app_assoc in Hl.
Qed.

Lemma final_sync_batch_cwp report cp tr : ok cp tr →
  cwp guard (final_sync_batch env report cp) tr (leaves (λ cp', rb_BatchStart cp' = rb_BatchEnd cp) tr).
Proof.
  intros Hok. unfold final_sync_batch. apply cwp_bind. eapply cwp_mono with (Q := λ r _, ∃ x, r = Ok x).
  { destruct (bool_decide (rb_Phase cp = _) && _) eqn:Hph; [|apply cwp_ret; eauto].
    apply andb_true_iff in Hph as [Hph%bool_decide_eq_true _]. apply cwp_bind, cwp_sys; [|intros a; apply cwp_ret; eauto].
    split; [|done]. eapply Forall_impl; [apply Hok; by right|]. intros me. apply secured_verified. }
  intros r m [s ->]. destruct s; [apply cwp_ret, halt_leaves|]. by apply end_batch_cwp; [..|apply copying_ok|].
Qed.
(** ** A batch moves on *)
Lemma then_leaves P Q st (f : list Entry → RebalanceCheckpoint → M (list Entry * next RebalanceCheckpoint)) t made :
  leaves P t (Ok st) made → (∀ report cp tr, ok cp tr → P cp → cwp guard (f report cp) tr (leaves Q tr)) →
  cwp guard (then_phase st f) (t ++ made) (λ r m, leaves Q t r (made ++ m)).
Proof.
  intros (rep&st'&[= ->]&Hst) Hf. unfold then_phase. cbn [fst snd]. destruct st' as [cp|i e]; [|by apply cwp_ret, halt_leaves].
  destruct (Hst cp eq_refl) as [Hok HP]. eapply cwp_mono; [by apply Hf|]. intros r m (rep'&st'&->&H). exists rep', st'. by rewrite app_assoc.
Qed.
(** One phase of several: its result goes to the next one. *)
Lemma phase_bind P Q (m : M (list Entry * next RebalanceCheckpoint)) k t made :
  cwp guard m (t ++ made) (λ r m', leaves P t r (made ++ m')) →
  (∀ st made', leaves P t (Ok st) made' → cwp guard (k st) (t ++ made') (λ r m', leaves Q t r (made' ++ m'))) →
  cwp guard (m ≫= k) (t ++ made) (λ r m', leaves Q t r (made ++ m')).
Proof.
  intros Hm Hk. apply cwp_bind. eapply cwp_mono; [exact Hm|]. intros r m' (rep&st&->&Hst). rewrite <-app_assoc.
  eapply cwp_mono; [apply Hk; by exists rep, st|]. intros r m''. by rewrite app_assoc.
Qed.

Definition moves_on (cp cp' : RebalanceCheckpoint) : Prop := 0 ≤ rb_BatchStart cp < rb_BatchStart cp'.
Lemma run_batch_cwp moves report cp tr : movable_moves moves → ok cp tr →
  cwp guard (run_batch env sha256 euid open moves cfg report cp) tr (leaves (moves_on cp) tr).
Proof.
  intros Hmv Hok. unfold run_batch.
  set (sized := λ cp', rb_BatchStart cp' = rb_BatchStart cp ∧ rb_BatchStart cp' < rb_BatchEnd cp').
  set (within := λ cp', 0 ≤ rb_BatchStart cp ∧ sized cp').
  assert (∀ cp1 cp2, within cp1 → same_batch cp1 cp2 → within cp2) as Hsame.
  { intros cp1 cp2 Hw [Hs He]. unfold within, sized in *. by rewrite Hs, He. }
  assert (∀ cp1 tr r m, within cp1 → leaves (same_batch cp1) tr r m → leaves within tr r m) as Hleave.
  { intros cp1 t r m Hw (rep&st&->&Hst). exists rep, st. split; [done|]. intros cp2 H2. destruct (Hst cp2 H2) as [? Hcp2]. split; [done|by eapply Hsame]. }
  rewrite <-(app_nil_r tr) at 1. apply (phase_bind sized).
  { rewrite app_nil_r. by apply size_batch_cwp. }
  intros st made Hst. apply (phase_bind within).
  { apply (then_leaves sized); [done|]. intros rep cp1 t Hok1 [H1 H2]. unfold slice_of.
    destruct (_ && _) eqn:Hb; [|by apply cwp_ret, halt_leaves]. rewrite !andb_true_iff, !Z.leb_le in Hb. destruct Hb as [[H0 _] _].
    eapply cwp_mono; [apply copy_batch_cwp; [|done]|intros r m; apply Hleave; split; [lia|done]].
    apply Forall_take, Forall_drop, Hmv. }
  clear st made Hst. intros st made Hst. apply (phase_bind within).
  { apply (then_leaves within); [done|]. intros rep cp1 t Hok1 Hw. eapply cwp_mono; [by apply sync_batch_cwp|]. eauto. }
  clear st made Hst. intros st made Hst. apply (phase_bind within).
  { apply (then_leaves within); [done|]. intros rep cp1 t Hok1 Hw. eapply cwp_mono; [by apply delete_batch_cwp|]. eauto. }
  clear st made Hst. intros st made Hst. apply (then_leaves within); [done|]. intros rep cp1 t Hok1 (H0&H1&H2).
  eapply cwp_mono; [by apply final_sync_batch_cwp|]. intros r m (rep'&st'&->&Hst'). exists rep', st'. split; [done|].
  intros cp2 Hcp2. destruct (Hst' cp2 Hcp2) as [? H3]. split; [done|]. unfold moves_on. lia.
Qed.

Lemma run_batches_cwp moves : movable_moves moves → ∀ fuel report cp tr, ok cp tr →
  0 < Z.of_nat fuel → (0 ≤ rb_BatchStart cp → Z.of_nat (length moves) - rb_BatchStart cp < Z.of_nat fuel) →
  cwp guard (run_batches env sha256 euid open fuel moves cfg report cp) tr (λ r _, ∃ x, r = Ok (Some x)).
Proof.
  intros Hmv fuel. induction fuel as [|fuel IH]; intros report cp tr Hok Hpos Hfuel; [lia|]. cbn [run_batches].
  destruct (Z.ltb_spec (rb_BatchStart cp) (Z.of_nat (length moves))); cbn [negb]; [|apply cwp_ret; eauto].
  apply cwp_bind. eapply cwp_mono; [by apply run_batch_cwp|]. intros r m (rep&st&->&Hst).
  destruct st as [cp'|i e]; [|apply cwp_ret; eauto]. destruct (Hst cp' eq_refl) as [Hok' Hon]. unfold moves_on in Hon.
  eapply cwp_mono; [apply IH; [done|lia..]|]. eauto.
Qed.

Lemma RunRebalance_cwp hasSync hasCount plan data tr : movable_moves (rp_Moves plan) → rebalance_sound data tr →
  cwp guard (RunRebalance env sha256 euid open hasSync hasCount plan cfg data) tr (λ r _, ∃ x, r = Ok (Some x)).
Proof.
  intros Hmv Hs. unfold RunRebalance. destruct hasSync, hasCount; cbn [negb]; try (apply cwp_ret; eauto; done).
  destruct (resume_Rebalance data) as [cp|e] eqn:Hcp; [|apply cwp_ret; eauto]. specialize (Hs cp Hcp).
  apply cwp_bind, cwp_sys; [by apply runs_harmless|]. intros start.
  apply cwp_bind. eapply cwp_mono; [apply run_batches_cwp; [done|by apply phase_ok_after|lia..]|]. intros r m [[rep st] ->].
  apply cwp_bind, cwp_sys; [by apply runs_harmless|]. intros now. apply cwp_ret. eauto.
Qed.
End rebalance.

(** ** All runs of a rebalance *)
Section runs.
Context (sha256 : data → string) (euid : Z) (open : OpenChecker) (cfg : Config).

(** Runs of a rebalance, each with a plan, started over or resumed from what earlier
    runs may have left, and ended or cut off anywhere: the data left, and the calls
    of all. *)
Inductive rebalances : bytes → trace → Prop :=
  | rebalances_none : rebalances BNil []
  | rebalances_run env plan data data' tr r ran lost :
      rebalances data tr → movable_moves (rp_Moves plan) →
      RunRebalance env sha256 euid open true true plan cfg data tr = (r, tr ++ ran ++ lost) →
      left_over data ran data' → rebalances data' (tr ++ ran).

Abbreviation sound := (rebalance_sound sha256 cfg).
Abbreviation guard := (runs sha256 placed (cfg_VerifyChecksum cfg) sound).

Lemma rebalance_sound_after data tr y : sound data tr → sound data (tr ++ y).
Proof. intros H cp Hcp. by apply phase_ok_after, H. Qed.
Lemma rebalances_guarded data tr : rebalances data tr → sound data tr ∧ guarded guard [] tr.
Proof.
  assert (∀ tr, sound BNil tr) as Hnil by (intros ? cp [= <-]; apply copying_ok).
  induction 1 as [|env plan data data' tr r ran lost _ [Hs Hg] Hmv Hrun Hl]; [split; [done|apply guarded_nil]|].
  destruct (RunRebalance_cwp env sha256 euid open cfg true true plan data tr Hmv Hs) as (made&Hm&Hg'&_).
  rewrite Hrun in Hm. cbn in Hm. apply app_inv_head in Hm as <-. by eapply run_cut; [|apply rebalance_sound_after|..].
Qed.

(** C26: Over all runs of a rebalance, however they were stopped, cut off,
    resumed or started over: whatever is removed is a temporary entry the runs made themselves, or
    an original that earlier calls copied whole to its place on the target disk
    (or found copied there), that a parity sync carried successfully after that,
    and that a fresh walk after the sync found unchanged and closed; and every
    sync, the one after the removals included, carries verified copies only. *)
Theorem rebalanced_removed_only_after_sync data tr before e a after :
  rebalances data tr → tr = before ++ (e, a) :: after →
  relocates sha256 placed (cfg_VerifyChecksum cfg) before e.
Proof. intros [_ Hg]%rebalances_guarded ->. by destruct (Hg before e a after eq_refl). Qed.

End runs.

(** One file is given from one disk to another. *)
Module DemoRebalance.
Definition env : environment sys os_answer := λ tr e,
  match e with
  | SOpenRoot p => answered None (if bool_decide (p = "/d2") then 3 else 4) Demo.file "" [] 0 false []
  | SOpenat d _ OpenDir => answered None (d + 10) Demo.file "" [] 0 false []
  | STrackedFileCount => answered None 0 Demo.file "" [] 100 false []
  | SPercentLimit => answered None 0 Demo.file "" [] 0 false []
  | _ => Demo.world e
  end.
Definition plan : RebalancePlan := mkPlan [mkMove "media" "a" "/d1/media" "/d2/media" 2] [] [].
Definition run := RunRebalance env Demo.sha256 0 Demo.checker_ true true plan Demo.cfg BNil [].
End DemoRebalance.

Example demo_rebalances : match DemoRebalance.run.1 with
  | Ok (Some (report, None)) => map (λ e, (en_Path e, en_Result e)) (rp_Entries report) = [("a", ResultMoved)]
  | _ => False
  end.
Proof. vm_compute. reflexivity. Qed.
Lemma demo_movable : movable_moves (rp_Moves DemoRebalance.plan).
Proof. by repeat constructor. Qed.

Lemma rebalanced_removed_only_after_sync_witness :
  let w := DemoRebalance.run.2 in
  w !! 36%nat = Some (SSync [mkManifest "media/a" 2 7 "/d1" "/d2" false], Demo.answer) ∧
  w !! 50%nat = Some (SUnlink 14 "a", Demo.answer) ∧
  relocates Demo.sha256 placed false (take 50 w) (SUnlink 14 "a").
Proof.
  intros w. split; [vm_compute; reflexivity|]. split; [vm_compute; reflexivity|].
  apply (rebalanced_removed_only_after_sync Demo.sha256 0 Demo.checker_ Demo.cfg BNil w
    (take 50 w) (SUnlink 14 "a") Demo.answer (drop 51 w)).
  - refine (rebalances_run _ _ _ _ DemoRebalance.env DemoRebalance.plan BNil BNil [] DemoRebalance.run.1 w []
      (rebalances_none _ _ _ _) demo_movable _ (or_introl eq_refl)). vm_compute. reflexivity.
  - vm_compute. reflexivity.
Defined.


(** With a limit of 7% and 93 files tracked, a batch of 7 files is found to be
    safe; once its copies are tracked too, 7 of 100 files come out as
    7.000000000000001% and are refused, before anything is removed and again on
    every later run. *)
Module DemoPercent.
Definition env (tracked : Z) : environment sys os_answer := λ _ e,
  match e with
  | STrackedFileCount => answered None 0 Demo.file "" [] tracked false []
  | SPercentLimit => mkOsAnswer None 0 Demo.file "" [] 0 false [] [] 0 (b64 7)
  | _ => answered None 0 Demo.file "" [] 0 false []
  end.
End DemoPercent.
Example sized_batch_is_refused :
  (rebalanceBatchSize (DemoPercent.env 93) 50 []).1 = Ok 7 ∧ (rebalanceRecheckSafe (DemoPercent.env (93 + 7)) 7 []).1 = Ok false.
Proof. vm_compute. auto. Qed.
