(* ===== verification/PlanMoves.v ===== *)
(** * Planning the moves of a rebalance and of an evacuation

    [PlanRebalance] of [internal/cache/rebalance.go], with the usage of a disk
    ([statfs.go]), and [internal/cache/evacuate.go]: the plan that empties a disk,
    and the check that it is empty. [Precheck] of [relocate.go] lists open files the
    same way. What [sort.Slice] makes of files of one size is a parameter. *)
From S2P Require Import Guard.
From S2P Require Export Rebalance.
Open Scope string_scope.
Open Scope list_scope.
Open Scope Z_scope.

(** ** Usage of a disk *)
Record DiskUsage := mkUsage { du_TotalBytes : Z; du_FreeBytes : Z }.
Definition UsedPercent (u : DiskUsage) : spec_float :=
  if du_TotalBytes u <=? 0 then b64 0
  else b64_mul (b64_div (b64 (wrap64 (du_TotalBytes u - du_FreeBytes u))) (b64 (du_TotalBytes u))) (b64 100).
(** [u.FreeBytes += n] *)
Definition add_free (n : Z) (u : DiskUsage) : DiskUsage := mkUsage (du_TotalBytes u) (wrap64 (du_FreeBytes u + n)).
(** What [deps.Usage] answered. *)
Definition usage_of (a : os_answer) : DiskUsage := mkUsage (os_int a) (os_free a).

Record rebalanceCandidate := mkCandidate { ca_rel : string; ca_size : Z }.
Record branchState := mkBranch { bs_branch : string; bs_usage : DiskUsage; bs_files : list rebalanceCandidate }.
(** [SkewTolerancePercent] of the configuration, or its default. *)
Definition skewTolerancePercent (configured : spec_float) : spec_float :=
  if b64_gt configured (b64 0) then configured else DefaultSkewTolerancePercent.

(** The regular files among the visits of a walk, up to its first error. *)
Fixpoint walk_files (root : string) (visits : list visit) : res err (list string) :=
  match visits with
  | [] => Ok []
  | v :: rest =>
      match vi_err v with
      | Some e => Err e
      | None =>
          match walk_files root rest with
          | Err e => Err e
          | Ok l =>
              Ok (if bool_decide (vi_kind v = Some Regular) && negb (Contains (Base (Join root (vi_rel v))) tempSuffix)
                  then vi_rel v :: l else l)
          end
      end
  end.
(** Whether a walk meets anything that is not a directory before an error. *)
Fixpoint holds_entry (visits : list visit) : res err bool :=
  match visits with
  | [] => Ok false
  | v :: rest =>
      match vi_err v with
      | Some e => Err e
      | None => if bool_decide (vi_kind v = Some Directory) then holds_entry rest else Ok true
      end
  end.

(** The fullest branch and the emptiest, the first of several alike. *)
Fixpoint pick_index (better : spec_float → spec_float → bool) (best : nat) (percent : spec_float) (i : nat) (rest : list branchState) : nat :=
  match rest with
  | [] => best
  | st :: rest =>
      let p := UsedPercent (bs_usage st) in
      if better p percent then pick_index better i p (S i) rest else pick_index better best percent (S i) rest
  end.
Definition extreme (better : spec_float → spec_float → bool) (states : list branchState) : nat :=
  match states with
  | [] => 0%nat
  | st :: rest => pick_index better 0 (UsedPercent (bs_usage st)) 1 rest
  end.

Fixpoint pick_from (i : nat) (files : list rebalanceCandidate) (most least : DiskUsage) (minFreeSpace : Z) : option nat :=
  match files with
  | [] => None
  | f :: rest =>
      if wrap64 (du_FreeBytes least - minFreeSpace) <? ca_size f then pick_from (S i) rest most least minFreeSpace
      else if b64_gt (UsedPercent (add_free (- ca_size f) least)) (UsedPercent (add_free (ca_size f) most))
      then pick_from (S i) rest most least minFreeSpace
      else Some i
  end.
Definition pickMovableFile (most least : branchState) (minFreeSpace : Z) : option nat :=
  pick_from 0 (bs_files most) (bs_usage most) (bs_usage least) minFreeSpace.

Definition spread_warning (s : Share) (dir : string) : RebalanceWarning :=
  mkWarning (sh_Name s) ("rebalancing will spread " +:+ Join (sh_Name s) dir
    +:+ " across more disks, which reduces the benefit of keeping folders together").

Section plan.
Context (env : environment sys os_answer) (open : OpenChecker).
(** [sort.Slice], largest first *)
Context (sortSlice : list rebalanceCandidate → list rebalanceCandidate).
Abbreviation sysc := (sys_call env).
Abbreviation must := (must env).

Definition enumerateFiles (root : string) : M (list string) :=
  st ← sysc (SStat root);
  match os_err st with
  | Some e => if err_is e S_NotExist then mret [] else throw e
  | None => w ← sysc (SVisit root); rels ← of_res (walk_files root (os_visits w)); mret (Strings_sort rels)
  end.

(** [if ctx.Err() != nil { return ctx.Err() }]: a context that is done stays so. *)
Definition check_ctx : M unit :=
  c ← sysc SCtxErr; match os_err c with None => mret tt | Some e => throw e end.

(** The files with their sizes; one that is gone is passed over. *)
Fixpoint candidates (root : string) (rels : list string) : M (list rebalanceCandidate) :=
  match rels with
  | [] => mret []
  | rel :: rest =>
      a ← sysc (SLstat (Join root rel));
      match os_err a with
      | Some e =>
          if err_is e S_NotExist then candidates root rest
          else throw (wrap ("stat " +:+ quoted (Join root rel) +:+ ": ") e)
      | None => cands ← candidates root rest; mret (mkCandidate rel (fi_Size (os_info a)) :: cands)
      end
  end.

Definition disk_usage (b : string) : M DiskUsage :=
  u ← must ("usage for " +:+ quoted b +:+ ": ") (SUsage b); mret (usage_of u).

(** Whether a warning that folders of [s] are spread is due for [dir]. *)
Definition warn_spread (s : Share) (target rel : string) (warned : list string) : M (option RebalanceWarning * list string) :=
  if sh_PathPreserving s then
    let dir := Dir rel in
    let key := sh_Name s +:+ "/" +:+ dir in
    if bool_decide (key ∈ warned) then mret (None, warned)
    else
      st ← sysc (SStat (Join target dir));
      mret (if bool_decide (os_err st = None) then (None, warned) else (Some (spread_warning s dir), key :: warned))
  else mret (None, warned).

(** ** A rebalance *)
Fixpoint branch_states (branches : list string) : M (list branchState) :=
  match branches with
  | [] => mret []
  | b :: rest =>
      u ← disk_usage b;
      rels ← wrapping ("enumerate " +:+ quoted b +:+ ": ") (enumerateFiles b);
      cands ← candidates b rels;
      states ← branch_states rest;
      mret (mkBranch b u (sortSlice cands) :: states)
  end.

Fixpoint plan_moves (fuel : nat) (s : Share) (tolerance : spec_float) (states : list branchState)
    (moves : list RebalanceMove) (warnings : list RebalanceWarning) (warned : list string) :
    M (option (list RebalanceMove * list RebalanceWarning)) :=
  match fuel with
  | O => mret None
  | S fuel =>
      _ ← check_ctx;
      let mostIdx := extreme b64_gt states in
      let leastIdx := extreme SFltb states in
      match states !! mostIdx, states !! leastIdx with
      | Some most, Some least =>
          if SFleb (SFsub 53 1024 (UsedPercent (bs_usage most)) (UsedPercent (bs_usage least))) tolerance
          then mret (Some (moves, warnings))
          else
            match pickMovableFile most least (sh_MinFreeSpace s) with
            | None => mret (Some (moves, warnings))
            | Some idx =>
                match bs_files most !! idx with
                | None => throw (EOther "panic: index out of range")
                | Some f =>
                    w ← warn_spread s (bs_branch least) (ca_rel f) warned;
                    let move := mkMove (sh_Name s) (ca_rel f) (bs_branch most) (bs_branch least) (ca_size f) in
                    let states := alter (λ st, mkBranch (bs_branch st) (add_free (ca_size f) (bs_usage st)) (delete idx (bs_files st))) mostIdx states in
                    let states := alter (λ st, mkBranch (bs_branch st) (add_free (- ca_size f) (bs_usage st)) (bs_files st)) leastIdx states in
                    plan_moves fuel s tolerance states (moves ++ [move]) (warnings ++ option_list w.1) w.2
                end
            end
      | _, _ => throw (EOther "panic: index out of range")
      end
  end.

(** Each turn takes a file off a list, so that one turn per file and one for the
    end are enough. *)
Definition planShareRebalance (s : Share) (configured : spec_float) : M (option (list RebalanceMove * list RebalanceWarning)) :=
  states ← branch_states (sh_Branches s);
  plan_moves (S (length (concat (map bs_files states)))) s (skewTolerancePercent configured) states [] [] [].

Fixpoint PlanRebalance (shares : list Share) (configured : spec_float) : M (option RebalancePlan) :=
  match shares with
  | [] => mret (Some (mkPlan [] [] []))
  | s :: rest =>
      _ ← check_ctx;
      if (length (sh_Branches s) <? 2)%nat then PlanRebalance rest configured
      else
        r ← wrapping ("cache: plan rebalance for share " +:+ quoted (sh_Name s) +:+ ": ") (planShareRebalance s configured);
        plan ← PlanRebalance rest configured;
        mret (match r, plan with
              | Some (moves, warnings), Some plan => Some (mkPlan (moves ++ rp_Moves plan) (warnings ++ rp_Warnings plan) [])
              | _, _ => None
              end)
  end.

(** ** Open files of a share *)
Definition IsOpen (c : checker) (path : string) : sys :=
  match c with Live => SIsOpen path | Snapshot => SSnapIsOpen path end.
Fixpoint open_rels (c : checker) (root : string) (rels : list string) : M (list string) :=
  match rels with
  | [] => mret []
  | rel :: rest =>
      o ← must ("cache: precheck: " +:+ quoted (Join root rel) +:+ ": ") (IsOpen c (Join root rel));
      l ← open_rels c root rest;
      mret (if os_yes o then rel :: l else l)
  end.
Fixpoint open_below (c : checker) (roots : list string) : M (list string) :=
  match roots with
  | [] => mret []
  | root :: rest =>
      rels ← wrapping ("cache: precheck: enumerate " +:+ quoted root +:+ ": ") (enumerateFiles root);
      l ← open_rels c root rels;
      l' ← open_below c rest;
      mret (l ++ l')
  end.
(** [PrecheckResult.OpenPaths] *)
Definition Precheck (s : Share) : M (list string) :=
  c ← wrapping ("cache: precheck: snapshot open files for share " +:+ quoted (sh_Name s) +:+ ": ") (shareOpenChecker env open);
  open_below c (sh_CachePath s :: sh_Branches s).
End plan.
