(* ===== verification/PlanSafety.v ===== *)
(** * The plan of a rebalance fits

    What every move of a planned rebalance is, in the order of the plan, and that
    the planning ends and only reads. *)
From S2P Require Import Guard.
From S2P Require Export PlanMoves Binary64 RebalanceSafety.
Open Scope string_scope.
Open Scope list_scope.
Open Scope Z_scope.

(** ** What a plan is made from *)
Section reads.
Implicit Types (tr : trace) (b root : string).

Definition usage_asked tr b (u : DiskUsage) : Prop := ∃ a, (SUsage b, a) ∈ tr ∧ os_err a = None ∧ u = usage_of a.
Definition size_seen tr root (f : rebalanceCandidate) : Prop :=
  ∃ a, (SLstat (Join root (ca_rel f)), a) ∈ tr ∧ os_err a = None ∧ ca_size f = fi_Size (os_info a).
(** A regular file that no copy is making. *)
Definition movable_visit root (v : visit) : Prop := vi_kind v = Some Regular ∧ Contains (Base (Join root (vi_rel v))) tempSuffix = false.
#[export] Instance movable_visit_dec root v : Decision (movable_visit root v).
Proof. unfold movable_visit. apply _. Defined.
Definition file_seen tr root (f : rebalanceCandidate) : Prop :=
  size_seen tr root f ∧ ∃ w v, (SVisit root, w) ∈ tr ∧ v ∈ os_visits w ∧ vi_rel v = ca_rel f ∧ movable_visit root v.
(** No walk visits a path twice. *)
Definition visits_once tr : Prop := ∀ root w, (SVisit root, w) ∈ tr → NoDup (map vi_rel (os_visits w)).

Lemma usage_asked_mono tr tr' b u : tr ⊆ tr' → usage_asked tr b u → usage_asked tr' b u.
Proof. intros Hsub (a&Hin&H). exists a. auto. Qed.
Lemma file_seen_mono tr tr' root f : tr ⊆ tr' → file_seen tr root f → file_seen tr' root f.
Proof.
  intros Hsub [(a&Hin&H) (w&v&Hw&H')]. split; [exists a; auto|exists w, v; auto].
Qed.
Lemma visits_once_mono tr tr' : tr ⊆ tr' → visits_once tr' → visits_once tr.
Proof. intros Hsub H root w Hin. eauto. Qed.

Lemma walk_files_ok root vs : ∀ l, walk_files root vs = Ok l → l = map vi_rel (filter (movable_visit root) vs).
Proof.
  induction vs as [|v vs IH]; intros l; cbn [walk_files]; [by intros [= <-]|].
  destruct (vi_err v); [done|]. destruct (walk_files root vs) as [l'|] eqn:Hl; [|done]. intros [= <-].
  rewrite (IH l' eq_refl), filter_cons. case_bool_decide as Hk; cbn [andb]; [|by rewrite decide_False by (intros []; done)].
  destruct (Contains _ _) eqn:Hc; cbn [negb]; [rewrite decide_False by (intros []; congruence); done|by rewrite decide_True].
Qed.
End reads.

Abbreviation only_looks := (λ (_ : trace) (e : sys), looks e).

Section planning.
Context (env : environment sys os_answer).

Lemma check_ctx_cwp tr : cwp only_looks (check_ctx env) tr (λ _ _, True).
Proof. unfold check_ctx. apply cwp_bind, cwp_sys; [done|]. intros a. destruct (os_err a); [by apply cwp_throw|by apply cwp_ret]. Qed.
Lemma disk_usage_cwp b tr : cwp only_looks (disk_usage env b) tr (λ r made, ∀ u, r = Ok u → usage_asked made b u).
Proof.
  unfold disk_usage. apply cwp_bind, cwp_must; [done| |intros; done]. intros a Ha. apply cwp_ret. intros u [= <-].
  exists a. set_solver.
Qed.
Lemma enumerateFiles_cwp root tr : cwp only_looks (enumerateFiles env root) tr (λ r made, ∀ rels, r = Ok rels →
  (∀ rel, rel ∈ rels → ∃ w v, (SVisit root, w) ∈ made ∧ v ∈ os_visits w ∧ vi_rel v = rel ∧ movable_visit root v) ∧
  (visits_once made → NoDup rels)).
Proof.
  unfold enumerateFiles. apply cwp_bind, cwp_sys; [done|]. intros st. destruct (os_err st) as [e|].
  { destruct (err_is e S_NotExist); [apply cwp_ret|by apply cwp_throw]. intros rels [= <-]. split; [set_solver|constructor]. }
  apply cwp_bind, cwp_sys; [done|]. intros w. apply cwp_bind, cwp_of_res.
  destruct (walk_files root (os_visits w)) as [l|e] eqn:Hl; [|done]. apply walk_files_ok in Hl as ->.
  apply cwp_ret. intros rels [= <-]. unfold Strings_sort. split; [|rewrite merge_sort_Permutation].
  - intros rel. rewrite merge_sort_Permutation. intros (v&->&[Hv Hin]%list_elem_of_filter)%list_elem_of_fmap. exists w, v. set_solver.
  - intros H. apply (sublist_NoDup _ (map vi_rel (os_visits w))); [by apply (H root); set_solver|].
    apply fmap_sublist, sublist_filter.
Qed.
Lemma candidates_cwp root rels : ∀ tr, cwp only_looks (candidates env root rels) tr (λ r made, ∀ cands, r = Ok cands →
  map ca_rel cands `sublist_of` rels ∧ ∀ f, f ∈ cands → size_seen made root f).
Proof.
  induction rels as [|rel rels IH]; intros tr; cbn [candidates].
  { apply cwp_ret. intros cands [= <-]. split; [done|set_solver]. }
  apply cwp_bind, cwp_sys; [done|]. intros a. destruct (os_err a) as [e|] eqn:Ha.
  - destruct (err_is e S_NotExist); [|by apply cwp_throw]. eapply cwp_mono; [apply IH|]. intros r m H cands Hr.
    destruct (H cands Hr) as [Hs Hf]. split; [by constructor|]. intros f (a'&Hin&H')%Hf. exists a'. set_solver.
  - apply cwp_bind. eapply cwp_mono; [apply IH|]. intros [cands|e] m H; [|done]. destruct (H cands eq_refl) as [Hs Hf].
    apply cwp_ret. intros ? [= <-]. split; [cbn; by constructor|]. intros f [->|Hin]%elem_of_cons.
    + exists a. set_solver.
    + destruct (Hf f Hin) as (a'&Hin'&H'). exists a'. set_solver.
Qed.

(** A branch as it was read. *)
Definition branch_read (tr : trace) (b : string) (st : branchState) : Prop :=
  bs_branch st = b ∧ usage_asked tr b (bs_usage st) ∧ (∀ f, f ∈ bs_files st → file_seen tr b f) ∧
  (visits_once tr → NoDup (map ca_rel (bs_files st))).
Lemma branch_read_mono tr tr' b st : tr ⊆ tr' → branch_read tr b st → branch_read tr' b st.
Proof.
  intros Hsub (Hb&Hu&Hf&Hn). split_and!; [done|by eapply usage_asked_mono| |].
  - intros f Hin. eapply file_seen_mono; eauto.
  - intros H. by eapply Hn, visits_once_mono.
Qed.

Context (sortSlice : list rebalanceCandidate → list rebalanceCandidate) (Hsort : ∀ l, sortSlice l ≡ₚ l).
Lemma branch_states_cwp bs : ∀ tr, cwp only_looks (branch_states env sortSlice bs) tr (λ r made,
  ∀ states, r = Ok states → Forall2 (branch_read made) bs states).
Proof.
  induction bs as [|b bs IH]; intros tr; cbn [branch_states]; [apply cwp_ret; by intros states [= <-]|].
  apply cwp_bind. eapply cwp_mono; [apply disk_usage_cwp|]. intros [u|e] m1 Hu; [|done]. specialize (Hu u eq_refl).
  apply cwp_bind, cwp_wrapping. eapply cwp_mono; [apply enumerateFiles_cwp|]. intros [rels|e] m2 Hr; [|done].
  destruct (Hr rels eq_refl) as [Hseen Hnd].
  apply cwp_bind. eapply cwp_mono; [apply candidates_cwp|]. intros [cands|e] m3 Hc; [|done].
  destruct (Hc cands eq_refl) as [Hsub Hsize].
  apply cwp_bind. eapply cwp_mono; [apply IH|]. intros [states|e] m4 Hs; [|done]. specialize (Hs states eq_refl).
  apply cwp_ret. intros ? [= <-]. rewrite app_nil_r. constructor.
  - split_and!; [done|eapply usage_asked_mono, Hu; set_solver| |].
    + cbn [bs_files]. intros f Hin. rewrite Hsort in Hin. split.
      * destruct (Hsize f Hin) as (a&Ha&H). exists a. set_solver.
      * destruct (Hseen (ca_rel f)) as (w&v&Hw&H); [eapply elem_of_sublist; [|exact Hsub]; by apply list_elem_of_fmap_2|].
        exists w, v. set_solver.
    + intros H. cbn [bs_files]. rewrite Hsort. eapply sublist_NoDup; [|exact Hsub]. eapply Hnd, visits_once_mono, H. set_solver.
  - eapply Forall2_impl; [exact Hs|]. intros b' st. apply branch_read_mono. set_solver.
Qed.
End planning.

(** ** Sums over branches *)
Definition zsum {A} (f : A → Z) (l : list A) : Z := foldr (λ x acc, f x + acc) 0 l.
Lemma zsum_cons {A} (f : A → Z) x l : zsum f (x :: l) = f x + zsum f l.
Proof. reflexivity. Qed.
#[global] Arguments zsum : simpl never.
Lemma zsum_ext {A} (f g : A → Z) l : (∀ x, x ∈ l → f x = g x) → zsum f l = zsum g l.
Proof. induction l as [|x l IH]; intros H; [done|]. rewrite !zsum_cons. rewrite H, IH; [done| |left]. intros y Hy. apply H. by right. Qed.
Lemma zsum_bump {A} `{EqDecision A} (f : A → Z) l a d : NoDup l → a ∈ l → zsum (λ x, f x + if decide (x = a) then d else 0) l = zsum f l + d.
Proof.
  induction 1 as [|x l Hx Hl IH]; intros Ha; [set_solver|]. rewrite !zsum_cons. destruct (decide (x = a)) as [->|Hne].
  - rewrite (zsum_ext _ f l); [lia|]. intros y Hy. rewrite decide_False by (intros ->; done). lia.
  - rewrite IH by set_solver. lia.
Qed.
Lemma zsum_nonneg {A} (f : A → Z) l : (∀ x, x ∈ l → 0 ≤ f x) → 0 ≤ zsum f l.
Proof.
  induction l as [|x l IH]; intros H; [done|]. rewrite !zsum_cons. pose proof (H x ltac:(by left)). assert (0 ≤ zsum f l); [|lia].
  apply IH. intros y Hy. apply H. by right.
Qed.
Lemma zsum_one {A} `{EqDecision A} (f : A → Z) l a : (∀ x, x ∈ l → 0 ≤ f x) → a ∈ l → f a ≤ zsum f l.
Proof.
  induction l as [|x l IH]; intros H Ha; [set_solver|]. rewrite !zsum_cons. apply elem_of_cons in Ha as [->|Ha].
  - assert (0 ≤ zsum f l); [|lia]. apply zsum_nonneg. set_solver.
  - pose proof (H x ltac:(by left)). assert (f a ≤ zsum f l); [|lia]. apply IH; set_solver.
Qed.
Lemma zsum_two {A} `{EqDecision A} (f : A → Z) l a b : (∀ x, x ∈ l → 0 ≤ f x) → a ∈ l → b ∈ l → a ≠ b → f a + f b ≤ zsum f l.
Proof.
  induction l as [|x l IH]; intros H Ha Hb Hab; [set_solver|]. rewrite !zsum_cons. pose proof (H x ltac:(by left)).
  assert (∀ y, y ∈ l → 0 ≤ f y) as Hl by set_solver. pose proof (zsum_one f l) as H1.
  apply elem_of_cons in Ha as [->|Ha]; apply elem_of_cons in Hb as [->|Hb]; [done|specialize (H1 b Hl Hb); lia|specialize (H1 a Hl Ha); lia|].
  specialize (IH Hl Ha Hb Hab). lia.
Qed.
Lemma alter_map {A B} `{EqDecision A} (F : B → B) i (h : A → B) l a : NoDup l → l !! i = Some a →
  alter F i (map h l) = map (λ x, if decide (x = a) then F (h x) else h x) l.
Proof.
  intros Hl Hi. apply list_eq. intros j. rewrite list_lookup_alter, !list_lookup_fmap.
  destruct (decide (i = j)) as [<-|Hij].
  - rewrite Hi. cbn. by rewrite decide_True.
  - destruct (l !! j) as [b|] eqn:Hj; [|done]. cbn. rewrite decide_False; [done|]. intros ->. by apply Hij, (NoDup_lookup l i j a).
Qed.

(** ** A plan, move by move *)

(** What a move does to the free space of a branch's disk, and all of them do. *)
Definition freed (m : RebalanceMove) (b : string) : Z :=
  (if decide (b = rm_SourceBranch m) then rm_Size m else 0) - (if decide (b = rm_TargetBranch m) then rm_Size m else 0).
Definition usage_after (u : DiskUsage) (moves : list RebalanceMove) (b : string) : DiskUsage :=
  mkUsage (du_TotalBytes u) (du_FreeBytes u + zsum (λ m, freed m b) moves).
Definition sources (moves : list RebalanceMove) : list (string * string) := map (λ m, (rm_SourceBranch m, rm_RelPath m)) moves.

(** A move that is due after the moves before it: from a fuller disk to an emptier
    one, further apart than the tolerance, of a file no earlier move took, keeping
    the share's headroom and not turning the order of the two disks around. *)
Definition due (s : Share) (tolerance : spec_float) (u : string → DiskUsage) (before : list RebalanceMove) (m : RebalanceMove) : Prop :=
  let now b := usage_after (u b) before b in
  let next b := usage_after (u b) (before ++ [m]) b in
  let (src, dst) := (rm_SourceBranch m, rm_TargetBranch m) in
  rm_Share m = sh_Name s ∧ src ∈ sh_Branches s ∧ dst ∈ sh_Branches s ∧ src ≠ dst ∧
  (src, rm_RelPath m) ∉ sources before ∧
  SFleb (SFsub 53 1024 (UsedPercent (now src)) (UsedPercent (now dst))) tolerance = false ∧
  sh_MinFreeSpace s ≤ du_FreeBytes (next dst) ∧
  b64_gt (UsedPercent (next dst)) (UsedPercent (next src)) = false.
Definition all_due s tolerance u (moves : list RebalanceMove) : Prop :=
  ∀ before m after, moves = before ++ m :: after → due s tolerance u before m.

Lemma all_due_snoc s tol u moves m : all_due s tol u moves → due s tol u moves m → all_due s tol u (moves ++ [m]).
Proof.
  intros Hall Hm before m' after Heq. destruct after as [|x after' _] using rev_ind.
  - by apply app_inj_tail in Heq as [-> ->].
  - rewrite app_comm_cons, (app_assoc before) in Heq. apply app_inj_tail in Heq as [-> _]. by eapply Hall.
Qed.
Lemma zsum_snoc {A} (f : A → Z) l x : zsum f (l ++ [x]) = zsum f l + f x.
Proof. induction l as [|y l IH]; cbn [app]; rewrite !zsum_cons, ?IH; [unfold zsum; cbn; lia|lia]. Qed.

Lemma pick_from_some most least minFree files : ∀ i k, pick_from i files most least minFree = Some k →
  ∃ j f, k = (i + j)%nat ∧ files !! j = Some f ∧ ca_size f ≤ wrap64 (du_FreeBytes least - minFree) ∧
    b64_gt (UsedPercent (add_free (- ca_size f) least)) (UsedPercent (add_free (ca_size f) most)) = false.
Proof.
  induction files as [|f files IH]; intros i k; cbn [pick_from]; [done|].
  destruct (Z.ltb_spec (wrap64 (du_FreeBytes least - minFree)) (ca_size f)).
  { intros (j&f'&->&H')%IH. exists (S j), f'. split; [lia|done]. }
  destruct (b64_gt _ _) eqn:Hgt.
  { intros (j&f'&->&H')%IH. exists (S j), f'. split; [lia|done]. }
  intros [= <-]. exists 0%nat, f. split; [lia|done].
Qed.
Lemma UsedPercent_finite u : in_int64 (du_TotalBytes u) → finite_below 900 (UsedPercent u).
Proof.
  intros Hu. unfold UsedPercent. destruct (Z.leb_spec (du_TotalBytes u) 0); [done|].
  unfold in_int64, max_int64 in Hu. apply percentage_finite; [|lia].
  unfold wrap64. pose proof (Z.mod_pos_bound (du_TotalBytes u - du_FreeBytes u + 2 ^ 63) (2 ^ 64) ltac:(lia)). lia.
Qed.

(** ** The loop *)
Section loop.
Context (env : environment sys os_answer) (s : Share) (tol : spec_float).
Context (u : string → DiskUsage) (files : string → list rebalanceCandidate).
Abbreviation Br := (sh_Branches s).
Context (Hbr : NoDup Br) (Htol : SFleb (S754_zero false) tol = true) (Hmin : 0 ≤ sh_MinFreeSpace s ≤ max_int64).
Context (Hu : ∀ b, b ∈ Br → in_int64 (du_TotalBytes (u b))) (Hsum : zsum (λ b, du_FreeBytes (u b)) Br ≤ max_int64).
Context (Hsize : ∀ b f, f ∈ files b → 0 ≤ ca_size f).

Definition states_of (left : string → list rebalanceCandidate) (moves : list RebalanceMove) : list branchState :=
  map (λ b, mkBranch b (usage_after (u b) moves b) (left b)) Br.
(** What the loop keeps: the files left on each branch, and the space. *)
Record kept (left : string → list rebalanceCandidate) (moves : list RebalanceMove) : Prop := {
  kept_files b f : f ∈ left b → f ∈ files b;
  kept_once b : NoDup (map ca_rel (left b));
  kept_new b f : f ∈ left b → (b, ca_rel f) ∉ sources moves;
  kept_taken m : m ∈ moves → mkCandidate (rm_RelPath m) (rm_Size m) ∈ files (rm_SourceBranch m);
  kept_free b : b ∈ Br → 0 ≤ du_FreeBytes (usage_after (u b) moves b);
  kept_sum : zsum (λ b, du_FreeBytes (usage_after (u b) moves b)) Br = zsum (λ b, du_FreeBytes (u b)) Br
}.

Lemma states_of_lookup left moves i st : states_of left moves !! i = Some st →
  ∃ b, Br !! i = Some b ∧ st = mkBranch b (usage_after (u b) moves b) (left b).
Proof. unfold states_of. rewrite list_lookup_fmap. intros (b&->&Hb)%fmap_Some. eauto. Qed.
Lemma files_left left moves :
  Z.of_nat (length (concat (map bs_files (states_of left moves)))) = zsum (λ b, Z.of_nat (length (left b))) Br.
Proof.
  unfold states_of. generalize (sh_Branches s) as bs. intros bs. induction bs as [|b bs IH]; [done|]. cbn [map concat]. rewrite length_app, zsum_cons, Nat2Z.inj_add, IH. done.
Qed.
Lemma usage_after_snoc moves m b :
  usage_after (u b) (moves ++ [m]) b = mkUsage (du_TotalBytes (u b)) (du_FreeBytes (usage_after (u b) moves b) + freed m b).
Proof. unfold usage_after. rewrite zsum_snoc. cbn. f_equal. lia. Qed.

(** One file moves from one branch to another that can hold it. *)
Lemma move_on left moves i j src dst idx f :
  kept left moves → Br !! i = Some src → Br !! j = Some dst → src ≠ dst → left src !! idx = Some f →
  ca_size f ≤ wrap64 (du_FreeBytes (usage_after (u dst) moves dst) - sh_MinFreeSpace s) →
  let m := mkMove (sh_Name s) (ca_rel f) src dst (ca_size f) in
  let left' := λ b, if decide (b = src) then delete idx (left b) else left b in
  kept left' (moves ++ [m]) ∧
  sh_MinFreeSpace s ≤ du_FreeBytes (usage_after (u dst) (moves ++ [m]) dst) ∧
  add_free (ca_size f) (usage_after (u src) moves src) = usage_after (u src) (moves ++ [m]) src ∧
  add_free (- ca_size f) (usage_after (u dst) moves dst) = usage_after (u dst) (moves ++ [m]) dst ∧
  (∀ b, b ≠ src → b ≠ dst → usage_after (u b) moves b = usage_after (u b) (moves ++ [m]) b).
Proof using Hsum Hsize Hmin Hbr.
  intros [Hf Ho Hn Ht Hfree Hs] Hi Hj Hne Hidx Hfit m left'.
  assert (src ∈ Br ∧ dst ∈ Br) as [Hsrc Hdst] by (split; by eapply list_elem_of_lookup_2).
  pose proof (Hsize src f ltac:(by eapply Hf, list_elem_of_lookup_2)) as Hpos.
  pose proof (Hfree src Hsrc) as H1. pose proof (Hfree dst Hdst) as H2.
  pose proof (zsum_two _ Br src dst Hfree Hsrc Hdst Hne) as Htwo. rewrite Hs in Htwo.
  unfold max_int64 in *. rewrite wrap64_small in Hfit by (unfold in_int64, min_int64, max_int64; lia).
  assert (∀ b, freed m b = (if decide (b = src) then ca_size f else 0) - (if decide (b = dst) then ca_size f else 0)) as Hm by done.
  assert (freed m src = ca_size f ∧ freed m dst = - ca_size f) as [Hms Hmd].
  { rewrite !Hm. destruct (decide (src = src)), (decide (src = dst)), (decide (dst = src)), (decide (dst = dst)); try congruence; lia. }
  pose proof (delete_Permutation _ _ _ Hidx) as Hperm.
  assert (NoDup (ca_rel f :: map ca_rel (delete idx (left src)))) as [Hnf Hnd]%NoDup_cons.
  { change (NoDup (map ca_rel (f :: delete idx (left src)))). rewrite <-Hperm. apply Ho. }
  assert (∀ b f', f' ∈ left' b → f' ∈ left b ∧ (b = src → ca_rel f' ≠ ca_rel f)) as Hleft.
  { intros b f'. unfold left'. destruct (decide (b = src)) as [->|]; [|done]. intros Hin. split.
    - rewrite Hperm. by right.
    - intros _ Heq. apply Hnf. rewrite <-Heq. by apply list_elem_of_fmap_2. }
  split_and!.
  - split.
    + intros b f' [H _]%Hleft. by apply Hf.
    + intros b. unfold left'. destruct (decide (b = src)) as [->|]; [done|apply Ho].
    + intros b f' [H Hx]%Hleft. unfold sources. rewrite map_app, elem_of_app. intros [Hin|Hin%list_elem_of_singleton].
      * by apply (Hn b f' H).
      * injection Hin as -> Heq. by apply Hx.
    + intros m' [Hin| ->%list_elem_of_singleton]%elem_of_app; [by apply Ht|]. cbn. apply Hf. destruct f. by eapply list_elem_of_lookup_2.
    + intros b Hb. rewrite usage_after_snoc. cbn [du_FreeBytes]. destruct (decide (b = dst)) as [->|]; [rewrite Hmd; lia|].
      specialize (Hfree b Hb). rewrite Hm. destruct (decide (b = src)), (decide (b = dst)); try done; lia.
    + rewrite <-Hs. transitivity (zsum (λ b, (du_FreeBytes (usage_after (u b) moves b) + (if decide (b = src) then ca_size f else 0))
                                      + if decide (b = dst) then - ca_size f else 0) Br).
      * apply zsum_ext. intros b _. rewrite usage_after_snoc. cbn [du_FreeBytes]. rewrite Hm. destruct (decide (b = dst)); lia.
      * rewrite zsum_bump, zsum_bump by done. lia.
  - rewrite usage_after_snoc. cbn [du_FreeBytes]. rewrite Hmd. lia.
  - rewrite usage_after_snoc, Hms. unfold add_free. f_equal. apply wrap64_small. unfold in_int64, min_int64, max_int64. lia.
  - rewrite usage_after_snoc, Hmd. unfold add_free. f_equal. apply wrap64_small. unfold in_int64, min_int64, max_int64. lia.
  - intros b Hb1 Hb2. rewrite usage_after_snoc, Hm, !decide_False by done. unfold usage_after. f_equal. cbn. lia.
Qed.

Lemma warn_spread_cwp target rel warned tr : cwp only_looks (warn_spread env s target rel warned) tr (λ r _, ∃ x, r = Ok x).
Proof.
  unfold warn_spread. destruct (sh_PathPreserving s); [|apply cwp_ret; eauto].
  case_bool_decide; [apply cwp_ret; eauto|]. apply cwp_bind, cwp_sys; [done|]. intros a. apply cwp_ret. eauto.
Qed.

Lemma plan_moves_cwp fuel : ∀ left moves warnings warned tr, kept left moves → all_due s tol u moves →
  (length (concat (map bs_files (states_of left moves))) < fuel)%nat →
  cwp only_looks (plan_moves env fuel s tol (states_of left moves) moves warnings warned) tr (λ r _,
    ∀ x, r = Ok x → ∃ moves' ws, x = Some (moves', ws) ∧ all_due s tol u moves' ∧
      ∀ m, m ∈ moves' → mkCandidate (rm_RelPath m) (rm_Size m) ∈ files (rm_SourceBranch m)).
Proof using Hu Htol Hsum Hsize Hmin Hbr.
  induction fuel as [|fuel IH]; intros left moves warnings warned tr Hk Hd Hfuel; [lia|]. cbn [plan_moves].
  apply cwp_bind. eapply cwp_mono; [apply check_ctx_cwp|]. intros [_|e] m1 _; [|done].
  assert (∃ moves' ws, Some (moves, warnings) = Some (moves', ws) ∧ all_due s tol u moves' ∧
    ∀ m, m ∈ moves' → mkCandidate (rm_RelPath m) (rm_Size m) ∈ files (rm_SourceBranch m)) as Hend.
  { exists moves, warnings. split_and!; [done|done|apply Hk]. }
  set (i := extreme b64_gt _). set (j := extreme SFltb _).
  destruct (states_of left moves !! i) as [most|] eqn:Hi; [|by apply cwp_throw].
  destruct (states_of left moves !! j) as [least|] eqn:Hj; [|by apply cwp_throw].
  apply states_of_lookup in Hi as (src&Hi&->), Hj as (dst&Hj&->). cbn [bs_usage bs_files bs_branch].
  destruct (SFleb (SFsub _ _ _ _) tol) eqn:Hgap; [by apply cwp_ret; intros ? [= <-]|].
  unfold pickMovableFile. cbn [bs_usage bs_files]. destruct (pick_from _ _ _ _ _) as [idx|] eqn:Hpick; [|by apply cwp_ret; intros ? [= <-]].
  apply pick_from_some in Hpick as (idx'&f&->&Hidx&Hfit&Hturn). rewrite Nat.add_0_l, Hidx.
  assert (src ≠ dst) as Hne.
  { intros <-. rewrite (sub_self 900) in Hgap; [congruence|]. apply UsedPercent_finite, Hu. by eapply list_elem_of_lookup_2. }
  destruct (move_on left moves i j src dst idx' f Hk Hi Hj Hne Hidx Hfit) as (Hk'&Hroom&Hsrc&Hdst&Hrest).
  set (m := mkMove _ _ _ _ _) in *. set (left' := λ b, if decide (b = src) then _ else _) in *.
  apply cwp_bind. eapply cwp_mono; [apply warn_spread_cwp|]. intros r m2 [w ->].
  assert (alter (λ st, mkBranch (bs_branch st) (add_free (- ca_size f) (bs_usage st)) (bs_files st)) j
    (alter (λ st, mkBranch (bs_branch st) (add_free (ca_size f) (bs_usage st)) (delete idx' (bs_files st))) i (states_of left moves))
    = states_of left' (moves ++ [m])) as ->.
  { unfold states_of. rewrite (alter_map _ i _ Br src), (alter_map _ j _ Br dst) by done. apply map_ext_in. intros b _. unfold left'.
    destruct (decide (b = dst)) as [->|].
    - rewrite !decide_False by done. cbn. by rewrite Hdst.
    - destruct (decide (b = src)) as [->|]; cbn; [by rewrite Hsrc|]. by rewrite <-Hrest. }
  eapply cwp_mono; [apply IH; [done| |]|].
  - apply all_due_snoc; [done|]. unfold due. cbn [rm_SourceBranch rm_TargetBranch rm_Share rm_RelPath m]. fold m.
    rewrite Hsrc, Hdst in Hturn.
    split_and!; try done; [by eapply list_elem_of_lookup_2..|]. eapply kept_new; [exact Hk|by eapply list_elem_of_lookup_2].
  - apply Nat2Z.inj_lt. rewrite files_left. apply Nat2Z.inj_lt in Hfuel. rewrite files_left in Hfuel.
    enough (zsum (λ b, Z.of_nat (length (left' b))) Br = zsum (λ b, Z.of_nat (length (left b))) Br + -1) by lia.
    rewrite <-(zsum_bump _ Br src) by (done || by eapply list_elem_of_lookup_2). apply zsum_ext. intros b _. unfold left'.
    destruct (decide (b = src)) as [->|]; [|lia]. rewrite length_delete by eauto. apply lookup_lt_Some in Hidx. lia.
  - intros r m3 H x Hx. by apply H.
Qed.
End loop.

(** A conclusion that needs what earlier calls answered. *)
Lemma cwp_given {X} (G : trace → sys → Prop) (P : Prop) (m : M X) tr Q :
  cwp G m tr (λ _ _, True) → (P → cwp G m tr Q) → cwp G m tr (λ r made, P → Q r made).
Proof.
  intros (made&Hs&Hg&_) H. exists made. split_and!; [done..|]. intros HP. destruct (H HP) as (made'&Hs'&_&HQ).
  rewrite Hs in Hs'. by apply app_inv_head in Hs' as <-.
Qed.

(** ** The planning ends *)
Section ends.
Context (env : environment sys os_answer) (s : Share) (tol : spec_float).

Abbreviation files_of states := (length (concat (map bs_files states))).
Lemma files_alter F i states st : states !! i = Some st →
  (files_of (alter F i states) + length (bs_files st) = files_of states + length (bs_files (F st)))%nat.
Proof.
  revert i. induction states as [|x states IH]; intros [|i] Hi; [done..| |].
  - injection Hi as ->. cbn. rewrite !length_app. lia.
  - specialize (IH i Hi). cbn in *. rewrite !length_app. lia.
Qed.
Lemma plan_moves_ends fuel : ∀ states moves warnings warned tr, (files_of states < fuel)%nat →
  cwp only_looks (plan_moves env fuel s tol states moves warnings warned) tr (λ r _, r ≠ Ok None).
Proof.
  induction fuel as [|fuel IH]; intros states moves warnings warned tr Hfuel; [lia|]. cbn [plan_moves].
  apply cwp_bind. eapply cwp_mono; [apply check_ctx_cwp|]. intros [_|e] m1 _; [|done].
  destruct (states !! extreme b64_gt states) as [most|] eqn:Hi; [|by apply cwp_throw].
  destruct (states !! extreme SFltb states) as [least|] eqn:Hj; [|by apply cwp_throw].
  destruct (SFleb (SFsub _ _ _ _) tol); [by apply cwp_ret|].
  destruct (pickMovableFile _ _ _) as [idx|]; [|by apply cwp_ret].
  destruct (bs_files most !! idx) as [f|] eqn:Hf; [|by apply cwp_throw].
  apply cwp_bind. eapply cwp_mono; [apply warn_spread_cwp|]. intros r m2 [w ->].
  eapply cwp_mono; [apply IH|done]. set (F := λ st, mkBranch _ _ (delete idx _)). set (G := λ st, mkBranch _ _ (bs_files st)).
  pose proof (files_alter F _ states most Hi) as H1. unfold F in H1 at 2. cbn [bs_files] in H1.
  rewrite length_delete in H1 by eauto. apply lookup_lt_Some in Hf.
  assert (is_Some (alter F (extreme b64_gt states) states !! extreme SFltb states)) as [st Hst].
  { apply lookup_lt_is_Some. rewrite length_alter. by eapply lookup_lt_Some. }
  pose proof (files_alter G _ _ st Hst) as H2. unfold G in H2 at 2. cbn [bs_files] in H2. lia.
Qed.
End ends.

(** ** The plan of a share, and of all *)

(** What the calls may be assumed to answer: sizes and free space are [int64] and
    not negative, a disk's size is an [int64], and no walk visits a path twice. *)
Definition sane (tr : trace) : Prop :=
  (∀ b a, (SUsage b, a) ∈ tr → in_int64 (os_int a) ∧ 0 ≤ os_free a ≤ max_int64) ∧
  (∀ p a, (SLstat p, a) ∈ tr → 0 ≤ fi_Size (os_info a)) ∧ visits_once tr.
Lemma sane_mono tr tr' : tr ⊆ tr' → sane tr' → sane tr.
Proof. intros Hsub (H1&H2&H3). split_and!; [eauto..|by eapply visits_once_mono]. Qed.

(** The moves planned for a share: files that were seen, and each move due after
    the ones before it. *)
Definition planned (made : trace) (configured : spec_float) (s : Share) (moves : list RebalanceMove) : Prop :=
  ∃ u : string → DiskUsage, (∀ b, b ∈ sh_Branches s → usage_asked made b (u b)) ∧
    (zsum (λ b, du_FreeBytes (u b)) (sh_Branches s) ≤ max_int64 →
     all_due s (skewTolerancePercent configured) u moves ∧
     ∀ m, m ∈ moves → file_seen made (rm_SourceBranch m) (mkCandidate (rm_RelPath m) (rm_Size m))).
Lemma planned_mono made made' configured s moves : made ⊆ made' → planned made configured s moves → planned made' configured s moves.
Proof.
  intros Hsub (u&Hu&H). exists u. split; [intros b Hb; by eapply usage_asked_mono, Hu|]. intros Hz.
  destruct (H Hz) as [Hd Hf]. split; [done|]. intros m Hm. by eapply file_seen_mono, Hf.
Qed.
Definition well_formed (s : Share) : Prop := NoDup (sh_Branches s) ∧ 0 ≤ sh_MinFreeSpace s ≤ max_int64.

Lemma tolerance_positive configured : SFleb (S754_zero false) (skewTolerancePercent configured) = true.
Proof.
  unfold skewTolerancePercent, b64_gt. destruct (SFltb _ _) eqn:H; [|done]. unfold SFltb, SFleb in *.
  change (b64 0) with (S754_zero false) in H. by destruct (SFcompare (S754_zero false) configured) as [[]|].
Qed.

Lemma Forall2_as_map {A B} `{EqDecision A} (R : A → B → Prop) l k (d : B) : NoDup l → Forall2 R l k →
  ∃ g, k = map g l ∧ ∀ a, a ∈ l → R a (g a).
Proof.
  intros Hl. revert k. induction Hl as [|a l Ha Hl IH]; intros k Hk.
  { apply Forall2_nil_inv_l in Hk as ->. exists (λ _, d). split; [done|set_solver]. }
  apply Forall2_cons_inv_l in Hk as (b&k'&Hab&Hk&->). destruct (IH k' Hk) as (g&->&Hg).
  exists (λ x, if decide (x = a) then b else g x). split.
  - cbn. rewrite decide_True by done. f_equal. apply map_ext_in. intros x Hx%list_elem_of_In. rewrite decide_False; [done|]. by intros ->.
  - intros x [->|Hx]%elem_of_cons; [by rewrite decide_True|]. rewrite decide_False; [by apply Hg|]. by intros ->.
Qed.

Section shares.
Context (env : environment sys os_answer) (sortSlice : list rebalanceCandidate → list rebalanceCandidate).
Context (Hsort : ∀ l, sortSlice l ≡ₚ l) (configured : spec_float).

(** What was read starts the loop. *)
Lemma kept_start s states m1 : well_formed s → sane m1 → Forall2 (branch_read m1) (sh_Branches s) states →
  ∃ u files, states = states_of s u files [] ∧ kept s u files files [] ∧
    (∀ b, b ∈ sh_Branches s → usage_asked m1 b (u b)) ∧
    (∀ b f, f ∈ files b → 0 ≤ ca_size f) ∧ (∀ b, b ∈ sh_Branches s → in_int64 (du_TotalBytes (u b))) ∧
    (∀ b f, f ∈ files b → file_seen m1 b f).
Proof.
  intros [Hnd _] (Hus&Hls&Hvs) Hall. destruct (Forall2_as_map _ _ _ (mkBranch "" (mkUsage 0 0) []) Hnd Hall) as (g&->&Hg).
  set (files := λ b, if decide (b ∈ sh_Branches s) then bs_files (g b) else []).
  assert (∀ b f, f ∈ files b → file_seen m1 b f) as Hseen.
  { intros b f. unfold files. destruct (decide _) as [Hb|]; [|set_solver]. apply (Hg b Hb). }
  assert (∀ b, b ∈ sh_Branches s → usage_after (bs_usage (g b)) [] b = bs_usage (g b)) as Hu0.
  { intros b _. unfold usage_after. destruct (bs_usage (g b)). unfold zsum. cbn. f_equal. lia. }
  exists (λ b, bs_usage (g b)), files. split_and!.
  - unfold states_of. apply map_ext_in. intros b Hb%list_elem_of_In. rewrite Hu0 by done. unfold files. rewrite decide_True by done.
    destruct (Hg b Hb) as [Heq _]. destruct (g b); cbn in *. by subst.
  - split.
    + done.
    + intros b. unfold files. destruct (decide _) as [Hb|]; [|constructor]. destruct (Hg b Hb) as (_&_&_&H). by apply H.
    + intros b f _. set_solver.
    + set_solver.
    + intros b Hb. rewrite Hu0 by done. destruct (Hg b Hb) as (_&(a&Ha&_&->)&_). by destruct (Hus b a Ha) as [_ []].
    + apply zsum_ext. intros b Hb. by rewrite Hu0.
  - intros b Hb. apply (Hg b Hb).
  - intros b f Hf. destruct (Hseen b f Hf) as [(a&Ha&_&->) _]. by eapply Hls.
  - intros b Hb. destruct (Hg b Hb) as (_&(a&Ha&_&->)&_). by destruct (Hus b a Ha).
  - done.
Qed.

Lemma planShareRebalance_cwp s tr : well_formed s →
  cwp only_looks (planShareRebalance env sortSlice s configured) tr (λ r made,
    r ≠ Ok None ∧ ∀ moves ws, r = Ok (Some (moves, ws)) → sane made → planned made configured s moves).
Proof using Hsort.
  intros Hwf. unfold planShareRebalance. apply cwp_bind. eapply cwp_mono; [by apply branch_states_cwp|].
  intros [states|e] m1 Hstates; [|done]. specialize (Hstates states eq_refl).
  set (fuel := S _). set (tol := skewTolerancePercent configured). set (tr1 := tr ++ m1).
  pose proof (plan_moves_ends env s tol fuel states [] [] [] tr1 ltac:(lia)) as Hends.
  assert (cwp only_looks (plan_moves env fuel s tol states [] [] []) tr1 (λ _ _, True)) as Hany by (eapply cwp_mono; [exact Hends|done]).
  eapply cwp_mono; [apply cwp_conj; [exact Hends|apply (cwp_given _ (sane m1)); [exact Hany|]]|].
  - intros Hs. destruct (kept_start s states m1 Hwf Hs Hstates) as (u&files&->&Hk&Hu&Hsize&Htot&Hseen).
    eapply cwp_mono; [apply (cwp_given _ (zsum (λ b, du_FreeBytes (u b)) (sh_Branches s) ≤ max_int64)); [exact Hany|]|].
    + intros Hz. destruct Hwf as [Hnd Hmin]. eapply plan_moves_cwp; [exact Hnd|apply tolerance_positive|exact Hmin|exact Htot|exact Hz|exact Hsize|exact Hk| |unfold fuel; lia].
      intros [|] m after; done.
    + intros r m2 H. instantiate (1 := λ r _, ∀ moves ws, r = Ok (Some (moves, ws)) → planned m1 configured s moves).
      intros moves ws Hr. exists u. split; [done|]. intros Hz. destruct (H Hz _ Hr) as (moves'&ws'&[= <- <-]&Hd&Hf).
      split; [done|]. intros m Hm. by apply Hseen, Hf.
  - intros r m2 [H1 H2]. split; [done|]. intros moves ws Hr Hs.
    eapply planned_mono; [|eapply H2; [eapply sane_mono, Hs|exact Hr]]; set_solver.
Qed.

Lemma PlanRebalance_cwp shares : Forall well_formed shares → ∀ tr,
  cwp only_looks (PlanRebalance env sortSlice shares configured) tr (λ r made,
    r ≠ Ok None ∧ ∀ plan, r = Ok (Some plan) → sane made →
      ∃ per, rp_Moves plan = concat per ∧ Forall2 (planned made configured) (filter (λ s, 2 ≤ length (sh_Branches s))%nat shares) per).
Proof using Hsort.
  induction shares as [|s shares IH]; intros Hwf tr; cbn [PlanRebalance].
  { apply cwp_ret. split; [done|]. intros plan [= <-] _. by exists []. }
  apply Forall_cons in Hwf as [Hs Hwf]. specialize (IH Hwf).
  apply cwp_bind. eapply cwp_mono; [apply check_ctx_cwp|]. intros [_|e] m1 _; [|done]. rewrite filter_cons.
  destruct (Nat.ltb_spec (length (sh_Branches s)) 2).
  { rewrite decide_False by lia. eapply cwp_mono; [apply IH|]. intros r m2 [H1 H2]. split; [done|]. intros plan Hr Hsane.
    destruct (H2 plan Hr) as (per&Hper&Hall); [eapply sane_mono, Hsane; set_solver|]. exists per. split; [done|].
    eapply Forall2_impl; [exact Hall|]. intros s' moves. apply planned_mono. set_solver. }
  rewrite decide_True by lia. apply cwp_bind, cwp_wrapping. eapply cwp_mono; [by apply planShareRebalance_cwp|].
  intros [r|e] m2 [H1 H2]; [|done]. destruct r as [[moves ws]|]; [|done].
  apply cwp_bind. eapply cwp_mono; [apply IH|]. intros [plan|e] m3 [H3 H4]; [|done]. destruct plan as [plan|]; [|done].
  apply cwp_ret. split; [done|]. intros ? [= <-] Hsane. rewrite app_nil_r in *.
  destruct (H4 plan eq_refl) as (per&Hper&Hall); [eapply sane_mono, Hsane; set_solver|].
  exists (moves :: per). cbn [rp_Moves concat]. split; [by rewrite Hper|]. constructor.
  - eapply planned_mono; [|eapply H2; [done|eapply sane_mono, Hsane]]; set_solver.
  - eapply Forall2_impl; [exact Hall|]. intros s' moves'. apply planned_mono. set_solver.
Qed.
End shares.


(** Planned moves meet what a run asks of its plan, when every visited path ends in
    a name. *)
Lemma planned_is_movable made root share f : file_seen made root f →
  (∃ above b, split slash (ca_rel f) = above ++ [b] ∧ proper_name b) → Contains (Base (Join share (ca_rel f))) tempSuffix = false.
Proof.
  intros [_ (w&v&_&_&Hv&_&Hc)] (above&b&Hs&Hb). rewrite Hv in Hc.
  rewrite (Base_Join root _ _ _ Hs Hb) in Hc. by rewrite (Base_Join share _ _ _ Hs Hb).
Qed.

(** Two disks, one full, and a share on both. *)
Module DemoPlan.
Definition file (size : Z) : FileInfo := mkFileInfo Regular 420 size 7 7 1 100 1 1000 1000 0 8.
Definition env (free : string → Z) (listed : string → list (string * Z)) : environment sys os_answer := λ _ e,
  match e with
  | SUsage b => mkOsAnswer None 0 (file 0) "" [] 1000 false [] [] (free (Dir b)) (b64 0)
  | SVisit root => mkOsAnswer None 0 (file 0) "" [] 0 false [] (map (λ p, mkVisit p.1 (Some Regular) None) (listed root)) 0 (b64 0)
  | SLstat path => answered None 0 (file (from_option snd 0 (list_find (λ p, Join (Dir path) p.1 = path) (listed (Dir path)) ≫= λ q, Some q.2))) "" [] 0 false []
  | _ => answered None 0 (file 0) "" [] 0 false []
  end.
Definition larger (a b : rebalanceCandidate) : Prop := ca_size b ≤ ca_size a.
#[export] Instance larger_dec : RelDecision larger.
Proof. intros a b. unfold larger. apply _. Defined.
Definition sort : list rebalanceCandidate → list rebalanceCandidate := merge_sort larger.
Definition media : Share := mkShare "media" "/cache/media" "/array/media" ["/d1/media"; "/d2/media"] 200 [] true.
Definition docs : Share := mkShare "docs" "/cache/docs" "/array/docs" ["/d1/docs"; "/d2/docs"] 200 [] false.
Definition free (d : string) : Z := if bool_decide (d = "/d1") then 0 else 500.
Definition listed (root : string) : list (string * Z) :=
  if bool_decide (root = "/d1/media") then [("a", 250); ("b", 30)] else if bool_decide (root = "/d1/docs") then [("c", 250)] else [].
Definition moves (shares : list Share) : option (list (string * string * Z)) :=
  match (PlanRebalance (env free listed) sort shares (b64 0) []).1 with
  | Ok (Some plan) => Some (map (λ m, (Join (rm_SourceBranch m) (rm_RelPath m), rm_TargetBranch m, rm_Size m)) (rp_Moves plan))
  | _ => None
  end.
End DemoPlan.
Example one_share_planned : DemoPlan.moves [DemoPlan.media] = Some [("/d1/media/a", "/d2/media", 250)].
Proof. vm_compute. reflexivity. Qed.
(** Each share's moves are charged against what was free before any: together two
    shares fill a disk neither may fill, here to the last byte of 500 although
    both keep 200. *)
Example two_shares_overcommit :
  DemoPlan.moves [DemoPlan.media; DemoPlan.docs] = Some [("/d1/media/a", "/d2/media", 250); ("/d1/docs/c", "/d2/docs", 250)].
Proof. vm_compute. reflexivity. Qed.

(** Whether answers are sane can be computed. *)
Definition sane_call (p : sys * os_answer) : bool :=
  match p.1 with
  | SUsage _ => (min_int64 <=? os_int p.2) && (os_int p.2 <=? max_int64) && (0 <=? os_free p.2) && (os_free p.2 <=? max_int64)
  | SLstat _ => 0 <=? fi_Size (os_info p.2)
  | SVisit _ => bool_decide (NoDup (map vi_rel (os_visits p.2)))
  | _ => true
  end.
Lemma sane_computed tr : forallb sane_call tr = true → sane tr.
Proof.
  rewrite forallb_forall. intros H. split_and!.
  - intros b a Hin%list_elem_of_In. specialize (H _ Hin). cbn in H. unfold in_int64. rewrite !andb_true_iff, !Z.leb_le in H. lia.
  - intros p a Hin%list_elem_of_In. specialize (H _ Hin). cbn in H. lia.
  - intros root w Hin%list_elem_of_In. specialize (H _ Hin). cbn in H. by apply bool_decide_eq_true in H.
Qed.
Lemma demo_well_formed : Forall well_formed [DemoPlan.media].
Proof.
  constructor; [|done]. split; [|vm_compute; split; congruence]. apply (bool_decide_unpack _). vm_compute. exact I.
Qed.

