(* ===== verification/Evacuate.v ===== *)
(** * Evacuating a disk

    [internal/cache/evacuate.go]: the plan that moves every file of a disk onto the
    other branches of its share, and the check that nothing is left on it. The
    figures of free space are shared between the shares, by disk: a map that is
    handed on. *)
From S2P Require Import Guard.
From S2P Require Export PlanMoves.
Open Scope string_scope.
Open Scope list_scope.
Open Scope Z_scope.

Definition ErrEvacuationNoOtherBranch : err := EOther "cache: share has no other branch to evacuate onto".
Definition ErrEvacuationWontFit : err := EOther "cache: remaining disks do not have room to evacuate this disk".
Definition ErrEvacuationUnsupportedEntry : err := EOther "cache: evacuated disk holds an entry evacuation cannot move".
Definition ErrEvacuationNonShareContent : err := EOther "cache: disk holds content outside every configured share".
Definition ErrEvacuationNotEmpty : err := EOther "cache: evacuated disk still has content besides empty directories".
Definition evacuationContentPrefix : string := "snapraid.content".

(** The branches the shares have on a disk. *)
Definition branches_on (disk : string) (shares : list Share) : list string :=
  filter (λ b, Dir b = disk) (concat (map sh_Branches shares)).
(** A share's branch on the disk, the last one if there are several, and the others. *)
Definition source_branch (disk : string) (s : Share) : string := List.last (filter (λ b, Dir b = disk) (sh_Branches s)) "".
Definition other_branches (disk : string) (s : Share) : list string := filter (λ b, Dir b ≠ disk) (sh_Branches s).

(** The first entry below [root] that cannot be moved. *)
Fixpoint unsupported (root : string) (visits : list visit) : option err :=
  match visits with
  | [] => None
  | v :: rest =>
      match vi_err v with
      | Some e => Some e
      | None =>
          if bool_decide (vi_kind v = Some Directory) then unsupported root rest
          else if bool_decide (vi_kind v = Some Socket) || Contains (Base (Join root (vi_rel v))) tempSuffix
          then Some (EWrap "" ErrEvacuationUnsupportedEntry (": " +:+ Join root (vi_rel v)))
          else unsupported root rest
      end
  end.

(** The usage of a target's disk, and the target with the most free space of those
    that can hold [size]. *)
Definition usage_at (usages : gmap string DiskUsage) (b : string) : DiskUsage := from_option id (mkUsage 0 0) (usages !! Dir b).
Fixpoint pick_target (usages : gmap string DiskUsage) (targets : list string) (size minFreeSpace : Z) (best : option string) : option string :=
  match targets with
  | [] => best
  | b :: rest =>
      if wrap64 (du_FreeBytes (usage_at usages b) - minFreeSpace) <? size then pick_target usages rest size minFreeSpace best
      else
        pick_target usages rest size minFreeSpace
          match best with
          | None => Some b
          | Some b' => if du_FreeBytes (usage_at usages b') <? du_FreeBytes (usage_at usages b) then Some b else best
          end
  end.
Definition pickEvacuationTarget (usages : gmap string DiskUsage) (targets : list string) (size minFreeSpace : Z) : option string :=
  pick_target usages targets size minFreeSpace None.

(** What the walk of the whole disk finds outside the shares' branches. A directory
    that is such a branch is skipped; [SkipDir] of what is no directory skips the
    rest of the directory it is in. *)
Definition lies_below (dir path : string) : bool :=
  bool_decide (path = dir) || bool_decide (dir = "/") || String.prefix (dir +:+ "/") path.
Fixpoint leftover (root : string) (branches : list string) (visits : list visit) (skipped : list string) : option err :=
  match visits with
  | [] => None
  | v :: rest =>
      let path := Join root (vi_rel v) in
      if existsb (λ d, lies_below d path) skipped then leftover root branches rest skipped
      else
        match vi_err v with
        | Some e => Some e
        | None =>
            if bool_decide (path = root) then leftover root branches rest skipped
            else if bool_decide (Clean path ∈ branches) then
              leftover root branches rest ((if bool_decide (vi_kind v = Some Directory) then path else Dir path) :: skipped)
            else if bool_decide (vi_kind v = Some Directory) then leftover root branches rest skipped
            else if bool_decide (Dir path = root) && String.prefix evacuationContentPrefix (Base path)
            then leftover root branches rest skipped
            else Some (EOther (path +:+ " is outside every configured share"))
        end
  end.
(** What the walk of one branch finds besides directories. *)
Fixpoint entry_left (root : string) (visits : list visit) : option err :=
  match visits with
  | [] => None
  | v :: rest =>
      match vi_err v with
      | Some e => Some e
      | None =>
          if bool_decide (vi_kind v = Some Directory) then entry_left root rest
          else Some (EOther (Join root (vi_rel v) +:+ " is not an empty directory"))
      end
  end.

Section evacuate.
Context (env : environment sys os_answer).
Context (sortSlice : list rebalanceCandidate → list rebalanceCandidate).
Abbreviation sysc := (sys_call env).
Abbreviation must := (must env).

(** ** Content outside the shares *)
Definition dirHoldsNonDirEntry (root : string) : M bool := w ← sysc (SVisit root); of_res (holds_entry (os_visits w)).

Fixpoint non_share_entries (disk : string) (names : list string) (entries : list (string * bool)) : M (list string) :=
  match entries with
  | [] => mret []
  | (name, isDir) :: rest =>
      if bool_decide (name ∈ names) then non_share_entries disk names rest
      else
        let path := Join disk name in
        keep ← (if isDir : bool then wrapping ("scanning " +:+ quoted path +:+ ": ") (dirHoldsNonDirEntry path)
                else mret (negb (String.prefix evacuationContentPrefix name)));
        l ← non_share_entries disk names rest;
        mret (if keep : bool then path :: l else l)
  end.
Definition nonShareTopLevelEntries (disk : string) (shares : list Share) : M (list string) :=
  d ← sysc (SReadDir disk);
  match os_err d with
  | Some e => if err_is e S_NotExist then mret [] else throw (wrap ("reading " +:+ quoted disk +:+ ": ") e)
  | None =>
      found ← non_share_entries disk (map Base (branches_on disk shares)) (os_entries d);
      mret (Strings_sort found)
  end.

Definition refuseUnsupportedEntries (root : string) : M unit :=
  w ← sysc (SVisit root);
  match unsupported root (os_visits w) with
  | None => mret tt
  | Some e => if err_is e S_NotExist then mret tt else throw e
  end.

(** ** The plan *)
Fixpoint target_usages (targets : list string) (usages : gmap string DiskUsage) : M (gmap string DiskUsage) :=
  match targets with
  | [] => mret usages
  | b :: rest =>
      match usages !! Dir b with
      | Some _ => target_usages rest usages
      | None => u ← disk_usage env b; target_usages rest (<[Dir b := u]> usages)
      end
  end.

Fixpoint place_files (s : Share) (source : string) (targets : list string) (cands : list rebalanceCandidate)
    (usages : gmap string DiskUsage) (warned : list string) : M (list RebalanceMove * list RebalanceWarning * gmap string DiskUsage) :=
  match cands with
  | [] => mret ([], [], usages)
  | f :: rest =>
      _ ← check_ctx env;
      match pickEvacuationTarget usages targets (ca_size f) (sh_MinFreeSpace s) with
      | None => throw (EWrap "" ErrEvacuationWontFit (": share " +:+ quoted (sh_Name s) +:+ ", " +:+ ca_rel f))
      | Some target =>
          w ← warn_spread env s target (ca_rel f) warned;
          r ← place_files s source targets rest (<[Dir target := add_free (- ca_size f) (usage_at usages target)]> usages) w.2;
          mret (mkMove (sh_Name s) (ca_rel f) source target (ca_size f) :: r.1.1, option_list w.1 ++ r.1.2, r.2)
      end
  end.

Definition planShareEvacuation (disk : string) (s : Share) (usages : gmap string DiskUsage) :
    M (list RebalanceMove * list RebalanceWarning * gmap string DiskUsage) :=
  let source := source_branch disk s in
  let targets := other_branches disk s in
  if bool_decide (source = "") then mret ([], [], usages)
  else if bool_decide (targets = []) then throw (EWrap "" ErrEvacuationNoOtherBranch (": share " +:+ quoted (sh_Name s)))
  else
    usages ← target_usages targets usages;
    _ ← refuseUnsupportedEntries source;
    rels ← wrapping ("enumerate " +:+ quoted source +:+ ": ") (enumerateEntries env source);
    cands ← candidates env source rels;
    place_files s source targets (sortSlice cands) usages [].

Fixpoint plan_shares (disk : string) (shares : list Share) (usages : gmap string DiskUsage) : M RebalancePlan :=
  match shares with
  | [] => mret (mkPlan [] [] [])
  | s :: rest =>
      _ ← check_ctx env;
      r ← wrapping ("cache: plan evacuation of " +:+ disk +:+ " for share " +:+ quoted (sh_Name s) +:+ ": ") (planShareEvacuation disk s usages);
      plan ← plan_shares disk rest r.2;
      mret (mkPlan (r.1.1 ++ rp_Moves plan) (r.1.2 ++ rp_Warnings plan) [])
  end.

(** The plan and the error. *)
Definition PlanEvacuation (disk : string) (shares : list Share) : M (RebalancePlan * option err) :=
  let failed e := mret (mkPlan [] [] [], Some e) in
  n ← try (nonShareTopLevelEntries disk shares);
  match n with
  | Err e => failed (wrap ("cache: scanning " +:+ disk +:+ " for content outside every share: ") e)
  | Ok (_ :: _ as nonShare) =>
      mret (mkPlan [] [] nonShare, Some (EWrap "" ErrEvacuationNonShareContent (": " +:+ join_with ", " nonShare)))
  | Ok [] =>
      p ← try (plan_shares disk shares ∅);
      match p with Ok plan => mret (plan, None) | Err e => failed e end
  end.

(** ** The check that the disk is empty *)
Definition checkOnlyEmptyDirs (root : string) : M (option err) :=
  st ← sysc (SStat root);
  match os_err st with
  | Some e => mret (if err_is e S_NotExist then None else Some e)
  | None => w ← sysc (SVisit root); mret (entry_left root (os_visits w))
  end.
Definition nonShareLeftover (disk : string) (shares : list Share) : M (option err) :=
  st ← sysc (SStat disk);
  match os_err st with
  | Some e => mret (if err_is e S_NotExist then None else Some e)
  | None =>
      w ← sysc (SVisit (Clean disk));
      mret (leftover (Clean disk) (map Clean (branches_on disk shares)) (os_visits w) [])
  end.
Fixpoint check_branches (branches : list string) : M (option err) :=
  match branches with
  | [] => mret None
  | b :: rest =>
      x ← checkOnlyEmptyDirs b;
      match x with
      | Some e => mret (Some (EWrap "" ErrEvacuationNotEmpty (": " +:+ b +:+ ": " +:+ err_string e)))
      | None => check_branches rest
      end
  end.
Definition EvacuationPostCheck (disk : string) (shares : list Share) : M (option err) :=
  x ← check_branches (branches_on disk shares);
  match x with
  | Some e => mret (Some e)
  | None =>
      y ← nonShareLeftover disk shares;
      mret (match y with Some e => Some (EWrap "" ErrEvacuationNotEmpty (": " +:+ err_string e)) | None => None end)
  end.
End evacuate.
