(* ===== verification/EvacuateSafety.v ===== *)
(** * The plan of an evacuation is complete and fits, and the check is thorough

    Every entry of every share's branch on the disk is planned to go to another
    disk of its share that has room for it; and the check passes only a disk that
    holds nothing but directories and SnapRAID's own content files. *)
From S2P Require Import Guard.
From S2P Require Export Evacuate PlanSafety.
Open Scope string_scope.
Open Scope list_scope.
Open Scope Z_scope.

(** ** Placing files *)

(** What moves put on a disk. *)
Definition charge (moves : list RebalanceMove) (disk : string) : Z :=
  zsum (λ m, if decide (Dir (rm_TargetBranch m) = disk) then rm_Size m else 0) moves.
Lemma charge_app l k disk : charge (l ++ k) disk = charge l disk + charge k disk.
Proof.
  unfold charge. induction l as [|m l IH]; [unfold zsum; cbn; lia|]. cbn [app]. rewrite !zsum_cons, IH. lia.
Qed.
Lemma charge_one m disk : charge [m] disk = if decide (Dir (rm_TargetBranch m) = disk) then rm_Size m else 0.
Proof. unfold charge. rewrite zsum_cons. unfold zsum. cbn. lia. Qed.

(** The target is one that has room, and none with room has more free space. *)
Lemma pick_target_some us targets size minFree t : pickEvacuationTarget us targets size minFree = Some t →
  let free b := du_FreeBytes (usage_at us b) in
  t ∈ targets ∧ size ≤ wrap64 (free t - minFree) ∧ ∀ b, b ∈ targets → size ≤ wrap64 (free b - minFree) → free b ≤ free t.
Proof.
  intros Ht free. unfold pickEvacuationTarget in Ht.
  set (fits := λ b, size ≤ wrap64 (free b - minFree)).
  assert (∀ targets' best, pick_target us targets' size minFree best = Some t →
    (∀ b, best = Some b → fits b) →
    (best = Some t ∨ t ∈ targets') ∧ fits t ∧ (∀ b, best = Some b → free b ≤ free t) ∧ ∀ b, b ∈ targets' → fits b → free b ≤ free t) as H.
  { clear Ht targets. induction targets' as [|b bs IH]; intros best Hp Hbest; cbn [pick_target] in Hp.
    { subst best. split_and!; [by left|by apply Hbest|by intros b [= <-]|set_solver]. }
    destruct (Z.ltb_spec (wrap64 (du_FreeBytes (usage_at us b) - minFree)) size) as [Hno|Hyes].
    - destruct (IH best Hp Hbest) as (H1&H2&H3&H4). split_and!; [set_solver|done|done|].
      intros b' [->|Hin]%elem_of_cons Hf; [unfold fits, free in Hf; lia|by apply H4].
    - set (best' := match best with None => _ | Some b' => _ end) in Hp.
      assert (∃ b', best' = Some b' ∧ fits b' ∧ (b' = b ∨ best = Some b') ∧ free b ≤ free b' ∧ ∀ b0, best = Some b0 → free b0 ≤ free b') as (b'&Hb'&Hf&Hor&Hle&Hle').
      { unfold best'. destruct best as [b0|]; [|by exists b; split_and!; [..|lia|]; auto].
        destruct (Z.ltb_spec (du_FreeBytes (usage_at us b0)) (du_FreeBytes (usage_at us b))).
        - exists b. split_and!; [done|done|by left|done|]. intros ? [= <-]. unfold free. lia.
        - exists b0. split_and!; [done|by apply Hbest|by right|done|]. by intros ? [= <-]. }
      destruct (IH best' Hp) as (H1&H2&H3&H4); [by rewrite Hb'; intros ? [= <-]|]. specialize (H3 b' Hb'). split_and!.
      + destruct H1 as [H1|H1]; [|right; by right]. rewrite Hb' in H1. injection H1 as ->. destruct Hor as [->|]; [right; by left|by left].
      + done.
      + intros b0 Hb0. specialize (Hle' b0 Hb0). lia.
      + intros b0 [->|Hin]%elem_of_cons Hf0; [lia|by apply H4]. }
  destruct (H targets None Ht) as ([|H1]&H2&_&H3); [done..|]. done.
Qed.

Section place.
Context (s : Share) (source : string) (targets : list string).

(** Files placed one after the other, each charged before the next is. *)
Inductive placed : gmap string DiskUsage → list rebalanceCandidate → list RebalanceMove → gmap string DiskUsage → Prop :=
  | placed_nil us : placed us [] [] us
  | placed_cons us f rest t ms us' :
      pickEvacuationTarget us targets (ca_size f) (sh_MinFreeSpace s) = Some t →
      placed (<[Dir t := add_free (- ca_size f) (usage_at us t)]> us) rest ms us' →
      placed us (f :: rest) (mkMove (sh_Name s) (ca_rel f) source t (ca_size f) :: ms) us'.

Lemma placed_moves us cands ms us' : placed us cands ms us' →
  map (λ m, mkCandidate (rm_RelPath m) (rm_Size m)) ms = cands ∧
  ∀ m, m ∈ ms → rm_Share m = sh_Name s ∧ rm_SourceBranch m = source ∧ rm_TargetBranch m ∈ targets.
Proof.
  induction 1 as [us|us f rest t ms us' Hp Hpl [IH1 IH2]]; [split; [done|set_solver]|]. split.
  - cbn. rewrite IH1. by destruct f.
  - intros m [->|Hm]%elem_of_cons; [|by apply IH2]. split_and!; [done..|]. by apply pick_target_some in Hp as [? _].
Qed.
End place.


(** ** The ledger of free space *)

(** Every figure is an answer of [deps.Usage] less what was charged to its disk. *)
Record ledger (made : trace) (us : gmap string DiskUsage) (before : list RebalanceMove) : Prop := {
  ledger_usage disk x : us !! disk = Some x →
    0 ≤ du_FreeBytes x ≤ max_int64 ∧
    ∃ b, Dir b = disk ∧ usage_asked made b (mkUsage (du_TotalBytes x) (du_FreeBytes x + charge before disk));
  ledger_before m : m ∈ before → is_Some (us !! Dir (rm_TargetBranch m))
}.
(** What was free at first is the same for two ledgers. *)
Definition same_origin (us : gmap string DiskUsage) before (us' : gmap string DiskUsage) before' : Prop :=
  ∀ disk x, us !! disk = Some x → ∃ x', us' !! disk = Some x' ∧ du_TotalBytes x' = du_TotalBytes x ∧
    du_FreeBytes x' + charge before' disk = du_FreeBytes x + charge before disk.
Lemma same_origin_refl us before : same_origin us before us before.
Proof. intros disk x Hx. by exists x. Qed.
Lemma same_origin_trans us1 l1 us2 l2 us3 l3 : same_origin us1 l1 us2 l2 → same_origin us2 l2 us3 l3 → same_origin us1 l1 us3 l3.
Proof. intros H1 H2 disk x Hx. destruct (H1 disk x Hx) as (y&Hy&?&?). destruct (H2 disk y Hy) as (z&Hz&?&?). exists z. split_and!; [done|congruence|lia]. Qed.

(** Each of the moves leaves its target the headroom. *)
Definition leaves_room (minFree : Z) (us : gmap string DiskUsage) (all before ms : list RebalanceMove) : Prop :=
  ∀ l m k, ms = l ++ m :: k → ∃ x, us !! Dir (rm_TargetBranch m) = Some x ∧
    minFree ≤ du_FreeBytes x + charge all (Dir (rm_TargetBranch m)) - charge (before ++ l ++ [m]) (Dir (rm_TargetBranch m)).

Lemma ledger_charge made us before t x m :
  ledger made us before → us !! Dir t = Some x → rm_TargetBranch m = t → 0 ≤ rm_Size m ≤ du_FreeBytes x →
  ledger made (<[Dir t := mkUsage (du_TotalBytes x) (du_FreeBytes x - rm_Size m)]> us) (before ++ [m]) ∧
  same_origin us before (<[Dir t := mkUsage (du_TotalBytes x) (du_FreeBytes x - rm_Size m)]> us) (before ++ [m]).
Proof.
  intros [Hl Hd] Hx Ht Hs. split; [split|].
  - intros disk y. destruct (decide (Dir t = disk)) as [<-|Hne].
    + rewrite lookup_insert. rewrite decide_True by done. intros [= <-]. destruct (Hl _ x Hx) as (?&b&Hb&Hask). cbn. split; [lia|].
      exists b. split; [done|]. rewrite charge_app, charge_one, Ht, decide_True by done.
      replace (du_FreeBytes x - rm_Size m + (charge before (Dir t) + rm_Size m)) with (du_FreeBytes x + charge before (Dir t)) by lia. done.
    + rewrite lookup_insert_ne by done. intros Hy. destruct (Hl disk y Hy) as (?&b&Hb&Hask). split; [done|]. exists b. split; [done|].
      rewrite charge_app, charge_one, Ht, decide_False, Z.add_0_r by done. done.
  - intros m' [Hin| ->%list_elem_of_singleton]%elem_of_app; apply lookup_insert_is_Some; [|rewrite Ht; by left].
    destruct (decide (Dir t = Dir (rm_TargetBranch m'))); [by left|right]. split; [done|by apply Hd].
  - intros disk y Hy. rewrite charge_app, charge_one, Ht. destruct (decide (Dir t = disk)) as [<-|Hne].
    + rewrite Hx in Hy. injection Hy as <-. eexists. rewrite lookup_insert, decide_True by done. split_and!; [done..|]. cbn. lia.
    + exists y. rewrite lookup_insert_ne by done. split_and!; [done..|]. lia.
Qed.

Lemma placed_ledger s source targets made us cands ms us' : placed s source targets us cands ms us' →
  0 ≤ sh_MinFreeSpace s ≤ max_int64 → (∀ f, f ∈ cands → 0 ≤ ca_size f) → ∀ before, ledger made us before →
  (∀ t, t ∈ targets → is_Some (us !! Dir t)) →
  ledger made us' (before ++ ms) ∧ same_origin us before us' (before ++ ms) ∧
  leaves_room (sh_MinFreeSpace s) us' (before ++ ms) before ms.
Proof.
  intros Hp Hmin. induction Hp as [us|us f rest t ms us' Hpick Hpl IH]; intros Hsize before Hl Ht.
  { rewrite app_nil_r. split_and!; [done|apply same_origin_refl|]. by intros []. }
  apply pick_target_some in Hpick as (Hin&Hfit&_). destruct (Ht t Hin) as [x Hx].
  pose proof (Hsize f ltac:(by left)) as Hf. destruct (ledger_usage _ _ _ Hl _ x Hx) as [Hfree _].
  unfold usage_at in *. rewrite Hx in *. cbn [from_option id] in *. unfold max_int64 in *.
  rewrite wrap64_small in Hfit by (unfold in_int64, min_int64, max_int64; lia).
  set (m := mkMove _ _ _ t _). assert (add_free (- ca_size f) x = mkUsage (du_TotalBytes x) (du_FreeBytes x - rm_Size m)) as Hadd.
  { unfold add_free. f_equal. apply wrap64_small. unfold in_int64, min_int64, max_int64. cbn. lia. }
  rewrite Hadd in *. destruct (ledger_charge made us before t x m Hl Hx eq_refl ltac:(cbn; lia)) as [Hl' Ho].
  destruct (IH ltac:(set_solver) (before ++ [m]) Hl') as (H1&H2&H3).
  { intros t' Ht'. apply lookup_insert_is_Some. destruct (decide (Dir t = Dir t')); [by left|right]. auto. }
  assert ((before ++ [m]) ++ ms = before ++ m :: ms) as Heq by (by rewrite <-app_assoc). rewrite Heq in *.
  split_and!; [done|by eapply same_origin_trans|].
  intros l m' k Hms. destruct l as [|m0 l].
  - injection Hms as <- _. cbn [rm_TargetBranch m]. destruct (same_origin_trans _ _ _ _ _ _ Ho H2 _ _ Hx) as (x'&Hx'&_&Hfree').
    exists x'. split; [done|]. rewrite Hfree'. cbn [app]. rewrite charge_app, charge_one. cbn [rm_TargetBranch m]. rewrite decide_True by done.
    cbn [rm_Size m]. lia.
  - injection Hms as <- ->. destruct (H3 l m' k eq_refl) as (x'&Hx'&Hle). exists x'. split; [done|].
    by rewrite <-app_assoc in Hle.
Qed.

(** ** The plan of one share *)

(** The files below [root] that were listed, and what became of each. *)
Definition gone (made : trace) (path : string) : Prop :=
  ∃ a e, (SLstat path, a) ∈ made ∧ os_err a = Some e ∧ err_is e S_NotExist = true.
Definition all_listed (made : trace) (root : string) (cands : list rebalanceCandidate) : Prop :=
  (∃ a e, (SStat root, a) ∈ made ∧ os_err a = Some e ∧ err_is e S_NotExist = true) ∨
  ∃ w, (SWalkDir root, w) ∈ made ∧ os_err w = None ∧ ∀ rel, (rel, false) ∈ os_entries w → Contains (Base rel) tempSuffix = false →
    (∃ f, f ∈ cands ∧ ca_rel f = rel) ∨ gone made (Join root rel).
(** A walk that found no entry that cannot be moved, as far as the tree went. *)
Definition all_supported (made : trace) (root : string) : Prop :=
  ∃ w, (SVisit root, w) ∈ made ∧ ∀ e, unsupported root (os_visits w) = Some e → err_is e S_NotExist = true.

Record share_read (made : trace) (root : string) (cands : list rebalanceCandidate) : Prop := {
  read_sizes f : f ∈ cands → size_seen made root f;
  read_names f : f ∈ cands → Contains (Base (ca_rel f)) tempSuffix = false;
  read_all : all_listed made root cands;
  read_supported : all_supported made root
}.
Lemma size_seen_mono made made' root f : made ⊆ made' → size_seen made root f → size_seen made' root f.
Proof. intros Hsub (a&Hin&H). exists a. auto. Qed.
Lemma share_read_mono made made' root cands : made ⊆ made' → share_read made root cands → share_read made' root cands.
Proof.
  intros Hsub [Hs Hn Ha Hu]. split.
  - intros f Hf. by eapply size_seen_mono, Hs.
  - done.
  - destruct Ha as [(a&e&Hin&H)|(w&Hw&He&H)]; [left; exists a, e; auto|right]. exists w. split_and!; [auto|done|].
    intros rel Hrel Hc. destruct (H rel Hrel Hc) as [|(a&e&Hin&H')]; [by left|right]. exists a, e. auto.
  - destruct Hu as (w&Hw&H). exists w. auto.
Qed.

(** What the plan of a share does to the figures. *)
Inductive share_planned (made : trace) (disk : string) (s : Share) (us : gmap string DiskUsage) :
    list RebalanceMove → gmap string DiskUsage → Prop :=
  | share_elsewhere : source_branch disk s = "" → share_planned made disk s us [] us
  | share_moves us1 cands ms us' :
      source_branch disk s ≠ "" →
      (∀ d x, us !! d = Some x → us1 !! d = Some x) →
      (∀ d x, us1 !! d = Some x → us !! d = Some x ∨ ∃ b, Dir b = d ∧ usage_asked made b x) →
      (∀ t, t ∈ other_branches disk s → is_Some (us1 !! Dir t)) →
      share_read made (source_branch disk s) cands →
      placed s (source_branch disk s) (other_branches disk s) us1 cands ms us' →
      share_planned made disk s us ms us'.
Lemma share_planned_mono made made' disk s us ms us' : made ⊆ made' → share_planned made disk s us ms us' → share_planned made' disk s us ms us'.
Proof.
  intros Hsub [H|us1 cands ms' us'' H1 H2 H3 H4 H5 H6]; [by apply share_elsewhere|]. eapply share_moves; try done.
  - intros d x Hx. destruct (H3 d x Hx) as [|(b&Hb&Hu)]; [by left|right]. exists b. split; [done|by eapply usage_asked_mono].
  - by eapply share_read_mono.
Qed.

Section evacuation.
Context (env : environment sys os_answer).

Lemma target_usages_cwp targets : ∀ us tr, cwp only_looks (target_usages env targets us) tr (λ r made, ∀ us1, r = Ok us1 →
  (∀ d x, us !! d = Some x → us1 !! d = Some x) ∧
  (∀ d x, us1 !! d = Some x → us !! d = Some x ∨ ∃ b, Dir b = d ∧ usage_asked made b x) ∧
  ∀ t, t ∈ targets → is_Some (us1 !! Dir t)).
Proof.
  induction targets as [|t targets IH]; intros us tr; cbn [target_usages].
  { apply cwp_ret. intros us1 [= <-]. split_and!; [done|by left|set_solver]. }
  destruct (us !! Dir t) as [x|] eqn:Hx.
  - eapply cwp_mono; [apply IH|]. intros r m H us1 Hr. destruct (H us1 Hr) as (H1&H2&H3). split_and!; [done|done|].
    intros t' [->|Ht]%elem_of_cons; [eexists; by apply H1|by apply H3].
  - apply cwp_bind. eapply cwp_mono; [apply disk_usage_cwp|]. intros [x|e] m1 Hu; [|done]. specialize (Hu x eq_refl).
    eapply cwp_mono; [apply IH|]. intros r m2 H us1 Hr. destruct (H us1 Hr) as (H1&H2&H3). split_and!.
    + intros d y Hy. apply H1. rewrite lookup_insert_ne; [done|]. intros <-. congruence.
    + intros d y Hy. destruct (H2 d y Hy) as [Hin|(b&Hb&Hask)].
      * destruct (decide (Dir t = d)) as [<-|]; [|left; by rewrite lookup_insert_ne in Hin].
        rewrite lookup_insert, decide_True in Hin by done. injection Hin as <-. right. exists t. split; [done|].
        eapply usage_asked_mono, Hu. set_solver.
      * right. exists b. split; [done|]. eapply usage_asked_mono, Hask. set_solver.
    + intros t' [->|Ht]%elem_of_cons; [|by apply H3]. exists x. apply H1. by rewrite lookup_insert, decide_True by done.
Qed.

Lemma refuse_cwp root tr : cwp only_looks (refuseUnsupportedEntries env root) tr (λ r made, r = Ok tt → all_supported made root).
Proof.
  unfold refuseUnsupportedEntries. apply cwp_bind, cwp_sys; [done|]. intros w.
  destruct (unsupported root (os_visits w)) as [e|] eqn:Hun.
  - destruct (err_is e S_NotExist) eqn:He; [apply cwp_ret|by apply cwp_throw]. intros _. exists w. split; [set_solver|]. intros e'. rewrite Hun. by intros [= <-].
  - apply cwp_ret. intros _. exists w. split; [set_solver|]. intros e'. by rewrite Hun.
Qed.
Lemma enumerateEntries_listed root tr : cwp only_looks (enumerateEntries env root) tr (λ r made, ∀ rels, r = Ok rels →
  (∀ rel, rel ∈ rels → Contains (Base rel) tempSuffix = false) ∧
  ((∃ a e, (SStat root, a) ∈ made ∧ os_err a = Some e ∧ err_is e S_NotExist = true) ∨
   ∃ w, (SWalkDir root, w) ∈ made ∧ os_err w = None ∧ ∀ rel, (rel, false) ∈ os_entries w → Contains (Base rel) tempSuffix = false → rel ∈ rels)).
Proof.
  unfold enumerateEntries. apply cwp_bind, cwp_sys; [done|]. intros st. destruct (os_err st) as [e|] eqn:Hst.
  { destruct (err_is e S_NotExist) eqn:He; [apply cwp_ret|by apply cwp_throw]. intros rels [= <-]. split; [set_solver|]. left. exists st, e. set_solver. }
  apply cwp_bind, cwp_must; [done| |intros; done]. intros w Hw. apply cwp_ret. intros rels [= <-]. split.
  { intros rel. unfold Strings_sort. rewrite merge_sort_Permutation. intros (p&->&[[_ H] _]%list_elem_of_filter)%list_elem_of_fmap. done. }
  right. exists w.
  split_and!; [set_solver|done|]. intros rel Hin Hc. unfold Strings_sort. rewrite merge_sort_Permutation.
  apply list_elem_of_fmap. exists (rel, false). split; [done|]. by apply list_elem_of_filter.
Qed.
Lemma candidates_complete root rels : ∀ tr, cwp only_looks (candidates env root rels) tr (λ r made, ∀ cands, r = Ok cands →
  ∀ rel, rel ∈ rels → (∃ f, f ∈ cands ∧ ca_rel f = rel) ∨ gone made (Join root rel)).
Proof.
  induction rels as [|rel rels IH]; intros tr; cbn [candidates]; [apply cwp_ret; set_solver|].
  apply cwp_bind, cwp_sys; [done|]. intros a. destruct (os_err a) as [e|] eqn:Ha.
  - destruct (err_is e S_NotExist) eqn:He; [|by apply cwp_throw]. eapply cwp_mono; [apply IH|]. intros r m H cands Hr rel' [->|Hin]%elem_of_cons.
    + right. exists a, e. set_solver.
    + destruct (H cands Hr rel' Hin) as [|(a'&e'&Hin'&H')]; [by left|right]. exists a', e'. set_solver.
  - apply cwp_bind. eapply cwp_mono; [apply IH|]. intros [cands|e] m H; [|done]. apply cwp_ret. intros ? [= <-] rel' [->|Hin]%elem_of_cons.
    + left. eexists. split; [by left|done].
    + destruct (H cands eq_refl rel' Hin) as [(f&Hf&?)|(a'&e'&Hin'&H')]; [left; exists f; set_solver|right]. exists a', e'. set_solver.
Qed.

Lemma place_files_cwp s source targets cands : ∀ us warned tr,
  cwp only_looks (place_files env s source targets cands us warned) tr (λ r _, ∀ x, r = Ok x → placed s source targets us cands x.1.1 x.2).
Proof.
  induction cands as [|f cands IH]; intros us warned tr; cbn [place_files]; [apply cwp_ret; intros ? [= <-]; constructor|].
  apply cwp_bind. eapply cwp_mono; [apply check_ctx_cwp|]. intros [_|e] m1 _; [|done].
  destruct (pickEvacuationTarget us targets (ca_size f) (sh_MinFreeSpace s)) as [t|] eqn:Hp; [|by apply cwp_throw].
  apply cwp_bind. eapply cwp_mono; [apply warn_spread_cwp|]. intros r m2 [w ->].
  apply cwp_bind. eapply cwp_mono; [apply IH|]. intros [x|e] m3 H; [|done]. apply cwp_ret. intros ? [= <-]. cbn.
  eapply placed_cons; [done|by apply H].
Qed.

Context (sortSlice : list rebalanceCandidate → list rebalanceCandidate) (Hsort : ∀ l, sortSlice l ≡ₚ l) (disk : string).
Lemma planShareEvacuation_cwp s us tr : cwp only_looks (planShareEvacuation env sortSlice disk s us) tr (λ r made,
  ∀ x, r = Ok x → share_planned made disk s us x.1.1 x.2).
Proof using Hsort.
  unfold planShareEvacuation. case_bool_decide as Hsrc; [apply cwp_ret; intros ? [= <-]; by apply share_elsewhere|].
  case_bool_decide as Ht; [by apply cwp_throw|].
  apply cwp_bind. eapply cwp_mono; [apply target_usages_cwp|]. intros [us1|e] m1 H1; [|done]. destruct (H1 us1 eq_refl) as (Hk&Hn&Hall).
  apply cwp_bind. eapply cwp_mono; [apply refuse_cwp|]. intros [[]|e] m2 H2; [|done]. specialize (H2 eq_refl).
  apply cwp_bind, cwp_wrapping. eapply cwp_mono; [apply enumerateEntries_listed|]. intros [rels|e] m3 H3; [|done]. destruct (H3 rels eq_refl) as [Hnames H3'].
  clear H3. rename H3' into H3.
  apply cwp_bind. eapply cwp_mono; [apply cwp_conj; [apply candidates_cwp|apply candidates_complete]|].
  intros [cands|e] m4 [H4 H5]; [|done]. destruct (H4 cands eq_refl) as [Hsub Hsize]. specialize (H5 cands eq_refl).
  eapply cwp_mono; [apply place_files_cwp|]. intros r m5 H6 x Hr. specialize (H6 x Hr).
  eapply share_moves; [done|exact Hk| |exact Hall| |exact H6].
  - intros d y Hy. destruct (Hn d y Hy) as [|(b&Hb&Hu)]; [by left|right]. exists b. split; [done|]. eapply usage_asked_mono, Hu. set_solver.
  - split.
    + intros f Hf. rewrite Hsort in Hf. eapply size_seen_mono, Hsize, Hf. set_solver.
    + intros f Hf. rewrite Hsort in Hf. apply Hnames. eapply elem_of_sublist; [|exact Hsub]. by apply list_elem_of_fmap_2.
    + destruct H3 as [(a&e&Hin&H)|(w&Hw&He&H)]; [left; exists a, e; set_solver|right]. exists w. split_and!; [set_solver|done|].
      intros rel Hrel Hc. destruct (H5 rel (H rel Hrel Hc)) as [(f&Hf&Heq)|(a&e&Hin&H')].
      * left. exists f. by rewrite Hsort.
      * right. exists a, e. set_solver.
    + destruct H2 as (w&Hw&H). exists w. set_solver.
Qed.
End evacuation.

(** ** The whole plan *)
Inductive shares_planned (made : trace) (disk : string) :
    gmap string DiskUsage → list Share → list (list RebalanceMove) → gmap string DiskUsage → Prop :=
  | shares_none us : shares_planned made disk us [] [] us
  | shares_more us s shares ms per us1 us2 :
      share_planned made disk s us ms us1 → shares_planned made disk us1 shares per us2 →
      shares_planned made disk us (s :: shares) (ms :: per) us2.
Lemma shares_planned_mono made made' disk us shares per us' : made ⊆ made' →
  shares_planned made disk us shares per us' → shares_planned made' disk us shares per us'.
Proof. intros Hsub. induction 1; [constructor|econstructor; [by eapply share_planned_mono|done]]. Qed.

Lemma charge_none l disk : (∀ m, m ∈ l → Dir (rm_TargetBranch m) ≠ disk) → charge l disk = 0.
Proof.
  unfold charge. induction l as [|m l IH]; intros H; [done|]. rewrite zsum_cons, decide_False, IH; [done|set_solver|]. apply H. by left.
Qed.
Lemma room_origin minFree us all us' all' before ms : leaves_room minFree us all before ms → same_origin us all us' all' →
  leaves_room minFree us' all' before ms.
Proof.
  intros Hr Ho l m k Heq. destruct (Hr l m k Heq) as (x&Hx&Hle). destruct (Ho _ x Hx) as (y&Hy&_&Hf). exists y. split; [done|]. lia.
Qed.

Lemma share_ledger made disk s us ms us' before : share_planned made disk s us ms us' → sane made →
  0 ≤ sh_MinFreeSpace s ≤ max_int64 → ledger made us before →
  ledger made us' (before ++ ms) ∧ same_origin us before us' (before ++ ms) ∧ leaves_room (sh_MinFreeSpace s) us' (before ++ ms) before ms.
Proof.
  intros Hp (Hus&Hls&_) Hmin Hl. destruct Hp as [_|us1 cands ms us' _ Hk Hn Ht Hread Hpl].
  { rewrite app_nil_r. split_and!; [done|apply same_origin_refl|]. by intros []. }
  assert (ledger made us1 before) as Hl1.
  { split; [|intros m Hm; destruct (ledger_before _ _ _ Hl m Hm) as [x Hx]; eauto]. intros d x Hx.
    destruct (us !! d) as [y|] eqn:Hy.
    - rewrite (Hk d y Hy) in Hx. injection Hx as <-. by apply Hl.
    - destruct (Hn d x Hx) as [|(b&Hb&Hask)]; [congruence|]. destruct Hask as (a&Ha&He&->). destruct (Hus b a Ha) as [_ Hf]. split; [done|].
      exists b. split; [done|]. exists a. split_and!; [done|done|]. rewrite charge_none; [cbn; by rewrite Z.add_0_r|].
      intros m Hm <-. destruct (ledger_before _ _ _ Hl m Hm) as [z Hz]. congruence. }
  destruct (placed_ledger _ _ _ made _ _ _ _ Hpl Hmin) with (before := before) as (H1&H2&H3); [|done|done|].
  { intros f Hf. destruct (read_sizes _ _ _ Hread f Hf) as (a&Ha&_&->). by eapply Hls. }
  split_and!; [done| |done]. eapply same_origin_trans; [|exact H2]. intros d x Hx. exists x. auto.
Qed.
Lemma shares_ledger made disk us shares per us' : shares_planned made disk us shares per us' → sane made →
  Forall well_formed shares → ∀ before, ledger made us before →
  ledger made us' (before ++ concat per) ∧ same_origin us before us' (before ++ concat per) ∧
  ∀ i s ms, shares !! i = Some s → per !! i = Some ms →
    leaves_room (sh_MinFreeSpace s) us' (before ++ concat per) (before ++ concat (take i per)) ms.
Proof.
  intros Hp Hs. induction Hp as [us|us s shares ms per us1 us2 Hp Hps IH]; intros Hwf before Hl; cbn [concat].
  { rewrite app_nil_r. split_and!; [done|apply same_origin_refl|done]. }
  apply Forall_cons in Hwf as [[_ Hmin] Hwf]. destruct (share_ledger _ _ _ _ _ _ _ Hp Hs Hmin Hl) as (H1&H2&H3).
  destruct (IH Hwf (before ++ ms) H1) as (H4&H5&H6). rewrite <-app_assoc in *. split_and!; [done|by eapply same_origin_trans|].
  intros [|i] s' ms' Hs' Hms'; cbn in *.
  - injection Hs' as <-. injection Hms' as <-. rewrite app_nil_r. by eapply room_origin.
  - specialize (H6 i s' ms' Hs' Hms'). by rewrite <-app_assoc in H6.
Qed.

(** The moves of one share: one for each file that was listed, all to branches of
    the share on other disks. *)
Definition share_evacuated (made : trace) (disk : string) (s : Share) (ms : list RebalanceMove) : Prop :=
  (source_branch disk s = "" ∧ ms = []) ∨
  (share_read made (source_branch disk s) (map (λ m, mkCandidate (rm_RelPath m) (rm_Size m)) ms) ∧
   ∀ m, m ∈ ms → rm_Share m = sh_Name s ∧ rm_SourceBranch m = source_branch disk s ∧ rm_TargetBranch m ∈ other_branches disk s).
Lemma shares_evacuated made disk us shares per us' : shares_planned made disk us shares per us' →
  Forall2 (share_evacuated made disk) shares per.
Proof.
  induction 1 as [|us s shares ms per us1 us2 [Hsrc|us3 cands ms' us4 _ _ _ _ Hread Hpl] _ IH]; constructor; try done.
  - by left.
  - right. apply placed_moves in Hpl as [<- H]. done.
Qed.

(** Nothing at the disk's root but the shares' branches, SnapRAID's content files
    and directories that hold no file. *)
Definition nothing_outside (made : trace) (disk : string) (shares : list Share) : Prop :=
  ∃ d, (SReadDir disk, d) ∈ made ∧
    ((∃ e, os_err d = Some e ∧ err_is e S_NotExist = true) ∨
     ∀ name isDir, (name, isDir) ∈ os_entries d → name ∈ map Base (branches_on disk shares) ∨
       (isDir = false ∧ String.prefix evacuationContentPrefix name = true) ∨
       (isDir = true ∧ ∃ w, (SVisit (Join disk name), w) ∈ made ∧ ∀ v, v ∈ os_visits w → vi_kind v = Some Directory)).

Lemma holds_entry_false vs : holds_entry vs = Ok false → ∀ v, v ∈ vs → vi_kind v = Some Directory.
Proof.
  induction vs as [|v vs IH]; cbn [holds_entry]; [set_solver|]. destruct (vi_err v); [done|]. case_bool_decide; [|done].
  intros H' v' [->|Hv]%elem_of_cons; auto.
Qed.

Section plan.
Context (env : environment sys os_answer) (disk : string).

Lemma non_share_cwp names entries : ∀ tr, cwp only_looks (non_share_entries env disk names entries) tr (λ r made, r = Ok [] →
  ∀ name isDir, (name, isDir) ∈ entries → name ∈ names ∨
    (isDir = false ∧ String.prefix evacuationContentPrefix name = true) ∨
    (isDir = true ∧ ∃ w, (SVisit (Join disk name), w) ∈ made ∧ ∀ v, v ∈ os_visits w → vi_kind v = Some Directory)).
Proof.
  induction entries as [|[name isDir] entries IH]; intros tr; cbn [non_share_entries]; [apply cwp_ret; set_solver|].
  case_bool_decide as Hname.
  { eapply cwp_mono; [apply IH|]. intros r m H Hr name' isDir' [[= -> ->]|Hin]%elem_of_cons; [by left|by apply H]. }
  apply cwp_bind. eapply cwp_mono with (Q := λ r made, r = Ok false →
    (isDir = false ∧ String.prefix evacuationContentPrefix name = true) ∨
    (isDir = true ∧ ∃ w, (SVisit (Join disk name), w) ∈ made ∧ ∀ v, v ∈ os_visits w → vi_kind v = Some Directory)).
  { destruct isDir.
    - apply cwp_wrapping. unfold dirHoldsNonDirEntry. apply cwp_bind, cwp_sys; [done|]. intros w. apply cwp_of_res.
      destruct (holds_entry (os_visits w)) as [b|e] eqn:Hw; [|done]. intros [= ->]. right. split; [done|]. exists w.
      split; [set_solver|]. by apply holds_entry_false.
    - apply cwp_ret. intros [= Hp%negb_false_iff]. by left. }
  intros [keep|e] m1 Hk; [|done]. apply cwp_bind. eapply cwp_mono; [apply IH|]. intros [l|e] m2 H; [|done].
  apply cwp_ret. intros Hl. destruct keep; [done|]. injection Hl as ->. specialize (Hk eq_refl). specialize (H eq_refl).
  rewrite app_nil_r. intros name' isDir' [[= -> ->]|Hin]%elem_of_cons.
  - right. destruct Hk as [|(?&w&Hw&Hv)]; [by left|right]. split; [done|]. exists w. set_solver.
  - destruct (H name' isDir' Hin) as [|[|(?&w&Hw&Hv)]]; [by left|by right; left|right; right]. split; [done|]. exists w. set_solver.
Qed.
Lemma nonShare_cwp shares tr : cwp only_looks (nonShareTopLevelEntries env disk shares) tr (λ r made,
  r = Ok [] → nothing_outside made disk shares).
Proof.
  unfold nonShareTopLevelEntries. apply cwp_bind, cwp_sys; [done|]. intros d. destruct (os_err d) as [e|] eqn:Hd.
  { destruct (err_is e S_NotExist) eqn:He; [apply cwp_ret|by apply cwp_throw]. intros _. exists d. split; [set_solver|]. left. eauto. }
  apply cwp_bind. eapply cwp_mono; [apply non_share_cwp|]. intros [found|e] m H; [|done]. apply cwp_ret. intros [= Hs].
  assert (found = []) as ->. { apply Permutation_nil. rewrite <-Hs. apply (merge_sort_Permutation path_le). }
  specialize (H eq_refl). exists d. split; [set_solver|]. right. intros name isDir Hin. rewrite app_nil_r.
  destruct (H name isDir Hin) as [|[|(?&w&Hw&Hv)]]; [by left|by right; left|right; right]. split; [done|]. exists w. set_solver.
Qed.

Context (sortSlice : list rebalanceCandidate → list rebalanceCandidate) (Hsort : ∀ l, sortSlice l ≡ₚ l).
Lemma plan_shares_cwp shares : ∀ us tr, cwp only_looks (plan_shares env sortSlice disk shares us) tr (λ r made,
  ∀ plan, r = Ok plan → rp_NonShareContent plan = [] ∧ ∃ per us', rp_Moves plan = concat per ∧ shares_planned made disk us shares per us').
Proof using Hsort.
  induction shares as [|s shares IH]; intros us tr; cbn [plan_shares].
  { apply cwp_ret. intros plan [= <-]. split; [done|]. exists [], us. split; [done|constructor]. }
  apply cwp_bind. eapply cwp_mono; [apply check_ctx_cwp|]. intros [_|e] m1 _; [|done].
  apply cwp_bind, cwp_wrapping. eapply cwp_mono; [by apply planShareEvacuation_cwp|]. intros [x|e] m2 Hx; [|done]. specialize (Hx x eq_refl).
  apply cwp_bind. eapply cwp_mono; [apply IH|]. intros [plan|e] m3 H; [|done]. destruct (H plan eq_refl) as (_&per&us'&Hper&Hp).
  apply cwp_ret. intros ? [= <-]. rewrite app_nil_r. split; [done|]. exists (x.1.1 :: per), us'. cbn. split; [by rewrite Hper|].
  econstructor; [eapply share_planned_mono, Hx|eapply shares_planned_mono, Hp]; set_solver.
Qed.

Lemma PlanEvacuation_cwp shares tr : cwp only_looks (PlanEvacuation env sortSlice disk shares) tr (λ r made,
  ∃ plan e, r = Ok (plan, e) ∧ (e ≠ None → rp_Moves plan = []) ∧
    (e = None → rp_NonShareContent plan = [] ∧ nothing_outside made disk shares ∧
      ∃ per us', rp_Moves plan = concat per ∧ shares_planned made disk ∅ shares per us')).
Proof using Hsort.
  unfold PlanEvacuation. apply cwp_bind, cwp_try. eapply cwp_mono; [apply nonShare_cwp|].
  intros [[|p l]|e] m1 H1; [|apply cwp_ret; eexists _, _; by split_and!..]. specialize (H1 eq_refl).
  apply cwp_bind, cwp_try. eapply cwp_mono; [apply plan_shares_cwp|].
  intros [plan|e] m2 H2; [|apply cwp_ret; eexists _, _; by split_and!..]. destruct (H2 plan eq_refl) as (Hn&per&us'&Hper&Hp).
  apply cwp_ret. exists plan, None. split_and!; [done|done|]. intros _. rewrite app_nil_r. split_and!; [done| |].
  - destruct H1 as (d&Hd&H1). exists d. split; [set_solver|]. destruct H1 as [|H1]; [by left|right]. intros name isDir Hin.
    destruct (H1 name isDir Hin) as [|[|(?&w&Hw&Hv)]]; [by left|by right; left|right; right]. split; [done|]. exists w. set_solver.
  - exists per, us'. split; [done|]. eapply shares_planned_mono, Hp. set_solver.
Qed.
End plan.

(** C29: Planning the evacuation of a disk always answers and only reads. A plan
    without an error moves every entry that was listed below the disk's branch of
    each share and was still there, with the size it had, to a branch of the share
    on another disk; it is refused when the disk holds a file outside the shares or
    an entry that cannot be moved; and whatever shares use a disk, all that is
    moved to it fits in what was free there with each share's headroom. *)
Theorem evacuation_plan_is_complete env sortSlice disk shares tr : (∀ l, sortSlice l ≡ₚ l) → Forall well_formed shares →
  ∃ plan e made, PlanEvacuation env sortSlice disk shares tr = (Ok (plan, e), tr ++ made) ∧ Forall (λ p, looks p.1) made ∧
    (e ≠ None → rp_Moves plan = []) ∧
    (e = None → nothing_outside made disk shares ∧
      ∃ per, rp_Moves plan = concat per ∧ Forall2 (share_evacuated made disk) shares per ∧
        (sane made → ∃ u : string → DiskUsage, ∀ i s l m k, shares !! i = Some s → per !! i = Some (l ++ m :: k) →
          let d := Dir (rm_TargetBranch m) in
          (∃ b, Dir b = d ∧ usage_asked made b (u d)) ∧
          sh_MinFreeSpace s + charge (concat (take i per) ++ l ++ [m]) d ≤ du_FreeBytes (u d))).
Proof.
  intros Hsort Hwf. destruct (PlanEvacuation_cwp env disk sortSlice Hsort shares tr) as (made&Hs&Hg&plan&e&Hr&He&Hok).
  destruct (PlanEvacuation _ _ _ _ tr) as [r w]. cbn in *. subst r w. exists plan, e, made. split_and!; [done| |done|].
  { apply Forall_forall. intros [c a] (before&after&->)%list_elem_of_split. by eapply Hg. }
  intros ->. destruct (Hok eq_refl) as (_&Hout&per&us'&Hper&Hp). split; [done|]. exists per. split_and!; [done|by eapply shares_evacuated|].
  intros Hsane. destruct (shares_ledger _ _ _ _ _ _ Hp Hsane Hwf []) as (Hl&_&Hroom); [by split; [intros ??; rewrite lookup_empty|set_solver]|].
  exists (λ d, match us' !! d with Some x => mkUsage (du_TotalBytes x) (du_FreeBytes x + charge (concat per) d) | None => mkUsage 0 0 end).
  intros i s l m k Hi Hms. set (d := Dir (rm_TargetBranch m)).
  destruct (Hroom i s _ Hi Hms l m k eq_refl) as (x&Hx&Hle). fold d in Hx, Hle. cbn [app] in *. rewrite Hx.
  destruct (ledger_usage _ _ _ Hl d x Hx) as (_&b&Hb&Hask). split; [by exists b|]. cbn [du_FreeBytes]. lia.
Qed.

(** Planned moves meet what a run asks of its plan, when every listed path ends in
    a name. *)
Lemma evacuated_is_movable made disk s ms : share_evacuated made disk s ms →
  (∀ m, m ∈ ms → ∃ above b, split slash (rm_RelPath m) = above ++ [b] ∧ proper_name b) → movable_moves ms.
Proof.
  intros [[_ ->]|[Hread _]] Hn; [by constructor|]. apply Forall_forall. intros m Hm. destruct (Hn m Hm) as (above&b&Hs&Hb).
  pose proof (read_names _ _ _ Hread (mkCandidate (rm_RelPath m) (rm_Size m))) as H. cbn [ca_rel] in H.
  rewrite (Base_Join (rm_Share m) _ _ _ Hs Hb). rewrite (Base_last _ _ _ Hs) in H by apply Hb. apply H.
  apply list_elem_of_fmap. by exists m.
Qed.

(** ** The check *)
Definition missing (made : trace) (path : string) : Prop :=
  ∃ a e, (SStat path, a) ∈ made ∧ os_err a = Some e ∧ err_is e S_NotExist = true.
(** A branch that is missing, or whose walk met nothing but directories. *)
Definition emptied (made : trace) (b : string) : Prop :=
  missing made b ∨ ∃ w, (SVisit b, w) ∈ made ∧ ∀ v, v ∈ os_visits w → vi_err v = None ∧ vi_kind v = Some Directory.
Lemma missing_mono made made' path : made ⊆ made' → missing made path → missing made' path.
Proof. intros Hsub (a&e&Hin&H). exists a, e. auto. Qed.
Lemma emptied_mono made made' b : made ⊆ made' → emptied made b → emptied made' b.
Proof. intros Hsub [H|(w&Hw&H)]; [left; by eapply missing_mono|right; exists w; auto]. Qed.
(** What may be left on an evacuated disk outside the branches. *)
Definition may_stay (root : string) (branches : list string) (v : visit) : Prop :=
  let path := Join root (vi_rel v) in
  path = root ∨ vi_kind v = Some Directory ∨ (Dir path = root ∧ String.prefix evacuationContentPrefix (Base path) = true) ∨
  ∃ d, Clean d ∈ branches ∧ lies_below d path = true.

Lemma entry_left_none root vs : entry_left root vs = None → ∀ v, v ∈ vs → vi_err v = None ∧ vi_kind v = Some Directory.
Proof.
  induction vs as [|v vs IH]; cbn [entry_left]; [set_solver|]. destruct (vi_err v) eqn:Hv; [done|]. case_bool_decide; [|done].
  intros H' v' [->|Hin]%elem_of_cons; auto.
Qed.
Lemma leftover_none root branches vs : ∀ skipped, leftover root branches vs skipped = None →
  (∀ d, d ∈ skipped → Clean d ∈ branches) →
  (∀ v, v ∈ vs → Clean (Join root (vi_rel v)) ∈ branches → vi_kind v = Some Directory) → ∀ v, v ∈ vs → may_stay root branches v.
Proof.
  induction vs as [|v vs IH]; intros skipped Hl Hsk Hdirs; cbn [leftover] in Hl; [set_solver|].
  assert (∀ sk, leftover root branches vs sk = None → (∀ d, d ∈ sk → Clean d ∈ branches) → may_stay root branches v →
    ∀ v', v' ∈ v :: vs → may_stay root branches v') as Hnext.
  { intros sk Hsk1 Hsk2 Hv v' [->|Hin]%elem_of_cons; [done|]. eapply IH; try done. intros v0 H0. apply Hdirs. by right. }
  destruct (existsb _ skipped) eqn:Hb.
  { apply existsb_exists in Hb as (d&Hd%list_elem_of_In&Hbelow). apply (Hnext skipped Hl Hsk). do 3 right. exists d. auto. }
  destruct (vi_err v); [done|]. case_bool_decide as Hroot; [apply (Hnext skipped Hl Hsk); by left|].
  case_bool_decide as Hbr.
  { pose proof (Hdirs v ltac:(by left) Hbr) as Hd. rewrite bool_decide_true in Hl by done.
    eapply Hnext; [exact Hl| |right; by left]. intros d [->|Hin]%elem_of_cons; auto. }
  case_bool_decide as Hk; [apply (Hnext skipped Hl Hsk); right; by left|].
  destruct (bool_decide _ && _) eqn:Hc; [|done]. apply andb_true_iff in Hc as [Hdir%bool_decide_eq_true Hp].
  apply (Hnext skipped Hl Hsk). right. right. left. auto.
Qed.

Section check.
Context (env : environment sys os_answer) (disk : string) (shares : list Share).

Lemma check_branches_cwp bs : ∀ tr, cwp only_looks (check_branches env bs) tr (λ r made, ∃ x, r = Ok x ∧
  (x = None → ∀ b, b ∈ bs → emptied made b)).
Proof.
  induction bs as [|b bs IH]; intros tr; cbn [check_branches]; [apply cwp_ret; eexists; split; [done|]; intros _ b []%elem_of_nil|].
  apply cwp_bind. eapply cwp_mono with (Q := λ r made, ∃ x, r = Ok x ∧ (x = None → emptied made b)).
  { unfold checkOnlyEmptyDirs. apply cwp_bind, cwp_sys; [done|]. intros st. destruct (os_err st) as [e|] eqn:Hst.
    - apply cwp_ret. eexists. split; [done|]. destruct (err_is e S_NotExist) eqn:He; [|done]. intros _. left. exists st, e.
      split_and!; [by left|done|done].
    - apply cwp_bind, cwp_sys; [done|]. intros w. apply cwp_ret. eexists. split; [done|]. intros Hw. right. exists w.
      split; [by right; left|]. by eapply entry_left_none. }
  intros r m1 (x&->&Hx). destruct x as [e|]; [by apply cwp_ret; eexists|]. specialize (Hx eq_refl).
  eapply cwp_mono; [apply IH|]. intros r m2 (x&->&H). exists x. split; [done|]. intros Hn b' [->|Hin]%elem_of_cons.
  - eapply emptied_mono, Hx. apply subseteq_app_l.
  - eapply emptied_mono, H; [apply subseteq_app_r|done|done].
Qed.

(** What a check that passed has seen: every branch missing or with nothing but
    directories, and the disk missing or walked, with nothing else on it outside the
    branches but directories and SnapRAID's content files at its root. *)
Definition passed (made : trace) : Prop :=
  (∀ b, b ∈ branches_on disk shares → emptied made b) ∧
  (missing made disk ∨ ∃ w, (SVisit (Clean disk), w) ∈ made ∧
     ((∀ v, v ∈ os_visits w → Clean (Join (Clean disk) (vi_rel v)) ∈ map Clean (branches_on disk shares) → vi_kind v = Some Directory) →
      ∀ v, v ∈ os_visits w → may_stay (Clean disk) (map Clean (branches_on disk shares)) v)).
Lemma passed_mono made made' : made ⊆ made' → passed made → passed made'.
Proof.
  intros Hs [H1 H2]. split; [intros b Hb; by eapply emptied_mono, H1|].
  destruct H2 as [H|(w&Hw&H)]; [left; by eapply missing_mono|right; exists w; auto].
Qed.
Lemma makes_PostCheck env' d ss : makes env' (λ _, True) (EvacuationPostCheck env' d ss).
Proof.
  unfold EvacuationPostCheck, nonShareLeftover, sys_call. apply makes_bind; [|intros ?; body_makes; done].
  induction (branches_on d ss) as [|b bs IH]; cbn [check_branches]; [apply makes_ret|].
  unfold checkOnlyEmptyDirs, sys_call. apply makes_bind; [by body_makes|]. intros [?|]; [apply makes_ret|exact IH].
Qed.
Lemma EvacuationPostCheck_cwp tr :
  cwp only_looks (EvacuationPostCheck env disk shares) tr (λ r made, ∃ x, r = Ok x ∧ (x = None → passed made)).
Proof.
  unfold EvacuationPostCheck. apply cwp_bind. eapply cwp_mono; [apply check_branches_cwp|]. intros r m1 (x&->&Hx).
  destruct x as [e|]; [by apply cwp_ret; eexists|]. specialize (Hx eq_refl).
  assert (∀ m2 b, b ∈ branches_on disk shares → emptied (m1 ++ m2) b) as Hbs.
  { intros m2 b Hb. eapply emptied_mono, Hx; [apply subseteq_app_l|done]. }
  unfold nonShareLeftover. apply cwp_bind, cwp_bind, cwp_sys; [done|]. intros st. destruct (os_err st) as [e|] eqn:Hst.
  - apply cwp_ret. destruct (err_is e S_NotExist) eqn:He; apply cwp_ret; eexists; (split; [done|]); [|done]. intros _.
    split; [apply Hbs|]. left. exists st, e. split_and!; [|done|done]. apply elem_of_app. right. by left.
  - apply cwp_bind, cwp_sys; [done|]. intros w. apply cwp_ret, cwp_ret. eexists. split; [done|].
    destruct (leftover _ _ _ _) eqn:Hl; [done|]. intros _. split; [apply Hbs|]. right. exists w.
    split; [apply elem_of_app; right; by right; left|]. intros Hdirs. apply (leftover_none _ _ _ [] Hl); [by intros d []%elem_of_nil|exact Hdirs].
Qed.

(** The check after an evacuation always answers and only reads, and passes a
    disk only when each branch of a share on it was missing or held nothing but
    directories, and a walk of the whole disk found outside the branches nothing
    but directories and SnapRAID's content files at its root. *)
Theorem passed_disk_is_empty tr :
  ∃ x made, EvacuationPostCheck env disk shares tr = (Ok x, tr ++ made) ∧ Forall (λ p, looks p.1) made ∧
    (x = None →
      (∀ s b, s ∈ shares → b ∈ sh_Branches s → Dir b = disk → emptied made b) ∧
      (missing made disk ∨ ∃ w, (SVisit (Clean disk), w) ∈ made ∧
         ((∀ v, v ∈ os_visits w → Clean (Join (Clean disk) (vi_rel v)) ∈ map Clean (branches_on disk shares) → vi_kind v = Some Directory) →
          ∀ v, v ∈ os_visits w → may_stay (Clean disk) (map Clean (branches_on disk shares)) v))).
Proof.
  destruct (EvacuationPostCheck_cwp tr) as (made&Hs&Hg&x&Hr&Hx).
  destruct (EvacuationPostCheck _ _ _ tr) as [r w]. cbn in *. subst r w. exists x, made. split_and!; [done| |].
  { apply Forall_forall. intros [c a] (before&after&->)%list_elem_of_split. by eapply Hg. }
  intros ->. destruct (Hx eq_refl) as [H1 H2]. split; [|exact H2].
  intros s b Hin Hb Hd. apply H1. apply list_elem_of_filter. split; [done|]. apply list_elem_of_In, in_concat. exists (sh_Branches s).
  split; [apply in_map|]; by apply list_elem_of_In.
Qed.
End check.

(** Disk d1 is evacuated: two files of one share and one of another go to d2 and d3. *)
Module DemoEvacuate.
Definition tree (b : string) : list (string * Z) :=
  if bool_decide (b = "/d1/media") then [("a", 250); ("b", 30)] else if bool_decide (b = "/d1/docs") then [("c", 120)] else [].
Definition env (rest : string → list (string * Z)) : environment sys os_answer := λ _ e,
  match e with
  | SUsage b => mkOsAnswer None 0 (DemoPlan.file 0) "" [] 1000 false [] [] (if bool_decide (Dir b = "/d2") then 600 else 500) (b64 0)
  | SWalkDir root => mkOsAnswer None 0 (DemoPlan.file 0) "" [] 0 false (map (λ p, (p.1, false)) (rest root)) [] 0 (b64 0)
  | SVisit root =>
      mkOsAnswer None 0 (DemoPlan.file 0) "" [] 0 false []
        (mkVisit "." (Some Directory) None :: map (λ p, mkVisit p.1 (Some Regular) None) (rest root)) 0 (b64 0)
  | SReadDir _ => mkOsAnswer None 0 (DemoPlan.file 0) "" [] 0 false [("docs", true); ("media", true); ("snapraid.content", false)] [] 0 (b64 0)
  | SLstat path =>
      answered None 0 (DemoPlan.file (from_option snd 0 (list_find (λ p, Join (Dir path) p.1 = path) (rest (Dir path)) ≫= λ q, Some q.2))) "" [] 0 false []
  | _ => answered None 0 (DemoPlan.file 0) "" [] 0 false []
  end.
Definition media : Share := mkShare "media" "/cache/media" "/array/media" ["/d1/media"; "/d2/media"; "/d3/media"] 200 [] false.
Definition docs : Share := mkShare "docs" "/cache/docs" "/array/docs" ["/d1/docs"; "/d2/docs"; "/d3/docs"] 100 [] false.
Definition run := PlanEvacuation (env tree) DemoPlan.sort "/d1" [media; docs].
End DemoEvacuate.
Example demo_evacuates :
  match (DemoEvacuate.run []).1 with
  | Ok (plan, None) =>
      map (λ m, (Join (rm_SourceBranch m) (rm_RelPath m), rm_TargetBranch m)) (rp_Moves plan)
      = [("/d1/media/a", "/d2/media"); ("/d1/media/b", "/d3/media"); ("/d1/docs/c", "/d3/docs")]
  | _ => False
  end.
Proof. vm_compute. reflexivity. Qed.
(** With the files still there the check fails, without them it passes. *)
Example demo_checked :
  (∃ e, (EvacuationPostCheck (DemoEvacuate.env DemoEvacuate.tree) "/d1" [DemoEvacuate.media; DemoEvacuate.docs] []).1 = Ok (Some e)) ∧
  (EvacuationPostCheck (DemoEvacuate.env (λ _, [])) "/d1" [DemoEvacuate.media; DemoEvacuate.docs] []).1 = Ok None.
Proof. split; [eexists|]; vm_compute; reflexivity. Qed.

Lemma demo_shares : Forall well_formed [DemoEvacuate.media; DemoEvacuate.docs].
Proof.
  repeat constructor; try (vm_compute; congruence); apply (bool_decide_unpack _); vm_compute; exact I.
Qed.
Lemma evacuation_plan_is_complete_witness :
  ∃ plan per made, DemoEvacuate.run [] = (Ok (plan, None), made) ∧ sane made ∧ length (rp_Moves plan) = 3%nat ∧
    rp_Moves plan = concat per ∧ Forall2 (share_evacuated made "/d1") [DemoEvacuate.media; DemoEvacuate.docs] per.
Proof.
  destruct (evacuation_plan_is_complete (DemoEvacuate.env DemoEvacuate.tree) DemoPlan.sort "/d1" [DemoEvacuate.media; DemoEvacuate.docs] []
    (λ l, merge_sort_Permutation _ l) demo_shares) as (plan&e&made&Hrun&_&_&H).
  assert (made = (DemoEvacuate.run []).2) as Hmade by (unfold DemoEvacuate.run; by rewrite Hrun).
  assert (Ok (plan, e) = (DemoEvacuate.run []).1) as Hr by (unfold DemoEvacuate.run; by rewrite Hrun).
  vm_compute in Hr. injection Hr as -> ->. destruct (H eq_refl) as (_&per&Hper&Hall&_).
  eexists _, per, made. split; [exact Hrun|]. split; [|split; [reflexivity|split; [exact Hper|exact Hall]]].
  apply sane_computed. rewrite Hmade. vm_compute. reflexivity.
Defined.
