(* ===== verification/ArrayStore.v ===== *)
(** * The array's topology in the database

    [internal/store/array.go]: the rows of [array_disks], the singleton row of
    [array_settings], and the statements the methods of [ArrayStore] run on them,
    each of which can fail. A NULL text is the empty string, as the code reads it.
    The rows a migration records are not kept. *)
From S2P Require Export Calls GoPath.
Open Scope string_scope.
Open Scope list_scope.
Open Scope Z_scope.

Definition ArrayRoleParity : string := "parity".
Definition ArrayRoleData : string := "data".
Definition ArrayRoleCache : string := "cache".
Definition RemovalStateEvacuating : string := "evacuating".
Definition RemovalStateEvacuated : string := "evacuated".
Definition RemovalStateUnpooled : string := "unpooled".
Definition RemovalStateUnlisted : string := "unlisted".

Definition ErrNoArray : err := EOther "store: no array topology".
Definition ErrArrayExists : err := EOther "store: array topology already exists".
Definition ErrArrayDiskExists : err := EOther "store: a disk already occupies that device, filesystem or mountpoint".
Definition ErrArrayDiskNotFound : err := EOther "store: no data disk at that mountpoint".
Definition ErrArrayParityDiskNotFound : err := EOther "store: no parity disk at that mountpoint".
Definition ErrAnotherDiskRemoving : err := EOther "store: another disk is already in removal".
Definition ErrDiskLeavingArray : err := EOther "store: the disk is already leaving the array".
Definition ErrRemovalStateMismatch : err := EOther "store: the disk's removal state is not the one this step expects".

Record ArraySettings := mkSettings { as_CreatePolicy : string; as_MinFreeSpace : string; as_MigrationPending : bool }.
Record ArrayDisk := mkArrayDisk {
  ad_Role : string;
  ad_RoleIndex : Z;
  ad_Device : string;
  ad_Filesystem : string;
  ad_FSUUID : string;
  ad_WWN : string;
  ad_Serial : string;
  ad_ByIDName : string;
  ad_WeakIdentity : bool;
  ad_Mountpoint : string;
  ad_Size : option Z;
  ad_RemovalState : string;
  ad_RemovalJobID : string;
  ad_MountSource : string
}.
#[export] Instance ArrayDisk_eq_dec : EqDecision ArrayDisk.
Proof. solve_decision. Defined.

Definition LeavingArray (d : ArrayDisk) : bool := negb (bool_decide (ad_RemovalState d = "")).
Definition LeftPool (d : ArrayDisk) : bool :=
  bool_decide (ad_RemovalState d = RemovalStateUnpooled) || bool_decide (ad_RemovalState d = RemovalStateUnlisted).

Definition with_removal (state job : string) (d : ArrayDisk) : ArrayDisk :=
  mkArrayDisk (ad_Role d) (ad_RoleIndex d) (ad_Device d) (ad_Filesystem d) (ad_FSUUID d) (ad_WWN d) (ad_Serial d) (ad_ByIDName d)
    (ad_WeakIdentity d) (ad_Mountpoint d) (ad_Size d) state job (ad_MountSource d).
(** The row with the identity of [n]. *)
Definition with_identity (n d : ArrayDisk) : ArrayDisk :=
  mkArrayDisk (ad_Role d) (ad_RoleIndex d) (ad_Device n) (ad_Filesystem n) (ad_FSUUID n) (ad_WWN n) (ad_Serial n) (ad_ByIDName n)
    (ad_WeakIdentity n) (ad_Mountpoint d) (ad_Size n) (ad_RemovalState d) (ad_RemovalJobID d) "".
Definition with_parity (n d : ArrayDisk) : ArrayDisk :=
  mkArrayDisk (ad_Role d) (ad_RoleIndex d) (ad_Device n) (ad_Filesystem n) (ad_FSUUID n) (ad_WWN n) (ad_Serial n) (ad_ByIDName n)
    (ad_WeakIdentity n) (ad_Mountpoint n) (ad_Size n) (ad_RemovalState d) (ad_RemovalJobID d) (ad_MountSource d).
(** The columns an insert writes. *)
Definition inserted (role source : string) (d : ArrayDisk) : ArrayDisk :=
  mkArrayDisk role (ad_RoleIndex d) (ad_Device d) (ad_Filesystem d) (ad_FSUUID d) (ad_WWN d) (ad_Serial d) (ad_ByIDName d)
    (ad_WeakIdentity d) (ad_Mountpoint d) (ad_Size d) "" "" source.

(** ** The table's constraints *)
Definition removal_states : list string := ["evacuating"; "evacuated"; "unpooled"; "unlisted"].
Definition row_checked (d : ArrayDisk) : bool :=
  bool_decide (ad_Role d ∈ ["parity"; "data"; "cache"]) && (1 <=? ad_RoleIndex d) &&
  bool_decide (ad_RemovalState d ∈ "" :: removal_states).
Definition distinct_rows (rows : list ArrayDisk) : bool :=
  bool_decide (NoDup (map (λ d, (ad_Role d, ad_RoleIndex d)) rows)) && bool_decide (NoDup (map ad_Device rows)) &&
  bool_decide (NoDup (map ad_FSUUID rows)) && bool_decide (NoDup (map ad_Mountpoint rows)).
(** What a statement that leaves these rows fails with. *)
Definition violation (rows : list ArrayDisk) : option err :=
  if negb (forallb row_checked rows) then Some (EOther "CHECK constraint failed: array_disks")
  else if negb (distinct_rows rows) then Some (EOther "UNIQUE constraint failed: array_disks") else None.
Definition isUniqueConstraint (e : err) : bool := Contains (err_string e) "UNIQUE constraint".

Definition role_rank (role : string) : Z :=
  if bool_decide (role = "parity") then 1 else if bool_decide (role = "data") then 2 else if bool_decide (role = "cache") then 3 else 4.
(** [ORDER BY] of [ListArrayDisks] *)
Definition listed_before (a b : ArrayDisk) : Prop :=
  role_rank (ad_Role a) < role_rank (ad_Role b) ∨ role_rank (ad_Role a) = role_rank (ad_Role b) ∧ ad_RoleIndex a ≤ ad_RoleIndex b.
#[export] Instance listed_before_dec a b : Decision (listed_before a b).
Proof. unfold listed_before. apply _. Defined.

(** ** Statements

    The database: the rows, the settings row, and how many statements have run. *)
Record db := mkDb { db_rows : list ArrayDisk; db_settings : option ArraySettings; db_run : nat }.
Abbreviation S := (stM db err).

Section store.
Context (fault : nat → option err).

Definition statement : stM db err unit := λ w,
  (match fault (db_run w) with Some e => Err e | None => Ok tt end, mkDb (db_rows w) (db_settings w) (1 + db_run w)%nat).
Definition put_rows (rows : list ArrayDisk) : S unit :=
  match violation rows with Some e => throw e | None => modify (λ w, mkDb rows (db_settings w) (db_run w)) end.
(** [UPDATE array_disks SET f WHERE p], [INSERT] and [DELETE]; the number of rows. *)
Definition exec_update (p : ArrayDisk → bool) (f : ArrayDisk → ArrayDisk) : S nat :=
  _ ← statement; w ← get;
  _ ← put_rows (map (λ d, if p d then f d else d) (db_rows w));
  mret (length (List.filter p (db_rows w))).
(** [UPDATE array_disks SET removal_state = state, removal_job_id = job WHERE p], of a
    state that is not NULL. *)
Definition exec_mark (p : ArrayDisk → bool) (state job : string) : S nat :=
  if bool_decide (state ∈ removal_states) then exec_update p (with_removal state job)
  else _ ← statement; w ← get; if existsb p (db_rows w) then throw (EOther "CHECK constraint failed: array_disks") else mret 0%nat.
Definition exec_insert (d : ArrayDisk) : S unit := _ ← statement; w ← get; put_rows (db_rows w ++ [d]).
Definition exec_delete (p : ArrayDisk → bool) : S nat :=
  _ ← statement; w ← get;
  _ ← put_rows (List.filter (λ d, negb (p d)) (db_rows w));
  mret (length (List.filter p (db_rows w))).

(** [BeginTx], the body, [Commit]; what failed is rolled back. *)
Definition transaction {A} (beginning committing : string) (body : S A) : S A := λ w,
  match (_ ← wrapping beginning statement; a ← body; _ ← wrapping committing statement; mret a) w with
  | (Ok a, w') => (Ok a, w')
  | (Err e, w') => (Err e, mkDb (db_rows w) (db_settings w) (db_run w'))
  end.

(** The error of an insert or an update of identities. *)
Definition unique_as {A} (d : ArrayDisk) (pre : string) (m : S A) : S A := λ w,
  match m w with
  | (Ok a, w') => (Ok a, w')
  | (Err e, w') => (Err (if isUniqueConstraint e then EWrap "" ErrArrayDiskExists (": " +:+ ad_Device d) else wrap pre e), w')
  end.

(** [GetRemovingArrayDisk], [GetArrayDataDiskByMountpoint] *)
Definition first_removing (rows : list ArrayDisk) : option ArrayDisk := List.find LeavingArray rows.
Definition is_data_at (mountpoint : string) (d : ArrayDisk) : bool :=
  bool_decide (ad_Mountpoint d = mountpoint) && bool_decide (ad_Role d = ArrayRoleData).

(** ** The methods *)
Definition Exists : S bool := _ ← statement; w ← get; mret (match db_settings w with Some _ => true | None => false end).

Definition put (settings : ArraySettings) (disks : list ArrayDisk) : S unit :=
  exists_ ← Exists;
  if exists_ : bool then throw ErrArrayExists
  else transaction "store: beginning array topology transaction: " "store: committing array topology: "
    (_ ← wrapping "store: inserting array settings: " statement;
     _ ← modify (λ w, mkDb (db_rows w) (Some settings) (db_run w));
     each (λ d, wrapping ("store: inserting array disk " +:+ ad_Device d +:+ ": ") (exec_insert (inserted (ad_Role d) (ad_MountSource d) d))) disks).

Definition GetArray : S (ArraySettings * list ArrayDisk) :=
  _ ← statement; w ← get;
  match db_settings w with
  | None => throw ErrNoArray
  | Some settings => _ ← statement; w ← get; mret (settings, merge_sort listed_before (db_rows w))
  end.

Definition AddDataDisk (d : ArrayDisk) : S unit :=
  exists_ ← Exists;
  if negb exists_ then throw ErrNoArray
  else unique_as d ("store: inserting data disk " +:+ ad_Device d +:+ ": ") (exec_insert (inserted ArrayRoleData "" d)).

Definition GetDataDiskByMountpoint (mountpoint : string) : S ArrayDisk :=
  _ ← statement; w ← get;
  match List.find (is_data_at mountpoint) (db_rows w) with Some d => mret d | None => throw ErrArrayDiskNotFound end.

Definition ReplaceDataDisk (mountpoint : string) (d : ArrayDisk) : S unit :=
  n ← unique_as d ("store: replacing data disk at " +:+ mountpoint +:+ ": ") (exec_update (is_data_at mountpoint) (with_identity d));
  if bool_decide (n = 0%nat) then throw ErrArrayDiskNotFound else mret tt.

Definition ReplaceDataDiskAbandoningRemoval (mountpoint : string) (d : ArrayDisk) : S unit :=
  n ← unique_as d ("store: replacing data disk at " +:+ mountpoint +:+ " while abandoning its removal: ")
        (exec_update (λ r, is_data_at mountpoint r && bool_decide (ad_RemovalState r ∈ ["evacuated"; "unpooled"]))
           (λ r, with_removal "" "" (with_identity d r)));
  if bool_decide (n = 0%nat) then throw ErrArrayDiskNotFound else mret tt.

Definition UpgradeParityDisk (oldMountpoint : string) (d : ArrayDisk) : S unit :=
  n ← unique_as d ("store: upgrading parity disk at " +:+ oldMountpoint +:+ ": ")
        (exec_update (λ r, bool_decide (ad_Mountpoint r = oldMountpoint) && bool_decide (ad_Role r = ArrayRoleParity)) (with_parity d));
  if bool_decide (n = 0%nat) then throw ErrArrayParityDiskNotFound else mret tt.

Definition SetRemovalState (mountpoint state jobID : string) : S unit :=
  if bool_decide (jobID = "") then throw (EOther ("store: marking " +:+ mountpoint +:+ " " +:+ state +:+ ": no job id"))
  else transaction "store: beginning removal-state transaction: " "store: committing removal-state change: "
    (_ ← wrapping "store: reading the current removing disk: " statement; w ← get;
     let mark :=
       n ← wrapping ("store: marking " +:+ mountpoint +:+ " " +:+ state +:+ ": ")
             (exec_mark (is_data_at mountpoint) state jobID);
       if bool_decide (n = 0%nat) then throw ErrArrayDiskNotFound else mret tt in
     match first_removing (db_rows w) with
     | None => mark
     | Some current =>
         if negb (bool_decide (ad_Mountpoint current = mountpoint))
         then throw (EWrap "" ErrAnotherDiskRemoving (": " +:+ ad_Mountpoint current))
         else if LeftPool current
         then throw (EWrap "" ErrDiskLeavingArray (": " +:+ mountpoint +:+ " is " +:+ ad_RemovalState current))
         else mark
     end).

Definition in_removal (states : list string) (d : ArrayDisk) : bool := LeavingArray d && bool_decide (ad_RemovalState d ∈ states).
Definition AdvanceRemovalState (mountpoint from to jobID : string) : S unit :=
  if bool_decide (jobID = "") then throw (EOther ("store: marking " +:+ mountpoint +:+ " " +:+ to +:+ ": no job id"))
  else
    n ← wrapping ("store: marking " +:+ mountpoint +:+ " " +:+ to +:+ ": ")
          (exec_mark (λ d, is_data_at mountpoint d && in_removal [from; to] d) to jobID);
    if bool_decide (n = 0%nat)
    then throw (EWrap "" ErrRemovalStateMismatch (": " +:+ mountpoint +:+ " is not " +:+ from +:+ " or " +:+ to)) else mret tt.

Definition DeleteUnlistedDataDisk (mountpoint : string) : S unit :=
  n ← wrapping ("store: deleting data disk " +:+ mountpoint +:+ ": ")
        (exec_delete (λ d, is_data_at mountpoint d && bool_decide (ad_RemovalState d = RemovalStateUnlisted)));
  if bool_decide (n = 0%nat) then
    _ ← GetDataDiskByMountpoint mountpoint;
    throw (EWrap "" ErrRemovalStateMismatch (": " +:+ mountpoint +:+ " is not " +:+ RemovalStateUnlisted))
  else mret tt.

Definition ReleaseRemovalState (mountpoint jobID : string) : S bool :=
  if bool_decide (jobID = "") then throw (EOther ("store: releasing removal state at " +:+ mountpoint +:+ ": no job id"))
  else
    n ← wrapping ("store: releasing removal state at " +:+ mountpoint +:+ ": ")
          (exec_update (λ d, is_data_at mountpoint d && in_removal [RemovalStateEvacuating] d && bool_decide (ad_RemovalJobID d = jobID))
             (with_removal "" ""));
    mret (negb (bool_decide (n = 0%nat))).

Definition CancelRemovalState (mountpoint expectedState expectedJobID : string) : S bool :=
  n ← wrapping ("store: cancelling removal state at " +:+ mountpoint +:+ ": ")
        (exec_update (λ d, is_data_at mountpoint d && in_removal ["evacuating"; "evacuated"] d &&
           bool_decide (ad_RemovalState d = expectedState) && bool_decide (ad_RemovalJobID d = expectedJobID)) (with_removal "" ""));
  mret (negb (bool_decide (n = 0%nat))).

(** The mountpoint and the state of the disk in removal, empty when none is. *)
Definition RemovingDisk : S (string * string) :=
  _ ← wrapping "store: reading the current removing disk: " statement; w ← get;
  mret (match first_removing (db_rows w) with Some d => (ad_Mountpoint d, ad_RemovalState d) | None => ("", "") end).

Definition DeletePendingArray : S bool :=
  transaction "store: beginning pending-array deletion: " "store: committing pending-array deletion: "
    (_ ← wrapping "store: deleting the pending array's disks: " statement; w ← get;
     let pending := match db_settings w with Some s => as_MigrationPending s | None => false end in
     _ ← modify (λ w, if pending then mkDb [] (db_settings w) (db_run w) else w);
     _ ← wrapping "store: deleting the pending array: " statement;
     _ ← modify (λ w, if pending then mkDb (db_rows w) None (db_run w) else w);
     mret pending).
End store.

(** ** Calls of the methods *)
Inductive store_op :=
  | OpPut (settings : ArraySettings) (disks : list ArrayDisk)
  | OpGetArray
  | OpAddDataDisk (d : ArrayDisk)
  | OpReplace (mountpoint : string) (d : ArrayDisk)
  | OpReplaceAbandoning (mountpoint : string) (d : ArrayDisk)
  | OpUpgradeParity (mountpoint : string) (d : ArrayDisk)
  | OpSet (mountpoint state job : string)
  | OpAdvance (mountpoint from to job : string)
  | OpDelete (mountpoint : string)
  | OpRelease (mountpoint job : string)
  | OpCancel (mountpoint state job : string)
  | OpRemovingDisk
  | OpDeletePending.
(** What a method returns: its error, the disks or a yes. *)
Record store_answer := mkStoreAnswer { st_err : option err; st_settings : option ArraySettings; st_disks : list ArrayDisk; st_yes : bool }.
Definition exec (fault : nat → option err) (op : store_op) : db → store_answer * db := λ w,
  let plain (m : S unit) := let (r, w') := m w in (mkStoreAnswer (err_of r) None [] false, w') in
  let yes (m : S bool) := let (r, w') := m w in (mkStoreAnswer (err_of r) None [] (match r with Ok b => b | Err _ => false end), w') in
  match op with
  | OpPut settings disks => plain (put fault settings disks)
  | OpGetArray =>
      let (r, w') := GetArray fault w in
      (match r with Ok (s, ds) => mkStoreAnswer None (Some s) ds false | Err e => mkStoreAnswer (Some e) None [] false end, w')
  | OpAddDataDisk d => plain (AddDataDisk fault d)
  | OpReplace mp d => plain (ReplaceDataDisk fault mp d)
  | OpReplaceAbandoning mp d => plain (ReplaceDataDiskAbandoningRemoval fault mp d)
  | OpUpgradeParity mp d => plain (UpgradeParityDisk fault mp d)
  | OpSet mp state job => plain (SetRemovalState fault mp state job)
  | OpAdvance mp from to job => plain (AdvanceRemovalState fault mp from to job)
  | OpDelete mp => plain (DeleteUnlistedDataDisk fault mp)
  | OpRelease mp job => yes (ReleaseRemovalState fault mp job)
  | OpCancel mp state job => yes (CancelRemovalState fault mp state job)
  | OpRemovingDisk => let (r, w') := RemovingDisk fault w in (mkStoreAnswer (err_of r) None [] false, w')
  | OpDeletePending => yes (DeletePendingArray fault)
  end.

(** ** Triples over the rows *)
Definition tri {A} (P : list ArrayDisk → Prop) (m : S A) (Q : res err A → list ArrayDisk → Prop) : Prop :=
  ∀ w, P (db_rows w) → Q (m w).1 (db_rows (m w).2).

Section triples.
Context (fault : nat → option err).
Implicit Types (P : list ArrayDisk → Prop).

Lemma tri_ret {A} P (a : A) (Q : res err A → _) : (∀ rows, P rows → Q (Ok a) rows) → tri P (mret a) Q.
Proof. intros H w Hw. by apply H. Qed.
Lemma tri_throw {A} P e (Q : res err A → _) : (∀ rows, P rows → Q (Err e) rows) → tri P (throw e) Q.
Proof. intros H w Hw. by apply H. Qed.
Lemma tri_bind {A B} P (m : S A) (k : A → S B) (R : A → list ArrayDisk → Prop) Q :
  tri P m (λ r rows, match r with Ok a => R a rows | Err e => Q (Err e) rows end) → (∀ a, tri (R a) (k a) Q) → tri P (m ≫= k) Q.
Proof.
  intros Hm Hk w Hw. specialize (Hm w Hw). unfold mbind, stM_bind. destruct (m w) as [[a|e] w']; [by apply Hk|done].
Qed.
Lemma tri_get {B} P (k : db → S B) Q : (∀ w, P (db_rows w) → tri (eq (db_rows w)) (k w) Q) → tri P (get ≫= k) Q.
Proof. intros H w Hw. unfold mbind, stM_bind, get. by apply H. Qed.
Lemma tri_wrapping {A} P pre (m : S A) (Q : res err A → _) :
  tri P m (λ r rows, match r with Ok a => Q (Ok a) rows | Err e => Q (Err (wrap pre e)) rows end) → tri P (wrapping pre m) Q.
Proof. intros H w Hw. specialize (H w Hw). unfold wrapping. by destruct (m w) as [[a|e] w']. Qed.
Lemma tri_unique {A} P d pre (m : S A) (Q : res err A → _) :
  tri P m (λ r rows, match r with Ok a => Q (Ok a) rows | Err _ => ∀ e, Q (Err e) rows end) → tri P (unique_as d pre m) Q.
Proof. intros H w Hw. specialize (H w Hw). unfold unique_as. destruct (m w) as [[a|e] w']; cbn in *; [done|apply H]. Qed.
Lemma tri_statement P : tri P (statement fault) (λ _, P).
Proof. intros w Hw. done. Qed.
Lemma tri_mono {A} P P' (m : S A) (Q Q' : res err A → _) :
  tri P m Q → (∀ rows, P' rows → P rows) → (∀ r rows, Q r rows → Q' r rows) → tri P' m Q'.
Proof. intros H H1 H2 w Hw. apply H2, H, H1, Hw. Qed.

(** What a statement leaves, given that it kept the constraints. *)
Lemma tri_update P p f (Q : res err nat → _) :
  (∀ rows, P rows → (∀ e, Q (Err e) rows) ∧
     (violation (map (λ d, if p d : bool then f d else d) rows) = None →
      Q (Ok (length (List.filter p rows))) (map (λ d, if p d then f d else d) rows))) →
  tri P (exec_update fault p f) Q.
Proof.
  intros H w Hw. destruct (H _ Hw) as [He Ho]. unfold exec_update, statement, mbind, stM_bind, get, put_rows. cbn.
  destruct (fault (db_run w)); [apply He|]. destruct (violation _) eqn:Hv; [apply He|]. cbn. by apply Ho.
Qed.
Lemma tri_mark P p state job (Q : res err nat → _) :
  (∀ rows, P rows → (∀ e, Q (Err e) rows) ∧ (existsb p rows = false → Q (Ok 0%nat) rows) ∧
     (state ∈ removal_states → violation (map (λ d, if p d : bool then with_removal state job d else d) rows) = None →
      Q (Ok (length (List.filter p rows))) (map (λ d, if p d then with_removal state job d else d) rows))) →
  tri P (exec_mark fault p state job) Q.
Proof.
  intros H. unfold exec_mark. case_bool_decide as Hs.
  - apply tri_update. intros rows Hw. destruct (H _ Hw) as (He&_&Ho). auto.
  - intros w Hw. destruct (H _ Hw) as (He&Hn&_). unfold statement, mbind, stM_bind, get. cbn.
    destruct (fault (db_run w)); [apply He|]. cbn. destruct (existsb p (db_rows w)) eqn:E; [apply He|by apply Hn].
Qed.
Lemma tri_insert P d (Q : res err unit → _) :
  (∀ rows, P rows → (∀ e, Q (Err e) rows) ∧ (violation (rows ++ [d]) = None → Q (Ok tt) (rows ++ [d]))) → tri P (exec_insert fault d) Q.
Proof.
  intros H w Hw. destruct (H _ Hw) as [He Ho]. unfold exec_insert, statement, mbind, stM_bind, get, put_rows. cbn.
  destruct (fault (db_run w)); [apply He|]. cbn. destruct (violation _) eqn:Hv; [apply He|]. cbn. by apply Ho.
Qed.
Lemma tri_delete P p (Q : res err nat → _) :
  (∀ rows, P rows → (∀ e, Q (Err e) rows) ∧
     (violation (List.filter (λ d, negb (p d)) rows) = None → Q (Ok (length (List.filter p rows))) (List.filter (λ d, negb (p d)) rows))) →
  tri P (exec_delete fault p) Q.
Proof.
  intros H w Hw. destruct (H _ Hw) as [He Ho]. unfold exec_delete, statement, mbind, stM_bind, get, put_rows. cbn.
  destruct (fault (db_run w)); [apply He|]. cbn. destruct (violation _) eqn:Hv; [apply He|]. cbn. by apply Ho.
Qed.
(** A transaction is all or nothing. *)
Lemma tri_transaction {A} P pre pre' (body : S A) (Q : res err A → _) :
  (∀ e rows, P rows → Q (Err e) rows) → tri P body (λ r rows, match r with Ok a => Q (Ok a) rows | Err _ => True end) →
  tri P (transaction fault pre pre' body) Q.
Proof.
  intros He Hb w Hw. unfold transaction. specialize (Hb (mkDb (db_rows w) (db_settings w) (1 + db_run w)) Hw).
  unfold mbind, stM_bind, wrapping, statement. destruct (fault (db_run w)); [by apply He|]. cbn in *.
  destruct (body _) as [[a|e] w']; cbn in *; [|by apply He]. destruct (fault (db_run w')); cbn; [by apply He|done].
Qed.
End triples.
