(* ===== verification/ArrayStoreInv.v ===== *)
(** * What the rows of the array keep

    Whatever the methods of [ArrayStore] are called with, in any order, and
    whichever statements fail: the table's constraints hold, a removal state is one
    of its four values and has a holder, and one disk at most is in removal. A disk
    becomes unlisted only by the step that says so, and then stays unlisted until its
    row is deleted. *)
From S2P Require Export ArrayStore.
Open Scope string_scope.
Open Scope list_scope.
Open Scope Z_scope.

(** A row's removal state and its holder. *)
Record held_well (d : ArrayDisk) : Prop := mkHeld {
  hw_state : ad_RemovalState d = "" ∨ ad_RemovalState d ∈ removal_states;
  hw_holder : ad_RemovalState d = "" ↔ ad_RemovalJobID d = "";
  hw_data : LeavingArray d = true → ad_Role d = ArrayRoleData
}.
(** The only rows in removal are those at one mountpoint. *)
Definition removing_at (mp : string) (rows : list ArrayDisk) : Prop := ∀ d, d ∈ rows → LeavingArray d = true → ad_Mountpoint d = mp.
Record well_kept (rows : list ArrayDisk) : Prop := mkKept {
  wk_constraints : violation rows = None;
  wk_held : ∀ d, d ∈ rows → held_well d;
  wk_one : ∃ mp, removing_at mp rows
}.

Lemma leaving_iff d : LeavingArray d = true ↔ ad_RemovalState d ≠ "".
Proof. unfold LeavingArray. rewrite negb_true_iff, bool_decide_eq_false. done. Qed.
Lemma data_at_iff mp d : is_data_at mp d = true ↔ ad_Mountpoint d = mp ∧ ad_Role d = ArrayRoleData.
Proof. unfold is_data_at. by rewrite andb_true_iff, !bool_decide_eq_true. Qed.
Lemma in_removal_iff states d : in_removal states d = true ↔ LeavingArray d = true ∧ ad_RemovalState d ∈ states.
Proof. unfold in_removal. by rewrite andb_true_iff, bool_decide_eq_true. Qed.

Lemma existsb_no {A} (p : A → bool) l a : existsb p l = false → a ∈ l → p a = false.
Proof. intros H Ha. destruct (p a) eqn:E; [|done]. rewrite <-H. symmetry. apply existsb_exists. exists a. by rewrite <-list_elem_of_In. Qed.
Lemma first_removing_some rows d : first_removing rows = Some d → d ∈ rows ∧ LeavingArray d = true.
Proof. intros [H1 H2]%find_some. by rewrite list_elem_of_In. Qed.
Lemma first_removing_none rows : first_removing rows = None → ∀ mp, removing_at mp rows.
Proof. intros H mp d Hd Hl. exfalso. pose proof (find_none _ _ H d) as Hn. rewrite Hl in Hn. discriminate Hn. by apply list_elem_of_In. Qed.
(** The only mountpoint in removal is that of a row in removal. *)
Lemma kept_removing rows d : well_kept rows → d ∈ rows → LeavingArray d = true → removing_at (ad_Mountpoint d) rows.
Proof. intros [_ _ (mp&H)] Hd Hl d' Hd' Hl'. by rewrite (H d'), (H d). Qed.

(** Mountpoints are distinct. *)
Lemma kept_same rows d d' : well_kept rows → d ∈ rows → d' ∈ rows → ad_Mountpoint d = ad_Mountpoint d' → d = d'.
Proof.
  intros [Hv _ _] [i Hi]%list_elem_of_lookup [j Hj]%list_elem_of_lookup Hm. unfold violation in Hv.
  destruct (forallb _ _); [|done]. cbn in Hv. destruct (distinct_rows _) eqn:Hdis; [|done].
  unfold distinct_rows in Hdis. rewrite !andb_true_iff, !bool_decide_eq_true in Hdis. destruct Hdis as [_ Hnd].
  assert (i = j) as ->; [|congruence].
  eapply NoDup_lookup; [exact Hnd|rewrite list_lookup_fmap, Hi; done|rewrite list_lookup_fmap, Hj; cbn; by f_equal].
Qed.

Definition unlisted (d : ArrayDisk) : Prop := ad_Role d = ArrayRoleData ∧ ad_RemovalState d = RemovalStateUnlisted.
Definition unlisted_at (mp : string) (rows : list ArrayDisk) : Prop := ∃ d, d ∈ rows ∧ unlisted d ∧ ad_Mountpoint d = mp.
Lemma unlisted_leaving d : unlisted d → LeavingArray d = true.
Proof. intros [_ H]. apply leaving_iff. by rewrite H. Qed.

(** One step of the table: [marks] and [drops] are the mountpoints it may make
    unlisted, and those whose unlisted row it may lose. *)
Section step.
Context (marks drops : string → Prop).
Record step (rows rows' : list ArrayDisk) : Prop := mkStep {
  sp_kept : well_kept rows';
  sp_new : ∀ mp, unlisted_at mp rows' → unlisted_at mp rows ∨ marks mp;
  sp_old : ∀ mp, unlisted_at mp rows → unlisted_at mp rows' ∨ drops mp
}.
Lemma step_refl rows : well_kept rows → step rows rows.
Proof. intros H. split; [done|by left..]. Qed.
Lemma step_trans rows1 rows2 rows3 : step rows1 rows2 → step rows2 rows3 → step rows1 rows3.
Proof.
  intros [_ H1 H2] [H3 H4 H5]. split; [done| |].
  - intros mp [?|?]%H4; [by apply H1|by right].
  - intros mp [?|?]%H2; [by apply H5|by right].
Qed.

(** Leaving a removal state alone, or clearing one that is not "unlisted". *)
Definition tames (d d' : ArrayDisk) : Prop :=
  ad_Role d' = ad_Role d ∧
  (ad_RemovalState d' = "" ∧ ad_RemovalJobID d' = "" ∧ ad_RemovalState d ≠ RemovalStateUnlisted ∨
   ad_RemovalState d' = ad_RemovalState d ∧ ad_RemovalJobID d' = ad_RemovalJobID d ∧ (LeavingArray d = true → ad_Mountpoint d' = ad_Mountpoint d)).
Lemma tames_held d d' : tames d d' → held_well d → held_well d'.
Proof.
  intros [Hr [(Hs&Hj&_)|(Hs&Hj&_)]] [H1 H2 H3]; constructor; rewrite ?leaving_iff, ?Hs, ?Hj, ?Hr; try done; [by left|].
  by rewrite <-leaving_iff.
Qed.
Lemma tames_leaving d d' : tames d d' → LeavingArray d' = true →
  LeavingArray d = true ∧ ad_Mountpoint d' = ad_Mountpoint d ∧ ad_RemovalState d' = ad_RemovalState d.
Proof.
  rewrite !leaving_iff. intros [_ [[Hs _]|(Hs&_&Hm)]] Hl; [done|]. rewrite Hs in Hl. split_and!; [done| |done]. by apply Hm, leaving_iff.
Qed.
Lemma step_tamed g rows : well_kept rows → violation (map g rows) = None → (∀ d, d ∈ rows → tames d (g d)) → step rows (map g rows).
Proof.
  intros [_ Hh (mp&Hone)] Hv Ht. split.
  - constructor; [done| |].
    + intros d' (d&->&Hd)%list_elem_of_fmap. by eapply tames_held; [apply Ht|apply Hh].
    + exists mp. intros d' (d&->&Hd)%list_elem_of_fmap Hl. apply (tames_leaving d) in Hl as (Hl&->&_); [by apply Hone|by apply Ht].
  - intros m (d'&(d&->&Hd)%list_elem_of_fmap&Hu&<-). left. exists d. pose proof (Ht d Hd) as Htd.
    destruct (tames_leaving _ _ Htd (unlisted_leaving _ Hu)) as (_&Hm&Hs). destruct Hu as [Hr Hun], Htd as [Hr' _].
    rewrite Hr' in Hr. rewrite Hs in Hun. split_and!; [done|by split|done].
  - intros m (d&Hd&Hu&<-). left. exists (g d). split; [by apply list_elem_of_fmap_2|]. destruct (Ht d Hd) as [Hr [(_&_&Hn)|(Hs&_&Hm)]].
    + by destruct Hu as [_ ?].
    + specialize (Hm (unlisted_leaving _ Hu)). destruct Hu as [Hu1 Hu2]. split; [by split; congruence|done].
Qed.
(** Marking one mountpoint's row when no other row is in removal. *)
Lemma step_marked (p : ArrayDisk → bool) mp state job rows : well_kept rows →
  (∀ d, d ∈ rows → p d = true → ad_Mountpoint d = mp ∧ ad_Role d = ArrayRoleData ∧ (unlisted d → state = RemovalStateUnlisted ∨ drops mp)) →
  removing_at mp rows → state ∈ removal_states → job ≠ "" → (state = RemovalStateUnlisted → marks mp) →
  violation (map (λ d, if p d then with_removal state job d else d) rows) = None →
  step rows (map (λ d, if p d then with_removal state job d else d) rows).
Proof.
  intros [_ Hh _] Hp Hone Hs Hj Hmk Hv. split.
  - constructor; [done| |].
    + intros d' (d&->&Hd)%list_elem_of_fmap. destruct (p d) eqn:Hpd; [|by apply Hh]. apply Hp in Hpd as (_&Hr&_); [|done].
      constructor; cbn; [by right| |done]. split; [|done]. intros ->. set_solver.
    + exists mp. intros d' (d&->&Hd)%list_elem_of_fmap. destruct (p d) eqn:Hpd; [|by apply Hone]. by apply Hp in Hpd as [? _].
  - intros m (d'&(d&->&Hd)%list_elem_of_fmap&Hu&<-). destruct (p d) eqn:Hpd; [|left; by exists d].
    right. apply Hp in Hpd as (Hm&_); [|done]. cbn. rewrite Hm. apply Hmk. apply Hu.
  - intros m (d&Hd&Hu&<-). destruct (p d) eqn:Hpd.
    + destruct (Hp d Hd Hpd) as (Hm&Hr&Hd'). destruct (Hd' Hu) as [->|]; [|right; by rewrite Hm].
      left. exists (with_removal RemovalStateUnlisted job d). split; [|by split].
      apply list_elem_of_fmap. exists d. by rewrite Hpd.
    + left. exists d. split; [|by split]. apply list_elem_of_fmap. exists d. by rewrite Hpd.
Qed.
Lemma step_filtered p rows : well_kept rows → violation (List.filter p rows) = None →
  (∀ d, d ∈ rows → unlisted d → p d = false → drops (ad_Mountpoint d)) → step rows (List.filter p rows).
Proof.
  assert (∀ d, d ∈ List.filter p rows ↔ d ∈ rows ∧ p d = true) as Hsub by (intros d; rewrite !list_elem_of_In, filter_In; tauto).
  intros [_ Hh (mp&Hone)] Hv Hp. split.
  - constructor; [done|intros d [? _]%Hsub; by apply Hh|]. exists mp. intros d [? _]%Hsub. by apply Hone.
  - intros m (d&[Hd _]%Hsub&Hu&Hm). left. by exists d.
  - intros m (d&Hd&Hu&<-). destruct (p d) eqn:Hpd; [|right; by apply Hp]. left. exists d. by rewrite Hsub.
Qed.
Lemma step_inserted role source d rows : well_kept rows → violation (rows ++ [inserted role source d]) = None →
  step rows (rows ++ [inserted role source d]).
Proof.
  intros [_ Hh (mp&Hone)] Hv. split.
  - constructor; [done| |].
    + intros d' [Hd|Hd%list_elem_of_singleton]%elem_of_app; [by apply Hh|subst]. by constructor; cbn; [left|..].
    + exists mp. intros d' [Hd|Hd%list_elem_of_singleton]%elem_of_app; [by apply Hone|by subst].
  - intros m (d'&[Hd|Hd%list_elem_of_singleton]%elem_of_app&Hu&Hm); [left; by exists d'|]. subst. by destruct Hu.
  - intros m (d'&Hd&H). left. exists d'. rewrite elem_of_app. auto.
Qed.
Lemma step_empty rows : (∀ mp, drops mp) → step rows [].
Proof.
  intros H. split; [|intros mp (d&[]%elem_of_nil&_)|by right]. by constructor; [..|exists ""]; try intros ? ?%elem_of_nil.
Qed.

(** ** The methods *)
Context (fault : nat → option err).
Definition keeps {A} (m : stM db err A) : Prop := ∀ rows, well_kept rows → tri (eq rows) m (λ _, step rows).

Lemma rows_kept_bind {A B} (m : stM db err A) (k : A → stM db err B) : keeps m → (∀ a, keeps (k a)) → keeps (m ≫= k).
Proof.
  intros Hm Hk rows Hw. eapply tri_bind with (R := λ _, step rows).
  - eapply tri_mono; [by apply Hm|done|]. by intros [] ?.
  - intros a w Hs. eapply step_trans; [exact Hs|]. apply (Hk a); [apply Hs|done].
Qed.
Lemma keeps_wrapping {A} pre (m : stM db err A) : keeps m → keeps (wrapping pre m).
Proof. intros Hm rows Hw. apply tri_wrapping. eapply tri_mono; [by apply Hm|done|]. by intros [] ?. Qed.
Lemma keeps_unique {A} d pre (m : stM db err A) : keeps m → keeps (unique_as d pre m).
Proof. intros Hm rows Hw. apply tri_unique. eapply tri_mono; [by apply Hm|done|]. by intros [] ?. Qed.
Lemma rows_kept_throw {A} e : keeps (throw e : stM db err A).
Proof. intros rows Hw. apply tri_throw. intros r Hr. subst. by apply step_refl. Qed.
Lemma rows_kept_ret {A} (a : A) : keeps (mret a).
Proof. intros rows Hw. apply tri_ret. intros r Hr. subst. by apply step_refl. Qed.
Lemma keeps_statement : keeps (statement fault).
Proof. intros rows Hw w Hr. subst rows. by apply step_refl. Qed.
Lemma keeps_get {A} (k : db → stM db err A) : (∀ w, keeps (k w)) → keeps (get ≫= k).
Proof. intros Hk rows Hw. apply tri_get. intros w E. subst rows. by apply Hk. Qed.
Lemma keeps_transaction {A} pre pre' (m : stM db err A) : keeps m → keeps (transaction fault pre pre' m).
Proof.
  intros Hm rows Hw. apply tri_transaction; [intros e r Hr; subst; by apply step_refl|].
  eapply tri_mono; [by apply Hm|done|]. by intros [] ?.
Qed.
Lemma keeps_update p f : (∀ d, held_well d → p d = true → tames d (f d)) → keeps (exec_update fault p f).
Proof.
  intros Hp rows Hw. apply tri_update. intros r Hr. subst r. split; [intros; by apply step_refl|].
  intros Hv. apply step_tamed; [done..|]. intros d Hd. destruct (p d) eqn:E; [apply Hp; [by apply Hw|done]|]. split; [done|]. by right.
Qed.
Lemma keeps_if {A} (b : bool) (m m' : stM db err A) : keeps m → keeps m' → keeps (if b then m else m').
Proof. by destruct b. Qed.
Lemma keeps_insert role source d : keeps (exec_insert fault (inserted role source d)).
Proof. intros rows Hw. apply tri_insert. intros r Hr. subst r. split; [intros; by apply step_refl|]. by apply step_inserted. Qed.
End step.

(** A method that is a chain of these. *)
Ltac keeping :=
  repeat first
    [ simple apply keeps_if | simple apply rows_kept_ret | simple apply rows_kept_throw | simple apply keeps_statement | simple apply keeps_insert | simple apply keeps_wrapping | simple apply keeps_unique
    | simple apply keeps_transaction | simple apply keeps_get; intros ? | simple apply rows_kept_bind; [|intros ?] | case_match ].

(** What the methods may make unlisted, and whose unlisted row they may lose. *)
Definition marks (op : store_op) (mp : string) : Prop :=
  match op with
  | OpSet m state _ | OpAdvance m _ state _ => m = mp ∧ state = RemovalStateUnlisted
  | _ => False
  end.
Definition drops (op : store_op) (mp : string) : Prop :=
  match op with
  | OpDelete m => m = mp
  | OpAdvance m from _ _ => m = mp ∧ from = RemovalStateUnlisted
  | OpDeletePending => True
  | _ => False
  end.

Section methods.
Context (fault : nat → option err).

Lemma tames_identity n d : tames d (with_identity n d).
Proof. split; [done|]. by right. Qed.
Lemma tames_clear d : ad_RemovalState d ≠ RemovalStateUnlisted → tames d (with_removal "" "" d).
Proof. intros H. split; [done|]. by left. Qed.

Lemma keeps_SetRemovalState mp state job : keeps (marks (OpSet mp state job)) (λ _, False) (SetRemovalState fault mp state job).
Proof.
  unfold SetRemovalState. case_bool_decide as Hj; [apply rows_kept_throw|]. apply keeps_transaction, rows_kept_bind; [keeping|]. intros _ rows Hw.
  apply tri_get. intros w Hr. subst rows.
  assert (∀ rows, well_kept rows → removing_at mp rows → (∀ d, d ∈ rows → unlisted d → ad_Mountpoint d = mp → False) →
    tri (eq rows) (n ← wrapping ("store: marking " +:+ mp +:+ " " +:+ state +:+ ": ") (exec_mark fault (is_data_at mp) state job);
       if bool_decide (n = 0%nat) then throw ErrArrayDiskNotFound else mret tt) (λ _, step (marks (OpSet mp state job)) (λ _, False) rows)) as Hmark.
  { intros rows Hrows Hone Hnot. eapply tri_bind with (R := λ _, step (marks (OpSet mp state job)) (λ _, False) rows).
    - apply tri_wrapping, tri_mark. intros r Hr. subst r. split_and!; [intros; by apply step_refl..|]. intros Hs Hv.
      apply step_marked with mp; try done. intros d Hd [Hm Hro]%data_at_iff. split_and!; [done..|]. intros Hu. exfalso. by eapply Hnot.
    - intros n w' Hs. case_bool_decide; exact Hs. }
  destruct (first_removing _) as [d|] eqn:Hf.
  - apply first_removing_some in Hf as [Hd Hl]. case_bool_decide as Hmp; cbn [negb]; [|by apply rows_kept_throw].
    destruct (LeftPool d) eqn:Hlp; [by apply rows_kept_throw|]. subst mp. apply Hmark; [done|by apply kept_removing|].
    intros d' Hd' Hu Hm. rewrite (kept_same _ d' d Hw Hd' Hd Hm) in Hu.
    destruct Hu as [_ Hu]. unfold LeftPool in Hlp. rewrite Hu in Hlp. vm_compute in Hlp. done.
  - apply Hmark; [done|by apply first_removing_none|]. intros d Hd Hu _. apply unlisted_leaving in Hu.
    pose proof (first_removing_none _ Hf "" d Hd Hu). pose proof (first_removing_none _ Hf "x" d Hd Hu). congruence.
Qed.
Lemma keeps_AdvanceRemovalState mp from to job :
  keeps (marks (OpAdvance mp from to job)) (drops (OpAdvance mp from to job)) (AdvanceRemovalState fault mp from to job).
Proof.
  unfold AdvanceRemovalState. case_bool_decide as Hj; [apply rows_kept_throw|]. apply rows_kept_bind; [|intros n; keeping]. apply keeps_wrapping.
  intros rows Hw. apply tri_mark. intros r Hr. subst r. split_and!; [intros; by apply step_refl..|]. intros Hs Hv.
  assert (∀ d, is_data_at mp d && in_removal [from; to] d = true →
    ad_Mountpoint d = mp ∧ ad_Role d = ArrayRoleData ∧ LeavingArray d = true ∧ ad_RemovalState d ∈ [from; to]) as Hp.
  { intros d [?%data_at_iff Hin%in_removal_iff]%andb_true_iff. tauto. }
  destruct (existsb (λ d, is_data_at mp d && in_removal [from; to] d) rows) eqn:He.
  - apply existsb_exists in He as (d&Hd%list_elem_of_In&Hm). pose proof (Hp d Hm) as (<-&Hr&Hl&_).
    apply step_marked with (ad_Mountpoint d); try done; [|by apply kept_removing]. intros d' _ (Hm'&Hr'&_&Hin)%Hp. split_and!; [done..|].
    intros [_ Hu]. rewrite Hu in Hin. apply elem_of_cons in Hin as [Hin|Hin%list_elem_of_singleton]; [right; by split|by left].
  - apply step_tamed; [done..|]. intros d Hd. rewrite (existsb_no _ _ _ He Hd). split; [done|]. by right.
Qed.
Lemma keeps_DeleteUnlistedDataDisk mp : keeps (λ _, False) (drops (OpDelete mp)) (DeleteUnlistedDataDisk fault mp).
Proof.
  unfold DeleteUnlistedDataDisk, GetDataDiskByMountpoint. apply rows_kept_bind; [|intros n; keeping]. apply keeps_wrapping. intros rows Hw.
  apply tri_delete. intros r Hr. subst r. split; [intros; by apply step_refl|]. intros Hv. apply step_filtered; [done..|].
  intros d _ _ [[Hm _]%data_at_iff _]%negb_false_iff%andb_true_iff. done.
Qed.
Lemma keeps_put settings disks : keeps (λ _, False) (λ _, False) (put fault settings disks).
Proof.
  unfold put, Exists. keeping.
  - intros rows Hw w' Hr. subst rows. by apply step_refl.
  - induction disks as [|d disks IH]; cbn [each]; [apply rows_kept_ret|]. apply rows_kept_bind; [|done]. keeping.
Qed.
Lemma keeps_DeletePendingArray : keeps (λ _, False) (λ _, True) (DeletePendingArray fault).
Proof.
  unfold DeletePendingArray. keeping; intros rows Hw w' Hr; subst rows; cbn; repeat case_match; try (by apply step_refl); by apply step_empty.
Qed.

Lemma keeps_replacing p f d pre e : (∀ r, held_well r → p r = true → tames r (f r)) →
  keeps (λ _, False) (λ _, False) (n ← unique_as d pre (exec_update fault p f); if bool_decide (n = 0%nat) then throw e else mret tt).
Proof. intros Hp. apply rows_kept_bind; [by apply keeps_unique, keeps_update|]. intros n. keeping. Qed.
Lemma keeps_clearing p pre : (∀ r, p r = true → ad_RemovalState r ≠ RemovalStateUnlisted) →
  keeps (λ _, False) (λ _, False) (n ← wrapping pre (exec_update fault p (with_removal "" "")); mret (negb (bool_decide (n = 0%nat)))).
Proof. intros Hp. apply rows_kept_bind; [apply keeps_wrapping, keeps_update; auto using tames_clear|]. intros n. keeping. Qed.

(** Every method is a step of the table. *)
Lemma exec_step op w : well_kept (db_rows w) → step (marks op) (drops op) (db_rows w) (db_rows (exec fault op w).2).
Proof.
  intros Hw.
  assert (∀ {A} (m : stM db err A) mk dr, keeps mk dr m → step mk dr (db_rows w) (db_rows (m w).2)) as Hk.
  { intros A m mk dr H. by apply (H (db_rows w) Hw w). }
  destruct op; cbn [exec].
  - pose proof (Hk _ _ _ _ (keeps_put settings disks)) as H. by destruct (put _ _ _ w).
  - assert (keeps (λ _, False) (λ _, False) (GetArray fault)) as H%Hk by (unfold GetArray; keeping). by destruct (GetArray _ w) as [[[]|]].
  - assert (keeps (λ _, False) (λ _, False) (AddDataDisk fault d)) as H%Hk by (unfold AddDataDisk, Exists; keeping). by destruct (AddDataDisk _ _ w).
  - assert (keeps (λ _, False) (λ _, False) (ReplaceDataDisk fault mountpoint d)) as H%Hk.
    { apply keeps_replacing. intros r _ _. apply tames_identity. }
    by destruct (ReplaceDataDisk _ _ _ w).
  - assert (keeps (λ _, False) (λ _, False) (ReplaceDataDiskAbandoningRemoval fault mountpoint d)) as H%Hk.
    { apply keeps_replacing. intros r _ [_ Hin%bool_decide_eq_true]%andb_true_iff. split; [done|]. left. split_and!; [done..|].
      intros Hu. rewrite Hu in Hin. set_solver. }
    by destruct (ReplaceDataDiskAbandoningRemoval _ _ _ w).
  - assert (keeps (λ _, False) (λ _, False) (UpgradeParityDisk fault mountpoint d)) as H%Hk.
    { apply keeps_replacing. intros r Hr [_ Hro%bool_decide_eq_true]%andb_true_iff. split; [done|]. right. split_and!; [done..|].
      intros Hl. apply (hw_data _ Hr) in Hl. by rewrite Hro in Hl. }
    by destruct (UpgradeParityDisk _ _ _ w).
  - pose proof (Hk _ _ _ _ (keeps_SetRemovalState mountpoint state job)) as H. by destruct (SetRemovalState _ _ _ _ w).
  - pose proof (Hk _ _ _ _ (keeps_AdvanceRemovalState mountpoint from to job)) as H. by destruct (AdvanceRemovalState _ _ _ _ _ w).
  - pose proof (Hk _ _ _ _ (keeps_DeleteUnlistedDataDisk mountpoint)) as H. by destruct (DeleteUnlistedDataDisk _ _ w).
  - assert (keeps (λ _, False) (λ _, False) (ReleaseRemovalState fault mountpoint job)) as H%Hk.
    { unfold ReleaseRemovalState. apply keeps_if; [apply rows_kept_throw|]. apply keeps_clearing.
      intros r [[_ [_ Hin]%in_removal_iff]%andb_true_iff _]%andb_true_iff Hu. rewrite Hu in Hin. set_solver. }
    by destruct (ReleaseRemovalState _ _ _ w).
  - assert (keeps (λ _, False) (λ _, False) (CancelRemovalState fault mountpoint state job)) as H%Hk.
    { apply keeps_clearing. intros r [[[_ [_ Hin]%in_removal_iff]%andb_true_iff _]%andb_true_iff _]%andb_true_iff Hu. rewrite Hu in Hin. set_solver. }
    by destruct (CancelRemovalState _ _ _ _ w).
  - assert (keeps (λ _, False) (λ _, False) (RemovingDisk fault)) as H%Hk by (unfold RemovingDisk; keeping). by destruct (RemovingDisk _ w).
  - pose proof (Hk _ _ _ _ keeps_DeletePendingArray) as H. by destruct (DeletePendingArray _ w).
Qed.

End methods.

(** ** Any sequence of calls *)
Inductive used : list store_op → db → db → Prop :=
  | used_none w : used [] w w
  | used_one op ops w f w' : used ops (exec f op w).2 w' → used (op :: ops) w w'.
Lemma kept_empty : well_kept [].
Proof. by constructor; [..|exists ""]; try intros ? ?%elem_of_nil. Qed.

Lemma used_step ops w w' : used ops w w' → well_kept (db_rows w) →
  step (λ mp, ∃ op, op ∈ ops ∧ marks op mp) (λ mp, ∃ op, op ∈ ops ∧ drops op mp) (db_rows w) (db_rows w').
Proof.
  induction 1 as [w|op ops w f w' _ IH]; intros Hw; [by apply step_refl|].
  pose proof (exec_step f op w Hw) as Hs. destruct (IH (sp_kept _ _ _ _ Hs)) as [H1 H2 H3]. destruct Hs as [_ H4 H5]. split; [done| |].
  - intros mp [[?|?]%H4|(op'&?&?)]%H2; [by left|right; exists op|right; exists op']; by rewrite elem_of_cons; auto.
  - intros mp [[?|(op'&?&?)]%H3|?]%H5; [by left|right; exists op'|right; exists op]; by rewrite elem_of_cons; auto.
Qed.

Lemma removal_kept ops w w' : used ops w w' → well_kept (db_rows w) → well_kept (db_rows w').
Proof. intros Hu Hw. apply (used_step _ _ _ Hu Hw). Qed.

(** C30: Whatever the methods are called with, in any order, and whichever
    statements fail: the rows keep the table's constraints; a removal state is one of
    the four, on a data disk and held by a job; one disk at most is in removal; a disk
    becomes unlisted only by a call that marks it so; and an unlisted disk stays
    unlisted until its row is deleted or moved on explicitly. *)
Theorem removals_are_kept ops w w' : used ops w w' → well_kept (db_rows w) →
  violation (db_rows w') = None ∧ (∀ d, d ∈ db_rows w' → held_well d) ∧
  (∀ d d', d ∈ db_rows w' → d' ∈ db_rows w' → LeavingArray d = true → LeavingArray d' = true → d = d') ∧
  (∀ mp, unlisted_at mp (db_rows w') → unlisted_at mp (db_rows w) ∨ ∃ op, op ∈ ops ∧ marks op mp) ∧
  (∀ mp, unlisted_at mp (db_rows w) → unlisted_at mp (db_rows w') ∨ ∃ op, op ∈ ops ∧ drops op mp).
Proof.
  intros Hused Hw. destruct (used_step _ _ _ Hused Hw) as [Hk Hn Ho].
  split_and!; try done; [apply Hk|apply Hk|]. intros d d' Hd Hd' Hl Hl'. eapply kept_same; [exact Hk|done|done|].
  symmetry. by apply (kept_removing _ _ Hk Hd).
Qed.

(** A disk is evacuated, taken out of the pool and of snapraid.conf. *)
Module DemoStore.
Definition disk (n : Z) (dev mp : string) : ArrayDisk := mkArrayDisk "data" n dev "xfs" dev "" "" "" false mp None "" "" "".
Definition ops : list store_op :=
  [OpPut (mkSettings "mfs" "" false) [disk 1 "/dev/sda" "/mnt/disk1"; disk 2 "/dev/sdb" "/mnt/disk2"];
   OpSet "/mnt/disk1" "evacuating" "j1"; OpSet "/mnt/disk2" "evacuating" "j2"; OpSet "/mnt/disk1" "evacuated" "j1";
   OpAdvance "/mnt/disk1" "evacuated" "unpooled" "j3"; OpAdvance "/mnt/disk1" "unpooled" "unlisted" "j3"].
Fixpoint all (ops : list store_op) (w : db) : db := match ops with [] => w | op :: ops => all ops (exec (λ _, None) op w).2 end.
Definition last : db := all ops (mkDb [] None 0).
End DemoStore.
Lemma demo_used ops : ∀ w, used ops w (DemoStore.all ops w).
Proof. induction ops as [|op ops IH]; intros w; [constructor|]. cbn. econstructor. apply IH. Qed.

Lemma removals_are_kept_witness :
  map ad_RemovalState (db_rows DemoStore.last) = ["unlisted"; ""] ∧
  ∃ op, op ∈ DemoStore.ops ∧ marks op "/mnt/disk1".
Proof.
  split; [vm_compute; reflexivity|].
  destruct (removals_are_kept DemoStore.ops (mkDb [] None 0) DemoStore.last (demo_used _ _) kept_empty) as (_&_&_&Hn&_).
  destruct (Hn "/mnt/disk1") as [(d&Hd&_)|H]; [|by apply elem_of_nil in Hd|exact H].
  exists (with_removal "unlisted" "j3" (DemoStore.disk 1 "/dev/sda" "/mnt/disk1")). split; [|by repeat split].
  apply (bool_decide_unpack _). vm_compute. exact I.
Defined.
