(* ===== verification/Layout.v ===== *)
(** * The array's layout

    [internal/parity/layout.go]: where parity and the copies of the content file go,
    and the text of snapraid.conf; and from [internal/job/array_apply.go] the layout
    and the pool that the rows of the database stand for. *)
From stdpp Require Import pretty.
From S2P Require Import GoNumber.
From S2P Require Export ArrayStore.
Open Scope string_scope.
Open Scope list_scope.
Open Scope Z_scope.

Definition parityFileName : string := "snapraid.parity".
Definition contentFileName : string := "snapraid.content".
Definition BootContentPath : string := "/var/lib/hoserva/snapraid.content".
Definition DefaultExcludes : list string :=
  ["/lost+found/"; "/.Trash-*/"; "/appdata/"; "*.unrecoverable"; "/snapraid.content*"; "*.hoserva-moving-*"; ".DS_Store"].
Definition ErrNoParityDisks : err := EOther "parity: at least one parity disk is required (Q19)".
Definition ErrTooManyParityDisks : err := EOther "parity: at most two parity disks are supported in v1 (Q19)".
Definition ErrNoDataDisks : err := EOther "parity: at least one data disk is required".
Definition ErrContentPlacement : err := EOther "parity: cannot place enough content file copies on distinct physical devices (Q18)".
Definition ErrEmptyMount : err := EOther "parity: a mount path is empty".
Definition ErrDuplicateMount : err := EOther "parity: the same mount path is assigned more than one role".
Definition ErrInvalidRoleIndex : err := EOther "parity: a data disk's role_index must be 1 or greater".
Definition ErrDuplicateRoleIndex : err := EOther "parity: two data disks share the same role_index".

Record DataMount := mkDataMount { dm_RoleIndex : Z; dm_Mountpoint : string }.
Record Layout := mkLayout {
  l_ParityMounts : list string;
  l_DataMounts : list DataMount;
  l_CacheMount : string;
  l_CacheOnBootDevice : bool;
  l_Excludes : option (list string)
}.

(** ** Validation *)
Definition assign (seen : gmap string string) (role path : string) : res err (gmap string string) :=
  if bool_decide (path = "") then Err (EWrap "" ErrEmptyMount (": " +:+ role))
  else
    let clean := Clean path in
    match seen !! clean with
    | Some other => Err (EWrap "" ErrDuplicateMount (": " +:+ other +:+ " and " +:+ role +:+ " both target " +:+ clean))
    | None => Ok (<[clean := role]> seen)
    end.
Fixpoint assign_parity (i : Z) (mounts : list string) (seen : gmap string string) : res err (gmap string string) :=
  match mounts with
  | [] => Ok seen
  | m :: rest =>
      match assign seen ("parity mount " +:+ pretty (i + 1)) m with Ok seen => assign_parity (i + 1) rest seen | Err e => Err e end
  end.
Fixpoint assign_data (i : Z) (mounts : list DataMount) (seen : gmap string string) (indices : gset Z) : res err (gmap string string) :=
  match mounts with
  | [] => Ok seen
  | m :: rest =>
      match assign seen ("data mount " +:+ pretty (i + 1)) (dm_Mountpoint m) with
      | Err e => Err e
      | Ok seen =>
          if dm_RoleIndex m <? 1
          then Err (EWrap "" ErrInvalidRoleIndex (": data mount " +:+ pretty (i + 1) +:+ " (" +:+ dm_Mountpoint m +:+ ")"))
          else if bool_decide (dm_RoleIndex m ∈ indices)
          then Err (EWrap "" ErrDuplicateRoleIndex (": role_index " +:+ pretty (dm_RoleIndex m)))
          else assign_data (i + 1) rest seen ({[dm_RoleIndex m]} ∪ indices)
      end
  end.
Definition Validate (l : Layout) : option err :=
  if bool_decide (l_ParityMounts l = []) then Some ErrNoParityDisks
  else if 2 <? Z.of_nat (length (l_ParityMounts l)) then Some ErrTooManyParityDisks
  else match l_DataMounts l with
  | [] => Some ErrNoDataDisks
  | _ =>
      match assign_parity 0 (l_ParityMounts l) ∅ with
      | Err e => Some e
      | Ok seen =>
          match assign_data 0 (l_DataMounts l) seen ∅ with
          | Err e => Some e
          | Ok seen => if bool_decide (l_CacheMount l = "") then None else err_of (assign seen "cache mount" (l_CacheMount l))
          end
      end
  end.

(** ** The copies of the content file *)
Fixpoint place_on_data (min : nat) (mounts : list DataMount) (paths : list string) : list string :=
  match mounts with
  | [] => paths
  | m :: rest =>
      if (length paths <? min)%nat then place_on_data min rest (paths ++ [Join (dm_Mountpoint m) contentFileName]) else paths
  end.
Fixpoint first_repeated (seen : gset string) (paths : list string) : option string :=
  match paths with
  | [] => None
  | p :: rest => if bool_decide (p ∈ seen) then Some p else first_repeated ({[p]} ∪ seen) rest
  end.
Definition ContentPaths (l : Layout) : res err (list string) :=
  match Validate l with
  | Some e => Err e
  | None =>
      let min := (length (l_ParityMounts l) + 2)%nat in
      let paths := BootContentPath ::
        (if negb (bool_decide (l_CacheMount l = "")) && negb (l_CacheOnBootDevice l) then [Join (l_CacheMount l) contentFileName] else []) in
      let paths := place_on_data min (l_DataMounts l) paths in
      if (length paths <? min)%nat
      then Err (EWrap "" ErrContentPlacement (": only " +:+ pretty (Z.of_nat (length paths)) +:+ " of " +:+ pretty (Z.of_nat min)
                  +:+ " required copies placeable across the assigned disks"))
      else match first_repeated ∅ paths with
      | Some p => Err (EWrap "" ErrDuplicateMount (": content path " +:+ p +:+ " placed more than once"))
      | None => Ok paths
      end
  end.

(** ** snapraid.conf *)
Definition newline : string := String "010"%char EmptyString.
Definition parityDirective (i : Z) : string := if i =? 0 then "parity" else pretty (i + 1) +:+ "-parity".
Definition ensureTrailingSlash (path : string) : string :=
  if bool_decide (trim_right slash path = path) then path +:+ "/" else path.
Definition parity_lines (mounts : list string) : list string :=
  imap (λ i mount, parityDirective (Z.of_nat i) +:+ " " +:+ Join mount parityFileName) mounts.
Definition data_line (m : DataMount) : string := "data d" +:+ pretty (dm_RoleIndex m) +:+ " " +:+ ensureTrailingSlash (dm_Mountpoint m).
Definition conf_lines (l : Layout) (contentPaths : list string) : list string :=
  parity_lines (l_ParityMounts l) ++ map (λ c, "content " +:+ c) contentPaths ++ map data_line (l_DataMounts l)
  ++ map (λ e, "exclude " +:+ e) (from_option id DefaultExcludes (l_Excludes l)).
Definition Render (l : Layout) : res err string :=
  match Validate l with
  | Some e => Err e
  | None =>
      match ContentPaths l with
      | Err e => Err e
      | Ok contentPaths => Ok (foldr (λ line text, line +:+ newline +:+ text) "" (conf_lines l contentPaths))
      end
  end.
Definition ParityFilePath (mount : string) : string := Join mount parityFileName.

(** ** From the rows of the database *)
Fixpoint trailing_digits (s : string) : string :=
  match s with
  | EmptyString => EmptyString
  | String c s' => if str_forallb isDigit s then s else trailing_digits s'
  end.
Definition without_suffix (s suffix : string) : string := String.substring 0 (String.length s - String.length suffix) s.
Definition last_char (s : string) : option Ascii.ascii := String.get (String.length s - 1) s.
(** [^(.+[0-9])p([0-9]+)$] and [^(.+[a-zA-Z])([0-9]+)$] of a name without newlines *)
Definition nvmeStylePartition (base : string) : option string :=
  let digits := trailing_digits base in
  let rest := without_suffix base digits in
  let m := without_suffix rest "p" in
  if negb (bool_decide (digits = "")) && bool_decide (last_char rest = Some "p"%char) && (2 <=? String.length m)%nat
     && from_option isDigit false (last_char m)
  then Some m else None.
Definition letterStylePartition (base : string) : option string :=
  let digits := trailing_digits base in
  let m := without_suffix base digits in
  if negb (bool_decide (digits = "")) && (2 <=? String.length m)%nat && from_option (λ c, isUpper c || isLower c) false (last_char m)
  then Some m else None.
Definition WholeDiskDevice (dev : string) : string :=
  let (dir, base) := split_last dev in
  let whole o := match o with Some m => dir +:+ m | None => dev end in
  if String.prefix "nvme" base || String.prefix "mmcblk" base || String.prefix "loop" base
  then whole (nvmeStylePartition base) else whole (letterStylePartition base).
Definition looksLikePartition (dev : string) : bool := negb (bool_decide (WholeDiskDevice dev = dev)).
(** [-part\d+$] *)
Definition partitionByIDSuffix (name : string) : bool :=
  let digits := trailing_digits name in
  let rest := without_suffix name digits in
  negb (bool_decide (digits = "")) && bool_decide (String.substring (String.length rest - 5) 5 rest = "-part") && (5 <=? String.length rest)%nat.
Definition IsPartition (device byIDName : string) : bool :=
  looksLikePartition device || partitionByIDSuffix byIDName || partitionByIDSuffix (Base device).

Definition add_to_layout (l : Layout) (d : ArrayDisk) : Layout :=
  if bool_decide (ad_Role d = ArrayRoleParity) then
    mkLayout (l_ParityMounts l ++ [ad_Mountpoint d]) (l_DataMounts l) (l_CacheMount l) (l_CacheOnBootDevice l) (l_Excludes l)
  else if bool_decide (ad_Role d = ArrayRoleData) then
    if bool_decide (ad_RemovalState d = RemovalStateUnlisted) then l
    else mkLayout (l_ParityMounts l) (l_DataMounts l ++ [mkDataMount (ad_RoleIndex d) (ad_Mountpoint d)]) (l_CacheMount l)
           (l_CacheOnBootDevice l) (l_Excludes l)
  else if bool_decide (ad_Role d = ArrayRoleCache) then
    mkLayout (l_ParityMounts l) (l_DataMounts l) (ad_Mountpoint d) (IsPartition (ad_Device d) (ad_ByIDName d)) (l_Excludes l)
  else l.
Definition layoutFromStore (disks : list ArrayDisk) : Layout := foldl add_to_layout (mkLayout [] [] "" false None) disks.

Record PoolState := mkPoolState {
  po_DataDisks : list string;
  po_CachePath : string;
  po_CreatePolicy : string;
  po_MinFreeSpace : string;
  po_RemovingDisk : string;
  po_ReadOnly : bool
}.
Definition add_to_pool (p : PoolState) (d : ArrayDisk) : PoolState :=
  if bool_decide (ad_Role d = ArrayRoleData) then
    if LeftPool d then p
    else mkPoolState (po_DataDisks p ++ [ad_Mountpoint d]) (po_CachePath p) (po_CreatePolicy p) (po_MinFreeSpace p)
           (if bool_decide (ad_RemovalState d = RemovalStateEvacuating) || bool_decide (ad_RemovalState d = RemovalStateEvacuated)
            then ad_Mountpoint d else po_RemovingDisk p) (po_ReadOnly p)
  else if bool_decide (ad_Role d = ArrayRoleCache) then
    mkPoolState (po_DataDisks p) (ad_Mountpoint d) (po_CreatePolicy p) (po_MinFreeSpace p) (po_RemovingDisk p) (po_ReadOnly p)
  else p.
Definition poolStateFromStore (s : ArraySettings) (disks : list ArrayDisk) : PoolState :=
  foldl add_to_pool (mkPoolState [] "" (as_CreatePolicy s) (as_MinFreeSpace s) "" (as_MigrationPending s)) disks.

Record MountUnit := mkMountUnit {
  mu_Where : string; mu_UUID : string; mu_Filesystem : string; mu_Description : string; mu_ReadOnly : bool; mu_What : string
}.
Definition diskMountDescription (d : ArrayDisk) : string :=
  if bool_decide (ad_Role d = ArrayRoleData) then "Hoserva data disk " +:+ pretty (ad_RoleIndex d)
  else if bool_decide (ad_Role d = ArrayRoleParity) then "Hoserva parity disk " +:+ pretty (ad_RoleIndex d)
  else if bool_decide (ad_Role d = ArrayRoleCache) then "Hoserva cache disk"
  else "Hoserva " +:+ ad_Role d +:+ " disk".
Fixpoint ArrayMountUnits (s : ArraySettings) (disks : list ArrayDisk) : res err (list MountUnit) :=
  match disks with
  | [] => Ok []
  | d :: rest =>
      if bool_decide (ad_FSUUID d = "") then Err (EOther ("job: array disk " +:+ ad_Device d +:+ " has no filesystem UUID"))
      else if bool_decide (ad_Mountpoint d = "") then Err (EOther ("job: array disk " +:+ ad_Device d +:+ " has no mountpoint"))
      else match ArrayMountUnits s rest with
      | Ok units =>
          Ok (mkMountUnit (ad_Mountpoint d) (ad_FSUUID d) (ad_Filesystem d) (diskMountDescription d) (as_MigrationPending s) (ad_MountSource d) :: units)
      | Err e => Err e
      end
  end.
