(* ===== verification/LayoutSafety.v ===== *)
(** * The layout that is accepted, and where its content files go

    When [Layout.Validate] accepts a layout, and which copies of the content file
    [Layout.ContentPaths] places: one on the boot device, one on a cache of its own,
    and as many on the data disks as parity asks for; and that the rows of the array
    become the layout of the disks that SnapRAID still lists. *)
From stdpp Require Import pretty.
From S2P Require Export Layout.
Open Scope string_scope.
Open Scope list_scope.
Open Scope Z_scope.

(** ** Mounts that are named once *)
Fixpoint fresh (seen : gset string) (paths : list string) : Prop :=
  match paths with
  | [] => True
  | p :: rest => (p ≠ "" ∧ Clean p ∉ seen) ∧ fresh ({[Clean p]} ∪ seen) rest
  end.
Definition cleaned (paths : list string) : gset string := list_to_set (map Clean paths).

Lemma fresh_ext seen seen' paths : seen ≡ seen' → fresh seen paths ↔ fresh seen' paths.
Proof. by intros ->%leibniz_equiv. Qed.
Lemma fresh_app seen ps qs : fresh seen (ps ++ qs) ↔ fresh seen ps ∧ fresh (cleaned ps ∪ seen) qs.
Proof.
  revert seen. induction ps as [|p ps IH]; intros seen; cbn [app fresh].
  { rewrite (fresh_ext (cleaned [] ∪ seen) seen) by set_solver. tauto. }
  rewrite IH, (fresh_ext (cleaned (p :: ps) ∪ seen) (cleaned ps ∪ ({[Clean p]} ∪ seen))); [tauto|]. unfold cleaned. set_solver.
Qed.
Lemma fresh_spec seen paths :
  fresh seen paths ↔ Forall (λ p, p ≠ "") paths ∧ NoDup (map Clean paths) ∧ Forall (λ p, Clean p ∉ seen) paths.
Proof.
  revert seen. induction paths as [|p ps IH]; intros seen; cbn [fresh map].
  { split; [|done]. intros _. split_and!; constructor. }
  rewrite IH, !Forall_cons, NoDup_cons, !Forall_forall, list_elem_of_fmap. set_solver.
Qed.

Lemma assign_spec seen role p :
  match assign seen role p with
  | Ok seen' => (p ≠ "" ∧ Clean p ∉ dom seen) ∧ dom seen' = {[Clean p]} ∪ dom seen
  | Err _ => ¬ (p ≠ "" ∧ Clean p ∉ dom seen)
  end.
Proof.
  unfold assign. case_bool_decide; [naive_solver|]. destruct (seen !! Clean p) as [other|] eqn:Hl.
  - intros [_ []]. by apply elem_of_dom_2 in Hl.
  - apply not_elem_of_dom in Hl. split; [done|]. apply dom_insert_L.
Qed.
Lemma assign_parity_spec i mounts seen :
  match assign_parity i mounts seen with
  | Ok seen' => fresh (dom seen) mounts ∧ dom seen' = cleaned mounts ∪ dom seen
  | Err _ => ¬ fresh (dom seen) mounts
  end.
Proof.
  revert i seen. induction mounts as [|m ms IH]; intros i seen; cbn [assign_parity fresh]; [split; [done|set_solver]|].
  pose proof (assign_spec seen ("parity mount " +:+ pretty (i + 1)) m) as Ha. destruct (assign _ _ m) as [seen'|e]; [|tauto].
  destruct Ha as [Hm Hd]. specialize (IH (i + 1) seen'). rewrite Hd in IH. destruct (assign_parity _ _ _); [|tauto].
  destruct IH as [Hf ->]. split; [done|]. unfold cleaned. set_solver.
Qed.
(** The role indices of the data disks, with those seen before. *)
Definition numbered (seen : gset Z) (mounts : list DataMount) : Prop :=
  Forall (λ m, 1 ≤ dm_RoleIndex m ∧ dm_RoleIndex m ∉ seen) mounts ∧ NoDup (map dm_RoleIndex mounts).
Lemma numbered_cons seen m ms :
  numbered seen (m :: ms) ↔ (1 ≤ dm_RoleIndex m ∧ dm_RoleIndex m ∉ seen) ∧ numbered ({[dm_RoleIndex m]} ∪ seen) ms.
Proof. unfold numbered. cbn [map]. rewrite Forall_cons, NoDup_cons, !Forall_forall, list_elem_of_fmap. set_solver. Qed.
Lemma assign_data_spec i mounts seen indices :
  match assign_data i mounts seen indices with
  | Ok seen' => fresh (dom seen) (map dm_Mountpoint mounts) ∧ numbered indices mounts ∧
      dom seen' = cleaned (map dm_Mountpoint mounts) ∪ dom seen
  | Err _ => ¬ (fresh (dom seen) (map dm_Mountpoint mounts) ∧ numbered indices mounts)
  end.
Proof.
  revert i seen indices. induction mounts as [|m ms IH]; intros i seen indices; cbn [assign_data fresh map].
  { split_and!; [done|split; constructor|set_solver]. }
  pose proof (assign_spec seen ("data mount " +:+ pretty (i + 1)) (dm_Mountpoint m)) as Ha. pose proof (numbered_cons indices m ms) as Hc.
  destruct (assign _ _ _) as [seen'|e]; [|tauto]. destruct Ha as [Hm Hd].
  destruct (Z.ltb_spec (dm_RoleIndex m) 1); [rewrite Hc; lia|]. case_bool_decide as Hin; [tauto|].
  specialize (IH (i + 1) seen' ({[dm_RoleIndex m]} ∪ indices)). rewrite Hd in IH. destruct (assign_data _ _ _ _); [|tauto].
  destruct IH as (Hf&Hn&->). split; [by split|]. split; [by apply Hc|]. unfold cleaned. set_solver.
Qed.

(** ** The layouts that are accepted *)
Definition cache_mounts (l : Layout) : list string := if bool_decide (l_CacheMount l = "") then [] else [l_CacheMount l].
Definition mounts (l : Layout) : list string := l_ParityMounts l ++ map dm_Mountpoint (l_DataMounts l) ++ cache_mounts l.
Record well_laid (l : Layout) : Prop := {
  wl_parity : (1 ≤ length (l_ParityMounts l) ≤ 2)%nat;
  wl_data : l_DataMounts l ≠ [];
  wl_named : Forall (λ p, p ≠ "") (mounts l);
  wl_once : NoDup (map Clean (mounts l));
  wl_index : Forall (λ m, 1 ≤ dm_RoleIndex m) (l_DataMounts l);
  wl_indices : NoDup (map dm_RoleIndex (l_DataMounts l))
}.
Lemma well_laid_iff l :
  well_laid l ↔ (1 ≤ length (l_ParityMounts l) ≤ 2)%nat ∧ l_DataMounts l ≠ [] ∧ fresh ∅ (mounts l) ∧ numbered ∅ (l_DataMounts l).
Proof.
  rewrite fresh_spec. unfold numbered. split.
  - intros [? ? ? ? Hi ?]. split; [done|]. split; [done|]. split; [split_and!; [done|done|by apply Forall_forall; set_solver]|].
    split; [|done]. eapply Forall_impl; [exact Hi|]. set_solver.
  - intros (?&?&(?&?&_)&Hi&?). split; try done. eapply Forall_impl; [exact Hi|]. by intros ? [].
Qed.

Lemma Validate_spec l : Validate l = None ↔ well_laid l.
Proof.
  rewrite well_laid_iff. unfold Validate. case_bool_decide as Hp; [rewrite Hp; cbn; naive_solver lia|].
  destruct (Z.ltb_spec 2 (Z.of_nat (length (l_ParityMounts l)))); [naive_solver lia|].
  assert (1 ≤ length (l_ParityMounts l) ≤ 2)%nat as Hlen by (destruct (l_ParityMounts l); [done|cbn in *; lia]).
  destruct (l_DataMounts l) as [|d ds] eqn:Hds; [naive_solver|]. assert (l_DataMounts l ≠ []) as Hne by (by rewrite Hds).
  rewrite <-Hds. clear d ds Hds Hp. unfold mounts. rewrite !fresh_app.
  pose proof (assign_parity_spec 0 (l_ParityMounts l) ∅) as H1. rewrite dom_empty_L in H1.
  destruct (assign_parity _ _ _) as [s1|e1]; [|split; [done|tauto]]. destruct H1 as [Hf1 Hd1].
  pose proof (assign_data_spec 0 (l_DataMounts l) s1 ∅) as H2. rewrite Hd1 in H2.
  destruct (assign_data _ _ _ _) as [s2|e2]; [|split; [done|tauto]]. destruct H2 as (Hf2&Hn&Hd2). unfold cache_mounts.
  case_bool_decide; [cbn; tauto|]. pose proof (assign_spec s2 "cache mount" (l_CacheMount l)) as H3. rewrite Hd2 in H3.
  destruct (assign s2 _ _); cbn [err_of fresh]; [tauto|]. split; [done|]. tauto.
Qed.

(** ** The copies that are placed *)
Lemma place_on_data_spec min mounts paths :
  place_on_data min mounts paths =
  paths ++ map (λ m, Join (dm_Mountpoint m) contentFileName) (take (min - length paths) mounts).
Proof.
  revert paths. induction mounts as [|m ms IH]; intros paths; cbn [place_on_data]; [by rewrite take_nil, app_nil_r|].
  destruct (Nat.ltb_spec (length paths) min).
  - rewrite IH, length_app, <-app_assoc. cbn [length]. replace (min - length paths)%nat with (Datatypes.S (min - (length paths + 1))) by lia.
    done.
  - replace (min - length paths)%nat with 0%nat by lia. by rewrite take_0, app_nil_r.
Qed.
Lemma first_repeated_none seen paths : first_repeated seen paths = None ↔ NoDup paths ∧ Forall (λ p, p ∉ seen) paths.
Proof.
  revert seen. induction paths as [|p ps IH]; intros seen; cbn [first_repeated]; [split; [split; constructor|done]|].
  rewrite NoDup_cons, Forall_cons. case_bool_decide; [naive_solver|]. rewrite IH, !Forall_forall. set_solver.
Qed.
(** The copies that are not on a data disk. *)
Definition own_copies (l : Layout) : list string :=
  BootContentPath ::
  (if negb (bool_decide (l_CacheMount l = "")) && negb (l_CacheOnBootDevice l) then [Join (l_CacheMount l) contentFileName] else []).
Definition copies_wanted (l : Layout) : nat := (length (l_ParityMounts l) + 2)%nat.

(** C31: A layout is accepted exactly when it has one or two parity disks and a data
    disk, every mount is named, no two name the same directory, and the data disks
    are numbered from 1 on, each number once. And the copies of the content file are
    exactly: one on the boot device, one on the cache unless it is on the boot
    device, and on the data disks in their order as many as are still missing for
    two more than there are parity disks; all on different paths; it is an error
    when there are too few disks for that many. *)
Theorem content_copies_are_placed l :
  (Validate l = None ↔ well_laid l) ∧
  ∀ ps, ContentPaths l = Ok ps ↔
    well_laid l ∧ NoDup ps ∧ (copies_wanted l ≤ length ps)%nat ∧
    ps = own_copies l ++ map (λ m, Join (dm_Mountpoint m) contentFileName)
           (take (copies_wanted l - length (own_copies l)) (l_DataMounts l)).
Proof.
  split; [apply Validate_spec|]. intros ps. rewrite <-Validate_spec. unfold ContentPaths. fold (own_copies l) (copies_wanted l).
  rewrite place_on_data_spec. set (all := own_copies l ++ _). destruct (Validate l) as [e|]; [split; [done|by intros [? _]]|].
  destruct (Nat.ltb_spec (length all) (copies_wanted l)); [split; [done|intros (_&_&?&->); lia]|].
  destruct (first_repeated ∅ all) as [p|] eqn:Hf.
  - split; [done|]. intros (_&Hnd&_&->). rewrite (proj2 (first_repeated_none ∅ all)) in Hf; [done|].
    split; [done|]. apply Forall_forall. set_solver.
  - apply first_repeated_none in Hf as [Hnd _]. split; [intros [= <-]; done|]. by intros (_&_&_&->).
Qed.

(** ** The layout of the rows *)
Definition listed (d : ArrayDisk) : bool :=
  bool_decide (ad_Role d = ArrayRoleData) && negb (bool_decide (ad_RemovalState d = RemovalStateUnlisted)).
Lemma add_to_layout_data disks l :
  l_DataMounts (foldl add_to_layout l disks) =
    l_DataMounts l ++ map (λ d, mkDataMount (ad_RoleIndex d) (ad_Mountpoint d)) (List.filter listed disks) ∧
  l_ParityMounts (foldl add_to_layout l disks) =
    l_ParityMounts l ++ map ad_Mountpoint (List.filter (λ d, bool_decide (ad_Role d = ArrayRoleParity)) disks).
Proof.
  revert l. induction disks as [|d ds IH]; intros l; cbn [foldl List.filter map]; [by rewrite !app_nil_r|].
  destruct (IH (add_to_layout l d)) as [-> ->]. unfold add_to_layout, listed, ArrayRoleParity, ArrayRoleData, ArrayRoleCache.
  repeat (case_bool_decide; try congruence); cbn; by rewrite <-?app_assoc.
Qed.
(** What a rendered configuration lists are the data disks of the rows but an
    unlisted one, and the parity disks, in their order. *)
Lemma rows_are_listed disks :
  l_DataMounts (layoutFromStore disks) = map (λ d, mkDataMount (ad_RoleIndex d) (ad_Mountpoint d)) (List.filter listed disks) ∧
  l_ParityMounts (layoutFromStore disks) = map ad_Mountpoint (List.filter (λ d, bool_decide (ad_Role d = ArrayRoleParity)) disks).
Proof. apply add_to_layout_data. Qed.

(** A layout that is accepted, its copies and its first lines; and one with a cache
    on the boot device and one data disk, which has room for two copies only. *)
Example demo_layout :
  ContentPaths (mkLayout ["/mnt/parity1"] [mkDataMount 1 "/mnt/disk1"; mkDataMount 2 "/mnt/disk2"; mkDataMount 3 "/mnt/disk3"] "" false None)
    = Ok [BootContentPath; "/mnt/disk1/snapraid.content"; "/mnt/disk2/snapraid.content"] ∧
  is_ok (ContentPaths (mkLayout ["/mnt/parity1"] [mkDataMount 1 "/mnt/disk1"] "/mnt/cache" true None)) = false ∧
  is_ok (ContentPaths (mkLayout ["/mnt/parity1"] [mkDataMount 1 "/mnt/disk1"] "/mnt/cache" false None)) = true.
Proof. vm_compute. done. Qed.
