(* ===== verification/Handlers.v ===== *)
(** * Bodies whose calls another body answers

    A job drives a component that itself only makes calls: it answers some of them
    with calls of its own. A handler answers one call of the inner body, given the
    inner calls before it; running the inner body under a handler is a body of the
    outer calls, whose inner environment is read off the outer one by replaying. *)
From S2P Require Export CallsWp.
Open Scope list_scope.

(** A call is one of those before a run or one of the run's own. *)
Lemma in_either {A} (tr ran before after : list A) x : tr ++ ran = before ++ x :: after →
  (∃ k, tr = before ++ x :: k) ∨ ∃ k, before = tr ++ k ∧ ran = k ++ x :: after.
Proof.
  intros Heq. apply app_eq_inv in Heq as [(k&->&Hk)|(k&->&Hk)].
  - destruct k as [|q k]; cbn in Hk; [right; exists []; by rewrite !app_nil_r|injection Hk as <- _; left; by exists k].
  - right. by exists k.
Qed.

Section handlers.
Context {Ev Ans Ev' Ans' : Type}.
Implicit Types (tr made : calls Ev Ans) (itr : calls Ev' Ans').

(** Answers an inner call at the outer calls made so far. *)
Definition handler : Type := calls Ev' Ans' → Ev' → calls Ev Ans → Ans' * calls Ev Ans.
Context (handle : handler).

Fixpoint replay (before itr : calls Ev' Ans') tr : calls Ev Ans :=
  match itr with
  | [] => tr
  | (e, a) :: rest => replay (before ++ [(e, a)]) rest (handle before e tr).2
  end.
(** The inner environment of a run that starts after the inner calls [past]. *)
Definition inner (past : calls Ev' Ans') tr : environment Ev' Ans' := λ t e,
  let new := drop (length past) t in (handle new e (replay [] new tr)).1.
Definition handled {X} (past : calls Ev' Ans') (body : environment Ev' Ans' → stM (calls Ev' Ans') err X) : stM (calls Ev Ans) err X :=
  λ tr, let (r, t) := body (inner past tr) past in (r, replay [] (drop (length past) t) tr).

Lemma replayed_app b1 l1 l2 tr : replay b1 (l1 ++ l2) tr = replay (b1 ++ l1) l2 (replay b1 l1 tr).
Proof.
  revert b1 tr. induction l1 as [|[e a] l1 IH]; intros b1 tr; cbn; [by rewrite app_nil_r|]. by rewrite IH, <-app_assoc.
Qed.

(** What holds of every handled call, given the inner calls before it, holds of the
    run: [R] relates the inner calls to the outer ones they became. *)
Context (G : calls Ev Ans → Ev → Prop) (Gi : calls Ev' Ans' → Ev' → Prop).
Context (R : calls Ev' Ans' → calls Ev Ans → Prop).

Lemma cwp_handled {X} past (body : environment Ev' Ans' → stM (calls Ev' Ans') err X) tr (Q : res err X → calls Ev' Ans' → Prop) :
  R [] [] →
  (∀ new e m, Gi (past ++ new) e → R new m → let r := handle new e (tr ++ m) in
     ∃ made, r.2 = (tr ++ m) ++ made ∧ guarded G (tr ++ m) made ∧ R (new ++ [(e, r.1)]) (m ++ made)) →
  makes (inner past tr) (λ _, True) (body (inner past tr)) →
  cwp Gi (body (inner past tr)) past Q →
  cwp G (handled past body) tr (λ r made, ∃ itr, Q r itr ∧ R itr made ∧ body (inner past tr) past = (r, past ++ itr)).
Proof.
  intros HR Hstep Hm (itr&Hs&Hg&Hq). destruct (Hm past) as (itr'&Hs'&_&Ha). rewrite Hs in Hs'. apply app_inv_head in Hs' as <-.
  assert (∀ before rest, itr = before ++ rest → ∃ made, replay [] before tr = tr ++ made ∧ guarded G tr made ∧ R before made) as H.
  { intros before. induction before as [|[e a] before IH] using rev_ind; intros rest Heq.
    - exists []. split_and!; [by rewrite app_nil_r|apply guarded_nil|done].
    - destruct (IH ((e, a) :: rest)) as (made&Hr&Hgm&HRm); [by rewrite Heq, <-app_assoc|].
      rewrite <-app_assoc in Heq. pose proof (Ha before e a rest Heq) as ->. unfold inner.
      rewrite drop_app_length, Hr. rewrite replayed_app, Hr. cbn [replay app].
      destruct (Hstep before e made (Hg before e _ rest Heq) HRm) as (made'&Hr'&Hg'&HR').
      exists (made ++ made'). rewrite Hr', app_assoc. split_and!; [done|by apply guarded_app|done]. }
  destruct (H itr [] (eq_sym (app_nil_r _))) as (made&Hr&Hgm&HRm). exists made. unfold handled.
  destruct (body (inner past tr) past) as [r t]. cbn in *. subst t. rewrite drop_app_length. split_and!; [done|done|].
  exists itr. by split_and!.
Qed.
End handlers.
Arguments handler : clear implicits.

(** A handler that hands every call on. *)
Section forward.
Context {Ev Ans Ev' Ans' : Type} (env : environment Ev Ans) (emb : Ev' → Ev) (proj : Ans → Ans').
Definition forward : handler Ev Ans Ev' Ans' := λ _ e tr, let a := env tr (emb e) in (proj a, tr ++ [(emb e, a)]).
Definition forwarded {X} (body : environment Ev' Ans' → stM (calls Ev' Ans') err X) : stM (calls Ev Ans) err X := handled forward [] body.
(** The outer calls are the inner ones. *)
Definition mirrors (itr : calls Ev' Ans') (made : calls Ev Ans) : Prop := Forall2 (λ p q, q.1 = emb p.1 ∧ p.2 = proj q.2) itr made.

Lemma cwp_forwarded {X} (body : environment Ev' Ans' → stM (calls Ev' Ans') err X) G Gi tr (Q : res err X → calls Ev' Ans' → Prop) :
  (∀ new e m, Gi new e → mirrors new m → G (tr ++ m) (emb e)) →
  (∀ env', makes env' (λ _, True) (body env')) → (∀ env', cwp Gi (body env') [] Q) →
  cwp G (forwarded body) tr (λ r made, ∃ itr, Q r itr ∧ mirrors itr made).
Proof.
  intros HG Hm Hq. eapply cwp_mono.
  - apply (cwp_handled forward G Gi mirrors [] body tr Q); [constructor| |apply Hm|apply Hq].
    intros new e m Hi Hmir. cbn. eexists [_]. split_and!; [done|apply guarded_one; by eapply HG|].
    apply Forall2_app; [done|]. by repeat constructor.
  - intros r made (itr&H1&H2&_). by exists itr.
Qed.
Lemma mirrors_in itr made e a : mirrors itr made → (e, a) ∈ itr → ∃ b, (emb e, b) ∈ made ∧ a = proj b.
Proof.
  intros H Hin. apply list_elem_of_lookup in Hin as [i Hi]. destruct (Forall2_lookup_l _ _ _ _ _ H Hi) as ([e' b]&Hb&He&Ha).
  cbn in *. subst. exists b. split; [by eapply list_elem_of_lookup_2|done].
Qed.
End forward.
