(* ===== verification/Params.v ===== *)
(** * The parameters of the jobs

    [internal/job/params.go]: what a job's persisted parameters decode to, for the
    jobs this development models the work of, and the check of the path that a fix
    is given. Decoding takes a single object and refuses a field that its struct,
    or a struct within it, does not have. *)
From Stdlib Require Import Ascii.
From stdpp Require Import pretty.
From S2P Require Import Guard Engine.
From S2P Require Export JsonStruct Evacuate ArrayStore.
Open Scope string_scope.
Open Scope list_scope.
Open Scope Z_scope.

(** ** Strict decoding *)
Definition known_obj {R} (fs : list (field R)) (obj : list (string * json)) : bool :=
  forallb (λ p, match field_for fs p.1 with Some _ => true | None => false end) obj.
Definition known_keys {R} (fs : list (field R)) (data : bytes) : bool :=
  match data with BJson (JObj obj) => known_obj fs obj | _ => true end.
(** [decodeJSON] *)
Definition decodeJSON {R} (fs : list (field R)) (zero : R) (params : bytes) : res err R :=
  if known_keys fs params then
    match unmarshal_struct fs zero params with Ok r => Ok r | Err e => Err (wrap "job: decoding params: " e) end
  else Err (wrap "job: decoding params: " (EOther "json: unknown field")).
(** A value that is an object of a struct. *)
Definition strict_of {R} (fs : list (field R)) (zero : R) (v : json) : option R :=
  match v with JObj obj => if known_obj fs obj then struct_of fs zero v else None | _ => struct_of fs zero v end.
(** A field that is a struct: [null] leaves it, an object is decoded into it. *)
Definition struct_field {R S} (name : string) (fs : list (field S)) (get : R → S) (set : S → R → R) : field R :=
  mkField name (λ v r, match v with JNull => Some r | _ => s ← strict_of fs (get r) v; Some (set s r) end).
(** A pointer: [null] empties it. *)
Definition ptr_field {R X} (name : string) (dec : json → option X) (set : option X → R → R) : field R :=
  mkField name (λ v r, match v with JNull => Some (set None r) | _ => x ← dec v; Some (set (Some x) r) end).
Definition int_of (v : json) : option Z := match v with JNum lit => Atoi lit | _ => None end.
Definition str_of (v : json) : option string := match v with JStr s => Some s | _ => None end.

(** [bytes.TrimSpace], which leaves text that is JSON the same JSON. *)
Definition trimmed (params : bytes) : bytes :=
  match params with BRaw s => if bool_decide (TrimSpace s = "") then BNil else params | _ => params end.
(** [len(params) == 0 || string(params) == "null"] *)
Definition absent (params : bytes) : bool := match params with BNil | BJson JNull => true | _ => false end.
Definition decode_with {R} (fs : list (field R)) (zero : R) (missing : res err R) (check : R → option err) (params : bytes) : res err R :=
  if absent params then missing
  else match decodeJSON fs zero params with
       | Err e => Err e
       | Ok p => match check p with Some e => Err e | None => Ok p end
       end.

(** ** Sync, scrub and fix *)
Definition DefaultScrubPercent : Z := 8.
Record SyncParams := mkSyncParams { syp_DryRun : bool; syp_Confirm : bool }.
Record ScrubParams := mkScrubParams { scp_Percent : option Z; scp_AllBlocks : bool }.
Record FixParams := mkFixParams { fxp_Confirm : bool; fxp_Disk : option Z; fxp_Path : option string }.

Definition decodeSyncParams : bytes → res err SyncParams :=
  decode_with [bool_field "dryRun" (λ v p, mkSyncParams v (syp_Confirm p)); bool_field "confirm" (λ v p, mkSyncParams (syp_DryRun p) v)]
    (mkSyncParams false false) (Ok (mkSyncParams false false)) (λ _, None).
Definition SyncOptsFromParams (params : bytes) : res err SyncOpts :=
  match decodeSyncParams (trimmed params) with Ok p => Ok (mkSyncOpts (syp_DryRun p) (syp_Confirm p) [] ∅) | Err e => Err e end.

Definition decodeScrubParams : bytes → res err ScrubParams :=
  decode_with [ptr_field "percent" int_of (λ v p, mkScrubParams v (scp_AllBlocks p));
               bool_field "allBlocks" (λ v p, mkScrubParams (scp_Percent p) v)]
    (mkScrubParams None false) (Ok (mkScrubParams None false))
    (λ p, match scp_Percent p with
          | Some n => if (n <? 1) || (100 <? n) then Some (EOther "job: scrub percent must be between 1 and 100") else None
          | None => None
          end).
Definition ScrubPercentFromParams (params : bytes) : res err Z :=
  match decodeScrubParams (trimmed params) with Ok p => Ok (default DefaultScrubPercent (scp_Percent p)) | Err e => Err e end.
Definition ScrubAllBlocksFromParams (params : bytes) : res err bool :=
  match decodeScrubParams (trimmed params) with Ok p => Ok (scp_AllBlocks p) | Err e => Err e end.

Definition CatchAllPath : string := "/mnt/user".
Definition ErrInvalidFixPath : err := EOther "invalid fix path".
(** What SnapRAID's [-f] reads as the syntax of a pattern. *)
Definition fixPathReserved : list ascii := ["*"; "?"; "["; "]"; "\"]%char.
(** [r < 0x20 || r == 0x7f], of a rune that is a byte; any other has only bytes
    from 0x80 on. *)
Definition control (c : ascii) : bool := (N_of_ascii c <? 32)%N || (N_of_ascii c =? 127)%N.
Fixpoint bad_char (path : string) (l : list ascii) : option err :=
  match l with
  | [] => None
  | c :: rest =>
      if control c then Some (EWrap "" ErrInvalidFixPath ": the path holds a control character")
      else if bool_decide (c ∈ fixPathReserved)
      then Some (EWrap "" ErrInvalidFixPath (": " +:+ quoted path +:+ " holds '" +:+ (if bool_decide (c = "\"%char) then "\" else "") +:+ String c
             "', which SnapRAID reads as a pattern, so the fix could restore more than this one file"))
      else bad_char path rest
  end.
Definition FixArrayPath (path : string) : res err string :=
  match cut_prefix (CatchAllPath +:+ "/") path with
  | None | Some "" => Err (EWrap "" ErrInvalidFixPath (": " +:+ quoted path +:+ " is not a file under " +:+ CatchAllPath))
  | Some rel =>
      match bad_char path (String.list_ascii_of_string path) with
      | Some e => Err e
      | None =>
          if existsb (λ seg, bool_decide (seg = "") || bool_decide (seg = ".") || bool_decide (seg = "..")) (split slash rel)
          then Err (EWrap "" ErrInvalidFixPath (": " +:+ quoted path
                 +:+ " must name one file, with no empty, . or .. segment and no trailing slash"))
          else Ok ("/" +:+ rel)
      end
  end.

Definition decodeFixParams : bytes → res err FixParams :=
  let unconfirmed := EOther "job: fix params require confirm=true" in
  decode_with [bool_field "confirm" (λ v p, mkFixParams v (fxp_Disk p) (fxp_Path p));
               ptr_field "disk" int_of (λ v p, mkFixParams (fxp_Confirm p) v (fxp_Path p));
               ptr_field "path" str_of (λ v p, mkFixParams (fxp_Confirm p) (fxp_Disk p) v)]
    (mkFixParams false None None) (Err unconfirmed)
    (λ p, if negb (fxp_Confirm p) then Some unconfirmed
          else
            match fxp_Disk p, fxp_Path p with
            | Some n, _ =>
                if n <? 1 then Some (EOther "job: fix disk index must be >= 1")
                else match fxp_Path p with
                     | Some _ => Some (EWrap "job: " ErrInvalidFixPath ": a path and a disk cannot be combined")
                     | None => None
                     end
            | None, Some path => match FixArrayPath path with Err e => Some (wrap "job: " e) | Ok _ => None end
            | None, None => None
            end).
Definition FixOptsFromParams (params : bytes) : res err FixOpts :=
  match decodeFixParams (trimmed params) with
  | Err e => Err e
  | Ok p =>
      let disk := match fxp_Disk p with Some n => "d" +:+ pretty n | None => "" end in
      match fxp_Path p with
      | None => Ok (mkFixOpts disk "" false)
      | Some path => match FixArrayPath path with Ok rel => Ok (mkFixOpts disk rel false) | Err e => Err e end
      end
  end.
Definition FixPathFromParams (params : bytes) : res err string :=
  match decodeFixParams (trimmed params) with Ok p => Ok (default "" (fxp_Path p)) | Err e => Err e end.

(** ** Plans of moves *)
Definition move_fields : list (field RebalanceMove) :=
  [str_field "Share" (λ v m, mkMove v (rm_RelPath m) (rm_SourceBranch m) (rm_TargetBranch m) (rm_Size m));
   str_field "RelPath" (λ v m, mkMove (rm_Share m) v (rm_SourceBranch m) (rm_TargetBranch m) (rm_Size m));
   str_field "SourceBranch" (λ v m, mkMove (rm_Share m) (rm_RelPath m) v (rm_TargetBranch m) (rm_Size m));
   str_field "TargetBranch" (λ v m, mkMove (rm_Share m) (rm_RelPath m) (rm_SourceBranch m) v (rm_Size m));
   int_field "Size" (λ v m, mkMove (rm_Share m) (rm_RelPath m) (rm_SourceBranch m) (rm_TargetBranch m) v)].
Definition warning_fields : list (field RebalanceWarning) :=
  [str_field "Share" (λ v w, mkWarning v (rw_Reason w)); str_field "Reason" (λ v w, mkWarning (rw_Share w) v)].
Definition plan_fields : list (field RebalancePlan) :=
  [list_field "Moves" (strict_of move_fields (mkMove "" "" "" "" 0)) (λ v p, mkPlan v (rp_Warnings p) (rp_NonShareContent p));
   list_field "Warnings" (strict_of warning_fields (mkWarning "" "")) (λ v p, mkPlan (rp_Moves p) v (rp_NonShareContent p));
   list_field "NonShareContent" str_of (λ v p, mkPlan (rp_Moves p) (rp_Warnings p) v)].
Definition decodeRebalanceParams : bytes → res err RebalancePlan :=
  decode_with [struct_field "plan" plan_fields id (λ v _, v)] (mkPlan [] [] []) (Err (EOther "job: rebalance params require a plan")) (λ _, None).

Record EvacuationParams := mkEvacuationParams { ep_Mountpoint : string; ep_Plan : RebalancePlan }.
Definition decodeEvacuationParams : bytes → res err EvacuationParams :=
  decode_with [str_field "mountpoint" (λ v p, mkEvacuationParams v (ep_Plan p));
               struct_field "plan" plan_fields ep_Plan (λ v p, mkEvacuationParams (ep_Mountpoint p) v)]
    (mkEvacuationParams "" (mkPlan [] [] [])) (Err (EOther "job: evacuation params require a mountpoint and a plan"))
    (λ p, if bool_decide (ep_Mountpoint p = "") then Some (EOther "job: evacuation params require a mountpoint") else None).

(** ** Relocation and removal *)
Record ShareRelocationParams := mkRelocationParams { srp_Share : string; srp_To : string }.
Definition shareRelocationToArray : string := "array".
Definition shareRelocationToCache : string := "cache".
Definition decodeShareRelocationParams : bytes → res err ShareRelocationParams :=
  decode_with [str_field "share" (λ v p, mkRelocationParams v (srp_To p)); str_field "to" (λ v p, mkRelocationParams (srp_Share p) v)]
    (mkRelocationParams "" "") (Err (EOther "job: share_relocation params require share and to"))
    (λ p, if bool_decide (srp_Share p = "") then Some (EOther "job: share_relocation params require share")
          else if bool_decide (srp_To p = shareRelocationToArray) || bool_decide (srp_To p = shareRelocationToCache) then None
          else Some (EOther ("job: share_relocation params require to to be " +:+ quoted shareRelocationToCache +:+ " or "
                       +:+ quoted shareRelocationToArray))).

Record DiskRemoveParams := mkRemoveParams { drp_Mountpoint : string; drp_Confirmation : string }.
Definition decodeDiskRemoveParams : bytes → res err DiskRemoveParams :=
  let missing := EOther "job: disk_remove params require a mountpoint and confirmation" in
  decode_with [str_field "mountpoint" (λ v p, mkRemoveParams v (drp_Confirmation p));
               str_field "confirmation" (λ v p, mkRemoveParams (drp_Mountpoint p) v)] (mkRemoveParams "" "") (Err missing)
    (λ p, if bool_decide (drp_Mountpoint p = "") || bool_decide (drp_Confirmation p = "") then Some missing else None).

(** ** The path of a fix *)
Lemma cut_prefix_spec pre s r : cut_prefix pre s = Some r ↔ s = pre +:+ r.
Proof.
  revert s. induction pre as [|c pre IH]; intros s; [cbn; split; [by intros [= ->]|by intros ->]|].
  destruct s as [|d s]; [split; [done|intros [=]]|]. cbn [cut_prefix]. unfold is_char. case_bool_decide as Hc.
  - subst. rewrite IH. split; [by intros ->|]. by intros [= ->].
  - split; [done|]. intros [= ->]. done.
Qed.
Lemma bad_char_none path l : bad_char path l = None ↔ ∀ c, c ∈ l → control c = false ∧ c ∉ fixPathReserved.
Proof.
  induction l as [|c l IH]; [split; [by intros _ c ?%elem_of_nil|done]|]. cbn [bad_char]. destruct (control c) eqn:Hc.
  { split; [done|]. intros H. destruct (H c ltac:(by left)) as [H' _]. by rewrite H' in Hc. }
  case_bool_decide as Hr.
  { split; [done|]. intros H. by destruct (H c ltac:(by left)). }
  rewrite IH. split; [|intros H x Hx; apply H; by right]. intros H x [->|Hx]%elem_of_cons; auto.
Qed.

(** The path of a fix is accepted exactly when it is the pool's mount, a slash,
    and names that are neither empty nor dots, with no character that SnapRAID reads
    as the syntax of a pattern and no control character; and what SnapRAID is given
    is the rest of that path from the slash on, so that two paths are never taken
    for one. *)
Theorem fix_path_names_one_file path rel :
  FixArrayPath path = Ok rel ↔
  path = CatchAllPath +:+ rel ∧ (∃ below, rel = "/" +:+ below ∧ Forall (λ seg, seg ≠ "" ∧ seg ≠ "." ∧ seg ≠ "..") (split slash below)) ∧
  ∀ c, c ∈ String.list_ascii_of_string path → control c = false ∧ c ∉ fixPathReserved.
Proof.
  unfold FixArrayPath. assert (∀ seg, negb (bool_decide (seg = "") || bool_decide (seg = ".") || bool_decide (seg = "..")) = true ↔
    seg ≠ "" ∧ seg ≠ "." ∧ seg ≠ "..") as Hseg.
  { intros seg. rewrite negb_true_iff, !orb_false_iff, !bool_decide_eq_false. tauto. }
  assert (∀ l, existsb (λ seg, bool_decide (seg = "") || bool_decide (seg = ".") || bool_decide (seg = "..")) l = false ↔
    Forall (λ seg, seg ≠ "" ∧ seg ≠ "." ∧ seg ≠ "..") l) as Hsegs.
  { induction l as [|seg l IH]; [done|]. cbn [existsb]. rewrite orb_false_iff, Forall_cons, IH, <-Hseg, negb_true_iff. done. }
  split.
  - destruct (cut_prefix _ path) as [below|] eqn:Hp; [|done]. apply cut_prefix_spec in Hp. destruct below as [|c below]; [done|].
    destruct (bad_char _ _) eqn:Hb; [done|]. destruct (existsb _ _) eqn:Hs; [done|]. intros [= <-].
    rewrite Hp. split; [done|]. split; [exists (String c below); split; [done|by apply Hsegs]|]. rewrite <-Hp. by eapply bad_char_none.
  - intros (->&(below&->&Hs)&Hc). replace (cut_prefix _ _) with (Some below) by (symmetry; by apply cut_prefix_spec).
    destruct below as [|c below]; [apply Forall_cons in Hs as [[? _] _]; done|].
    rewrite (proj2 (bad_char_none _ _) Hc). by rewrite (proj2 (Hsegs _) Hs).
Qed.
