(* ===== verification/DiskRemove.v ===== *)
(** * Finishing the removal of a disk

    [internal/job/disk_remove_run.go], with [regenerateArrayFromStore] of
    [array_apply.go]: the steps after an evacuation, each keyed on the removal state
    that is stored before it is acted on. The store, the mount table, the unmounter,
    the parity engine, the generator of files and the kernel are calls; the check of
    the shares' branches is that of [internal/cache], under a handler that hands its
    calls on. A run that is not set up is one whose dependencies are missing. *)
From stdpp Require Import pretty.
From S2P Require Import Guard Engine.
From S2P Require Export Handlers Layout Params.
Open Scope string_scope.
Open Scope list_scope.
Open Scope Z_scope.

Definition ErrDiskNotEvacuated : err := EOther "job: the disk has not been evacuated".
Definition ErrConfirmationMismatch : err := EOther "disk: typed confirmation does not match this plan".
Definition EvacuationConfirmation (mountpoint : string) : string := "REMOVE " +:+ mountpoint.
Definition contentFilePrefix : string := "snapraid.content".
Definition lostAndFound : string := "lost+found".

(** ** Calls *)
Inductive rm :=
  | RStore (op : store_op)
  | RSys (e : sys)
  | RIsMounted (path : string)
  | RMountedUUID (path : string)
  | RShareNames
  | RArrayReady
  | RSync (opts : SyncOpts)
  | RDiff
  | RStatus
  | RWriteDiskMounts (units : list MountUnit)
  | RWriteCatchAll (state : PoolState)
  | RWriteConf (path body : string)
  | RUnmount (unit : MountUnit)
  | RRemoveDiskMount (path : string)
  | RRmdir (path : string)
  | RGlob (pattern : string)
  | RUnlink (path : string).
Record rm_answer := mkRmAnswer {
  rk_err : option err;
  rk_store : store_answer;
  rk_os : os_answer;
  rk_yes : bool;
  rk_text : string;
  rk_names : list string;
  rk_diff : DiffReport
}.
Abbreviation R := (stM (calls rm rm_answer) err).

(** What is left on a disk besides SnapRAID's content files at its root and, with
    [allowDirs], directories. *)
Fixpoint disk_left (root : string) (allowDirs : bool) (visits : list visit) (skipped : list string) : option err :=
  match visits with
  | [] => None
  | v :: rest =>
      let path := Join root (vi_rel v) in
      if existsb (λ d, lies_below d path) skipped then disk_left root allowDirs rest skipped
      else
        match vi_err v with
        | Some e => Some (wrap ("job: disk_remove: reading " +:+ path +:+ ": ") e)
        | None =>
            let atRoot := bool_decide (Dir path = root) in
            if bool_decide (path = root) then disk_left root allowDirs rest skipped
            else if bool_decide (vi_kind v = Some Directory) then
              if allowDirs then disk_left root allowDirs rest skipped
              else if atRoot && bool_decide (Base path = lostAndFound) then disk_left root allowDirs rest (path :: skipped)
              else Some (EOther ("job: disk_remove: " +:+ root +:+ " still holds the directory " +:+ path))
            else if atRoot && String.prefix contentFilePrefix (Base path) then disk_left root allowDirs rest skipped
            else Some (EOther ("job: disk_remove: " +:+ root +:+ " still holds " +:+ path +:+ " — move it off the disk first"))
        end
  end.
(** The directories below the root but lost+found, each after the one it is in. *)
Fixpoint dirs_of (root : string) (visits : list visit) (skipped : list string) : res err (list string) :=
  match visits with
  | [] => Ok []
  | v :: rest =>
      let path := Join root (vi_rel v) in
      if existsb (λ d, lies_below d path) skipped then dirs_of root rest skipped
      else
        match vi_err v with
        | Some e => Err (wrap ("job: disk_remove: reading " +:+ path +:+ ": ") e)
        | None =>
            if negb (bool_decide (vi_kind v = Some Directory)) || bool_decide (path = root) then dirs_of root rest skipped
            else if bool_decide (Dir path = root) && bool_decide (Base path = lostAndFound) then dirs_of root rest (path :: skipped)
            else match dirs_of root rest skipped with Ok l => Ok (path :: l) | Err e => Err e end
        end
  end.

Definition dataDiskRow (disks : list ArrayDisk) (mountpoint : string) : option ArrayDisk :=
  List.find (λ d, bool_decide (ad_Role d = ArrayRoleData) && bool_decide (Clean (ad_Mountpoint d) = mountpoint)) disks.
Definition without_row (disks : list ArrayDisk) (row : ArrayDisk) : list ArrayDisk :=
  List.filter (λ d, negb (bool_decide (ad_Mountpoint d = ad_Mountpoint row))) disks.

Section remove.
Context (env : environment rm rm_answer).

(** A call whose error ends the run. *)
Definition rcall (pre : string) (e : rm) : R rm_answer :=
  a ← call env e; match rk_err a with Some x => throw (wrap pre x) | None => mret a end.
Definition in_store (pre : string) (op : store_op) : R store_answer :=
  a ← call env (RStore op); match st_err (rk_store a) with Some x => throw (wrap pre x) | None => mret (rk_store a) end.
Definition of_result {X} (pre : string) (r : res err X) : R X := match r with Ok x => mret x | Err e => throw (wrap pre e) end.
Definition fails_with (o : option err) : R unit := match o with Some e => throw e | None => mret tt end.

Definition mountedAs (mountpoint uuid : string) : R bool :=
  m ← rcall ("job: disk_remove: reading whether " +:+ mountpoint +:+ " is mounted: ") (RIsMounted mountpoint);
  if negb (rk_yes m) then mret false
  else
    u ← rcall ("job: disk_remove: reading the filesystem mounted at " +:+ mountpoint +:+ ": ") (RMountedUUID mountpoint);
    if negb (bool_decide (rk_text u = uuid))
    then throw (EOther ("job: disk_remove: " +:+ mountpoint +:+ " is mounted with filesystem " +:+ rk_text u +:+ ", not the array disk's "
                        +:+ uuid +:+ " — refusing"))
    else mret true.

Definition postCheck (mountpoint : string) : R unit :=
  n ← rcall "job: disk_remove: listing shares for the post-check: " RShareNames;
  let clean := Clean mountpoint in
  let shares := map (λ name, mkShare name "" "" [Join clean name] 0 [] false) (rk_names n) in
  x ← forwarded env RSys rk_os (λ inner, EvacuationPostCheck inner clean shares);
  match x with Some e => throw (wrap "job: disk_remove: " e) | None => mret tt end.

Definition diskLeftover (mountpoint : string) (allowDirs : bool) : R unit :=
  let root := Clean mountpoint in
  w ← call env (RSys (SVisit root));
  fails_with (disk_left root allowDirs (os_visits (rk_os w)) []).

Definition removeEmptyDirs (mountpoint : string) : R unit :=
  let root := Clean mountpoint in
  w ← call env (RSys (SVisit root));
  match dirs_of root (os_visits (rk_os w)) [] with
  | Err e => throw e
  | Ok dirs =>
      each (λ d, _ ← rcall ("job: disk_remove: removing the empty directory " +:+ d +:+ ": ") (RRmdir d); mret tt) (rev dirs)
  end.

Definition removeStrayContentFile (mountpoint : string) : R unit :=
  let root := Clean mountpoint in
  g ← rcall ("job: disk_remove: listing stray content files under " +:+ root +:+ ": ") (RGlob (Join root (contentFilePrefix +:+ "*")));
  each (λ m, a ← call env (RUnlink m);
             match rk_err a with
             | Some e =>
                 if err_is e S_NotExist then mret tt
                 else throw (wrap ("job: disk_remove: removing the stray content file " +:+ m +:+ ": ") e)
             | None => mret tt
             end) (rk_names g).

Definition confirmUntracked (mountpoint : string) : R unit :=
  d ← rcall ("job: disk_remove: reading SnapRAID's view of " +:+ mountpoint +:+ " after the sync: ") RDiff;
  match dr_PerDisk (rk_diff d) !! mountpoint with
  | None => throw (EOther ("job: disk_remove: SnapRAID's diff does not list " +:+ mountpoint +:+ " — refusing to drop it from snapraid.conf"))
  | Some counts =>
      if negb (dd_FilesBefore counts =? 0) || negb (dd_FilesAfter counts =? 0)
      then throw (EOther ("job: disk_remove: SnapRAID still records " +:+ pretty (dd_FilesBefore counts) +:+ " files on " +:+ mountpoint
             +:+ " and sees " +:+ pretty (dd_FilesAfter counts) +:+ " there now — refusing to drop it from snapraid.conf"))
      else mret tt
  end.

(** [writeArrayFromStore] *)
Definition regenerateArrayFromStore : R unit :=
  st ← in_store "" OpGetArray;
  let settings := from_option id (mkSettings "" "" false) (st_settings st) in
  units ← of_result "" (ArrayMountUnits settings (st_disks st));
  _ ← rcall "" (RWriteDiskMounts units);
  _ ← rcall "" (RWriteCatchAll (poolStateFromStore settings (st_disks st)));
  if as_MigrationPending settings then mret tt
  else
    body ← of_result "" (Render (layoutFromStore (st_disks st)));
    _ ← rcall "" (RWriteConf "snapraid.conf" body);
    mret tt.

(** Steps 7 and 8, of a disk that is unpooled. *)
Definition recordEmpty (row : ArrayDisk) (mountpoint jobID : string) (mounted : bool) : R unit :=
  let mp := ad_Mountpoint row in
  _ ← rcall ("job: disk_remove: taking " +:+ mp +:+ " out of the running pool: ") RArrayReady;
  _ ← (if mounted then
         _ ← postCheck mp; _ ← diskLeftover mp true; removeEmptyDirs mp
       else confirmUntracked mountpoint);
  _ ← rcall ("job: disk_remove: the sync recording " +:+ mp +:+ " empty did not complete: ") (RSync (mkSyncOpts false false [] {[mountpoint]}));
  _ ← confirmUntracked mountpoint;
  _ ← when mounted (λ tr, match diskLeftover mp false tr with
        | (Ok u, tr') => (Ok u, tr')
        | (Err e, tr') => (Err (EWrap "" e " — finish the removal again to record it empty"), tr')
        end);
  _ ← in_store ("job: disk_remove: marking " +:+ mp +:+ " unlisted: ") (OpAdvance mp RemovalStateUnpooled RemovalStateUnlisted jobID);
  mret tt.

(** The rest of step 8, and step 9. *)
Definition dropAndUnmount (row : ArrayDisk) (mounted : bool) : R unit :=
  let mp := ad_Mountpoint row in
  _ ← wrapping ("job: disk_remove: regenerating the array's configuration without " +:+ mp +:+ ": ") regenerateArrayFromStore;
  _ ← rcall ("job: disk_remove: SnapRAID does not accept the configuration without " +:+ mp +:+ ": ") RStatus;
  _ ← (if mounted then
         _ ← rcall ("job: disk_remove: unmounting " +:+ mp +:+ ": ") (RUnmount (mkMountUnit mp (ad_FSUUID row) (ad_Filesystem row) "" false ""));
         still ← rcall ("job: disk_remove: confirming " +:+ mp +:+ " is unmounted: ") (RIsMounted mp);
         if rk_yes still then throw (EOther ("job: disk_remove: " +:+ mp +:+ " is still mounted after stopping its mount unit")) else mret tt
       else removeStrayContentFile mp);
  _ ← rcall ("job: disk_remove: removing " +:+ mp +:+ "'s mount unit: ") (RRemoveDiskMount mp);
  _ ← in_store ("job: disk_remove: deleting " +:+ mp +:+ " from the array: ") (OpDelete mp);
  _ ← rcall ("job: disk_remove: " +:+ mp +:+ " has left the array and is unmounted, but updating the running daemon failed — restart hoservad: ") RArrayReady;
  mret tt.

Definition removable_states : list string := [RemovalStateEvacuated; RemovalStateUnpooled; RemovalStateUnlisted].
Definition removal_run (jobID : string) (p : DiskRemoveParams) : R unit :=
  let mountpoint := Clean (drp_Mountpoint p) in
  if negb (bool_decide (EvacuationConfirmation (drp_Mountpoint p) = drp_Confirmation p)) then throw ErrConfirmationMismatch
  else
    st ← in_store "" OpGetArray;
    match dataDiskRow (st_disks st) mountpoint with
    | None => throw (EWrap "" ErrArrayDiskNotFound (": " +:+ drp_Mountpoint p))
    | Some row =>
        let mp := ad_Mountpoint row in
        if negb (bool_decide (ad_RemovalState row ∈ removable_states))
        then throw (EWrap "" ErrDiskNotEvacuated (": " +:+ mp +:+ " is " +:+ quoted (ad_RemovalState row) +:+ " — evacuate it first"))
        else
          _ ← of_result ("job: disk_remove: the array without " +:+ mp +:+ " would not be valid: ")
                (ContentPaths (layoutFromStore (without_row (st_disks st) row)));
          mounted ← mountedAs mp (ad_FSUUID row);
          _ ← when mounted (_ ← postCheck mp; diskLeftover mp true);
          _ ← when (bool_decide (ad_RemovalState row = RemovalStateEvacuated))
                (_ ← in_store ("job: disk_remove: marking " +:+ mp +:+ " unpooled: ")
                       (OpAdvance mp RemovalStateEvacuated RemovalStateUnpooled jobID); mret tt);
          _ ← when (negb (bool_decide (ad_RemovalState row = RemovalStateUnlisted))) (recordEmpty row mountpoint jobID mounted);
          dropAndUnmount row mounted
    end.

(** Whether every dependency is set. *)
Context (hasDeps : bool).
Definition RunDiskRemove (jobID : string) (params : bytes) : R unit :=
  match decodeDiskRemoveParams params with
  | Err e => throw e
  | Ok p =>
      if negb hasDeps then throw (EOther "job: disk_remove is missing dependencies")
      else if bool_decide (jobID = "") then throw (EOther "job: disk_remove: the run has no job id to hold the removal state")
      else removal_run jobID p
  end.
End remove.
