(* ===== verification/DiskRemoveSafety.v ===== *)
(** * When a disk may leave the array

    Over all runs, re-run after failing or being cut off anywhere, and with others
    working on the same table: a disk is only dropped from parity once a sync that
    exempts it alone has recorded it empty, and its row and its unit only go once it
    is out of the pool, out of snapraid.conf and not mounted. *)
From S2P Require Import Guard Engine.
From S2P Require Export DiskRemove ArrayStoreInv EvacuateSafety.
Open Scope string_scope.
Open Scope list_scope.
Open Scope Z_scope.

Abbreviation rcalls := (calls rm rm_answer).
Implicit Types (made tr : rcalls) (row : ArrayDisk).

(** A call that succeeded. *)
Definition did (e : rm) made : Prop := ∃ a, (e, a) ∈ made ∧ rk_err a = None.
Definition did_store (op : store_op) made : Prop := ∃ a, (RStore op, a) ∈ made ∧ st_err (rk_store a) = None.
(** The row the run found at its slot: in removal past its evacuation, and the array
    is valid without it. *)
Definition target (p : DiskRemoveParams) made row : Prop :=
  ∃ a rest, made = (RStore OpGetArray, a) :: rest ∧ st_err (rk_store a) = None ∧
    dataDiskRow (st_disks (rk_store a)) (Clean (drp_Mountpoint p)) = Some row ∧ ad_RemovalState row ∈ removable_states ∧
    is_ok (ContentPaths (layoutFromStore (without_row (st_disks (rk_store a)) row))) = true ∧
    EvacuationConfirmation (drp_Mountpoint p) = drp_Confirmation p.
(** What is mounted there is the disk's own filesystem. *)
Definition is_mounted row made : Prop :=
  ∃ a u, (RIsMounted (ad_Mountpoint row), a) ∈ made ∧ rk_yes a = true ∧
    (RMountedUUID (ad_Mountpoint row), u) ∈ made ∧ rk_text u = ad_FSUUID row.
(** The last time it was asked, nothing was mounted. *)
Definition not_mounted (m : string) made : Prop :=
  ∃ t1 a t2, made = t1 ++ (RIsMounted m, a) :: t2 ∧ rk_err a = None ∧ rk_yes a = false ∧ ∀ b, (RIsMounted m, b) ∉ t2.
(** A walk of the disk that met only what may be left on it. *)
Definition walked (m : string) (allowDirs : bool) made : Prop :=
  ∃ w, (RSys (SVisit (Clean m)), w) ∈ made ∧ disk_left (Clean m) allowDirs (os_visits (rk_os w)) [] = None.
(** A diff by which SnapRAID tracks no file of the disk and sees none. *)
Definition untracked (slot : string) (a : rm_answer) : Prop :=
  rk_err a = None ∧ ∃ counts, dr_PerDisk (rk_diff a) !! slot = Some counts ∧ dd_FilesBefore counts = 0 ∧ dd_FilesAfter counts = 0.
Definition diffed (slot : string) made : Prop := ∃ a, (RDiff, a) ∈ made ∧ untracked slot a.
(** Before the sync that records the disk empty: it is out of the running pool, and
    after that shown empty by a walk, or when there is nothing to walk by a diff. *)
Definition ready row (slot : string) made : Prop :=
  ∃ m1 a m2, made = m1 ++ (RArrayReady, a) :: m2 ∧ rk_err a = None ∧
    (is_mounted row m1 ∧ walked (ad_Mountpoint row) true m2 ∨ not_mounted (ad_Mountpoint row) m1 ∧ diffed slot m2).
Definition exempting (slot : string) : SyncOpts := mkSyncOpts false false [] {[slot]}.
(** Recorded empty: such a sync succeeded, then a diff tracked nothing on the disk,
    and then, when it is mounted, a walk found not even a directory. *)
Definition recorded_empty row (slot : string) made : Prop :=
  ∃ before s d after, made = before ++ (RSync (exempting slot), s) :: (RDiff, d) :: after ∧
    ready row slot before ∧ rk_err s = None ∧ untracked slot d ∧
    (not_mounted (ad_Mountpoint row) before ∨ walked (ad_Mountpoint row) false after).
Definition unlisted_known row made : Prop :=
  ad_RemovalState row = RemovalStateUnlisted ∨
  ∃ job, did_store (OpAdvance (ad_Mountpoint row) RemovalStateUnpooled RemovalStateUnlisted job) made.
(** snapraid.conf was written from the rows without the unlisted ones, and SnapRAID
    accepted it. *)
Definition dropped row made : Prop :=
  unlisted_known row made ∧
  ∃ a before between_ after c, made = before ++ (RStore OpGetArray, a) :: between_ ++ (RStatus, c) :: after ∧ st_err (rk_store a) = None ∧
    rk_err c = None ∧
    (from_option as_MigrationPending false (st_settings (rk_store a)) = false →
     ∃ body, Render (layoutFromStore (st_disks (rk_store a))) = Ok body ∧ did (RWriteConf "snapraid.conf" body) between_).

Definition allowed (p : DiskRemoveParams) made (e : rm) : Prop :=
  let slot := Clean (drp_Mountpoint p) in
  match e with
  | RStore OpGetArray | RIsMounted _ | RMountedUUID _ | RShareNames | RArrayReady | RDiff | RStatus | RGlob _ => True
  | RSys s => looks s
  | RSync o => o = exempting slot ∧ ∃ row, target p made row ∧ ready row slot made
  | RStore (OpAdvance m from to _) => ∃ row, target p made row ∧ m = ad_Mountpoint row ∧
      (from = RemovalStateEvacuated ∧ to = RemovalStateUnpooled ∨
       from = RemovalStateUnpooled ∧ to = RemovalStateUnlisted ∧ recorded_empty row slot made)
  | RWriteDiskMounts _ | RWriteCatchAll _ | RWriteConf _ _ => ∃ row, target p made row ∧ unlisted_known row made
  | RUnmount u => ∃ row, target p made row ∧ mu_Where u = ad_Mountpoint row ∧ dropped row made
  | RRemoveDiskMount m => ∃ row, target p made row ∧ m = ad_Mountpoint row ∧ dropped row made ∧ not_mounted m made
  | RStore (OpDelete m) => ∃ row, target p made row ∧ m = ad_Mountpoint row ∧ dropped row made ∧ not_mounted m made ∧ did (RRemoveDiskMount m) made
  | RRmdir path => ∃ row w dirs, target p made row ∧ walked (ad_Mountpoint row) true made ∧ is_mounted row made ∧
      (RSys (SVisit (Clean (ad_Mountpoint row))), w) ∈ made ∧
      dirs_of (Clean (ad_Mountpoint row)) (os_visits (rk_os w)) [] = Ok dirs ∧ path ∈ dirs
  | RUnlink path => ∃ row g, target p made row ∧ dropped row made ∧ not_mounted (ad_Mountpoint row) made ∧
      (RGlob (Join (Clean (ad_Mountpoint row)) (contentFilePrefix +:+ "*")), g) ∈ made ∧ path ∈ rk_names g
  | RStore _ => False
  end.

(** ** Facts last *)
Lemma did_mono e m m' : did e m → did e (m ++ m').
Proof. intros (a&H&?). exists a. rewrite elem_of_app. auto. Qed.
Lemma target_mono p row m m' : target p m row → target p (m ++ m') row.
Proof. intros (a&rest&->&H). by exists a, (rest ++ m'). Qed.
Lemma is_mounted_mono row m m' : is_mounted row m → is_mounted row (m ++ m').
Proof. intros (a&u&?&?&?&?). exists a, u. rewrite !elem_of_app. auto. Qed.
Lemma walked_more mp b m m' : walked mp b m → walked mp b (m ++ m').
Proof. intros (w&?&?). exists w. rewrite elem_of_app. auto. Qed.
Lemma diffed_mono slot m m' : diffed slot m → diffed slot (m ++ m').
Proof. intros (a&?&?). exists a. rewrite elem_of_app. auto. Qed.
Definition asks (mp : string) (p : rm * rm_answer) : Prop := p.1 = RIsMounted mp ∨ ∃ u, p.1 = RUnmount u.
Lemma not_mounted_mono mp m m' : not_mounted mp m → (∀ p, p ∈ m' → ¬ asks mp p) → not_mounted mp (m ++ m').
Proof.
  intros (t1&a&t2&->&He&Hy&Hn) Hm. exists t1, a, (t2 ++ m'). rewrite <-app_assoc. split_and!; [done..|].
  intros b [?|?]%elem_of_app; [by eapply Hn|]. eapply Hm; [done|]. by left.
Qed.
Lemma unlisted_mono row m m' : unlisted_known row m → unlisted_known row (m ++ m').
Proof. intros [?|(job&a&?&?)]; [by left|right]. exists job, a. rewrite elem_of_app. auto. Qed.
Lemma dropped_mono row m m' : dropped row m → dropped row (m ++ m').
Proof.
  intros (Hu&a&b&bt&af&c&->&H). split; [by apply unlisted_mono|]. exists a, b, bt, (af ++ m'), c.
  split; [|exact H]. rewrite <-app_assoc. cbn. by rewrite <-app_assoc.
Qed.

(** Calls that neither ask whether the disk is mounted nor unmount it. *)
Definition unasked (made : rcalls) : Prop := ∀ q m, q ∈ made → ¬ asks m q.
Lemma unasked_nil : unasked [].
Proof. by intros q m ?%elem_of_nil. Qed.
Lemma unasked_app m1 m2 : unasked m1 → unasked m2 → unasked (m1 ++ m2).
Proof. intros H1 H2 q m [?|?]%elem_of_app; eauto. Qed.
Lemma unasked_cons e a m : (∀ k, ¬ asks k (e, a)) → unasked m → unasked ((e, a) :: m).
Proof. intros H Hm q k [->|Hq]%elem_of_cons; [apply H|by apply Hm]. Qed.
Ltac unasks := cbn [app]; repeat first [assumption | apply unasked_nil | simple apply unasked_app | apply unasked_cons; [by intros ? [?|[? ?]]|]].

(** ** The parts of a run *)
Section run.
Context (env : environment rm rm_answer) (p : DiskRemoveParams) (tr0 : rcalls).
Abbreviation slot := (Clean (drp_Mountpoint p)).
(** The run's own calls are those after [tr0]. *)
Definition guard (tr : rcalls) (e : rm) : Prop := ∃ made, tr = tr0 ++ made ∧ allowed p made e.
Definition part {X} (m : R X) made (Q : res err X → rcalls → Prop) : Prop := cwp guard m (tr0 ++ made) Q.

Lemma part_call e made (Q : res err rm_answer → _) : allowed p made e → (∀ a, Q (Ok a) [(e, a)]) → part (call env e) made Q.
Proof. intros H HQ. apply cwp_call; [by exists made|apply HQ]. Qed.
Lemma part_bind {X Y} (m : R X) (k : X → R Y) made Q :
  part m made (λ r m1, match r with Ok x => part (k x) (made ++ m1) (λ r' m2, Q r' (m1 ++ m2)) | Err e => Q (Err e) m1 end) →
  part (m ≫= k) made Q.
Proof. intros H. apply cwp_bind. eapply cwp_mono; [exact H|]. intros [x|e] m1; [|done]. unfold part. by rewrite app_assoc. Qed.
Lemma part_rcall pre e made (Q : res err rm_answer → _) :
  allowed p made e → (∀ a, rk_err a = None → Q (Ok a) [(e, a)]) → (∀ x a, Q (Err x) [(e, a)]) → part (rcall env pre e) made Q.
Proof.
  intros H HQ HE. apply part_bind, part_call; [done|]. intros a. destruct (rk_err a) eqn:Ha; [by apply cwp_throw, HE|by apply cwp_ret, HQ].
Qed.
Lemma part_store pre op made (Q : res err store_answer → _) :
  allowed p made (RStore op) → (∀ a, st_err (rk_store a) = None → Q (Ok (rk_store a)) [(RStore op, a)]) →
  (∀ x a, Q (Err x) [(RStore op, a)]) → part (in_store env pre op) made Q.
Proof.
  intros H HQ HE. apply part_bind, part_call; [done|]. intros a. destruct (st_err (rk_store a)) eqn:Ha; [by apply cwp_throw, HE|by apply cwp_ret, HQ].
Qed.
Lemma part_mono {X} (m : R X) made (Q Q' : res err X → _) : part m made Q → (∀ r m', Q r m' → Q' r m') → part m made Q'.
Proof. apply cwp_mono. Qed.
Lemma part_ret {X} (x : X) made (Q : res err X → _) : Q (Ok x) [] → part (mret x) made Q.
Proof. apply cwp_ret. Qed.
Lemma part_throw {X} e made (Q : res err X → _) : Q (Err e) [] → part (throw e) made Q.
Proof. apply cwp_throw. Qed.

Lemma postCheck_part m made : part (postCheck env m) made (λ _ m', unasked m').
Proof.
  unfold postCheck. apply part_bind, part_rcall; [done| |intros; unasks]. intros n _.
  apply part_bind. eapply part_mono with (Q := λ _ m', unasked m').
  - unfold part. eapply cwp_mono.
    + apply (cwp_forwarded env RSys rk_os _ guard (λ _ e, looks e) _ (λ _ _, True)).
      * intros new e m' He _. exists (made ++ [(RShareNames, n)] ++ m'). rewrite <-!app_assoc. by split.
      * intros env'. apply makes_PostCheck.
      * intros env'. eapply cwp_mono; [apply EvacuationPostCheck_cwp|done].
    + intros r m' (itr&_&Hm). intros q k Hq Hk. apply list_elem_of_lookup in Hq as [i Hi].
      destruct (Forall2_lookup_r _ _ _ _ _ Hm Hi) as (?&_&H&_). unfold asks in Hk. rewrite H in Hk. by destruct Hk as [|[? ?]].
  - intros [[x|]|x] m' H; [apply part_throw|apply part_ret|]; rewrite ?app_nil_r; unasks.
Qed.
Lemma diskLeftover_part m b made :
  part (diskLeftover env m b) made (λ r m', unasked m' ∧ ∀ u, r = Ok u → walked m b m').
Proof.
  unfold diskLeftover. apply part_bind, part_call; [done|]. intros w. destruct (disk_left _ _ _ _) eqn:Hl; [apply part_throw|apply part_ret];
    (split; [unasks|]); [done|]. intros u _. exists w. split; [by left|done].
Qed.
Lemma confirmUntracked_part m made :
  part (confirmUntracked env m) made (λ r m', unasked m' ∧ ∀ u, r = Ok u → ∃ d, m' = [(RDiff, d)] ∧ untracked m d).
Proof.
  unfold confirmUntracked. apply part_bind, part_rcall; [done| |intros; split; [unasks|done]]. intros d Hd.
  destruct (_ !! _) as [counts|] eqn:Hc; [|apply part_throw; split; [unasks|done]].
  destruct (Z.eqb_spec (dd_FilesBefore counts) 0), (Z.eqb_spec (dd_FilesAfter counts) 0); cbn;
    try (apply part_throw; split; [unasks|done]).
  apply part_ret. split; [unasks|]. intros u _. exists d. split; [done|]. split; [done|]. by exists counts.
Qed.
Lemma each_part {A} (f : A → R unit) l : ∀ made,
  (∀ a m, a ∈ l → unasked m → part (f a) (made ++ m) (λ _ m', unasked m')) → part (each f l) made (λ _ m', unasked m').
Proof.
  induction l as [|a l IH]; intros made H; cbn [each]; [apply part_ret, unasked_nil|].
  apply part_bind. eapply part_mono.
  { specialize (H a [] ltac:(by left) unasked_nil). rewrite app_nil_r in H. exact H. }
  intros [u|e] m Hm; [|done]. eapply part_mono; [apply IH|intros r m' H'; by apply unasked_app].
  intros b m' Hb Hm'. rewrite <-app_assoc. apply H; [by right|by apply unasked_app].
Qed.

Context (row : ArrayDisk).
Abbreviation mp := (ad_Mountpoint row).
Lemma removeEmptyDirs_part made : target p made row → walked mp true made → is_mounted row made →
  part (removeEmptyDirs env mp) made (λ _ m', unasked m').
Proof.
  intros Ht Hw Hm. unfold removeEmptyDirs. apply part_bind, part_call; [done|]. intros w.
  destruct (dirs_of _ _ _) as [dirs|e] eqn:Hd; [|apply part_throw; unasks].
  eapply part_mono; [apply each_part|intros r m' H; unasks].
  intros d m Hin _. apply part_bind, part_rcall; [|intros; apply part_ret; unasks|intros; unasks].
  exists row, w, dirs. rewrite <-app_assoc. split_and!; [by apply target_mono|by apply walked_more|by apply is_mounted_mono| |done|].
  - rewrite !elem_of_app. right. left. by left.
  - apply list_elem_of_In, in_rev. by apply list_elem_of_In in Hin.
Qed.

(** What a run knows about the mount. *)
Definition known (mounted : bool) made : Prop := if mounted then is_mounted row made else not_mounted mp made.
Lemma known_mono mounted m m' : known mounted m → unasked m' → known mounted (m ++ m').
Proof. destruct mounted; [intros ? _; by apply is_mounted_mono|]. intros H Hu. apply not_mounted_mono; [done|]. intros q Hq. by apply Hu. Qed.

Lemma show_empty_part mounted made : target p made row → known mounted made →
  part (if mounted then _ ← postCheck env mp; _ ← diskLeftover env mp true; removeEmptyDirs env mp else confirmUntracked env slot) made
    (λ r m', unasked m' ∧ ∀ u, r = Ok u → if mounted then walked mp true m' else diffed slot m').
Proof.
  intros Ht Hk. destruct mounted.
  - apply part_bind. eapply part_mono; [apply postCheck_part|]. intros [[]|e] m1 H1; [|by split].
    apply part_bind. eapply part_mono; [apply diskLeftover_part|]. intros [[]|e] m2 [H2 Hw]; [|split; [by apply unasked_app|done]].
    specialize (Hw tt eq_refl). eapply part_mono.
    + apply removeEmptyDirs_part; [by do 2 apply target_mono| |by do 2 apply is_mounted_mono].
      destruct Hw as (w&?&?). exists w. rewrite elem_of_app. auto.
    + intros r m3 H3. split; [by repeat apply unasked_app|]. intros u _. destruct Hw as (w&?&?). exists w. rewrite !elem_of_app. auto.
  - eapply part_mono; [apply confirmUntracked_part|]. intros r m [Hu H]. split; [done|]. intros u Hr. destruct (H u Hr) as (d&->&Hd).
    exists d. split; [by left|done].
Qed.

Lemma recordEmpty_part jobID mounted made : target p made row → known mounted made →
  part (recordEmpty env row slot jobID mounted) made (λ r m', unasked m' ∧ ∀ u, r = Ok u → unlisted_known row (made ++ m')).
Proof.
  intros Ht Hk. unfold recordEmpty.
  apply part_bind, part_rcall; [done| |intros; split; [unasks|done]]. intros a Ha.
  apply part_bind. eapply part_mono; [apply (show_empty_part mounted); [by apply target_mono|apply known_mono; [done|unasks]]|].
  intros [u|e] m1 [H1 Hs]; [|split; [unasks|done]]. specialize (Hs u eq_refl).
  assert (ready row slot (made ++ [(RArrayReady, a)] ++ m1)) as Hready.
  { exists made, a, m1. split_and!; [done|done|]. destruct mounted; [by left|by right]. }
  set (m1' := [(RArrayReady, a)] ++ m1) in *. assert (unasked m1') as H1' by (unasks).
  rewrite <-app_assoc. change ([(RArrayReady, a)] ++ m1) with m1'.
  apply part_bind, part_rcall; [split; [done|]; exists row; split; [by apply target_mono|done]| |].
  2:{ intros x b. split; [unasks|done]. }
  intros s Hsync. apply part_bind. eapply part_mono; [apply confirmUntracked_part|].
  intros [u2|e] m2 [H2 Hd]; [|split; [unasks|done]].
  destruct (Hd u2 eq_refl) as (d&->&Hun). clear Hd.
  apply part_bind. eapply part_mono with (Q := λ r m', unasked m' ∧ ∀ u, r = Ok u → if mounted then walked mp false m' else True).
  { destruct mounted; [|apply part_ret; split; [apply unasked_nil|done]]. unfold when, part.
    destruct (diskLeftover_part mp false ((((made ++ m1') ++ [(RSync (exempting slot), s)]) ++ [(RDiff, d)]))) as (m3&Hm3&Hg&Hq).
    exists m3. destruct (diskLeftover env mp false _) as [[u3|e] w]; cbn in *; subst w; split_and!; try done; apply Hq. }
  intros [u3|e] m3 [H3 Hleft]; cycle 1.
  { split; [|done]. unasks. }
  specialize (Hleft u3 eq_refl). rewrite <-!app_assoc.
  assert (unasked (m1' ++ [(RSync (exempting slot), s)] ++ [(RDiff, d)] ++ m3)) as Hall.
  { unasks. }
  apply part_bind, part_store.
  - exists row. split_and!; [by apply target_mono|done|]. right. split_and!; [done..|]. exists (made ++ m1'), s, d, m3. split_and!; [by rewrite <-app_assoc|done|done|done|].
    destruct mounted; [by right|left]. apply (known_mono false); [exact Hk|done].
  - intros b Hb. apply part_ret. rewrite app_nil_r. split; [unasks|].
    intros u4 _. right. exists jobID, b. rewrite !elem_of_app. split; [|done]. do 6 right. by left.
  - intros x b. split; [|done]. unasks.
Qed.

Lemma regenerate_part made : target p made row → unlisted_known row made →
  part (regenerateArrayFromStore env) made (λ r m', unasked m' ∧ ∀ u, r = Ok u → ∃ a rest, m' = (RStore OpGetArray, a) :: rest ∧
    st_err (rk_store a) = None ∧ (from_option as_MigrationPending false (st_settings (rk_store a)) = false →
      ∃ body, Render (layoutFromStore (st_disks (rk_store a))) = Ok body ∧ did (RWriteConf "snapraid.conf" body) rest)).
Proof.
  intros Ht Hu. unfold regenerateArrayFromStore.
  apply part_bind, part_store; [done| |intros; split; [unasks|done]]. intros a Ha.
  set (settings := from_option id _ (st_settings (rk_store a))). apply part_bind. unfold of_result at 1.
  destruct (ArrayMountUnits _ _) as [units|e]; [apply part_ret; rewrite app_nil_r|apply part_throw; split; [unasks|done]].
  assert (∀ m e', match e' with RWriteDiskMounts _ | RWriteCatchAll _ | RWriteConf _ _ => True | _ => False end → allowed p (made ++ m) e') as Hok.
  { intros m e'. destruct e'; try done; intros _; exists row; (split; [by apply target_mono|by apply unlisted_mono]). }
  apply part_bind, part_rcall; [by apply Hok| |intros; split; [unasks|done]]. intros b _.
  rewrite <-app_assoc. apply part_bind, part_rcall; [by apply Hok| |].
  2:{ intros; split; [unasks|done]. }
  intros c _. rewrite <-app_assoc. assert (as_MigrationPending settings = from_option as_MigrationPending false (st_settings (rk_store a))) as Hset.
  { unfold settings. by destruct (st_settings _). }
  destruct (as_MigrationPending settings); [apply part_ret|apply part_bind; unfold of_result].
  { split; [unasks|].
    intros u _. eexists a, _. split; [reflexivity|]. split; [done|]. by rewrite <-Hset. }
  destruct (Render _) as [body|e] eqn:Hren; [apply part_ret; rewrite app_nil_r|].
  2:{ apply part_throw. split; [|done]. unasks. }
  apply part_bind, part_rcall; [by rewrite <-?app_assoc; apply Hok| |].
  - intros d Hd. apply part_ret. split; [unasks|].
    intros u _. eexists a, _. split; [reflexivity|]. split; [done|]. intros _. exists body. split; [done|]. exists d. split; [|done].
    cbn. rewrite !elem_of_cons. auto.
  - intros x d. split; [|done]. unasks.
Qed.

Lemma removeStray_part made : target p made row → dropped row made → not_mounted mp made →
  part (removeStrayContentFile env mp) made (λ _ m', unasked m').
Proof.
  intros Ht Hd Hn. unfold removeStrayContentFile. apply part_bind, part_rcall; [done| |intros; unasks]. intros g Hg.
  eapply part_mono; [apply each_part|intros r m H; unasks]. intros q m Hin Hm.
  apply part_bind, part_call.
  - exists row, g. rewrite <-app_assoc. split_and!; [by apply target_mono|by apply dropped_mono| | |done].
    + apply not_mounted_mono; [done|]. intros x Hx. assert (unasked ([(RGlob (Join (Clean mp) (contentFilePrefix +:+ "*")), g)] ++ m)) as Hun by unasks.
      by apply Hun.
    + rewrite !elem_of_app. right. left. by left.
  - intros a. destruct (rk_err a) as [e|]; [|apply part_ret; unasks]. destruct (err_is e S_NotExist); [apply part_ret|apply part_throw]; unasks.
Qed.

Lemma dropAndUnmount_part mounted made : target p made row → unlisted_known row made → known mounted made →
  part (dropAndUnmount env row mounted) made (λ r m', ∀ u, r = Ok u → did_store (OpDelete mp) m').
Proof.
  intros Ht Hu Hk. unfold dropAndUnmount. apply part_bind. unfold part at 1. apply cwp_wrapping.
  eapply cwp_mono; [by apply regenerate_part|]. intros [u|e] m1 [H1 Hreg]; [|done]. destruct (Hreg u eq_refl) as (a&rest&->&Ha&Hconf).
  set (m1 := (RStore OpGetArray, a) :: rest) in *.
  apply part_bind, part_rcall; [done| |done]. intros c Hc.
  assert (dropped row ((made ++ m1) ++ [(RStatus, c)])) as Hd.
  { split; [by do 2 apply unlisted_mono|]. exists a, made, rest, [], c. rewrite <-app_assoc. split_and!; done. }
  set (m2 := m1 ++ [(RStatus, c)]) in *. rewrite <-app_assoc in Hd |- *. change (m1 ++ [(RStatus, c)]) with m2 in Hd |- *.
  assert (unasked m2) as H2 by (unfold m2; unasks).
  apply part_bind. eapply part_mono with (Q := λ r m', ∀ u, r = Ok u → not_mounted mp ((made ++ m2) ++ m')).
  { destruct mounted; cycle 1.
    - eapply part_mono; [apply removeStray_part; [by apply target_mono|done|by apply (known_mono false)]|]. intros r m3 H3 _ _.
      apply (known_mono false); [by apply (known_mono false)|done].
    - apply part_bind, part_rcall; [exists row; split_and!; [by apply target_mono|done|done]| |done]. intros b _.
      apply part_bind, part_rcall; [done| |done]. intros st Hst. destruct (rk_yes st) eqn:Hy; [by apply part_throw|].
      apply part_ret. intros _ _. rewrite app_nil_r. exists ((made ++ m2) ++ [(RUnmount (mkMountUnit mp (ad_FSUUID row) (ad_Filesystem row) "" false ""), b)]), st, [].
      split_and!; [by rewrite <-!app_assoc|done|done|]. by intros x []%elem_of_nil. }
  intros [u2|e] m3 Hn; [|done]. specialize (Hn u2 eq_refl). rewrite <-app_assoc in Hn |- *.
  set (m4 := m2 ++ m3) in *.
  assert (target p (made ++ m4) row) as Ht4 by by apply target_mono.
  assert (dropped row (made ++ m4)) as Hd4 by (unfold m4; rewrite app_assoc; by apply dropped_mono).
  apply part_bind, part_rcall; [by exists row| |done]. intros b Hb.
  apply part_bind, part_store; [| |done].
  - exists row. split_and!; [by apply target_mono|done|by apply dropped_mono| |].
    + apply not_mounted_mono; [done|]. intros x ->%list_elem_of_singleton [?|[? ?]]; done.
    + exists b. split; [|done]. rewrite elem_of_app. right. by left.
  - intros d Hdel. apply part_bind, part_rcall; [done| |done]. intros b' _. apply part_ret. intros _ _. exists d.
    rewrite !elem_of_app. split; [|done]. do 4 right. left. by left.
Qed.
End run.

Section whole.
Context (env : environment rm rm_answer) (p : DiskRemoveParams) (tr0 : rcalls).
Abbreviation slot := (Clean (drp_Mountpoint p)).
Abbreviation guard := (guard p tr0).
Abbreviation part := (part p tr0).

Lemma mountedAs_part row made : target p made row →
  part (mountedAs env (ad_Mountpoint row) (ad_FSUUID row)) made (λ r m', ∀ b, r = Ok b → known row b (made ++ m')).
Proof.
  intros Ht. unfold mountedAs. apply part_bind, part_rcall; [done| |done]. intros m Hm. destruct (rk_yes m) eqn:Hy; cbn [negb]; cycle 1.
  { apply part_ret. intros b [= <-]. exists made, m, []. split_and!; try done. by intros ? []%elem_of_nil. }
  apply part_bind, part_rcall; [done| |done]. intros u Hu. case_bool_decide as Heq; cbn [negb]; [|by apply part_throw].
  apply part_ret. intros b [= <-]. rewrite app_nil_r. exists m, u. rewrite !elem_of_app. split_and!; try done; [right; left; by left|right; right; by left].
Qed.

Lemma removal_run_part jobID : part (removal_run env jobID p) [] (λ r m', ∀ u, r = Ok u → ∃ row, target p m' row ∧ did_store (OpDelete (ad_Mountpoint row)) m').
Proof.
  unfold removal_run. case_bool_decide as Hconf; cbn [negb]; [|by apply part_throw].
  apply part_bind, part_store; [done| |done]. intros a Ha. cbn [app].
  destruct (dataDiskRow _ _) as [row|] eqn:Hrow; [|by apply part_throw]. case_bool_decide as Hst; cbn [negb]; [|by apply part_throw].
  apply part_bind. unfold of_result. destruct (ContentPaths _) as [paths|e] eqn:Hpaths; [apply part_ret|by apply part_throw]. cbn [app].
  set (m0 := [(RStore OpGetArray, a)]).
  assert (target p m0 row) as Ht. { exists a, []. split_and!; try done. by rewrite Hpaths. }
  apply part_bind. eapply part_mono; [by apply mountedAs_part|]. intros [mounted|e] m1 Hk; [|done]. specialize (Hk mounted eq_refl).
  apply part_bind. eapply part_mono with (Q := λ _ m', unasked m').
  { destruct mounted; [|apply part_ret, unasked_nil]. apply part_bind. eapply part_mono; [apply postCheck_part|].
    intros [[]|e] m' H'; [|done]. eapply part_mono; [apply diskLeftover_part|]. intros r m'' [H'' _]. unasks. }
  intros [[]|e] m2 H2; [|done]. rewrite <-app_assoc.
  apply part_bind. eapply part_mono with (Q := λ _ m', unasked m').
  { unfold when. case_bool_decide; [|apply part_ret, unasked_nil]. apply part_bind, part_store; [|intros; apply part_ret; unasks|intros; unasks].
    exists row. split_and!; [by apply target_mono|done|by left]. }
  intros [[]|e] m3 H3; [|done]. rewrite <-app_assoc.
  set (m := m1 ++ m2 ++ m3) in *. replace (m0 ++ (m1 ++ m2) ++ m3) with (m0 ++ m) by by rewrite <-!app_assoc.
  assert (known row mounted (m0 ++ m)) as Hkm.
  { unfold m. rewrite app_assoc. by apply known_mono; [|unasks]. }
  assert (target p (m0 ++ m) row) as Htm by by apply target_mono.
  apply part_bind. eapply part_mono with (Q := λ r m', unasked m' ∧ ∀ u, r = Ok u → unlisted_known row ((m0 ++ m) ++ m')).
  { unfold when. case_bool_decide as Hun; cbn [negb]; [|by apply recordEmpty_part].
    apply part_ret. split; [apply unasked_nil|]. intros u _. by left. }
  intros [[]|e] m4 [H4 Hu]; [|done]. eapply part_mono.
  { apply (dropAndUnmount_part env p tr0 row mounted); [by apply target_mono|by apply (Hu tt)|by apply known_mono]. }
  intros r m5 Hr u ->. exists row. destruct (Hr u eq_refl) as (b&?&?). split.
  - apply (target_mono p row m0). exact Ht.
  - exists b. rewrite elem_of_cons, !elem_of_app. auto 10.
Qed.
End whole.

(** ** All runs *)
Inductive removes : rcalls → Prop :=
  | removes_none : removes []
  | removes_run env hasDeps jobID params tr r ran lost :
      removes tr → RunDiskRemove env hasDeps jobID params tr = (r, tr ++ ran ++ lost) → removes (tr ++ ran).

Lemma RunDiskRemove_cwp env hasDeps jobID params tr :
  ∃ p, cwp (guard p tr) (RunDiskRemove env hasDeps jobID params) tr (λ r m', ∀ u, r = Ok u →
    decodeDiskRemoveParams params = Ok p ∧ ∃ row, target p m' row ∧ did_store (OpDelete (ad_Mountpoint row)) m').
Proof.
  unfold RunDiskRemove. destruct (decodeDiskRemoveParams params) as [p|e]; [|exists (mkRemoveParams "" ""); by apply cwp_throw].
  exists p. destruct hasDeps; cbn [negb]; [|by apply cwp_throw]. case_bool_decide; [by apply cwp_throw|].
  pose proof (removal_run_part env p tr jobID) as H'. unfold part in H'. rewrite app_nil_r in H'.
  eapply cwp_mono; [exact H'|]. intros r m' Hr u Hok. split; [done|by eapply Hr].
Qed.
(** Each call was allowed in its own run. *)
Lemma removes_allowed tr : removes tr → ∀ before e a after, tr = before ++ (e, a) :: after →
  ∃ past made p, before = past ++ made ∧ removes past ∧ allowed p made e.
Proof.
  induction 1 as [|env hasDeps jobID params tr r ran lost Htr IH Hrun]; intros before e a after Heq; [by destruct before|].
  apply in_either in Heq as [[k Hk]|(k&->&->)]; [by eapply IH|].
  destruct (RunDiskRemove_cwp env hasDeps jobID params tr) as (p&made&Hm&Hg&_). rewrite Hrun in Hm. cbn in Hm.
  apply app_inv_head in Hm as <-. rewrite <-app_assoc in Hg.
  destruct (Hg k e a (after ++ lost) eq_refl) as (made&Hmade%app_inv_head&Hal). exists tr, k, p. by subst.
Qed.


(** ** With the table that others work on too *)
(** The calls are answered by the table; between them others may do anything but
    mark a disk unlisted. *)
Definition others (w w' : db) : Prop := ∃ ops, used ops w w' ∧ ∀ op mp, op ∈ ops → ¬ marks op mp.
Inductive stored (w0 : db) : rcalls → db → Prop :=
  | stored_none w : others w0 w → stored w0 [] w
  | stored_op tr w op fault a w' w'' : stored w0 tr w → exec fault op w = (rk_store a, w') → others w' w'' → stored w0 (tr ++ [(RStore op, a)]) w''
  | stored_other tr w e a w' : stored w0 tr w → (∀ op, e ≠ RStore op) → others w w' → stored w0 (tr ++ [(e, a)]) w'.

Lemma others_step w w' : others w w' → well_kept (db_rows w) → well_kept (db_rows w') ∧ ∀ mp, unlisted_at mp (db_rows w') → unlisted_at mp (db_rows w).
Proof.
  intros (ops&Hu&Hn) Hw. destruct (used_step _ _ _ Hu Hw) as [Hk Hnew _]. split; [done|].
  intros mp [H|(op&?&?)]%Hnew; [done|]. exfalso. by eapply Hn.
Qed.
Lemma stored_marks w0 tr w : stored w0 tr w → well_kept (db_rows w0) → well_kept (db_rows w) ∧
  ∀ mp, unlisted_at mp (db_rows w) → unlisted_at mp (db_rows w0) ∨ ∃ op a, (RStore op, a) ∈ tr ∧ marks op mp.
Proof.
  induction 1 as [w Ho|tr w op fault a w' w'' _ IH He Ho|tr w e a w' _ IH Hne Ho]; intros Hw.
  - destruct (others_step _ _ Ho Hw) as [? Hn]. split; [done|]. intros mp ?%Hn. by left.
  - destruct (IH Hw) as [Hk Hm]. pose proof (exec_step fault op w Hk) as Hs. rewrite He in Hs. destruct Hs as [Hk' Hn _].
    destruct (others_step _ _ Ho Hk') as [? Hn']. split; [done|]. intros mp [[?|(op'&b&?&?)]%Hm|?]%Hn'%Hn; [by left|right; exists op', b|right; exists op, a];
      rewrite elem_of_app; (split; [|done]); [by left|right; by left].
  - destruct (IH Hw) as [Hk Hm]. destruct (others_step _ _ Ho Hk) as [? Hn']. split; [done|].
    intros mp [?|(op'&b&?&?)]%Hn'%Hm; [by left|right; exists op', b]. rewrite elem_of_app. auto.
Qed.
(** What a read answered was in the table. *)
Lemma stored_reads w0 tr w : stored w0 tr w → ∀ before a after, tr = before ++ (RStore OpGetArray, a) :: after → st_err (rk_store a) = None →
  ∃ w1, stored w0 before w1 ∧ st_disks (rk_store a) ≡ₚ db_rows w1.
Proof.
  induction 1 as [w Ho|tr w op fault b w' w'' Hst IH He Ho|tr w e b w' Hst IH Hne Ho]; intros before a after Heq Ha; [by destruct before| |];
    (destruct after as [|x after _] using rev_ind;
      [apply app_inj_tail in Heq as [-> [=]]|rewrite app_comm_cons, app_assoc in Heq; apply app_inj_tail in Heq as [-> _]; by eapply IH]); subst; [|by destruct (Hne OpGetArray)].
  exists w. split; [done|]. cbn in He. destruct (GetArray fault w) as [[[s ds]|e] w1] eqn:Hg; injection He as He _; rewrite <-He in Ha |- *; [|done].
  cbn. unfold GetArray, mbind, stM_bind, statement, get in Hg. cbn in Hg. destruct (fault (db_run w)); [done|]. cbn in Hg.
  destruct (db_settings w); [|done]. cbn in Hg. destruct (fault _); [done|]. cbn in Hg. injection Hg as _ <- _. apply merge_sort_Permutation.
Qed.

(** A call that takes the disk itself away. *)
Definition takes_away (m : string) (e : rm) : Prop :=
  match e with RUnmount u => mu_Where u = m | RRemoveDiskMount m' | RStore (OpDelete m') => m' = m | _ => False end.
Lemma takes_allowed p made m e : takes_away m e → allowed p made e → ∃ row, target p made row ∧ m = ad_Mountpoint row ∧ dropped row made ∧
  ((∃ u, e = RUnmount u) ∨ not_mounted m made).
Proof. destruct e as [[]| | | | | | | | | | | | | | | |]; cbn; try done; intros <- (row&H); exists row; naive_solver. Qed.


(** C34: No file of the disk is removed: a run only calls rmdir, on directories that
    its own walk found on the mounted disk after another one met nothing but
    directories and content files there, and unlinks SnapRAID's content files only,
    where nothing is mounted and the configuration no longer names the disk. *)
Theorem removal_keeps_files tr before e a after : removes tr → tr = before ++ (e, a) :: after →
  match e with
  | RRmdir path => ∃ past made p row w dirs, before = past ++ made ∧ target p made row ∧ is_mounted row made ∧ walked (ad_Mountpoint row) true made ∧
      (RSys (SVisit (Clean (ad_Mountpoint row))), w) ∈ made ∧ dirs_of (Clean (ad_Mountpoint row)) (os_visits (rk_os w)) [] = Ok dirs ∧ path ∈ dirs
  | RUnlink path => ∃ past made p row g, before = past ++ made ∧ target p made row ∧ dropped row made ∧ not_mounted (ad_Mountpoint row) made ∧
      (RGlob (Join (Clean (ad_Mountpoint row)) (contentFilePrefix +:+ "*")), g) ∈ made ∧ path ∈ rk_names g
  | RSys s => looks s
  | _ => True
  end.
Proof.
  intros Htr Heq. destruct (removes_allowed _ Htr _ _ _ _ Heq) as (past&made&p&->&_&Hal). destruct e; cbn in Hal; try done.
  - destruct Hal as (row&w&dirs&Ht&Hw&Hm&Hal). by exists past, made, p, row, w, dirs.
  - destruct Hal as (row&g&Hal). exists past, made, p, row, g. tauto.
Qed.
