(* ===== verification/DiskRemoveRuns.v ===== *)
(** * A removal comes to its end

    Nothing a run does keeps a later one from finishing: from each of the stored
    removal states, a run whose calls succeed and whose disk is empty deletes the row.
    With the examples of both files. *)
From S2P Require Import Guard Engine.
From S2P Require Export DiskRemoveSafety.
Open Scope string_scope.
Open Scope list_scope.
Open Scope Z_scope.

Definition is_unmount (q : rm * rm_answer) : bool := match q.1 with RUnmount _ => true | _ => false end.

Section live.
Context (env : environment rm rm_answer) (p : DiskRemoveParams) (row : ArrayDisk) (mounted : bool) (tr0 : rcalls).
Abbreviation slot := (Clean (drp_Mountpoint p)).
Abbreviation mp := (ad_Mountpoint row).

(** From [tr0] on, every call succeeds, and what it answers is what a run hopes for. *)
Record willing : Prop := mkWilling {
  wi_ok : ∀ tr e, rk_err (env tr e) = None;
  wi_store : ∀ tr op, st_err (rk_store (env tr (RStore op))) = None;
  wi_confirmed : EvacuationConfirmation (drp_Mountpoint p) = drp_Confirmation p;
  wi_row : dataDiskRow (st_disks (rk_store (env tr0 (RStore OpGetArray)))) slot = Some row;
  wi_state : ad_RemovalState row ∈ removable_states;
  wi_valid : is_ok (ContentPaths (layoutFromStore (without_row (st_disks (rk_store (env tr0 (RStore OpGetArray)))) row))) = true;
  wi_units : ∀ tr s, is_ok (ArrayMountUnits s (st_disks (rk_store (env tr (RStore OpGetArray))))) = true;
  wi_conf : ∀ tr, is_ok (Render (layoutFromStore (st_disks (rk_store (env tr (RStore OpGetArray)))))) = true;
  wi_mount : ∀ made, rk_yes (env (tr0 ++ made) (RIsMounted mp)) = mounted && negb (existsb is_unmount made);
  wi_uuid : ∀ tr, rk_text (env tr (RMountedUUID mp)) = ad_FSUUID row;
  wi_checked : ∀ tr, (postCheck env mp tr).1 = Ok tt;
  wi_walk : ∀ tr b, disk_left (Clean mp) b (os_visits (rk_os (env tr (RSys (SVisit (Clean mp)))))) [] = None;
  wi_dirs : ∀ tr, is_ok (dirs_of (Clean mp) (os_visits (rk_os (env tr (RSys (SVisit (Clean mp)))))) []) = true;
  wi_diff : ∀ tr, untracked slot (env tr RDiff)
}.
Hypothesis will : willing.

(** A body that succeeds, run before the unmounting or after it. *)
Definition phase (unmounted : bool) (tr : rcalls) : Prop := ∃ made, tr = tr0 ++ made ∧ existsb is_unmount made = unmounted.
Definition goes {X} (m : R X) (Q : X → Prop) (b b' : bool) : Prop :=
  ∀ tr, phase b tr → ∃ x made, m tr = (Ok x, tr ++ made) ∧ Q x ∧ phase b' (tr ++ made).
Lemma goes_bind {X Y} (m : R X) (k : X → R Y) Q Q' b b1 b2 : goes m Q b b1 → (∀ x, Q x → goes (k x) Q' b1 b2) → goes (m ≫= k) Q' b b2.
Proof.
  intros Hm Hk tr HP. destruct (Hm tr HP) as (x&m1&H1&Hx&HP1). destruct (Hk x Hx _ HP1) as (y&m2&H2&Hy&HP2).
  exists y, (m1 ++ m2). rewrite app_assoc. split_and!; [|done|done]. unfold mbind, stM_bind. by rewrite H1, H2.
Qed.
Lemma goes_ret {X} (x : X) (Q : X → Prop) b : Q x → goes (mret x) Q b b.
Proof. intros H tr HP. exists x, []. by rewrite app_nil_r. Qed.
Lemma goes_ok {X} (m : R X) (Q Q' : X → Prop) b b' : goes m Q b b' → (∀ x, Q x → Q' x) → goes m Q' b b'.
Proof. intros H HQ tr Htr. destruct (H tr Htr) as (x&made&?&?&?). exists x, made. auto. Qed.
Lemma goes_call e b (Q : rm_answer → Prop) : (∀ tr, phase b tr → Q (env tr e)) → goes (call env e) Q b (b || is_unmount (e, env [] e)).
Proof.
  intros HQ tr HP. exists (env tr e), [(e, env tr e)]. split_and!; [done|by apply HQ|]. destruct HP as (made&->&Hb).
  exists (made ++ [(e, env (tr0 ++ made) e)]). rewrite <-app_assoc. split; [done|]. rewrite existsb_app, Hb. cbn. by rewrite orb_false_r.
Qed.
Lemma goes_rcall pre e b (Q : rm_answer → Prop) : (∀ tr, phase b tr → Q (env tr e)) → goes (rcall env pre e) Q b (b || is_unmount (e, env [] e)).
Proof using will.
  intros HQ. eapply goes_bind; [apply (goes_call e b (λ a, rk_err a = None ∧ Q a))|].
  - intros tr HP. split; [apply wi_ok|by apply HQ]. done.
  - intros a [-> Ha]. by apply goes_ret.
Qed.
(** A call, but the unmounting, and what follows it. *)
Lemma goes_on {X} e (k : rm_answer → R X) (Q : rm_answer → Prop) Q' b b2 : is_unmount (e, env [] e) = false → (∀ tr, phase b tr → Q (env tr e)) →
  (∀ a, Q a → goes (k a) Q' b b2) → goes (call env e ≫= k) Q' b b2.
Proof. intros He HQ Hk. eapply goes_bind; [by apply (goes_call e b Q)|]. by rewrite He, orb_false_r. Qed.
Lemma goes_next {X} pre e (k : rm_answer → R X) Q' b b2 (Q : rm_answer → Prop) : is_unmount (e, env [] e) = false → (∀ tr, phase b tr → Q (env tr e)) →
  (∀ a, Q a → goes (k a) Q' b b2) → goes (rcall env pre e ≫= k) Q' b b2.
Proof using will. intros He HQ Hk. eapply goes_bind; [by apply (goes_rcall pre e b Q)|]. by rewrite He, orb_false_r. Qed.
Lemma goes_store pre op b (Q : store_answer → Prop) : (∀ tr, phase b tr → Q (rk_store (env tr (RStore op)))) → goes (in_store env pre op) Q b b.
Proof using will.
  intros HQ. rewrite <-(orb_false_r b) at 2.
  eapply goes_bind; [apply (goes_call (RStore op) b (λ a, st_err (rk_store a) = None ∧ Q (rk_store a)))|].
  - intros tr HP. split; [by apply wi_store|by apply HQ].
  - intros a [-> Ha]. by apply goes_ret.
Qed.
Lemma goes_each {A} (f : A → R unit) l b : (∀ a, a ∈ l → goes (f a) (λ _, True) b b) → goes (each f l) (λ _, True) b b.
Proof.
  induction l as [|a l IH]; intros H; cbn [each]; [by apply goes_ret|].
  eapply goes_bind; [apply H; by left|]. intros _ _. apply IH. intros a' Ha. apply H. by right.
Qed.
Abbreviation done_ := (λ _ : (), True).

Lemma phase_unasked b made m : phase b (tr0 ++ made) → unasked m → phase b ((tr0 ++ made) ++ m).
Proof.
  intros (made'&->%app_inv_head&Hb) Hm. exists (made' ++ m). rewrite app_assoc. split; [done|]. rewrite existsb_app, Hb.
  assert (existsb is_unmount m = false) as ->; [|apply orb_false_r]. destruct (existsb is_unmount m) eqn:E; [|done].
  apply existsb_exists in E as (q&Hq%list_elem_of_In&Hu). destruct (Hm q "" Hq). right. destruct q as [e a]. destruct e; try done. by eexists.
Qed.
Lemma postCheck_goes b : goes (postCheck env mp) done_ b b.
Proof using will.
  intros tr (made&->&Hb). pose proof (wi_checked will (tr0 ++ made)) as Hok.
  destruct (postCheck_part env p tr0 mp made) as (m&Hm&_&Hun). destruct (postCheck env mp (tr0 ++ made)) as [r w]. cbn in *. subst.
  exists tt, m. split_and!; [done|done|]. apply phase_unasked; [by exists made|done].
Qed.
Lemma diskLeftover_goes d b : goes (diskLeftover env mp d) done_ b b.
Proof using will.
  unfold diskLeftover. apply (goes_on _ _ (λ a, disk_left (Clean mp) d (os_visits (rk_os a)) [] = None)); [done| |].
  - intros tr _. apply (wi_walk will).
  - intros w ->. by apply goes_ret.
Qed.
Lemma confirmUntracked_goes b : goes (confirmUntracked env slot) done_ b b.
Proof using will.
  unfold confirmUntracked. apply (goes_next _ _ _ _ _ _ (untracked slot)); [done| |].
  - intros tr _. apply (wi_diff will).
  - intros d (_&counts&->&Hb&Ha). rewrite Hb, Ha. cbn. by apply goes_ret.
Qed.
Lemma removeEmptyDirs_goes b : goes (removeEmptyDirs env mp) done_ b b.
Proof using will.
  unfold removeEmptyDirs. apply (goes_on _ _ (λ a, is_ok (dirs_of (Clean mp) (os_visits (rk_os a)) []) = true)); [done| |].
  - intros tr _. apply (wi_dirs will).
  - intros w Hw. destruct (dirs_of _ _ _) as [dirs|]; [|done]. apply goes_each. intros a _.
    apply (goes_next _ _ _ _ _ _ (λ _, True)); [done..|]. intros _ _. by apply goes_ret.
Qed.
Lemma removeStray_goes b : goes (removeStrayContentFile env mp) done_ b b.
Proof using will.
  unfold removeStrayContentFile. apply (goes_next _ _ _ _ _ _ (λ _, True)); [done..|]. intros g _. apply goes_each. intros m _.
  apply (goes_on _ _ (λ a, rk_err a = None)); [done|intros tr _; apply (wi_ok will)|]. intros a ->. by apply goes_ret.
Qed.
Lemma of_result_goes {X} pre (r : res err X) b : is_ok r = true → goes (of_result pre r) (λ x, r = Ok x) b b.
Proof. destruct r; [|done]. intros _. by apply goes_ret. Qed.
Lemma regenerate_goes b : goes (regenerateArrayFromStore env) done_ b b.
Proof using will.
  unfold regenerateArrayFromStore.
  eapply goes_bind; [apply (goes_store _ _ b (λ s, (∀ x, is_ok (ArrayMountUnits x (st_disks s)) = true) ∧ is_ok (Render (layoutFromStore (st_disks s))) = true))|].
  { intros tr _. split; [intros x; apply (wi_units will)|apply (wi_conf will)]. }
  intros st [Hu Hr]. eapply goes_bind; [by apply of_result_goes|]. intros units _.
  apply (goes_next _ _ _ _ _ _ (λ _, True)); [done..|]. intros _ _. apply (goes_next _ _ _ _ _ _ (λ _, True)); [done..|]. intros _ _.
  destruct (as_MigrationPending _); [by apply goes_ret|]. eapply goes_bind; [by apply of_result_goes|]. intros body _.
  apply (goes_next _ _ _ _ _ _ (λ _, True)); [done..|]. intros _ _. by apply goes_ret.
Qed.
Lemma wrapping_goes {X} pre (m : R X) Q b b' : goes m Q b b' → goes (wrapping pre m) Q b b'.
Proof. intros H tr Htr. destruct (H tr Htr) as (x&made&Hm&HQ). exists x, made. unfold wrapping. by rewrite Hm. Qed.

Lemma recordEmpty_goes jobID b : goes (recordEmpty env row slot jobID mounted) done_ b b.
Proof using will.
  unfold recordEmpty. apply (goes_next _ _ _ _ _ _ (λ _, True)); [done..|]. intros _ _.
  apply (goes_bind _ _ done_ _ _ b).
  { destruct mounted; [|apply confirmUntracked_goes]. eapply goes_bind; [apply postCheck_goes|]. intros _ _.
    eapply goes_bind; [apply diskLeftover_goes|]. intros _ _. apply removeEmptyDirs_goes. }
  intros _ _. apply (goes_next _ _ _ _ _ _ (λ _, True)); [done..|]. intros _ _.
  eapply goes_bind; [apply confirmUntracked_goes|]. intros _ _. apply (goes_bind _ _ done_ _ _ b).
  { destruct mounted; [|by apply goes_ret]. intros tr Htr. destruct (diskLeftover_goes false b tr Htr) as (x&made&Hm&HQ).
    exists x, made. unfold when. by rewrite Hm. }
  intros _ _. eapply goes_bind; [by apply (goes_store _ _ b (λ _, True))|]. intros _ _. by apply goes_ret.
Qed.
Lemma dropAndUnmount_goes : goes (dropAndUnmount env row mounted) done_ false mounted.
Proof using will.
  unfold dropAndUnmount. eapply goes_bind; [apply wrapping_goes, regenerate_goes|]. intros _ _.
  apply (goes_next _ _ _ _ _ _ (λ _, True)); [done..|]. intros _ _. apply (goes_bind _ _ done_ _ _ mounted).
  { pose proof (wi_mount will) as Hmount. destruct mounted; [|apply removeStray_goes].
    eapply goes_bind; [by apply (goes_rcall _ _ false (λ _, True))|]. intros _ _. cbn [orb is_unmount fst].
    apply (goes_next _ _ _ _ _ _ (λ a, rk_yes a = false)); [done| |intros a ->; by apply goes_ret].
    intros tr (made&->&Hb). by rewrite Hmount, Hb. }
  intros _ _. apply (goes_next _ _ _ _ _ _ (λ _, True)); [done..|]. intros _ _.
  eapply goes_bind; [by apply (goes_store _ _ mounted (λ _, True))|]. intros _ _.
  apply (goes_next _ _ _ _ _ _ (λ _, True)); [done..|]. intros _ _. by apply goes_ret.
Qed.

Lemma mountedAs_goes : goes (mountedAs env mp (ad_FSUUID row)) (λ b, b = mounted) false false.
Proof using will.
  unfold mountedAs. pose proof (wi_mount will) as Hmount.
  apply (goes_next _ _ _ _ _ _ (λ a, rk_yes a = mounted)); [done| |].
  { intros tr (made&->&Hb). rewrite Hmount, Hb. by destruct mounted. }
  intros m ->. destruct mounted; cbn [negb]; [|by apply goes_ret].
  apply (goes_next _ _ _ _ _ _ (λ a, rk_text a = ad_FSUUID row)); [done|intros; apply (wi_uuid will)|].
  intros u ->. rewrite bool_decide_true by done. by apply goes_ret.
Qed.
Lemma removal_run_goes jobID : ∃ made, removal_run env jobID p tr0 = (Ok tt, tr0 ++ made).
Proof using will.
  unfold removal_run. rewrite (bool_decide_true _ (wi_confirmed will)). cbn [negb].
  set (a := env tr0 (RStore OpGetArray)).
  assert (∀ {X} (k : store_answer → R X), (in_store env "" OpGetArray ≫= k) tr0 = k (rk_store a) (tr0 ++ [(RStore OpGetArray, a)])) as ->.
  { intros X k. pose proof (wi_store will tr0 OpGetArray) as Hs. fold a in Hs. unfold in_store, mbind, stM_bind, call. cbn. fold a. by rewrite Hs. }
  pose proof (wi_row will) as Hrow. fold a in Hrow. rewrite Hrow. rewrite (bool_decide_true _ (wi_state will)). cbn [negb].
  assert (phase false (tr0 ++ [(RStore OpGetArray, a)])) as Hphase by by exists [(RStore OpGetArray, a)].
  match goal with |- ∃ _, ?m _ = _ => assert (goes m done_ false mounted) as Hgoes end.
  { eapply goes_bind; [apply of_result_goes, (wi_valid will)|]. intros paths _.
    eapply goes_bind; [apply mountedAs_goes|]. intros m ->. apply (goes_bind _ _ done_ _ _ false).
    { destruct mounted; [|by apply goes_ret]. eapply goes_bind; [apply postCheck_goes|]. intros _ _. apply diskLeftover_goes. }
    intros _ _. apply (goes_bind _ _ done_ _ _ false).
    { unfold when. case_bool_decide; [|by apply goes_ret]. eapply goes_bind; [by apply (goes_store _ _ false (λ _, True))|]. intros _ _. by apply goes_ret. }
    intros _ _. apply (goes_bind _ _ done_ _ _ false).
    { unfold when. case_bool_decide; cbn [negb]; [by apply goes_ret|apply recordEmpty_goes]. }
    intros _ _. apply dropAndUnmount_goes. }
  destruct (Hgoes _ Hphase) as ([]&made&->&_). exists ([(RStore OpGetArray, a)] ++ made). by rewrite app_assoc.
Qed.
End live.


(** An evacuated disk is removed: the world answers from the table, the disk has an
    empty directory until it is removed, and is mounted until it is unmounted. *)
Module DemoRemove.
Definition disk (role : string) (n : Z) (dev mp : string) : ArrayDisk := mkArrayDisk role n dev "xfs" dev "" "" "" false mp None "" "" "".
Definition disks : list ArrayDisk :=
  [disk "parity" 1 "/dev/sdp" "/mnt/parity1"; disk "data" 1 "/dev/sda" "/mnt/disk1"; disk "data" 2 "/dev/sdb" "/mnt/disk2"; disk "data" 3 "/dev/sdc" "/mnt/disk3"].
Definition w0 : db := DemoStore.all
  [OpPut (mkSettings "mfs" "" false) disks; OpSet "/mnt/disk1" "evacuating" "j1"; OpSet "/mnt/disk1" "evacuated" "j1"] (mkDb [] None 0).
Definition table (tr : rcalls) : db := foldl (λ w q, match q.1 with RStore op => (exec (λ _, None) op w).2 | _ => w end) w0 tr.
Definition report : DiffReport := Guard.mkReport 0 0 0 0 0 0 {["/mnt/disk1" := mkDiskDiff 0 0 0]} [] [].
Definition nothing : store_answer := mkStoreAnswer None None [] false.
Definition quiet_os (vs : list visit) : os_answer := mkOsAnswer None 0 (DemoPlan.file 0) "" [] 0 false [] vs 0 (b64 0).
Definition env (mounted : bool) : environment rm rm_answer := λ tr e,
  match e with
  | RStore op => mkRmAnswer None (exec (λ _, None) op (table tr)).1 (quiet_os []) false "" [] report
  | RIsMounted _ => mkRmAnswer None nothing (quiet_os []) (mounted && negb (existsb is_unmount tr)) "" [] report
  | RMountedUUID _ => mkRmAnswer None nothing (quiet_os []) false "/dev/sda" [] report
  | RShareNames => mkRmAnswer None nothing (quiet_os []) false "" ["media"] report
  | RSys (SVisit root) => if negb (bool_decide (root = "/mnt/disk1")) then mkRmAnswer None nothing (quiet_os [mkVisit "." (Some Directory) None]) false "" [] report else
      mkRmAnswer None nothing (quiet_os (mkVisit "." (Some Directory) None ::
        (if existsb (λ q, match q.1 with RRmdir _ => true | _ => false end) tr then [] else [mkVisit "media" (Some Directory) None])
        ++ [mkVisit "snapraid.content" (Some Regular) None])) false "" [] report
  | _ => mkRmAnswer None nothing (quiet_os []) false "" [] report
  end.
Definition params : bytes := BJson (JObj [("mountpoint", JStr "/mnt/disk1"); ("confirmation", JStr "REMOVE /mnt/disk1")]).
Definition run (mounted : bool) := RunDiskRemove (env mounted) true "j2" params [].
End DemoRemove.
Example demo_removed : (DemoRemove.run true).1 = Ok tt ∧ (DemoRemove.run false).1 = Ok tt ∧
  map ad_Mountpoint (db_rows (DemoRemove.table (DemoRemove.run true).2)) = ["/mnt/parity1"; "/mnt/disk2"; "/mnt/disk3"].
Proof. split_and!; vm_compute; reflexivity. Qed.

(** The calls of a run are answered by the table alone. *)
Fixpoint alone (w : db) (tr : rcalls) : Prop :=
  match tr with
  | [] => True
  | (RStore op, a) :: tr => (exec (λ _, None) op w).1 = rk_store a ∧ alone (exec (λ _, None) op w).2 tr
  | _ :: tr => alone w tr
  end.
Lemma others_refl w : others w w.
Proof. exists []. split; [constructor|]. intros op mp []%elem_of_nil. Qed.
Lemma alone_stored w0 tr : ∀ before w, stored w0 before w → alone w tr → ∃ w', stored w0 (before ++ tr) w'.
Proof.
  induction tr as [|[e a] tr IH]; intros before w Hw H; [exists w; by rewrite app_nil_r|]. rewrite (app_assoc before [_] tr : before ++ (e, a) :: tr = _).
  assert ((∃ op, e = RStore op) ∨ ∀ op, e ≠ RStore op) as [[op ->]|Hn] by (destruct e; [left; eauto|right; done..]).
  - destruct H as [H1 H2]. eapply IH; [|exact H2]. eapply (stored_op _ _ _ _ (λ _, None)); [exact Hw| |apply others_refl].
    rewrite <-H1. by destruct (exec _ _ _).
  - eapply (IH _ w); [by eapply stored_other; [..|apply others_refl]|]. destruct e; try done. by destruct (Hn op).
Qed.
Lemma demo_removes mounted : removes (DemoRemove.run mounted).2.
Proof.
  refine (removes_run (DemoRemove.env mounted) true "j2" DemoRemove.params [] (DemoRemove.run mounted).1 (DemoRemove.run mounted).2 [] removes_none _).
  unfold DemoRemove.run. rewrite app_nil_r. by destruct (RunDiskRemove _ _ _ _ _).
Qed.



Lemma removal_keeps_files_witness :
  let tr := (DemoRemove.run true).2 in
  ∃ past made p row, take 18 tr = past ++ made ∧ target p made row ∧ is_mounted row made ∧ walked (ad_Mountpoint row) true made.
Proof.
  intros tr.
  assert (∃ a, tr = take 18 tr ++ (RRmdir "/mnt/disk1/media", a) :: drop 19 tr) as [a Ha].
  { eexists. vm_compute. reflexivity. }
  destruct (removal_keeps_files tr (take 18 tr) (RRmdir "/mnt/disk1/media") a (drop 19 tr) (demo_removes true) Ha)
    as (past&made&p&row&w&dirs&Hb&Ht&Hm&Hw&_). exists past, made, p, row. exact (conj Hb (conj Ht (conj Hm Hw))).
Defined.

(** A world that answers the same to every call but whether the disk is mounted. *)
Module DemoWilling.
Definition row : ArrayDisk := with_removal "evacuated" "j1" (DemoRemove.disk "data" 1 "/dev/sda" "/mnt/disk1").
Definition disks : list ArrayDisk :=
  [DemoRemove.disk "parity" 1 "/dev/sdp" "/mnt/parity1"; row; DemoRemove.disk "data" 2 "/dev/sdb" "/mnt/disk2"; DemoRemove.disk "data" 3 "/dev/sdc" "/mnt/disk3"].
Definition root : list visit := [mkVisit "." (Some Directory) None].
Definition env : environment rm rm_answer := λ tr e,
  match e with
  | RIsMounted _ => mkRmAnswer None DemoRemove.nothing (DemoRemove.quiet_os []) (negb (existsb is_unmount tr)) "" [] DemoRemove.report
  | _ => mkRmAnswer None (mkStoreAnswer None (Some (mkSettings "mfs" "" false)) disks false) (DemoRemove.quiet_os root) false "/dev/sda" ["media"] DemoRemove.report
  end.
Definition p : DiskRemoveParams := mkRemoveParams "/mnt/disk1" "REMOVE /mnt/disk1".
End DemoWilling.
Lemma demo_willing : willing DemoWilling.env DemoWilling.p DemoWilling.row true [].
Proof.
  constructor; try (intros; vm_compute; reflexivity); try (by intros ? []).
  - left.
  - intros tr. split; [reflexivity|]. exists (mkDiskDiff 0 0 0). split_and!; reflexivity.
Qed.
