(* ===== verification/Alike.v ===== *)
(** * Runs that differ in the answers of saves only

    What a relocation or a rebalance may do does not depend on whether saving a
    checkpoint was reported to have failed: a job that answers a save itself keeps
    its promise. *)
From S2P Require Import Guard.
From S2P Require Export RebalanceSafety.
Open Scope string_scope.
Open Scope list_scope.
Open Scope Z_scope.

Definition is_save (e : sys) : Prop := ∃ d, e = SSaveCheckpoint d.
Definition alike : trace → trace → Prop := Forall2 (λ p q, p.1 = q.1 ∧ (p.2 = q.2 ∨ is_save p.1)).
Lemma alike_refl tr : alike tr tr.
Proof. induction tr; constructor; auto. Qed.
Lemma alike_in tr tr' e a : alike tr tr' → (e, a) ∈ tr → ¬ is_save e → (e, a) ∈ tr'.
Proof.
  intros H Hin Hn. apply list_elem_of_lookup in Hin as [i Hi]. destruct (Forall2_lookup_l _ _ _ _ _ H Hi) as ([e' b]&Hb&He&Ha).
  cbn in *. subst e'. destruct Ha as [-> |]; [|done]. by eapply list_elem_of_lookup_2.
Qed.
Lemma alike_split t1 t2 tr' : alike (t1 ++ t2) tr' → ∃ t1' t2', tr' = t1' ++ t2' ∧ alike t1 t1' ∧ alike t2 t2'.
Proof. intros (t1'&t2'&?&?&->)%Forall2_app_inv_l. by exists t1', t2'. Qed.
Lemma not_save e : (∀ d, e ≠ SSaveCheckpoint d) → ¬ is_save e.
Proof. intros H [d ->]. by eapply H. Qed.
#[local] Hint Extern 1 (¬ is_save _) => apply not_save; discriminate : core.
#[local] Hint Resolve alike_in : core.

Lemma walked_alike tr tr' fd cs fd' : alike tr tr' → walked tr fd cs fd' → walked tr' fd cs fd'.
Proof. intros H. induction 1; econstructor; eauto. Qed.
Lemma resolved_alike tr tr' root cs fd : alike tr tr' → resolved tr root cs fd → resolved tr' root cs fd.
Proof. intros H (a&Hin&Ha&Hw). exists a. eauto using walked_alike. Qed.
Lemma found_alike tr tr' root rel s : alike tr tr' → found tr root rel s → found tr' root rel s.
Proof. intros H (above&a&Hc&Hr&Hin&Ha). exists above, a. eauto 7 using resolved_alike. Qed.
Lemma made_here_alike tr tr' d n : alike tr tr' → made_here tr d n → made_here tr' d n.
Proof.
  intros H (e&a&Hin&Ha&Hc). exists e, a. split_and!; [|done|done]. eapply alike_in; [done..|]. by intros [x ->].
Qed.
Lemma closed_alike root rel src tr tr' : alike tr tr' → closed root rel src tr → closed root rel src tr'.
Proof. intros H Hc Hk. destruct (Hc Hk) as (e&a&[-> | ->]&Hin&Ha); eexists _, a; eauto 8. Qed.
Lemma replay_alike tr tr' : alike tr tr' → ∀ t, CopyContent.replay tr t = CopyContent.replay tr' t.
Proof.
  induction 1 as [|[e a] [e' a'] tr tr' [He Ha] _ IH]; intros t; [done|]. cbn in He, Ha. subst e'. rewrite !replay_cons.
  destruct Ha as [-> | [d ->]]; [apply IH|]. cbn [effect]. apply IH.
Qed.
Lemma reads_true_alike F inp tr tr' : alike tr tr' → ∀ pos, reads_true F inp pos tr → reads_true F inp pos tr'.
Proof.
  induction 1 as [|[e a] [e' a'] tr tr' [He Ha] _ IH]; intros pos; [done|]. cbn in He, Ha. subst e'. cbn [reads_true].
  destruct Ha as [-> | [d ->]]; intros [H1 H2]; [split; [done|by apply IH]|].
  cbn in *. split; [by destruct (os_err a')|]. apply IH. by destruct (os_err a), (os_err a').
Qed.
Lemma alike_sym tr tr' : alike tr tr' → alike tr' tr.
Proof. induction 1 as [|[e a] [e' a'] ?? [He Ha]]; constructor; cbn in *; [|done]. subst e'. split; [done|]. destruct Ha as [-> |]; auto. Qed.

Section alike.
Context (sha256 : data → string) (at_target : ManifestEntry → string → Prop) (verify : bool).
Lemma copied_alike src fd name tr tr' : alike tr tr' → copied sha256 src fd name verify tr → copied sha256 src fd name verify tr'.
Proof.
  intros H. unfold copied. case_bool_decide.
  - intros (before&after&inp&nd&->&(a&st&H1&H2&H3&H4&H5)&Hn&Hb&Hs&Hf). apply alike_split in H as (b'&a'&->&Hbefore&Hafter).
    exists b', a', inp, nd. split; [done|]. split; [exists a, st; eauto 10|]. split; [by rewrite <-(replay_alike _ _ Hafter)|].
    split; [exact Hb|]. split; [exact Hs|].
    intros F HF. destruct (Hf F) as [? Hv]; [by eapply reads_true_alike, HF; apply alike_sym|]. split; [done|].
    intros Hver. destruct (Hv Hver) as (fd'&x&?&?). exists fd', x. eauto.
  - intros (before&after&nd&->&Hn&Hb&Hl). apply alike_split in H as (b'&a'&->&Hbefore&Hafter). exists b', a', nd.
    split; [done|]. split; [by rewrite <-(replay_alike _ _ Hafter)|]. split; [exact Hb|]. intros Hk. destruct (Hl Hk) as (a&?&?). exists a. eauto.
Qed.
Lemma pending_alike src dst tr tr' : alike tr tr' → pending sha256 src dst verify tr → pending sha256 src dst verify tr'.
Proof.
  intros H (H1&H2&H3&H4). split_and!; [done..|]. destruct (fi_Kind (se_info src)); try done.
  - intros Hv. destruct (H4 Hv) as (p&q&a&b&?&?&?&?&?). exists p, q, a, b. eauto 10.
  - destruct H4 as (d&n&p&a&b&?&?&?). exists d, n, p, a, b. eauto 10.
Qed.
Lemma in_place_alike root dst src tr tr' : alike tr tr' → in_place_at sha256 root dst src verify tr → in_place_at sha256 root dst src verify tr'.
Proof.
  intros H [(comps&fd&Hb&Hr&Hc)|(a&Hin&Ha&Hp)]; [left|right].
  - exists comps, fd. split_and!; [done|by eapply resolved_alike|by eapply copied_alike].
  - exists a. split_and!; [eauto|done|by eapply pending_alike].
Qed.
Lemma verified_alike me tr tr' : alike tr tr' → verified sha256 at_target verify me tr → verified sha256 at_target verify me tr'.
Proof.
  intros H (src&dst&t1&t2&t3&->&Hat&Hf&Hs&Ht&Hp). apply alike_split in H as (t1'&t'&->&H1&(t2'&t3'&->&H2&H3)%alike_split).
  exists src, dst, t1', t2', t3'. eauto 10 using found_alike, in_place_alike.
Qed.
Lemma secured_alike me tr tr' : alike tr tr' → secured sha256 at_target verify me tr → secured sha256 at_target verify me tr'.
Proof.
  intros H (m&a&t1&t2&->&Ha&Hin&Hv). apply alike_split in H as (t1'&t'&->&H1&H2).
  apply Forall2_cons_inv_l in H2 as ([e b]&t2'&[He [Hb|[d Hd]]]&H2&->); cbn in *; [|done]. subst e b.
  exists m, a, t1', t2'. eauto using verified_alike.
Qed.
Lemma phase_ok_alike phase ms tr tr' : alike tr tr' → phase_ok sha256 at_target verify phase ms tr → phase_ok sha256 at_target verify phase ms tr'.
Proof.
  intros H [H1 H2]. split; intros Hph; [specialize (H1 Hph)|specialize (H2 Hph)]; (eapply Forall_impl; [eassumption|]); intros me;
    [by apply verified_alike|by apply secured_alike].
Qed.
Lemma removable_alike tr tr' d n : alike tr tr' → removable sha256 at_target verify tr d n → removable sha256 at_target verify tr' d n.
Proof.
  intros H (me&src&t1&t2&->&Hs&Hf&Hm&Hc&Hd). apply alike_split in H as (t1'&t2'&->&H1&H2).
  exists me, src, t1', t2'. eauto 10 using secured_alike, found_alike, closed_alike.
Qed.
Lemma relocates_alike tr tr' e : alike tr tr' → relocates sha256 at_target verify tr e → relocates sha256 at_target verify tr' e.
Proof.
  intros H. destruct e; cbn; try done.
  - by apply made_here_alike.
  - intros [[? ?]|?]; [left|right]; eauto using made_here_alike, removable_alike.
  - by apply made_here_alike.
  - intros Hm. eapply Forall_impl; [exact Hm|]. intros me. by apply verified_alike.
Qed.
End alike.
