(* ===== verification/EvacuationRun.v ===== *)
(** * The job that evacuates a disk

    [internal/job/evacuation_run.go]: the disk is marked, the pool regenerated, the
    plan run as a rebalance whose calls the job answers, the disk checked and marked
    again; and what the job lets go of when it ends or is cancelled. The rebalance
    is [internal/cache]'s own, under a handler: its syncs exempt the disk, and its
    checkpoints also put the batch's manifest in the store. The array's store, the
    manifest's store, the scheduler and the regeneration of the pool are calls. What
    is written to the log is left out. *)
From S2P Require Import Guard.
From S2P Require Export Handlers Params.
Open Scope string_scope.
Open Scope list_scope.
Open Scope Z_scope.

Inductive ev :=
  | VSys (e : sys)
  | VSave (data : bytes)
  | VSync (manifest : list ManifestEntry) (removingDisks : gset string)
  | VSetState (mountpoint state jobID : string)
  | VReleaseState (mountpoint jobID : string)
  | VArrayReady
  | VCurrent
  | VReplace (manifest : list ManifestEntry) (removingDisks : gset string)
  | VShares
  | VKeepForResume.
(** A call's error, what the host returned, a yes or no, the removing disks of the
    store, or the shares. *)
Record ev_answer := mkEvAnswer {
  ek_err : option err;
  ek_os : os_answer;
  ek_yes : bool;
  ek_disks : gmap string bool;
  ek_shares : list Share
}.
Abbreviation E := (stM (calls ev ev_answer) err).

(** The answer of a call of the rebalance that the job answers. *)
Definition reply (e : option err) : os_answer := answered e 0 (mkFileInfo Regular 0 0 0 0 0 0 0 0 0 0 0) "" [] 0 false [].
Definition result_err {X} (r : res err X) : option err := match r with Ok _ => None | Err e => Some e end.
(** The outcome of a body as a value. *)
Definition tried {X} (m : E X) : E (res err X) := λ tr, let (r, tr') := m tr in (Ok r, tr').

(** What the calls of a job were for the rebalance it ran. *)
Definition as_host (p : ev * ev_answer) : option (sys * os_answer) :=
  match p.1 with
  | VSys e => Some (e, ek_os p.2)
  | VSave d => Some (SSaveCheckpoint d, reply (ek_err p.2))
  | VSync m _ => Some (SSync m, reply (ek_err p.2))
  | _ => None
  end.
Definition host (tr : calls ev ev_answer) : calls sys os_answer := omap as_host tr.

(** [persistedBatchStart] after the calls a run's rebalance has made. *)
Definition persistedBatchStart (before : calls sys os_answer) : Z :=
  foldl (λ b p, match p with
    | (SSaveCheckpoint d, a) =>
        match os_err a, unmarshal_Rebalance d with
        | None, Ok cp => if bool_decide (rb_Manifest cp = []) then b else rb_BatchStart cp
        | _, _ => b
        end
    | _ => b
    end) (-1) before.

Definition combineEvacuationErr (runErr : option err) (cleanupDescription : string) (cleanupErr : err) : err :=
  match runErr with
  | None => wrap ("job: evacuation: " +:+ cleanupDescription +:+ ": ") cleanupErr
  | Some e => EWrap "" e (" (also failed " +:+ cleanupDescription +:+ ": " +:+ err_string cleanupErr +:+ ")")
  end.
Definition manifest_clear_failed : string := "evacuation_cancel_manifest_clear_failed".
Definition reapply_failed : string := "evacuation_cancel_reapply_failed".

Section evacuation.
Context (env : environment ev ev_answer).

Definition ecall (pre : string) (e : ev) : E ev_answer :=
  a ← call env e; match ek_err a with Some x => throw (wrap pre x) | None => mret a end.

Definition persistEvacuationManifestOnCheckpoint (mountpoint : string) (persisted : Z) (data : bytes) : E unit :=
  _ ← ecall "" (VSave data);
  match unmarshal_Rebalance data with
  | Err e => throw (wrap "job: evacuation: decoding rebalance checkpoint: " e)
  | Ok cp =>
      if bool_decide (rb_Manifest cp = []) || (rb_BatchStart cp =? persisted) then mret tt
      else
        _ ← ecall "job: evacuation: persisting relocation manifest: " (VReplace (rb_Manifest cp) {[mountpoint]});
        mret tt
  end.

Definition clearOwnedEvacuationManifest (mountpoint : string) : E unit :=
  c ← ecall "reading relocation manifest: " VCurrent;
  if negb (bool_decide (size (ek_disks c) = 1%nat)) || negb (default false (ek_disks c !! mountpoint)) then mret tt
  else _ ← ecall "clearing relocation manifest: " (VReplace [] ∅); mret tt.

Definition releaseRemovalState (mountpoint jobID : string) : E unit :=
  a ← ecall "" (VReleaseState mountpoint jobID);
  if negb (ek_yes a) then mret tt
  else _ ← ecall "reapplying the live pool: " VArrayReady; mret tt.

(** Whether a store for the manifest, and a count of the tracked files, is set. *)
Context (hasManifest hasCount : bool).

Definition saveCheckpoint (mountpoint : string) (before : calls sys os_answer) (data : bytes) : E unit :=
  if hasManifest then persistEvacuationManifestOnCheckpoint mountpoint (persistedBatchStart before) data
  else _ ← ecall "" (VSave data); mret tt.

(** The calls of the rebalance. *)
Definition handle (mountpoint : string) : handler ev ev_answer sys os_answer := λ before e tr,
  match e with
  | SSync m => let r := VSync m {[mountpoint]} in let a := env tr r in (reply (ek_err a), tr ++ [(r, a)])
  | SSaveCheckpoint d => let (r, tr') := saveCheckpoint mountpoint before d tr in (reply (result_err r), tr')
  | _ => let a := env tr (VSys e) in (ek_os a, tr ++ [(VSys e, a)])
  end.

Definition earlyReturnErr (mountpoint : string) (runErr : err) : E unit :=
  if negb hasManifest then throw runErr
  else
    r ← tried (clearOwnedEvacuationManifest mountpoint);
    match r with
    | Ok _ => throw runErr
    | Err clearErr =>
        throw (ECancelCleanup manifest_clear_failed (combineEvacuationErr (Some runErr) "clearing relocation manifest" clearErr))
    end.

Section run.
Context (sha256 : data → string) (euid : Z) (open : OpenChecker) (cfg : Config).
Context (jobID : string).

(** The rebalance takes up after the calls made for it before; that it comes to an
    end is a theorem of its own. *)
Definition rebalance_did_not_end : err := EOther "the rebalance did not end".
Definition rebalanced (p : EvacuationParams) (checkpoint : bytes) : E (Report * option err) := λ tr,
  (r ← handled (handle (ep_Mountpoint p)) (host tr) (λ inner, RunRebalance inner sha256 euid open true hasCount (ep_Plan p) cfg checkpoint);
   match r with Some x => mret x | None => throw rebalance_did_not_end end) tr.

(** Whether a run that ended so is kept for a resume. *)
Definition keeps (report : Report) (e : option err) : E bool :=
  if bool_decide (e = None) && rp_Interrupted report then
    c ← call env (VSys SCtxErr);
    match os_err (ek_os c) with
    | Some _ => mret false
    | None => k ← call env VKeepForResume; mret (ek_yes k)
    end
  else mret false.

Definition finish (p : EvacuationParams) (report : Report) (e : option err) : E unit :=
  let mp := ep_Mountpoint p in
  match e with
  | Some e => throw e
  | None =>
      if rp_Interrupted report then mret tt
      else
        s ← ecall "job: evacuation: loading shares for post-check: " VShares;
        x ← forwarded env VSys ek_os (λ inner, EvacuationPostCheck inner mp (ek_shares s));
        match x with
        | Some e => throw (wrap "job: evacuation: " e)
        | None => _ ← ecall ("job: evacuation: marking " +:+ mp +:+ " evacuated: ") (VSetState mp RemovalStateEvacuated jobID); mret tt
        end
  end.

Definition evacuation_run (p : EvacuationParams) (checkpoint : bytes) : E unit :=
  let mp := ep_Mountpoint p in
  a ← call env (VSetState mp RemovalStateEvacuating jobID);
  match ek_err a with
  | Some e => earlyReturnErr mp (wrap ("job: evacuation: marking " +:+ mp +:+ " removing: ") e)
  | None =>
      b ← call env VArrayReady;
      match ek_err b with
      | Some e => earlyReturnErr mp (wrap "job: evacuation: applying no-create to the live pool: " e)
      | None =>
          r ← rebalanced p checkpoint;
          resumable ← keeps r.1 r.2;
          _ ← when (hasManifest && negb resumable)
                (c ← call env (VReplace [] ∅);
                 match ek_err c with
                 | Some x => throw (ECancelCleanup manifest_clear_failed (combineEvacuationErr r.2 "clearing relocation manifest" x))
                 | None => mret tt
                 end);
          finish p r.1 r.2
      end
  end.

(** [alreadyReported.Code] *)
Definition reported_code (e : option err) : string := from_option fst "" (e ≫= as_cleanup).
Definition finished_with (e : option err) : E unit := match e with Some e => throw e | None => mret tt end.

(** Whether every dependency is set. *)
Context (hasDeps : bool).
Definition RunEvacuation (params checkpoint : bytes) : E unit :=
  match decodeEvacuationParams params with
  | Err e => throw e
  | Ok p =>
      if negb hasDeps then throw (EOther "job: evacuation is missing dependencies")
      else if bool_decide (jobID = "") then throw (EOther "job: evacuation: the run has no job id to hold the removal state")
      else
        r ← tried (evacuation_run p checkpoint);
        let e := result_err r in
        c ← call env (VSys SCtxErr);
        match os_err (ek_os c) with
        | None => finished_with e
        | Some _ =>
            rel ← tried (releaseRemovalState (ep_Mountpoint p) jobID);
            let code := reported_code e in
            match rel, e with
            | Err x, _ =>
                throw (ECancelCleanup (if bool_decide (code = "") then reapply_failed else code)
                         (combineEvacuationErr e "releasing the removal state after cancel" x))
            | Ok _, Some e => if bool_decide (code = "") then throw e else throw (ECancelCleanup code e)
            | Ok _, None => mret tt
            end
        end
  end.
End run.

(** The cancel of a job that is not running. *)
Definition EvacuationAbort (id : string) (params : bytes) : E unit :=
  match decodeEvacuationParams params with
  | Err e => throw e
  | Ok p =>
      _ ← wrapping "job: evacuation: " (clearOwnedEvacuationManifest (ep_Mountpoint p));
      wrapping "job: evacuation: releasing removal state: " (releaseRemovalState (ep_Mountpoint p) id)
  end.
End evacuation.
