(* ===== verification/EvacuationRunSafety.v ===== *)
(** * What an evacuation may remove, and what it lets go of

    Over all runs of a job that evacuates a disk, resumed or cut off anywhere: the
    rebalance it runs keeps its promise although the job answers its calls, every
    sync exempts this disk alone, and nothing is touched before the disk is marked
    and the pool regenerated. However a run ends, the exemption that is stored for
    it does not outlive it unseen. *)
From S2P Require Import Guard.
From S2P Require Export EvacuationRun Alike EvacuateSafety.
Open Scope string_scope.
Open Scope list_scope.
Open Scope Z_scope.

(** ** The rebalance's calls are answered *)
Lemma rebalance_makes env sha256 euid open cfg hasSync hasCount plan data :
  makes env (λ _, True) (RunRebalance env sha256 euid open hasSync hasCount plan cfg data).
Proof.
  assert (∀ {X} (m : M X), makes env inside m → makes env (λ _, True) m) as Hin by (intros; by eapply makes_weaken).
  assert (∀ batch pre ms report, makes env (λ _, True) (copy_moves env sha256 euid open batch cfg pre ms report)) as Hcopy.
  { induction batch as [|mv batch IH]; intros pre ms report; cbn [copy_moves]; unfold stopping, rebalanceCopyItem, sys_call; [apply makes_ret|].
    apply makes_bind; [by body_makes|]. intros b. destruct (b : bool); [apply makes_ret|].
    apply makes_bind; [apply Hin, inside_copyItem|]. intros [e|m]; apply IH. }
  assert (∀ cp rest i report, makes env (λ _, True) (rebalance_delete_loop env open cp i rest report)) as Hdel.
  { intros cp. induction rest as [|me rest IH]; intros i report; cbn [rebalance_delete_loop];
      unfold stopping, finishRebalanceDelete, checkpointRebalance, sys_call; [apply makes_ret|].
    apply makes_bind; [by body_makes|]. intros b. destruct (b : bool); [apply makes_ret|].
    apply makes_bind; [case_match; apply Hin, inside_removeSource|]. intros e.
    apply makes_bind; [by body_makes|]. intros [x|]; [apply makes_ret|apply IH]. }
  assert (∀ moves report cp, makes env (λ _, True) (run_batch env sha256 euid open moves cfg report cp)) as Hbatch.
  { intros. unfold run_batch, then_phase, size_batch, copy_batch, sync_batch, delete_batch, final_sync_batch, rebalanceCopyBatch,
      rebalanceDeleteBatch, saved_next, stopping, checkpointRebalance, rebalanceBatchSize, rebalanceRecheckSafe, rebalanceBatchLimit,
      rebalancePercentLimit, sys_call.
    pose proof (Hin _ _ (inside_shareOpenChecker env open)).
    repeat first [ apply Hcopy | apply Hdel | assumption | exact I | apply makes_ret | apply makes_throw | apply makes_must | apply makes_try
      | apply makes_call | apply makes_bind; [|intros ?] | case_match ]. }
  assert (∀ fuel moves report cp, makes env (λ _, True) (run_batches env sha256 euid open fuel moves cfg report cp)) as Hrun.
  { induction fuel as [|fuel IH]; intros moves report cp; cbn [run_batches]; [case_match; apply makes_ret|].
    case_match; [apply makes_ret|]. apply makes_bind; [apply Hbatch|]. intros [rep [cp'|i e]]; [apply IH|apply makes_ret]. }
  unfold RunRebalance, sys_call. by repeat first [apply Hrun | apply makes_ret | apply makes_call | apply makes_bind; [|intros ?] | case_match].
Qed.

(** ** What a run may call *)
Abbreviation vcalls := (calls ev ev_answer).
Implicit Types (made tr : vcalls).

Lemma host_app tr made : host (tr ++ made) = host tr ++ host made.
Proof. apply omap_app. Qed.

Section job.
Context (sha256 : data → string) (euid : Z) (open : OpenChecker) (cfg : Config) (jobID : string) (p : EvacuationParams).
Abbreviation mp := (ep_Mountpoint p).
Abbreviation verify := (cfg_VerifyChecksum cfg).
Abbreviation sound := (rebalance_sound sha256 cfg).

(** The run has marked the disk and then regenerated the pool. *)
Definition prepared made : Prop :=
  ∃ a b m, made = (VSetState mp RemovalStateEvacuating jobID, a) :: (VArrayReady, b) :: m ∧ ek_err a = None ∧ ek_err b = None.
(** The check passed the disk, by the shares that were listed for it. *)
Definition checked made : Prop :=
  ∃ s, (VShares, s) ∈ made ∧ ek_err s = None ∧ passed mp (ek_shares s) (host made).
(** The last call saved a checkpoint that carries the manifest. *)
Definition just_saved (m : list ManifestEntry) made : Prop :=
  ∃ m' d a cp, made = m' ++ [(VSave d, a)] ∧ ek_err a = None ∧ unmarshal_Rebalance d = Ok cp ∧ rb_Manifest cp = m ∧ m ≠ [].
Definition cancelled made : Prop := ∃ m c, made = m ++ [(VSys SCtxErr, c)] ∧ os_err (ek_os c) ≠ None.

Definition allowed (past made : vcalls) (e : ev) : Prop :=
  match e with
  | VSys s => runs sha256 RebalanceSafety.placed verify sound (host (past ++ made)) s ∧ (looks s ∨ prepared made)
  | VSave d => sound d (host (past ++ made)) ∧ prepared made
  | VSync m removing => Forall (λ me, verified sha256 RebalanceSafety.placed verify me (host (past ++ made))) m ∧ removing = {[mp]} ∧ prepared made
  | VSetState m state j => m = mp ∧ j = jobID ∧
      (state = RemovalStateEvacuating ∧ made = [] ∨ state = RemovalStateEvacuated ∧ prepared made ∧ checked made)
  | VReleaseState m j => m = mp ∧ j = jobID ∧ cancelled made
  | VReplace m removing => m = [] ∧ removing = ∅ ∨ removing = {[mp]} ∧ just_saved m made ∧ prepared made
  | VArrayReady | VCurrent | VShares | VKeepForResume => True
  end.
Definition guard (past tr : vcalls) (e : ev) : Prop := ∃ made, tr = past ++ made ∧ allowed past made e.

Lemma prepared_mono made m : prepared made → prepared (made ++ m).
Proof. intros (a&b&m'&->&H). by exists a, b, (m' ++ m). Qed.
Lemma checked_mono made m : checked made → checked (made ++ m).
Proof.
  intros (s&Hin&Hs&Hp). exists s. split_and!; [apply elem_of_app; by left|done|]. rewrite host_app.
  eapply passed_mono, Hp. apply subseteq_app_l.
Qed.

Lemma runs_alike (t t' : trace) e :
  alike t t' → runs sha256 RebalanceSafety.placed verify sound t e → runs sha256 RebalanceSafety.placed verify sound t' e.
Proof.
  intros H [Hr Hs]. split; [by eapply relocates_alike|]. destruct e; try done. intros cp Hcp. by eapply phase_ok_alike, Hs.
Qed.

Section run.
Context (env : environment ev ev_answer) (past : vcalls).
Definition part {X} (m : E X) made (Q : res err X → vcalls → Prop) : Prop := cwp (guard past) m (past ++ made) Q.
Lemma ev_part_call e made (Q : res err ev_answer → _) : allowed past made e → (∀ a, Q (Ok a) [(e, a)]) → part (call env e) made Q.
Proof. intros H HQ. apply cwp_call; [by exists made|apply HQ]. Qed.
Lemma ev_part_bind {X Y} (m : E X) (k : X → E Y) made Q :
  part m made (λ r m1, match r with Ok x => part (k x) (made ++ m1) (λ r' m2, Q r' (m1 ++ m2)) | Err e => Q (Err e) m1 end) →
  part (m ≫= k) made Q.
Proof. intros H. apply cwp_bind. eapply cwp_mono; [exact H|]. intros [x|e] m1; [|done]. unfold part. by rewrite app_assoc. Qed.
Lemma part_ecall pre e made (Q : res err ev_answer → _) :
  allowed past made e → (∀ a, ek_err a = None → Q (Ok a) [(e, a)]) → (∀ x a, ek_err a = Some x → Q (Err (wrap pre x)) [(e, a)]) →
  part (ecall env pre e) made Q.
Proof.
  intros H HQ HE. apply ev_part_bind, ev_part_call; [done|]. intros a. destruct (ek_err a) eqn:Ha; [by apply cwp_throw, HE|by apply cwp_ret, HQ].
Qed.
Lemma ev_part_mono {X} (m : E X) made (Q Q' : res err X → _) : part m made Q → (∀ r m', Q r m' → Q' r m') → part m made Q'.
Proof. apply cwp_mono. Qed.
Lemma part_tried {X} (m : E X) made (Q : res err (res err X) → _) : part m made (λ r m', Q (Ok r) m') → part (tried m) made Q.
Proof. intros (m'&Hs&Hg&HQ). exists m'. unfold tried. destruct (m (past ++ made)). by split_and!. Qed.

(** A save, with the manifest put in the store. *)
Lemma saveCheckpoint_part hasManifest before d made : sound d (host (past ++ made)) → prepared made →
  part (saveCheckpoint env hasManifest mp before d) made (λ _ m, ∃ a, host m = [(SSaveCheckpoint d, a)]).
Proof.
  intros Hs Hp. unfold saveCheckpoint. destruct hasManifest.
  - apply ev_part_bind, part_ecall; [done| |by eexists]. intros a Ha. destruct (unmarshal_Rebalance d) as [cp|] eqn:Hcp; [|apply cwp_throw; by eexists].
    destruct (_ || _) eqn:Hm; [apply cwp_ret; by eexists|]. apply orb_false_iff in Hm as [Hm%bool_decide_eq_false _].
    apply ev_part_bind, part_ecall.
    + right. split_and!; [done| |by apply prepared_mono]. by exists made, d, a, cp.
    + intros b _. apply cwp_ret. by eexists.
    + by eexists.
  - apply ev_part_bind, part_ecall; [done| |by eexists]. intros a _. apply cwp_ret. by eexists.
Qed.

(** The rebalance, its calls answered by the job, keeps its promise. *)
Lemma rebalanced_part hasManifest hasCount checkpoint made :
  movable_moves (rp_Moves (ep_Plan p)) → sound checkpoint (host (past ++ made)) → prepared made →
  part (rebalanced env hasManifest hasCount sha256 euid open cfg p checkpoint) made (λ r _, ∃ x, r = Ok x).
Proof.
  intros Hmv Hs Hp. unfold part, rebalanced. set (tr := past ++ made).
  apply cwp_bind.
  eapply cwp_mono; [apply (cwp_handled _ (guard past) (runs sha256 RebalanceSafety.placed verify sound) (λ new m, alike new (host m)))|].
  - apply alike_refl.
  - intros new e m Hi Hal. assert (runs sha256 RebalanceSafety.placed verify sound (host (tr ++ m)) e) as Hr.
    { rewrite host_app. eapply runs_alike, Hi. apply Forall2_app; [apply alike_refl|done]. }
    assert (prepared (made ++ m)) as Hpm by by apply prepared_mono.
    assert (∀ call a, as_host (call, a) = Some (e, ek_os a) → allowed past (made ++ m) call →
      let r := (ek_os a, (tr ++ m) ++ [(call, a)]) in ∃ made', r.2 = (tr ++ m) ++ made' ∧ guarded (guard past) (tr ++ m) made' ∧
        alike (new ++ [(e, r.1)]) (host (m ++ made'))) as Hone.
    { intros c a Hc Hal'. eexists [_]. split_and!; [done| |].
      - apply guarded_one. exists (made ++ m). split; [by rewrite app_assoc|done].
      - rewrite host_app. apply Forall2_app; [done|]. cbn. rewrite Hc. by repeat constructor. }
    unfold tr in *. rewrite <-app_assoc in Hr.
    destruct e; try (apply Hone; [done|]; split; [exact Hr|by right]); cbn [handle].
    + assert (part (saveCheckpoint env hasManifest mp new data) (made ++ m) (λ _ m, ∃ a, host m = [(SSaveCheckpoint data, a)])) as
        (m'&Hsnd&Hg&a&Ha); [apply saveCheckpoint_part; [apply Hr|done]|].
      rewrite app_assoc in Hsnd, Hg. destruct (saveCheckpoint _ _ _ _ _ _) as [r tr'] eqn:Hsv. cbn in Hsnd. subst tr'.
      exists m'. split_and!; [done|done|]. rewrite host_app, Ha. apply Forall2_app; [done|]. constructor; [|constructor]. split; [done|right; by exists data].
    + eexists [_]. split_and!; [done| |].
      * apply guarded_one. exists (made ++ m). split; [by rewrite app_assoc|]. split_and!; [apply Hr|done|done].
      * rewrite host_app. apply Forall2_app; [done|]. by repeat constructor.
  - apply rebalance_makes.
  - by apply RunRebalance_cwp.
  - intros r m (itr&(x&->)&_&_). apply cwp_ret. by eexists.
Qed.

(** ** How a run ends *)
Definition unreplaced (m : vcalls) : Prop := ∀ ms removing a, (VReplace ms removing, a) ∉ m.
Definition owned (c : ev_answer) : Prop := size (ek_disks c) = 1%nat ∧ ek_disks c !! mp = Some true.
(** The run is kept for a resume; or the last it put in the manifest's store is
    nothing at all, and that succeeded; or it put nothing there, and what was there
    was not this disk's. *)
Definition kept (m : vcalls) : Prop := ∃ k, (VKeepForResume, k) ∈ m ∧ ek_yes k = true.
Definition cleared (m : vcalls) : Prop := ∃ m1 a m2, m = m1 ++ (VReplace [] ∅, a) :: m2 ∧ ek_err a = None ∧ unreplaced m2.
Definition not_ours (m : vcalls) : Prop := unreplaced m ∧ ∃ c, (VCurrent, c) ∈ m ∧ ek_err c = None ∧ ¬ owned c.
Definition let_go (m : vcalls) : Prop := kept m ∨ cleared m ∨ not_ours m.
(** Or its error says that the store could not be cleared. *)
Definition clear_failed (r : res err unit) : Prop := ∃ e msg, r = Err e ∧ as_cleanup e = Some (manifest_clear_failed, msg).

Lemma unreplaced_nil : unreplaced [].
Proof. by intros ??? ?%elem_of_nil. Qed.
Lemma unreplaced_app m1 m2 : unreplaced m1 → unreplaced m2 → unreplaced (m1 ++ m2).
Proof. intros H1 H2 ms rd a [?|?]%elem_of_app; [by eapply H1|by eapply H2]. Qed.
Lemma unreplaced_cons e a m : (∀ ms rd, e ≠ VReplace ms rd) → unreplaced m → unreplaced ((e, a) :: m).
Proof. intros H Hm ms rd b [[= ? _]|?]%elem_of_cons; [by eapply H|by eapply Hm]. Qed.
Lemma unreplaced_sys m : Forall (λ q, ∃ s, q.1 = VSys s) m → unreplaced m.
Proof. intros H ms rd a Hin. rewrite Forall_forall in H. by destruct (H _ Hin) as [s [=]]. Qed.
Lemma let_go_app m1 m2 m3 : let_go m2 → unreplaced m1 → unreplaced m3 → let_go (m1 ++ m2 ++ m3).
Proof.
  intros [(k&?&?)|[(a&x&b&->&?&?)|[H (c&?&?)]]] Hm1 Hm3; [left|right; left|right; right].
  - exists k. rewrite !elem_of_app. auto.
  - exists (m1 ++ a), x, (b ++ m3). rewrite <-!app_assoc. split_and!; [done|done|by apply unreplaced_app].
  - split; [by repeat apply unreplaced_app|]. exists c. rewrite !elem_of_app. auto.
Qed.
Ltac unreplaces := cbn [app]; repeat first [assumption | apply unreplaced_nil | simple apply unreplaced_app | apply unreplaced_cons; [done|]].

(** The calls of the check only look. *)
Lemma ev_postCheck_part shares made :
  part (forwarded env VSys ek_os (λ inner, EvacuationPostCheck inner mp shares)) made (λ r m,
    (∃ x, r = Ok x ∧ (x = None → passed mp shares (host m))) ∧ unreplaced m).
Proof.
  unfold part. eapply cwp_mono.
  - apply (cwp_forwarded env VSys ek_os _ (guard past) (λ _ e, looks e)); [|intros; apply makes_PostCheck|intros; apply EvacuationPostCheck_cwp].
    intros new e m He _. exists (made ++ m). rewrite <-app_assoc. split; [done|]. split; [|by left]. by apply runs_harmless; destruct e.
  - intros r m (itr&(x&->&Hx)&Hm). assert (itr = host m ∧ Forall (λ q, ∃ s, q.1 = VSys s) m) as [-> Hsys].
    { clear Hx. induction Hm as [|[e a] [v b] itr m [Hv Ha] _ [-> IH]]; [done|]. cbn in *. subst. split; [done|]. constructor; eauto. }
    split; [by exists x|by apply unreplaced_sys].
Qed.

Lemma finish_part report e made : prepared made → part (finish env jobID p report e) made (λ _ m, unreplaced m).
Proof.
  intros Hp. unfold finish. destruct e as [e|]; [apply cwp_throw; unreplaces|]. destruct (rp_Interrupted report); [apply cwp_ret; unreplaces|].
  apply ev_part_bind, part_ecall; [done| |intros; unreplaces]. intros s Hs.
  apply ev_part_bind. eapply ev_part_mono; [apply ev_postCheck_part|]. intros r m [(x&->&Hx) Hm]. destruct x as [e|]; [apply cwp_throw; unreplaces|].
  specialize (Hx eq_refl). apply ev_part_bind, part_ecall; [|intros a Ha; apply cwp_ret; unreplaces|intros; unreplaces].
  split_and!; [done|done|]. right. split_and!; [done|by do 2 apply prepared_mono|]. exists s. rewrite <-app_assoc.
  split_and!; [apply elem_of_app; right; by left|done|]. rewrite !host_app. eapply passed_mono, Hx. intros x Hin.
  rewrite !elem_of_app. auto.
Qed.

Lemma clearOwned_part made :
  part (clearOwnedEvacuationManifest env mp) made (λ r m, r = Ok tt → cleared m ∨ not_ours m).
Proof.
  unfold clearOwnedEvacuationManifest. apply ev_part_bind, part_ecall; [done| |done]. intros c Hc.
  destruct (_ || _) eqn:Ho.
  - apply cwp_ret. intros _. right. split; [unreplaces|]. exists c. split_and!; [by left|done|]. intros [Hs Hd].
    rewrite Hs, Hd in Ho. done.
  - apply ev_part_bind, part_ecall; [by left| |done]. intros a Ha. apply cwp_ret. intros _. left. exists [(VCurrent, c)], a, [].
    split_and!; [done|done|unreplaces].
Qed.
Lemma earlyReturnErr_part hasManifest e made :
  part (earlyReturnErr env hasManifest mp e) made (λ r m, hasManifest = true → let_go m ∨ clear_failed r).
Proof.
  unfold earlyReturnErr. destruct hasManifest; cbn [negb]; [|by apply cwp_throw].
  apply ev_part_bind, part_tried. eapply ev_part_mono; [apply clearOwned_part|]. intros [[]|x] m H; apply cwp_throw; intros _.
  - left. right. rewrite app_nil_r. by apply H.
  - right. by eexists _, _.
Qed.

Lemma run_part hasManifest hasCount checkpoint :
  movable_moves (rp_Moves (ep_Plan p)) → sound checkpoint (host past) →
  part (evacuation_run env hasManifest hasCount sha256 euid open cfg jobID p checkpoint) [] (λ r m, hasManifest = true → let_go m ∨ clear_failed r).
Proof.
  intros Hmv Hs. assert (sound checkpoint (host (past ++ []))) as Hs' by by rewrite app_nil_r.
  assert (∀ m1 m2 r, unreplaced m1 → let_go m2 ∨ clear_failed r → let_go (m1 ++ m2) ∨ clear_failed (r : res err unit)) as Hpre.
  { intros m1 m2 r H [H2|]; [left|by right]. rewrite <-(app_nil_r m2). apply let_go_app; [done|done|unreplaces]. }
  unfold evacuation_run. apply ev_part_bind, ev_part_call; [split_and!; auto|]. intros a. destruct (ek_err a) eqn:Ha.
  { eapply ev_part_mono; [apply earlyReturnErr_part|]. intros r m H Hm. apply Hpre; [unreplaces|by apply H]. }
  apply ev_part_bind, ev_part_call; [done|]. intros b. destruct (ek_err b) eqn:Hb.
  { eapply ev_part_mono; [apply earlyReturnErr_part|]. intros r m H Hm. rewrite app_assoc. apply Hpre; [unreplaces|by apply H]. }
  set (start := ([] ++ [(VSetState mp RemovalStateEvacuating jobID, a)]) ++ [(VArrayReady, b)]).
  assert (prepared start) as Hp by by exists a, b, [].
  apply ev_part_bind. eapply ev_part_mono; [apply rebalanced_part; [done| |done]|].
  { intros cp Hcp. rewrite host_app. by apply phase_ok_after, Hs. }
  intros r m ([rep e]&->). cbn [fst snd]. apply ev_part_bind.
  eapply ev_part_mono with (Q := λ r m, ∃ b, r = Ok b ∧ (b = true → kept m)).
  { unfold keeps. destruct (_ && _); [|apply cwp_ret; by exists false]. apply ev_part_bind, ev_part_call; [by split; [|left]|]. intros c.
    destruct (os_err (ek_os c)); [apply cwp_ret; by exists false|]. apply ev_part_bind, ev_part_call; [done|]. intros k. apply cwp_ret.
    exists (ek_yes k). split; [done|]. intros Hk. exists k. split; [set_solver|done]. }
  intros r m' (resumable&->&Hk). apply ev_part_bind.
  eapply ev_part_mono with (Q := λ r m2, (∃ x e, r = Err (ECancelCleanup manifest_clear_failed x) ∧ e = x) ∨
    r = Ok tt ∧ (hasManifest && negb resumable = true → cleared m2)).
  { destruct (hasManifest && negb resumable) eqn:Hc; cbn [when]; [|by apply cwp_ret; right].
    apply ev_part_bind, ev_part_call; [by left|]. intros c. destruct (ek_err c) eqn:Hce; [apply cwp_throw; left; eauto|].
    apply cwp_ret. right. split; [done|]. intros _. exists [], c, []. split_and!; [done|done|unreplaces]. }
  intros r m2 [(x&?&->&->)|[-> Hcl]]; [intros _; right; by eexists _, _|].
  eapply ev_part_mono; [apply finish_part; by do 3 apply prepared_mono|]. intros r m3 Hm3 ->. left.
  destruct resumable; cbn in Hcl.
  - left. destruct (Hk eq_refl) as (k&?&?). exists k. rewrite !elem_of_app. auto 10.
  - right. left. destruct (Hcl eq_refl) as (x&c&y&->&?&?).
    exists ([(VSetState mp RemovalStateEvacuating jobID, a)] ++ [(VArrayReady, b)] ++ m ++ m' ++ x), c, (y ++ m3).
    rewrite <-!app_assoc. split_and!; [done|done|by apply unreplaced_app].
Qed.

Lemma release_part made : cancelled made → part (releaseRemovalState env mp jobID) made (λ _ m, unreplaced m).
Proof.
  intros Hc. unfold releaseRemovalState. apply ev_part_bind, part_ecall; [done| |intros; unreplaces]. intros a _.
  destruct (negb _); [apply cwp_ret; unreplaces|]. apply ev_part_bind, part_ecall; [done| |intros; unreplaces].
  intros b _. apply cwp_ret. unreplaces.
Qed.
Lemma RunEvacuation_part hasManifest hasCount hasDeps params checkpoint :
  decodeEvacuationParams params = Ok p → movable_moves (rp_Moves (ep_Plan p)) → sound checkpoint (host past) →
  part (RunEvacuation env hasManifest hasCount sha256 euid open cfg jobID hasDeps params checkpoint) [] (λ r m,
    hasManifest = true → hasDeps = true → jobID ≠ "" → let_go m ∨ clear_failed r).
Proof.
  intros Hdec Hmv Hs. unfold RunEvacuation. rewrite Hdec. destruct hasDeps; cbn [negb]; [|by apply cwp_throw].
  case_bool_decide; [by apply cwp_throw|].
  apply ev_part_bind, part_tried. eapply ev_part_mono; [by apply run_part|]. intros r m Hr.
  assert (∀ (r' : res err unit) m3, hasManifest = true → unreplaced m3 → (clear_failed r → clear_failed r') →
    let_go (m ++ m3) ∨ clear_failed r') as Hend.
  { intros r' m3 Hm Hu Hf. destruct (Hr Hm) as [H'|H']; [left|right; auto]. by apply (let_go_app []); [|unreplaces|]. }
  apply ev_part_bind, ev_part_call; [by split; [|left]|]. intros c. destruct (os_err (ek_os c)) as [x|] eqn:Hc.
  - apply ev_part_bind, part_tried. eapply ev_part_mono; [apply release_part|].
    { exists m, c. split; [done|]. by rewrite Hc. }
    intros rel m2 Hm2. assert (∀ r', (clear_failed r → clear_failed r') →
      hasManifest = true → true = true → jobID ≠ "" → let_go (m ++ [(VSys SCtxErr, c)] ++ m2 ++ []) ∨ clear_failed r') as Hout.
    { intros r' Hf Hm _ _. apply Hend; [done|unreplaces|done]. }
    destruct rel as [u|y], r as [[]|e]; cbn [result_err reported_code]; try case_bool_decide as Hcode;
      [apply cwp_ret|apply cwp_throw..]; apply Hout; intros (e'&msg&Heq&Has); simplify_eq;
      unfold reported_code in *; cbn in *; rewrite ?Has in *; cbn in *; try done; by eexists _, _.
  - destruct r as [[]|e]; cbn [result_err finished_with]; [apply cwp_ret|apply cwp_throw]; intros Hm _ _; apply Hend; try done; unreplaces.
Qed.
End run.

(** ** All runs of the job *)

(** Runs of the job, each with the checkpoint that an earlier one may have left, or
    none, ended or cut off anywhere: the checkpoint, and the calls of all. *)
Inductive evacuations (params : bytes) : bytes → vcalls → Prop :=
  | evacuations_none : evacuations params BNil []
  | evacuations_run env hasManifest hasCount hasDeps data data' tr r ran lost :
      evacuations params data tr →
      RunEvacuation env hasManifest hasCount sha256 euid open cfg jobID hasDeps params data tr = (r, tr ++ ran ++ lost) →
      data' = BNil ∨ data' = data ∨ (∃ a, (VSave data', a) ∈ ran) → evacuations params data' (tr ++ ran).

Context (params : bytes) (Hdec : decodeEvacuationParams params = Ok p) (Hmv : movable_moves (rp_Moves (ep_Plan p))).
Lemma sound_nil tr : sound BNil (host tr).
Proof. intros cp [= <-]. apply copying_ok. Qed.
Lemma host_sound_after data tr made : sound data (host tr) → sound data (host (tr ++ made)).
Proof. intros H cp Hcp. rewrite host_app. by apply phase_ok_after, H. Qed.

Lemma evacuations_allowed data tr : evacuations params data tr →
  sound data (host tr) ∧ ∀ before e a after, tr = before ++ (e, a) :: after →
    ∃ past made, before = past ++ made ∧ allowed past made e.
Proof.
  induction 1 as [|env hasManifest hasCount hasDeps data data' tr r ran lost Htr [Hs IH] Hrun Hd].
  { split; [apply sound_nil|by intros []]. }
  pose proof (RunEvacuation_part env tr hasManifest hasCount hasDeps params data Hdec Hmv Hs) as (made&Hm&Hg&_).
  rewrite app_nil_r in *. rewrite Hrun in Hm. cbn in Hm. apply app_inv_head in Hm as <-.
  assert (∀ before e a after, ran = before ++ (e, a) :: after → allowed tr before e) as Hran.
  { intros before e a after ->. rewrite <-app_assoc in Hg. by destruct (Hg before e a (after ++ lost) eq_refl) as (m&->%app_inv_head&H). }
  split.
  - destruct Hd as [-> | [-> | [a Hin]]]; [apply sound_nil|by apply host_sound_after|].
    apply list_elem_of_split in Hin as (before&after&->). destruct (Hran before _ a after eq_refl) as [H _].
    rewrite app_assoc. by apply host_sound_after.
  - intros before e a after Heq. apply in_either in Heq as [[k Hk]|(k&->&Hk)]; [by eapply IH|]. exists tr, k. split; [done|by eapply Hran].
Qed.
End job.

Section claims.
Context (sha256 : data → string) (euid : Z) (open : OpenChecker) (cfg : Config) (jobID : string) (p : EvacuationParams) (params : bytes).
Abbreviation evacuations := (evacuations sha256 euid open cfg jobID params).

(** C36: Over all runs of a job that evacuates a disk, resumed, started over or cut
    off anywhere: an original is only removed after earlier calls copied it whole to
    its target (or found it copied there), after that a parity sync carried it
    successfully, and after that a fresh walk found it unchanged and closed, in a run
    that had marked the disk as evacuating and then regenerated the pool; anything
    else that is removed the runs made themselves. Every sync carries verified copies
    only and exempts this disk and no other. *)
Theorem evacuated_removed_only_after_sync data tr before e a after :
  decodeEvacuationParams params = Ok p → movable_moves (rp_Moves (ep_Plan p)) → evacuations data tr → tr = before ++ (e, a) :: after →
  (∀ s, e = VSys s → removal s = true → relocates sha256 RebalanceSafety.placed (cfg_VerifyChecksum cfg) (host before) s ∧
     ∃ past made, before = past ++ made ∧ prepared jobID p made) ∧
  (∀ m removing, e = VSync m removing → removing = {[ep_Mountpoint p]} ∧
     Forall (λ me, verified sha256 RebalanceSafety.placed (cfg_VerifyChecksum cfg) me (host before)) m).
Proof.
  intros Hdec Hmv [_ Hal]%(evacuations_allowed _ _ _ _ _ p _ Hdec Hmv) Heq. destruct (Hal _ _ _ _ Heq) as (past&made&->&H).
  split.
  - intros s -> Hrem. destruct H as [[Hr _] Hp]. split; [exact Hr|]. exists past, made. split; [done|].
    destruct Hp as [Hl|]; [|done]. by rewrite (looks_harmless _ Hl) in Hrem.
  - intros m removing ->. by destruct H as (?&->&_).
Qed.

(** C37: Over all runs of the job: it changes the removal state of its own disk only,
    and under its own name; to evacuated only in a run that had marked it evacuating,
    and whose check found, for the shares it then listed, each of their branches on
    the disk missing or empty and nothing else on it but SnapRAID's content files;
    and it releases the state only once its cancel is seen. *)
Theorem evacuated_only_when_empty data tr before e a after :
  decodeEvacuationParams params = Ok p → movable_moves (rp_Moves (ep_Plan p)) → evacuations data tr → tr = before ++ (e, a) :: after →
  ∃ past made, before = past ++ made ∧
    (∀ m state j, e = VSetState m state j → m = ep_Mountpoint p ∧ j = jobID ∧
       (state = RemovalStateEvacuating ∧ made = [] ∨ state = RemovalStateEvacuated ∧ prepared jobID p made ∧ checked p made)) ∧
    (∀ m j, e = VReleaseState m j → m = ep_Mountpoint p ∧ j = jobID ∧ cancelled made).
Proof.
  intros Hdec Hmv [_ Hal]%(evacuations_allowed _ _ _ _ _ p _ Hdec Hmv) Heq. destruct (Hal _ _ _ _ Heq) as (past&made&->&H).
  exists past, made. split; [done|]. split; [by intros m state j ->|by intros m j ->].
Qed.

(** C38: However a run of the job ends once it has its parameters, its dependencies
    and its id, and whatever earlier runs left: it is kept for a resume; or the last
    thing it did to the store of the manifest was to empty it; or what the store held
    was not this disk's exemption; or the run's error is the one that the scheduler
    keeps through a cancel, and says that the exemption is still there. *)
Theorem evacuation_lets_go env hasCount data tr :
  decodeEvacuationParams params = Ok p → movable_moves (rp_Moves (ep_Plan p)) → evacuations data tr → jobID ≠ "" →
  ∃ r made, RunEvacuation env true hasCount sha256 euid open cfg jobID true params data tr = (r, tr ++ made) ∧
    (let_go p made ∨ clear_failed r).
Proof.
  intros Hdec Hmv [Hs _]%(evacuations_allowed _ _ _ _ _ p _ Hdec Hmv) Hid.
  destruct (RunEvacuation_part sha256 euid open cfg jobID p env tr true hasCount true params data Hdec Hmv Hs) as (made&Hm&_&H).
  rewrite app_nil_r in *. destruct (RunEvacuation _ _ _ _ _ _ _ _ _ _ _ tr) as [r w]. cbn in *. subst w. exists r, made. auto.
Qed.
End claims.

(** A file is moved off a disk, and the disk is marked. *)
Module DemoEvacuation.
Definition env : environment ev ev_answer := λ _ e,
  mkEvAnswer None match e with VSys s => DemoRebalance.env [] s | _ => Demo.answer end false ∅
    [mkShare "media" "" "" ["/d1/media"; "/d2/media"] 0 [] false].
Definition move : json :=
  JObj [("Share", JStr "media"); ("RelPath", JStr "a"); ("SourceBranch", JStr "/d1/media"); ("TargetBranch", JStr "/d2/media");
        ("Size", JNum "2")].
Definition params : bytes :=
  BJson (JObj [("mountpoint", JStr "/d1"); ("plan", JObj [("Moves", JArr [move]); ("Warnings", JNull); ("NonShareContent", JNull)])]).
Definition p : EvacuationParams := mkEvacuationParams "/d1" DemoRebalance.plan.
Definition run := RunEvacuation env true true Demo.sha256 0 Demo.checker_ Demo.cfg "j" true params BNil [].
Definition saved (n : nat) : bytes := match run.2 !! n with Some (VSave d, _) => d | _ => BNil end.
End DemoEvacuation.
Example demo_evacuates_disk : DemoEvacuation.run.1 = Ok tt.
Proof. vm_compute. reflexivity. Qed.
Lemma demo_decoded : decodeEvacuationParams DemoEvacuation.params = Ok DemoEvacuation.p.
Proof. vm_compute. reflexivity. Qed.
Lemma demo_evacuations : evacuations Demo.sha256 0 Demo.checker_ Demo.cfg "j" DemoEvacuation.params BNil DemoEvacuation.run.2.
Proof.
  refine (evacuations_run _ _ _ _ _ _ DemoEvacuation.env true true true BNil BNil [] DemoEvacuation.run.1 DemoEvacuation.run.2 []
    (evacuations_none _ _ _ _ _ _) _ (or_introl eq_refl)). vm_compute. reflexivity.
Qed.

Lemma evacuated_removed_only_after_sync_witness :
  let w := DemoEvacuation.run.2 in
  relocates Demo.sha256 RebalanceSafety.placed false (host (take 53 w)) (SUnlink 14 "a") ∧
  ∃ past made, take 53 w = past ++ made ∧ prepared "j" DemoEvacuation.p made.
Proof.
  intros w. apply (evacuated_removed_only_after_sync Demo.sha256 0 Demo.checker_ Demo.cfg "j" DemoEvacuation.p DemoEvacuation.params BNil w
    (take 53 w) (VSys (SUnlink 14 "a")) (DemoEvacuation.env [] (VSys (SUnlink 14 "a"))) (drop 54 w) demo_decoded demo_movable demo_evacuations);
    [vm_compute; reflexivity|reflexivity|reflexivity].
Defined.
Lemma evacuated_only_when_empty_witness :
  let w := DemoEvacuation.run.2 in let n := (length w - 2)%nat in
  ∃ past made, take n w = past ++ made ∧ prepared "j" DemoEvacuation.p made ∧ checked DemoEvacuation.p made.
Proof.
  intros w n. destruct (evacuated_only_when_empty Demo.sha256 0 Demo.checker_ Demo.cfg "j" DemoEvacuation.p DemoEvacuation.params BNil w
    (take n w) (VSetState "/d1" RemovalStateEvacuated "j") (DemoEvacuation.env [] VArrayReady) (drop (n + 1) w) demo_decoded demo_movable
    demo_evacuations) as (past&made&Heq&Hst&_); [vm_compute; reflexivity|].
  exists past, made. split; [exact Heq|]. destruct (Hst _ _ _ eq_refl) as (_&_&[[Hx _]|(_&Hp&Hc)]); [discriminate Hx|exact (conj Hp Hc)].
Defined.
Lemma evacuation_lets_go_witness :
  ∃ r made, RunEvacuation DemoEvacuation.env true true Demo.sha256 0 Demo.checker_ Demo.cfg "j" true DemoEvacuation.params BNil []
    = (r, [] ++ made) ∧ (let_go DemoEvacuation.p made ∨ clear_failed r).
Proof.
  apply (evacuation_lets_go Demo.sha256 0 Demo.checker_ Demo.cfg "j" DemoEvacuation.p DemoEvacuation.params DemoEvacuation.env true BNil []
    demo_decoded demo_movable); [apply evacuations_none|done].
Defined.
