(* ===== verification/Calendar.v ===== *)
(** * Dates and time zones

    What the schedules use of Go's [time] package: the proleptic Gregorian calendar,
    a location that maps an instant to the offset in use and the span it is in use
    for, [time.Date] with the way it chooses an offset, [AddDate], and the weekday.
    Instants are nanoseconds since 1970-01-01 00:00 UTC. *)
From S2P Require Export GoErr.
Open Scope Z_scope.
#[local] Ltac Zify.zify_post_hook ::= Z.to_euclidean_division_equations.

Definition second : Z := 10 ^ 9.
Definition seconds_of_day : Z := 86400.

(** ** The calendar *)

(** The number of a date since 1970-01-01; the day may be any number. *)
Definition days_from_civil (y m d : Z) : Z :=
  let y := if m <=? 2 then y - 1 else y in
  let doy := (153 * ((m + 9) mod 12) + 2) / 5 + d - 1 in
  let yoe := y mod 400 in
  y / 400 * 146097 + (yoe * 365 + yoe / 4 - yoe / 100 + doy) - 719468.
(** The year, month and day of a day since 1970-01-01. *)
Definition civil_from_days (n : Z) : Z * Z * Z :=
  let z := n + 719468 in
  let doe := z mod 146097 in
  let yoe := (doe - doe / 1460 + doe / 36524 - doe / 146096) / 365 in
  let doy := doe - (365 * yoe + yoe / 4 - yoe / 100) in
  let mp := (5 * doy + 2) / 153 in
  let m := if mp <? 10 then mp + 3 else mp - 9 in
  (yoe + z / 146097 * 400 + (if m <=? 2 then 1 else 0), m, doy - (153 * mp + 2) / 5 + 1).

(** ** Locations *)

(** [Location.lookup]: the offset east of UTC in use at an instant in seconds, and
    the span [start, end) it is in use for. *)
Record Location := mkLocation { zone_lookup : Z → Z * Z * Z }.
Definition zone_offset (loc : Location) (sec : Z) : Z := (zone_lookup loc sec).1.1.
Definition UTC : Location := mkLocation (λ _, (0, - 2 ^ 63, 2 ^ 63 - 1)).

(** The local day and the second of it. *)
Definition local_sec (loc : Location) (t : Z) : Z := let s := t / second in s + zone_offset loc s.
Definition local_day (loc : Location) (t : Z) : Z := local_sec loc t / seconds_of_day.
Definition local_clock (loc : Location) (t : Z) : Z := local_sec loc t mod seconds_of_day.
Definition go_Weekday (loc : Location) (t : Z) : Z := (local_day loc t + 4) mod 7.

(** The instant [time.Date] takes for a local time, in seconds. *)
Definition wall (loc : Location) (unix : Z) : Z :=
  let '(offset, start, end_) := zone_lookup loc unix in
  if offset =? 0 then unix
  else
    let utc := unix - offset in
    if (utc <? start) || (end_ <=? utc) then unix - zone_offset loc utc else utc.
(** [time.Date(y, m, d, 0, 0, clock, nsec, loc)]: the month is normalized. *)
Definition go_Date (loc : Location) (y m d clock nsec : Z) : Z :=
  wall loc (days_from_civil (y + (m - 1) / 12) ((m - 1) mod 12 + 1) d * seconds_of_day + clock) * second + nsec.
Definition AddDate (loc : Location) (t dy dm dd : Z) : Z :=
  let '(y, m, d) := civil_from_days (local_day loc t) in
  go_Date loc (y + dy) (m + dm) (d + dd) (local_clock loc t) (t mod second).

(** ** The calendar is one *)
Lemma days_shift y m d k : days_from_civil (y + 400 * k) m d = days_from_civil y m d + 146097 * k.
Proof.
  unfold days_from_civil. assert (∀ x, (x + 400 * k) mod 400 = x mod 400) as Hmod by (intros; by rewrite Z.mul_comm, Z.mod_add).
  assert (∀ x, (x + 400 * k) / 400 = x / 400 + k) as Hdiv by (intros; by rewrite Z.mul_comm, Z.div_add).
  destruct (m <=? 2); [replace (y + 400 * k - 1) with (y - 1 + 400 * k) by lia|]; rewrite Hmod, Hdiv; lia.
Qed.
Lemma civil_shift n k : civil_from_days (n + 146097 * k) = let '(y, m, d) := civil_from_days n in (y + 400 * k, m, d).
Proof.
  unfold civil_from_days. replace (n + 146097 * k + 719468) with (n + 719468 + k * 146097) by lia.
  rewrite Z.mod_add, Z.div_add by done. cbv zeta. f_equal. f_equal. lia.
Qed.
Lemma days_add y m d k : days_from_civil y m (d + k) = days_from_civil y m d + k.
Proof. unfold days_from_civil. lia. Qed.

Definition next_month (y m : Z) : Z * Z := if m =? 12 then (y + 1, 1) else (y, m + 1).
(** Years begin in March: the first day of the year [k] of a cycle of 400, the year
    of a day of the cycle, and the month and day of a day of the year. *)
Definition year_start (k : Z) : Z := 365 * k + k / 4 - k / 100.
Definition year_end (k : Z) : Z := if k =? 399 then 146097 else year_start (k + 1).
Definition year_of (doe : Z) : Z := (doe - doe / 1460 + doe / 36524 - doe / 146096) / 365.
Definition month_of (doy : Z) : Z := (5 * doy + 2) / 153.
Definition month_start (mp : Z) : Z := (153 * mp + 2) / 5.

(** What is checked for each number from [i] on. *)
Fixpoint all_from (f : Z → bool) (fuel : nat) (i : Z) : bool :=
  match fuel with O => true | S fuel => f i && all_from f fuel (i + 1) end.
Lemma all_from_spec f fuel : ∀ i, all_from f fuel i = true → ∀ n, i ≤ n < i + Z.of_nat fuel → f n = true.
Proof.
  induction fuel as [|fuel IH]; intros i Hi n Hn; [lia|]. cbn in Hi. apply andb_true_iff in Hi as [H1 H2].
  destruct (Z.eq_dec n i) as [->|]; [done|]. apply (IH _ H2). lia.
Qed.
Definition year_ok (k : Z) : bool :=
  (year_of (year_start k) =? k) && (year_of (year_end k - 1) =? k) && (365 <=? year_end k - year_start k) && (year_end k - year_start k <=? 366).
Lemma years_ok k : 0 ≤ k < 400 → year_ok k = true.
Proof. intros H. apply (all_from_spec year_ok 400 0); [vm_compute; reflexivity|lia]. Qed.
Definition day_ok (doy : Z) : bool :=
  let mp := month_of doy in let d := doy - month_start mp + 1 in
  let mp' := month_of (doy + 1) in let d' := doy + 1 - month_start mp' + 1 in
  (0 <=? mp) && (mp <=? 11) && (1 <=? d) && (d <=? 31) &&
  ((mp' =? mp) && (d' =? d + 1) || (mp' =? mp + 1) && (d' =? 1)) && (if doy <? 364 then true else mp =? 11).
Lemma days_ok doy : 0 ≤ doy < 366 → day_ok doy = true.
Proof. intros H. apply (all_from_spec day_ok 366 0); [vm_compute; reflexivity|lia]. Qed.
Lemma year_of_step a : 0 ≤ a < 146096 → year_of a ≤ year_of (a + 1).
Proof.
  intros H. unfold year_of. apply Z.div_le_mono; [lia|].
  assert ((a + 1) / 1460 ≤ a / 1460 + 1) by lia. assert (a / 36524 ≤ (a + 1) / 36524) by lia.
  destruct (Z.eq_dec a 146095) as [->|]; [vm_compute; done|].
  assert ((a + 1) / 146096 = 0 ∧ a / 146096 = 0) as [-> ->] by (split; apply Z.div_small; lia). lia.
Qed.
Lemma year_of_mono a b : 0 ≤ a ≤ b → b < 146097 → year_of a ≤ year_of b.
Proof.
  intros H Hb. replace b with (a + Z.of_nat (Z.to_nat (b - a))) in * by lia. induction (Z.to_nat (b - a)) as [|n IH]; [by rewrite Z.add_0_r|].
  etrans; [apply IH; lia|]. replace (a + Z.of_nat (Datatypes.S n)) with (a + Z.of_nat n + 1) by lia. apply year_of_step. lia.
Qed.
(** The year of a day of the cycle is the one it lies in. *)
Lemma year_of_spec k a : 0 ≤ k < 400 → year_start k ≤ a < year_end k → year_of a = k.
Proof.
  intros Hk Ha. pose proof (years_ok k Hk) as H. unfold year_ok in H. rewrite !andb_true_iff, !Z.eqb_eq, !Z.leb_le in H.
  assert (0 ≤ year_start k) by (unfold year_start; lia). assert (year_end k ≤ 146097).
  { unfold year_end, year_start. destruct (Z.eqb_spec k 399); lia. }
  pose proof (year_of_mono (year_start k) a). pose proof (year_of_mono a (year_end k - 1)). lia.
Qed.
Lemma year_exists a : 0 ≤ a < 146097 → ∃ k, 0 ≤ k < 400 ∧ year_start k ≤ a < year_end k.
Proof.
  intros Ha. assert (∀ n : nat, (n < 400)%nat → a < year_end (Z.of_nat n) → ∃ k, 0 ≤ k < 400 ∧ year_start k ≤ a < year_end k) as H.
  { induction n as [|n IH]; intros Hn Hlt.
    - exists 0. split; [lia|]. split; [unfold year_start; cbn; lia|done].
    - destruct (Z.lt_ge_cases a (year_end (Z.of_nat n))) as [Hl|Hg]; [apply IH; [lia|done]|].
      exists (Z.of_nat (Datatypes.S n)). split; [lia|]. split; [|done]. unfold year_end in Hg. destruct (Z.eqb_spec (Z.of_nat n) 399); [lia|].
      by replace (Z.of_nat (Datatypes.S n)) with (Z.of_nat n + 1) by lia. }
  apply (H 399%nat); [lia|]. change (year_end (Z.of_nat 399)) with 146097. lia.
Qed.

(** A day's date names it, and the next day is the next of the month or the first of
    the next month. *)
Definition month_num (mp : Z) : Z := if mp <? 10 then mp + 3 else mp - 9.
Definition year_num (k mp : Z) : Z := k + (if month_num mp <=? 2 then 1 else 0).
Definition date_of (k doy : Z) : Z * Z * Z :=
  let mp := month_of doy in (year_num k mp, month_num mp, doy - month_start mp + 1).
Lemma month_step k mp : 0 ≤ mp ≤ 11 →
  next_month (year_num k mp) (month_num mp) = if mp =? 11 then (k + 1, 3) else (year_num k (mp + 1), month_num (mp + 1)).
Proof.
  intros H. assert (mp = 0 ∨ mp = 1 ∨ mp = 2 ∨ mp = 3 ∨ mp = 4 ∨ mp = 5 ∨ mp = 6 ∨ mp = 7 ∨ mp = 8 ∨ mp = 9 ∨ mp = 10 ∨ mp = 11) as Hc by lia.
  unfold year_num. repeat destruct Hc as [-> | Hc]; subst; cbn; rewrite ?Z.add_0_r; reflexivity.
Qed.
Lemma month_num_range mp : 0 ≤ mp ≤ 11 → 1 ≤ month_num mp ≤ 12 ∧ (month_num mp + 9) mod 12 = mp.
Proof. intros H. unfold month_num. destruct (Z.ltb_spec mp 10); lia. Qed.
Lemma civil_date_of e k doy : 0 ≤ k < 400 → 0 ≤ doy < year_end k - year_start k →
  civil_from_days (year_start k + doy + 146097 * e - 719468) = let '(y, m, d) := date_of k doy in (y + 400 * e, m, d).
Proof.
  intros Hk Hd. pose proof (years_ok k Hk) as Hok. unfold year_ok in Hok. rewrite !andb_true_iff, !Z.eqb_eq, !Z.leb_le in Hok.
  replace (year_start k + doy + 146097 * e - 719468) with (year_start k + doy - 719468 + 146097 * e) by lia. rewrite civil_shift.
  assert (0 ≤ year_start k + doy < 146097).
  { unfold year_end in *. assert (0 ≤ year_start k) by (unfold year_start; lia). destruct (Z.eqb_spec k 399); [lia|].
    unfold year_start in *. lia. }
  unfold civil_from_days. cbv zeta. replace (year_start k + doy - 719468 + 719468) with (year_start k + doy) by lia.
  rewrite Z.mod_small, (Z.div_small (year_start k + doy) 146097) by lia. fold (year_of (year_start k + doy)). rewrite (year_of_spec k) by lia.
  replace (year_start k + doy - (365 * k + k / 4 - k / 100)) with doy by (unfold year_start; lia).
  unfold date_of, year_num, month_num, month_of, month_start. destruct (_ <? 10); do 2 f_equal; lia.
Qed.
Lemma days_date_of e k doy : 0 ≤ k < 400 → 0 ≤ doy < year_end k - year_start k →
  let '(y, m, d) := date_of k doy in days_from_civil (y + 400 * e) m d = year_start k + doy + 146097 * e - 719468.
Proof.
  intros Hk Hd. pose proof (years_ok k Hk) as Hy. unfold year_ok in Hy. rewrite !andb_true_iff, !Z.leb_le in Hy.
  pose proof (days_ok doy ltac:(lia)) as Hok. unfold date_of. unfold day_ok in Hok. rewrite !andb_true_iff, !Z.leb_le in Hok.
  set (mp := month_of doy) in *. assert (0 ≤ mp ≤ 11) as Hmp by lia. destruct (month_num_range mp Hmp) as [_ Hnum].
  rewrite days_shift. unfold days_from_civil. rewrite Hnum. unfold year_num.
  replace (if month_num mp <=? 2 then _ else _) with k by (destruct (_ <=? 2); lia).
  rewrite Z.mod_small, (Z.div_small k 400) by lia. unfold month_start, year_start. lia.
Qed.
Lemma civil_day n : let '(y, m, d) := civil_from_days n in
  days_from_civil y m d = n ∧ 1 ≤ m ≤ 12 ∧ 1 ≤ d ≤ 31 ∧
  (civil_from_days (n + 1) = (y, m, d + 1) ∨ civil_from_days (n + 1) = (next_month y m, 1)).
Proof.
  set (e := (n + 719468) / 146097). destruct (year_exists ((n + 719468) mod 146097)) as (k&Hk&Ha); [lia|].
  set (doy := (n + 719468) mod 146097 - year_start k). assert (n = year_start k + doy + 146097 * e - 719468) as Hn by (unfold doy, e; lia).
  assert (0 ≤ doy < year_end k - year_start k) as Hd by (unfold doy; lia). clearbody doy e. clear Ha.
  pose proof (civil_date_of e k doy Hk Hd) as Hc. pose proof (days_date_of e k doy Hk Hd) as Hdays. rewrite <-Hn in *.
  pose proof (years_ok k Hk) as Hy. unfold year_ok in Hy. rewrite !andb_true_iff, !Z.leb_le in Hy.
  pose proof (days_ok doy ltac:(lia)) as Hok. unfold day_ok in Hok.
  rewrite !andb_true_iff, orb_true_iff, !andb_true_iff, !Z.eqb_eq, !Z.leb_le in Hok.
  assert (civil_from_days (n + 1) = if doy + 1 <? year_end k - year_start k
    then let '(y, m, d) := date_of k (doy + 1) in (y + 400 * e, m, d) else (k + 1 + 400 * e, 3, 1)) as Hnext.
  { destruct (Z.ltb_spec (doy + 1) (year_end k - year_start k)) as [Hl|Hg].
    - rewrite <-civil_date_of by lia. f_equal. lia.
    - destruct (Z.eq_dec k 399) as [->|Hne].
      + change (year_end 399) with 146097 in *. replace (n + 1) with (year_start 0 + 0 + 146097 * (e + 1) - 719468)
          by (change (year_start 0) with 0; lia).
        rewrite civil_date_of; [|lia|vm_compute; split; congruence]. change (date_of 0 0) with (0, 3, 1). cbv beta iota. do 2 f_equal. lia.
      + assert (year_end k = year_start (k + 1)) as He by (unfold year_end; destruct (Z.eqb_spec k 399); lia).
        replace (n + 1) with (year_start (k + 1) + 0 + 146097 * e - 719468) by lia.
        pose proof (years_ok (k + 1) ltac:(lia)) as Hy'. unfold year_ok in Hy'. rewrite !andb_true_iff, !Z.leb_le in Hy'.
        rewrite (civil_date_of e (k + 1) 0); [|clear -Hk Hne; lia|destruct Hy' as [[_ Hy'] _]; clear -Hy'; lia]. unfold date_of. change (month_of 0) with 0. cbn.
        unfold year_num. change (month_num 0 <=? 2) with false. do 2 f_equal. lia. }
  rewrite Hnext. unfold date_of in *. rewrite Hc in *. clear Hnext Hc Hn. set (mp := month_of doy) in *.
  assert (0 ≤ mp ≤ 11) as Hmp by lia. pose proof (month_num_range mp Hmp) as [Hnum _]. split_and!; try done; try lia.
  assert (next_month (year_num k mp + 400 * e) (month_num mp) = let '(y, m) := next_month (year_num k mp) (month_num mp) in (y + 400 * e, m)) as ->.
  { unfold next_month. destruct (_ =? 12); f_equal; lia. }
  rewrite (month_step k mp Hmp). destruct (Z.ltb_spec (doy + 1) (year_end k - year_start k)) as [Hl|Hg].
  - pose proof (days_ok (doy + 1) ltac:(lia)) as Hok'. unfold day_ok in Hok'. rewrite !andb_true_iff, !Z.leb_le in Hok'.
    set (mp' := month_of (doy + 1)) in *. destruct Hok as [[_ [[Hm Hd']|[Hm Hd']]] _]; [left|right]; rewrite Hm in *.
    + do 2 f_equal; lia.
    + destruct (Z.eqb_spec mp 11); [lia|]. do 2 f_equal; lia.
  - right. destruct Hok as [_ Hlast]. destruct (Z.ltb_spec doy 364); [lia|]. rewrite Hlast. do 2 f_equal; lia.
Qed.

(** ** The first days of the months *)
Definition first_day (n : Z) : Prop := (civil_from_days n).2 = 1.
Lemma civil_back n y m d : civil_from_days n = (y, m, d) → ∀ j : nat, Z.of_nat j < d → civil_from_days (n - Z.of_nat j) = (y, m, d - Z.of_nat j).
Proof.
  intros Hn j. induction j as [|j IH]; intros Hj; [by rewrite !Z.sub_0_r|]. specialize (IH ltac:(lia)).
  pose proof (civil_day (n - Z.of_nat (Datatypes.S j))) as H. destruct (civil_from_days (n - Z.of_nat (Datatypes.S j))) as [[y' m'] d'].
  destruct H as (_&_&_&H). replace (n - Z.of_nat (Datatypes.S j) + 1) with (n - Z.of_nat j) in H by lia. rewrite IH in H.
  destruct H as [[= -> -> ?]|[= _ ?]]; [do 2 f_equal; lia|lia].
Qed.
(** The first day of a day's month. *)
Lemma month_first n y m d : civil_from_days n = (y, m, d) →
  civil_from_days (n - d + 1) = (y, m, 1) ∧ days_from_civil y m 1 = n - d + 1 ∧ ∀ n', n - d + 1 < n' ≤ n → ¬ first_day n'.
Proof.
  intros Hn. pose proof (civil_day n) as H. rewrite Hn in H. destruct H as (Hd&_&Hr&_). split_and!.
  - pose proof (civil_back n y m d Hn (Z.to_nat (d - 1)) ltac:(lia)) as H. rewrite Z2Nat.id in H by lia.
    replace (n - d + 1) with (n - (d - 1)) by lia. rewrite H. do 2 f_equal. lia.
  - replace d with (1 + (d - 1)) in Hd by lia. rewrite days_add in Hd. lia.
  - intros n' H Hf. pose proof (civil_back n y m d Hn (Z.to_nat (n - n')) ltac:(lia)) as Hb. rewrite Z2Nat.id in Hb by lia.
    replace (n - (n - n')) with n' in Hb by lia. unfold first_day in Hf. rewrite Hb in Hf. cbn in Hf. lia.
Qed.
(** The first day of the month after it, which is what adding a month reaches. *)
Lemma month_after n1 y m : civil_from_days n1 = (y, m, 1) →
  let n2 := days_from_civil (y + (m + 1 - 1) / 12) ((m + 1 - 1) mod 12 + 1) 1 in
  n1 < n2 ∧ first_day n2 ∧ ∀ n', n1 < n' < n2 → ¬ first_day n'.
Proof.
  intros H1. pose proof (civil_day n1) as H. rewrite H1 in H. destruct H as (_&Hm&_).
  assert (∀ j : nat, (∀ i : nat, (i ≤ j)%nat → civil_from_days (n1 + Z.of_nat i) = (y, m, 1 + Z.of_nat i)) ∨
    ∃ len : nat, (1 ≤ len)%nat ∧ civil_from_days (n1 + Z.of_nat len) = (next_month y m, 1) ∧
      ∀ i : nat, (i < len)%nat → civil_from_days (n1 + Z.of_nat i) = (y, m, 1 + Z.of_nat i)) as Hrun.
  { induction j as [|j [IH|IH]]; [left| |by right].
    - intros i Hi. replace i with 0%nat by lia. by rewrite Z.add_0_r.
    - pose proof (civil_day (n1 + Z.of_nat j)) as H. rewrite (IH j) in H by lia. destruct H as (_&_&_&[H|H]).
      + left. intros i Hi. destruct (decide (i = Datatypes.S j)) as [->|]; [|apply IH; lia].
        replace (n1 + Z.of_nat (Datatypes.S j)) with (n1 + Z.of_nat j + 1) by lia. rewrite H. f_equal; lia.
      + right. exists (Datatypes.S j). split; [lia|]. split; [|intros i Hi; apply IH; lia].
        by replace (n1 + Z.of_nat (Datatypes.S j)) with (n1 + Z.of_nat j + 1) by lia. }
  destruct (Hrun 31%nat) as [Hall|(len&Hlen&Hnext&Hin)].
  { pose proof (civil_day (n1 + Z.of_nat 31)) as H. rewrite (Hall 31%nat) in H by lia. destruct H as (_&_&H&_). lia. }
  assert (days_from_civil (y + (m + 1 - 1) / 12) ((m + 1 - 1) mod 12 + 1) 1 = n1 + Z.of_nat len) as ->.
  { pose proof (civil_day (n1 + Z.of_nat len)) as H. rewrite Hnext in H. unfold next_month in *.
    destruct (Z.eqb_spec m 12) as [->|]; destruct H as [H _]; rewrite <-H; f_equal; lia. }
  split_and!; [lia|unfold first_day; by rewrite Hnext|]. intros n' H Hf. unfold first_day in Hf.
  replace n' with (n1 + Z.of_nat (Z.to_nat (n' - n1))) in Hf by lia. rewrite Hin in Hf by lia. cbn in Hf. lia.
Qed.
(** The first day of the month before it. *)
Lemma month_before n1 y m : civil_from_days n1 = (y, m, 1) →
  let n0 := days_from_civil (y + (m - 1 - 1) / 12) ((m - 1 - 1) mod 12 + 1) 1 in
  n0 < n1 ∧ first_day n0 ∧ ∀ n', n0 < n' < n1 → ¬ first_day n'.
Proof.
  intros H1. pose proof (civil_day (n1 - 1)) as H. destruct (civil_from_days (n1 - 1)) as [[y' m'] d'] eqn:Hq.
  replace (n1 - 1 + 1) with n1 in H by lia. rewrite H1 in H. destruct H as (_&Hm&Hd&[[= -> -> ?]|[= Hnext]]); [lia|].
  destruct (month_first (n1 - 1) y' m' d' Hq) as (Hf&Hdays&Hno).
  assert (days_from_civil (y + (m - 1 - 1) / 12) ((m - 1 - 1) mod 12 + 1) 1 = days_from_civil y' m' 1) as ->.
  { unfold next_month in Hnext. destruct (Z.eqb_spec m' 12) as [->|]; injection Hnext as -> ->; f_equal; lia. }
  rewrite Hdays. cbv zeta. split_and!; [lia|unfold first_day; by rewrite Hf|]. intros n' H. apply Hno. lia.
Qed.
