(* ===== verification/Schedule.v ===== *)
(** * Schedules

    [internal/job/schedule.go]: when the nightly chain and the jobs that are
    scheduled on their own run next, whether they are due now, and which of their
    windows would collide. *)
From stdpp Require Import pretty.
From S2P Require Export Calendar GoString Chain.
Open Scope string_scope.
Open Scope list_scope.
Open Scope Z_scope.

Definition DefaultChainStartTime : string := "02:00".
Definition DefaultWeeklyScrubDay : Z := 0.
Definition MaintenanceChainJobID : string := "maintenance_chain".
Definition FrequencyDaily : string := "daily".
Definition FrequencyWeekly : string := "weekly".
Definition FrequencyMonthly : string := "monthly".

(** Which steps a map names, and how. *)
Definition enabled_steps : Type := Step → option bool.
Record ChainSettings := mkChainSettings { cs_StartTime : string; cs_WeeklyScrubDay : Z; cs_Enabled : option enabled_steps }.
Record OtherJobSettings := mkOtherJob { oj_ID : string; oj_Enabled : bool; oj_Frequency : string; oj_Time : string }.
Record ScheduleConflict := mkConflict { sc_JobA : string; sc_JobB : string }.
#[export] Instance ScheduleConflict_eq_dec : EqDecision ScheduleConflict.
Proof. solve_decision. Defined.
Record NamedWindow := mkNamed { nw_JobID : string; nw_Window : ScheduledWindow }.

Definition minute : Z := 60 * second.
Definition hour : Z := 60 * minute.
Definition defaultChainEnabled : enabled_steps := λ _, Some true.
Definition defaultOtherJobs : list OtherJobSettings :=
  [mkOtherJob "smart_self_test" true FrequencyWeekly "03:00"; mkOtherJob "appdata_backup" true FrequencyWeekly "04:00";
   mkOtherJob "restore_drill" true FrequencyMonthly "05:00"; mkOtherJob "container_update_check" true FrequencyDaily "06:00"].
Definition stepDurationEstimates (s : Step) : Z :=
  match s with
  | StepMover => hour
  | StepDiffGuard => 15 * minute
  | StepSync => 2 * hour
  | StepScrub => 4 * hour
  | StepConfigBackup => 10 * minute
  end.
(** [otherJobDurationEstimates] and [otherJobClasses] of an id; zero and no class
    for one that is not listed. *)
Definition otherJobEstimate (id : string) : Z * Class :=
  if bool_decide (id = "smart_self_test") then (2 * hour, ClassService)
  else if bool_decide (id = "appdata_backup") then (3 * hour, ClassService)
  else if bool_decide (id = "restore_drill") then (hour, ClassService)
  else if bool_decide (id = "container_update_check") then (30 * minute, ClassService)
  else (0, ClassNone).
Definition DefaultChainSettings : ChainSettings := mkChainSettings DefaultChainStartTime DefaultWeeklyScrubDay (Some defaultChainEnabled).
Definition DefaultOtherJobs : list OtherJobSettings := defaultOtherJobs.

(** ** Times of day *)
Fixpoint digits (s : string) : bool := match s with EmptyString => true | String c s => isDigit c && digits s end.
Definition parseTwoDigit (s : string) (max : Z) : res err Z :=
  if negb (String.length s =? 2)%nat then Err (EOther ("want two digits, got " +:+ quoted s))
  else if negb (digits s) then Err (EOther ("non-digit in " +:+ quoted s))
  else let n := value 0 s in if max <? n then Err (EOther (pretty n +:+ " exceeds " +:+ pretty max)) else Ok n.
Definition ParseClock (text : string) : res err (Z * Z) :=
  match GoString.split ":"%char text with
  | [h; m] =>
      match parseTwoDigit h 23 with
      | Err e => Err (wrap ("job: invalid time " +:+ quoted text +:+ ": ") e)
      | Ok h =>
          match parseTwoDigit m 59 with
          | Err e => Err (wrap ("job: invalid time " +:+ quoted text +:+ ": ") e)
          | Ok m => Ok (h, m)
          end
      end
  | _ => Err (EOther ("job: invalid time " +:+ quoted text +:+ ": want HH:MM"))
  end.
(** The time of day, in seconds, of a setting; that of [fallback] if it is none. *)
Definition clock_of (text fallback : string) : Z :=
  match ParseClock text with
  | Ok (h, m) => 3600 * h + 60 * m
  | Err _ => match ParseClock fallback with Ok (h, m) => 3600 * h + 60 * m | Err _ => 0 end
  end.

Definition ChainSchedulePreview (startTime : string) : string := "every day at " +:+ startTime.
Definition OtherJobSchedulePreview (freq time : string) : string :=
  if bool_decide (freq = FrequencyDaily) then "every day at " +:+ time
  else if bool_decide (freq = FrequencyWeekly) then "every Sunday at " +:+ time
  else if bool_decide (freq = FrequencyMonthly) then "on the 1st of each month at " +:+ time
  else "at " +:+ time.

(** ** Next runs *)
(** [time.Date(year, month, day, hour, minute, 0, 0, loc)] of the local date of now,
    and of the first of its month. *)
Definition today_at (loc : Location) (now clock : Z) : Z :=
  let '(y, m, d) := civil_from_days (local_day loc now) in go_Date loc y m d clock 0.
Definition month_at (loc : Location) (now clock : Z) : Z :=
  let '(y, m, d) := civil_from_days (local_day loc now) in go_Date loc y m 1 clock 0.

Definition NextChainRun (now : Z) (loc : Location) (startTime : string) : Z :=
  let candidate := today_at loc now (clock_of startTime DefaultChainStartTime) in
  if negb (now <? candidate) then AddDate loc candidate 0 0 1 else candidate.
(** A location that is not given is UTC. *)
Definition ChainIsDue (now : Z) (loc : option Location) (startTime : string) (lastRun : option Z) (armedAt : Z) : bool :=
  let loc := default UTC loc in
  let todayStart := today_at loc now (clock_of startTime DefaultChainStartTime) in
  if now <? todayStart then false else default armedAt lastRun <? todayStart.

Definition NextOtherJobRun (now : Z) (loc : Location) (job : OtherJobSettings) : Z :=
  let clock := clock_of (oj_Time job) "00:00" in
  let candidate := today_at loc now clock in
  if bool_decide (oj_Frequency job = FrequencyWeekly) then
    let candidate := AddDate loc candidate 0 0 ((0 - go_Weekday loc candidate + 7) mod 7) in
    if negb (now <? candidate) then AddDate loc candidate 0 0 7 else candidate
  else if bool_decide (oj_Frequency job = FrequencyMonthly) then
    let candidate := month_at loc now clock in
    if negb (now <? candidate) then AddDate loc candidate 0 1 0 else candidate
  else if now <? candidate then candidate else AddDate loc candidate 0 0 1.
Definition PrevOtherJobRun (now : Z) (loc : Location) (job : OtherJobSettings) : Z :=
  let clock := clock_of (oj_Time job) "00:00" in
  let candidate := today_at loc now clock in
  if bool_decide (oj_Frequency job = FrequencyWeekly) then
    let candidate := AddDate loc candidate 0 0 (- ((go_Weekday loc candidate - 0 + 7) mod 7)) in
    if now <? candidate then AddDate loc candidate 0 0 (-7) else candidate
  else if bool_decide (oj_Frequency job = FrequencyMonthly) then
    let candidate := month_at loc now clock in
    if now <? candidate then AddDate loc candidate 0 (-1) 0 else candidate
  else if now <? candidate then AddDate loc candidate 0 0 (-1) else candidate.
Definition OtherJobIsDue (now : Z) (loc : option Location) (job : OtherJobSettings) (since : Z) : bool :=
  oj_Enabled job && (since <? PrevOtherJobRun now (default UTC loc) job).

(** ** Windows *)
Definition stepClass (s : Step) : option Class :=
  match s with
  | StepMover => Some ClassArrayWrite
  | StepSync | StepScrub => Some ClassParity
  | _ => None
  end.
Fixpoint chain_windows (steps : list Step) (weekly : bool) (enabled : enabled_steps) (cursor : Z) : list NamedWindow :=
  match steps with
  | [] => []
  | s :: rest =>
      if bool_decide (s = StepScrub) && negb weekly then chain_windows rest weekly enabled cursor
      else if bool_decide (enabled s = Some false) then chain_windows rest weekly enabled cursor
      else
        let dur := stepDurationEstimates s in
        match stepClass s with
        | None => chain_windows rest weekly enabled (cursor + dur)
        | Some class => mkNamed MaintenanceChainJobID (mkWindow class [] cursor dur) :: chain_windows rest weekly enabled (cursor + dur)
        end
  end.
Definition ChainWindows (start : Z) (loc : option Location) (weeklyScrubDay : Z) (enabled : option enabled_steps) : list NamedWindow :=
  chain_windows chainOrder (go_Weekday (default UTC loc) start =? weeklyScrubDay) (default defaultChainEnabled enabled) start.
Definition OtherJobWindow (start : Z) (job : OtherJobSettings) : NamedWindow :=
  let '(dur, class) := otherJobEstimate (oj_ID job) in
  mkNamed (oj_ID job) (mkWindow class [] start (if dur =? 0 then hour else dur)).

(** The pairs of windows in the order of the loops. *)
Fixpoint window_pairs (windows : list NamedWindow) : list (NamedWindow * NamedWindow) :=
  match windows with
  | [] => []
  | a :: rest => map (pair a) rest ++ window_pairs rest
  end.
Definition named_conflict (p : NamedWindow * NamedWindow) : ScheduleConflict :=
  let jobA := nw_JobID p.1 in let jobB := nw_JobID p.2 in
  if String.ltb jobB jobA then mkConflict jobB jobA else mkConflict jobA jobB.
Definition add_conflict (conflicts : list ScheduleConflict) (p : NamedWindow * NamedWindow) : list ScheduleConflict :=
  if negb (DetectConflict (nw_Window p.1) (nw_Window p.2)) then conflicts
  else if bool_decide (named_conflict p ∈ conflicts) then conflicts
  else conflicts ++ [named_conflict p].
Definition DetectScheduleConflicts (windows : list NamedWindow) : list ScheduleConflict :=
  foldl add_conflict [] (window_pairs windows).

Definition BuildScheduleWindows (now : Z) (loc : Location) (chain : ChainSettings) (others : list OtherJobSettings) : list NamedWindow :=
  ChainWindows (NextChainRun now loc (cs_StartTime chain)) (Some loc) (cs_WeeklyScrubDay chain) (cs_Enabled chain)
  ++ map (λ job, OtherJobWindow (NextOtherJobRun now loc job) job) (List.filter oj_Enabled others).
