(* ===== verification/ScheduleSafety.v ===== *)
(** * What the schedules promise

    In a location whose local dates never go back and that has the time of day on
    every date: the chain is first due at the instant that was shown as its next run,
    and a job scheduled on its own exactly when one of its windows has opened since.
    Where a date lacks the time of day, the shown run and the due one part. *)
From S2P Require Export Schedule.
Open Scope string_scope.
Open Scope list_scope.
Open Scope Z_scope.
#[local] Ltac Zify.zify_post_hook ::= Z.to_euclidean_division_equations.

(** Local dates never go back. *)
Definition orderly (loc : Location) : Prop := ∀ s t, s ≤ t → local_day loc s ≤ local_day loc t.
(** Every date has the time of day. *)
Definition window (loc : Location) (clock n : Z) : Z := wall loc (n * seconds_of_day + clock) * second.
Definition keeps_clock (loc : Location) (clock : Z) : Prop :=
  ∀ n, local_day loc (window loc clock n) = n ∧ local_clock loc (window loc clock n) = clock.
(** The dates on which a job's window opens. *)
Definition opens (freq : string) (n : Z) : Prop :=
  if bool_decide (freq = FrequencyWeekly) then (n + 4) mod 7 = 0
  else if bool_decide (freq = FrequencyMonthly) then first_day n else True.

Section windows.
Context (loc : Location) (clock : Z) (Horder : orderly loc) (Hclock : keeps_clock loc clock).
Abbreviation win := (window loc clock).

Lemma month_kept y m : 1 ≤ m ≤ 12 → y + (m - 1) / 12 = y ∧ (m - 1) mod 12 + 1 = m.
Proof. intros H. rewrite Z.div_small, Z.mod_small by lia. lia. Qed.
Lemma date_window n y m d : civil_from_days n = (y, m, d) → go_Date loc y m d clock 0 = win n.
Proof.
  intros Hn. pose proof (civil_day n) as H. rewrite Hn in H. destruct H as (Hd&Hm&_). unfold go_Date, window.
  destruct (month_kept y m Hm) as [-> ->]. rewrite Hd. lia.
Qed.
Lemma add_date n dy dm dd : AddDate loc (win n) dy dm dd =
  let '(y, m, d) := civil_from_days n in go_Date loc (y + dy) (m + dm) (d + dd) clock 0.
Proof.
  unfold AddDate. destruct (Hclock n) as [-> ->]. unfold window. by rewrite Z.mod_mul.
Qed.
Lemma add_days n k : AddDate loc (win n) 0 0 k = win (n + k).
Proof.
  rewrite add_date. pose proof (civil_day n) as H. destruct (civil_from_days n) as [[y m] d]. destruct H as (Hd&Hm&_).
  unfold go_Date, window. rewrite !Z.add_0_r. destruct (month_kept y m Hm) as [-> ->]. by rewrite days_add, Hd.
Qed.
Lemma today_window now : today_at loc now clock = win (local_day loc now).
Proof. unfold today_at. destruct (civil_from_days _) as [[y m] d] eqn:H. by apply date_window. Qed.

Lemma window_before n t : n < local_day loc t → win n < t.
Proof. intros H. destruct (Z.lt_ge_cases (win n) t) as [|Hge]; [done|]. apply Horder in Hge. destruct (Hclock n) as [Hn _]. lia. Qed.
Lemma window_after n t : local_day loc t < n → t < win n.
Proof. intros H. destruct (Z.lt_ge_cases t (win n)) as [|Hge]; [done|]. apply Horder in Hge. destruct (Hclock n) as [Hn _]. lia. Qed.
Lemma window_lt n n' : win n < win n' ↔ n < n'.
Proof.
  assert (∀ a b, a < b → win a < win b) as H by (intros a b Hab; apply window_after; by destruct (Hclock a) as [-> _]).
  split; [|apply H]. intros Hw. destruct (Z.lt_trichotomy n n') as [|[->|Hn]]; [done|lia|]. pose proof (H _ _ Hn). lia.
Qed.
Lemma window_le n n' : win n ≤ win n' ↔ n ≤ n'.
Proof. rewrite !Z.le_ngt, window_lt. done. Qed.

(** The next window after an instant, and the last one up to it. *)
Definition next_window now : Z := if now <? win (local_day loc now) then local_day loc now else local_day loc now + 1.
Lemma next_window_spec now n : now < win n ↔ next_window now ≤ n.
Proof.
  unfold next_window. destruct (Z.ltb_spec now (win (local_day loc now))) as [H|H].
  - split; intros H'; [destruct (Z.lt_ge_cases n (local_day loc now)) as [Hg|]; [|done]; apply window_before in Hg; lia|].
    apply window_le in H'. lia.
  - split; intros H'; [|apply window_after; lia]. assert (local_day loc now < n) by (apply window_lt; lia). lia.
Qed.
Lemma chain_next now start : clock = clock_of start DefaultChainStartTime → NextChainRun now loc start = win (next_window now).
Proof.
  intros Hc. unfold NextChainRun, next_window. rewrite <-Hc, today_window. destruct (now <? _); cbn [negb]; [done|]. apply add_days.
Qed.

(** ** Jobs scheduled on their own *)
Lemma weekday_back n k : k = (n + 4) mod 7 → (n - k + 4) mod 7 = 0 ∧ ∀ n', n - k < n' ≤ n → (n' + 4) mod 7 ≠ 0.
Proof. intros ->. split; [|intros n' H]; lia. Qed.
Lemma weekday_on n k : k = (0 - (n + 4) mod 7 + 7) mod 7 → (n + k + 4) mod 7 = 0 ∧ ∀ n', n ≤ n' < n + k → (n' + 4) mod 7 ≠ 0.
Proof. intros ->. split; [|intros n' H]; lia. Qed.

(** A date on which a window opens, and the instant. *)
Definition is_window (freq : string) (n t : Z) : Prop := opens freq n ∧ t = win n.
Lemma prev_window job now : clock = clock_of (oj_Time job) "00:00" →
  ∃ n, is_window (oj_Frequency job) n (PrevOtherJobRun now loc job) ∧ win n ≤ now ∧
    ∀ n', opens (oj_Frequency job) n' → win n' ≤ now → n' ≤ n.
Proof.
  intros Hc. unfold PrevOtherJobRun, is_window, opens. rewrite <-Hc, today_window.
  set (N := local_day loc now). assert (∀ n', win n' ≤ now → n' ≤ N) as Hmax.
  { intros n' H. destruct (Z.lt_ge_cases N n') as [Hg|]; [|done]. apply window_after in Hg. lia. }
  assert (∀ n, n < N → win n ≤ now) as Hpast by (intros n H; apply Z.lt_le_incl, window_before, H).
  case_bool_decide.
  - unfold go_Weekday. destruct (Hclock N) as [-> _]. set (k := (N + 4) mod 7).
    replace ((k - 0 + 7) mod 7) with k by (unfold k; lia). rewrite add_days. destruct (weekday_back N k eq_refl) as [Hk Hno].
    replace (N + - k) with (N - k) by lia. destruct (Z.ltb_spec now (win (N - k))) as [Hl|Hg].
    + rewrite add_days. exists (N - k + -7). split; [split; [lia|done]|]. split.
      * apply Hpast. assert (0 ≤ k) by (unfold k; lia). lia.
      * intros n' Ho Hn'. assert (n' ≤ N) by by apply Hmax. assert (n' < N - k) by (apply window_lt; lia). lia.
    + exists (N - k). split; [by split|]. split; [done|]. intros n' Ho Hn'.
      destruct (Z.lt_ge_cases (N - k) n') as [Hlt|]; [|done]. apply Hmax in Hn'. by destruct (Hno n' ltac:(lia)).
  - case_bool_decide; [|destruct (Z.ltb_spec now (win N)) as [Hl|Hg]].
    + unfold month_at. fold N. destruct (civil_from_days N) as [[y m] d] eqn:HN.
      destruct (month_first N y m d HN) as (Hf&_&Hno). pose proof (civil_day N) as HdN. rewrite HN in HdN. destruct HdN as (_&_&Hd&_).
      rewrite (date_window _ _ _ _ Hf). set (n1 := N - d + 1) in *.
      destruct (Z.ltb_spec now (win n1)) as [Hl|Hg].
      * rewrite add_date, Hf. destruct (month_before n1 y m Hf) as (Hlt&Hf0&Hno0).
        pose proof (civil_day n1) as Hd1. rewrite Hf in Hd1. destruct Hd1 as (_&Hm&_).
        set (n0 := days_from_civil _ _ _) in *. exists n0.
        assert (go_Date loc (y + 0) (m + -1) (1 + 0) clock 0 = win n0) as ->.
        { unfold go_Date, window, n0. rewrite !Z.add_0_r. by replace (m + -1 - 1) with (m - 1 - 1) by lia. }
        split; [by split|]. split; [apply Hpast; lia|]. intros n' Ho Hn'.
        assert (n' < n1) by (apply window_lt; lia). destruct (Z.lt_ge_cases n0 n') as [Hb|]; [|done]. by destruct (Hno0 n' ltac:(lia)).
      * exists n1. split; [split; [unfold first_day; by rewrite Hf|done]|]. split; [done|]. intros n' Ho Hn'.
        destruct (Z.lt_ge_cases n1 n') as [Hb|]; [|done]. apply Hmax in Hn'. by destruct (Hno n' ltac:(lia)).
    + rewrite add_days. exists (N + -1). split; [done|]. split; [apply Hpast; lia|]. intros n' _ Hn'.
      assert (n' < N) by (apply window_lt; lia). lia.
    + exists N. split; [done|]. split; [done|]. intros n' _. apply Hmax.
Qed.
Lemma next_job_window job now : clock = clock_of (oj_Time job) "00:00" →
  ∃ n, is_window (oj_Frequency job) n (NextOtherJobRun now loc job) ∧ now < win n ∧
    ∀ n', opens (oj_Frequency job) n' → now < win n' → n ≤ n'.
Proof.
  intros Hc. unfold NextOtherJobRun, is_window, opens. rewrite <-Hc, today_window.
  set (N := local_day loc now). assert (∀ n', now < win n' → N ≤ n') as Hmin.
  { intros n' H. destruct (Z.lt_ge_cases n' N) as [Hg|]; [|done]. apply window_before in Hg. lia. }
  assert (∀ n, N < n → now < win n) as Hfuture by (intros n H; apply window_after, H).
  case_bool_decide.
  - unfold go_Weekday. destruct (Hclock N) as [-> _]. set (k := (0 - (N + 4) mod 7 + 7) mod 7).
    rewrite add_days. destruct (weekday_on N k eq_refl) as [Hk Hno]. destruct (Z.ltb_spec now (win (N + k))) as [Hl|Hg]; cbn [negb].
    + exists (N + k). split; [by split|]. split; [done|]. intros n' Ho Hn'.
      destruct (Z.lt_ge_cases n' (N + k)) as [Hlt|]; [|done]. apply Hmin in Hn'. by destruct (Hno n' ltac:(lia)).
    + rewrite add_days. exists (N + k + 7). split; [split; [lia|done]|]. split.
      * apply Hfuture. assert (0 ≤ k) by (unfold k; lia). lia.
      * intros n' Ho Hn'. assert (N ≤ n') by by apply Hmin. assert (N + k < n') by (apply window_lt; lia). lia.
  - case_bool_decide; [|destruct (Z.ltb_spec now (win N)) as [Hl|Hg]].
    + unfold month_at. fold N. destruct (civil_from_days N) as [[y m] d] eqn:HN.
      destruct (month_first N y m d HN) as (Hf&_&Hno). pose proof (civil_day N) as HdN. rewrite HN in HdN. destruct HdN as (_&_&Hd&_).
      rewrite (date_window _ _ _ _ Hf). set (n1 := N - d + 1) in *.
      destruct (month_after n1 y m Hf) as (Hlt&Hf2&Hno2).
      destruct (Z.ltb_spec now (win n1)) as [Hl|Hg]; cbn [negb].
      * exists n1. split; [split; [unfold first_day; by rewrite Hf|done]|]. split; [done|]. intros n' Ho Hn'. apply Hmin in Hn'. lia.
      * rewrite add_date, Hf. set (n2 := days_from_civil _ _ _) in *. exists n2.
        assert (go_Date loc (y + 0) (m + 1) (1 + 0) clock 0 = win n2) as -> by (unfold go_Date, window, n2; by rewrite !Z.add_0_r).
        assert (∀ n', n1 < n' → opens FrequencyMonthly n' → n2 ≤ n') as Hgap.
        { intros n' H1 Ho. destruct (Z.lt_ge_cases n' n2) as [Hb|]; [|done]. by destruct (Hno2 n' ltac:(lia)). }
        assert (N < n2).
        { destruct (Z.lt_ge_cases N n2) as [|Hb]; [done|]. by destruct (Hno n2 ltac:(lia)). }
        split; [by split|]. split; [by apply Hfuture|]. intros n' Ho Hn'. apply Hgap; [|done]. apply window_lt. lia.
    + exists N. split; [done|]. split; [done|]. intros n' _. apply Hmin.
    + rewrite add_days. exists (N + 1). split; [done|]. split; [apply Hfuture; lia|]. intros n' _ Hn'.
      assert (N < n') by (apply window_lt; lia). lia.
Qed.
End windows.

Section claims.
Context (loc : Location) (Horder : orderly loc).

(** C39: In a location whose dates never go back and that has the chain's start on
    every date: from the moment the chain was last started, or was armed, the first
    instant at which it is due is the one that is shown as its next run, which comes
    strictly after that moment; so it never starts twice for one date. *)
Theorem chain_due_from_its_preview start lastRun armedAt now :
  keeps_clock loc (clock_of start DefaultChainStartTime) →
  let claimed := default armedAt lastRun in let next := NextChainRun claimed loc start in
  claimed < next ∧ ChainIsDue next (Some loc) start lastRun armedAt = true ∧
  (ChainIsDue now (Some loc) start lastRun armedAt = true → next ≤ now) ∧
  (∀ lastRun' armedAt', ChainIsDue claimed (Some loc) start lastRun' armedAt' = true → local_day loc claimed = local_day loc now →
     ChainIsDue now (Some loc) start lastRun armedAt = false).
Proof.
  intros Hk. set (clock := clock_of _ _) in *. intros claimed next. set (win := window loc clock).
  assert (∀ t, today_at loc t clock = win (local_day loc t)) as Htoday by (intros; by apply today_window).
  assert (next = win (next_window loc clock claimed)) as Hnext by by apply chain_next.
  assert (∀ t, ChainIsDue t (Some loc) start lastRun armedAt = true ↔ win (local_day loc t) ≤ t ∧ claimed < win (local_day loc t)) as Hdue.
  { intros t. unfold ChainIsDue. change (default UTC (Some loc)) with loc. fold clock. rewrite Htoday. fold claimed.
    destruct (Z.ltb_spec t (win (local_day loc t))); [split; [done|lia]|]. rewrite Z.ltb_lt. lia. }
  assert (claimed < next) as Hlt by (rewrite Hnext; by apply next_window_spec).
  split; [done|]. split; [|split].
  - apply Hdue. rewrite Hnext in *. unfold win. destruct (Hk (next_window loc clock claimed)) as [-> _]. fold win. lia.
  - rewrite Hdue. intros [H1 H2]. apply next_window_spec in H2; [|done..]. etrans; [|exact H1]. rewrite Hnext. by apply window_le.
  - intros lastRun' armedAt' Hc Hday. apply not_true_iff_false. rewrite Hdue. rewrite <-Hday. unfold ChainIsDue in Hc. change (default UTC (Some loc)) with loc in Hc. fold clock in Hc.
    rewrite Htoday in Hc. destruct (Z.ltb_spec claimed (win (local_day loc claimed))); [done|]. lia.
Qed.

End claims.

(** ** Conflicts *)
Lemma window_pairs_spec ws a b : (a, b) ∈ window_pairs ws ↔ ∃ i j, (i < j)%nat ∧ ws !! i = Some a ∧ ws !! j = Some b.
Proof.
  induction ws as [|w ws IH]; cbn [window_pairs].
  { split; [by intros ?%elem_of_nil|]. by intros (i&j&_&?&_). }
  rewrite elem_of_app, list_elem_of_fmap, IH. split.
  - intros [(b'&[= -> ->]&(j&Hj)%list_elem_of_lookup)|(i&j&Hij&Hi&Hj)].
    + exists 0%nat, (Datatypes.S j). split_and!; [lia|done|done].
    + exists (Datatypes.S i), (Datatypes.S j). split_and!; [lia|done|done].
  - intros (i&j&Hij&Hi&Hj). destruct j as [|j]; [lia|]. destruct i as [|i]; cbn in *.
    + injection Hi as ->. left. exists b. split; [done|]. by eapply list_elem_of_lookup_2.
    + right. exists i, j. split_and!; [lia|done|done].
Qed.
Lemma add_conflicts_spec ps : ∀ found, NoDup found →
  NoDup (foldl add_conflict found ps) ∧ ∀ c, c ∈ foldl add_conflict found ps ↔
    c ∈ found ∨ ∃ p, p ∈ ps ∧ DetectConflict (nw_Window p.1) (nw_Window p.2) = true ∧ c = named_conflict p.
Proof.
  induction ps as [|p ps IH]; intros found Hnd; cbn [foldl]; [split; [done|]; intros c; split; [by left|]; intros [|(p&?%elem_of_nil&_)]; done|].
  assert (NoDup (add_conflict found p) ∧ ∀ c, c ∈ add_conflict found p ↔
    c ∈ found ∨ (DetectConflict (nw_Window p.1) (nw_Window p.2) = true ∧ c = named_conflict p)) as [Hnd' Hp].
  { unfold add_conflict. destruct (DetectConflict _ _); cbn [negb]; [case_bool_decide as Hin|].
    - split; [done|]. intros c. split; [by left|]. by intros [|[_ ->]].
    - split; [apply NoDup_app; split_and!; [done| |by apply NoDup_singleton]|].
      + intros c Hc ->%list_elem_of_singleton. done.
      + intros c. rewrite elem_of_app, list_elem_of_singleton. naive_solver.
    - split; [done|]. intros c. split; [by left|]. by intros [|[? _]]. }
  destruct (IH _ Hnd') as [H1 H2]. split; [done|]. intros c. rewrite H2, Hp. setoid_rewrite elem_of_cons. naive_solver.
Qed.

(** The conflicts that are reported are, each once, the pairs of the names of two
    windows of the list that overlap and whose classes may not run together. *)
Theorem conflicts_reported_once windows :
  NoDup (DetectScheduleConflicts windows) ∧
  ∀ c, c ∈ DetectScheduleConflicts windows ↔
    ∃ i j a b, (i < j)%nat ∧ windows !! i = Some a ∧ windows !! j = Some b ∧
      sw_start (nw_Window a) < window_end (nw_Window b) ∧ sw_start (nw_Window b) < window_end (nw_Window a) ∧
      conflicts (sw_class (nw_Window a)) (sw_class (nw_Window b)) (sw_resourceIDs (nw_Window a)) (sw_resourceIDs (nw_Window b)) = true ∧
      c = named_conflict (a, b).
Proof.
  destruct (add_conflicts_spec (window_pairs windows) [] ltac:(constructor)) as [H1 H2]. split; [exact H1|]. intros c.
  unfold DetectScheduleConflicts. rewrite H2. assert (∀ a b, DetectConflict a b = true ↔
    sw_start a < window_end b ∧ sw_start b < window_end a ∧ conflicts (sw_class a) (sw_class b) (sw_resourceIDs a) (sw_resourceIDs b) = true) as Hd.
  { intros a b. unfold DetectConflict. destruct (Z.ltb_spec (sw_start a) (window_end b)), (Z.ltb_spec (sw_start b) (window_end a)); cbn;
      split; try done; try tauto; intros (?&?&?); lia. }
  split.
  - intros [?%elem_of_nil|([a b]&Hin&Hc&->)]; [done|]. apply window_pairs_spec in Hin as (i&j&Hij&Hi&Hj). apply Hd in Hc as (?&?&?).
    exists i, j, a, b. auto 10.
  - intros (i&j&a&b&Hij&Hi&Hj&?&?&?&->). right. exists (a, b). split; [apply window_pairs_spec; eauto|]. split; [by apply Hd|done].
Qed.

(** ** A location *)

(** Central Europe's summer time of 2026. *)
Module DemoZone.
Definition spring : Z := 1774746000.
Definition autumn : Z := 1792890000.
Definition berlin : Location := mkLocation (λ sec,
  if sec <? spring then (3600, - 2 ^ 63, spring) else if sec <? autumn then (7200, spring, autumn) else (3600, autumn, 2 ^ 63 - 1)).
(** 12:00 on 29 March. *)
Definition noon : Z := (spring + 9 * 3600) * second.
(** A location whose clocks go from midnight to one, west of Greenwich. *)
Definition santiago : Location := mkLocation (λ sec,
  if sec <? 1788667200 then (-14400, - 2 ^ 63, 1788667200) else (-10800, 1788667200, 2 ^ 63 - 1)).
End DemoZone.
Lemma berlin_orderly : orderly DemoZone.berlin.
Proof.
  intros s t Hst. unfold local_day, local_sec, zone_offset, DemoZone.berlin, second, seconds_of_day. cbn [zone_lookup].
  set (a := s / 10 ^ 9). set (b := t / 10 ^ 9). assert (a ≤ b) by (apply Z.div_le_mono; done). clearbody a b.
  unfold DemoZone.spring, DemoZone.autumn. repeat case_match; rewrite ?Z.ltb_lt, ?Z.ltb_ge in *; cbn [fst snd]; lia.
Qed.
Lemma berlin_keeps clock : 10800 ≤ clock < 86400 → keeps_clock DemoZone.berlin clock.
Proof.
  intros Hc n. unfold local_day, local_clock, local_sec, zone_offset, window. unfold second. rewrite !Z.div_mul by done.
  unfold wall, zone_offset, DemoZone.berlin, seconds_of_day. cbn [zone_lookup].
  unfold DemoZone.spring, DemoZone.autumn. repeat case_match; simplify_eq; rewrite ?Z.ltb_lt, ?Z.ltb_ge, ?Z.eqb_eq in *; cbn [fst snd] in *; lia.
Qed.

Lemma chain_due_from_its_preview_witness :
  let next := NextChainRun DemoZone.noon DemoZone.berlin "04:00" in
  next = (DemoZone.spring + 25 * 3600) * second ∧ DemoZone.noon < next ∧
  ChainIsDue next (Some DemoZone.berlin) "04:00" (Some DemoZone.noon) 0 = true.
Proof.
  intros next. split; [vm_compute; reflexivity|].
  destruct (chain_due_from_its_preview DemoZone.berlin berlin_orderly "04:00" (Some DemoZone.noon) 0 0) as (H1&H2&_).
  { apply berlin_keeps. vm_compute. split; congruence. }
  exact (conj H1 H2).
Defined.

(** On the night the clocks go forward the default start of 02:00 does not exist and
    falls on 03:00; the run that is shown after it is at 03:00 of the next day too,
    an hour after the chain is due. *)
Example preview_after_gap_is_late :
  let start := DefaultChainStartTime in let next := NextChainRun DemoZone.noon DemoZone.berlin start in
  next = (DemoZone.spring + 24 * 3600) * second ∧
  ChainIsDue (next - hour) (Some DemoZone.berlin) start (Some DemoZone.noon) 0 = true.
Proof. vm_compute. auto. Qed.
(** Where the gap is at midnight, a start within it falls on the day before, and the
    run that is shown at 23:45 is in the past. *)
Example preview_in_the_past :
  let now := (1788667200 + 22 * 3600 + 45 * 60) * second in
  local_clock DemoZone.santiago now = 23 * 3600 + 45 * 60 ∧ NextChainRun now DemoZone.santiago "00:30" = now - 15 * minute.
Proof. vm_compute. auto. Qed.
(** Two appdata backups at one time would collide with each other and with the SMART
    self-test that is not done by then; the chain, whose classes are others, with none. *)
Example demo_conflicts :
  let job := mkOtherJob "appdata_backup" true FrequencyWeekly "04:00" in
  let ws := BuildScheduleWindows DemoZone.noon DemoZone.berlin DefaultChainSettings (job :: DefaultOtherJobs) in
  DetectScheduleConflicts ws = [mkConflict "appdata_backup" "smart_self_test"; mkConflict "appdata_backup" "appdata_backup"].
Proof. vm_compute. reflexivity. Qed.
